(* ===== verification/_CoqProject ===== *)
-Q . S2P
Prelude.v
NetErrors.v
GoStrings.v
Decimal.v
Frame.v
FrameFacts.v
FrameWriters.v
FrameWritersFacts.v
Router.v
RouterFacts.v
WebContext.v
WebServer.v
WebServerFacts.v
WebLifecycle.v
WebLifecycleFacts.v
WebMiddleware.v
WebMiddlewareFacts.v
WebTrace.v
Stream.v
StreamFacts.v
StreamPool.v
StreamPoolFacts.v
StreamPoolWait.v
StreamPoolWaitFacts.v
Endpoint.v
EndpointFacts.v
Balancer.v
BalancerFacts.v
NetClient.v
NetClientFacts.v
NetServer.v
NetServerFacts.v
NetLifecycle.v
NetLifecycleFacts.v
NetOptions.v
ConnPool.v
ConnPoolFacts.v
ConnPoolConn.v
ConnPoolWait.v
ConnPoolWaitFacts.v
RpcMessage.v
RpcMessageFacts.v
Rpc.v
RpcFacts.v
RpcStack.v
RpcStackFacts.v
LocalCache.v
LocalCacheFacts.v
CacheLife.v
RedisLock.v
RedisLockFacts.v
OrmModel.v
OrmModelFacts.v
OrmFixture.v
OrmBuilder.v
OrmQuery.v
OrmQueryFacts.v
OrmTextFacts.v
OrmParseFacts.v
OrmExec.v
OrmExecFacts.v
OrmRowsFacts.v
OrmSql.v
OrmSqlFacts.v
OrmStmtFacts.v
OrmStoreFacts.v
OrmSessionFacts.v
OrmGen.v
OrmGenFacts.v
GrpcPickers.v
GrpcPickersFacts.v
CachePatterns.v
Float64Facts.v
RateLimit.v
RateLimitFacts.v
GrpcRegistry.v
GrpcRegistryFacts.v
