(* ===== verification/Prelude.v ===== *)
(** * Soil: a verification of the Soil framework

    Soil is a Go framework: an HTTP framework ([src/web]), a multiplexed RPC
    transport ([src/micro/net]), an older reflective RPC framework
    ([src/micro/rpc]) on a connection pool ([src/micro/pool]), caches
    ([src/cache]), gRPC glue and load balancers ([src/micro]) and an ORM
    ([src/orm]).  This library translates its core into executable definitions and
    proves what makes them correct.  Files named [XFacts] hold the theorems about
    the file [X]; claims are the theorems whose comment starts with their number.

    ** Parts and how they interact

    Transport ([src/micro/net]).  A [Client] picks an endpoint with a balancer, takes
    a stream from the endpoint's pool, and calls; the stream numbers the request,
    writes a frame and waits on a channel that the reader goroutine fills; the server
    reads frames, runs a handler chain and writes replies with the request's number.
    - [NetErrors]: the error values of [frame.go] and [common.go], [errors.Is].
    - [Frame], [FrameFacts]: [frame.go], [common.go]: the binary frame, encoder,
      decoder over byte streams, partial writes.  Round trip, soundness and limits
      of decoding, pipelining, truncation, equality of the two encoders.
    - [FrameWriters], [FrameWritersFacts]: [sendFrame] of [server.go] and [writeFrame]
      of [stream.go] by many goroutines, with the write mutex and the shared pool of
      header buffers.  What is on a connection is whole frames in lock order, as long
      as no write on it fails.
    - [Stream], [StreamFacts]: [stream.go]: request table, dispatch, failure, one
      transition per critical section.  No answer reaches the wrong call; closing
      wakes every waiting call.
    - [StreamPool], [StreamPoolFacts]: [pool.go]: streams per endpoint, dials
      outside the lock, maintenance.  The bound on open streams in every
      interleaving; what [Get] does on every branch.
    - [StreamPoolWait], [StreamPoolWaitFacts]: the mutex, the condition variable, the
      callers' contexts and the background goroutine over the operations of
      [StreamPool].  Who waits for a stream is woken within a bounded number of steps
      of the background goroutine, which is never stuck.
    - [Endpoint], [EndpointFacts]: [endpoint.go]: parsing, merging and health of
      endpoints.  Merging refines a specification; printed lists parse back; the
      circuit breaker trips exactly at its threshold.
    - [Balancer], [BalancerFacts]: [balancer.go]: the class [Balancer] states what
      the client needs of a policy, the four policies are instances.  Smooth
      weighted round robin is exact over a cycle; round robin is fair.
    - [NetClient], [NetClientFacts]: [client.go], [options.go]: node selection,
      retries, book-keeping, proved against the class and not a policy.
    - [NetServer], [NetServerFacts]: [server.go], [handler.go]: connection loop,
      panic containment; and the end-to-end theorem through client stream, codec,
      server and back.
    - [NetLifecycle], [NetLifecycleFacts]: [Start], [Shutdown] and the control flow of
      connections in [server.go] as a transition system, with read deadlines and the
      half-close of TCP connections.  What holds when [Shutdown] returns; draining
      waits for handlers and writes only.
    - [NetOptions]: [options.go], [client.go]: the options of client and server,
      dialling, aggregated statistics.

    Web ([src/web]).
    - [Router], [RouterFacts]: [route.go]: the route tree with its five kinds of
      children.  Adding a route refines insertion in a map of routes; well-formedness;
      priority of matching; 404 against 405.
    - [WebContext], [WebServer], [WebServerFacts]: [context.go], [server.go],
      [group.go]: pooled contexts, the response cycle, middleware order, groups.  What
      a request is answered for every state a handler can leave behind.
    - [WebMiddleware], [WebMiddlewareFacts]: [middleware/]: CORS, recovery, body
      size, request id, timeout, gzip, access log, error pages.
    - [WebTrace]: [middleware/opentelemetry], the builders of the other middlewares,
      forms and cookies of [context.go].  Spans match the response.
    - [WebLifecycle], [WebLifecycleFacts]: starting, signals and stopping in
      [server.go] over the documented behaviour of [http.Server].
    - [RateLimit], [RateLimitFacts]: [middleware/ratelimit]: the token bucket over an
      interface of arithmetic with [float64] as an instance, buckets per client in a
      heap.  The bound on what is let through, with what rounding adds; no two clients
      share a bucket.  [Float64Facts] bounds the rounding error of the operations.

    Reflective RPC ([src/micro/rpc], [src/micro/pool]).
    - [RpcMessage], [RpcMessageFacts]: [message/request.go], [message/response.go],
      [common.go]: the text-and-binary message codec with its panics, stream reads.
    - [Rpc], [RpcFacts]: [client.go], [server.go], [context.go]: the generated
      client function, dispatch, the connection loop, the goroutine of [invoke].
      What [invoke] returns in every interleaving.
    - [RpcStack], [RpcStackFacts]: [serialize/], [compressor/], [NewClient],
      [InitClientProxy] and the accept loop: calls work end to end with the
      framework's own codecs, under the conditions on delivery and names the theorem
      lists.
    - [ConnPool], [ConnPoolFacts]: [pool/pool.go]: recycled connection objects in a
      store, cut at every release of the mutex.  Exact accounting while open; only
      connections that clients put in themselves exceed the capacity.
    - [ConnPoolConn]: the methods of [PoolConn]: who holds a connection can use it,
      and what becomes of one that is given back.
    - [ConnPoolWait], [ConnPoolWaitFacts]: the mutex, the condition variable and the
      contexts of callers over the operations of [ConnPool].  No wake-up is lost but
      for two broadcasts that do not hold the mutex.

    Cache ([src/cache]).
    - [LocalCache], [LocalCacheFacts]: [localCache.go], [size.go]: nodes in a heap,
      the doubly linked list, eviction.  The cache refines a lossy map with expiry.
    - [CacheLife]: the clean-up goroutine and [Close].
    - [RedisLock], [RedisLockFacts]: [redis_lock.go], [retry.go] and the scripts:
      atomic steps over a class of Redis commands.  Mutual exclusion, life cycle.
    - [CachePatterns]: [read_through.go], [write_through.go], [redis.go], over
      arbitrary caches and databases.

    Object-relational mapping ([src/orm]).  A statement ([Selector], [Inserter],
    [Updater], [Deleter]) looks up the metadata of its type, writes SQL text and
    arguments into a builder, and is executed through a chain of middlewares on a
    session; rows are stored in entities by one of two field accesses.
    - [OrmModel], [OrmModelFacts]: [internal/model], [internal/errs]: struct tags,
      naming, metadata with shared fields, the double-checked cache.  Well-formedness
      of metadata; the cache is transparent in every interleaving.
    - [OrmFixture]: [internal/valuer/simpleStruct.go]: a struct with a column of every
      kind, and a column stored as JSON, which reads back.
    - [OrmBuilder]: [expression.go], [predicate.go], [column.go], [aggregate.go],
      [table.go], [assignment.go], [builder.go], reading of fields
      ([internal/valuer]): a state and error monad that keeps partial output.
    - [OrmQuery], [OrmQueryFacts]: [select.go], [insert.go], [updater.go],
      [delete.go], [dialect.go]: [Build] of the four statements.  A small program
      logic ([emits]) shows that quoted names are closed and placeholders match
      arguments, whatever the names contain, and that no well-formed query panics.
    - [OrmTextFacts], [OrmParseFacts]: the exact text of inserts, conditions and
      versioned updates ([writes]); conditions parse back to what was asked for.
    - [OrmExec], [OrmExecFacts]: [exechandler.go], [middleware.go], [hook.go],
      [result.go], [transaction.go], [db.go], the [Exec] and [Get] methods and the
      middlewares, over an arbitrary database.  Chunked inserts and defaults, the
      optimistic lock, atomic transactions.
    - [OrmRowsFacts]: rows to entities: the two accesses agree; reading one entity;
      pages; and the statements on which the builders go wrong.
    - [OrmSql]: the SQL the ORM writes, read independently of the builders: a lexer, a
      precedence parser, the meaning of the four statements on tables, and the class
      [SqlDatabase] that says of a driver and a database that they give the texts this
      meaning.  It is documented behaviour of code outside this repository; a
      statement that fails may have been done.
    - [OrmSqlFacts], [OrmStmtFacts]: the texts the builders write parse to the
      conditions and statements that were asked for.
    - [OrmStoreFacts]: what the parsed statements do to one table.
    - [OrmSessionFacts]: programs of inserts, saves, deletes and reads.  On every
      such database they refine operations on a list of entities; what was inserted
      is read back; of two saves based on one version the second is refused.  This is
      for conditions that are not bare disjunctions beside a soft-delete or version
      column, and without hooks and middlewares; examples show why.  An in-memory database shows the class can be met.
    - [OrmGen], [OrmGenFacts]: [gen/orm-gen]: the visitors as shared objects over the
      walk of [go/ast], the template.  The output reads back as the source.

    gRPC ([src/micro], [src/micro/loadBalance], [src/micro/route], [src/micro/registry]).
    - [GrpcPickers], [GrpcPickersFacts]: the five pickers and the group filter.  The
      least-active picker, one step per access to a counter, counts the calls under way
      and picks a least one when undisturbed; the others fail as shown.
    - [GrpcRegistry], [GrpcRegistryFacts]: [registry], [server.go], [client.go],
      [grpc_resolver.go]: the registry interface as a class, the etcd implementation
      over a class of etcd calls with expiring leases, servers and resolvers against the interface, the
      two watching goroutines as a transition system.  The registry refines a
      directory of instances; a registered server is found by resolvers with the
      attributes the pickers read; what a watch does after its first event.

    [Prelude], [GoStrings] and [Decimal] hold what the components share: results of
    fallible code, machine integers, bytes and big-endian numbers, Go's string
    functions, decimal numbers.

    ** Conventions

    Machine integers are [Z] with their wrap-around written out ([u32], [i64], ...).
    A fallible function returns [res] (value, error, panic), a sum or an option, as
    the file says.  Code that releases a lock in the middle is cut there into several
    definitions, and a step relation lets them interleave arbitrarily; reachability is
    [rtc] of it and invariants are proved by [rtc_invariant].  Library code (TLS,
    regular expressions, gzip, JSON, DNS, clocks, random numbers) is a parameter with
    the laws that are needed as hypotheses or classes; each claim with a hypothesis
    has a witness at concrete data.

    ** Fuel and bounds

    Recursion that is not structural has fuel, and a lemma shows that the fuel given
    by the caller is enough: writing a buffer makes progress with every successful
    partial write; reading frames consumes a header each; a group's parents have
    smaller indices; metadata lines and connection segments are consumed one by one
    ([decode_meta], [handleConn_ends]); every eviction round unlinks a node
    ([evict_spec]).  Overflow is excluded only where a claim says so: lengths below
    2^32, total weight times picks below 2^63 in [wrr_fair], fewer than 2^64 picks in
    [rr_fair], a threshold within 32 bits in [breaker_threshold], offsets within an
    [int] in [paginate_windows], a rate up to 2^64 and a capacity up to 2^50 in
    [rate_bound].
    [splitChunk] has one unit of fuel per value, and every chunk takes at least one;
    [conditions_read_back] gives the parser the depth of the condition.  The parser of
    [OrmSql] nests at most as deep as there are words, and its loops over lists have
    one unit of fuel per word left; the facts show that statements parse with it.

    ** Not modelled

    Sockets, TLS and timers beyond the inputs they produce; logging, metrics and
    tracing beyond their effect on what they wrap; generated code, mocks and the
    experiments under [src/test]; methods that only pass a call on to
    [database/sql]; the insides of etcd, Redis, gRPC and [net/http].  Of the ORM:
    struct types with embedded fields, identifiers outside ASCII, the conversion of
    column values ([database/sql], a parameter).  The meaning of SQL in [OrmSql] is
    that of tables without keys and constraints; joins, aggregates and upserts are
    built and checked as text only.  In the pools, retired streams are closed in the
    step that takes them off the list, and time enters as the clock readings the
    code makes.  The life cycle of the transport's server is that of one call of
    [Start], and how a handler reacts to its cancelled context is left open. *)

From Stdlib Require Export Ascii ZArith Lia Permutation.
From stdpp Require Export base tactics numbers strings gmap list relations.

Declare Scope soil_scope.
Delimit Scope soil_scope with soil.

(** ** Results of Go functions

    [Ok] is a normal return, [Err] a non-nil [error], [Panic] a run-time panic
    (index out of range, nil dereference, explicit [panic]). *)
Inductive res (E A : Type) : Type :=
| Ok (a : A)
| Err (e : E)
| Panic.
Arguments Ok {E A} a.
Arguments Err {E A} e.
Arguments Panic {E A}.

Definition res_bind {E A B} (m : res E A) (k : A → res E B) : res E B :=
  match m with
  | Ok a => k a
  | Err e => Err e
  | Panic => Panic
  end.

Definition res_map {E A B} (f : A → B) (m : res E A) : res E B :=
  res_bind m (λ a, Ok (f a)).

Notation "'let?' x := m 'in' k" := (res_bind m (fun x => k))
  (at level 200, x pattern, m at level 100, k at level 200) : soil_scope.

(** Go's slice index: panics outside the range. *)
Definition index_or_panic {E A} (l : list A) (i : nat) : res E A :=
  match l !! i with Some a => Ok a | None => Panic end.

Lemma index_or_panic_ok {E A} (l : list A) i :
  i < length l → ∃ a, l !! i = Some a ∧ index_or_panic (E:=E) l i = Ok a.
Proof.
  intros Hi. destruct (lookup_lt_is_Some_2 l i Hi) as [a Ha].
  exists a. unfold index_or_panic. by rewrite Ha.
Qed.

(** ** Tactics *)

(** Case analysis on the innermost [match] or [if] of the goal or a hypothesis,
    keeping the equation. *)
Ltac dmatch :=
  match goal with
  | |- context [match ?x with _ => _ end] =>
      lazymatch x with context [match _ with _ => _ end] => fail | _ => destruct x eqn:? end
  | H : context [match ?x with _ => _ end] |- _ =>
      lazymatch x with context [match _ with _ => _ end] => fail | _ => destruct x eqn:? end
  end.

(** Decide Go comparisons on [Z] written with boolean tests. *)
Ltac zb :=
  repeat match goal with
  | H : context [Z.eqb ?a ?b] |- _ => destruct (Z.eqb_spec a b)
  | H : context [Z.ltb ?a ?b] |- _ => destruct (Z.ltb_spec a b)
  | H : context [Z.leb ?a ?b] |- _ => destruct (Z.leb_spec a b)
  | |- context [Z.eqb ?a ?b] => destruct (Z.eqb_spec a b)
  | |- context [Z.ltb ?a ?b] => destruct (Z.ltb_spec a b)
  | |- context [Z.leb ?a ?b] => destruct (Z.leb_spec a b)
  end.

(** ** Machine integers *)
Section machine_integers.
Local Open Scope Z_scope.

Definition wrapu (w : Z) (z : Z) : Z := z mod 2 ^ w.
Definition u8 : Z → Z := wrapu 8.
Definition u16 : Z → Z := wrapu 16.
Definition u32 : Z → Z := wrapu 32.
Definition u64 : Z → Z := wrapu 64.

(** Two's complement: the representative of [z] in [-2^(w-1), 2^(w-1)). *)
Definition wraps (w : Z) (z : Z) : Z := (z + 2 ^ (w - 1)) mod 2 ^ w - 2 ^ (w - 1).
Definition i32 : Z → Z := wraps 32.
Definition i64 : Z → Z := wraps 64.

Lemma wrapu_range w z : 0 <= w → 0 <= wrapu w z < 2 ^ w.
Proof. intros. apply Z.mod_pos_bound. by apply Z.pow_pos_nonneg. Qed.

Lemma wrapu_small w z : 0 <= z < 2 ^ w → wrapu w z = z.
Proof. apply Z.mod_small. Qed.

Lemma wraps_small w z : 0 < w → - 2 ^ (w - 1) <= z < 2 ^ (w - 1) → wraps w z = z.
Proof.
  intros Hw Hz. unfold wraps.
  assert (2 ^ w = 2 * 2 ^ (w - 1)) as ->
    by (rewrite <- Z.pow_succ_r by lia; f_equal; lia).
  rewrite Z.mod_small; lia.
Qed.

Lemma wraps_range w z : 0 < w → - 2 ^ (w - 1) <= wraps w z < 2 ^ (w - 1).
Proof.
  intros Hw. unfold wraps.
  assert (2 ^ w = 2 * 2 ^ (w - 1)) as ->
    by (rewrite <- Z.pow_succ_r by lia; f_equal; lia).
  assert (0 < 2 ^ (w - 1)) by (apply Z.pow_pos_nonneg; lia).
  pose proof (Z.mod_pos_bound (z + 2 ^ (w - 1)) (2 * 2 ^ (w - 1)) ltac:(lia)). lia.
Qed.
End machine_integers.

(** ** Bytes

    A Go [byte] is an [ascii], so that [[]byte(s)] and [string(b)] are the
    bijection between [string] and [list ascii]. *)
Notation byte := ascii.
Notation bytes := (list ascii).

Definition bytes_of (s : string) : bytes := String.list_ascii_of_string s.
Definition string_of (b : bytes) : string := String.string_of_list_ascii b.

Lemma bytes_of_string_of b : bytes_of (string_of b) = b.
Proof. apply String.list_ascii_of_string_of_list_ascii. Qed.
Lemma string_of_bytes_of s : string_of (bytes_of s) = s.
Proof. apply String.string_of_list_ascii_of_string. Qed.

Section byte_values.
Local Open Scope Z_scope.

Definition byte_val (b : byte) : Z := Z.of_N (N_of_ascii b).
Definition byte_of (z : Z) : byte := ascii_of_N (Z.to_N (z mod 256)).

Lemma byte_val_range b : 0 <= byte_val b < 256.
Proof. unfold byte_val. pose proof (N_ascii_bounded b). lia. Qed.

Lemma byte_of_val b : byte_of (byte_val b) = b.
Proof.
  unfold byte_of. rewrite Z.mod_small by apply byte_val_range.
  unfold byte_val. rewrite N2Z.id. apply ascii_N_embedding.
Qed.

Lemma byte_val_of z : byte_val (byte_of z) = z mod 256.
Proof.
  unfold byte_val, byte_of. pose proof (Z.mod_pos_bound z 256 eq_refl).
  rewrite N_ascii_embedding by lia. lia.
Qed.

Lemma byte_of_mod z : byte_of (z mod 256) = byte_of z.
Proof. unfold byte_of. by rewrite Z.mod_mod by lia. Qed.

(** [binary.BigEndian.PutUint{16,32,64}] and [Uint{16,32,64}]. *)
Fixpoint be_put (n : nat) (z : Z) : bytes :=
  match n with
  | O => []
  | S n' => byte_of (z / 256 ^ Z.of_nat n') :: be_put n' z
  end.

Fixpoint be_get_acc (acc : Z) (l : bytes) : Z :=
  match l with
  | [] => acc
  | b :: l' => be_get_acc (acc * 256 + byte_val b) l'
  end.
Definition be_get (l : bytes) : Z := be_get_acc 0 l.

Lemma be_put_length n z : length (be_put n z) = n.
Proof. induction n; simpl; by f_equal. Qed.

Lemma be_get_acc_put n : ∀ acc z,
  be_get_acc acc (be_put n z) = acc * 256 ^ Z.of_nat n + z mod 256 ^ Z.of_nat n.
Proof.
  induction n as [|n IH]; intros acc z.
  - simpl. rewrite Z.mod_1_r. lia.
  - cbn [be_put be_get_acc]. rewrite IH, byte_val_of.
    set (m := 256 ^ Z.of_nat n).
    assert (0 < m) by (apply Z.pow_pos_nonneg; lia).
    replace (256 ^ Z.of_nat (S n)) with (m * 256)
      by (rewrite Nat2Z.inj_succ, Z.pow_succ_r by lia; unfold m; lia).
    rewrite (Z.rem_mul_r z m 256) by lia. ring.
Qed.

Lemma be_get_put n z : be_get (be_put n z) = z mod 256 ^ Z.of_nat n.
Proof. unfold be_get. rewrite be_get_acc_put. lia. Qed.

Lemma be_get_put_small n z : 0 <= z < 256 ^ Z.of_nat n → be_get (be_put n z) = z.
Proof. intros. rewrite be_get_put. by apply Z.mod_small. Qed.

Lemma be_get_acc_range l : ∀ acc, 0 <= acc →
  0 <= be_get_acc acc l < (acc + 1) * 256 ^ Z.of_nat (length l).
Proof.
  induction l as [|b l IH]; intros acc Hacc; [simpl; lia|].
  cbn [be_get_acc length]. pose proof (byte_val_range b).
  specialize (IH (acc * 256 + byte_val b) ltac:(lia)).
  rewrite Nat2Z.inj_succ, Z.pow_succ_r by lia.
  assert (0 < 256 ^ Z.of_nat (length l)) by (apply Z.pow_pos_nonneg; lia). nia.
Qed.

Lemma be_get_range l : 0 <= be_get l < 256 ^ Z.of_nat (length l).
Proof. pose proof (be_get_acc_range l 0 ltac:(lia)). unfold be_get. lia. Qed.

Lemma be_get_acc_split l : ∀ acc, 0 <= acc → ∃ q,
  be_get_acc acc l = acc * 256 ^ Z.of_nat (length l) + q ∧ 0 <= q < 256 ^ Z.of_nat (length l).
Proof.
  induction l as [|b l IH]; intros acc Hacc; [exists 0; simpl; lia|].
  cbn [be_get_acc length]. pose proof (byte_val_range b).
  destruct (IH (acc * 256 + byte_val b) ltac:(lia)) as (q & -> & Hq).
  rewrite Nat2Z.inj_succ, Z.pow_succ_r by lia.
  exists (byte_val b * 256 ^ Z.of_nat (length l) + q). split; [ring|nia].
Qed.

Lemma be_put_get_acc l : ∀ acc, 0 <= acc → be_put (length l) (be_get_acc acc l) = l.
Proof.
  induction l as [|b l IH]; intros acc Hacc; [done|].
  cbn [length be_put be_get_acc]. pose proof (byte_val_range b).
  f_equal; [|apply IH; lia].
  destruct (be_get_acc_split l (acc * 256 + byte_val b) ltac:(lia)) as (q & -> & Hq).
  rewrite Z.div_add_l, (Z.div_small q), Z.add_0_r by lia.
  rewrite <- byte_of_mod, Z.add_comm, Z_mod_plus_full, byte_of_mod. apply byte_of_val.
Qed.

Lemma be_put_get l : be_put (length l) (be_get l) = l.
Proof. by apply be_put_get_acc. Qed.

Lemma be_get_1 b : be_get [b] = byte_val b.
Proof. done. Qed.
End byte_values.

(** ** Sums of integers *)
Section sums.
Local Open Scope Z_scope.

Fixpoint sumZ (l : list Z) : Z := match l with [] => 0 | x :: l' => x + sumZ l' end.
Lemma sumZ_app l1 l2 : sumZ (l1 ++ l2) = sumZ l1 + sumZ l2.
Proof. induction l1 as [|x l1 IH]; cbn; [done|]. rewrite IH. lia. Qed.

Lemma sumZ_lower t l : Forall (λ x, - t < x) l → - t * Z.of_nat (length l) <= sumZ l.
Proof. induction 1 as [|x l Hx Hl IH]; cbn; [lia|]. lia. Qed.

Lemma sumZ_insert i x y l : l !! i = Some x → sumZ (<[i := y]> l) = sumZ l - x + y.
Proof.
  revert i. induction l as [|z l IH]; intros [|i] H; [done|done|cbn in *; inv H; lia|].
  change (<[S i := y]> (z :: l)) with (z :: <[i := y]> l). cbn [sumZ]. rewrite (IH i H). lia.
Qed.

Lemma sum_map_insert {A} (f : A → Z) l i c c' : l !! i = Some c →
  sumZ (map f (<[i := c']> l)) = sumZ (map f l) - f c + f c'.
Proof.
  intros Hi. change (map f (<[i := c']> l)) with (f <$> <[i := c']> l). rewrite list_fmap_insert.
  apply sumZ_insert. by rewrite list_lookup_fmap, Hi.
Qed.
Lemma sumZ_pos l : 0 < sumZ l → ∃ x, x ∈ l ∧ 0 < x.
Proof.
  induction l as [|x l IH]; cbn; [lia|]. intros H. destruct (Z.ltb_spec 0 x); [exists x; split; [left|done]|].
  destruct IH as (y & ? & ?); [lia|]. exists y. split; [by right|done].
Qed.

Lemma sumZ_elem_le t l x : Forall (λ x, - t < x) l → x ∈ l → x <= sumZ l + t * (Z.of_nat (length l) - 1).
Proof.
  intros Hl (l1 & l2 & ->)%list_elem_of_split. apply Forall_app in Hl as [H1 [Hx H2]%Forall_cons].
  pose proof (sumZ_lower _ _ H1). pose proof (sumZ_lower _ _ H2).
  rewrite sumZ_app, length_app. cbn. lia.
Qed.

(** Pointwise below with the same sum means equal. *)
Lemma sumZ_pointwise l1 l2 : length l1 = length l2 → Forall2 Z.le l1 l2 → sumZ l1 = sumZ l2 → l1 = l2.
Proof.
  intros _ H. induction H as [|x y l1 l2 Hxy H IH]; [done|]. cbn. intros Hs.
  assert (sumZ l1 <= sumZ l2) by (clear -H; induction H; cbn; lia).
  assert (x = y) as -> by lia. f_equal. apply IH. lia.
Qed.

End sums.

(** ** Filtered lists *)
Lemma filter_length_le {A} (f : A → bool) l : (length (List.filter f l) <= length l)%nat.
Proof. induction l as [|x l IH]; cbn; [lia|]. destruct (f x); cbn; lia. Qed.
Lemma elem_of_bfilter {A} (f : A → bool) l x : x ∈ List.filter f l ↔ x ∈ l ∧ f x = true.
Proof. rewrite !list_elem_of_In. apply filter_In. Qed.

(** ** Invariants of step relations *)
Lemma rtc_invariant {S} (R : S → S → Prop) (I : S → Prop) :
  (∀ s s', I s → R s s' → I s') → ∀ s s', rtc R s s' → I s → I s'.
Proof. intros HR s s' H. induction H; eauto. Qed.

(** ** Middleware chains

    The loop [for i := len(ms)-1; i >= 0; i-- { h = ms[i](h) }], which the web
    server, the route groups, the TCP server and the orm share. *)
Section chain.
Context {A : Type}.

Fixpoint chain_from (ms : list (A → A)) (i : nat) (h : A) : A :=
  match i with
  | O => h
  | S i' => chain_from ms i' (match ms !! i' with Some m => m h | None => h end)
  end.
Definition chain (ms : list (A → A)) (h : A) : A := chain_from ms (length ms) h.

Lemma chain_from_take ms : ∀ i h, i <= length ms → chain_from ms i h = foldr (λ m h, m h) h (take i ms).
Proof.
  induction i as [|i IH]; intros h Hi; [done|]. cbn [chain_from].
  destruct (lookup_lt_is_Some_2 ms i) as [m Hm]; [lia|].
  rewrite Hm, IH by lia. by rewrite (take_S_r _ _ _ Hm), foldr_snoc.
Qed.

Lemma chain_foldr ms h : chain ms h = foldr (λ m h, m h) h ms.
Proof. unfold chain. by rewrite chain_from_take, take_ge by lia. Qed.

Lemma chain_nil h : chain [] h = h.
Proof. done. Qed.
Lemma chain_cons m ms h : chain (m :: ms) h = m (chain ms h).
Proof. by rewrite !chain_foldr. Qed.
Lemma chain_app ms1 ms2 h : chain (ms1 ++ ms2) h = chain ms1 (chain ms2 h).
Proof. by rewrite !chain_foldr, foldr_app. Qed.
End chain.

(** ** Hint databases *)
Create HintDb soil.
#[export] Hint Resolve byte_val_range be_get_range wrapu_range : soil.
#[export] Hint Rewrite bytes_of_string_of string_of_bytes_of be_put_length
  byte_of_val byte_val_of : soil.
