(* ===== verification/NetErrors.v ===== *)
(** * Error values of package micro/net

    Models the sentinel errors of [src/micro/net/frame.go] and
    [src/micro/net/common.go], the wrapping done with [fmt.Errorf("%w")] and
    [RemoteError.Unwrap], and the classification functions built on
    [errors.Is].  An error is its message and the set of sentinels its chain
    contains. *)

From S2P Require Import Prelude.
From stdpp Require Import pretty.

(** ** Sentinels *)
Inductive sentinel :=
| ErrInvalidMagic | ErrLargeMessage | ErrLargeHeader | ErrLargeBody
| ErrUnknownVersion | ErrRemote | ErrRateLimited | ErrHandlerPanic
| errPoolClosed | errConnClosed | errNoConnection | ErrNoEndpoint
| Canceled | DeadlineExceeded
| EOF | ErrUnexpectedEOF | ErrShortWrite | ErrNetClosed | ErrClosedPipe.

#[export] Instance sentinel_eq_dec : EqDecision sentinel.
Proof. solve_decision. Defined.

(** The text of each sentinel, its [Error()] method. *)
Definition sentinel_msg (s : sentinel) : string :=
  match s with
  | ErrInvalidMagic => "invalid frame magic"
  | ErrLargeMessage => "message too large"
  | ErrLargeHeader => "header too large"
  | ErrLargeBody => "body too large"
  | ErrUnknownVersion => "unsupported protocol version"
  | ErrRemote => "remote error"
  | ErrRateLimited => "rate limited"
  | ErrHandlerPanic => "handler panic"
  | errPoolClosed => "client: connection pool closed"
  | errConnClosed => "client: connection closed"
  | errNoConnection => "client: no available connection"
  | ErrNoEndpoint => "client: no available endpoint"
  | Canceled => "context canceled"
  | DeadlineExceeded => "context deadline exceeded"
  | EOF => "EOF"
  | ErrUnexpectedEOF => "unexpected EOF"
  | ErrShortWrite => "short write"
  | ErrNetClosed => "use of closed network connection"
  | ErrClosedPipe => "io: read/write on closed pipe"
  end.

Record err := mkErr { err_msg : string; err_chain : list sentinel }.

#[export] Instance err_eq_dec : EqDecision err.
Proof. solve_decision. Defined.

(** [errors.Is(e, s)]. *)
Definition errors_is (e : err) (s : sentinel) : bool := bool_decide (s ∈ err_chain e).

Definition sent (s : sentinel) : err := mkErr (sentinel_msg s) [s].
(** [errors.New(msg)]: an error no sentinel matches. *)
Definition errors_new (msg : string) : err := mkErr msg [].

(** ** Formatting verbs used by the error constructors *)
Definition hex_digit (z : Z) : ascii :=
  ascii_of_N (Z.to_N (if (z <? 10)%Z then 48 + z else 55 + z)%Z).

(** [%04X] of a 16-bit value. *)
Definition fmt_04X (z : Z) : string :=
  string_of [hex_digit (z / 4096 mod 16)%Z; hex_digit (z / 256 mod 16)%Z;
             hex_digit (z / 16 mod 16)%Z; hex_digit (z mod 16)%Z].
Definition fmt_d (z : Z) : string := pretty z.

Definition err_magic (m : Z) : err :=
  mkErr (sentinel_msg ErrInvalidMagic +:+ ": 0x" +:+ fmt_04X m) [ErrInvalidMagic].
Definition err_version (v : Z) : err :=
  mkErr (sentinel_msg ErrUnknownVersion +:+ ": " +:+ fmt_d v) [ErrUnknownVersion].
(** The two size errors of [validate] carry "n > limit", those of the decoder "n". *)
Definition err_large_lim (s : sentinel) (n lim : Z) : err :=
  mkErr (sentinel_msg s +:+ ": " +:+ fmt_d n +:+ " > " +:+ fmt_d lim) [s].
Definition err_large (s : sentinel) (n : Z) : err :=
  mkErr (sentinel_msg s +:+ ": " +:+ fmt_d n) [s].

(** [fmt.Errorf("%w: %w", a, b)] *)
Definition err_wrap2 (a b : sentinel) : err :=
  mkErr (sentinel_msg a +:+ ": " +:+ sentinel_msg b) [a; b].

(** [&RemoteError{Message: msg}]: its [Error()] falls back to the text of
    [ErrRemote] when the message is empty; [Unwrap] is [ErrRemote]. *)
Definition RemoteError_Error (msg : string) : string :=
  if bool_decide (msg = "") then sentinel_msg ErrRemote else msg.
Definition remote_error (msg : string) : err := mkErr (RemoteError_Error msg) [ErrRemote].

(** [isClosedConnErr] of common.go (nil is [None]). *)
Definition isClosedConnErr (e : option err) : bool :=
  match e with
  | None => false
  | Some e => errors_is e ErrNetClosed || errors_is e EOF || errors_is e ErrClosedPipe
  end.

(** Errors that carry the peer's verdict: the request reached a handler. *)
Definition is_business (e : err) : bool :=
  errors_is e ErrRemote || errors_is e ErrRateLimited || errors_is e ErrHandlerPanic.
(** Errors caused by the caller's context. *)
Definition is_ctx_err (e : err) : bool :=
  errors_is e Canceled || errors_is e DeadlineExceeded.

Lemma errors_is_sent s t : errors_is (sent s) t = bool_decide (t = s).
Proof.
  unfold errors_is, sent; simpl. apply bool_decide_ext.
  rewrite list_elem_of_singleton. done.
Qed.

Lemma sentinel_msg_inj s t : sentinel_msg s = sentinel_msg t → s = t.
Proof. destruct s, t; simpl; intros H; solve [reflexivity | discriminate H]. Qed.

#[export] Hint Rewrite errors_is_sent : soil.
