(* ===== verification/GoStrings.v ===== *)
(** * Go string functions

    The functions of packages [strings] and [strconv] the sources call, with
    single-byte separators, as structural recursions over [string].  Case
    mapping and white space are those of ASCII text. *)

From S2P Require Import Prelude.

Definition str1 (c : ascii) : string := String c EmptyString.

(** [s[len(s)-1]] *)
Fixpoint last_char (s : string) : option ascii :=
  match s with
  | EmptyString => None
  | String c EmptyString => Some c
  | String _ s' => last_char s'
  end.

(** [s[:len(s)-1]] for a non-empty [s] *)
Fixpoint drop_last (s : string) : string :=
  match s with
  | EmptyString => EmptyString
  | String c EmptyString => EmptyString
  | String c s' => String c (drop_last s')
  end.

(** [strings.HasPrefix(s, string(c))], [strings.HasSuffix(s, string(c))] *)
Definition has_prefix1 (c : ascii) (s : string) : bool :=
  match s with String d _ => bool_decide (d = c) | EmptyString => false end.
Definition has_suffix1 (c : ascii) (s : string) : bool :=
  bool_decide (last_char s = Some c).

(** [strings.TrimSuffix(s, string(c))] *)
Definition trim_suffix1 (c : ascii) (s : string) : string :=
  if has_suffix1 c s then drop_last s else s.

(** Does the byte occur? *)
Fixpoint contains1 (c : ascii) (s : string) : bool :=
  match s with
  | EmptyString => false
  | String d s' => bool_decide (d = c) || contains1 c s'
  end.

(** [strings.SplitN(s, string(c), 2)] when [c] occurs: text before and after the
    first occurrence. *)
Fixpoint cut1 (c : ascii) (s : string) : option (string * string) :=
  match s with
  | EmptyString => None
  | String d s' =>
      if bool_decide (d = c) then Some (EmptyString, s')
      else match cut1 c s' with
           | Some (a, b) => Some (String d a, b)
           | None => None
           end
  end.

(** The text around the last occurrence ([strings.LastIndex]). *)
Fixpoint rcut1 (c : ascii) (s : string) : option (string * string) :=
  match s with
  | EmptyString => None
  | String d s' =>
      match rcut1 c s' with
      | Some (a, b) => Some (String d a, b)
      | None => if bool_decide (d = c) then Some (EmptyString, s') else None
      end
  end.

(** [strings.Split(s, string(c))]: never empty. *)
Fixpoint split1 (c : ascii) (s : string) : list string :=
  match s with
  | EmptyString => [EmptyString]
  | String d s' =>
      if bool_decide (d = c) then EmptyString :: split1 c s'
      else match split1 c s' with
           | [] => [str1 d]
           | w :: ws => String d w :: ws
           end
  end.

(** [strings.Join(l, sep)] *)
Fixpoint join (sep : string) (l : list string) : string :=
  match l with
  | [] => EmptyString
  | [s] => s
  | s :: l' => s +:+ sep +:+ join sep l'
  end.

(** [strings.TrimLeftFunc], [strings.TrimRightFunc], and trimming both ends *)
Fixpoint trim_left (p : ascii → bool) (s : string) : string :=
  match s with
  | EmptyString => EmptyString
  | String c s' => if p c then trim_left p s' else s
  end.
Fixpoint trim_right (p : ascii → bool) (s : string) : string :=
  match s with
  | EmptyString => EmptyString
  | String c s' =>
      match trim_right p s' with
      | EmptyString => if p c then EmptyString else str1 c
      | r => String c r
      end
  end.
Definition trim_func (p : ascii → bool) (s : string) : string := trim_right p (trim_left p s).

Definition trim1 (c : ascii) : string → string := trim_func (λ d, bool_decide (d = c)).
Definition trim_space : string → string := trim_func Ascii.is_space.

(** [strings.FieldsFunc(s, p)]: maximal runs of bytes not satisfying [p]. *)
Fixpoint fields_func (p : ascii → bool) (s : string) : list string :=
  match s with
  | EmptyString => []
  | String c s' =>
      if p c then fields_func p s'
      else match s' with
           | EmptyString => [str1 c]
           | String d _ =>
               if p d then str1 c :: fields_func p s'
               else match fields_func p s' with
                    | [] => [str1 c]
                    | w :: ws => String c w :: ws
                    end
           end
  end.

(** [strings.ReplaceAll(s, string(c), r)] *)
Fixpoint replace1 (c : ascii) (r : string) (s : string) : string :=
  match s with
  | EmptyString => EmptyString
  | String d s' => (if bool_decide (d = c) then r else str1 d) +:+ replace1 c r s'
  end.

(** [strings.ToLower] on ASCII, [unicode.IsUpper], [unicode.IsLower] *)
Definition is_upper (c : ascii) : bool :=
  let n := N_of_ascii c in (65 <=? n)%N && (n <=? 90)%N.
Definition is_lower (c : ascii) : bool :=
  let n := N_of_ascii c in (97 <=? n)%N && (n <=? 122)%N.
Definition to_lower (c : ascii) : ascii :=
  if is_upper c then ascii_of_N (N_of_ascii c + 32) else c.
Fixpoint str_lower (s : string) : string :=
  match s with EmptyString => EmptyString | String c s' => String (to_lower c) (str_lower s') end.

(** [strings.Contains(s, sub)] *)
Fixpoint str_contains (sub s : string) : bool :=
  String.prefix sub s || match s with EmptyString => false | String _ s' => str_contains sub s' end.

(** [strconv.Atoi]: optional sign, decimal digits, 64-bit range. *)
Fixpoint parse_digits (acc : Z) (s : string) : option Z :=
  match s with
  | EmptyString => Some acc
  | String c s' =>
      match Ascii.is_nat c with
      | Some d => parse_digits (acc * 10 + Z.of_nat d)%Z s'
      | None => None
      end
  end.
Definition atoi (s : string) : option Z :=
  let '(neg, body) :=
    match s with
    | String "-" s' => (true, s')
    | String "+" s' => (false, s')
    | _ => (false, s)
    end in
  match body with
  | EmptyString => None
  | _ => match parse_digits 0 body with
         | Some v => let v := if neg then (- v)%Z else v in
                     if bool_decide (- 2 ^ 63 <= v < 2 ^ 63)%Z then Some v else None
         | None => None
         end
  end.

(** ** Facts *)
Lemma app_empty_r s : s +:+ "" = s.
Proof. induction s as [|c s IH]; [done|]. change (String c (s +:+ "") = String c s). by rewrite IH. Qed.
Lemma app_cons c s t : String c s +:+ t = String c (s +:+ t).
Proof. done. Qed.
Lemma app_nil_l s : "" +:+ s = s.
Proof. done. Qed.
Lemma str_app_assoc s t u : (s +:+ t) +:+ u = s +:+ (t +:+ u).
Proof. induction s as [|c s IH]; [done|]. by rewrite !app_cons, IH. Qed.

Lemma contains1_app c s t : contains1 c (s +:+ t) = contains1 c s || contains1 c t.
Proof.
  induction s as [|d s IH]; [done|]. rewrite app_cons. cbn [split1 contains1 join trim_left]. by rewrite IH, orb_assoc.
Qed.

Lemma split1_nonempty c s : split1 c s ≠ [].
Proof. destruct s; simpl; [done|]. case_bool_decide; [done|]. by destruct (split1 c s). Qed.

Lemma split1_no_sep c s : contains1 c s = false → split1 c s = [s].
Proof.
  induction s as [|d s IH]; [done|]. cbn [split1 contains1 join trim_left]. intros [Hd Hs]%orb_false_iff.
  apply bool_decide_eq_false in Hd. rewrite bool_decide_false by done. by rewrite IH.
Qed.

Lemma split1_app c s t : contains1 c s = false → split1 c (s +:+ String c t) = s :: split1 c t.
Proof.
  induction s as [|d s IH].
  - intros _. rewrite app_nil_l. cbn [split1]. by rewrite bool_decide_true.
  - rewrite app_cons. cbn [split1 contains1 join trim_left]. intros [Hd Hs]%orb_false_iff.
    apply bool_decide_eq_false in Hd. rewrite bool_decide_false by done. by rewrite IH.
Qed.

Lemma join_cons sep s l : l ≠ [] → join sep (s :: l) = s +:+ sep +:+ join sep l.
Proof. by destruct l. Qed.

(** Splitting a joined list of separator-free words. *)
Lemma split1_join c l : l ≠ [] → Forall (λ s, contains1 c s = false) l →
  split1 c (join (str1 c) l) = l.
Proof.
  intros Hne Hl. revert Hne. induction Hl as [|s l Hs Hl IH]; [done|]. intros _.
  destruct l as [|t l]; [by apply split1_no_sep|].
  rewrite join_cons by done. unfold str1 at 1. rewrite app_cons, app_nil_l.
  rewrite split1_app by done. by rewrite IH.
Qed.

Lemma split1_parts_clean c s : Forall (λ w, contains1 c w = false) (split1 c s).
Proof.
  induction s as [|d s IH]; [repeat constructor|]. cbn [split1 contains1 join trim_left]. case_bool_decide as Hd; [by constructor|].
  destruct (split1 c s) as [|w ws].
  - repeat constructor. unfold str1. cbn [contains1]. by rewrite bool_decide_false.
  - apply Forall_cons in IH as [Hw Hws]. constructor; [|done]. cbn [split1 contains1 join trim_left]. by rewrite bool_decide_false.
Qed.

Lemma join_split1 c s : join (str1 c) (split1 c s) = s.
Proof.
  induction s as [|d s IH]; [done|]. cbn [split1 contains1 join trim_left].
  pose proof (split1_nonempty c s) as Hne.
  case_bool_decide as Hd; subst.
  - rewrite join_cons by done. by rewrite app_nil_l, IH.
  - destruct (split1 c s) as [|w ws]; [done|]. destruct ws as [|w' ws]; cbn [join] in *; [by rewrite IH|].
    rewrite <- IH. by rewrite app_cons.
Qed.

Lemma trim_left_id p s : match s with String c _ => p c = false | _ => True end → trim_left p s = s.
Proof. destruct s; cbn; [done|]. by intros ->. Qed.

Lemma trim_right_id p s : match last_char s with Some c => p c = false | _ => True end → trim_right p s = s.
Proof.
  induction s as [|c s IH]; [done|]. destruct s as [|d s].
  - cbn. by intros ->.
  - intros H. change (trim_right p (String c (String d s)))
      with (match trim_right p (String d s) with EmptyString => if p c then EmptyString else str1 c
            | r => String c r end). rewrite IH by exact H. done.
Qed.

Lemma last_char_app_cons s c t : last_char (s +:+ String c t) = last_char (String c t).
Proof.
  induction s as [|d s IH]; [done|]. rewrite app_cons. rewrite <- IH.
  destruct s; done.
Qed.

Lemma last_char_contains c s : last_char s = Some c → contains1 c s = true.
Proof.
  induction s as [|d s IH]; [done|]. destruct s as [|e s].
  - cbn [split1 contains1 join trim_left]. intros [= ->]. by rewrite bool_decide_true.
  - intros H. cbn [contains1] in *. rewrite (IH H). by rewrite orb_true_r.
Qed.

Lemma last_char_app_ne s t : t ≠ "" → last_char (s +:+ t) = last_char t.
Proof. destruct t; [done|]. intros _. apply last_char_app_cons. Qed.

Lemma drop_last_snoc s c : drop_last (s +:+ str1 c) = s.
Proof.
  induction s as [|d s IH]; [done|]. rewrite app_cons. cbn [drop_last].
  destruct (s +:+ str1 c) eqn:E; [by destruct s|]. by rewrite IH.
Qed.
Lemma last_char_snoc s c : last_char (s +:+ str1 c) = Some c.
Proof. unfold str1. by rewrite last_char_app_cons. Qed.

#[export] Hint Rewrite app_empty_r app_nil_l str_app_assoc : soil.
