(* ===== verification/Decimal.v ===== *)
(** * Decimal numbers as strings

    What [strconv.FormatInt] prints, [strconv.Atoi] and [strconv.ParseInt] read
    back; shared by endpoint weights and RPC deadlines. *)

From stdpp Require Import pretty.
From S2P Require Import Prelude GoStrings.
Local Open Scope Z_scope.

Fixpoint str_all (p : ascii → bool) (s : string) : bool :=
  match s with EmptyString => true | String c s' => p c && str_all p s' end.
Lemma str_all_app p s t : str_all p (s +:+ t) = str_all p s && str_all p t.
Proof. induction s as [|c s IH]; [done|]. rewrite app_cons. cbn. by rewrite IH, andb_assoc. Qed.
Lemma str_all_impl (p q : ascii → bool) s : (∀ c, p c = true → q c = true) → str_all p s = true → str_all q s = true.
Proof.
  intros H. induction s as [|c s IH]; [done|]. cbn. intros [Hc Hs]%andb_true_iff. by rewrite H, IH.
Qed.
Lemma str_all_last p s c : str_all p s = true → last_char s = Some c → p c = true.
Proof.
  induction s as [|d s IH]; [done|]. cbn [str_all]. intros [Hd Hs]%andb_true_iff.
  destruct s as [|e s]; [intros [= <-]; done|]. by apply IH.
Qed.

(** ** Decimal numbers *)
Definition is_digit (c : ascii) : bool := bool_decide (is_Some (Ascii.is_nat c)).

Lemma is_nat_digit d : (d < 10)%N → Ascii.is_nat (pretty_N_char d) = Some (N.to_nat d).
Proof.
  intros Hd. rewrite <- (N2Nat.id d). rewrite Nat2N.id. set (k := N.to_nat d).
  assert (k < 10)%nat as Hk by (unfold k; lia). clearbody k.
  do 10 (destruct k as [|k]; [reflexivity|]). lia.
Qed.

Lemma parse_pretty_go x : ∃ k, 0 <= k ∧ ∀ s acc,
  parse_digits acc (pretty_N_go x s) = parse_digits (acc * 10 ^ k + Z.of_N x) s.
Proof.
  induction (N.lt_wf_0 x) as [x _ IH]. destruct (decide (0 < x)%N) as [Hx|Hx].
  - destruct (IH (x `div` 10)%N) as (k & Hk & H); [apply N.div_lt; lia|].
    exists (k + 1). split; [lia|]. intros s acc. rewrite pretty_N_go_step by done. rewrite H.
    cbn [parse_digits]. rewrite is_nat_digit by (apply N.mod_lt; lia). f_equal.
    rewrite Z.pow_add_r by lia. rewrite N_nat_Z, N2Z.inj_div, N2Z.inj_mod.
    pose proof (Z.div_mod (Z.of_N x) 10 ltac:(lia)). lia.
  - assert (x = 0%N) as -> by lia. exists 0. split; [lia|]. intros s acc. rewrite pretty_N_go_0.
    f_equal. lia.
Qed.

Lemma pretty_go_digits x : ∀ s, (0 < x)%N → ∃ d t,
  pretty_N_go x s = String (pretty_N_char d) (t +:+ s) ∧ (d < 10)%N ∧ str_all is_digit t = true.
Proof.
  induction (N.lt_wf_0 x) as [x _ IH]. intros s Hx. rewrite pretty_N_go_step by done.
  assert (x `mod` 10 < 10)%N as Hm by (apply N.mod_lt; lia).
  destruct (decide (0 < x `div` 10)%N) as [Hq|Hq].
  - destruct (IH (x `div` 10)%N ltac:(apply N.div_lt; lia) (String (pretty_N_char (x `mod` 10)) s) Hq) as (d & t & E & Hd & Ht).
    exists d, (t +:+ str1 (pretty_N_char (x `mod` 10))). split_and!; [|done|].
    + rewrite E, str_app_assoc. done.
    + rewrite str_all_app, Ht. cbn. rewrite andb_true_r. unfold is_digit. rewrite is_nat_digit by done.
      by apply bool_decide_eq_true.
  - apply N.nlt_ge, N.le_0_r in Hq. rewrite Hq, pretty_N_go_0. exists (x `mod` 10)%N, "". done.
Qed.

Lemma pretty_pos_digits w : 0 < w → ∃ d t,
  pretty w = String (pretty_N_char d) t ∧ (d < 10)%N ∧ str_all is_digit t = true.
Proof.
  intros Hw. destruct w as [|p|p]; [lia| |lia]. change (pretty (Z.pos p)) with (pretty (N.pos p)).
  unfold pretty, pretty_N. rewrite decide_False by done.
  destruct (pretty_go_digits (N.pos p) "" ltac:(lia)) as (d & t & E & Hd & Ht). rewrite app_empty_r in E. eauto.
Qed.

Lemma atoi_pretty w : 0 < w < 2 ^ 63 → atoi (pretty w) = Some w.
Proof.
  intros Hw. destruct (pretty_pos_digits w ltac:(lia)) as (d & t & E & Hd & Ht).
  assert (parse_digits 0 (pretty w) = Some w) as Hp.
  { destruct w as [|p|p]; [lia| |lia]. change (pretty (Z.pos p)) with (pretty (N.pos p)).
    unfold pretty, pretty_N. rewrite decide_False by done.
    destruct (parse_pretty_go (N.pos p)) as (k & _ & H). rewrite H. cbn. done. }
  assert (∀ s, pretty_N_char d ≠ "-"%char ∧ pretty_N_char d ≠ "+"%char →
     atoi (String (pretty_N_char d) s) = match parse_digits 0 (String (pretty_N_char d) s) with
       | Some v => if bool_decide (- 2 ^ 63 <= v < 2 ^ 63) then Some v else None | None => None end) as Ha.
  { intros s [Hm Hpl]. unfold atoi. destruct (pretty_N_char d) as [[] [] [] [] [] [] [] []]; try done; congruence. }
  rewrite E in *. rewrite Ha; [by rewrite Hp, bool_decide_true by lia|].
  pose proof (is_nat_digit d Hd) as Hn. split; intros Hc; rewrite Hc in Hn; discriminate.
Qed.

(** No byte of a printed positive number fails a predicate all digits satisfy. *)
Lemma pretty_pos_all p w : 0 < w → (∀ c, is_digit c = true → p c = true) → str_all p (pretty w) = true.
Proof.
  intros Hw Hp. destruct (pretty_pos_digits w Hw) as (d & t & -> & Hd & Ht). cbn [str_all].
  rewrite (str_all_impl is_digit p t Hp Ht), andb_true_r. apply Hp. unfold is_digit.
  rewrite is_nat_digit by done. by apply bool_decide_eq_true.
Qed.
Lemma str_all_bytes p s c : str_all p s = true → c ∈ bytes_of s → p c = true.
Proof.
  induction s as [|d s IH]; cbn [str_all bytes_of String.list_ascii_of_string]; [by intros _ ?%elem_of_nil|].
  intros [Hd Hs]%andb_true_iff [->|H]%elem_of_cons; [done|]. by apply IH.
Qed.
