(* ===== verification/Frame.v ===== *)
(** * Binary frame protocol of micro/net

    Models [src/micro/net/frame.go] (frame layout, validation, encoder,
    incremental writer, decoder, error frames) and the I/O loops of
    [src/micro/net/common.go].  Writers and readers are parameters: a writer is
    a state with a [Write] operation returning a byte count and an error, a
    reader a state with a [ReadFull] operation. *)

From S2P Require Import Prelude NetErrors.
Local Open Scope Z_scope.
Local Open Scope soil_scope.

(** ** Constants *)
Definition MessageTypeRequest : Z := 1.
Definition MessageTypeResponse : Z := 2.
Definition MessageTypeHeartbeat : Z := 3.
Definition MessageTypePing : Z := 4.
Definition MessageTypePong : Z := 5.

Definition frameMagic : Z := 0x4D4E.
Definition frameVersion : Z := 1.
Definition frameHeaderLen : nat := 22.
Definition defaultMaxBodySize : Z := 16 * 1024 * 1024.
Definition defaultMaxHeaderSize : Z := 64 * 1024.

Definition FlagOneWay : Z := 1.
Definition FlagError : Z := 2.

Record frameLimits := mkLimits { maxHeader : Z; maxBody : Z }.
Definition defaultLimits : frameLimits :=
  mkLimits defaultMaxHeaderSize defaultMaxBodySize.

(** ** Frames *)
Record Frame := mkFrame {
  Magic : Z; Version : Z; MsgType : Z; Flags : Z; RequestID : Z;
  Header : bytes; Body : bytes }.

#[export] Instance Frame_eq_dec : EqDecision Frame.
Proof. solve_decision. Defined.

(** The field widths of the Go struct. *)
Record frame_wt (f : Frame) : Prop := {
  wt_magic : 0 <= Magic f < 2 ^ 16;
  wt_version : 0 <= Version f < 2 ^ 8;
  wt_type : 0 <= MsgType f < 2 ^ 8;
  wt_flags : 0 <= Flags f < 2 ^ 8;
  wt_id : 0 <= RequestID f < 2 ^ 64 }.

Definition NewFrame (msgType requestID : Z) (header body : bytes) : Frame :=
  mkFrame frameMagic frameVersion msgType 0 requestID header body.

Definition with_flag (f : Frame) (flag : Z) : Frame :=
  mkFrame (Magic f) (Version f) (MsgType f) (Z.lor (Flags f) flag)
          (RequestID f) (Header f) (Body f).

(** [NewErrorFrame]: a nil error becomes the text "unknown error". *)
Definition NewErrorFrame (requestID : Z) (e : option err) : Frame :=
  let msg := match e with Some e => err_msg e | None => "unknown error" end in
  with_flag (NewFrame MessageTypeResponse requestID [] (bytes_of msg)) FlagError.

Definition IsOneWay (f : Frame) : bool := negb (Z.land (Flags f) FlagOneWay =? 0).
Definition IsError (f : Frame) : bool := negb (Z.land (Flags f) FlagError =? 0).
Definition IsHeartbeat (f : Frame) : bool :=
  (MsgType f =? MessageTypeHeartbeat) || (MsgType f =? MessageTypePing)
  || (MsgType f =? MessageTypePong).

Definition remoteErrorFromFrame (f : Frame) : err :=
  let msg := string_of (Body f) in
  if bool_decide (msg = sentinel_msg ErrRateLimited) then err_wrap2 ErrRemote ErrRateLimited
  else if bool_decide (msg = sentinel_msg ErrHandlerPanic) then err_wrap2 ErrRemote ErrHandlerPanic
  else remote_error msg.

(** ** Validation and encoding *)

(** [uint32(len(b))]: the length reduced to 32 bits. *)
Definition len32 (b : bytes) : Z := u32 (Z.of_nat (length b)).

Definition validate (f : Frame) (lim : frameLimits) : option err :=
  if negb (Magic f =? 0) && negb (Magic f =? frameMagic) then Some (err_magic (Magic f))
  else if negb (Version f =? 0) && negb (Version f =? frameVersion)
       then Some (err_version (Version f))
  else if maxHeader lim <? len32 (Header f)
       then Some (err_large_lim ErrLargeHeader (Z.of_nat (length (Header f))) (maxHeader lim))
  else if maxBody lim <? len32 (Body f)
       then Some (err_large_lim ErrLargeBody (Z.of_nat (length (Body f))) (maxBody lim))
  else None.

(** Go's [copy(buf[off:], src)]: overwrites as much as fits. *)
Definition copy_at (buf : bytes) (off : nat) (src : bytes) : bytes :=
  take off buf ++ take (length buf - off) src ++ drop (off + length src) buf.

Definition writeHeaderFields (buf : bytes) (f : Frame) (headerLen bodyLen : Z) : bytes :=
  let buf := copy_at buf 0 (be_put 2 (Magic f)) in
  let buf := <[2%nat := byte_of (Version f)]> buf in
  let buf := <[3%nat := byte_of (MsgType f)]> buf in
  let buf := <[4%nat := byte_of (Flags f)]> buf in
  let buf := <[5%nat := byte_of 0]> buf in
  let buf := copy_at buf 6 (be_put 4 headerLen) in
  let buf := copy_at buf 10 (be_put 4 bodyLen) in
  copy_at buf 14 (be_put 8 (RequestID f)).

Definition EncodeWithLimits (f : Frame) (lim : frameLimits) : res err bytes :=
  match validate f lim with
  | Some e => Err e
  | None =>
      let headerLen := length (Header f) in
      let bodyLen := length (Body f) in
      let buf := replicate (frameHeaderLen + headerLen + bodyLen) (byte_of 0) in
      let buf := writeHeaderFields buf f (len32 (Header f)) (len32 (Body f)) in
      let buf := copy_at buf frameHeaderLen (Header f) in
      Ok (copy_at buf (frameHeaderLen + headerLen) (Body f))
  end.

Definition Encode (f : Frame) : res err bytes := EncodeWithLimits f defaultLimits.

(** ** Writing to an [io.Writer] *)
Section writer.
Context {W : Type} (Write : W → bytes → W * (nat * option err)).

(** [writeFull]; [None] is "out of fuel".  [data[n:]] panics when the writer
    reports more bytes than it was given. *)
Fixpoint writeFull_fuel (fuel : nat) (w : W) (data : bytes) : option (W * res err unit) :=
  match data with
  | [] => Some (w, Ok tt)
  | _ :: _ =>
      match fuel with
      | O => None
      | S fuel' =>
          let '(w', (n, e)) := Write w data in
          match e with
          | Some e => Some (w', Err e)
          | None =>
              if (n =? 0)%nat then Some (w', Err (sent ErrShortWrite))
              else if (length data <? n)%nat then Some (w', Panic)
              else writeFull_fuel fuel' w' (drop n data)
          end
      end
  end.

Definition writeFull (w : W) (data : bytes) : W * res err unit :=
  default (w, Panic) (writeFull_fuel (length data) w data).

(** [writeFrame]: [scratch] is the 22-byte buffer taken from
    [headerScratchPool], with whatever a previous user left in it. *)
Definition writeFrame (scratch : bytes) (w : W) (f : Frame) (lim : frameLimits)
  : W * res err unit :=
  match validate f lim with
  | Some e => (w, Err e)
  | None =>
      let hdr := writeHeaderFields scratch f (len32 (Header f)) (len32 (Body f)) in
      match writeFull w hdr with
      | (w, Ok _) =>
          match (match Header f with [] => (w, Ok tt) | _ :: _ => writeFull w (Header f) end) with
          | (w, Ok _) =>
              match Body f with [] => (w, Ok tt) | _ :: _ => writeFull w (Body f) end
          | (w, r) => (w, r)
          end
      | (w, r) => (w, r)
      end
  end.
End writer.

(** ** Decoding *)
Section reader.
Context {R : Type} (ReadFull : R → nat → R * (err + bytes)).

Definition DecodeFrameWithLimits (r : R) (lim : frameLimits) : R * (err + Frame) :=
  match ReadFull r frameHeaderLen with
  | (r, inl e) => (r, inl e)
  | (r, inr header) =>
      let magic := be_get (take 2 header) in
      let version := be_get (take 1 (drop 2 header)) in
      let msgType := be_get (take 1 (drop 3 header)) in
      let flags := be_get (take 1 (drop 4 header)) in
      let headerLen := be_get (take 4 (drop 6 header)) in
      let bodyLen := be_get (take 4 (drop 10 header)) in
      let requestID := be_get (take 8 (drop 14 header)) in
      if negb (magic =? frameMagic) then (r, inl (err_magic magic))
      else if negb (version =? frameVersion) then (r, inl (err_version version))
      else if maxHeader lim <? headerLen then (r, inl (err_large ErrLargeHeader headerLen))
      else if maxBody lim <? bodyLen then (r, inl (err_large ErrLargeBody bodyLen))
      else
        match (if 0 <? headerLen then ReadFull r (Z.to_nat headerLen) else (r, inr [])) with
        | (r, inl e) => (r, inl e)
        | (r, inr h) =>
            match (if 0 <? bodyLen then ReadFull r (Z.to_nat bodyLen) else (r, inr [])) with
            | (r, inl e) => (r, inl e)
            | (r, inr b) => (r, inr (mkFrame magic version msgType flags requestID h b))
            end
        end
  end.

Definition DecodeFrame (r : R) : R * (err + Frame) := DecodeFrameWithLimits r defaultLimits.
End reader.

(** [io.ReadFull] over a source holding [src] and then end of file. *)
Definition io_ReadFull (src : bytes) (n : nat) : bytes * (err + bytes) :=
  if (n <=? length src)%nat then (drop n src, inr (take n src))
  else match src with
       | [] => ([], inl (sent EOF))
       | _ :: _ => ([], inl (sent ErrUnexpectedEOF))
       end.

(** [readFrame] of common.go. *)
Definition readFrame (src : bytes) (lim : frameLimits) : bytes * (err + Frame) :=
  DecodeFrameWithLimits io_ReadFull src lim.

(** Reading frames until the source is exhausted, as a receive loop does. *)
Fixpoint readFrames (n : nat) (src : bytes) (lim : frameLimits) : list Frame * (bytes * option err) :=
  match n with
  | O => ([], (src, None))
  | S n' =>
      match readFrame src lim with
      | (src', inl e) => ([], (src', Some e))
      | (src', inr f) => let '(fs, r) := readFrames n' src' lim in (f :: fs, r)
      end
  end.
