(* ===== verification/FrameFacts.v ===== *)
(** * Correctness of the frame protocol

    Layout of an encoded frame, equivalence of the allocation-free writer with
    the reference encoder, round trip and framing of the decoder, behaviour on
    truncated and hostile input, and the error frames. *)

From S2P Require Import Prelude NetErrors Frame.
Local Open Scope Z_scope.

(** ** Layout *)
Definition header_layout (f : Frame) (headerLen bodyLen : Z) (reserved : byte) : bytes :=
  be_put 2 (Magic f) ++ [byte_of (Version f); byte_of (MsgType f); byte_of (Flags f); reserved]
  ++ be_put 4 headerLen ++ be_put 4 bodyLen ++ be_put 8 (RequestID f).

(** The wire image of a frame: fixed header, header bytes, body bytes. *)
Definition wire (f : Frame) : bytes :=
  header_layout f (len32 (Header f)) (len32 (Body f)) (byte_of 0) ++ Header f ++ Body f.

Lemma copy_at_fit (buf : bytes) off src : (off + length src <= length buf)%nat →
  copy_at buf off src = take off buf ++ src ++ drop (off + length src) buf.
Proof. intros H. unfold copy_at. by rewrite (take_ge src) by lia. Qed.

Lemma writeHeaderFields_layout buf f hl bl :
  (frameHeaderLen <= length buf)%nat →
  writeHeaderFields buf f hl bl
  = header_layout f hl bl (byte_of 0) ++ drop frameHeaderLen buf.
Proof.
  unfold frameHeaderLen. intros Hlen.
  do 22 (destruct buf as [|? buf]; [simpl in Hlen; lia|]).
  unfold writeHeaderFields. rewrite !copy_at_fit; [reflexivity|..];
    rewrite ?length_insert, be_put_length; cbn [length]; try (simpl; lia).
  all: simpl; lia.
Qed.

Lemma header_layout_length f hl bl r : length (header_layout f hl bl r) = frameHeaderLen.
Proof. reflexivity. Qed.

Lemma wire_length f : length (wire f) = (frameHeaderLen + length (Header f) + length (Body f))%nat.
Proof. unfold wire. rewrite !length_app, header_layout_length. lia. Qed.

Lemma copy_at_app (pre mid post src : bytes) :
  length mid = length src → copy_at (pre ++ mid ++ post) (length pre) src = pre ++ src ++ post.
Proof.
  intros Hl. unfold copy_at. rewrite take_app_length.
  f_equal. rewrite !length_app, take_ge by lia. f_equal.
  rewrite <- Hl, <- length_app, app_assoc. apply drop_app_length.
Qed.

Lemma encode_wire f lim : validate f lim = None → EncodeWithLimits f lim = Ok (wire f).
Proof.
  intros Hv. unfold EncodeWithLimits. rewrite Hv. f_equal.
  rewrite writeHeaderFields_layout by (rewrite length_replicate; lia).
  set (L := header_layout _ _ _ _).
  assert (length L = frameHeaderLen) as HL by apply header_layout_length.
  rewrite !replicate_add, <- (app_assoc (replicate frameHeaderLen _)).
  rewrite drop_app_length' by (by rewrite length_replicate).
  rewrite <- HL, (copy_at_app L _ _ (Header f)) by apply length_replicate.
  rewrite app_assoc, <- length_app.
  rewrite <- (app_nil_r (replicate (length (Body f)) _)).
  rewrite (copy_at_app (L ++ Header f) _ [] (Body f)) by apply length_replicate.
  unfold wire. fold L. by rewrite app_nil_r, app_assoc.
Qed.

(** ** Validation *)
Record frame_ok (f : Frame) (lim : frameLimits) : Prop := {
  ok_wt : frame_wt f;
  ok_magic : Magic f = frameMagic;
  ok_version : Version f = frameVersion;
  ok_lim_h : maxHeader lim < 2 ^ 32;
  ok_lim_b : maxBody lim < 2 ^ 32;
  ok_header : Z.of_nat (length (Header f)) <= maxHeader lim;
  ok_body : Z.of_nat (length (Body f)) <= maxBody lim }.

Lemma len32_small b : Z.of_nat (length b) < 2 ^ 32 → len32 b = Z.of_nat (length b).
Proof. intros. apply wrapu_small. lia. Qed.

Lemma frame_ok_len f lim : frame_ok f lim →
  len32 (Header f) = Z.of_nat (length (Header f)) ∧ len32 (Body f) = Z.of_nat (length (Body f)).
Proof. intros []. split; apply len32_small; lia. Qed.

Lemma validate_ok f lim : frame_ok f lim → validate f lim = None.
Proof.
  intros H. destruct (frame_ok_len _ _ H) as [Hh Hb]. destruct H.
  unfold validate. rewrite ok_magic0, ok_version0, Hh, Hb.
  destruct (Z.ltb_spec (maxHeader lim) (Z.of_nat (length (Header f)))); [lia|].
  destruct (Z.ltb_spec (maxBody lim) (Z.of_nat (length (Body f)))); [lia|]. done.
Qed.

(** ** Decoding the wire image *)
Lemma io_ReadFull_app a b : io_ReadFull (a ++ b) (length a) = (b, inr a).
Proof.
  unfold io_ReadFull. rewrite length_app.
  destruct (Nat.leb_spec (length a) (length a + length b)); [|lia].
  by rewrite drop_app_length, take_app_length.
Qed.

Lemma io_ReadFull_app' n a b : length a = n → io_ReadFull (a ++ b) n = (b, inr a).
Proof. intros <-. apply io_ReadFull_app. Qed.

Lemma take_drop_mid {A} (pre mid post : list A) n k :
  length pre = k → length mid = n → take n (drop k (pre ++ mid ++ post)) = mid.
Proof. intros <- <-. by rewrite drop_app_length, take_app_length. Qed.

(** Fields read back from a header image. *)
Lemma header_fields f hl bl r (L := header_layout f hl bl r) :
  frame_wt f → 0 <= hl < 2 ^ 32 → 0 <= bl < 2 ^ 32 →
  be_get (take 2 L) = Magic f ∧ be_get (take 1 (drop 2 L)) = Version f ∧
  be_get (take 1 (drop 3 L)) = MsgType f ∧ be_get (take 1 (drop 4 L)) = Flags f ∧
  be_get (take 4 (drop 6 L)) = hl ∧ be_get (take 4 (drop 10 L)) = bl ∧
  be_get (take 8 (drop 14 L)) = RequestID f.
Proof.
  intros [] Hh Hb. repeat split.
  - change (take 2 L) with (be_put 2 (Magic f)). by apply be_get_put_small.
  - change (be_get [byte_of (Version f)] = Version f).
    unfold be_get; simpl. rewrite byte_val_of. by apply Z.mod_small.
  - change (be_get [byte_of (MsgType f)] = MsgType f).
    unfold be_get; simpl. rewrite byte_val_of. by apply Z.mod_small.
  - change (be_get [byte_of (Flags f)] = Flags f).
    unfold be_get; simpl. rewrite byte_val_of. by apply Z.mod_small.
  - change (take 4 (drop 6 L)) with (be_put 4 hl). by apply be_get_put_small.
  - change (take 4 (drop 10 L)) with (be_put 4 bl). by apply be_get_put_small.
  - change (take 8 (drop 14 L)) with (be_put 8 (RequestID f)). by apply be_get_put_small.
Qed.

Lemma read_section (b rest : bytes) n : Z.of_nat (length b) = n →
  (if 0 <? n then io_ReadFull (b ++ rest) (Z.to_nat n) else (b ++ rest, inr [])) = (rest, inr b).
Proof.
  intros <-. destruct b as [|x b]; [done|].
  destruct (Z.ltb_spec 0 (Z.of_nat (length (x :: b)))); [|simpl in *; lia].
  rewrite Nat2Z.id. apply io_ReadFull_app.
Qed.

Lemma readFrame_wire f lim r rest : frame_ok f lim →
  readFrame (header_layout f (len32 (Header f)) (len32 (Body f)) r ++ Header f ++ Body f ++ rest) lim
  = (rest, inr f).
Proof.
  intros Hok. pose proof (frame_ok_len _ _ Hok) as [Hh Hb].
  unfold readFrame, DecodeFrameWithLimits.
  rewrite io_ReadFull_app' by apply header_layout_length.
  destruct (header_fields f (len32 (Header f)) (len32 (Body f)) r) as (E1&E2&E3&E4&E5&E6&E7);
    [apply Hok|apply wrapu_range; lia..|].
  cbv zeta. rewrite E1, E2, E3, E4, E5, E6, E7. destruct Hok.
  rewrite ok_magic0, ok_version0. cbn [negb Z.eqb frameMagic frameVersion Pos.eqb].
  destruct (Z.ltb_spec (maxHeader lim) (len32 (Header f))); [lia|].
  destruct (Z.ltb_spec (maxBody lim) (len32 (Body f))); [lia|].
  rewrite (read_section (Header f)) by done.
  rewrite (read_section (Body f)) by done.
  rewrite <- ok_magic0, <- ok_version0. by destruct f.
Qed.

(** ** Round trip and framing *)

(** C4: A frame with the protocol's magic and version, in-range fields and
    sections within the limits encodes, and reading the encoding followed by any
    further bytes gives back exactly that frame and leaves exactly those bytes. *)
Theorem frame_roundtrip f lim : frame_ok f lim →
  ∃ bs, EncodeWithLimits f lim = Ok bs ∧
    length bs = (frameHeaderLen + length (Header f) + length (Body f))%nat ∧
    ∀ rest, readFrame (bs ++ rest) lim = (rest, inr f).
Proof.
  intros Hok. exists (wire f). repeat split.
  - by apply encode_wire, validate_ok.
  - apply wire_length.
  - intros rest. unfold wire. rewrite <- !app_assoc. by apply readFrame_wire.
Qed.

Lemma readFrame_wire_app f lim rest : frame_ok f lim → readFrame (wire f ++ rest) lim = (rest, inr f).
Proof. intros Hok. unfold wire. rewrite <- !app_assoc. by apply readFrame_wire. Qed.

(** Framing of a multiplexed connection: any sequence of valid frames written
    back to back is read back as the same sequence, in order, and the next read
    reports a clean end of stream. *)
Theorem frames_pipeline fs lim : Forall (λ f, frame_ok f lim) fs →
  readFrames (S (length fs)) (concat (map wire fs)) lim = (fs, ([], Some (sent EOF))).
Proof.
  induction 1 as [|f fs Hf Hfs IH]; [done|].
  cbn [map concat length]. remember (S (length fs)) as k. cbn [readFrames].
  by rewrite (readFrame_wire_app f lim _ Hf), IH.
Qed.

Lemma io_ReadFull_inr src n rest b :
  io_ReadFull src n = (rest, inr b) → src = b ++ rest ∧ length b = n.
Proof.
  unfold io_ReadFull. destruct (Nat.leb_spec n (length src)).
  - intros [= <- <-]. split; [by rewrite take_drop|]. rewrite length_take; lia.
  - destruct src; discriminate.
Qed.

Lemma read_section_inv src n rest b : 0 <= n →
  (if 0 <? n then io_ReadFull src (Z.to_nat n) else (src, inr [])) = (rest, inr b) →
  src = b ++ rest ∧ Z.of_nat (length b) = n.
Proof.
  intros Hn. destruct (Z.ltb_spec 0 n).
  - intros [-> Hl]%io_ReadFull_inr. split; [done|lia].
  - intros [= -> <-]. split; [done|simpl; lia].
Qed.

(** A 22-byte block is the layout of the fields read from it. *)
Lemma header_layout_surj (L : bytes) : length L = frameHeaderLen →
  L = be_put 2 (be_get (take 2 L)) ++
      [byte_of (be_get (take 1 (drop 2 L))); byte_of (be_get (take 1 (drop 3 L)));
       byte_of (be_get (take 1 (drop 4 L))); default (byte_of 0) (L !! 5%nat)]
      ++ be_put 4 (be_get (take 4 (drop 6 L))) ++ be_put 4 (be_get (take 4 (drop 10 L)))
      ++ be_put 8 (be_get (take 8 (drop 14 L))).
Proof.
  unfold frameHeaderLen. intros Hl.
  do 22 (destruct L as [|? L]; [discriminate|]). destruct L; [|discriminate].
  cbn -[be_put be_get byte_of].
  repeat match goal with
  | |- context [be_put ?n (be_get ?l)] => rewrite (be_put_get l : be_put n (be_get l) = l)
  end.
  by rewrite !be_get_1, !byte_of_val.
Qed.

(** C6: Soundness of the decoder on arbitrary input: whenever it returns a frame,
    the bytes it consumed are the layout of that frame (any reserved byte), the
    frame has the protocol's magic and version, and both sections respect the
    limits, so no allocation larger than the configured limits is requested. *)
Theorem decode_sound src lim rest f : readFrame src lim = (rest, inr f) →
  frame_wt f ∧ Magic f = frameMagic ∧ Version f = frameVersion ∧
  Z.of_nat (length (Header f)) <= maxHeader lim ∧ Z.of_nat (length (Body f)) <= maxBody lim ∧
  ∃ reserved, src = header_layout f (Z.of_nat (length (Header f))) (Z.of_nat (length (Body f))) reserved
                    ++ Header f ++ Body f ++ rest.
Proof.
  unfold readFrame, DecodeFrameWithLimits.
  destruct (io_ReadFull src frameHeaderLen) as [r0 [?|L]] eqn:E0; [discriminate|].
  apply io_ReadFull_inr in E0 as [-> HL].
  pose proof (header_layout_surj L HL) as Hsurj.
  assert (∀ k n, (k + n <= 22)%nat → 0 <= be_get (take n (drop k L)) < 256 ^ Z.of_nat n) as Hr.
  { intros k n Hk. pose proof (be_get_range (take n (drop k L))) as Hrange.
    rewrite length_take, length_drop, HL in Hrange. unfold frameHeaderLen in Hrange.
    by replace (n `min` (22 - k))%nat with n in Hrange by lia. }
  set (magic := be_get (take 2 L)) in *.
  pose proof (Hr 0%nat 2%nat ltac:(lia)) as R1. rewrite drop_0 in R1. fold magic in R1.
  pose proof (Hr 2%nat 1%nat ltac:(lia)) as R2. pose proof (Hr 3%nat 1%nat ltac:(lia)) as R3.
  pose proof (Hr 4%nat 1%nat ltac:(lia)) as R4. pose proof (Hr 14%nat 8%nat ltac:(lia)) as R7.
  set (hl := be_get (take 4 (drop 6 L))) in *. set (bl := be_get (take 4 (drop 10 L))) in *.
  pose proof (Hr 6%nat 4%nat ltac:(lia)) as R5. fold hl in R5.
  pose proof (Hr 10%nat 4%nat ltac:(lia)) as R6. fold bl in R6.
  destruct (Z.eqb_spec magic frameMagic); [|discriminate].
  destruct (Z.eqb_spec (be_get (take 1 (drop 2 L))) frameVersion); [|discriminate].
  cbn [negb]. destruct (Z.ltb_spec (maxHeader lim) hl); [discriminate|].
  destruct (Z.ltb_spec (maxBody lim) bl); [discriminate|].
  destruct (if 0 <? hl then _ else _) as [r1 [?|h]] eqn:E1; [discriminate|].
  apply read_section_inv in E1 as [-> Hh]; [|lia].
  destruct (if 0 <? bl then _ else _) as [r2 [?|b]] eqn:E2; [discriminate|].
  apply read_section_inv in E2 as [-> Hb]; [|lia].
  intros [= -> <-]. cbn [Magic Version MsgType Flags RequestID Header Body].
  split; [constructor; cbn; lia|]. do 2 (split; [done|]). do 2 (split; [lia|]).
  exists (default (byte_of 0) (L !! 5%nat)).
  rewrite Hsurj at 1. rewrite Hh, Hb. unfold header_layout.
  cbn [Magic Version MsgType Flags RequestID Header Body]. by rewrite <- !app_assoc.
Qed.

(** ** Writing *)
Section writer_facts.
Context {W : Type} (Write : W → bytes → W * (nat * option err)) (sentb : W → bytes).

(** The part of the [io.Writer] contract the writer loop relies on: a call
    accepts a prefix of its argument and reports that prefix's length. *)
Hypothesis write_prefix : ∀ w p w' n e, Write w p = (w', (n, e)) →
  (n <= length p)%nat ∧ sentb w' = sentb w ++ take n p.

Lemma writeFull_fuel_spec data : ∀ fuel w, (length data <= fuel)%nat →
  ∃ w' r k, writeFull_fuel Write fuel w data = Some (w', r) ∧ r ≠ Panic ∧
    sentb w' = sentb w ++ take k data ∧ (r = Ok tt → k = length data).
Proof.
  intros fuel. revert data. induction fuel as [|fuel IH]; intros [|x data] w Hf;
    try (simpl in Hf; lia); try by (eexists w, (Ok tt), 0%nat; simpl; rewrite app_nil_r).
  cbn [writeFull_fuel]. destruct (Write w (x :: data)) as [w1 [n e]] eqn:E.
  apply write_prefix in E as [Hn Hs]. destruct e as [e|].
  { exists w1, (Err e), n. done. }
  destruct (Nat.eqb_spec n 0); [exists w1, (Err (sent ErrShortWrite)), n; done|].
  destruct (Nat.ltb_spec (length (x :: data)) n); [lia|].
  destruct (IH (drop n (x :: data)) w1) as (w2 & r & k & -> & HP & Hs2 & Hok).
  { rewrite length_drop. simpl in *; lia. }
  exists w2, r, (n + k)%nat. split; [done|]. split; [done|]. split.
  - by rewrite Hs2, Hs, <- app_assoc, take_take_drop.
  - intros ->%Hok. rewrite length_drop. lia.
Qed.

Lemma writeFull_spec w data : ∃ w' r k, writeFull Write w data = (w', r) ∧ r ≠ Panic ∧
  sentb w' = sentb w ++ take k data ∧ (r = Ok tt → k = length data).
Proof.
  destruct (writeFull_fuel_spec data (length data) w (le_n _)) as (w' & r & k & E & H).
  exists w', r, k. unfold writeFull. by rewrite E.
Qed.

(** Writing [a] and then, on success, continuing with [rest]: the bytes sent are
    a prefix of the concatenation, all of it on success. *)
Definition sends (w : W) (data : bytes) (out : W * res err unit) : Prop :=
  out.2 ≠ Panic ∧ ∃ k, sentb out.1 = sentb w ++ take k data ∧ (out.2 = Ok tt → k = length data).

Lemma writeFull_sends w data : sends w data (writeFull Write w data).
Proof.
  destruct (writeFull_spec w data) as (w' & r & k & -> & HP & Hs & Hk).
  split; [done|]. by exists k.
Qed.

Lemma sends_seq w a b out k : sends w a out → (∀ w', sends w' b (k w')) →
  sends w (a ++ b) (match out with (w', Ok _) => k w' | (w', r) => (w', r) end).
Proof.
  intros [HP (n & Hn & Hok)] Hk. destruct out as [w' [u|e|]]; cbn in *; [|split; [done|]|done].
  - destruct u. specialize (Hok eq_refl). subst n. rewrite take_ge in Hn by lia.
    destruct (Hk w') as [HP' (m & Hm & Hok')]. split; [done|].
    exists (length a + m)%nat. split.
    + by rewrite Hm, Hn, take_app_add, <- app_assoc.
    + intros ->%Hok'. by rewrite length_app.
  - exists (n `min` length a)%nat. split; [|done].
    cbn. rewrite Hn. f_equal. rewrite take_app_le by lia.
    destruct (decide (n <= length a)%nat); [by rewrite Nat.min_l by lia|].
    by rewrite Nat.min_r, !take_ge by lia.
Qed.

Lemma write_section w b : sends w b (match b with [] => (w, Ok tt) | _ :: _ => writeFull Write w b end).
Proof.
  destruct b; [|apply writeFull_sends]. split; [done|]. exists 0%nat. simpl. by rewrite app_nil_r.
Qed.

(** C12: The allocation-free [writeFrame] is equivalent to the reference encoder:
    for a writer that accepts prefixes, whatever the recycled scratch buffer
    holds, the bytes put on the wire are a prefix of [Encode]'s output and all of
    it when [writeFrame] succeeds; it never panics and always returns. *)
Theorem writeFrame_sends_encoding scratch w f lim bs :
  length scratch = frameHeaderLen → EncodeWithLimits f lim = Ok bs →
  ∃ k, sentb (writeFrame Write scratch w f lim).1 = sentb w ++ take k bs ∧
    (writeFrame Write scratch w f lim).2 ≠ Panic ∧
    ((writeFrame Write scratch w f lim).2 = Ok tt → k = length bs).
Proof.
  intros Hs HE. destruct (validate f lim) as [e|] eqn:Hv.
  { unfold EncodeWithLimits in HE. by rewrite Hv in HE. }
  rewrite encode_wire in HE by done. injection HE as <-.
  unfold writeFrame. rewrite Hv. cbv zeta.
  rewrite writeHeaderFields_layout by lia.
  rewrite drop_ge by lia. rewrite app_nil_r.
  assert (∀ out, sends w (wire f) out → ∃ k, sentb out.1 = sentb w ++ take k (wire f) ∧
            out.2 ≠ Panic ∧ (out.2 = Ok tt → k = length (wire f))) as Hfin.
  { intros out [HP (k & Hk & Hok)]. by exists k. }
  apply Hfin. unfold wire. apply sends_seq; [apply writeFull_sends|].
  intros w1. apply (sends_seq w1 (Header f) (Body f) _
    (λ w, match Body f with [] => (w, Ok tt) | _ :: _ => writeFull Write w (Body f) end));
    intros; apply write_section.
Qed.
End writer_facts.

(** ** Truncated input *)
Definition is_eof (e : err) : Prop := e = sent EOF ∨ e = sent ErrUnexpectedEOF.

Lemma io_ReadFull_short src n : (length src < n)%nat →
  ∃ e, io_ReadFull src n = ([], inl e) ∧ is_eof e.
Proof.
  intros H. unfold io_ReadFull, is_eof. destruct (Nat.leb_spec n (length src)); [lia|].
  destruct src; eauto.
Qed.

Lemma read_section_short src n : (length src < n)%nat →
  ∃ e, (if 0 <? Z.of_nat n then io_ReadFull src (Z.to_nat (Z.of_nat n)) else (src, inr []))
       = ([], inl e) ∧ is_eof e.
Proof.
  intros H. destruct (Z.ltb_spec 0 (Z.of_nat n)); [|lia].
  rewrite Nat2Z.id. by apply io_ReadFull_short.
Qed.

(** A connection cut anywhere inside a valid frame never yields a frame: every
    strict prefix of an encoding makes the decoder report end of file. *)
Theorem decode_truncated f lim k : frame_ok f lim → (k < length (wire f))%nat →
  ∃ r e, readFrame (take k (wire f)) lim = (r, inl e) ∧ is_eof e.
Proof.
  intros Hok. rewrite wire_length. unfold wire. intros Hk.
  set (L := header_layout _ _ _ _).
  assert (length L = frameHeaderLen) as HL by done.
  unfold readFrame, DecodeFrameWithLimits.
  destruct (decide (k < frameHeaderLen)%nat) as [Hlt|Hge].
  { destruct (io_ReadFull_short (take k (L ++ Header f ++ Body f)) frameHeaderLen)
      as (e & -> & He); [rewrite length_take; lia|]. eauto. }
  rewrite take_app, (take_ge L) by lia. rewrite HL.
  rewrite io_ReadFull_app' by done.
  destruct (header_fields f (len32 (Header f)) (len32 (Body f)) (byte_of 0))
    as (E1&E2&_&_&E5&E6&_); [apply Hok|apply wrapu_range; lia..|].
  fold L in E1, E2, E5, E6. cbv zeta.
  destruct (frame_ok_len _ _ Hok) as [Hh Hb]. destruct Hok.
  rewrite E1, E2, E5, E6, Hh, Hb, ok_magic0, ok_version0.
  cbn [negb Z.eqb frameMagic frameVersion Pos.eqb].
  destruct (Z.ltb_spec (maxHeader lim) (Z.of_nat (length (Header f)))); [lia|].
  destruct (Z.ltb_spec (maxBody lim) (Z.of_nat (length (Body f)))); [lia|].
  destruct (decide (k - frameHeaderLen < length (Header f))%nat) as [Hlt|Hge'].
  { destruct (read_section_short (take (k - frameHeaderLen) (Header f ++ Body f)) (length (Header f)))
      as (e & -> & He); [rewrite length_take; lia|]. eauto. }
  rewrite take_app, (take_ge (Header f)) by lia. rewrite read_section by done.
  destruct (read_section_short (take (k - frameHeaderLen - length (Header f)) (Body f)) (length (Body f)))
    as (e & -> & He); [rewrite length_take; lia|]. eauto.
Qed.

(** ** Error frames *)

(** Error propagation across the wire: the frame the server builds for an
    error is recognised as an error by the client, is always [ErrRemote], matches
    [ErrRateLimited] or [ErrHandlerPanic] exactly when the server's message is
    that sentinel's text, and otherwise keeps the message. *)
Theorem error_frame_classified id e (f := NewErrorFrame id (Some e)) :
  IsError f = true ∧ IsOneWay f = false ∧ MsgType f = MessageTypeResponse ∧ RequestID f = id ∧
  errors_is (remoteErrorFromFrame f) ErrRemote = true ∧
  (errors_is (remoteErrorFromFrame f) ErrRateLimited = true ↔ err_msg e = sentinel_msg ErrRateLimited) ∧
  (errors_is (remoteErrorFromFrame f) ErrHandlerPanic = true ↔ err_msg e = sentinel_msg ErrHandlerPanic) ∧
  (err_msg e ≠ sentinel_msg ErrRateLimited → err_msg e ≠ sentinel_msg ErrHandlerPanic →
   err_msg e ≠ "" → err_msg (remoteErrorFromFrame f) = err_msg e).
Proof.
  assert (string_of (Body f) = err_msg e) as Hb by apply string_of_bytes_of.
  do 4 (split; [done|]). unfold remoteErrorFromFrame. cbv zeta. rewrite Hb.
  destruct (decide (err_msg e = sentinel_msg ErrRateLimited)) as [H1|H1];
    [rewrite bool_decide_true by done|rewrite bool_decide_false by done].
  { split_and!; try done. rewrite H1. split; intros [=]. }
  destruct (decide (err_msg e = sentinel_msg ErrHandlerPanic)) as [H2|H2];
    [rewrite bool_decide_true by done|rewrite bool_decide_false by done].
  { split_and!; done. }
  split_and!; try done. intros. cbn. unfold RemoteError_Error. by rewrite bool_decide_false.
Qed.

(** [validate] lets a zero magic through as if it were a default, but the
    writer emits it as is: such a frame encodes and the receiving side always
    rejects it. *)
Theorem zero_magic_encodes_but_is_rejected f lim rest :
  frame_ok (mkFrame frameMagic frameVersion (MsgType f) (Flags f) (RequestID f) (Header f) (Body f)) lim →
  Magic f = 0 → Version f = frameVersion →
  ∃ bs, EncodeWithLimits f lim = Ok bs ∧ ∃ r, readFrame (bs ++ rest) lim = (r, inl (err_magic 0)).
Proof.
  intros Hok Hm Hv. exists (wire f).
  pose proof (frame_ok_len _ _ Hok) as [Hh Hb]. cbn in Hh, Hb.
  assert (frame_wt f) as Hwt.
  { destruct Hok as [[] _ _ _ _ _ _]. constructor; cbn in *; try lia; rewrite ?Hm, ?Hv; unfold frameVersion; lia. }
  split.
  - apply encode_wire. unfold validate. rewrite Hm, Hv, Hh, Hb. destruct Hok; cbn in *.
    destruct (Z.ltb_spec (maxHeader lim) (Z.of_nat (length (Header f)))); [lia|].
    destruct (Z.ltb_spec (maxBody lim) (Z.of_nat (length (Body f)))); [lia|]. done.
  - unfold wire. rewrite <- !app_assoc. unfold readFrame, DecodeFrameWithLimits.
    rewrite io_ReadFull_app' by apply header_layout_length.
    destruct (header_fields f (len32 (Header f)) (len32 (Body f)) (byte_of 0)) as (E1&_);
      [done|apply wrapu_range; lia..|].
    cbv zeta. rewrite E1, Hm. eauto.
Qed.

(** ** Witnesses *)
Definition demo_frame : Frame :=
  NewFrame MessageTypeRequest 7 (bytes_of "trace") (bytes_of "hello").
Definition demo_limits : frameLimits := mkLimits 16 16.

Lemma demo_frame_ok : frame_ok demo_frame demo_limits.
Proof. constructor; [constructor|..]; cbn; try lia; try done. Qed.

Lemma frame_roundtrip_witness : ∃ bs, EncodeWithLimits demo_frame demo_limits = Ok bs ∧
  length bs = 32%nat ∧ ∀ rest, readFrame (bs ++ rest) demo_limits = (rest, inr demo_frame).
Proof. exact (frame_roundtrip demo_frame demo_limits demo_frame_ok). Defined.

Lemma frames_pipeline_witness :
  readFrames 3 (concat (map wire [demo_frame; NewFrame MessageTypePing 8 [] []])) demo_limits
  = ([demo_frame; NewFrame MessageTypePing 8 [] []], ([], Some (sent EOF))).
Proof.
  apply (frames_pipeline [demo_frame; NewFrame MessageTypePing 8 [] []] demo_limits).
  apply Forall_cons_2; [exact demo_frame_ok|]. apply Forall_cons_2; [|apply Forall_nil_2].
  constructor; [constructor|..]; cbn; try lia; done.
Defined.

Lemma decode_sound_witness : Z.of_nat (length (Header demo_frame)) <= 16.
Proof.
  destruct (decode_sound (wire demo_frame ++ bytes_of "xyz") demo_limits (bytes_of "xyz") demo_frame)
    as (_&_&_&H&_); [vm_compute; reflexivity|exact H].
Defined.

(** A writer that takes at most three bytes per call. *)
Definition short_writer (w p : bytes) : bytes * (nat * option err) :=
  (w ++ take 3 p, (length (take 3 p), None)).

Lemma writeFrame_sends_encoding_witness : ∃ k,
  (writeFrame short_writer (replicate 22 (byte_of 255)) [] demo_frame demo_limits).1
  = [] ++ take k (wire demo_frame) ∧ (writeFrame short_writer (replicate 22 (byte_of 255)) [] demo_frame demo_limits).2 ≠ Panic
  ∧ ((writeFrame short_writer (replicate 22 (byte_of 255)) [] demo_frame demo_limits).2 = Ok tt → k = length (wire demo_frame)).
Proof.
  apply (writeFrame_sends_encoding short_writer (λ w, w)).
  - intros w p w' n e [= <- <- <-]. split; [rewrite length_take; lia|].
    f_equal. destruct p as [|? [|? [|? p]]]; done.
  - done.
  - vm_compute; reflexivity.
Defined.

Lemma decode_truncated_witness : ∃ r e, readFrame (take 25 (wire demo_frame)) demo_limits = (r, inl e) ∧ is_eof e.
Proof. apply (decode_truncated demo_frame demo_limits 25 demo_frame_ok). vm_compute. lia. Defined.

Lemma zero_magic_witness : ∃ bs,
  EncodeWithLimits (mkFrame 0 frameVersion 1 0 7 [] []) demo_limits = Ok bs ∧
  ∃ r, readFrame (bs ++ []) demo_limits = (r, inl (err_magic 0)).
Proof.
  apply (zero_magic_encodes_but_is_rejected (mkFrame 0 frameVersion 1 0 7 [] []) demo_limits []);
    [constructor; [constructor|..]; cbn; try lia; done|reflexivity|reflexivity].
Defined.
