(* ===== verification/FrameWriters.v ===== *)
(** * Concurrent frame writers

    Models [sendFrame] of [src/micro/net/server.go], [writeFrame] of
    [src/micro/net/stream.go], and the shared buffers of [headerScratchPool] in
    [src/micro/net/frame.go], one step per access to what goroutines share: a
    connection with its write mutex, a buffer, the pool of buffers.  Goroutines that
    decode a frame use the same buffers.  The caller's header and body are not written
    to while they are sent. *)

From S2P Require Import Prelude NetErrors Frame.

(** A connection: the goroutine that holds [writeMu], the bytes written so far and,
    in the order of the unlocks, what the calls returned. *)
Record wconn := mkWConn { wc_writeMu : option nat; wc_out : bytes; wc_log : list (Frame * res err unit) }.

(** Where a goroutine is.  [THeader c f b off]: writing the fixed header from buffer
    [b], [off] bytes of it are out.  [TRest c f secs]: what is left of header and
    body.  [TRead b acc]: [io.ReadFull] into buffer [b] has [acc]. *)
Inductive wtask :=
| TIdle
| TWait (c : nat) (f : Frame)
| TLocked (c : nat) (f : Frame)
| TFill (c : nat) (f : Frame) (b : nat)
| THeader (c : nat) (f : Frame) (b : nat) (off : nat)
| TRest (c : nat) (f : Frame) (secs : list bytes)
| TRead (b : nat) (acc : bytes).

(** [w_heap]: the buffers made so far.  [w_pool]: those in the pool.  [w_reads]: what
    decoders read from the connection and what they found in the buffer. *)
Record wsys := mkWSys {
  w_conns : list wconn; w_tasks : list wtask; w_heap : list bytes; w_pool : list nat;
  w_reads : list (bytes * bytes) }.

(** [headerScratchPool.Get]: one of the pool, or a new one. *)
Inductive pool_Get : list bytes → list nat → nat → list bytes → list nat → Prop :=
| get_pooled heap p1 b p2 : pool_Get heap (p1 ++ b :: p2) b heap (p1 ++ p2)
| get_new heap pool : pool_Get heap pool (length heap) (heap ++ [replicate frameHeaderLen (byte_of 0)]) pool.

(** What [writeFull] makes of a call of [Write] that took [n] bytes: it returns, or
    goes on ([None]). *)
Definition after_write (n : nat) (e : option err) : option (res err unit) :=
  match e with
  | Some e => Some (Err e)
  | None => if n =? 0 then Some (Err (sent ErrShortWrite)) else None
  end.
(** The parts after the fixed header that are written at all. *)
Definition sections (f : Frame) : list bytes :=
  (match Header f with [] => [] | h => [h] end) ++ (match Body f with [] => [] | b => [b] end).

Definition conn_write (data : bytes) (n : nat) (k : wconn) : wconn :=
  mkWConn (wc_writeMu k) (wc_out k ++ take n data) (wc_log k).
Definition conn_lock (t : nat) (k : wconn) : wconn := mkWConn (Some t) (wc_out k) (wc_log k).
(** The deferred unlock. *)
Definition conn_return (f : Frame) (r : res err unit) (k : wconn) : wconn :=
  mkWConn None (wc_out k) (wc_log k ++ [(f, r)]).

Definition set_task (t : nat) (k : wtask) (y : wsys) : wsys :=
  mkWSys (w_conns y) (<[t := k]> (w_tasks y)) (w_heap y) (w_pool y) (w_reads y).
Definition upd_conn (c : nat) (g : wconn → wconn) (y : wsys) : wsys :=
  mkWSys (alter g c (w_conns y)) (w_tasks y) (w_heap y) (w_pool y) (w_reads y).
Definition set_bufs (heap : list bytes) (pool : list nat) (y : wsys) : wsys :=
  mkWSys (w_conns y) (w_tasks y) heap pool (w_reads y).
(** [headerScratchPool.Put] *)
Definition put_buf (b : nat) (y : wsys) : wsys := set_bufs (w_heap y) (b :: w_pool y) y.
Definition saw (x : bytes * bytes) (y : wsys) : wsys :=
  mkWSys (w_conns y) (w_tasks y) (w_heap y) (w_pool y) (w_reads y ++ [x]).

Section steps.
Context (lim : frameLimits).

(** One step of goroutine [t]. *)
Inductive w_step (t : nat) : wsys → wsys → Prop :=
| w_call y c f k : w_tasks y !! t = Some TIdle → w_conns y !! c = Some k → w_step t y (set_task t (TWait c f) y)
| w_lock y c f k : w_tasks y !! t = Some (TWait c f) → w_conns y !! c = Some k → wc_writeMu k = None →
    w_step t y (set_task t (TLocked c f) (upd_conn c (conn_lock t) y))
| w_invalid y c f e : w_tasks y !! t = Some (TLocked c f) → validate f lim = Some e →
    w_step t y (set_task t TIdle (upd_conn c (conn_return f (Err e)) y))
| w_get y c f b heap pool : w_tasks y !! t = Some (TLocked c f) → validate f lim = None →
    pool_Get (w_heap y) (w_pool y) b heap pool →
    w_step t y (set_task t (TFill c f b) (set_bufs heap pool y))
| w_fill y c f b buf : w_tasks y !! t = Some (TFill c f b) → w_heap y !! b = Some buf →
    w_step t y (set_task t (THeader c f b 0)
      (set_bufs (<[b := writeHeaderFields buf f (len32 (Header f)) (len32 (Body f))]> (w_heap y)) (w_pool y) y))
| w_header y c f b off buf n e : w_tasks y !! t = Some (THeader c f b off) → w_heap y !! b = Some buf →
    off < frameHeaderLen → n <= length (drop off buf) → after_write n e = None →
    w_step t y (set_task t (THeader c f b (off + n)) (upd_conn c (conn_write (drop off buf) n) y))
| w_header_fails y c f b off buf n e r : w_tasks y !! t = Some (THeader c f b off) → w_heap y !! b = Some buf →
    off < frameHeaderLen → n <= length (drop off buf) → after_write n e = Some r →
    w_step t y (set_task t TIdle (put_buf b (upd_conn c (λ k, conn_return f r (conn_write (drop off buf) n k)) y)))
| w_header_done y c f b off : w_tasks y !! t = Some (THeader c f b off) → frameHeaderLen <= off →
    w_step t y (set_task t (TRest c f (sections f)) (put_buf b y))
| w_rest y c f data secs n e : w_tasks y !! t = Some (TRest c f (data :: secs)) → data ≠ [] →
    n <= length data → after_write n e = None →
    w_step t y (set_task t (TRest c f (drop n data :: secs)) (upd_conn c (conn_write data n) y))
| w_rest_fails y c f data secs n e r : w_tasks y !! t = Some (TRest c f (data :: secs)) → data ≠ [] →
    n <= length data → after_write n e = Some r →
    w_step t y (set_task t TIdle (upd_conn c (λ k, conn_return f r (conn_write data n k)) y))
| w_rest_next y c f secs : w_tasks y !! t = Some (TRest c f ([] :: secs)) →
    w_step t y (set_task t (TRest c f secs) y)
| w_done y c f : w_tasks y !! t = Some (TRest c f []) →
    w_step t y (set_task t TIdle (upd_conn c (conn_return f (Ok tt)) y))
(** Decoding: the first [readFullFn] of [DecodeFrameWithLimits]. *)
| w_decode y b heap pool : w_tasks y !! t = Some TIdle → pool_Get (w_heap y) (w_pool y) b heap pool →
    w_step t y (set_task t (TRead b []) (set_bufs heap pool y))
| w_read y b acc buf chunk : w_tasks y !! t = Some (TRead b acc) → w_heap y !! b = Some buf →
    length (acc ++ chunk) <= frameHeaderLen →
    w_step t y (set_task t (TRead b (acc ++ chunk)) (set_bufs (<[b := copy_at buf (length acc) chunk]> (w_heap y)) (w_pool y) y))
| w_read_fails y b acc : w_tasks y !! t = Some (TRead b acc) → w_step t y (set_task t TIdle (put_buf b y))
| w_extract y b acc buf : w_tasks y !! t = Some (TRead b acc) → length acc = frameHeaderLen → w_heap y !! b = Some buf →
    w_step t y (set_task t TIdle (put_buf b (saw (acc, buf) y)))
(** The garbage collector empties the pool. *)
| w_gc y p1 b p2 : w_pool y = p1 ++ b :: p2 → w_step t y (set_bufs (w_heap y) (p1 ++ p2) y).
End steps.

Definition w_init (nconns ntasks : nat) : wsys :=
  mkWSys (replicate nconns (mkWConn None [] [])) (replicate ntasks TIdle) [] [] [].
Definition any_step (lim : frameLimits) (y y' : wsys) : Prop := ∃ t, w_step lim t y y'.
Definition w_reachable (lim : frameLimits) (y : wsys) : Prop := ∃ n m, rtc (any_step lim) (w_init n m) y.
