(* ===== verification/FrameWritersFacts.v ===== *)
(** * Frames on a shared connection stay intact

    Any number of goroutines send on any number of connections and decode, sharing the
    pool of header buffers: what is on a connection is whole frames in the order in
    which the write lock was taken, and nobody sees another's buffer. *)

From S2P Require Import Prelude NetErrors Frame FrameFacts FrameWriters.

(** ** Buffers and their owners *)
Definition buf_of (x : wtask) : option nat :=
  match x with TFill _ _ b | THeader _ _ b _ | TRead b _ => Some b | _ => None end.
(** The connection whose lock a goroutine holds. *)
Definition conn_of (x : wtask) : option nat :=
  match x with TLocked c _ | TFill c _ _ | THeader c _ _ _ | TRest c _ _ => Some c | _ => None end.

Record bufs_ok (tasks : list wtask) (heap : list bytes) (pool : list nat) : Prop := {
  bo_owners : NoDup (omap buf_of tasks ++ pool);
  bo_dom : Forall (λ b, b < length heap) (omap buf_of tasks ++ pool);
  bo_len : Forall (λ buf, length buf = frameHeaderLen) heap }.

(** Replacing a task changes the owners by its buffer. *)
Lemma owners_split tasks t x : tasks !! t = Some x → ∃ rest, ∀ x',
  omap buf_of (<[t := x']> tasks) ≡ₚ option_list (buf_of x') ++ rest.
Proof.
  intros Hx. exists (omap buf_of (take t tasks) ++ omap buf_of (drop (S t) tasks)). intros x'.
  rewrite insert_take_drop by (by apply lookup_lt_Some in Hx). rewrite omap_app. simpl.
  destruct (buf_of x') as [b|]; simpl; [|done]. symmetry. apply Permutation_middle.
Qed.
Lemma owners_split_same tasks t x rest : tasks !! t = Some x →
  (∀ x', omap buf_of (<[t := x']> tasks) ≡ₚ option_list (buf_of x') ++ rest) →
  omap buf_of tasks ≡ₚ option_list (buf_of x) ++ rest.
Proof. intros Hx Hr. rewrite <- (Hr x). by rewrite list_insert_id. Qed.

Lemma bufs_same tasks heap pool t x x' : bufs_ok tasks heap pool → tasks !! t = Some x → buf_of x' = buf_of x →
  bufs_ok (<[t := x']> tasks) heap pool.
Proof.
  intros [Ho Hd Hl] Hx Hb. destruct (owners_split tasks t x Hx) as [rest Hr]. pose proof (owners_split_same _ _ _ _ Hx Hr) as Hs.
  split; [| |done]; rewrite Hr, Hb, <- Hs; done.
Qed.
Lemma bufs_get tasks heap pool t x x' b heap' pool' : bufs_ok tasks heap pool → tasks !! t = Some x → buf_of x = None →
  buf_of x' = Some b → pool_Get heap pool b heap' pool' → bufs_ok (<[t := x']> tasks) heap' pool'.
Proof.
  intros [Ho Hd Hl] Hx Hb Hb' Hg. destruct (owners_split tasks t x Hx) as [rest Hr].
  pose proof (owners_split_same _ _ _ _ Hx Hr) as Hs. rewrite Hb in Hs. rewrite Hs in Ho, Hd. simpl in *.
  destruct Hg as [heap p1 b p2|heap pool].
  - assert (Hp : (b :: rest) ++ p1 ++ p2 ≡ₚ rest ++ p1 ++ b :: p2) by (simpl; rewrite !app_assoc; apply Permutation_middle).
    split; [| |done]; rewrite Hr, Hb'; simpl; [|]; change (b :: rest ++ p1 ++ p2) with ((b :: rest) ++ p1 ++ p2); by rewrite Hp.
  - split.
    + rewrite Hr, Hb'. simpl. apply NoDup_cons. split; [|done]. intros Hin. rewrite Forall_forall in Hd. apply Hd in Hin. lia.
    + rewrite Hr, Hb'. simpl. rewrite length_app. simpl. constructor; [lia|]. eapply Forall_impl; [exact Hd|]. simpl. lia.
    + apply Forall_app. split; [done|]. by constructor.
Qed.
Lemma bufs_put tasks heap pool t x x' b : bufs_ok tasks heap pool → tasks !! t = Some x → buf_of x = Some b →
  buf_of x' = None → bufs_ok (<[t := x']> tasks) heap (b :: pool).
Proof.
  intros [Ho Hd Hl] Hx Hb Hb'. destruct (owners_split tasks t x Hx) as [rest Hr].
  pose proof (owners_split_same _ _ _ _ Hx Hr) as Hs. rewrite Hb in Hs. rewrite Hs in Ho, Hd.
  assert (Hp : rest ++ b :: pool ≡ₚ (b :: rest) ++ pool) by (symmetry; apply Permutation_middle).
  split; [| |done]; rewrite Hr, Hb'; simpl; rewrite Hp; done.
Qed.
Lemma bufs_write tasks heap pool b buf : bufs_ok tasks heap pool → length buf = frameHeaderLen → bufs_ok tasks (<[b := buf]> heap) pool.
Proof.
  intros [Ho Hd Hl] Hb. split; [done|by rewrite length_insert|]. by apply Forall_insert.
Qed.
Lemma bufs_gc tasks heap p1 b p2 : bufs_ok tasks heap (p1 ++ b :: p2) → bufs_ok tasks heap (p1 ++ p2).
Proof.
  intros [Ho Hd Hl].
  assert (Hs : omap buf_of tasks ++ p1 ++ b :: p2 ≡ₚ b :: omap buf_of tasks ++ p1 ++ p2)
    by (rewrite !(app_assoc (omap buf_of tasks)); symmetry; apply Permutation_middle).
  rewrite Hs in Ho, Hd. split; [by apply NoDup_cons in Ho as [_ ?]|by apply Forall_cons in Hd as [_ ?]|done].
Qed.
Lemma owned_lookup tasks heap pool t x b : bufs_ok tasks heap pool → tasks !! t = Some x → buf_of x = Some b → is_Some (heap !! b).
Proof.
  intros [_ Hd _] Hx Hb. apply lookup_lt_is_Some. rewrite Forall_forall in Hd. apply Hd, elem_of_app. left.
  apply list_elem_of_omap. exists x. split; [|done]. by eapply list_elem_of_lookup_2.
Qed.
(** No two goroutines own the same buffer. *)
Lemma owners_differ tasks heap pool t t' x x' b : bufs_ok tasks heap pool → tasks !! t = Some x → tasks !! t' = Some x' → t ≠ t' →
  buf_of x = Some b → buf_of x' ≠ Some b.
Proof.
  intros [Ho _ _] Hx Hx' Ht Hb Hb'. destruct (owners_split tasks t x Hx) as [rest Hr].
  pose proof (owners_split_same _ _ _ _ Hx Hr) as Hs. rewrite Hs, Hb in Ho. simpl in Ho. apply NoDup_cons in Ho as [Hn _].
  apply Hn, elem_of_app. left. specialize (Hr TIdle). simpl in Hr. rewrite <- Hr. apply list_elem_of_omap. exists x'.
  split; [|done]. apply (list_elem_of_lookup_2 _ t'). by rewrite list_lookup_insert_ne.
Qed.

(** ** The invariant *)
Definition hdr (f : Frame) : bytes := header_layout f (len32 (Header f)) (len32 (Body f)) (byte_of 0).
Lemma wire_hdr f : wire f = hdr f ++ concat (sections f).
Proof. unfold wire, hdr, sections. destruct (Header f), (Body f); simpl; by rewrite ?app_nil_r. Qed.
Lemma hdr_length f : length (hdr f) = frameHeaderLen.
Proof. apply header_layout_length. Qed.

Section invariant.
Context (lim : frameLimits).

(** What a finished call left on the connection: a prefix of the frame's encoding, all
    of it when the call succeeded, nothing when the frame was rejected. *)
Definition contrib (x : Frame * res err unit) (bs : bytes) : Prop :=
  (∃ k, bs = take k (wire x.1)) ∧ x.2 ≠ Panic ∧ (x.2 = Ok tt → bs = wire x.1 ∧ validate x.1 lim = None) ∧
  (validate x.1 lim ≠ None → bs = []).
(** What a call under way has left. *)
Definition progress (heap : list bytes) (c : nat) (x : wtask) (cur : bytes) : Prop :=
  match x with
  | TLocked c' f => c' = c ∧ cur = []
  | TFill c' f b => c' = c ∧ validate f lim = None ∧ cur = []
  | THeader c' f b off => c' = c ∧ validate f lim = None ∧ heap !! b = Some (hdr f) ∧ off <= frameHeaderLen ∧ cur = take off (hdr f)
  | TRest c' f secs => c' = c ∧ validate f lim = None ∧ wire f = cur ++ concat secs
  | _ => False
  end.
Definition conn_ok (tasks : list wtask) (heap : list bytes) (c : nat) (k : wconn) : Prop :=
  ∃ parts cur, wc_out k = concat parts ++ cur ∧ Forall2 contrib (wc_log k) parts ∧
    match wc_writeMu k with
    | None => cur = []
    | Some t => ∃ x, tasks !! t = Some x ∧ progress heap c x cur
    end.
(** A decoder finds in its buffer what it has read. *)
Definition read_ok (heap : list bytes) (x : wtask) : Prop :=
  match x with
  | TRead b acc => ∃ buf, heap !! b = Some buf ∧ take (length acc) buf = acc ∧ length acc <= frameHeaderLen
  | _ => True
  end.
Record winv (y : wsys) : Prop := {
  wi_bufs : bufs_ok (w_tasks y) (w_heap y) (w_pool y);
  wi_read : ∀ t x, w_tasks y !! t = Some x → read_ok (w_heap y) x;
  wi_saw : Forall (λ p, p.1 = p.2) (w_reads y);
  wi_lock : ∀ t x c, w_tasks y !! t = Some x → conn_of x = Some c → ∃ k, w_conns y !! c = Some k ∧ wc_writeMu k = Some t;
  wi_conn : ∀ c k, w_conns y !! c = Some k → conn_ok (w_tasks y) (w_heap y) c k }.

(** A change of the heap that leaves the buffers of other goroutines alone. *)
Definition others_keep (y : wsys) (t : nat) (heap : list bytes) : Prop :=
  ∀ t' x b, t' ≠ t → w_tasks y !! t' = Some x → buf_of x = Some b → heap !! b = w_heap y !! b.
Lemma keep_same y t : others_keep y t (w_heap y).
Proof. by intros t' x b. Qed.
Lemma keep_write y t x b buf : winv y → w_tasks y !! t = Some x → buf_of x = Some b → others_keep y t (<[b := buf]> (w_heap y)).
Proof.
  intros Hy Hx Hb t' x' b' Ht Hx' Hb'. apply list_lookup_insert_ne. intros <-.
  exact (owners_differ _ _ _ t t' x x' b (wi_bufs y Hy) Hx Hx' (not_eq_sym Ht) Hb Hb').
Qed.
Lemma keep_get y t b heap pool : winv y → pool_Get (w_heap y) (w_pool y) b heap pool → others_keep y t heap.
Proof.
  intros Hy Hg t' x b' Ht Hx Hb. inversion Hg; subst; [done|].
  destruct (owned_lookup _ _ _ _ _ _ (wi_bufs y Hy) Hx Hb) as [buf Hbuf]. apply lookup_app_l. by apply lookup_lt_Some in Hbuf.
Qed.

Lemma progress_conn heap c x cur : progress heap c x cur → conn_of x = Some c.
Proof. destruct x; simpl; naive_solver. Qed.
Lemma progress_keep y t t' heap c x cur : others_keep y t heap → t' ≠ t → w_tasks y !! t' = Some x →
  progress (w_heap y) c x cur → progress heap c x cur.
Proof. intros Hk Ht Hx. destruct x; simpl; try done. by rewrite (Hk t' _ b Ht Hx). Qed.
Lemma read_keep y t t' heap x : others_keep y t heap → t' ≠ t → w_tasks y !! t' = Some x → read_ok (w_heap y) x → read_ok heap x.
Proof. intros Hk Ht Hx. destruct x; simpl; try done. by rewrite (Hk t' _ b Ht Hx). Qed.

(** A step of [t] that touches connection [c] only, and only when free or held by [t]. *)
Lemma winv_update y t x x' c g heap pool reads :
  winv y → w_tasks y !! t = Some x → bufs_ok (<[t := x']> (w_tasks y)) heap pool → others_keep y t heap →
  read_ok heap x' → Forall (λ p, p.1 = p.2) reads →
  (∀ c', conn_of x = Some c' ∨ conn_of x' = Some c' → c' = c) →
  (conn_of x' = Some c → ∃ k, w_conns y !! c = Some k ∧ wc_writeMu (g k) = Some t) →
  (∀ k, w_conns y !! c = Some k → (wc_writeMu k = None ∨ wc_writeMu k = Some t) ∧ conn_ok (<[t := x']> (w_tasks y)) heap c (g k)) →
  winv (mkWSys (alter g c (w_conns y)) (<[t := x']> (w_tasks y)) heap pool reads).
Proof.
  intros Hy Hx Hb Hk Hr Hs Hc Hl Hg. pose proof (lookup_lt_Some _ _ _ Hx) as Ht. split; simpl; try done.
  - intros t' z. destruct (decide (t' = t)) as [->|Hne]; [rewrite list_lookup_insert_eq by done; by intros [= <-]|].
    rewrite list_lookup_insert_ne by done. intros Hz. eapply read_keep; [done..|]. by eapply wi_read.
  - intros t' z c'. destruct (decide (t' = t)) as [->|Hne].
    + rewrite list_lookup_insert_eq by done. intros [= <-] Hz. rewrite (Hc c') in * by (by right).
      destruct (Hl Hz) as (k & Hk' & Hm). exists (g k). by rewrite list_lookup_alter_eq, Hk'.
    + rewrite list_lookup_insert_ne by done. intros Hz Hz'. destruct (wi_lock y Hy t' z c' Hz Hz') as (k & Hk' & Hm).
      destruct (decide (c = c')) as [->|Hcc]; [|exists k; by rewrite list_lookup_alter_ne].
      destruct (Hg k Hk') as [[?|?] _]; congruence.
  - intros c' k. destruct (decide (c = c')) as [->|Hcc].
    + rewrite list_lookup_alter_eq. intros (k0 & Hk0 & ->)%fmap_Some. by apply Hg.
    + rewrite list_lookup_alter_ne by done. intros Hk'. destruct (wi_conn y Hy c' k Hk') as (parts & cur & Ho & Hp & Hm).
      exists parts, cur. split_and!; [done..|]. destruct (wc_writeMu k) as [t'|] eqn:Hmu; [|done].
      destruct Hm as (z & Hz & Hpr). destruct (decide (t' = t)) as [->|Hne].
      * simplify_eq. apply progress_conn in Hpr as Hcz. exfalso. apply Hcc. symmetry. apply Hc. by left.
      * exists z. rewrite list_lookup_insert_ne by done. split; [done|]. by eapply progress_keep.
Qed.
Lemma winv_local y t x x' heap pool reads :
  winv y → w_tasks y !! t = Some x → conn_of x = None → conn_of x' = None →
  bufs_ok (<[t := x']> (w_tasks y)) heap pool → others_keep y t heap → read_ok heap x' → Forall (λ p, p.1 = p.2) reads →
  winv (mkWSys (w_conns y) (<[t := x']> (w_tasks y)) heap pool reads).
Proof.
  intros Hy Hx Hc Hc' Hb Hk Hr Hs. rewrite <- (list_alter_id id (w_conns y) (length (w_conns y))) by done.
  eapply winv_update; try done; rewrite ?Hc, ?Hc'; [by intros ? [?|?]|done|].
  intros k Hk'. apply lookup_lt_Some in Hk'. lia.
Qed.
Lemma held y t x c : winv y → w_tasks y !! t = Some x → conn_of x = Some c → ∃ k parts cur,
  w_conns y !! c = Some k ∧ wc_writeMu k = Some t ∧ wc_out k = concat parts ++ cur ∧ Forall2 contrib (wc_log k) parts ∧
  progress (w_heap y) c x cur.
Proof.
  intros Hy Hx Hc. destruct (wi_lock y Hy t x c Hx Hc) as (k & Hk & Hm).
  destruct (wi_conn y Hy c k Hk) as (parts & cur & Ho & Hp & Hmu). rewrite Hm in Hmu.
  destruct Hmu as (z & Hz & Hpr). exists k, parts, cur. by simplify_eq.
Qed.
(** A call goes on and writes [d]. *)
Lemma winv_go y t x x' c g d heap pool :
  winv y → w_tasks y !! t = Some x → conn_of x = Some c → conn_of x' = Some c →
  (∀ k, wc_writeMu (g k) = wc_writeMu k ∧ wc_out (g k) = wc_out k ++ d ∧ wc_log (g k) = wc_log k) →
  bufs_ok (<[t := x']> (w_tasks y)) heap pool → others_keep y t heap →
  (∀ cur, progress (w_heap y) c x cur → progress heap c x' (cur ++ d)) →
  winv (mkWSys (alter g c (w_conns y)) (<[t := x']> (w_tasks y)) heap pool (w_reads y)).
Proof.
  intros Hy Hx Hc Hc' Hg Hb Hk Hp. destruct (held y t x c Hy Hx Hc) as (k & parts & cur & Hkc & Hm & Ho & Hl & Hpr).
  destruct (Hg k) as (G1 & G2 & G3). eapply winv_update; try done.
  - by destruct x'.
  - apply Hy.
  - intros c' [?|?]; congruence.
  - intros _. exists k. by rewrite G1.
  - intros k' Hk'. simplify_eq. split; [by right|]. exists parts, (cur ++ d). rewrite G1, G2, G3, Hm, Ho, app_assoc.
    split_and!; [done..|]. exists x'. rewrite list_lookup_insert_eq by (by apply lookup_lt_Some in Hx). eauto.
Qed.
(** A call returns [r] after writing [d]. *)
Lemma winv_return y t x c g f r d heap pool :
  winv y → w_tasks y !! t = Some x → conn_of x = Some c →
  (∀ k, wc_writeMu (g k) = None ∧ wc_out (g k) = wc_out k ++ d ∧ wc_log (g k) = wc_log k ++ [(f, r)]) →
  bufs_ok (<[t := TIdle]> (w_tasks y)) heap pool → others_keep y t heap →
  (∀ cur, progress (w_heap y) c x cur → contrib (f, r) (cur ++ d)) →
  winv (mkWSys (alter g c (w_conns y)) (<[t := TIdle]> (w_tasks y)) heap pool (w_reads y)).
Proof.
  intros Hy Hx Hc Hg Hb Hk Hp. destruct (held y t x c Hy Hx Hc) as (k & parts & cur & Hkc & Hm & Ho & Hl & Hpr).
  destruct (Hg k) as (G1 & G2 & G3). eapply winv_update; try done.
  - apply Hy.
  - intros c' [?|?]; [congruence|done].
  - intros k' Hk'. simplify_eq. split; [by right|]. exists (parts ++ [cur ++ d]), []. rewrite G1, G2, G3, Ho.
    split_and!; [|by apply Forall2_app; [|constructor; [apply Hp|]]|done].
    rewrite concat_app. simpl. by rewrite !app_nil_r, app_assoc.
Qed.
Lemma winv_go0 y t x x' c heap pool :
  winv y → w_tasks y !! t = Some x → conn_of x = Some c → conn_of x' = Some c →
  bufs_ok (<[t := x']> (w_tasks y)) heap pool → others_keep y t heap →
  (∀ cur, progress (w_heap y) c x cur → progress heap c x' cur) →
  winv (mkWSys (w_conns y) (<[t := x']> (w_tasks y)) heap pool (w_reads y)).
Proof.
  intros Hy Hx Hc Hc' Hb Hk Hp. rewrite <- (list_alter_id id (w_conns y) c) by done.
  eapply (winv_go y t x x' c id []); try done; [|]; intros; rewrite !app_nil_r; [done|by apply Hp].
Qed.

(** *** Contributions *)
Lemma contrib_part f r bs k : r ≠ Panic → r ≠ Ok tt → validate f lim = None → bs = take k (wire f) → contrib (f, r) bs.
Proof. intros Hp Ho Hv Hb. split_and!; simpl; [by exists k|done..|congruence]. Qed.
Lemma contrib_whole f bs : validate f lim = None → bs = wire f → contrib (f, Ok tt) bs.
Proof. intros Hv ->. split_and!; simpl; [exists (length (wire f)); by rewrite take_ge|done|done|congruence]. Qed.
Lemma after_write_fails n e r : after_write n e = Some r → r ≠ Panic ∧ r ≠ Ok tt.
Proof. unfold after_write. destruct e; [by intros [= <-]|]. case_match; [by intros [= <-]|done]. Qed.

(** ** Every step keeps it *)
Lemma buffer_length y b buf : winv y → w_heap y !! b = Some buf → length buf = frameHeaderLen.
Proof. intros Hy Hb. pose proof (bo_len _ _ _ (wi_bufs y Hy)) as Hl. rewrite Forall_lookup in Hl. by eapply Hl. Qed.
Lemma header_step y t c f b off buf n e : winv y → w_tasks y !! t = Some (THeader c f b off) → w_heap y !! b = Some buf →
  off < frameHeaderLen → n <= length (drop off buf) → after_write n e = None →
  winv (set_task t (THeader c f b (off + n)) (upd_conn c (conn_write (drop off buf) n) y)).
Proof.
  intros Hy Hx Hb Ho Hn He. eapply (winv_go y t _ _ c _ (take n (drop off buf))); try done.
  - eapply bufs_same; [apply Hy|done..].
  - intros cur (_ & Hv & Hbuf & _ & ->). simpl. rewrite Hb in Hbuf. simplify_eq. split_and!; try done.
    + rewrite length_drop, hdr_length in Hn. lia.
    + by rewrite take_take_drop.
Qed.
Lemma header_fails_step y t c f b off buf n e r : winv y → w_tasks y !! t = Some (THeader c f b off) → w_heap y !! b = Some buf →
  off < frameHeaderLen → n <= length (drop off buf) → after_write n e = Some r →
  winv (set_task t TIdle (put_buf b (upd_conn c (λ k, conn_return f r (conn_write (drop off buf) n k)) y))).
Proof.
  intros Hy Hx Hb Ho Hn He. eapply (winv_return y t _ c _ f r (take n (drop off buf))); try done.
  - eapply bufs_put; [apply Hy|done..].
  - intros cur (_ & Hv & Hbuf & _ & ->). rewrite Hb in Hbuf. simplify_eq. apply after_write_fails in He as [Hp Hok].
    apply (contrib_part f r _ (off + n)); try done. rewrite take_take_drop, wire_hdr, take_app_le; [done|].
    rewrite length_drop, hdr_length in Hn. rewrite hdr_length. lia.
Qed.
Lemma header_done_step y t c f b off : winv y → w_tasks y !! t = Some (THeader c f b off) → frameHeaderLen <= off →
  winv (set_task t (TRest c f (sections f)) (put_buf b y)).
Proof.
  intros Hy Hx Ho. eapply (winv_go0 y t _ _ c); try done.
  - eapply bufs_put; [apply Hy|done..].
  - intros cur (_ & Hv & _ & _ & ->). split_and!; [done..|]. by rewrite take_ge, wire_hdr by (by rewrite hdr_length).
Qed.
Lemma fill_step y t c f b buf : winv y → w_tasks y !! t = Some (TFill c f b) → w_heap y !! b = Some buf →
  winv (set_task t (THeader c f b 0)
    (set_bufs (<[b := writeHeaderFields buf f (len32 (Header f)) (len32 (Body f))]> (w_heap y)) (w_pool y) y)).
Proof.
  intros Hy Hx Hb.
  pose proof (buffer_length y b buf Hy Hb) as Hl.
  assert (Hh : writeHeaderFields buf f (len32 (Header f)) (len32 (Body f)) = hdr f).
  { rewrite writeHeaderFields_layout by lia. by rewrite drop_ge, app_nil_r by lia. }
  rewrite Hh. eapply (winv_go0 y t _ _ c); try done.
  - apply bufs_write; [|apply hdr_length]. eapply bufs_same; [apply Hy|done..].
  - by eapply keep_write.
  - intros cur (_ & Hv & ->). simpl. split_and!; try done; [|lia].
    apply list_lookup_insert_eq. by apply lookup_lt_Some in Hb.
Qed.
Lemma rest_step y t c f data secs n e : winv y → w_tasks y !! t = Some (TRest c f (data :: secs)) → n <= length data →
  after_write n e = None → winv (set_task t (TRest c f (drop n data :: secs)) (upd_conn c (conn_write data n) y)).
Proof.
  intros Hy Hx Hn He. eapply (winv_go y t _ _ c _ (take n data)); try done.
  - eapply bufs_same; [apply Hy|done..].
  - intros cur (_ & Hv & Hw). split_and!; [done..|]. rewrite Hw. simpl. by rewrite <- app_assoc, (app_assoc (take n data)), take_drop.
Qed.
Lemma rest_fails_step y t c f data secs n e r : winv y → w_tasks y !! t = Some (TRest c f (data :: secs)) → n <= length data →
  after_write n e = Some r → winv (set_task t TIdle (upd_conn c (λ k, conn_return f r (conn_write data n k)) y)).
Proof.
  intros Hy Hx Hn He. eapply (winv_return y t _ c _ f r (take n data)); try done.
  - eapply bufs_same; [apply Hy|done..].
  - intros cur (_ & Hv & Hw). apply after_write_fails in He as [Hp Hok].
    apply (contrib_part f r _ (length cur + n)); try done. rewrite Hw. simpl.
    by rewrite take_app_add, take_app_le.
Qed.
Lemma read_step y t b acc buf chunk : winv y → w_tasks y !! t = Some (TRead b acc) → w_heap y !! b = Some buf →
  length (acc ++ chunk) <= frameHeaderLen →
  winv (set_task t (TRead b (acc ++ chunk)) (set_bufs (<[b := copy_at buf (length acc) chunk]> (w_heap y)) (w_pool y) y)).
Proof.
  intros Hy Hx Hb Hn. destruct (wi_read y Hy t _ Hx) as (buf' & Hb' & Hacc & Hl). simplify_eq.
  pose proof (buffer_length y b buf Hy Hb) as Hlen.
  rewrite length_app in Hn. rewrite copy_at_fit by lia.
  eapply (winv_local y t); try done; [|by eapply keep_write| |apply Hy].
  - apply bufs_write; [eapply bufs_same; [apply Hy|done..]|]. rewrite !length_app, length_take, length_drop. lia.
  - simpl. eexists. rewrite list_lookup_insert_eq by (by apply lookup_lt_Some in Hb). split; [done|].
    rewrite Hacc, length_app. split; [|lia]. by rewrite app_assoc, <- length_app, take_app_length.
Qed.
Lemma lock_step y t c f k : winv y → w_tasks y !! t = Some (TWait c f) → w_conns y !! c = Some k → wc_writeMu k = None →
  winv (set_task t (TLocked c f) (upd_conn c (conn_lock t) y)).
Proof.
  intros Hy Hx Hc Hm. eapply (winv_update y t _ _ c); try done.
  - eapply bufs_same; [apply Hy|done..].
  - apply Hy.
  - by intros c' [[=]|[= ->]].
  - intros _. by exists k.
  - intros k' Hk'. simplify_eq. split; [by left|]. destruct (wi_conn y Hy c k Hc) as (parts & cur & Ho & Hp & Hmu).
    rewrite Hm in Hmu. subst cur. exists parts, []. split_and!; [done..|]. simpl. eexists.
    rewrite list_lookup_insert_eq by (by apply lookup_lt_Some in Hx). by split.
Qed.
Lemma w_step_inv t y y' : w_step lim t y y' → winv y → winv y'.
Proof.
  intros Hs Hy. destruct Hs.
  - eapply (winv_local y t); try done; [eapply bufs_same; [apply Hy|done..]|apply Hy].
  - by eapply lock_step.
  - eapply (winv_return y t _ c _ f (Err e) []); try done.
    + intros k. simpl. by rewrite app_nil_r.
    + eapply bufs_same; [apply Hy|done..].
    + intros cur (_ & ->). split_and!; simpl; try done. by exists 0.
  - eapply (winv_go0 y t _ _ c); try done; [by eapply bufs_get; [apply Hy|..]|by eapply keep_get|].
    by intros cur (_ & ->).
  - by apply fill_step.
  - by eapply header_step.
  - by eapply header_fails_step.
  - by eapply header_done_step.
  - by eapply rest_step.
  - by eapply rest_fails_step.
  - eapply (winv_go0 y t _ _ c); try done. eapply bufs_same; [apply Hy|done..].
  - eapply (winv_return y t _ c _ f (Ok tt) []); try done.
    + intros k. simpl. by rewrite app_nil_r.
    + eapply bufs_same; [apply Hy|done..].
    + intros cur (_ & Hv & Hw). apply contrib_whole; [done|]. rewrite Hw. simpl. done.
  - eapply (winv_local y t); try done; [by eapply bufs_get; [apply Hy|..]|by eapply keep_get| |apply Hy].
    simpl. assert (Hb : is_Some (heap !! b)).
    { eapply (owned_lookup (<[t := TRead b []]> (w_tasks y)) heap pool t (TRead b [])); [by eapply bufs_get; [apply Hy|..]| |done].
      apply list_lookup_insert_eq. by eapply lookup_lt_Some. }
    destruct Hb as [buf Hb]. exists buf. split_and!; [done..|]. simpl. lia.
  - by apply read_step.
  - eapply (winv_local y t); try done; [eapply bufs_put; [apply Hy|done..]|apply Hy].
  - eapply (winv_local y t); try done; [eapply bufs_put; [apply Hy|done..]|].
    apply Forall_app. split; [apply Hy|]. constructor; [|done]. simpl.
    destruct (wi_read y Hy t _ H) as (buf' & Hb' & Hacc & Hl). simplify_eq.
    rewrite <- Hacc, take_ge; [done|]. rewrite (buffer_length y b buf Hy H1). lia.
  - destruct Hy as [Hb Hr Hsw Hl Hc]. split; try done. simpl. rewrite H in Hb. by eapply bufs_gc.
Qed.
Lemma w_reachable_inv y : w_reachable lim y → winv y.
Proof.
  intros (n & m & Hr). eapply (rtc_invariant _ winv); [|exact Hr|].
  - intros y1 y2 Hy1 [t Hs]. by eapply w_step_inv.
  - assert (Hi : ∀ t x, replicate m TIdle !! t = Some x → x = TIdle) by (intros t x Hx; by apply lookup_replicate in Hx as [-> _]).
    assert (Ho : omap buf_of (replicate m TIdle) = []) by (clear; by induction m as [|m IH]).
    split; simpl; [split; rewrite ?Ho; constructor| |constructor| |].
    + by intros t x ->%Hi.
    + by intros t x c ->%Hi.
    + intros c k [-> _]%lookup_replicate. by exists [], [].
Qed.

(** ** No holder of the lock is stuck *)
Lemma holder_steps y t x c : winv y → w_tasks y !! t = Some x → conn_of x = Some c → ∃ y', w_step lim t y y'.
Proof.
  intros Hy Hx Hc. destruct (held y t x c Hy Hx Hc) as (k & parts & cur & Hk & Hm & _ & _ & Hp).
  destruct x as [|c' f|c' f|c' f b|c' f b off|c' f [|[|a data] secs]|b acc]; try done.
  - destruct (validate f lim) as [e|] eqn:Hv; [eexists; by eapply w_invalid|].
    eexists. eapply w_get; [done..|apply get_new].
  - destruct (owned_lookup _ _ _ _ _ b (wi_bufs y Hy) Hx eq_refl) as [buf Hb]. eexists. by eapply w_fill.
  - destruct Hp as (_ & Hv & Hb & Ho & _). destruct (decide (off < frameHeaderLen)) as [Hlt|Hge].
    + eexists. eapply (w_header lim t y c' f b off (hdr f) (frameHeaderLen - off) None); try done.
      * rewrite length_drop, hdr_length. lia.
      * unfold after_write. destruct (Nat.eqb_spec (frameHeaderLen - off) 0); [lia|done].
    + eexists. eapply w_header_done; [done|lia].
  - eexists. by eapply w_done.
  - eexists. by eapply w_rest_next.
  - eexists. eapply (w_rest lim t y c' f (a :: data) secs (length (a :: data)) None); done.
Qed.
End invariant.

(** The frames whose calls succeeded, in the order in which the lock was held. *)
Definition delivered (log : list (Frame * res err unit)) : list Frame :=
  omap (λ x, match x.2 with Ok _ => Some x.1 | _ => None end) log.
Definition sending (x : wtask) : option Frame :=
  match x with TLocked _ f | TFill _ f _ | THeader _ f _ _ | TRest _ f _ => Some f | _ => None end.
Lemma progress_prefix lim heap c x cur : progress lim heap c x cur → ∃ f j, sending x = Some f ∧ cur = take j (wire f).
Proof.
  destruct x as [|c' f|c' f|c' f b|c' f b off|c' f secs|b acc]; simpl; try done.
  - intros [_ ->]. by exists f, 0.
  - intros (_ & _ & ->). by exists f, 0.
  - intros (_ & _ & _ & Ho & ->). exists f, off. by rewrite wire_hdr, take_app_le by (by rewrite hdr_length).
  - intros (_ & _ & Hw). exists f, (length cur). by rewrite Hw, take_app_length.
Qed.
Lemma concat_delivered lim log parts : Forall2 (contrib lim) log parts →
  Forall (λ x, x.2 = Ok tt ∨ validate x.1 lim ≠ None) log → concat parts = concat (map wire (delivered log)).
Proof.
  induction 1 as [|[f r] bs log parts (_ & Hp & Hok & Hv) _ IH]; intros Hl; [done|].
  apply Forall_cons in Hl as [Hf Hl]. simpl in *. rewrite (IH Hl). destruct r as [[]|e|]; simpl; [|destruct Hf as [|Hf]; [done|by rewrite Hv]|done].
  by destruct (Hok eq_refl) as [-> _].
Qed.

(** C3: frames on a shared connection stay intact.  Any number of goroutines send on
    any number of connections, with writes that are short or fail at any byte, and
    decode, all over the same pool of header buffers.  In every interleaving the bytes
    on a connection are the contributions of the calls in the order in which the write
    lock was held: a prefix of the frame's encoding, all of it when the call succeeds,
    nothing when the frame is too large, and at the end the prefix of the frame that
    the holder of the lock is sending.  When no write has failed, a peer reads exactly
    the frames sent, in that order.  Whoever holds the lock can go on, and a decoder
    finds in its buffer exactly what it read. *)
Theorem frames_intact lim y c k : w_reachable lim y → w_conns y !! c = Some k →
  (∃ parts cur, wc_out k = concat parts ++ cur ∧ Forall2 (contrib lim) (wc_log k) parts ∧
     match wc_writeMu k with
     | None => cur = []
     | Some t => ∃ x f j, w_tasks y !! t = Some x ∧ sending x = Some f ∧ cur = take j (wire f)
     end) ∧
  (wc_writeMu k = None → Forall (λ x, x.2 = Ok tt ∨ validate x.1 lim ≠ None) (wc_log k) →
     Forall (λ f, frame_ok f lim) (delivered (wc_log k)) →
     readFrames (S (length (delivered (wc_log k)))) (wc_out k) lim = (delivered (wc_log k), ([], Some (sent EOF)))) ∧
  (∀ t, wc_writeMu k = Some t → ∃ y', w_step lim t y y') ∧
  Forall (λ p, p.1 = p.2) (w_reads y).
Proof.
  intros Hr Hk. pose proof (w_reachable_inv lim y Hr) as Hy. destruct (wi_conn lim y Hy c k Hk) as (parts & cur & Ho & Hp & Hm).
  split_and!; [| | |apply (wi_saw lim y Hy)].
  - exists parts, cur. split_and!; [done..|]. destruct (wc_writeMu k) as [t|]; [|done]. destruct Hm as (x & Hx & Hpr).
    destruct (progress_prefix _ _ _ _ _ Hpr) as (f & j & Hf & Hj). by exists x, f, j.
  - intros Hmu Hl Hf. rewrite Hmu in Hm. subst cur. rewrite Ho, app_nil_r, (concat_delivered lim _ _ Hp Hl). by apply frames_pipeline.
  - intros t Ht. rewrite Ht in Hm. destruct Hm as (x & Hx & Hpr). by eapply holder_steps, progress_conn.
Qed.

(** ** Two goroutines on one connection *)
Definition ping (id : Z) : Frame := NewFrame MessageTypePing id [] [].
Ltac w_by t rule := eapply rtc_l; [exists t; eapply rule; vm_compute; first [reflexivity | repeat constructor]|].
(** The second waits while the first sends its header in two writes. *)
Lemma two_senders : ∃ y k, rtc (any_step defaultLimits) (w_init 1 2) y ∧ w_conns y !! 0 = Some k ∧ wc_writeMu k = None ∧
  wc_log k = [(ping 8, Ok tt); (ping 7, Ok tt)].
Proof.
  eexists _, _. split; [|split_and!].
  {
  eapply rtc_l; [exists 0; eapply (w_call _ _ _ 0 (ping 7)); vm_compute; reflexivity|].
  eapply rtc_l; [exists 1; eapply (w_call _ _ _ 0 (ping 8)); vm_compute; reflexivity|].
  w_by 1 w_lock.
  eapply rtc_l; [exists 1; eapply w_get; [vm_compute; reflexivity..|apply get_new]|].
  w_by 1 w_fill.
  eapply rtc_l; [exists 1; eapply (w_header _ _ _ 0 (ping 8) 0 0 _ 10 None); vm_compute; first [reflexivity | repeat constructor]|].
  eapply rtc_l; [exists 1; eapply (w_header _ _ _ 0 (ping 8) 0 10 _ 12 None); vm_compute; first [reflexivity | repeat constructor]|].
  w_by 1 w_header_done. w_by 1 w_done. w_by 0 w_lock.
  eapply rtc_l; [exists 0; eapply w_get; [vm_compute; reflexivity..|apply (get_pooled _ [] 0 [])]|].
  w_by 0 w_fill.
  eapply rtc_l; [exists 0; eapply (w_header _ _ _ 0 (ping 7) 0 0 _ 22 None); vm_compute; first [reflexivity | repeat constructor]|].
  w_by 0 w_header_done. w_by 0 w_done. apply rtc_refl. }
  all: vm_compute; reflexivity.
Qed.
Lemma ping_ok id : (0 <= id < 2 ^ 64)%Z → frame_ok (ping id) defaultLimits.
Proof. intros Hid. constructor; [constructor|..]; cbn; try lia; done. Qed.
Lemma frames_intact_witness : ∃ y k, w_reachable defaultLimits y ∧ w_conns y !! 0 = Some k ∧
  readFrames 3 (wc_out k) defaultLimits = ([ping 8; ping 7], ([], Some (sent EOF))).
Proof.
  destruct two_senders as (y & k & Hr & Hk & Hm & Hl). exists y, k.
  assert (Hre : w_reachable defaultLimits y) by (by exists 1, 2). split; [exact Hre|]. split; [exact Hk|].
  destruct (frames_intact defaultLimits y 0 k Hre Hk) as (_ & H & _). rewrite Hl in H. apply H.
  - exact Hm.
  - repeat constructor.
  - repeat constructor; apply ping_ok; lia.
Defined.

(** A frame after one that broke off is not read as it was sent: its first bytes fill
    up the broken one. *)
Example broken_frame_breaks_the_next : ∃ f rest,
  readFrame (take 30 (wire (NewFrame MessageTypeResponse 7 [] (bytes_of "0123456789"))) ++ wire (ping 8)) defaultLimits = (rest, inr f) ∧
  RequestID f = 7%Z ∧ Body f ≠ bytes_of "0123456789" ∧
  ∀ g, (readFrame rest defaultLimits).2 ≠ inr g.
Proof.
  eexists _, _. split; [vm_compute; reflexivity|]. split; [vm_compute; reflexivity|].
  split; [vm_compute; discriminate|]. intros g. vm_compute. discriminate.
Qed.
