(* ===== verification/Router.v ===== *)
(** * Route trees of package web

    Models [src/web/route.go]: the node type, the registration path
    ([childOrCreate] and its variants, [addRoute]) and the lookup path
    ([childOf], [findInTree], [findRoute]).  Nodes are owned by exactly one
    parent, so the pointer tree is a tree value and mutation is rebuilding the
    path to the root; a panic keeps the nodes created before it.

    Regular expressions are those of package [regexp]: a type with [Compile],
    [String] and [Match], passed as parameters. *)

From S2P Require Import Prelude GoStrings.

Inductive nodeType := nodeTypeStatic | nodeTypeReg | nodeTypeParam | nodeTypeAny.
#[export] Instance nodeType_eq_dec : EqDecision nodeType.
Proof. solve_decision. Defined.

(** Why a registration panics. *)
Inductive route_panic :=
| PEmptyPath | PNoLeadingSlash | PTrailingSlash | PRootHasHandler
| PEmptySegment | PConflict
| PStarVsParam | PStarVsRegex | PParamVsStar | PParamVsRegex | PParamClash
| PRegexVsStar | PRegexVsParam | PRegexClash | PBadRegex
| PNilDeref.

Section router.
Context {H Rx : Type}.
Context (Compile : string → option Rx) (RxString : Rx → string) (RxMatch : Rx → string → bool).

(** The [children] map is an association list with at most one entry per key. *)
Inductive node := Node {
  typ : nodeType;
  path : string;
  children : list (string * node);
  starChild : option node;
  paramChild : option node;
  paramName : string;
  regexChild : option node;
  regExpr : option Rx;
  handler : option H }.

Definition new_node (t : nodeType) (p pname : string) (rx : option Rx) : node :=
  Node t p [] None None pname None rx None.

Fixpoint assoc (k : string) (l : list (string * node)) : option node :=
  match l with
  | [] => None
  | (k', v) :: l' => if bool_decide (k' = k) then Some v else assoc k l'
  end.

Fixpoint assoc_set (k : string) (v : node) (l : list (string * node)) : list (string * node) :=
  match l with
  | [] => [(k, v)]
  | (k', v') :: l' => if bool_decide (k' = k) then (k, v) :: l' else (k', v') :: assoc_set k v l'
  end.

(** Which child a segment designates. *)
Inductive slot := SStatic (k : string) | SRegex | SParam | SStar.

Definition get_child (n : node) (s : slot) : option node :=
  match s with
  | SStatic k => assoc k (children n)
  | SRegex => regexChild n
  | SParam => paramChild n
  | SStar => starChild n
  end.

Definition set_child (n : node) (s : slot) (c : node) : node :=
  match s with
  | SStatic k => Node (typ n) (path n) (assoc_set k c (children n)) (starChild n) (paramChild n)
                      (paramName n) (regexChild n) (regExpr n) (handler n)
  | SRegex => Node (typ n) (path n) (children n) (starChild n) (paramChild n)
                   (paramName n) (Some c) (regExpr n) (handler n)
  | SParam => Node (typ n) (path n) (children n) (starChild n) (Some c)
                   (paramName n) (regexChild n) (regExpr n) (handler n)
  | SStar => Node (typ n) (path n) (children n) (Some c) (paramChild n)
                  (paramName n) (regexChild n) (regExpr n) (handler n)
  end.

Definition set_handler (n : node) (h : H) : node :=
  Node (typ n) (path n) (children n) (starChild n) (paramChild n)
       (paramName n) (regexChild n) (regExpr n) (Some h).

(** [parseParam]: [Some (name, exp)] when the segment is a regex route, [None]
    when it is a plain parameter (whose name is the text after the colon). *)
Definition param_text (p : string) : string :=
  match p with String _ s => s | EmptyString => EmptyString end.

Definition parseParam (p : string) : option (string * string) :=
  match cut1 "(" (param_text p) with
  | Some (name, exp) => if has_suffix1 ")" exp then Some (name, drop_last exp) else None
  | None => None
  end.

(** The three registration helpers return a panic or the updated node together
    with the slot of the child to continue with. *)
Definition childOrCreateParam (n : node) (p name : string) : route_panic + (node * slot) :=
  match starChild n, regexChild n with
  | Some _, _ => inl PParamVsStar
  | None, Some _ => inl PParamVsRegex
  | None, None =>
      match paramChild n with
      | None => inr (set_child n SParam (new_node nodeTypeParam p name None), SParam)
      | Some c => if bool_decide (path c = p) then inr (n, SParam) else inl PParamClash
      end
  end.

(** The clash test of an existing regex child reads [regExpr] and [paramName] of
    the parent [n]; a nil [regExpr] is a nil dereference. *)
Definition childOrCreateRegex (n : node) (p exp name : string) : route_panic + (node * slot) :=
  match starChild n, paramChild n with
  | Some _, _ => inl PRegexVsStar
  | None, Some _ => inl PRegexVsParam
  | None, None =>
      match regexChild n with
      | None =>
          match Compile exp with
          | None => inl PBadRegex
          | Some rx => inr (set_child n SRegex (new_node nodeTypeReg p name (Some rx)), SRegex)
          end
      | Some _ =>
          match regExpr n with
          | None => inl PNilDeref
          | Some rx =>
              if negb (bool_decide (RxString rx = exp)) || negb (bool_decide (paramName n = name))
              then inl PRegexClash else inr (n, SRegex)
          end
      end
  end.

Definition childOrCreate (n : node) (p : string) : route_panic + (node * slot) :=
  if bool_decide (p = "*") then
    match paramChild n, regexChild n with
    | Some _, _ => inl PStarVsParam
    | None, Some _ => inl PStarVsRegex
    | None, None =>
        match starChild n with
        | None => inr (set_child n SStar (new_node nodeTypeAny p "" None), SStar)
        | Some _ => inr (n, SStar)
        end
    end
  else if has_prefix1 ":" p then
    match parseParam p with
    | None => childOrCreateParam n p (param_text p)
    | Some (name, exp) => childOrCreateRegex n p exp name
    end
  else
    match assoc p (children n) with
    | None => inr (set_child n (SStatic p) (new_node nodeTypeStatic p "" None), SStatic p)
    | Some _ => inr (n, SStatic p)
    end.

(** ** Lookup *)
Definition childOfNonStatic (n : node) (seg : string) : option node :=
  match regexChild n with
  | Some c =>
      if match regExpr c with Some rx => RxMatch rx seg | None => false end then Some c
      else match paramChild n with Some p => Some p | None => starChild n end
  | None => match paramChild n with Some p => Some p | None => starChild n end
  end.

Definition childOf (n : node) (seg : string) : option node :=
  match assoc seg (children n) with
  | Some c => Some c
  | None => childOfNonStatic n seg
  end.

Record matchInfo := mkMatch {
  mi_node : option node;
  paramPath : gmap string string;
  matchedPath : string;
  methodNotAllowed : bool;
  allowedMethods : list string }.

Definition addValue (m : gmap string string) (k v : string) : gmap string string := <[k := v]> m.

(** The segment loop of [findInTree]; [i0] is [i == 0]. *)
Definition extend_path (i0 : bool) (acc p : string) : string :=
  if i0 then "/" +:+ p else acc +:+ "/" +:+ p.

Fixpoint find_loop (n : node) (segs : list string) (i0 : bool) (acc : string)
    (ps : gmap string string) : option matchInfo :=
  match segs with
  | [] => Some (mkMatch (Some n) ps acc false [])
  | seg :: rest =>
      match childOf n seg with
      | None =>
          match starChild n with
          | Some s => match handler s with
                      | Some _ => Some (mkMatch (Some s) ps (extend_path i0 acc (path s)) false [])
                      | None => None
                      end
          | None => None
          end
      | Some c =>
          let acc := extend_path i0 acc (path c) in
          let ps := if bool_decide (paramName c = "") then ps else addValue ps (paramName c) seg in
          match typ c, handler c with
          | nodeTypeAny, Some _ => Some (mkMatch (Some c) ps acc false [])
          | _, _ => find_loop c rest false acc ps
          end
      end
  end.

Definition findInTree (root : node) (p : string) : option matchInfo :=
  if bool_decide (p = "/") then Some (mkMatch (Some root) ∅ "/" false [])
  else find_loop root (split1 "/" (trim1 "/" p)) true "" ∅.

(** ** Registration *)
Fixpoint addSegs (n : node) (segs : list string) (h : H) : node * option route_panic :=
  match segs with
  | [] => match handler n with
          | Some _ => (n, Some PConflict)
          | None => (set_handler n h, None)
          end
  | seg :: rest =>
      if bool_decide (seg = "") then (n, Some PEmptySegment)
      else match childOrCreate n seg with
           | inl e => (n, Some e)
           | inr (n', s) =>
               match get_child n' s with
               | None => (n', Some PNilDeref)
               | Some c => let '(c', r) := addSegs c rest h in (set_child n' s c', r)
               end
           end
  end.

Abbreviation router := (gmap string node).
Definition newRouter : router := ∅.

Definition addRoute (r : router) (method p : string) (h : H) : router * option route_panic :=
  match p with
  | EmptyString => (r, Some PEmptyPath)
  | String c rest =>
      if negb (bool_decide (c = "/"%char)) then (r, Some PNoLeadingSlash)
      else if negb (bool_decide (p = "/")) && has_suffix1 "/" p then (r, Some PTrailingSlash)
      else
        let root := default (new_node nodeTypeStatic "/" "" None) (r !! method) in
        if bool_decide (p = "/") then
          match handler root with
          | Some _ => (<[method := root]> r, Some PRootHasHandler)
          | None => (<[method := set_handler root h]> r, None)
          end
        else
          let '(root', e) := addSegs root (split1 "/" rest) h in
          (<[method := root']> r, e)
  end.

(** [findRoute]: [order] is the order in which Go's map iteration visits the
    trees. *)
Definition findRoute (r : router) (order : list (string * node)) (method p : string) : option matchInfo :=
  match (match r !! method with Some root => findInTree root p | None => None end) with
  | Some mi => Some mi
  | None =>
      match omap (λ mt, if bool_decide (mt.1 = method) then None
                        else match findInTree mt.2 p with Some _ => Some mt.1 | None => None end) order with
      | [] => None
      | allowed => Some (mkMatch None ∅ "" true allowed)
      end
  end.
End router.

Arguments node : clear implicits.
Arguments matchInfo : clear implicits.
