(* ===== verification/RouterFacts.v ===== *)
(** * Correctness of the route trees

    The abstract view of a tree is the map from slot paths to handlers;
    registration refines "insert if absent" on it, keeps the tree well formed,
    and lookup follows the documented priority. *)

From S2P Require Import Prelude GoStrings Router.

#[export] Instance slot_eq_dec : EqDecision slot.
Proof. solve_decision. Defined.

Definition slot_of (seg : string) : slot :=
  if bool_decide (seg = "*") then SStar
  else if has_prefix1 ":" seg then
    match parseParam seg with Some _ => SRegex | None => SParam end
  else SStatic seg.

Section facts.
Context {H Rx : Type}.
Context (Compile : string → option Rx) (RxString : Rx → string) (RxMatch : Rx → string → bool).
Implicit Types n c : node H Rx.

Local Notation childOrCreate := (childOrCreate (H:=H) Compile RxString).
Local Notation addSegs := (addSegs (H:=H) Compile RxString).
Local Notation addRoute := (addRoute (H:=H) Compile RxString).
Local Notation childOf := (childOf (H:=H) RxMatch).
Local Notation find_loop := (find_loop (H:=H) RxMatch).
Local Notation findInTree := (findInTree (H:=H) RxMatch).
Local Notation findRoute := (findRoute (H:=H) RxMatch).

(** ** Children *)
Lemma assoc_set_eq k v (l : list (string * node H Rx)) : assoc k (assoc_set k v l) = Some v.
Proof.
  induction l as [|[k' v'] l IH]; cbn [assoc assoc_set].
  - by rewrite bool_decide_true.
  - case_bool_decide; cbn [assoc]; [by rewrite bool_decide_true|by rewrite bool_decide_false].
Qed.
Lemma assoc_set_ne k k' v (l : list (string * node H Rx)) : k ≠ k' → assoc k' (assoc_set k v l) = assoc k' l.
Proof.
  intros Hk. induction l as [|[k0 v'] l IH]; cbn [assoc assoc_set].
  - by rewrite bool_decide_false.
  - case_bool_decide as E; cbn [assoc]; subst.
    + by rewrite !(bool_decide_false (k = k')).
    + case_bool_decide; [done|exact IH].
Qed.

Lemma get_set_child_eq n s c : get_child (set_child n s c) s = Some c.
Proof. destruct s; cbn; [apply assoc_set_eq|done..]. Qed.
Lemma get_set_child_ne n s s' c : s ≠ s' → get_child (set_child n s c) s' = get_child n s'.
Proof. destruct s, s'; cbn; try done. intros Hs. apply assoc_set_ne. congruence. Qed.
Lemma get_child_set_handler n h s : get_child (set_handler n h) s = get_child n s.
Proof. by destruct s. Qed.
Lemma handler_set_child n s c : handler (set_child n s c) = handler n.
Proof. by destruct s. Qed.

(** What [childOrCreate] does to the tree: nothing, or one fresh node. *)
Inductive opens n : slot → node H Rx → node H Rx → Prop :=
| opens_old s c : get_child n s = Some c → opens n s n c
| opens_new s c t p pn rx : get_child n s = None → c = new_node t p pn rx →
    opens n s (set_child n s c) c.

Lemma childOrCreate_opens n seg n' s : childOrCreate n seg = inr (n', s) →
  s = slot_of seg ∧ ∃ c, get_child n' s = Some c ∧ opens n s n' c.
Proof.
  unfold Router.childOrCreate, slot_of, childOrCreateParam, childOrCreateRegex.
  assert (∀ s0 t p pn rx, get_child n s0 = None →
    ∃ c, get_child (set_child n s0 (new_node t p pn rx)) s0 = Some c ∧
         opens n s0 (set_child n s0 (new_node t p pn rx)) c) as Hnew.
  { intros s0 t p pn rx Hn. eexists. split; [apply get_set_child_eq|]. by eapply opens_new. }
  assert (∀ s0 c, get_child n s0 = Some c → ∃ c, get_child n s0 = Some c ∧ opens n s0 n c) as Hold.
  { intros s0 c Hc. exists c. split; [done|]. by apply opens_old. }
  repeat (dmatch; try discriminate); intros [= <- <-]; (split; [done|]);
    first [eapply Hold; cbn; eassumption|by eapply (Hnew SStar)|by eapply (Hnew SParam)
          |by eapply (Hnew SRegex)|by eapply (Hnew (SStatic seg))].
Qed.

(** ** The abstract map of a tree *)
Fixpoint at_slots n (ss : list slot) : option (node H Rx) :=
  match ss with
  | [] => Some n
  | s :: ss' => c ← get_child n s; at_slots c ss'
  end.

Definition handler_at n (ss : list slot) : option H := nd ← at_slots n ss; handler nd.

Lemma handler_at_cons n s ss : handler_at n (s :: ss) = c ← get_child n s; handler_at c ss.
Proof. unfold handler_at. cbn. by destruct (get_child n s). Qed.

Lemma handler_at_new t p pn rx ss : handler_at (new_node (H:=H) (Rx:=Rx) t p pn rx) ss = None.
Proof. by destruct ss as [|[] ss]. Qed.

Lemma handler_at_set_child n s c s' ss :
  handler_at (set_child n s c) (s' :: ss) =
  if decide (s' = s) then handler_at c ss else handler_at n (s' :: ss).
Proof.
  rewrite !handler_at_cons. case_decide; subst; [by rewrite get_set_child_eq|].
  by rewrite get_set_child_ne.
Qed.

Lemma opens_handler_at n s n' c ss : opens n s n' c → handler_at n' ss = handler_at n ss.
Proof.
  intros Ho. inv Ho as [s1 c1 Hc|s1 c1 t p pn rx Hn]; [done|].
  destruct ss as [|s' ss]; [unfold handler_at; cbn; by rewrite handler_set_child|].
  rewrite handler_at_set_child. case_decide; [|done]. subst s'.
  by rewrite handler_at_cons, Hn, handler_at_new.
Qed.

(** Effect of adding [segs] on the abstract map. *)
Definition insert_if_absent (key : list slot) (h : H) (old new : list slot → option H) : Prop :=
  old key = None ∧ ∀ ss, new ss = if decide (ss = key) then Some h else old ss.

Lemma addSegs_refines segs h : ∀ n n' r, addSegs n segs h = (n', r) →
  match r with
  | None => insert_if_absent (map slot_of segs) h (handler_at n) (handler_at n')
  | Some _ => ∀ ss, handler_at n' ss = handler_at n ss
  end.
Proof.
  induction segs as [|seg segs IH]; intros n n' r; cbn [Router.addSegs map].
  - destruct (handler n) eqn:Hh; intros [= <- <-]; [done|]. split; [exact Hh|].
    intros [|s ss]; [done|]. rewrite decide_False by done.
    by rewrite !handler_at_cons, get_child_set_handler.
  - case_bool_decide; [by intros [= <- <-]|].
    destruct (childOrCreate n seg) as [e|[n1 s]] eqn:E; [by intros [= <- <-]|].
    apply childOrCreate_opens in E as (-> & c & Hg & Ho). rewrite Hg.
    destruct (addSegs c segs h) as [c' r'] eqn:Ec. intros [= <- <-].
    specialize (IH _ _ _ Ec). pose proof (λ ss, opens_handler_at _ _ _ _ ss Ho) as Hn1.
    assert (∀ ss, handler_at c ss = handler_at n (slot_of seg :: ss)) as Hc
      by (intros ss; rewrite <- Hn1, handler_at_cons; by rewrite Hg).
    destruct r' as [e|].
    + intros [|s' ss]; [rewrite <- Hn1; unfold handler_at; cbn; by rewrite handler_set_child|].
      rewrite handler_at_set_child. case_decide; subst; [by rewrite IH|apply Hn1].
    + destruct IH as [Hnone Hins]. split; [by rewrite <- Hc|].
      intros [|s' ss]; [rewrite decide_False by done; rewrite <- Hn1; unfold handler_at; cbn;
        by rewrite handler_set_child|].
      rewrite handler_at_set_child. destruct (decide (s' = slot_of seg)) as [->|Hne].
      * rewrite Hins. destruct (decide (ss = map slot_of segs)) as [->|Hne];
          [by rewrite decide_True|]. rewrite Hc. rewrite decide_False; [done|congruence].
      * rewrite decide_False by congruence. apply Hn1.
Qed.

(** Handlers of a whole router. *)
Definition routes (r : gmap string (node H Rx)) (m : string) (ss : list slot) : option H :=
  root ← r !! m; handler_at root ss.

(** Slot path a registered path denotes. *)
Definition key_of (p : string) : list slot :=
  if bool_decide (p = "/") then [] else map slot_of (split1 "/" (param_text p)).

Lemma routes_insert r m root m' ss :
  routes (<[m := root]> r) m' ss = if decide (m' = m) then handler_at root ss else routes r m' ss.
Proof.
  unfold routes. case_decide; subst; [by rewrite lookup_insert_eq|by rewrite lookup_insert_ne].
Qed.

Lemma routes_default r m ss :
  handler_at (default (new_node nodeTypeStatic "/" "" None) (r !! m)) ss = routes r m ss.
Proof. unfold routes. destruct (r !! m); cbn; [done|apply handler_at_new]. Qed.

Lemma addRoute_inserts r m p h r' e : addRoute r m p h = (r', e) →
  match e with
  | None => routes r m (key_of p) = None ∧
      ∀ m' ss, routes r' m' ss = if decide (m' = m ∧ ss = key_of p) then Some h else routes r m' ss
  | Some _ => ∀ m' ss, routes r' m' ss = routes r m' ss
  end.
Proof.
  unfold Router.addRoute. destruct p as [|c rest]; [by intros [= <- <-]|].
  case_bool_decide as Hc; cbn [negb]; [|by intros [= <- <-]]. subst c.
  destruct (_ && _); [by intros [= <- <-]|]. cbv zeta.
  set (root := default _ _). pose proof (routes_default r m) as Hroot. fold root in Hroot.
  unfold key_of. case_bool_decide as Hp.
  - destruct (handler root) eqn:Hh; intros [= <- <-].
    + intros m' ss. rewrite routes_insert. case_decide; subst; [apply Hroot|done].
    + split; [rewrite <- Hroot; exact Hh|]. intros m' ss. rewrite routes_insert.
      destruct (decide (m' = m)) as [->|]; [|rewrite decide_False by tauto; done].
      destruct ss as [|s ss]; [by rewrite decide_True|]. rewrite decide_False by (intros [_ [=]]).
      rewrite <- Hroot, !handler_at_cons. by rewrite get_child_set_handler.
  - destruct (addSegs root (split1 "/" rest) h) as [root' e'] eqn:Ea. intros [= <- <-].
    apply addSegs_refines in Ea. cbn [param_text]. destruct e' as [e'|].
    + intros m' ss. rewrite routes_insert. case_decide; subst; [by rewrite Ea, Hroot|done].
    + destruct Ea as [Hnone Hins]. split; [by rewrite <- Hroot|]. intros m' ss.
      rewrite routes_insert. destruct (decide (m' = m)) as [->|]; [|rewrite decide_False by tauto; done].
      rewrite Hins, Hroot. destruct (decide (ss = _)) as [->|Hne];
        [by rewrite decide_True|by rewrite decide_False by tauto].
Qed.

(** C16: Registration refines "insert if absent": [addRoute] on a path either
    succeeds, in which case the path had no handler for that method, now has
    exactly the given one, and every other path of every method keeps its
    handler; or it panics, and then no handler of the router changed. *)
Theorem addRoute_refines r m p h r' e : addRoute r m p h = (r', e) →
  match e with
  | None => routes r m (key_of p) = None ∧
      ∀ m' ss, routes r' m' ss = if decide (m' = m ∧ ss = key_of p) then Some h else routes r m' ss
  | Some _ => ∀ m' ss, routes r' m' ss = routes r m' ss
  end.
Proof. apply addRoute_inserts. Qed.

(** ** Well-formed trees *)

(** At most one of the wildcard, parameter and regex children is present. *)
Definition exclusive n : Prop :=
  (starChild n = None ∨ paramChild n = None) ∧ (starChild n = None ∨ regexChild n = None) ∧
  (paramChild n = None ∨ regexChild n = None).

Definition child_ok (s : slot) c : Prop :=
  match s with
  | SStatic k => typ c = nodeTypeStatic ∧ path c = k ∧ paramName c = ""
  | SStar => typ c = nodeTypeAny ∧ path c = "*" ∧ paramName c = ""
  | SParam => typ c = nodeTypeParam ∧ path c = String ":" (paramName c)
  | SRegex => typ c = nodeTypeReg ∧ is_Some (regExpr c)
  end.

Inductive wf n : Prop := wf_intro
  (wf_excl : exclusive n)
  (wf_child : ∀ s c, get_child n s = Some c → child_ok s c ∧ wf c).

(** The fields of a node that registration below it never changes. *)
Definition same_meta n n' : Prop :=
  typ n' = typ n ∧ path n' = path n ∧ paramName n' = paramName n ∧ regExpr n' = regExpr n.

Lemma same_meta_set_child n s c : same_meta n (set_child n s c).
Proof. by destruct s. Qed.
Lemma same_meta_trans a b c : same_meta a b → same_meta b c → same_meta a c.
Proof. unfold same_meta. intuition congruence. Qed.
Lemma child_ok_same s c c' : same_meta c c' → child_ok s c → child_ok s c'.
Proof. intros (Ht & Hp & Hn & Hr). destruct s; cbn; by rewrite ?Ht, ?Hp, ?Hn, ?Hr. Qed.

Lemma wf_new t p pn rx : wf (new_node t p pn rx).
Proof. constructor; [by repeat split; left|]. by intros []. Qed.

Lemma has_prefix1_cons ch s : has_prefix1 ch s = true → s = String ch (param_text s).
Proof. destruct s; cbn; [done|]. by intros ->%bool_decide_eq_true. Qed.

Lemma exclusive_set_child n s c c0 : get_child n s = Some c0 → exclusive n → exclusive (set_child n s c).
Proof.
  unfold exclusive. destruct s; cbn; [done|..]; intros E; rewrite E; intuition discriminate.
Qed.

(** A node created by [childOrCreate] respects exclusion and its slot's shape. *)
Lemma childOrCreate_new_ok n seg n' s : childOrCreate n seg = inr (n', s) → exclusive n →
  exclusive n' ∧ (∀ c, get_child n s = None → get_child n' s = Some c → child_ok s c).
Proof.
  unfold Router.childOrCreate, childOrCreateParam, childOrCreateRegex. unfold exclusive.
  case_bool_decide as Hstar; [|destruct (has_prefix1 ":" seg) eqn:Hpre].
  - destruct (paramChild n) eqn:?, (regexChild n) eqn:?, (starChild n) eqn:?; try discriminate;
      intros [= <- <-] He; cbn; (split; [by auto|]); intros c ?; try congruence. by intros [= <-].
  - apply has_prefix1_cons in Hpre. destruct (parseParam seg) as [[name exp]|];
      destruct (starChild n) eqn:?, (paramChild n) eqn:?, (regexChild n) eqn:?; try discriminate;
      repeat (dmatch; try discriminate); intros [= <- <-] He; cbn; (split; [by auto|]);
      intros c ?; try congruence; intros [= <-]; cbn; eauto.
  - destruct (assoc seg (children n)) eqn:E; intros [= <- <-] He; cbn; (split; [by auto|]);
      intros c ?; try congruence. rewrite assoc_set_eq. by intros [= <-].
Qed.

Lemma addSegs_wf segs h : ∀ n n' r, addSegs n segs h = (n', r) → wf n → wf n' ∧ same_meta n n'.
Proof.
  induction segs as [|seg segs IH]; intros n n' r; cbn [Router.addSegs].
  - destruct (handler n); intros [= <- <-] Hwf; (split; [|done]); [done|].
    destruct Hwf as [He Hc]. constructor; [done|]. intros s c. rewrite get_child_set_handler. apply Hc.
  - case_bool_decide; [by intros [= <- <-]|].
    destruct (childOrCreate n seg) as [e|[n1 s]] eqn:E; [by intros [= <- <-]|].
    pose proof (childOrCreate_opens _ _ _ _ E) as (-> & c & Hg & Ho). rewrite Hg.
    destruct (addSegs c segs h) as [c' r'] eqn:Ec. intros [= <- <-] [He Hch].
    destruct (childOrCreate_new_ok _ _ _ _ E He) as [He1 Hnew].
    assert (child_ok (slot_of seg) c ∧ wf c) as [Hok Hwc].
    { inv Ho as [s1 c1 Hc|s1 c1 t p pn rx Hn]; [by apply Hch|].
      split; [by apply Hnew|apply wf_new]. }
    destruct (IH _ _ _ Ec Hwc) as [Hwc' Hsame].
    split; [|eapply same_meta_trans; [|apply same_meta_set_child];
             inv Ho; [done|apply same_meta_set_child]].
    constructor; [by eapply exclusive_set_child|]. intros s' c''.
    destruct (decide (s' = slot_of seg)) as [->|Hne].
    + rewrite get_set_child_eq. intros [= <-]. split; [by eapply child_ok_same|done].
    + rewrite get_set_child_ne by done. inv Ho; [apply Hch|].
      rewrite get_set_child_ne by done. apply Hch.
Qed.

Definition router_wf (r : gmap string (node H Rx)) : Prop := ∀ m root, r !! m = Some root → wf root.

Lemma addRoute_keeps_wf r m p h r' e : addRoute r m p h = (r', e) → router_wf r → router_wf r'.
Proof.
  intros Ha Hwf. unfold Router.addRoute in Ha. destruct p as [|c rest]; [by inv Ha|].
  destruct (negb _); [by inv Ha|]. destruct (_ && _); [by inv Ha|]. cbv zeta in Ha.
  set (root := default _ _) in *.
  assert (wf root) as Hroot.
  { unfold root. destruct (r !! m) eqn:E; cbn; [by eapply Hwf|apply wf_new]. }
  assert (∀ root', wf root' → router_wf (<[m := root']> r)) as Hins.
  { intros root' Hr' m' x Hx. destruct (decide (m = m')) as [<-|Hne].
    - rewrite lookup_insert_eq in Hx. congruence.
    - rewrite lookup_insert_ne in Hx by done. by eapply Hwf. }
  case_bool_decide.
  - destruct (handler root); inv Ha; apply Hins; [done|].
    destruct Hroot as [He Hc]. constructor; [done|]. intros s x. rewrite get_child_set_handler. apply Hc.
  - destruct (addSegs root (split1 "/" rest) h) as [root' e'] eqn:Ea. inv Ha.
    apply Hins. by eapply addSegs_wf.
Qed.

(** C28: Well-formedness is an invariant of registration, panicking or not: in
    every tree at every node at most one of the wildcard, parameter and regex
    children exists, static children sit under their own name, parameter nodes
    carry their name and regex nodes a compiled expression. *)
Theorem addRoute_wf r m p h r' e : addRoute r m p h = (r', e) → router_wf r → router_wf r'.
Proof. apply addRoute_keeps_wf. Qed.

(** ** Lookup *)

(** The documented priority: static, then regex, then parameter, then wildcard. *)
Inductive picks n (v : string) : slot → node H Rx → Prop :=
| picks_static c : get_child n (SStatic v) = Some c → picks n v (SStatic v) c
| picks_regex c rx : get_child n (SStatic v) = None → regexChild n = Some c →
    regExpr c = Some rx → RxMatch rx v = true → picks n v SRegex c
| picks_param c : get_child n (SStatic v) = None → paramChild n = Some c → regexChild n = None →
    picks n v SParam c
| picks_star c : get_child n (SStatic v) = None → starChild n = Some c → paramChild n = None →
    regexChild n = None → picks n v SStar c.

Lemma childOf_picks n v c : wf n → childOf n v = Some c ↔ ∃ s, picks n v s c.
Proof.
  intros [(E1 & E2 & E3) Hch]. unfold Router.childOf, childOfNonStatic.
  split.
  - destruct (assoc v (children n)) eqn:Ea; [intros [= <-]; exists (SStatic v); by constructor|].
    destruct (regexChild n) as [rc|] eqn:Er.
    + destruct (Hch SRegex rc Er) as [[_ [rx Hrx]] _]. rewrite Hrx.
      destruct (RxMatch rx v) eqn:Em; [intros [= <-]; exists SRegex; by econstructor|].
      destruct E2 as [E2|]; [|done]. destruct E3 as [E3|]; [|done]. by rewrite E2, E3.
    + destruct (paramChild n) eqn:Ep; [intros [= <-]; exists SParam; by constructor|].
      intros Hs. exists SStar. by constructor.
  - intros [s Hpick]. inv Hpick as [? Ha|? rx Ha Hr Hrx Hm|? Ha Hp Hr|? Ha Hs Hp Hr]; cbn in Ha; rewrite Ha;
      [done|by rewrite Hr, Hrx, Hm|by rewrite Hr, Hp|by rewrite Hr, Hp].
Qed.

Lemma picks_child n v s c : picks n v s c → get_child n s = Some c.
Proof. by destruct 1. Qed.

(** A priority path consumes segments from the left, one slot each. *)
Inductive prio : node H Rx → list string → list slot → node H Rx → Prop :=
| prio_nil n segs : prio n segs [] n
| prio_cons n v s c segs ss nd : picks n v s c → prio c segs ss nd → prio n (v :: segs) (s :: ss) nd.

Lemma find_loop_sound segs : ∀ n i0 acc ps mi, wf n → find_loop n segs i0 acc ps = Some mi →
  methodNotAllowed mi = false ∧ ∃ nd ss, mi_node mi = Some nd ∧ prio n segs ss nd ∧
    (length ss = length segs ∨ (typ nd = nodeTypeAny ∧ is_Some (handler nd))).
Proof.
  induction segs as [|v segs IH]; intros n i0 acc ps mi Hwf; cbn [Router.find_loop].
  - intros [= <-]. split; [done|]. exists n, []. split_and!; [done|constructor|by left].
  - destruct (childOf n v) as [c|] eqn:Ec.
    + apply childOf_picks in Ec as [s Hp]; [|done]. cbv zeta.
      assert (wf c) as Hwc by (destruct Hwf as [_ Hch]; by eapply Hch, picks_child).
      destruct (decide (typ c = nodeTypeAny ∧ is_Some (handler c))) as [[Ht [h Hh]]|Hn].
      * rewrite Ht, Hh. intros [= <-]. split; [done|]. exists c, [s].
        split_and!; [done|by econstructor; [|constructor]|right; eauto].
      * intros Hf. destruct (IH c false (extend_path i0 acc (path c))
          (if bool_decide (paramName c = "") then ps else addValue ps (paramName c) v) mi Hwc)
          as (Hm & nd & ss & Hnd & Hpr & Hlen).
        { destruct (typ c), (handler c); try exact Hf; exfalso; apply Hn; eauto. }
        split; [done|]. exists nd, (s :: ss). split_and!; [done|by econstructor|].
        destruct Hlen; [left; cbn; by f_equal|by right].
    + destruct (starChild n) as [sc|] eqn:Es; [|done]. exfalso.
      destruct Hwf as [(E1 & E2 & E3) Hch]. unfold Router.childOf, childOfNonStatic in Ec.
      destruct (assoc v (children n)); [done|]. rewrite Es in *.
      destruct E1 as [|E1]; [done|]. destruct E2 as [|E2]; [done|]. by rewrite E1, E2 in Ec.
Qed.

(** C31: Lookup is sound for the documented priority: on a well-formed tree a hit
    is a node reached from the root by choosing, at every segment, the static
    child if it exists, else a matching regex child, else the parameter child,
    else the wildcard, and either all segments were consumed or the node is a
    wildcard with a handler. *)
Theorem findInTree_priority root p mi : wf root → p ≠ "/" → findInTree root p = Some mi →
  methodNotAllowed mi = false ∧
  ∃ nd ss, mi_node mi = Some nd ∧ prio root (split1 "/" (trim1 "/" p)) ss nd ∧
    at_slots root ss = Some nd ∧
    (length ss = length (split1 "/" (trim1 "/" p)) ∨ (typ nd = nodeTypeAny ∧ is_Some (handler nd))).
Proof.
  intros Hwf Hp. unfold Router.findInTree. rewrite bool_decide_false by done.
  intros Hf. apply find_loop_sound in Hf as (Hm & nd & ss & Hnd & Hpr & Hl); [|done].
  split; [done|]. exists nd, ss. split_and!; try done.
  clear -Hpr. induction Hpr as [|n v s c segs ss nd Hp Hpr IH]; [done|].
  cbn. by rewrite (picks_child _ _ _ _ Hp).
Qed.

(** ** Static routes *)
Definition static_seg (seg : string) : Prop :=
  seg ≠ "" ∧ seg ≠ "*" ∧ has_prefix1 ":" seg = false ∧ contains1 "/" seg = false.

Lemma slot_of_static seg : static_seg seg → slot_of seg = SStatic seg.
Proof. intros (_ & Hs & Hc & _). unfold slot_of. by rewrite bool_decide_false, Hc. Qed.

Lemma join_first_last segs : segs ≠ [] → Forall static_seg segs →
  match join "/" segs with String c _ => c ≠ "/"%char | EmptyString => False end ∧
  last_char (join "/" segs) ≠ Some "/"%char ∧ join "/" segs ≠ "".
Proof.
  intros Hne Hs. revert Hne. induction Hs as [|seg segs (Hne & _ & _ & Hc) Hs IH]; [done|]. intros _.
  assert (match seg with String c _ => c ≠ "/"%char | EmptyString => False end) as Hfst.
  { destruct seg as [|c seg]; [done|]. cbn [contains1] in Hc. apply orb_false_iff in Hc as [Hc _].
    by apply bool_decide_eq_false in Hc. }
  destruct segs as [|s2 segs].
  - cbn [join]. split_and!; [by destruct seg| |done].
    intros Hl. apply last_char_contains in Hl. congruence.
  - rewrite join_cons by done. destruct (IH ltac:(done)) as (_ & Hl & Hn).
    set (J := join "/" (s2 :: segs)) in *. change ("/" +:+ J) with (String "/" J).
    rewrite last_char_app_cons. replace (last_char (String "/" J)) with (last_char J) by (by destruct J).
    split_and!; [destruct seg; [done|exact Hfst]|done|by destruct seg].
Qed.

Lemma static_path_segments segs : segs ≠ [] → Forall static_seg segs →
  split1 "/" (trim1 "/" (String "/" (join "/" segs))) = segs.
Proof.
  intros Hne Hs. destruct (join_first_last segs Hne Hs) as (Hf & Hl & Hn).
  unfold trim1, trim_func. cbn [trim_left]. rewrite bool_decide_true by done.
  rewrite trim_left_id, trim_right_id.
  - apply (split1_join "/"); [done|]. eapply Forall_impl; [exact Hs|]. by intros ? (_&_&_&?).
  - destruct (last_char _); [|done]. apply bool_decide_eq_false. congruence.
  - destruct (join "/" segs); [done|]. by apply bool_decide_eq_false.
Qed.

Lemma find_loop_static segs : ∀ n i0 acc h, wf n → Forall static_seg segs →
  handler_at n (map SStatic segs) = Some h →
  ∃ nd, handler nd = Some h ∧ find_loop n segs i0 acc ∅ =
    Some (mkMatch (Some nd) ∅
      (match segs with [] => acc | _ => (if i0 then "" else acc) +:+ "/" +:+ join "/" segs end) false []).
Proof.
  induction segs as [|v segs IH]; intros n i0 acc h Hwf Hs Hh; cbn [Router.find_loop].
  - exists n. split; [exact Hh|done].
  - apply Forall_cons in Hs as [Hv Hs]. cbn [map] in Hh. rewrite handler_at_cons in Hh.
    destruct (get_child n (SStatic v)) as [c|] eqn:Hg; [|done]. cbn in Hh.
    destruct Hwf as [_ Hch]. destruct (Hch _ _ Hg) as [(Ht & Hp & Hn) Hwc].
    cbn in Hg. unfold Router.childOf. rewrite Hg. cbv zeta. rewrite Hn, Ht.
    rewrite bool_decide_true by done.
    destruct (IH c false (extend_path i0 acc (path c)) h Hwc Hs Hh) as (nd & Hnd & Hf).
    exists nd. split; [done|]. rewrite Hf. rewrite Hp. do 2 f_equal.
    unfold extend_path. destruct segs as [|v2 segs]; [destruct i0; cbn [join]; done|].
    rewrite (join_cons "/" v) by done. destruct i0; by rewrite ?app_nil_l, !str_app_assoc.
Qed.

(** C19: Insert/lookup round trip: registering a handler under a path of static
    segments in a well-formed router makes every later lookup of that method and
    path return it, with the path itself as the matched route and no path
    parameters, whatever order the method trees are visited in. *)
Theorem static_route_roundtrip r m segs h r' order :
  router_wf r → segs ≠ [] → Forall static_seg segs →
  addRoute r m (String "/" (join "/" segs)) h = (r', None) →
  ∃ nd, handler nd = Some h ∧ findRoute r' order m (String "/" (join "/" segs))
    = Some (mkMatch (Some nd) ∅ (String "/" (join "/" segs)) false []).
Proof.
  intros Hwf Hne Hs Ha. pose proof (addRoute_keeps_wf _ _ _ _ _ _ Ha Hwf) as Hwf'.
  apply addRoute_inserts in Ha as [_ Hr]. specialize (Hr m (key_of (String "/" (join "/" segs)))).
  rewrite decide_True in Hr by done.
  destruct (join_first_last segs Hne Hs) as (_ & _ & Hj).
  assert (String "/" (join "/" segs) ≠ "/") as Hroot by (intros [=]; done).
  unfold key_of in Hr. rewrite bool_decide_false in Hr by done. cbn [param_text] in Hr.
  rewrite (split1_join "/") in Hr; [|done|eapply Forall_impl; [exact Hs|]; by intros ? (_&_&_&?)].
  replace (map slot_of segs) with (map SStatic segs) in Hr.
  2: { apply map_ext_in. intros v Hv. symmetry. apply slot_of_static.
       rewrite Forall_forall in Hs. apply Hs. by apply list_elem_of_In. }
  unfold routes in Hr. destruct (r' !! m) as [root|] eqn:Hm; [|done]. cbn in Hr.
  destruct (find_loop_static segs root true "" h (Hwf' _ _ Hm) Hs Hr) as (nd & Hnd & Hf).
  exists nd. split; [done|]. unfold Router.findRoute. rewrite Hm.
  unfold Router.findInTree. rewrite bool_decide_false by done.
  rewrite static_path_segments by done. rewrite Hf. by destruct segs.
Qed.

(** ** 404 and 405 *)
Definition hits (r : gmap string (node H Rx)) (m p : string) : Prop := ∃ root mi, r !! m = Some root ∧ findInTree root p = Some mi.

Lemma omap_nonempty {A B} (f : A → option B) l x : In x l → is_Some (f x) → omap f l ≠ [].
Proof.
  induction l as [|a l IH]; [done|]. intros [->|Hi] [y Hy]; cbn.
  - by rewrite Hy.
  - destruct (f a); [done|]. by apply IH; [|exists y].
Qed.

Lemma find_loop_not_405 segs : ∀ n i0 acc ps mi,
  find_loop n segs i0 acc ps = Some mi → methodNotAllowed mi = false.
Proof.
  induction segs as [|v segs IH]; intros n i0 acc ps mi; cbn [Router.find_loop].
  { by intros [= <-]. }
  destruct (childOf n v) as [c|].
  - cbv zeta. destruct (typ c), (handler c); eauto; by intros [= <-].
  - destruct (starChild n) as [s|]; [|done]. destruct (handler s); [by intros [= <-]|done].
Qed.

(** 404 and 405 are decided exactly as documented by [findRoute]: a hit in
    the tree of the request's method wins; otherwise the answer is 405 exactly
    when the path is found in the tree of another method, and the allowed methods
    are those and only those; 404 exactly when no tree has it. *)
Theorem findRoute_methods r order m p : order ≡ₚ map_to_list r →
  match findRoute r order m p with
  | None => ∀ m', ¬ hits r m' p
  | Some mi =>
      if methodNotAllowed mi
      then ¬ hits r m p ∧ allowedMethods mi ≠ [] ∧ mi_node mi = None ∧
           (∀ m', m' ∈ allowedMethods mi ↔ m' ≠ m ∧ hits r m' p)
      else hits r m p
  end.
Proof.
  intros Ho. unfold Router.findRoute.
  assert (∀ m' t, (m', t) ∈ order ↔ r !! m' = Some t) as Hin.
  { intros m' t. rewrite Ho. apply elem_of_map_to_list. }
  destruct (match r !! m with Some root => findInTree root p | None => None end) as [mi|] eqn:E.
  - destruct (r !! m) as [root|] eqn:Hm; [|done].
    assert (methodNotAllowed mi = false) as ->; [|by exists root, mi].
    unfold Router.findInTree in E. case_bool_decide; [by inv E|].
    by eapply find_loop_not_405.
  - assert (¬ hits r m p) as Hno.
    { intros (root & mi & Hm & Hf). rewrite Hm in E. congruence. }
    set (f := λ mt : string * node H Rx, _) in |- *.
    assert (∀ m', m' ∈ omap f order ↔ m' ≠ m ∧ hits r m' p) as Hal.
    { intros m'. rewrite list_elem_of_omap. unfold f, hits. split.
      - intros ([m1 t] & Hi & Hf). cbn in Hf. case_bool_decide; [done|].
        destruct (findInTree t p) eqn:Et; [|done]. injection Hf as <-.
        split; [done|]. exists t. eexists. split; [by apply Hin|done].
      - intros (Hne & t & mi & Hm & Hf). exists (m', t). split; [by apply Hin|].
        cbn. rewrite bool_decide_false by done. by rewrite Hf. }
    destruct (omap f order) as [|a l] eqn:Eo.
    + intros m' Hh. destruct (decide (m' = m)) as [->|Hne]; [done|].
      by apply (not_elem_of_nil m'), Hal.
    + cbn. split_and!; try done.
Qed.

(** Defect: the clash test for regex children looks at the parent node's own
    [regExpr], which is nil for every node that is not itself a regex node, so
    adding any second route through an existing regex child of such a node
    dereferences nil, even when the segment is identical. *)
Theorem second_regex_route_panics n p exp name rest h c :
  regexChild n = Some c → starChild n = None → paramChild n = None → regExpr n = None →
  has_prefix1 ":" p = true → p ≠ "*" → parseParam p = Some (name, exp) →
  addSegs n (p :: rest) h = (n, Some PNilDeref).
Proof.
  intros Hr Hs Hpc Hx Hp Hstar Hpp. cbn [Router.addSegs].
  rewrite bool_decide_false by (by intros ->). unfold Router.childOrCreate, childOrCreateRegex.
  rewrite bool_decide_false by done. by rewrite Hp, Hpp, Hs, Hpc, Hr, Hx.
Qed.
End facts.

(** ** Witnesses *)
Definition Cmp : string → option string := Some.
Definition RStr : string → string := λ s, s.
Definition RMatch : string → string → bool := λ rx s, String.eqb rx s.

Definition demo_router : gmap string (node nat string) :=
  (addRoute Cmp RStr (addRoute Cmp RStr newRouter "GET" "/user/:id" 1).1 "POST" "/order/list" 2).1.

Lemma empty_router_wf : router_wf (newRouter (H:=nat) (Rx:=string)).
Proof. intros m root Hm. unfold newRouter in Hm. by rewrite lookup_empty in Hm. Qed.

Lemma demo_router_wf : router_wf demo_router.
Proof.
  eapply addRoute_keeps_wf; [apply surjective_pairing|].
  eapply addRoute_keeps_wf; [apply surjective_pairing|]. apply empty_router_wf.
Qed.

Lemma addRoute_refines_witness :
  routes demo_router "GET" (key_of "/user/home") = None ∧
  ∀ m' ss, routes (addRoute Cmp RStr demo_router "GET" "/user/home" 3).1 m' ss
    = if decide (m' = "GET" ∧ ss = key_of "/user/home") then Some 3 else routes demo_router m' ss.
Proof.
  apply (addRoute_refines Cmp RStr demo_router "GET" "/user/home" 3 _ None).
  vm_compute. reflexivity.
Defined.

Lemma addRoute_wf_witness : router_wf (addRoute Cmp RStr newRouter "GET" "/a/*" 1).1.
Proof.
  apply (addRoute_wf Cmp RStr newRouter "GET" "/a/*" 1 _ None);
    [vm_compute; reflexivity|exact empty_router_wf].
Defined.

Definition get_tree : node nat string :=
  default (new_node nodeTypeStatic "/" "" None) (demo_router !! "GET").

Lemma findInTree_priority_witness : ∃ mi, findInTree RMatch get_tree "/user/42" = Some mi ∧
  paramPath mi !! "id" = Some "42" ∧ methodNotAllowed mi = false.
Proof.
  eexists. split; [vm_compute; reflexivity|]. split; [reflexivity|].
  apply (findInTree_priority RMatch get_tree "/user/42");
    [|discriminate|vm_compute; reflexivity].
  apply (demo_router_wf "GET"). reflexivity.
Defined.

Lemma static_route_roundtrip_witness : ∃ nd, handler nd = Some 3 ∧
  findRoute RMatch (addRoute Cmp RStr demo_router "GET" "/user/home" 3).1 [] "GET" "/user/home"
  = Some (mkMatch (Some nd) ∅ "/user/home" false []).
Proof.
  apply (static_route_roundtrip Cmp RStr RMatch demo_router "GET" ["user"; "home"] 3 _ []).
  - exact demo_router_wf.
  - discriminate.
  - apply Forall_cons_2; [by split_and!|]. apply Forall_cons_2; [by split_and!|apply Forall_nil_2].
  - vm_compute. reflexivity.
Defined.

Lemma findRoute_methods_witness :
  ∃ mi, findRoute RMatch demo_router (map_to_list demo_router) "DELETE" "/order/list" = Some mi ∧
    methodNotAllowed mi = true ∧ allowedMethods mi ≠ [].
Proof.
  pose proof (findRoute_methods RMatch demo_router (map_to_list demo_router) "DELETE" "/order/list"
    ltac:(reflexivity)) as Hm.
  destruct (findRoute RMatch demo_router (map_to_list demo_router) "DELETE" "/order/list") as [mi|] eqn:E;
    [|vm_compute in E; discriminate].
  exists mi. split; [done|]. destruct (methodNotAllowed mi) eqn:Em.
  - split; [done|apply Hm].
  - vm_compute in E. injection E as <-. discriminate Em.
Defined.

Definition regex_root : node nat string :=
  (addSegs Cmp RStr (new_node nodeTypeStatic "/" "" None) [":id([0-9]+)"] 1).1.

Lemma second_regex_route_panics_witness :
  addSegs Cmp RStr regex_root [":id([0-9]+)"; "orders"] 2 = (regex_root, Some PNilDeref).
Proof.
  eapply (second_regex_route_panics Cmp RStr regex_root ":id([0-9]+)" "[0-9]+" "id" ["orders"] 2);
    try reflexivity; discriminate.
Defined.

(** The documentation of [findRoute] promises 405 only for a path registered
    under another method.  The tree root and inner nodes have no handler but
    count as hits: with only [POST /order/list] registered, [GET /] and
    [GET /order] answer 405. *)
Example unregistered_inner_path_is_405 :
  let r := (addRoute Cmp RStr newRouter "POST" "/order/list" 2).1 in
  methodNotAllowed <$> findRoute RMatch r (map_to_list r) "GET" "/order" = Some true ∧
  methodNotAllowed <$> findRoute RMatch r (map_to_list r) "GET" "/" = Some true ∧
  routes r "POST" (key_of "/order") = None ∧ routes r "POST" (key_of "/") = None.
Proof. vm_compute. repeat split. Qed.
