(* ===== verification/WebContext.v ===== *)
(** * Request contexts of package web

    Models [src/web/context.go] and what it uses of [net/http]: header maps with
    canonical keys, and a response writer whose status and headers are fixed by
    the first [WriteHeader]. *)

From S2P Require Import Prelude GoStrings.

(** ** [http.Header] *)
Abbreviation Hdr := (gmap string (list string)).

(** [textproto.CanonicalMIMEHeaderKey]: upper case at the start and after a
    hyphen, lower case elsewhere; names with a byte that is not a token byte are
    left alone. *)
Definition is_token (c : ascii) : bool :=
  is_upper c || is_lower c || bool_decide (is_Some (Ascii.is_nat c))
  || bool_decide (c ∈ ["!"; "#"; "$"; "%"; "&"; "'"; "*"; "+"; "-"; "."; "^"; "_"; "`"; "|"; "~"]%char).
Definition to_upper (c : ascii) : ascii :=
  if is_lower c then ascii_of_N (N_of_ascii c - 32) else c.
Fixpoint canon_go (up : bool) (s : string) : string :=
  match s with
  | EmptyString => EmptyString
  | String c s' => String (if up then to_upper c else to_lower c) (canon_go (bool_decide (c = "-"%char)) s')
  end.
Definition canon (s : string) : string :=
  if forallb is_token (bytes_of s) then canon_go true s else s.

Definition hdr_values (h : Hdr) (k : string) : list string := default [] (h !! canon k).
Definition hdr_get (h : Hdr) (k : string) : string := default "" (head (hdr_values h k)).
Definition hdr_set (h : Hdr) (k v : string) : Hdr := <[canon k := [v]]> h.
Definition hdr_add (h : Hdr) (k v : string) : Hdr := <[canon k := hdr_values h k ++ [v]]> h.
Definition hdr_del (h : Hdr) (k : string) : Hdr := delete (canon k) h.

(** ** [http.ResponseWriter] *)
Record RW := mkRW { rw_hdr : Hdr; rw_sent : option (Z * Hdr); rw_body : bytes }.
Definition newRW : RW := mkRW ∅ None [].

Definition rw_set_hdr (w : RW) (f : Hdr → Hdr) : RW := mkRW (f (rw_hdr w)) (rw_sent w) (rw_body w).

(** [WriteHeader]: panics on a code outside 100..999, ignores all but the first
    final code; informational codes are not final. *)
Definition WriteHeader (code : Z) (w : RW) : option RW :=
  if ((code <? 100) || (999 <? code))%Z then None
  else match rw_sent w with
       | Some _ => Some w
       | None => if ((code <? 200) && negb (code =? 101))%Z then Some w
                 else Some (mkRW (rw_hdr w) (Some (code, rw_hdr w)) (rw_body w))
       end.

(** Informational, 204 and 304 answers have no body. *)
Definition bodyAllowedForStatus (status : Z) : bool :=
  negb (((100 <=? status) && (status <=? 199)) || (status =? 204) || (status =? 304))%Z.
(** [Write] sends status 200 first when no status was sent; where the status allows no
    body it returns an error and writes nothing. *)
Definition Write (data : bytes) (w : RW) : RW :=
  let '(status, h) := default (200%Z, rw_hdr w) (rw_sent w) in
  mkRW (rw_hdr w) (Some (status, h)) (if bodyAllowedForStatus status then rw_body w ++ data else rw_body w).

(** ** [http.Request]: the parts the package reads *)
Record Request := mkReq {
  Method : string; URLPath : string; URLQuery : gmap string (list string);
  ReqHeader : Hdr; RemoteAddr : string; Host : string; ContentLength : Z; BodyNil : bool }.

(** What the client reads once the handler has returned: status 200 when none was
    sent, and no body in answer to HEAD. *)
Definition received (rq : Request) (w : RW) : Z * bytes :=
  (default 200%Z (fst <$> rw_sent w), if bool_decide (Method rq = "HEAD") then [] else rw_body w).

(** ** Context *)
Record Context := mkCtx {
  Resp : RW;
  Req : Request;
  PathParams : gmap string string;
  RespStatusCode : Z;
  RespData : bytes;
  RespHeaders : option Hdr;
  MatchedRoute : string;
  RequestID : string;
  cacheQueryValues : option (gmap string (list string));
  done_ : bool }.

Definition zero_req : Request := mkReq "" "" ∅ ∅ "" "" 0 true.
(** [&Context{}]; a nil [Req] and [Resp] are represented by the zero request and
    an unused writer, which no code reads before [ServeHTTP] sets them. *)
Definition zero_ctx : Context := mkCtx newRW zero_req ∅ 0 [] None "" "" None false.

(** Field updates. *)
Definition set_Resp (c : Context) (w : RW) : Context :=
  mkCtx w (Req c) (PathParams c) (RespStatusCode c) (RespData c) (RespHeaders c) (MatchedRoute c)
        (RequestID c) (cacheQueryValues c) (done_ c).
Definition set_Req (c : Context) (r : Request) : Context :=
  mkCtx (Resp c) r (PathParams c) (RespStatusCode c) (RespData c) (RespHeaders c) (MatchedRoute c)
        (RequestID c) (cacheQueryValues c) (done_ c).
Definition set_status (c : Context) (code : Z) : Context :=
  mkCtx (Resp c) (Req c) (PathParams c) code (RespData c) (RespHeaders c) (MatchedRoute c)
        (RequestID c) (cacheQueryValues c) (done_ c).
Definition set_data (c : Context) (d : bytes) : Context :=
  mkCtx (Resp c) (Req c) (PathParams c) (RespStatusCode c) d (RespHeaders c) (MatchedRoute c)
        (RequestID c) (cacheQueryValues c) (done_ c).
Definition set_headers (c : Context) (h : option Hdr) : Context :=
  mkCtx (Resp c) (Req c) (PathParams c) (RespStatusCode c) (RespData c) h (MatchedRoute c)
        (RequestID c) (cacheQueryValues c) (done_ c).
Definition set_route (c : Context) (ps : gmap string string) (route : string) : Context :=
  mkCtx (Resp c) (Req c) ps (RespStatusCode c) (RespData c) (RespHeaders c) route
        (RequestID c) (cacheQueryValues c) (done_ c).
Definition set_reqid (c : Context) (id : string) : Context :=
  mkCtx (Resp c) (Req c) (PathParams c) (RespStatusCode c) (RespData c) (RespHeaders c) (MatchedRoute c)
        id (cacheQueryValues c) (done_ c).
Definition set_cache (c : Context) (q : option (gmap string (list string))) : Context :=
  mkCtx (Resp c) (Req c) (PathParams c) (RespStatusCode c) (RespData c) (RespHeaders c) (MatchedRoute c)
        (RequestID c) q (done_ c).
Definition set_done (c : Context) (b : bool) : Context :=
  mkCtx (Resp c) (Req c) (PathParams c) (RespStatusCode c) (RespData c) (RespHeaders c) (MatchedRoute c)
        (RequestID c) (cacheQueryValues c) b.

(** ** Operations *)
Inductive ctx_err := EKeyNotFound | ENotJSON | EBodyNil | EDecode (msg : string).

(** [SetHeader] allocates the header map on first use. *)
Definition SetHeader (c : Context) (k v : string) : Context :=
  set_headers c (Some (hdr_set (default ∅ (RespHeaders c)) k v)).
Definition GetHeader (c : Context) (k : string) : string := hdr_get (ReqHeader (Req c)) k.

Definition content_type (c : Context) : string :=
  let ct := str_lower (trim_space (hdr_get (ReqHeader (Req c)) "Content-Type")) in
  let ct := match cut1 ";" ct with Some (a, _) => a | None => ct end in
  trim_space ct.

(** [BindJSON]: the media-type and body checks, then the decoder. *)
Definition BindJSON {V} (decode : Request → ctx_err + V) (c : Context) : ctx_err + V :=
  if negb (bool_decide (content_type c = "application/json")) then inl ENotJSON
  else if BodyNil (Req c) then inl EBodyNil
  else decode (Req c).

(** [QueryValue]: parses the query once and keeps it; indexing an empty value
    list panics. *)
Definition QueryValue (c : Context) (k : string) : Context * res ctx_err string :=
  let q := match cacheQueryValues c with Some q => q | None => URLQuery (Req c) end in
  let c := set_cache c (Some q) in
  match q !! k with
  | None => (c, Err EKeyNotFound)
  | Some vals => (c, index_or_panic vals 0)
  end.

Definition PathValue (c : Context) (k : string) : ctx_err + string :=
  match PathParams c !! k with Some v => inr v | None => inl EKeyNotFound end.

(** [RespJson]; [marshal] is the result of [json.Marshal]. *)
Definition RespJson (c : Context) (code : Z) (marshal : ctx_err + bytes) : Context * option ctx_err :=
  match marshal with
  | inl e => (c, Some e)
  | inr bs => (set_data (set_status (SetHeader c "Content-Type" "application/json; charset=utf-8") code) bs, None)
  end.
(** [RespString]; [text] is the formatted string. *)
Definition RespString (c : Context) (code : Z) (text : string) : Context :=
  set_data (set_status (SetHeader c "Content-Type" "text/plain; charset=utf-8") code) (bytes_of text).
Definition RespHTML (c : Context) (code : Z) (html : string) : Context :=
  set_data (set_status (SetHeader c "Content-Type" "text/html; charset=utf-8") code) (bytes_of html).

Definition Abort (c : Context) (code : Z) (msg : string) : Context :=
  set_data (set_status (set_done c true) code) (bytes_of msg).
Definition IsDone (c : Context) : bool := done_ c.
Definition GetStatusCode (c : Context) : Z := RespStatusCode c.
Definition GetRequestID (c : Context) : string := RequestID c.

(** [reset]: every field, one assignment each. *)
Definition reset (c : Context) : Context :=
  let c := set_Req c zero_req in
  let c := set_Resp c newRW in
  let c := set_route c ∅ (MatchedRoute c) in
  let c := set_status c 0 in
  let c := set_data c [] in
  let c := set_headers c None in
  let c := set_route c (PathParams c) "" in
  let c := set_reqid c "" in
  let c := set_cache c None in
  set_done c false.

Lemma reset_zero c : reset c = zero_ctx.
Proof. done. Qed.

Lemma hdr_get_set_eq h k v : hdr_get (hdr_set h k v) k = v.
Proof. unfold hdr_get, hdr_values, hdr_set. by rewrite lookup_insert_eq. Qed.
Lemma hdr_values_set h k k' v :
  hdr_values (hdr_set h k v) k' = if decide (canon k = canon k') then [v] else hdr_values h k'.
Proof.
  unfold hdr_values, hdr_set. case_decide as E; [rewrite E; by rewrite lookup_insert_eq|].
  by rewrite lookup_insert_ne.
Qed.
#[export] Hint Rewrite hdr_get_set_eq reset_zero : soil.
