(* ===== verification/WebServer.v ===== *)
(** * HTTP server and route groups of package web

    Models [src/web/server.go] (middleware chain, context pooling, [serve],
    [flashResp], route registration, [Static]) and [src/web/group.go].
    A handler is a context transformer that may panic; a panic keeps the context
    as it was when the handler stopped.  Go's map iteration order is a parameter
    ([range_hdr], [range_trees]). *)

From S2P Require Import Prelude GoStrings Router WebContext.

Inductive outcome := Returned | Panicked.
#[export] Instance outcome_eq_dec : EqDecision outcome.
Proof. solve_decision. Defined.

Definition HandleFunc : Type := Context → Context * outcome.
Notation Middleware := (HandleFunc → HandleFunc).

(** Sequencing: the continuation does not run after a panic. *)
Definition then_ (r : Context * outcome) (k : Context → Context * outcome) : Context * outcome :=
  match r with
  | (c, Returned) => k c
  | (c, Panicked) => (c, Panicked)
  end.
Definition ret (c : Context) : Context * outcome := (c, Returned).

(** [ctx.Resp.WriteHeader(code)] *)
Definition ctx_WriteHeader (c : Context) (code : Z) : Context * outcome :=
  match WriteHeader code (Resp c) with
  | Some w => (set_Resp c w, Returned)
  | None => (c, Panicked)
  end.
Definition ctx_Write (c : Context) (d : bytes) : Context := set_Resp c (Write d (Resp c)).

Section server.
Context {Rx : Type}.
Context (Compile : string → option Rx) (RxString : Rx → string) (RxMatch : Rx → string → bool).
Context (range_hdr : Hdr → list (string * list string)).
Context (range_trees : gmap string (node HandleFunc Rx) → list (string * node HandleFunc Rx)).

Abbreviation router := (gmap string (node HandleFunc Rx)).

Record HTTPServer := mkServer { srv_router : router; srv_mdls : list Middleware }.
Definition NewHttpServer : HTTPServer := mkServer newRouter [].

Definition Use (hs : HTTPServer) (mdls : list Middleware) : HTTPServer :=
  mkServer (srv_router hs) (srv_mdls hs ++ mdls).

(** [hs.addRoute], as [Get], [Post], ... call it with their method name. *)
Definition srv_addRoute (hs : HTTPServer) (method p : string) (h : HandleFunc) : HTTPServer * option route_panic :=
  let '(r, e) := addRoute Compile RxString (srv_router hs) method p h in
  (mkServer r (srv_mdls hs), e).

Definition Get (hs : HTTPServer) := srv_addRoute hs "GET".
Definition Post (hs : HTTPServer) := srv_addRoute hs "POST".
Definition Put (hs : HTTPServer) := srv_addRoute hs "PUT".
Definition Delete (hs : HTTPServer) := srv_addRoute hs "DELETE".
Definition Patch (hs : HTTPServer) := srv_addRoute hs "PATCH".
Definition Options (hs : HTTPServer) := srv_addRoute hs "OPTIONS".
Definition Head (hs : HTTPServer) := srv_addRoute hs "HEAD".

(** ** Responding *)
Definition add_all (h : Hdr) (kvs : list (string * list string)) : Hdr :=
  foldl (λ h kv, foldl (λ h v, hdr_add h kv.1 v) h kv.2) h kvs.

Definition flashResp (c : Context) : Context * outcome :=
  let c := match RespHeaders c with
           | Some h => set_Resp c (rw_set_hdr (Resp c) (λ w, add_all w (range_hdr h)))
           | None => c
           end in
  then_ (if (0 <? RespStatusCode c)%Z then ctx_WriteHeader c (RespStatusCode c) else ret c)
    (λ c, ret (match RespData c with [] => c | d => ctx_Write c d end)).

Definition serve (hs : HTTPServer) : HandleFunc := λ c,
  let mi := findRoute RxMatch (srv_router hs) (range_trees (srv_router hs)) (Method (Req c)) (URLPath (Req c)) in
  match mi with
  | Some mi =>
      match (nd ← mi_node mi; handler nd) with
      | Some h => h (set_route c (paramPath mi) (matchedPath mi))
      | None =>
          if methodNotAllowed mi
          then ret (SetHeader (set_data (set_status c 405) (bytes_of "405 method not allowed"))
                      "Allow" (join ", " (allowedMethods mi)))
          else ret (set_data (set_status c 404) (bytes_of "404 page not found"))
      end
  | None => ret (set_data (set_status c 404) (bytes_of "404 page not found"))
  end.

(** The outermost middleware of [ServeHTTP]. *)
Definition flash_middleware : Middleware := λ next c,
  then_ (next c) (λ c, if IsDone c then ret c else flashResp c).

(** [ServeHTTP] with the context [got] taken from the pool: what the client's
    writer holds at the end, the context put back, and whether a panic escapes to
    net/http (the deferred reset and Put run in both cases). *)
Definition ServeHTTP (hs : HTTPServer) (got : Context) (request : Request) (response : RW)
  : RW * Context * outcome :=
  let ctx := reset got in
  let ctx := set_Req ctx request in
  let ctx := set_Resp ctx response in
  let root := chain (srv_mdls hs) (serve hs) in
  let root := flash_middleware root in
  let '(ctx', o) := root ctx in
  (Resp ctx', reset ctx', o).

(** [Static]: [file_server] is the [http.Handler] serving the directory under the
    stripped prefix. *)
Definition clean_prefix (prefix : string) : string :=
  let p := if has_prefix1 "/" prefix then prefix else "/" +:+ prefix in
  trim_suffix1 "/" p.

Definition Static (hs : HTTPServer) (prefix : string) (file_server : string → Request → RW → RW)
  : HTTPServer * option route_panic :=
  let p := clean_prefix prefix in
  Get hs (p +:+ "/*")
    (λ ctx, ret (set_done (set_Resp ctx (file_server p (Req ctx) (Resp ctx))) true)).

(** ** Route groups

    Groups are shared objects: a child refers to its parent, and middlewares
    added to the parent later are seen through the child.  They live in a store
    indexed by creation order; a parent is created before its children. *)
Record RouterGroup := mkGroup { prefix : string; mdls : list Middleware; parent : option nat }.
Abbreviation groups := (list RouterGroup).

(** [hs.Group] and [rg.Group] *)
Definition new_group (gs : groups) (par : option nat) (pre : string) (ms : list Middleware) : groups * nat :=
  (gs ++ [mkGroup pre ms par], length gs).

Definition group_Use (gs : groups) (g : nat) (ms : list Middleware) : groups :=
  match gs !! g with
  | Some rg => <[g := mkGroup (prefix rg) (mdls rg ++ ms) (parent rg)]> gs
  | None => gs
  end.

(** Both walks go from a group to its parent; a group's index bounds the length
    of the walk. *)
Fixpoint allMiddlewares_fuel (fuel : nat) (gs : groups) (g : nat) : list Middleware :=
  match fuel with
  | O => []
  | S fuel' =>
      match gs !! g with
      | None => []
      | Some rg => match parent rg with
                   | None => mdls rg
                   | Some p => allMiddlewares_fuel fuel' gs p ++ mdls rg
                   end
      end
  end.
Definition allMiddlewares (gs : groups) (g : nat) : list Middleware := allMiddlewares_fuel (S g) gs g.

Definition wrap (gs : groups) (g : nat) (h : HandleFunc) : HandleFunc := chain (allMiddlewares gs g) h.

(** Joining an already expanded prefix and a path. *)
Definition join_path (pre p : string) : string :=
  let pre := if has_prefix1 "/" pre then pre else "/" +:+ pre in
  let pre := trim_suffix1 "/" pre in
  let p := if has_prefix1 "/" p then p else "/" +:+ p in
  pre +:+ p.

Fixpoint fullPath_fuel (fuel : nat) (gs : groups) (g : nat) (p : string) : string :=
  match fuel with
  | O => p
  | S fuel' =>
      match gs !! g with
      | None => p
      | Some rg =>
          let pre := match parent rg with
                     | None => prefix rg
                     | Some par => fullPath_fuel fuel' gs par (prefix rg)
                     end in
          join_path pre p
      end
  end.
Definition fullPath (gs : groups) (g : nat) (p : string) : string := fullPath_fuel (S g) gs g p.

(** [rg.Get], [rg.Post], ... *)
Definition group_add (hs : HTTPServer) (gs : groups) (g : nat) (method p : string) (h : HandleFunc)
  : HTTPServer * option route_panic :=
  srv_addRoute hs method (fullPath gs g p) (wrap gs g h).
End server.

Arguments HTTPServer : clear implicits.
