(* ===== verification/WebServerFacts.v ===== *)
(** * Correctness of the HTTP server and of route groups *)

From S2P Require Import Prelude GoStrings Router WebContext WebServer.

(** ** Header flushing *)
Definition canonical_keys (h : Hdr) : Prop := ∀ k vs, h !! k = Some vs → canon k = k.

Lemma hdr_values_add h k k' v :
  hdr_values (hdr_add h k v) k' = hdr_values h k' ++ (if decide (canon k = canon k') then [v] else []).
Proof.
  unfold hdr_values, hdr_add. case_decide as E.
  - rewrite <- E, lookup_insert_eq. unfold hdr_values. done.
  - rewrite lookup_insert_ne by done. by rewrite app_nil_r.
Qed.

Lemma add_values k vs : ∀ h k',
  hdr_values (foldl (λ h v, hdr_add h k v) h vs) k'
  = hdr_values h k' ++ (if decide (canon k = canon k') then vs else []).
Proof.
  induction vs as [|v vs IH]; intros h k'; cbn [foldl].
  - case_decide; by rewrite app_nil_r.
  - rewrite IH, hdr_values_add. case_decide; by rewrite <- app_assoc.
Qed.

Lemma add_all_values kvs : ∀ h k',
  hdr_values (add_all h kvs) k'
  = hdr_values h k' ++ concat (map (λ kv, if decide (canon kv.1 = canon k') then kv.2 else []) kvs).
Proof.
  induction kvs as [|[k vs] kvs IH]; intros h k'; unfold add_all in *; cbn [foldl map concat].
  - by rewrite app_nil_r.
  - rewrite IH, add_values. by rewrite <- app_assoc.
Qed.

Lemma concat_pick (h : Hdr) k order : canonical_keys h → order ≡ₚ map_to_list h → canon k = k →
  concat (map (λ kv, if decide (canon kv.1 = canon k) then kv.2 else []) order) = default [] (h !! k).
Proof.
  intros Hc Ho Hk. rewrite Hk.
  assert (∀ l, (∀ kv, kv ∈ l → canon kv.1 = kv.1) → k ∉ l.*1 →
    concat (map (λ kv : string * list string, if decide (canon kv.1 = k) then kv.2 else []) l) = []) as Hno.
  { induction l as [|[k' vs] l IH]; intros Hl Hn; [done|]. cbn [map concat fst snd].
    assert (canon k' = k') as -> by (apply (Hl (k', vs)); set_solver).
    cbn in Hn. rewrite decide_False by set_solver.
    apply IH; set_solver. }
  assert (∀ k' vs, (k', vs) ∈ order ↔ h !! k' = Some vs) as Hin
    by (intros; rewrite Ho; apply elem_of_map_to_list).
  assert (NoDup order.*1) as Hnd by (rewrite Ho; apply NoDup_fst_map_to_list).
  assert (∀ kv, kv ∈ order → canon kv.1 = kv.1) as Hcan
    by (intros [k' vs] Hi%Hin; by eapply Hc).
  destruct (h !! k) as [vs|] eqn:E; cbn.
  - apply Hin in E. apply list_elem_of_split in E as (l1 & l2 & ->).
    rewrite fmap_app, fmap_cons in Hnd. apply NoDup_app in Hnd as (_ & Hd & Hnd).
    apply NoDup_cons in Hnd as [Hn2 _]. cbn in *.
    clear Hin. rewrite map_app, concat_app. cbn [map concat fst snd].
    rewrite (Hno l1), (Hno l2); [|set_solver..].
    rewrite decide_True by done. by rewrite app_nil_r.
  - apply Hno; [done|]. intros ([k' vs] & -> & Hi)%list_elem_of_fmap.
    apply Hin in Hi. cbn in E. congruence.
Qed.

(** The header lines of a response: what was in the writer, then what the
    context accumulated, whatever the iteration order. *)
Lemma flushed_values w h order k : canonical_keys h → order ≡ₚ map_to_list h → canon k = k →
  hdr_values (add_all w order) k = hdr_values w k ++ default [] (h !! k).
Proof. intros. rewrite add_all_values. by rewrite concat_pick with (h := h). Qed.

Section server_facts.
Context {Rx : Type} (RxMatch : Rx → string → bool).
Context (range_hdr : Hdr → list (string * list string)).
Context (range_trees : gmap string (node HandleFunc Rx) → list (string * node HandleFunc Rx)).
Hypothesis range_hdr_perm : ∀ h, range_hdr h ≡ₚ map_to_list h.

Local Notation ServeHTTP := (ServeHTTP RxMatch range_hdr range_trees).
Local Notation flashResp := (flashResp range_hdr).
Local Notation serve := (serve RxMatch range_trees).

(** ** Context pooling *)

(** Requests are isolated from each other through the context pool: what a
    request sees and answers does not depend on the recycled context it is given,
    and the context returned to the pool, also after a panic, is blank. *)
Theorem pooled_context_isolated hs got got' rq w :
  ServeHTTP hs got rq w = ServeHTTP hs got' rq w ∧ (ServeHTTP hs got rq w).1.2 = zero_ctx.
Proof.
  unfold WebServer.ServeHTTP. rewrite !reset_zero. split; [done|].
  destruct (flash_middleware _ _ _) as [c o]. cbn. by rewrite reset_zero.
Qed.

(** ** Responding *)

(** Codes [WriteHeader] accepts, and codes [flashResp] does not pass to it. *)
Definition status_ok (code : Z) : bool := ((code <=? 0) || ((100 <=? code) && (code <=? 999)))%Z.
(** The status of the answer to a context, [None] when none is sent: what was sent
    before stands, and data without a final status is sent with 200. *)
Definition answer_status (c : Context) : option Z :=
  match rw_sent (Resp c) with
  | Some (code, _) => Some code
  | None => if ((200 <=? RespStatusCode c) || (RespStatusCode c =? 101))%Z then Some (RespStatusCode c)
            else match RespData c with [] => None | _ => Some 200%Z end
  end.
Definition answer_body (c : Context) : bytes :=
  rw_body (Resp c) ++ (if bodyAllowedForStatus (default 200%Z (answer_status c)) then RespData c else []).
(** The header lines: the writer's own, then those of the context. *)
Definition answer_headers (c : Context) (hdr : Hdr) : Prop :=
  match rw_sent (Resp c) with
  | Some (_, h) => hdr = h
  | None => canonical_keys (default ∅ (RespHeaders c)) → ∀ k, canon k = k →
      hdr_values hdr k = hdr_values (rw_hdr (Resp c)) k ++ default [] (default ∅ (RespHeaders c) !! k)
  end.
(** The writer holds the answer to a context. *)
Definition answered (c : Context) (w : RW) : Prop :=
  fst <$> rw_sent w = answer_status c ∧ rw_body w = answer_body c ∧ ∀ code hdr, rw_sent w = Some (code, hdr) → answer_headers c hdr.

Definition with_headers (c : Context) : Context :=
  match RespHeaders c with
  | Some h => set_Resp c (rw_set_hdr (Resp c) (λ w, add_all w (range_hdr h)))
  | None => c
  end.
Lemma with_headers_values c : canonical_keys (default ∅ (RespHeaders c)) → ∀ k, canon k = k →
  hdr_values (rw_hdr (Resp (with_headers c))) k = hdr_values (rw_hdr (Resp c)) k ++ default [] (default ∅ (RespHeaders c) !! k).
Proof.
  intros Hcan k Hk. unfold with_headers. destruct (RespHeaders c) as [h|] eqn:Eh; cbn in *.
  - by rewrite (flushed_values (rw_hdr (Resp c)) h) by (try done; apply range_hdr_perm).
  - by rewrite lookup_empty, app_nil_r.
Qed.
Lemma flashResp_alt c : flashResp c =
  then_ (if (0 <? RespStatusCode c)%Z then ctx_WriteHeader (with_headers c) (RespStatusCode c) else ret (with_headers c))
    (λ c', ret (match RespData c with [] => c' | d => ctx_Write c' d end)).
Proof.
  unfold WebServer.flashResp. fold (with_headers c).
  assert (RespStatusCode (with_headers c) = RespStatusCode c ∧ RespData (with_headers c) = RespData c) as [-> Hd]
    by (unfold with_headers; by destruct (RespHeaders c)).
  destruct (0 <? _)%Z; [|cbn; by rewrite Hd]. unfold ctx_WriteHeader. destruct (WriteHeader _ _); [|done]. cbn. by rewrite Hd.
Qed.
Lemma with_headers_writer c : rw_sent (Resp (with_headers c)) = rw_sent (Resp c) ∧ rw_body (Resp (with_headers c)) = rw_body (Resp c).
Proof. unfold with_headers. by destruct (RespHeaders c). Qed.

(** What [flashResp] does, in every state of the context and of the writer. *)
Lemma flashResp_spec c : ∃ c', flashResp c = (c', if status_ok (RespStatusCode c) then Returned else Panicked) ∧
  if status_ok (RespStatusCode c) then answered c (Resp c')
  else rw_sent (Resp c') = rw_sent (Resp c) ∧ rw_body (Resp c') = rw_body (Resp c).
Proof.
  rewrite flashResp_alt. pose proof (with_headers_values c) as Hh. destruct (with_headers_writer c) as [Hs Hb].
  set (c1 := with_headers c) in *. clearbody c1. unfold ctx_WriteHeader, WriteHeader, status_ok, answered, answer_headers, answer_body, answer_status.
  rewrite Hs. destruct (rw_sent (Resp c)) as [[code h]|];
    destruct (Z.ltb_spec 0 (RespStatusCode c)), (Z.leb_spec (RespStatusCode c) 0), (Z.ltb_spec (RespStatusCode c) 100),
      (Z.leb_spec 100 (RespStatusCode c)), (Z.ltb_spec 999 (RespStatusCode c)), (Z.leb_spec (RespStatusCode c) 999),
      (Z.ltb_spec (RespStatusCode c) 200), (Z.leb_spec 200 (RespStatusCode c)), (Z.eqb_spec (RespStatusCode c) 101); try lia; cbn [orb andb negb];
    (eexists; split; [reflexivity|]); try (split; [exact Hs|exact Hb]);
    destruct (RespData c) as [|b d]; unfold ctx_Write, Write; cbn; rewrite ?Hs, ?Hb; cbn;
    repeat (case_match; cbn); split_and!; rewrite ?app_nil_r; try done; intros ? ? [= <- <-]; done.
Qed.

Lemma ServeHTTP_answers hs got rq w0 c : chain (srv_mdls hs) (serve hs) (set_Resp (set_Req zero_ctx rq) w0) = (c, Returned) →
  done_ c = false → status_ok (RespStatusCode c) = true →
  ∃ w, ServeHTTP hs got rq w0 = (w, zero_ctx, Returned) ∧ answered c w.
Proof.
  intros Hc Hd Hs. unfold WebServer.ServeHTTP. rewrite reset_zero. unfold flash_middleware. rewrite Hc. cbn [then_]. unfold IsDone. rewrite Hd.
  destruct (flashResp_spec c) as (c' & -> & Ha). rewrite Hs in *. rewrite reset_zero. eauto.
Qed.


(** A handler or middleware that marks the context done has the last word:
    the server writes nothing after it, neither headers, status nor body. *)
Theorem done_skips_flash hs got rq w c :
  chain (srv_mdls hs) (serve hs) (set_Resp (set_Req zero_ctx rq) w) = (c, Returned) →
  done_ c = true → (ServeHTTP hs got rq w).1.1 = Resp c.
Proof.
  intros Hc Hd. unfold WebServer.ServeHTTP. rewrite reset_zero. unfold flash_middleware.
  rewrite Hc. cbn [then_]. unfold IsDone. by rewrite Hd.
Qed.

(** [serve] on each of its branches. *)
Lemma serve_not_found hs c :
  findRoute RxMatch (srv_router hs) (range_trees (srv_router hs)) (Method (Req c)) (URLPath (Req c)) = None →
  serve hs c = (set_data (set_status c 404) (bytes_of "404 page not found"), Returned).
Proof. intros E. unfold WebServer.serve. by rewrite E. Qed.

Lemma serve_hit hs c mi nd h :
  findRoute RxMatch (srv_router hs) (range_trees (srv_router hs)) (Method (Req c)) (URLPath (Req c)) = Some mi →
  mi_node mi = Some nd → handler nd = Some h →
  serve hs c = h (set_route c (paramPath mi) (matchedPath mi)).
Proof. intros E Hn Hh. unfold WebServer.serve. rewrite E, Hn. cbn. by rewrite Hh. Qed.
End server_facts.

(** ** Middleware order *)

(** A middleware that records its entry and its exit in the response data. *)
Definition tracer (name : ascii) : Middleware := λ next c,
  then_ (next (set_data c (RespData c ++ [name])))
        (λ c, ret (set_data c (RespData c ++ [name]))).

(** Onion order: middlewares run around the handler in registration order,
    first registered outermost; they are entered in that order and left in the
    reverse order. *)
Theorem middleware_onion (ns : list ascii) (h : HandleFunc) c c' :
  h (set_data c (RespData c ++ ns)) = (c', Returned) →
  chain (map tracer ns) h c = (set_data c' (RespData c' ++ rev ns), Returned).
Proof.
  revert c c'. induction ns as [|a ns IH]; intros c c' Hh.
  - rewrite app_nil_r in Hh. cbn. rewrite app_nil_r. destruct c, c'; exact Hh.
  - cbn [map]. rewrite chain_cons. unfold tracer at 1.
    rewrite (IH _ c'); [|cbn; by rewrite <- app_assoc]. cbn. by rewrite <- app_assoc.
Qed.

(** ** Route groups *)
Definition store_ok (gs : list RouterGroup) : Prop :=
  ∀ g rg p, gs !! g = Some rg → parent rg = Some p → p < g.

Lemma allMiddlewares_enough gs : store_ok gs → ∀ fuel g, g < fuel →
  allMiddlewares_fuel fuel gs g = allMiddlewares gs g.
Proof.
  intros Hok fuel. induction fuel as [fuel IH] using lt_wf_ind; intros g Hg.
  destruct fuel as [|fuel]; [lia|]. unfold allMiddlewares. cbn [allMiddlewares_fuel].
  destruct (gs !! g) as [rg|] eqn:E; [|done]. destruct (parent rg) as [p|] eqn:Ep; [|done].
  pose proof (Hok _ _ _ E Ep). f_equal.
  rewrite (IH fuel ltac:(lia) p ltac:(lia)).
  destruct (decide (g < S fuel)) as [Hlt|]; [|lia].
  destruct (decide (g = fuel)) as [->|]; [by rewrite (IH fuel ltac:(lia) p ltac:(lia))|].
  by rewrite (IH g ltac:(lia) p ltac:(lia)).
Qed.

Lemma allMiddlewares_child gs g rg p : store_ok gs → gs !! g = Some rg → parent rg = Some p →
  allMiddlewares gs g = allMiddlewares gs p ++ mdls rg.
Proof.
  intros Hok Hg Hp. unfold allMiddlewares at 1. cbn [allMiddlewares_fuel]. rewrite Hg, Hp.
  f_equal. apply allMiddlewares_enough; [done|]. by eapply Hok.
Qed.

(** Groups nest: the handler registered through a child group is wrapped by
    the child's middlewares and, outside them, by everything its parent applies,
    including middlewares the parent receives after the child was created. *)
Theorem group_middlewares_nest gs g rg p rp ms (h : HandleFunc) :
  store_ok gs → gs !! g = Some rg → parent rg = Some p → gs !! p = Some rp → parent rp = None →
  wrap gs g h = wrap gs p (chain (mdls rg) h) ∧
  wrap (group_Use gs p ms) g h = chain (mdls rp) (chain ms (chain (mdls rg) h)).
Proof.
  intros Hok Hg Hp Hrp Hrp0. pose proof (Hok _ _ _ Hg Hp) as Hlt. unfold wrap. split.
  - by rewrite (allMiddlewares_child gs g rg p), chain_app.
  - unfold group_Use. rewrite Hrp. set (gs' := <[p := _]> gs).
    assert (gs' !! p = Some (mkGroup (prefix rp) (mdls rp ++ ms) (parent rp))) as Hp'.
    { apply list_lookup_insert_eq. by eapply lookup_lt_Some. }
    assert (gs' !! g = Some rg) as Hg'. { unfold gs'. rewrite list_lookup_insert_ne by lia. done. }
    assert (store_ok gs') as Hok'.
    { intros g1 rg1 p1 H1 H2. destruct (decide (g1 = p)) as [->|].
      - rewrite Hp' in H1. inv H1. cbn in H2. congruence.
      - unfold gs' in H1. rewrite list_lookup_insert_ne in H1 by done. by eapply Hok. }
    rewrite (allMiddlewares_child gs' g rg p) by done. rewrite chain_app.
    unfold allMiddlewares. cbn [allMiddlewares_fuel]. rewrite Hp'. cbn [parent mdls]. rewrite Hrp0. by rewrite chain_app.
Qed.

(** *** Group paths *)
Fixpoint dslash (s : string) : bool :=
  match s with
  | String c (String d _ as s') => (bool_decide (c = "/"%char) && bool_decide (d = "/"%char)) || dslash s'
  | _ => false
  end.

Lemma dslash_cons c s : dslash (String c s) =
  (bool_decide (c = "/"%char) && has_prefix1 "/" s) || dslash s.
Proof. destruct s; cbn; [by rewrite andb_false_r|done]. Qed.

Lemma dslash_app s t : dslash s = false → dslash t = false →
  (last_char s = Some "/"%char → has_prefix1 "/" t = false) → dslash (s +:+ t) = false.
Proof.
  induction s as [|c s IH]; [done|]. rewrite app_cons. intros Hs Ht Hj.
  rewrite dslash_cons in Hs |- *. apply orb_false_iff in Hs as [Hc Hs].
  rewrite IH; [|done|done|destruct s; [done|exact Hj]].
  rewrite orb_false_r. destruct s as [|d s]; [|exact Hc].
  rewrite app_nil_l. case_bool_decide; [|done]. subst. by apply Hj.
Qed.

Lemma dslash_drop_last s : dslash s = false → dslash (drop_last s) = false.
Proof.
  induction s as [|c s IH]; [done|]. rewrite dslash_cons. intros [Hc Hs]%orb_false_iff.
  destruct s as [|d s]; [done|]. change (drop_last (String c (String d s)))
    with (String c (drop_last (String d s))).
  rewrite dslash_cons, IH by done. rewrite orb_false_r. destruct s; [by rewrite andb_false_r|exact Hc].
Qed.

Lemma last_drop_last s : dslash s = false → last_char s = Some "/"%char → last_char (drop_last s) ≠ Some "/"%char.
Proof.
  induction s as [|c s IH]; [done|]. rewrite dslash_cons. intros [Hc Hs]%orb_false_iff Hl.
  destruct s as [|d s]; [done|]. change (drop_last (String c (String d s)))
    with (String c (drop_last (String d s))).
  destruct s as [|e s].
  - cbn in Hl. injection Hl as ->. cbn. cbn [has_prefix1] in Hc. rewrite (bool_decide_true ("/"%char = "/"%char)) in Hc by done.
    rewrite andb_true_r in Hc. apply bool_decide_eq_false in Hc. congruence.
  - specialize (IH Hs Hl). exact IH.
Qed.

Lemma join_path_clean pre p : dslash pre = false → dslash p = false →
  has_prefix1 "/" (join_path pre p) = true ∧ dslash (join_path pre p) = false.
Proof.
  intros Hpre Hp. unfold join_path.
  set (pre' := if has_prefix1 "/" pre then pre else "/" +:+ pre).
  set (p' := if has_prefix1 "/" p then p else "/" +:+ p).
  assert (dslash pre' = false ∧ has_prefix1 "/" pre' = true) as [Hd1 Hs1].
  { unfold pre'. destruct (has_prefix1 "/" pre) eqn:E; [done|]. split; [|done].
    change ("/" +:+ pre) with (String "/" pre). by rewrite dslash_cons, E, Hpre. }
  assert (dslash p' = false ∧ has_prefix1 "/" p' = true) as [Hd2 Hs2].
  { unfold p'. destruct (has_prefix1 "/" p) eqn:E; [done|]. split; [|done].
    change ("/" +:+ p) with (String "/" p). by rewrite dslash_cons, E, Hp. }
  cbv zeta. fold pre' p'. clearbody pre' p'. unfold trim_suffix1, has_suffix1.
  case_bool_decide as Hl.
  - split.
    + destruct pre' as [|c [|d s]]; [discriminate Hl|exact Hs2|exact Hs1].
    + apply dslash_app; [by apply dslash_drop_last|done|].
      intros Hc. exfalso. by apply (last_drop_last pre').
  - split; [destruct pre'; [discriminate Hs1|exact Hs1]|]. by apply dslash_app.
Qed.

(** Group paths: when neither the path nor any prefix on the way to the root
    contains a doubled slash, the full path starts with a slash and contains no
    doubled slash, whatever leading or trailing slashes the parts carry. *)
Theorem fullPath_clean gs g p : g < length gs → store_ok gs →
  (∀ g' rg, gs !! g' = Some rg → dslash (prefix rg) = false) → dslash p = false →
  has_prefix1 "/" (fullPath gs g p) = true ∧ dslash (fullPath gs g p) = false.
Proof.
  intros Hg Hok Hpre. unfold fullPath.
  assert (∀ fuel g p, g < length gs → g < fuel → dslash p = false →
    has_prefix1 "/" (fullPath_fuel fuel gs g p) = true ∧ dslash (fullPath_fuel fuel gs g p) = false) as Hf.
  { clear g p Hg. induction fuel as [|fuel IH]; intros g p Hg Hlt Hp; [lia|]. cbn [fullPath_fuel].
    destruct (lookup_lt_is_Some_2 gs g Hg) as [rg Hrg]. rewrite Hrg.
    apply join_path_clean; [|done].
    destruct (parent rg) as [par|] eqn:Ep; [|by eapply Hpre].
    pose proof (Hok _ _ _ Hrg Ep). apply IH; [lia|lia|by eapply Hpre]. }
  intros Hp. apply Hf; [done|lia|done].
Qed.

(** ** Witnesses *)
Definition ex_rq : Request := mkReq "GET" "/x" ∅ ∅ "1.2.3.4:5" "h" 0 true.
Definition ex_srv : HTTPServer unit := mkServer newRouter [].


(** Data left with status 204 is not sent, nor is a body in answer to HEAD. *)
Example no_content_has_no_body :
  let h : Middleware := λ _ c, ret (set_data (set_status c 204) (bytes_of "dropped")) in
  received ex_rq (ServeHTTP (Rx:=unit) (λ _ _, false) map_to_list map_to_list (mkServer newRouter [h]) zero_ctx ex_rq newRW).1.1 = (204%Z, []).
Proof. vm_compute. reflexivity. Qed.

Definition ex_abort : Middleware := λ _ c, ret (set_done (ctx_Write c (bytes_of "no")) true).
Definition ex_srv2 : HTTPServer unit := mkServer newRouter [ex_abort].
Lemma done_skips_flash_witness :
  (ServeHTTP (λ _ _, false) (map_to_list) (map_to_list) ex_srv2 zero_ctx ex_rq newRW).1.1
  = Write (bytes_of "no") newRW.
Proof.
  exact (done_skips_flash (λ _ _, false) map_to_list map_to_list ex_srv2 zero_ctx ex_rq newRW
    (set_done (ctx_Write (set_Resp (set_Req zero_ctx ex_rq) newRW) (bytes_of "no")) true)
    ltac:(vm_compute; reflexivity) eq_refl).
Defined.

Lemma middleware_onion_witness :
  chain (map tracer ["a"; "b"]%char) ret zero_ctx = (set_data zero_ctx ["a"; "b"; "b"; "a"]%char, Returned).
Proof. exact (middleware_onion ["a"; "b"]%char ret zero_ctx _ eq_refl). Defined.

Definition ex_groups : list RouterGroup :=
  [mkGroup "/api/" [tracer "a"] None; mkGroup "v1" [tracer "b"] (Some 0)].
Lemma ex_groups_ok : store_ok ex_groups.
Proof.
  intros [|[|g]] rg p H Hp; cbn in H; [|injection H as <-; injection Hp as <-; lia|destruct g; discriminate].
  injection H as <-. discriminate.
Qed.
Lemma group_middlewares_nest_witness :
  wrap (group_Use ex_groups 0 [tracer "c"]) 1 ret
  = chain [tracer "a"] (chain [tracer "c"] (chain [tracer "b"] ret)).
Proof.
  exact (proj2 (group_middlewares_nest ex_groups 1 _ 0 _ [tracer "c"] ret
    ex_groups_ok eq_refl eq_refl eq_refl eq_refl)).
Defined.
Lemma fullPath_clean_witness :
  fullPath ex_groups 1 "/u/" = "/api/v1/u/" ∧ dslash (fullPath ex_groups 1 "/u/") = false.
Proof.
  split; [reflexivity|]. apply (fullPath_clean ex_groups 1 "/u/").
  - cbn. lia.
  - exact ex_groups_ok.
  - intros [|[|g]] rg H; cbn in H; [| |destruct g; discriminate]; injection H as <-; reflexivity.
  - reflexivity.
Defined.

(** The doc comment of [fullPath] promises a path without doubled slashes; a
    prefix that ends in two slashes, which the code trims by one, breaks it, and
    an empty path yields a trailing slash, which [addRoute] refuses. *)
Example fullPath_double_slash : fullPath [mkGroup "/a//" [] None] 0 "/b" = "/a//b".
Proof. reflexivity. Qed.
Example fullPath_empty_path : fullPath [mkGroup "/a" [] None] 0 "" = "/a/".
Proof. reflexivity. Qed.
