(* ===== verification/WebLifecycle.v ===== *)
(** * Starting and stopping the web server

    Models the configuration and [Start], [StartTLS], [StartTLSWithConfig],
    [StartAndServeWithSignal] and [Shutdown] of [src/web/server.go] over the
    documented behaviour of [http.Server]: listening fails once shutdown has begun;
    shutdown closes the listener and idle connections and waits for busy ones to
    become idle.  Goroutines interleave at their accesses to [hs.server] and to the
    servers it has pointed to.  Logging is left out. *)

From S2P Require Import Prelude.

(** ** Configuration *)
Definition second : Z := 10 ^ 9.
Definition VersionTLS12 : Z := 0x0303.
Record tls_Config := mkTLS { MinVersion : Z; CipherSuites : list Z }.
Record ServerConfig := mkConfig {
  ReadTimeout : Z; WriteTimeout : Z; IdleTimeout : Z; TLSConfig : option tls_Config; ShutdownTimeout : Z }.
Definition DefaultServerConfig : ServerConfig := mkConfig (30 * second) (30 * second) (60 * second) None (30 * second).
Definition DefaultTLSConfig : tls_Config := mkTLS VersionTLS12 [].

(** ** [http.Server] *)
(** [h_serving]: the listener is open.  Connections are idle or busy with a request. *)
Record http_Server := mkHttp {
  h_Addr : string; h_Read : Z; h_Write : Z; h_Idle : Z; h_TLS : option tls_Config;
  h_inShutdown : bool; h_serving : bool; h_idle : nat; h_busy : nat }.
Definition new_http (addr : string) (c : ServerConfig) (tls : option tls_Config) : http_Server :=
  mkHttp addr (ReadTimeout c) (WriteTimeout c) (IdleTimeout c) tls false false 0 0.
Definition set_http (sh sv : bool) (i b : nat) (h : http_Server) : http_Server :=
  mkHttp (h_Addr h) (h_Read h) (h_Write h) (h_Idle h) (h_TLS h) sh sv i b.
Definition begin_shutdown (h : http_Server) : http_Server := set_http true false (h_idle h) (h_busy h) h.
Definition close_idle (h : http_Server) : http_Server := set_http (h_inShutdown h) (h_serving h) 0 (h_busy h) h.

Inductive http_err := ErrServerClosed | ErrListen (msg : string) | ErrServe (msg : string) | ErrContext.

(** ** The server and its callers *)
(** A call of [Start], or of [StartTLSWithConfig] with its configuration. *)
Inductive start_call := CallStart (addr : string) | CallTLS (addr : string) (cfg : option tls_Config).
(** [hs.StartTLS] *)
Definition StartTLS (c : ServerConfig) (addr : string) : start_call := CallTLS addr (TLSConfig c).
(** The [http.Server] a call makes. *)
Definition server_for (c : ServerConfig) (call : start_call) : http_Server :=
  match call with
  | CallStart addr => new_http addr c None
  | CallTLS addr cfg => new_http addr c (Some (default DefaultTLSConfig cfg))
  end.
Inductive starter := TCall (c : start_call) | TListen (id : nat) | TServe (id : nat) | TReturned (e : http_err).
(** [XNone]: there was no server to shut down. *)
Inductive shut_out := XNone | XDrained (id : nat) | XTimeout (id : nat).
Inductive stopper := XCall | XPoll (id : nat) | XReturned (o : shut_out).
(** [StartAndServeWithSignal]: its goroutine is [starts !! s]. *)
Inductive main_pc := MSelect (s : nat) | MShut (s : nat) (x : stopper) | MReturned (e : option http_err).

Record whs := mkWhs {
  hs_config : ServerConfig; hs_server : option nat; servers : list http_Server;
  starts : list starter; stops : list stopper; mains : list main_pc }.
Definition set_servers (l : list http_Server) (w : whs) : whs :=
  mkWhs (hs_config w) (hs_server w) l (starts w) (stops w) (mains w).
Definition set_starter (i : nat) (t : starter) (w : whs) : whs :=
  mkWhs (hs_config w) (hs_server w) (servers w) (<[i := t]> (starts w)) (stops w) (mains w).
Definition set_stopper (i : nat) (x : stopper) (w : whs) : whs :=
  mkWhs (hs_config w) (hs_server w) (servers w) (starts w) (<[i := x]> (stops w)) (mains w).
Definition set_main (i : nat) (m : main_pc) (w : whs) : whs :=
  mkWhs (hs_config w) (hs_server w) (servers w) (starts w) (stops w) (<[i := m]> (mains w)).
(** [hs.server = &http.Server{...}] *)
Definition store_server (h : http_Server) (w : whs) : whs :=
  mkWhs (hs_config w) (Some (length (servers w))) (servers w ++ [h]) (starts w) (stops w) (mains w).

(** What [Shutdown] does next. *)
Inductive stop_step : whs → stopper → whs → stopper → Prop :=
| x_none w : hs_server w = None → stop_step w XCall w (XReturned XNone)
| x_begin w id : hs_server w = Some id → stop_step w XCall (set_servers (alter begin_shutdown id (servers w)) w) (XPoll id)
| x_poll w id h : servers w !! id = Some h →
    stop_step w (XPoll id) (set_servers (alter close_idle id (servers w)) w)
      (if (h_busy h =? 0)%nat then XReturned (XDrained id) else XPoll id)
| x_timeout w id : stop_step w (XPoll id) w (XReturned (XTimeout id)).
Definition shut_err (o : shut_out) : option http_err := match o with XTimeout _ => Some ErrContext | _ => None end.

Inductive whs_step : whs → whs → Prop :=
(** [Start] and [StartTLSWithConfig] *)
| ws_store w i call : starts w !! i = Some (TCall call) →
    whs_step w (set_starter i (TListen (length (servers w))) (store_server (server_for (hs_config w) call) w))
| ws_refused w i id h : starts w !! i = Some (TListen id) → servers w !! id = Some h → h_inShutdown h = true →
    whs_step w (set_starter i (TReturned ErrServerClosed) w)
| ws_listen_err w i id msg : starts w !! i = Some (TListen id) → whs_step w (set_starter i (TReturned (ErrListen msg)) w)
| ws_listen w i id h : starts w !! i = Some (TListen id) → servers w !! id = Some h → h_inShutdown h = false →
    whs_step w (set_starter i (TServe id)
      (set_servers (<[id := set_http false true (h_idle h) (h_busy h) h]> (servers w)) w))
| ws_closed w i id h : starts w !! i = Some (TServe id) → servers w !! id = Some h → h_inShutdown h = true →
    whs_step w (set_starter i (TReturned ErrServerClosed) w)
| ws_serve_err w i id h msg : starts w !! i = Some (TServe id) → servers w !! id = Some h →
    whs_step w (set_starter i (TReturned (ErrServe msg))
      (set_servers (<[id := set_http (h_inShutdown h) false (h_idle h) (h_busy h) h]> (servers w)) w))
(** Connections and requests *)
| ws_connect w id h : servers w !! id = Some h → h_serving h = true →
    whs_step w (set_servers (<[id := set_http (h_inShutdown h) true (S (h_idle h)) (h_busy h) h]> (servers w)) w)
| ws_request w id h n : servers w !! id = Some h → h_idle h = S n →
    whs_step w (set_servers (<[id := set_http (h_inShutdown h) (h_serving h) n (S (h_busy h)) h]> (servers w)) w)
| ws_answered w id h n : servers w !! id = Some h → h_busy h = S n →
    whs_step w (set_servers (<[id := set_http (h_inShutdown h) (h_serving h)
                                   (if h_inShutdown h then h_idle h else S (h_idle h)) n h]> (servers w)) w)
(** [Shutdown] *)
| ws_stop w i x w' x' : stops w !! i = Some x → stop_step w x w' x' → whs_step w (set_stopper i x' w')
(** [StartAndServeWithSignal] *)
| ws_main_err w i s e : mains w !! i = Some (MSelect s) → starts w !! s = Some (TReturned e) →
    whs_step w (set_main i (MReturned (Some e)) w)
| ws_signal w i s : mains w !! i = Some (MSelect s) → whs_step w (set_main i (MShut s XCall) w)
| ws_main_stop w i s x w' x' : mains w !! i = Some (MShut s x) → stop_step w x w' x' →
    whs_step w (set_main i (MShut s x') w')
| ws_main_done w i s o : mains w !! i = Some (MShut s (XReturned o)) →
    whs_step w (set_main i (MReturned (shut_err o)) w).

(** Any calls of [Start] and [Shutdown], and [StartAndServeWithSignal] for the first
    [m] calls of [Start]. *)
Definition init_whs (c : ServerConfig) (calls : list start_call) (nstops m : nat) : whs :=
  mkWhs c None [] (map TCall calls) (replicate nstops XCall) (map MSelect (seq 0 m)).
Definition whs_reachable (w : whs) : Prop := ∃ c calls n m, rtc whs_step (init_whs c calls n m) w.
