(* ===== verification/WebLifecycleFacts.v ===== *)
(** * Stopping the web server

    [Shutdown] is graceful and final for the server it finds; which one it finds. *)

From S2P Require Import Prelude WebLifecycle.

(** ** Shutdown is graceful and final *)
(** Nothing is served and nothing can be. *)
Definition quiet (h : http_Server) : Prop := h_inShutdown h = true ∧ h_serving h = false ∧ h_idle h = 0 ∧ h_busy h = 0.
Definition stop_fine (w : whs) (x : stopper) : Prop :=
  match x with
  | XCall | XReturned XNone => True
  | XPoll id | XReturned (XTimeout id) => ∃ h, servers w !! id = Some h ∧ h_inShutdown h = true
  | XReturned (XDrained id) => ∃ h, servers w !! id = Some h ∧ quiet h
  end.
Definition main_fine (w : whs) (m : main_pc) : Prop := match m with MShut _ x => stop_fine w x | _ => True end.
Record whs_ok (w : whs) : Prop := {
  wo_down : ∀ id h, servers w !! id = Some h → h_inShutdown h = true → h_serving h = false;
  wo_pointer : ∀ id, hs_server w = Some id → is_Some (servers w !! id);
  wo_stops : ∀ i x, stops w !! i = Some x → stop_fine w x;
  wo_mains : ∀ i m, mains w !! i = Some m → main_fine w m }.

(** A server that is shutting down stays so, and a quiet one stays quiet. *)
Definition servers_grow (w w' : whs) : Prop :=
  ∀ id h, servers w !! id = Some h → ∃ h', servers w' !! id = Some h' ∧
    (h_inShutdown h = true → h_inShutdown h' = true) ∧ (quiet h → quiet h').
Lemma stop_fine_grow w w' x : servers_grow w w' → stop_fine w x → stop_fine w' x.
Proof.
  intros Hg. destruct x as [|id|[|id|id]]; simpl; try done; intros (h & Hh & Hp); destruct (Hg id h Hh) as (h' & Hh' & H1 & H2); eauto.
Qed.
Lemma grow_refl w w' : servers w' = servers w → servers_grow w w'.
Proof. intros Hs id h Hh. exists h. by rewrite Hs. Qed.
Lemma grow_app w w' h : servers w' = servers w ++ [h] → servers_grow w w'.
Proof. intros Hs id x Hx. exists x. rewrite Hs. split; [by apply lookup_app_l_Some|done]. Qed.
Lemma grow_insert w w' id h h' : servers w' = <[id := h']> (servers w) → servers w !! id = Some h →
  (h_inShutdown h = true → h_inShutdown h' = true) → (quiet h → quiet h') → servers_grow w w'.
Proof.
  intros Hs Hh H1 H2 k x Hx. rewrite Hs. destruct (decide (k = id)) as [->|Hk].
  - rewrite list_lookup_insert_eq by (by apply lookup_lt_Some in Hh). simplify_eq. eauto.
  - rewrite list_lookup_insert_ne by done. by exists x.
Qed.
Lemma alter_as_insert {A} (f : A → A) i x (l : list A) : l !! i = Some x → alter f i l = <[i := f x]> l.
Proof. revert i. induction l as [|y l IH]; intros [|i] Hi; simplify_eq/=; [done|]. by rewrite (IH i Hi). Qed.

(** Changes of servers keep the invariant when the servers grow. *)
Lemma whs_ok_grow w w' : whs_ok w → servers_grow w w' →
  (∀ id h, servers w' !! id = Some h → h_inShutdown h = true → h_serving h = false) →
  (∀ id, hs_server w' = Some id → is_Some (servers w' !! id)) →
  (∀ i x, stops w' !! i = Some x → stops w !! i = Some x ∨ stop_fine w' x) →
  (∀ i m, mains w' !! i = Some m → mains w !! i = Some m ∨ main_fine w' m) → whs_ok w'.
Proof.
  intros [O1 O2 O3 O4] Hg H1 H2 H3 H4. split; try done.
  - intros i x [Hx|?]%H3; [|done]. eapply stop_fine_grow; eauto.
  - intros i m [Hm|?]%H4; [|done]. specialize (O4 i m Hm). destruct m; try done. by eapply stop_fine_grow.
Qed.

Lemma stop_step_ok w x w' x' : stop_step w x w' x' → whs_ok w → stop_fine w x →
  servers_grow w w' ∧ stop_fine w' x' ∧ (∀ id h, servers w' !! id = Some h → h_inShutdown h = true → h_serving h = false) ∧
  (∀ id, hs_server w' = Some id → is_Some (servers w' !! id)) ∧ stops w' = stops w ∧ mains w' = mains w.
Proof.
  intros Hs Hw Hx. pose proof Hw as [O1 O2 _ _]. destruct Hs as [w Hn|w id Hid|w id h Hh|w id].
  - split_and!; try done. by apply grow_refl.
  - destruct (O2 id Hid) as [h Hh]. simpl. rewrite (alter_as_insert _ _ _ _ Hh).
    assert (Hl : id < length (servers w)) by (by apply lookup_lt_Some in Hh).
    split_and!; simpl; try done.
    + eapply grow_insert; [done|done|done|]. intros (_ & _ & ? & ?). by split_and!.
    + exists (begin_shutdown h). by rewrite list_lookup_insert_eq.
    + intros k y Hy. apply list_lookup_insert_Some in Hy as [(<- & <- & _)|(_ & Hy)]; [done|by eapply O1].
    + intros k Hk. apply lookup_lt_is_Some. rewrite length_insert. by apply lookup_lt_is_Some, O2.
  - destruct Hx as (h' & Hh' & Hd). simplify_eq. simpl. rewrite (alter_as_insert _ _ _ _ Hh).
    assert (Hl : id < length (servers w)) by (by apply lookup_lt_Some in Hh).
    assert (Hq : h_busy h = 0 → quiet (close_idle h)) by (intros Hb; split_and!; simpl; try done; by eapply O1).
    split_and!; simpl; try done.
    + eapply grow_insert; [done|done|done|]. intros (_ & _ & _ & Hb). by apply Hq.
    + destruct (Nat.eqb_spec (h_busy h) 0); simpl; exists (close_idle h); rewrite list_lookup_insert_eq by done; auto.
    + intros k y Hy. apply list_lookup_insert_Some in Hy as [(<- & <- & _)|(_ & Hy)]; [|by eapply O1].
      intros _. by apply (O1 id h).
    + intros k Hk. apply lookup_lt_is_Some. rewrite length_insert. by apply lookup_lt_is_Some, O2.
  - split_and!; try done. by apply grow_refl.
Qed.
(** A step on one server. *)
Lemma server_step_ok w id h h' : whs_ok w → servers w !! id = Some h →
  (h_inShutdown h = true → h_inShutdown h' = true) → (quiet h → quiet h') →
  (h_inShutdown h' = true → h_serving h' = false) → whs_ok (set_servers (<[id := h']> (servers w)) w).
Proof.
  intros Hw Hh H1 H2 H3. eapply (whs_ok_grow w); simpl; auto.
  - by eapply grow_insert.
  - intros k y Hy. apply list_lookup_insert_Some in Hy as [(<- & <- & _)|(_ & Hy)]; [by apply H3|by eapply wo_down].
  - intros k Hk. apply lookup_lt_is_Some. rewrite length_insert. by apply lookup_lt_is_Some, (wo_pointer w Hw).
Qed.
(** Starters are not part of the invariant. *)
Lemma starter_ok w i t : whs_ok w → whs_ok (set_starter i t w).
Proof. intros Hw. eapply (whs_ok_grow w); simpl; auto; [by apply grow_refl|apply Hw..]. Qed.

Lemma whs_step_ok w w' : whs_step w w' → whs_ok w → whs_ok w'.
Proof.
  intros Hs Hw. pose proof (wo_down w Hw) as O1. destruct Hs.
  - apply starter_ok. eapply (whs_ok_grow w); simpl; auto; [by eapply grow_app| |].
    + intros id h Hh. apply lookup_snoc_Some in Hh as [[_ Hh]|[_ <-]]; [by apply (O1 id)|]. by destruct call.
    + intros id [= <-]. apply lookup_lt_is_Some. rewrite length_app. simpl. lia.
  - by apply starter_ok.
  - by apply starter_ok.
  - apply starter_ok. eapply server_step_ok; try done; simpl; [congruence|]. intros (? & _). congruence.
  - by apply starter_ok.
  - apply starter_ok. eapply server_step_ok; try done; simpl. intros (? & _ & ? & ?). by split_and!.
  - eapply server_step_ok; try done; simpl; [|intros Hd; by rewrite (O1 id h H Hd) in *]. intros (_ & ? & _). congruence.
  - eapply server_step_ok; try done; simpl; [|by apply (O1 id)]. intros (_ & _ & ? & _). congruence.
  - eapply server_step_ok; try done; simpl; [|by apply (O1 id)]. intros (_ & _ & _ & ?). congruence.
  - destruct (stop_step_ok w x w' x' H0 Hw) as (Hg & Hf & Hd & Hp & Hst & Hm); [by eapply wo_stops|].
    eapply (whs_ok_grow w); simpl; try done; rewrite ?Hst, ?Hm; [|auto]. intros j z Hz.
    apply list_lookup_insert_Some in Hz as [(<- & <- & _)|(_ & Hz)]; [by right|by left].
  - eapply (whs_ok_grow w); simpl; auto; [by apply grow_refl|apply Hw|]. intros j z Hz.
    apply list_lookup_insert_Some in Hz as [(<- & <- & _)|(_ & Hz)]; [by right|by left].
  - eapply (whs_ok_grow w); simpl; auto; [by apply grow_refl|apply Hw|]. intros j z Hz.
    apply list_lookup_insert_Some in Hz as [(<- & <- & _)|(_ & Hz)]; [by right|by left].
  - destruct (stop_step_ok w x w' x' H0 Hw) as (Hg & Hf & Hd & Hp & Hst & Hm); [by apply (wo_mains w Hw i _ H)|].
    eapply (whs_ok_grow w); simpl; try done; rewrite ?Hst, ?Hm; [auto|]. intros j z Hz.
    apply list_lookup_insert_Some in Hz as [(<- & <- & _)|(_ & Hz)]; [by right|by left].
  - eapply (whs_ok_grow w); simpl; auto; [by apply grow_refl|apply Hw|]. intros j z Hz.
    apply list_lookup_insert_Some in Hz as [(<- & <- & _)|(_ & Hz)]; [by right|by left].
Qed.
Lemma whs_reachable_ok w : whs_reachable w → whs_ok w.
Proof.
  intros (c & calls & n & m & Hr). eapply (rtc_invariant _ whs_ok); [|exact Hr|].
  - intros w1 w2 ? ?. by eapply whs_step_ok.
  - split; simpl; try done.
    + by intros i x [-> _]%lookup_replicate.
    + intros i z Hz. by apply list_lookup_fmap_Some in Hz as (s & -> & _).
Qed.

(** stopping the web server is graceful and final.  Whatever calls of [Start],
    [StartTLS], [Shutdown] and [StartAndServeWithSignal] run, and however requests
    come and go: once [Shutdown], called directly or for a signal, has returned without
    an error for a server, that server has no listener, no idle connection and no
    request under way, now and in every later state; when it has timed out no new
    connection is accepted.  A server has a listener only while no shutdown of it has
    begun. *)
Theorem web_shutdown_final w : whs_reachable w →
  (∀ i id, stops w !! i = Some (XReturned (XDrained id)) ∨ (∃ s, mains w !! i = Some (MShut s (XReturned (XDrained id)))) →
     ∃ h, servers w !! id = Some h ∧ h_serving h = false ∧ h_idle h = 0 ∧ h_busy h = 0) ∧
  (∀ i id, stops w !! i = Some (XReturned (XTimeout id)) ∨ (∃ s, mains w !! i = Some (MShut s (XReturned (XTimeout id)))) →
     ∃ h, servers w !! id = Some h ∧ h_serving h = false) ∧
  (∀ id h, servers w !! id = Some h → h_serving h = true → h_inShutdown h = false).
Proof.
  intros Hr. pose proof (whs_reachable_ok w Hr) as Hw. split_and!.
  - intros i id Hi. assert (Hf : stop_fine w (XReturned (XDrained id))).
    { destruct Hi as [Hi|[s Hi]]; [by eapply wo_stops|exact (wo_mains w Hw i _ Hi)]. }
    destruct Hf as (h & Hh & _ & Hq). by exists h.
  - intros i id Hi. assert (Hf : stop_fine w (XReturned (XTimeout id))).
    { destruct Hi as [Hi|[s Hi]]; [by eapply wo_stops|exact (wo_mains w Hw i _ Hi)]. }
    destruct Hf as (h & Hh & Hd). exists h. split; [done|]. by eapply wo_down.
  - intros id h Hh Hs. destruct (h_inShutdown h) eqn:Hd; [|done]. pose proof (wo_down w Hw id h Hh Hd). congruence.
Qed.

(** ** Runs *)
Tactic Notation "run" uconstr(rule) := eapply rtc_l; [eapply rule; vm_compute; reflexivity|].
Definition plain : list start_call := [CallStart ":80"].
Lemma graceful_run : ∃ w, rtc whs_step (init_whs DefaultServerConfig plain 1 0) w ∧
  stops w = [XReturned (XDrained 0)] ∧ starts w = [TReturned ErrServerClosed].
Proof.
  eexists. split.
  { run (ws_store _ 0). run (ws_listen _ 0). run (ws_connect _ 0). run (ws_request _ 0).
    eapply rtc_l; [eapply (ws_stop _ 0 XCall); [vm_compute; reflexivity|by eapply x_begin]|].
    eapply rtc_l; [eapply (ws_stop _ 0 (XPoll 0)); [vm_compute; reflexivity|eapply x_poll; vm_compute; reflexivity]|].
    run (ws_closed _ 0). run (ws_answered _ 0).
    eapply rtc_l; [eapply (ws_stop _ 0 (XPoll 0)); [vm_compute; reflexivity|eapply x_poll; vm_compute; reflexivity]|].
    apply rtc_refl. }
  split; vm_compute; reflexivity.
Qed.
Lemma web_shutdown_final_witness : ∃ w h, whs_reachable w ∧ stops w = [XReturned (XDrained 0)] ∧
  servers w !! 0 = Some h ∧ h_serving h = false ∧ h_idle h = 0 ∧ h_busy h = 0.
Proof.
  destruct graceful_run as (w & Hr & Hs & _).
  assert (Hre : whs_reachable w) by (by exists DefaultServerConfig, plain, 1, 0).
  destruct (web_shutdown_final w Hre) as (H & _). destruct (H 0 0) as (h & Hh & Hq); [left; by rewrite Hs|].
  exists w, h. split; [exact Hre|]. split; [exact Hs|]. split; [exact Hh|exact Hq].
Defined.

(** A signal that comes before the goroutine has stored its server: the call returns
    nil, and the server starts serving afterwards. *)
Lemma early_signal_is_lost : ∃ w h, rtc whs_step (init_whs DefaultServerConfig plain 0 1) w ∧
  mains w = [MReturned None] ∧ servers w = [h] ∧ h_serving h = true ∧ h_inShutdown h = false.
Proof.
  eexists _, _. split.
  { run (ws_signal _ 0).
    eapply rtc_l; [eapply (ws_main_stop _ 0 0 XCall); [vm_compute; reflexivity|by eapply x_none]|].
    run (ws_main_done _ 0). run (ws_store _ 0). run (ws_listen _ 0). apply rtc_refl. }
  split_and!; vm_compute; reflexivity.
Qed.
(** After a second [Start] only its server is shut down; the first serves on. *)
Lemma second_start_orphans_first : ∃ w h0 h1, rtc whs_step (init_whs DefaultServerConfig [CallStart ":80"; CallStart ":81"] 1 0) w ∧
  stops w = [XReturned (XDrained 1)] ∧ servers w = [h0; h1] ∧ h_serving h0 = true ∧ h_inShutdown h0 = false.
Proof.
  eexists _, _, _. split.
  { run (ws_store _ 0). run (ws_listen _ 0). run (ws_store _ 1). run (ws_listen _ 1).
    eapply rtc_l; [eapply (ws_stop _ 0 XCall); [vm_compute; reflexivity|by eapply x_begin]|].
    eapply rtc_l; [eapply (ws_stop _ 0 (XPoll 1)); [vm_compute; reflexivity|eapply x_poll; vm_compute; reflexivity]|].
    apply rtc_refl. }
  split_and!; vm_compute; reflexivity.
Qed.
