(* ===== verification/WebMiddleware.v ===== *)
(** * Middlewares of package web

    Models the packages under [src/web/middleware]: cors, bodysize, recovery,
    errhdl, requestid, timeout, gzip and accesslog.  Each [X_Build] is the
    middleware returned by that package's [Build], as a transformer of handlers. *)

From stdpp Require Import pretty.
From S2P Require Import Prelude GoStrings WebContext WebServer.

(** ** cors *)
Module Cors.
Record MiddlewareBuilder := mk {
  allowOrigins : list string; allowMethods : list string; allowHeaders : list string;
  exposeHeaders : list string; allowCredentials : bool; maxAge : Z }.

Definition defaultMaxAge : Z := 12 * 60 * 60.
Definition Create : MiddlewareBuilder :=
  mk [] ["GET"; "POST"; "PUT"; "DELETE"; "PATCH"; "OPTIONS"; "HEAD"] [] [] false defaultMaxAge.
Definition AllowOrigins (mb : MiddlewareBuilder) (os : list string) : MiddlewareBuilder :=
  mk os (allowMethods mb) (allowHeaders mb) (exposeHeaders mb) (allowCredentials mb) (maxAge mb).
Definition AllowMethods (mb : MiddlewareBuilder) (ms : list string) : MiddlewareBuilder :=
  mk (allowOrigins mb) ms (allowHeaders mb) (exposeHeaders mb) (allowCredentials mb) (maxAge mb).
Definition AllowHeaders (mb : MiddlewareBuilder) (hs : list string) : MiddlewareBuilder :=
  mk (allowOrigins mb) (allowMethods mb) hs (exposeHeaders mb) (allowCredentials mb) (maxAge mb).
Definition ExposeHeaders (mb : MiddlewareBuilder) (hs : list string) : MiddlewareBuilder :=
  mk (allowOrigins mb) (allowMethods mb) (allowHeaders mb) hs (allowCredentials mb) (maxAge mb).
Definition AllowCredentials (mb : MiddlewareBuilder) (b : bool) : MiddlewareBuilder :=
  mk (allowOrigins mb) (allowMethods mb) (allowHeaders mb) (exposeHeaders mb) b (maxAge mb).
Definition MaxAge (mb : MiddlewareBuilder) (seconds : Z) : MiddlewareBuilder :=
  mk (allowOrigins mb) (allowMethods mb) (allowHeaders mb) (exposeHeaders mb) (allowCredentials mb) seconds.

Definition hasWildcardOrigin (mb : MiddlewareBuilder) : bool :=
  existsb (λ o, bool_decide (o = "*")) (allowOrigins mb).

Fixpoint match_in (os : list string) (origin : string) : string :=
  match os with
  | [] => ""
  | o :: os' => if bool_decide (o = "*") then "*"
                else if bool_decide (o = origin) then origin
                else match_in os' origin
  end.
Definition matchOrigin (mb : MiddlewareBuilder) (origin : string) : string :=
  if bool_decide (origin = "") then "" else match_in (allowOrigins mb) origin.

(** The header values set on a preflight answer. *)
Definition preflight_headers (mb : MiddlewareBuilder) (allowOrigin : string) (h : Hdr) : Hdr :=
  let h := hdr_set h "Access-Control-Allow-Origin" allowOrigin in
  let h := if allowCredentials mb then hdr_set h "Access-Control-Allow-Credentials" "true" else h in
  let h := if bool_decide (allowMethods mb = []) then h
           else hdr_set h "Access-Control-Allow-Methods" (join ", " (allowMethods mb)) in
  let h := if bool_decide (allowHeaders mb = []) then h
           else hdr_set h "Access-Control-Allow-Headers" (join ", " (allowHeaders mb)) in
  let h := if (0 <? maxAge mb)%Z then hdr_set h "Access-Control-Max-Age" (pretty (maxAge mb)) else h in
  hdr_add h "Vary" "Origin".

Definition simple_headers (mb : MiddlewareBuilder) (allowOrigin : string) (c : Context) : Context :=
  let c := SetHeader c "Access-Control-Allow-Origin" allowOrigin in
  let c := if allowCredentials mb then SetHeader c "Access-Control-Allow-Credentials" "true" else c in
  let c := if bool_decide (exposeHeaders mb = []) then c
           else SetHeader c "Access-Control-Expose-Headers" (join ", " (exposeHeaders mb)) in
  SetHeader c "Vary" "Origin".

(** [Build]: [None] is the panic on a wildcard origin with credentials. *)
Definition Build (mb : MiddlewareBuilder) : option Middleware :=
  if hasWildcardOrigin mb && allowCredentials mb then None
  else Some (λ next ctx,
    let origin := hdr_get (ReqHeader (Req ctx)) "Origin" in
    let allowOrigin := matchOrigin mb origin in
    if bool_decide (Method (Req ctx) = "OPTIONS") then
      let ctx := if bool_decide (allowOrigin = "") then ctx
                 else set_Resp ctx (rw_set_hdr (Resp ctx) (preflight_headers mb allowOrigin)) in
      then_ (ctx_WriteHeader ctx 204) (λ ctx, ret (Abort ctx 204 ""))
    else
      next (if bool_decide (allowOrigin = "") then ctx else simple_headers mb allowOrigin ctx)).
End Cors.

(** ** bodysize: [limit] stands for wrapping the request body in [http.MaxBytesReader] *)
Definition bodysize_Build (limit : Z → Request → Request) (maxBytes : Z) : Middleware := λ next ctx,
  if (maxBytes <? ContentLength (Req ctx))%Z then
    let ctx := Abort ctx 413 "Request Entity Too Large" in
    then_ (ctx_WriteHeader ctx 413) (λ ctx, ret (ctx_Write ctx (bytes_of "Request Entity Too Large")))
  else next (set_Req ctx (limit maxBytes (Req ctx))).

(** ** recovery: the deferred [recover]

    [LogFunc]: what calling it does; [None] is nil, and calling that panics.  It gets
    the panic value only, not the context. *)
Record RecoveryBuilder := mkRecovery { LogFunc : option outcome }.
Definition recovery_Create : RecoveryBuilder := mkRecovery (Some Returned).
Definition WithLogFunc (mb : RecoveryBuilder) (logFunc : option outcome) : RecoveryBuilder := mkRecovery logFunc.
Definition call_LogFunc (mb : RecoveryBuilder) : outcome := default Panicked (LogFunc mb).
Definition recovery_Build (mb : RecoveryBuilder) : Middleware := λ next ctx,
  match next ctx with
  | (ctx, Panicked) =>
      then_ (ctx, call_LogFunc mb) (λ ctx, ret (set_data (set_status ctx 500) (bytes_of "Internal Server Error")))
  | (ctx, Returned) => ret ctx
  end.

(** ** errhdl *)
Definition errhdl_RegisterError (m : gmap Z bytes) (code : Z) (resp : bytes) : gmap Z bytes := <[code := resp]> m.
Definition errhdl_Build (m : gmap Z bytes) : Middleware := λ next ctx,
  then_ (next ctx) (λ ctx,
    ret (match m !! RespStatusCode ctx with Some resp => set_data ctx resp | None => ctx end)).

(** ** requestid: [uuid] is the fresh identifier [uuid.New().String()] *)
Definition requestid_Build (headerName uuid : string) : Middleware := λ next ctx,
  let requestID := hdr_get (ReqHeader (Req ctx)) headerName in
  let requestID := if bool_decide (requestID = "") then uuid else requestID in
  let ctx := set_reqid ctx requestID in
  let ctx := SetHeader ctx headerName requestID in
  let ctx := set_Resp ctx (rw_set_hdr (Resp ctx) (λ h, hdr_set h headerName requestID)) in
  next ctx.

(** ** timeout

    The handler runs in its own goroutine on the shared context; which case of
    the [select] fires is the scheduler's choice.  [CaseTimeout now] carries the
    state of the context at that moment, while the handler is still running.  A
    case whose channel is never ready gives [None]. *)
Inductive select_case := CasePanic | CaseDone (expired : bool) | CaseTimeout (now : Context).

Definition timeout_Build (with_ctx : Request → Request) (sel : select_case) (next : HandleFunc) (ctx : Context)
  : option (Context * outcome) :=
  let ctx := set_Req ctx (with_ctx (Req ctx)) in
  match sel, next ctx with
  | CasePanic, (ctx, Panicked) =>
      Some (ret (set_data (set_status ctx 500) (bytes_of "Internal Server Error")))
  | CaseDone expired, (ctx, Returned) =>
      Some (ret (if expired then set_data (set_status ctx 503) (bytes_of "Service Unavailable") else ctx))
  | CaseTimeout now, _ =>
      Some (ret (set_data (set_status now 503) (bytes_of "Service Unavailable")))
  | _, _ => None
  end.

(** ** gzip *)
Definition media_type (contentType : string) : string :=
  trim_space (str_lower (default "" (head (split1 ";" contentType)))).

Definition compressible : list string :=
  ["application/json"; "application/javascript"; "application/x-javascript"; "text/javascript";
   "application/xml"; "text/xml"; "application/xhtml+xml"; "application/atom+xml";
   "application/rss+xml"; "application/ld+json"; "application/manifest+json";
   "application/x-www-form-urlencoded"; "image/svg+xml"].

Definition shouldCompress (contentType : string) : bool :=
  let mediaType := media_type contentType in
  if bool_decide (mediaType = "") then false
  else if String.prefix "text/" mediaType then true
  else bool_decide (mediaType ∈ compressible).

(** [gz level data] is the output of [compress/gzip], [None] for an invalid level. *)
Definition gzip_Build (gz : Z → bytes → option bytes) (MinSize Level : Z) : Middleware := λ next ctx,
  if negb (str_contains "gzip" (hdr_get (ReqHeader (Req ctx)) "Accept-Encoding")) then next ctx
  else
    then_ (next ctx) (λ ctx,
      if (Z.of_nat (length (RespData ctx)) <? MinSize)%Z then ret ctx
      else
        let contentType := hdr_get (default ∅ (RespHeaders ctx)) "Content-Type" in
        if negb (shouldCompress contentType) then ret ctx
        else match gz Level (RespData ctx) with
             | None => ret ctx
             | Some buf =>
                 let ctx := set_data ctx buf in
                 let ctx := SetHeader ctx "Content-Encoding" "gzip" in
                 let ctx := SetHeader ctx "Vary" "Accept-Encoding" in
                 ret (set_headers ctx (h ← RespHeaders ctx; Some (hdr_del h "Content-Length")))
             end).

(** ** accesslog *)
Record accessLog := mkLog {
  al_Host : string; al_Route : string; al_HTTPMethod : string; al_Path : string; al_Status : Z;
  al_LatencyMs : Z; al_RespSize : Z; al_ClientIP : string; al_UserAgent : string }.

(** [split_host] is the host part of [net.SplitHostPort], [None] on error. *)
Definition getClientIP (split_host : string → option string) (req : Request) : string :=
  let xff := hdr_get (ReqHeader req) "X-Forwarded-For" in
  let ip := trim_space (default "" (head (split1 "," xff))) in
  if negb (bool_decide (xff = "")) && negb (bool_decide (ip = "")) then ip
  else
    let xri := hdr_get (ReqHeader req) "X-Real-IP" in
    if negb (bool_decide (xri = "")) then trim_space xri
    else default (RemoteAddr req) (split_host (RemoteAddr req)).

(** The log line is emitted in a deferred call: also when the handler panics,
    in which case the panic goes on. *)
Definition accesslog_Build (split_host : string → option string) (latency : Z) (next : HandleFunc) (ctx : Context)
  : accessLog * (Context * outcome) :=
  let '(ctx, o) := next ctx in
  let status := if (RespStatusCode ctx =? 0)%Z then 200%Z else RespStatusCode ctx in
  (mkLog (Host (Req ctx)) (MatchedRoute ctx) (Method (Req ctx)) (URLPath (Req ctx)) status latency
     (Z.of_nat (length (RespData ctx))) (getClientIP split_host (Req ctx))
     (hdr_get (ReqHeader (Req ctx)) "User-Agent"), (ctx, o)).
