(* ===== verification/WebMiddlewareFacts.v ===== *)
(** * Correctness of the middlewares of package web *)

From stdpp Require Import pretty.
From S2P Require Import Prelude GoStrings Router WebContext WebServer WebServerFacts WebMiddleware.

(** ** cors *)
Section cors.
Import Cors.

Lemma match_in_spec os origin : origin ≠ "" →
  (match_in os origin = "" ∧ "*" ∉ os ∧ origin ∉ os) ∨
  (match_in os origin = "*" ∧ "*" ∈ os) ∨
  (match_in os origin = origin ∧ origin ∈ os).
Proof.
  intros Ho. induction os as [|o os IH]; [left; set_solver|]. cbn [match_in].
  case_bool_decide as E1; [subst; set_solver|].
  case_bool_decide as E2; [subst; set_solver|]. set_solver.
Qed.

Lemma hasWildcard_spec mb : hasWildcardOrigin mb = true ↔ "*" ∈ allowOrigins mb.
Proof.
  unfold hasWildcardOrigin. rewrite existsb_exists. split.
  - intros (o & Hin & ->%bool_decide_eq_true). by apply list_elem_of_In.
  - intros Hin%list_elem_of_In. eexists. split; [done|]. by apply bool_decide_eq_true.
Qed.

(** What the browser is told is the policy: the origin of the request when it is
    listed, a star only when the list contains a star, nothing otherwise. *)
Lemma matchOrigin_spec mb origin :
  (matchOrigin mb origin = "" ∧ (origin = "" ∨ ("*" ∉ allowOrigins mb ∧ origin ∉ allowOrigins mb))) ∨
  (matchOrigin mb origin = "*" ∧ "*" ∈ allowOrigins mb) ∨
  (matchOrigin mb origin = origin ∧ origin ∈ allowOrigins mb).
Proof.
  unfold matchOrigin. case_bool_decide as E; [by left; auto|].
  destruct (match_in_spec (allowOrigins mb) origin E) as [(?&?&?)|[?|?]]; auto.
Qed.

Definition ACAO : string := "Access-Control-Allow-Origin".
Definition ACAC : string := "Access-Control-Allow-Credentials".

Lemma hdr_values_set_other h k k' v : canon k ≠ canon k' → hdr_values (hdr_set h k v) k' = hdr_values h k'.
Proof. intros. rewrite hdr_values_set. by rewrite decide_False. Qed.
Lemma hdr_values_set_same h k v : hdr_values (hdr_set h k v) k = [v].
Proof. rewrite hdr_values_set. by rewrite decide_True. Qed.
Lemma hdr_values_add_other h k k' v : canon k ≠ canon k' → hdr_values (hdr_add h k v) k' = hdr_values h k'.
Proof. intros. rewrite hdr_values_add, decide_False by done. by rewrite app_nil_r. Qed.

Ltac hv := repeat first
  [ rewrite hdr_values_set_same
  | rewrite hdr_values_add_other by (vm_compute; discriminate)
  | rewrite hdr_values_set_other by (vm_compute; discriminate) ].

Lemma preflight_headers_values mb o h :
  hdr_values (preflight_headers mb o h) ACAO = [o] ∧
  hdr_values (preflight_headers mb o h) ACAC =
    (if allowCredentials mb then ["true"] else hdr_values h ACAC).
Proof.
  unfold preflight_headers, ACAO, ACAC.
  destruct (allowCredentials mb), (bool_decide (allowMethods mb = [])), (bool_decide (allowHeaders mb = [])),
    (0 <? maxAge mb)%Z; split; hv; done.
Qed.

Lemma simple_headers_values mb o c h : RespHeaders (simple_headers mb o c) = Some h →
  hdr_values h ACAO = [o] ∧
  hdr_values h ACAC = (if allowCredentials mb then ["true"] else hdr_values (default ∅ (RespHeaders c)) ACAC).
Proof.
  unfold simple_headers, ACAO, ACAC, SetHeader.
  destruct (allowCredentials mb), (bool_decide (exposeHeaders mb = [])); cbn [RespHeaders set_headers default from_option id];
    intros [= <-]; split; hv; done.
Qed.

Lemma simple_headers_req mb o c : Req (simple_headers mb o c) = Req c.
Proof.
  unfold simple_headers, SetHeader.
  by destruct (allowCredentials mb), (bool_decide (exposeHeaders mb = [])).
Qed.

(** The CORS middleware that [Build] accepts is safe.  A preflight request
    never reaches the handler and is answered 204; on a preflight the answer, and
    on any other request the context handed to the handler, allows exactly the
    requesting origin if it is listed (or the star if the list has one) and
    nothing otherwise; and a star is never combined with credentials. *)
Theorem cors_policy mb mw next c (origin := hdr_get (ReqHeader (Req c)) "Origin") :
  Build mb = Some mw → Resp c = newRW → RespHeaders c = None →
  ∃ ao : list string,
    (ao = [] ∧ (origin = "" ∨ ("*" ∉ allowOrigins mb ∧ origin ∉ allowOrigins mb)) ∨
     ao = ["*"] ∧ "*" ∈ allowOrigins mb ∧ allowCredentials mb = false ∨
     ao = [origin] ∧ origin ≠ "" ∧ origin ∈ allowOrigins mb) ∧
    (Method (Req c) = "OPTIONS" → ∃ c' hdr, mw next c = (c', Returned) ∧ done_ c' = true ∧
       rw_sent (Resp c') = Some (204%Z, hdr) ∧ rw_body (Resp c') = [] ∧
       hdr_values hdr ACAO = ao ∧
       hdr_values hdr ACAC = (if allowCredentials mb && bool_decide (ao ≠ []) then ["true"] else [])) ∧
    (Method (Req c) ≠ "OPTIONS" → ∃ c1, mw next c = next c1 ∧ Req c1 = Req c ∧
       hdr_values (default ∅ (RespHeaders c1)) ACAO = ao ∧
       hdr_values (default ∅ (RespHeaders c1)) ACAC
         = (if allowCredentials mb && bool_decide (ao ≠ []) then ["true"] else [])).
Proof.
  intros HB Hr Hh. unfold Build in HB.
  destruct (hasWildcardOrigin mb && allowCredentials mb) eqn:Ew; [done|]. inv HB.
  set (ao := matchOrigin mb origin).
  exists (if bool_decide (ao = "") then [] else [ao]). split; [|split].
  - destruct (matchOrigin_spec mb origin) as [[E H]|[[E H]|[E H]]]; fold ao in E.
    + rewrite E. left. auto.
    + rewrite E. right; left. split; [done|]. split; [done|].
      apply hasWildcard_spec in H. by rewrite H in Ew.
    + destruct (decide (origin = "")) as [E'|E'].
      * left. rewrite E, E'. auto.
      * right; right. rewrite E, bool_decide_false by done. auto.
  - intros Hm. cbv zeta beta. rewrite (bool_decide_true _ Hm). fold origin ao.
    case_bool_decide as Ea; unfold ctx_WriteHeader; cbn; rewrite Hr; cbn; do 2 eexists;
      (split; [reflexivity|]); cbn; (split; [done|]); (split; [reflexivity|]); (split; [done|]).
    + unfold hdr_values. rewrite !lookup_empty, andb_false_r. done.
    + destruct (preflight_headers_values mb ao ∅) as [-> ->].
      split; [done|]. rewrite andb_true_r. unfold hdr_values. by rewrite lookup_empty.
  - intros Hm. cbv zeta beta. rewrite (bool_decide_false _ Hm). fold origin ao. eexists. split; [reflexivity|].
    case_bool_decide as Ea; cbn [bool_decide].
    + rewrite Hh. unfold hdr_values. cbn. rewrite !lookup_empty, andb_false_r. done.
    + split; [apply simple_headers_req|].
      destruct (RespHeaders (simple_headers mb ao c)) as [h|] eqn:E.
      * destruct (simple_headers_values mb ao c h E) as [H1 H2]. rewrite Hh in H2. cbn [default from_option id].
        rewrite H1, H2, andb_true_r. split; [done|]. unfold hdr_values. cbn. by rewrite lookup_empty.
      * exfalso. revert E. unfold simple_headers, SetHeader. done.
Qed.
End cors.

Definition ex_origin : Request := mkReq "OPTIONS" "/x" ∅ {["Origin" := ["http://a"]]} "" "h" 0 true.
Definition ex_cors : Cors.MiddlewareBuilder := Cors.AllowCredentials (Cors.AllowOrigins Cors.Create ["http://a"]) true.
Lemma cors_policy_witness : ∃ mw c' hdr, Cors.Build ex_cors = Some mw ∧
  mw (λ c, (c, Panicked)) (set_Req zero_ctx ex_origin) = (c', Returned) ∧
  rw_sent (Resp c') = Some (204%Z, hdr) ∧ hdr_values hdr ACAO = ["http://a"].
Proof.
  eexists. destruct (cors_policy ex_cors _ (λ c, (c, Panicked)) (set_Req zero_ctx ex_origin) eq_refl eq_refl eq_refl)
    as (ao & Hao & Hpre & _).
  destruct (Hpre eq_refl) as (c' & hdr & H1 & _ & H2 & _ & H3 & _).
  exists c', hdr. split; [reflexivity|]. split; [exact H1|]. split; [exact H2|].
  rewrite H3. destruct Hao as [[E H]|[[E [H _]]|[E _]]].
  - exfalso. destruct H as [H|[_ H]]; [discriminate H|]. apply H. left.
  - exfalso. cbn in H. apply list_elem_of_singleton in H. discriminate H.
  - rewrite E. reflexivity.
Defined.

(** ** bodysize *)
Lemma bodysize_rejects limit n next c : (n < ContentLength (Req c))%Z → Resp c = newRW →
  ∃ c', bodysize_Build limit n next c = (c', Returned) ∧ done_ c' = true ∧
    rw_sent (Resp c') = Some (413%Z, ∅) ∧ rw_body (Resp c') = bytes_of "Request Entity Too Large".
Proof.
  intros Hlt Hw. unfold bodysize_Build. destruct (Z.ltb_spec n (ContentLength (Req c))); [|lia].
  unfold ctx_WriteHeader. cbn. rewrite Hw. eexists. split; [reflexivity|done].
Qed.

(** ** recovery and timeout: panics do not leave the middleware *)
Lemma recovery_returns mb next c : call_LogFunc mb = Returned → (recovery_Build mb next c).2 = Returned.
Proof. intros Hl. unfold recovery_Build. destruct (next c) as [? []]; [done|]. by rewrite Hl. Qed.

Section panics.
Context {Rx : Type} (RxMatch : Rx → string → bool).
Context (range_hdr : Hdr → list (string * list string)).
Context (range_trees : gmap string (node HandleFunc Rx) → list (string * node HandleFunc Rx)).
Hypothesis range_hdr_perm : ∀ h, range_hdr h ≡ₚ map_to_list h.

(** C40: What a panic leads to when recovery is the outermost middleware and its log
    function returns.  Let [c] be the context when a handler or an inner middleware
    panics.  The panic does not escape to net/http and the context goes back to the
    pool blank.  Unless the context is marked done, it is answered as one with status
    500 and the fixed body: when nothing was sent yet, exactly these with the headers
    the context had collected; when a status was sent already, that status stands and
    the text is added to the body.  When the context is marked done nothing is added
    to what was written: a handler that calls [Abort] and then panics is answered by an
    empty 200.  A log function that is nil or panics lets a panic escape. *)
Theorem recovery_contains_panics mb hs ms got rq w0 c :
  srv_mdls hs = recovery_Build mb :: ms →
  chain ms (serve RxMatch range_trees hs) (set_Resp (set_Req zero_ctx rq) w0) = (c, Panicked) →
  ∃ w o, ServeHTTP RxMatch range_hdr range_trees hs got rq w0 = (w, zero_ctx, o) ∧ o = call_LogFunc mb ∧
    (o = Panicked ∨ done_ c = true → w = Resp c) ∧
    (o = Returned → done_ c = false → answered (set_data (set_status c 500) (bytes_of "Internal Server Error")) w) ∧
    (o = Returned → done_ c = false → rw_sent (Resp c) = None → rw_body (Resp c) = [] → Method rq ≠ "HEAD" →
       received rq w = (500%Z, bytes_of "Internal Server Error")).
Proof.
  intros Hm Hp. set (c' := set_data (set_status c 500) (bytes_of "Internal Server Error")).
  unfold ServeHTTP. rewrite reset_zero. unfold flash_middleware. rewrite Hm, chain_cons. unfold recovery_Build at 1. rewrite Hp.
  destruct (call_LogFunc mb); cbn [then_]; [|rewrite reset_zero; eexists _, _; split_and!; done].
  fold c'. unfold ret at 1. cbn [then_]. unfold IsDone. change (done_ c') with (done_ c).
  destruct (done_ c); [cbn [ret]; rewrite reset_zero; eexists _, _; split_and!; done|].
  destruct (flashResp_spec range_hdr range_hdr_perm c') as (c'' & -> & Hc). cbn [status_ok RespStatusCode c' set_data set_status] in *.
  rewrite reset_zero. eexists _, _. split; [reflexivity|]. split_and!; [done|by intros [?|?]|done|].
  intros _ _ Hs Hb Hh. destruct Hc as (H1 & H2 & _). unfold received. rewrite H1, H2, bool_decide_false by done.
  unfold answer_body, answer_status. cbn. by rewrite Hs, Hb.
Qed.
End panics.

Definition ex_panic : Middleware := λ _ c, (SetHeader c "X-A" "1", Panicked).
Definition ex_srv3 : HTTPServer unit := mkServer newRouter [recovery_Build recovery_Create; ex_panic].
Lemma recovery_contains_panics_witness : ∃ w,
  ServeHTTP (λ _ _, false) map_to_list map_to_list ex_srv3 zero_ctx ex_rq newRW = (w, zero_ctx, Returned) ∧
  received ex_rq w = (500%Z, bytes_of "Internal Server Error").
Proof.
  destruct (recovery_contains_panics (λ _ _, false) map_to_list map_to_list (λ h, reflexivity _)
    recovery_Create ex_srv3 [ex_panic] zero_ctx ex_rq newRW (SetHeader (set_Resp (set_Req zero_ctx ex_rq) newRW) "X-A" "1")
    eq_refl eq_refl) as (w & o & H1 & -> & _ & _ & H2).
  exists w. split; [exact H1|]. apply H2; [reflexivity..|discriminate].
Defined.

(** A panic after [Abort] is swallowed as well, but nothing is sent for it: the
    done flag survives the recovery, so the 500 is never written. *)
Example recovery_after_abort_sends_nothing :
  received ex_rq (ServeHTTP (Rx:=unit) (λ _ _, false) map_to_list map_to_list
     (mkServer newRouter [recovery_Build recovery_Create; λ _ c, (Abort c 403 "denied", Panicked)]) zero_ctx ex_rq newRW).1.1 = (200%Z, []).
Proof. reflexivity. Qed.
(** A builder without a log function does not contain panics. *)
Example nil_LogFunc_escapes :
  (ServeHTTP (Rx:=unit) (λ _ _, false) map_to_list map_to_list
     (mkServer newRouter [recovery_Build (WithLogFunc recovery_Create None); ex_panic]) zero_ctx ex_rq newRW).2 = Panicked.
Proof. reflexivity. Qed.

(** The final status is written outside every middleware: a handler that leaves
    an invalid status code panics past recovery. *)
Example invalid_status_escapes_recovery :
  (ServeHTTP (Rx:=unit) (λ _ _, false) map_to_list map_to_list
     (mkServer newRouter [recovery_Build recovery_Create; λ _ c, ret (set_status c 42)]) zero_ctx ex_rq newRW).2 = Panicked.
Proof. reflexivity. Qed.

(** The timeout middleware never panics, and its answer is the handler's, a 500 on
    a panic, or a 503 once the deadline passed, also when the handler finished at
    the same moment. *)
Lemma timeout_outcomes with_ctx sel next c r : timeout_Build with_ctx sel next c = Some r →
  r.2 = Returned ∧
  match sel with
  | CasePanic => RespStatusCode r.1 = 500%Z ∧ (next (set_Req c (with_ctx (Req c)))).2 = Panicked
  | CaseDone true => RespStatusCode r.1 = 503%Z
  | CaseDone false => r = next (set_Req c (with_ctx (Req c)))
  | CaseTimeout now => RespStatusCode r.1 = 503%Z ∧ RespHeaders r.1 = RespHeaders now
  end.
Proof.
  unfold timeout_Build.
  destruct sel as [|[]|now]; destruct (next (set_Req c (with_ctx (Req c)))) as [c' []]; intros H; inv H; done.
Qed.

(** After a timeout the handler is still running on the context, which
    [ServeHTTP] has put back into the pool.  When the next request takes it, the
    late writes of the first handler land in the second request's context: here
    between the second handler's return and [flashResp]. *)
Example timeout_late_write_leaks :
  let late := λ c, set_data c (bytes_of "secret of request 1") in
  let c1 := reset (set_data (set_status (set_Req zero_ctx ex_rq) 503) (bytes_of "Service Unavailable")) in
  let c2 := RespString (set_Resp (set_Req (reset c1) ex_rq) newRW) 200 "answer 2" in
  rw_body (Resp (flashResp map_to_list (late c2)).1) = bytes_of "secret of request 1".
Proof. reflexivity. Qed.

(** ** requestid *)

(** The identifier is written to the response writer and, again, to the header
    map that [flashResp] adds to it: a request that is not aborted answers with
    the header twice. *)
Lemma requestid_header_twice {Rx} (RxMatch : Rx → string → bool) range_trees hs got rq w uuid :
  srv_mdls hs = [requestid_Build "X-Request-Id" uuid] → w = newRW →
  findRoute RxMatch (srv_router hs) (range_trees (srv_router hs)) (Method rq) (URLPath rq) = None →
  hdr_get (ReqHeader rq) "X-Request-Id" = "" →
  ∃ hdr, rw_sent (ServeHTTP RxMatch map_to_list range_trees hs got rq w).1.1 = Some (404%Z, hdr) ∧
    hdr_values hdr "X-Request-Id" = [uuid; uuid].
Proof.
  intros Hm -> Hf Hid. unfold ServeHTTP. rewrite reset_zero, Hm. unfold flash_middleware, chain.
  cbn -[flashResp]. unfold requestid_Build. cbn -[flashResp serve hdr_get]. rewrite Hid. cbn -[flashResp serve].
  rewrite serve_not_found by done. cbn -[flashResp].
  unfold flashResp. cbn. eexists. split; [reflexivity|].
  rewrite add_all_values, hdr_values_set_same. unfold hdr_set. rewrite insert_empty, map_to_list_singleton. done.
Qed.

(** ** gzip *)

(** What a client that understands gzip reads: the body decompressed when the
    response says so. *)
Definition client_body (gunzip : bytes → option bytes) (h : Hdr) (body : bytes) : option bytes :=
  if bool_decide (hdr_get h "Content-Encoding" = "gzip") then gunzip body else Some body.

Section gzip.
Context (gz : Z → bytes → option bytes) (gunzip : bytes → option bytes).
Hypothesis gunzip_gz : ∀ level d b, gz level d = Some b → gunzip b = Some d.

(** Compression is transparent: whatever the handler produced (unless it
    already used a content encoding of its own), a client that decompresses
    according to the response's Content-Encoding reads the handler's body, the
    status is unchanged, and a client that did not offer gzip gets the handler's
    response untouched. *)
Theorem gzip_transparent minsize level next c c1 :
  next c = (c1, Returned) → hdr_get (default ∅ (RespHeaders c1)) "Content-Encoding" = "" →
  ∃ c2, gzip_Build gz minsize level next c = (c2, Returned) ∧
    client_body gunzip (default ∅ (RespHeaders c2)) (RespData c2) = Some (RespData c1) ∧
    RespStatusCode c2 = RespStatusCode c1 ∧ done_ c2 = done_ c1 ∧
    (str_contains "gzip" (hdr_get (ReqHeader (Req c)) "Accept-Encoding") = false → c2 = c1).
Proof.
  intros Hn He. unfold gzip_Build.
  assert (client_body gunzip (default ∅ (RespHeaders c1)) (RespData c1) = Some (RespData c1)) as Hid.
  { unfold client_body. rewrite He. done. }
  destruct (str_contains _ _) eqn:Ea; cbn [negb]; [|by exists c1].
  rewrite Hn. cbn [then_].
  destruct (_ <? minsize)%Z; [by exists c1|].
  destruct (shouldCompress _); cbn [negb]; [|by exists c1].
  destruct (gz level (RespData c1)) as [b|] eqn:Eg; [|by exists c1].
  eexists. split; [reflexivity|]. split; [|done].
  unfold client_body. cbn. unfold hdr_del, hdr_get, hdr_values, hdr_set.
  rewrite lookup_delete_ne by (vm_compute; discriminate).
  rewrite lookup_insert_ne by (vm_compute; discriminate). rewrite lookup_insert_eq. cbn.
  by eapply gunzip_gz.
Qed.
End gzip.

(** A toy compressor: one marker byte. *)
Definition ex_gz (_ : Z) (d : bytes) : option bytes := Some ("z"%char :: d).
Definition ex_gunzip (d : bytes) : option bytes := match d with "z"%char :: d' => Some d' | _ => None end.
Definition ex_rq_gz : Request := mkReq "GET" "/x" ∅ {["Accept-Encoding" := ["gzip"]]} "" "h" 0 true.
Lemma gzip_transparent_witness : ∃ c2,
  gzip_Build ex_gz 3 0 (λ c, ret (RespString c 200 "hello")) (set_Req zero_ctx ex_rq_gz) = (c2, Returned) ∧
  RespData c2 = bytes_of "zhello" ∧
  client_body ex_gunzip (default ∅ (RespHeaders c2)) (RespData c2) = Some (bytes_of "hello").
Proof.
  destruct (gzip_transparent ex_gz ex_gunzip ltac:(intros l d b [= <-]; reflexivity) 3 0
    (λ c, ret (RespString c 200 "hello")) (set_Req zero_ctx ex_rq_gz) _ eq_refl eq_refl)
    as (c2 & H1 & H2 & _).
  exists c2. split; [exact H1|]. split; [|exact H2].
  assert (c2 = (gzip_Build ex_gz 3 0 (λ c, ret (RespString c 200 "hello")) (set_Req zero_ctx ex_rq_gz)).1) as ->
    by (rewrite H1; reflexivity). vm_compute. reflexivity.
Defined.

(** ** accesslog *)
Lemma accesslog_transparent split_host lat next c :
  (accesslog_Build split_host lat next c).2 = next c ∧
  (RespStatusCode (next c).1 = 0%Z → al_Status (accesslog_Build split_host lat next c).1 = 200%Z).
Proof.
  unfold accesslog_Build. destruct (next c) as [c' o]. cbn. split; [done|]. intros ->. done.
Qed.
