(* ===== verification/WebTrace.v ===== *)
(** * Tracing of web requests, and the builders of the middlewares

    Models [src/web/middleware/opentelemetry/tracing.go] with what it records, the
    builders of the other middlewares (their settings and defaults; log functions are
    left out), and the operations of [src/web/context.go] that read a form or a body
    or set a cookie.  The tracer, [http.StatusText] and the form parser are
    parameters. *)

From stdpp Require Import pretty.
From S2P Require Import Prelude GoStrings Router WebContext WebServer WebServerFacts WebMiddleware.

(** ** opentelemetry *)
Record Span := mkSpan {
  sp_name : string; sp_attrs : list (string * string); sp_status : option Z; sp_error : option string; sp_ended : bool }.
Section otel.
(** [with_span]: the request with the context of the span.  [scheme]: of its URL. *)
Context (with_span : Request → Request) (scheme : Request → string) (StatusText : Z → string).
Definition span_Start (req : Request) : Span :=
  mkSpan "http.request" [("http.method", Method req); ("http.url", URLPath req); ("http.host", Host req); ("http.scheme", scheme req)]
    None None false.
Definition span_End (s : Span) : Span := mkSpan (sp_name s) (sp_attrs s) (sp_status s) (sp_error s) true.
Definition span_SetStatus (code : Z) (s : Span) : Span := mkSpan (sp_name s) (sp_attrs s) (Some code) (sp_error s) (sp_ended s).
Definition span_RecordError (e : string) (s : Span) : Span := mkSpan (sp_name s) (sp_attrs s) (sp_status s) (Some e) (sp_ended s).
(** [HTTPError.Error] *)
Definition HTTPError_Error (code : Z) : string := StatusText code.
(** The span is ended in a deferred call, also when the handler panics. *)
Definition otel_Build (next : HandleFunc) (ctx : Context) : Span * (Context * outcome) :=
  let span := span_Start (Req ctx) in
  match next (set_Req ctx (with_span (Req ctx))) with
  | (ctx, Panicked) => (span_End span, (ctx, Panicked))
  | (ctx, Returned) =>
      let statusCode := if (RespStatusCode ctx =? 0)%Z then 200%Z else RespStatusCode ctx in
      let span := span_SetStatus statusCode span in
      let span := if (400 <=? statusCode)%Z then span_RecordError (HTTPError_Error statusCode) span else span in
      (span_End span, (ctx, Returned))
  end.
Definition otel_middleware : Middleware := λ next ctx, (otel_Build next ctx).2.
End otel.

(** ** Builders

    A builder with one setting is that setting. *)
Definition bodysize_Create (maxBytes : Z) : Z := maxBytes.
Definition errhdl_New : gmap Z bytes := ∅.
Definition defaultHeaderName : string := "X-Request-Id".
Definition requestid_Create : string := defaultHeaderName.
Definition WithHeaderName (_ name : string) : string := name.
Definition timeout_Create (timeout : Z) : Z := timeout.
(** [gzip.DefaultCompression] *)
Definition DefaultCompression : Z := -1.
Record gzip_Builder := mkGzip { gz_MinSize : Z; gz_Level : Z }.
Definition gzip_Create : gzip_Builder := mkGzip 1024 DefaultCompression.
Definition WithMinSize (mb : gzip_Builder) (size : Z) : gzip_Builder := mkGzip size (gz_Level mb).
Definition WithLevel (mb : gzip_Builder) (level : Z) : gzip_Builder := mkGzip (gz_MinSize mb) level.
Definition gzip_of (gz : Z → bytes → option bytes) (mb : gzip_Builder) : Middleware := gzip_Build gz (gz_MinSize mb) (gz_Level mb).

(** ** Forms, bodies and cookies *)
(** [StringValue] *)
Record StringValue := mkSV { sv_val : string; sv_err : option string }.
Definition FormValue (ParseForm : Request → Request * option string) (form_value : Request → string → string)
    (c : Context) (key : string) : Context * StringValue :=
  let '(req, err) := ParseForm (Req c) in
  let c := set_Req c req in
  match err with
  | Some e => (c, mkSV "" (Some e))
  | None => (c, mkSV (form_value req key) None)
  end.
Definition FormFile {F} (form_file : Request → string → Request * (string + F)) (c : Context) (key : string) : Context * (string + F) :=
  let '(req, r) := form_file (Req c) key in (set_Req c req, r).
Definition GetRawData (ReadAll : Request → Request * (bytes * option string)) (c : Context) : Context * (bytes * option string) :=
  let '(req, r) := ReadAll (Req c) in (set_Req c req, r).
(** [http.SetCookie] adds a header and does nothing for an invalid cookie, whose text
    is empty. *)
Definition SetCookie (c : Context) (cookie : string) : Context :=
  if bool_decide (cookie = "") then c else set_Resp c (rw_set_hdr (Resp c) (λ h, hdr_add h "Set-Cookie" cookie)).

(** ** What observers record *)
Section observed.
Context {Rx : Type} (RxMatch : Rx → string → bool).
Context (range_hdr : Hdr → list (string * list string)) (range_trees : gmap string (node HandleFunc Rx) → list (string * node HandleFunc Rx)).
Hypothesis range_hdr_perm : ∀ h, range_hdr h ≡ₚ map_to_list h.
Context (with_span : Request → Request) (scheme : Request → string) (StatusText : Z → string).
Abbreviation otel := (otel_Build with_span scheme StatusText).

(** The span of a request that is answered from the context has the status the client
    gets, and an error just for the codes from 400 on. *)
Lemma span_matches_response r ms rq got c
    (hs := mkServer r (otel_middleware with_span scheme StatusText :: ms)) (c0 := set_Resp (set_Req zero_ctx rq) newRW) :
  chain ms (serve RxMatch range_trees hs) (set_Req c0 (with_span rq)) = (c, Returned) →
  done_ c = false → Resp c = newRW → (200 <= RespStatusCode c <= 999)%Z →
  ∃ w, ServeHTTP RxMatch range_hdr range_trees hs got rq newRW = (w, zero_ctx, Returned) ∧
    (received rq w).1 = RespStatusCode c ∧
    let span := (otel (chain ms (serve RxMatch range_trees hs)) c0).1 in
    sp_status span = Some (RespStatusCode c) ∧ sp_ended span = true ∧ (is_Some (sp_error span) ↔ (400 <= RespStatusCode c)%Z).
Proof.
  intros Hc Hd Hw Hr.
  assert (Ho : otel (chain ms (serve RxMatch range_trees hs)) c0
    = (span_End (if (400 <=? RespStatusCode c)%Z then span_RecordError (StatusText (RespStatusCode c))
                   (span_SetStatus (RespStatusCode c) (span_Start scheme rq)) else span_SetStatus (RespStatusCode c) (span_Start scheme rq)), (c, Returned))).
  { unfold otel_Build. change (Req c0) with rq. rewrite Hc. destruct (Z.eqb_spec (RespStatusCode c) 0); [lia|]. done. }
  destruct (ServeHTTP_answers RxMatch range_hdr range_trees range_hdr_perm hs got rq newRW c) as (w & H1 & H2 & _); auto.
  { fold c0. change (srv_mdls hs) with (otel_middleware with_span scheme StatusText :: ms). rewrite chain_cons. unfold otel_middleware. by rewrite Ho. }
  { unfold status_ok. destruct (Z.leb_spec 100 (RespStatusCode c)), (Z.leb_spec (RespStatusCode c) 999); first [lia|by rewrite ?orb_true_r]. }
  assert (H3 : answer_status c = Some (RespStatusCode c)).
  { unfold answer_status. rewrite Hw. cbn. destruct (Z.leb_spec 200 (RespStatusCode c)); [done|lia]. }
  exists w. split; [done|]. split; [unfold received; cbn; by rewrite H2, H3|]. rewrite Ho. simpl. destruct (Z.leb_spec 400 (RespStatusCode c)); simpl.
  - split_and!; [done..|]. split; [done|]. eauto.
  - split_and!; [done..|]. split; [by intros [? ?]|lia].
Qed.
End observed.

(** A file server answers 404 on the writer itself; span and access log say 200. *)
Example static_not_found_recorded_as_ok :
  let serve_file : HandleFunc := λ ctx, ret (set_done (set_Resp ctx (Write (bytes_of "404 page not found") (default newRW (WriteHeader 404 newRW)))) true) in
  let c0 := set_Resp zero_ctx newRW in
  rw_sent (Resp (serve_file c0).1) = Some (404%Z, ∅) ∧
  sp_status (otel_Build id (λ _, "") (λ _, "") serve_file c0).1 = Some 200%Z ∧
  al_Status (accesslog_Build (λ _, None) 0 serve_file c0).1 = 200%Z.
Proof. vm_compute. done. Qed.
(** The span of a request whose handler panics ends without a status or an error. *)
Lemma panicked_span_is_blank with_span scheme StatusText next c c' :
  next (set_Req c (with_span (Req c))) = (c', Panicked) →
  let span := (otel_Build with_span scheme StatusText next c).1 in
  sp_status span = None ∧ sp_error span = None ∧ sp_ended span = true.
Proof. intros H. unfold otel_Build. by rewrite H. Qed.
