(* ===== verification/Stream.v ===== *)
(** * Multiplexed client streams of micro/net

    Models [src/micro/net/stream.go] and the request and response types of
    [src/micro/net/handler.go].  A stream is one connection shared by concurrent
    calls: calls register a one-slot channel under their request id, the read
    loop dispatches responses by id, and a failure wakes everybody.  Each
    operation below is what runs under the stream's mutex (or is atomic); blocking
    calls are cut into the part before the write, the part after it and the final
    [select]. *)

From S2P Require Import Prelude NetErrors Frame.
Local Open Scope Z_scope.

(** ** Requests and responses *)
Record Request := mkRequest { rq_id : Z; rq_header : bytes; rq_body : bytes; rq_oneway : bool }.
Record Response := mkResponse { rs_id : Z; rs_header : bytes; rs_body : bytes; rs_error : option err }.

(** ** State *)

(** [rpcResult] is only ever built with one of its two fields set. *)
Inductive rpcResult := RFrame (f : Frame) | RErr (e : err).

(** A channel with capacity one.  [owner] is the request id it was made for. *)
Record chan := mkChan { owner : Z; buf : option rpcResult }.

Record stream := mkStream {
  pending : gmap Z nat;
  closed : bool;
  closeErr : option err;
  chans : list chan;
  inflight : Z;
  lastActive : Z;
  createdAt : Z;
  connOpen : bool }.

Definition newStream (now : Z) : stream := mkStream ∅ false None [] 0 now now true.

Definition set_chans (s : stream) (cs : list chan) : stream :=
  mkStream (pending s) (closed s) (closeErr s) cs (inflight s) (lastActive s) (createdAt s) (connOpen s).
Definition set_pending (s : stream) (p : gmap Z nat) : stream :=
  mkStream p (closed s) (closeErr s) (chans s) (inflight s) (lastActive s) (createdAt s) (connOpen s).
Definition add_inflight (s : stream) (d : Z) : stream :=
  mkStream (pending s) (closed s) (closeErr s) (chans s) (i32 (inflight s + d)) (lastActive s) (createdAt s) (connOpen s).

Definition touch (s : stream) (now : Z) : stream :=
  mkStream (pending s) (closed s) (closeErr s) (chans s) (inflight s) now (createdAt s) (connOpen s).
Definition Inflight (s : stream) : Z := inflight s.
Definition Alive (s : stream) : bool := negb (closed s).

(** ** Channels: [select { case ch <- res: default: }] and a receive *)
Definition chan_send (cs : list chan) (ch : nat) (r : rpcResult) : list chan :=
  match cs !! ch with
  | Some (mkChan o None) => <[ch := mkChan o (Some r)]> cs
  | _ => cs
  end.
Definition chan_recv (cs : list chan) (ch : nat) : option (list chan * rpcResult) :=
  match cs !! ch with
  | Some (mkChan o (Some r)) => Some (<[ch := mkChan o None]> cs, r)
  | _ => None
  end.

(** ** Dispatching, failing, registering *)
Definition dispatch (s : stream) (id : Z) (r : rpcResult) : stream :=
  match pending s !! id with
  | None => s
  | Some ch =>
      let s := set_pending s (delete id (pending s)) in
      set_chans s (chan_send (chans s) ch r)
  end.

(** [failAll]; a nil error is replaced by [errConnClosed]. *)
Definition failAll (s : stream) (e : option err) : stream :=
  let e := default (sent errConnClosed) e in
  if closed s then s
  else
    let waiting := (map_to_list (pending s)).*2 in
    mkStream ∅ true (Some e)
      (foldl (λ cs ch, chan_send cs ch (RErr e)) (chans s) waiting)
      (inflight s) (lastActive s) (createdAt s) false.
Definition Close (s : stream) : stream := failAll s (Some (sent errConnClosed)).

Definition register (s : stream) (id : Z) : stream * (err + nat) :=
  if closed s then (s, inl (default (sent errConnClosed) (closeErr s)))
  else match pending s !! id with
       | Some _ => (s, inl (errors_new "client: duplicate request id"))
       | None =>
           let ch := length (chans s) in
           (set_pending (set_chans s (chans s ++ [mkChan id None])) (<[id := ch]> (pending s)), inr ch)
       end.
Definition unregister (s : stream) (id : Z) : stream := set_pending s (delete id (pending s)).

(** ** The read loop *)

(** The read deadline: the longest of the read timeout, the idle timeout and
    three heartbeats; [None] is no deadline. *)
Definition read_wait (readTimeout idle hb : Z) : option Z :=
  if 0 <? readTimeout then
    let wait := readTimeout in
    let wait := if wait <? idle then idle else wait in
    let wait := if (0 <? hb) && (wait <? i64 (hb * 3)) then i64 (hb * 3) else wait in
    Some wait
  else None.

(** One iteration with the result of [readFrame]: the new state, a frame to send
    back, and whether the loop goes on. *)
Definition readLoop_step (s : stream) (now : Z) (r : err + Frame) : stream * option Frame * bool :=
  match r with
  | inl e => (failAll s (Some e), None, false)
  | inr frame =>
      let s := touch s now in
      let t := MsgType frame in
      if (t =? MessageTypePong) || (t =? MessageTypeHeartbeat) then
        if (t =? MessageTypePong) || negb (RequestID frame =? 0)
        then (dispatch s (RequestID frame) (RFrame frame), None, true)
        else (s, None, true)
      else if t =? MessageTypeResponse then
        (dispatch s (RequestID frame) (RFrame frame), None, true)
      else if t =? MessageTypePing then
        (s, Some (NewFrame MessageTypePong (RequestID frame) [] []), true)
      else (s, None, true)
  end.

(** ** Calls *)

(** Up to the write: the checks, the in-flight counter, the frame and the
    registration of the response channel. *)
Definition Call_begin (s : stream) (ctxErr : option err) (now : Z) (req : Request)
  : stream * (err + Frame * option nat) :=
  match ctxErr with
  | Some e => (s, inl e)
  | None =>
      if negb (Alive s) then (s, inl (sent errConnClosed))
      else
        let s := touch (add_inflight s 1) now in
        let frame := NewFrame MessageTypeRequest (rq_id req) (rq_header req) (rq_body req) in
        if rq_oneway req then (s, inr (with_flag frame FlagOneWay, None))
        else match register s (rq_id req) with
             | (s, inl e) => (add_inflight s (-1), inl e)
             | (s, inr ch) => (s, inr (frame, Some ch))
             end
  end.

(** The deferred calls of a call that got past the registration. *)
Definition Call_defer (s : stream) (req : Request) : stream :=
  add_inflight (if rq_oneway req then s else unregister s (rq_id req)) (-1).

(** After the write, with its result [wr]: [None] means the call goes on waiting. *)
Definition Call_written (s : stream) (ctxErr : option err) (req : Request) (wr : option err)
  : stream * option (err + Response) :=
  match wr with
  | Some e =>
      match ctxErr with
      | Some ce => (Call_defer s req, Some (inl ce))
      | None => (Call_defer (failAll s (Some e)) req, Some (inl e))
      end
  | None =>
      if rq_oneway req then (Call_defer s req, Some (inr (mkResponse (rq_id req) [] [] None)))
      else (s, None)
  end.

(** The final [select]: the context is done ([ctxErr] is its error), or a result
    is received from the channel; [None] while neither is ready. *)
Definition result_of (ctxErr : option err) (r : rpcResult) : err + Response :=
  match r with
  | RErr e => inl (default e ctxErr)
  | RFrame f => if IsError f then inl (remoteErrorFromFrame f)
                else inr (mkResponse (RequestID f) (Header f) (Body f) None)
  end.

Inductive ready := CtxDone | Received.

Definition Call_select (s : stream) (ctxErr : option err) (req : Request) (ch : nat) (w : ready)
  : option (stream * (err + Response)) :=
  match w with
  | CtxDone => e ← ctxErr; Some (Call_defer s req, inl e)
  | Received =>
      '(cs, r) ← chan_recv (chans s) ch;
      Some (Call_defer (set_chans s cs) req, result_of ctxErr r)
  end.

(** [Ping]: registers like a call; [Ping_result] judges what was received. *)
Definition Ping_begin (s : stream) (ctxErr : option err) (id : Z) : stream * (err + Frame * nat) :=
  match ctxErr with
  | Some e => (s, inl e)
  | None => match register s id with
            | (s, inl e) => (s, inl e)
            | (s, inr ch) => (s, inr (NewFrame MessageTypePing id [] [], ch))
            end
  end.
Definition Ping_written (s : stream) (id : Z) (wr : option err) : stream * option err :=
  match wr with
  | Some e => (unregister (failAll s (Some e)) id, Some e)
  | None => (s, None)
  end.
Definition Ping_select (s : stream) (ctxErr : option err) (id : Z) (ch : nat) (now : Z) (w : ready)
  : option (stream * option err) :=
  match w with
  | CtxDone => e ← ctxErr; Some (unregister s id, Some e)
  | Received =>
      '(cs, r) ← chan_recv (chans s) ch;
      let s := set_chans s cs in
      match r with
      | RErr e => Some (unregister s id, Some e)
      | RFrame f => if MsgType f =? MessageTypePong then Some (unregister (touch s now) id, None)
                    else Some (unregister s id, Some (errors_new "client: unexpected heartbeat response"))
      end
  end.

(** [writeDeadline]: the earlier of now plus the fallback and the context's
    deadline; [None] is the zero time. *)
Definition writeDeadline (ctxDeadline : option Z) (fallback now : Z) : option Z :=
  let deadline := if 0 <? fallback then Some (now + fallback) else None in
  match ctxDeadline with
  | Some d => match deadline with
              | None => Some d
              | Some dl => if d <? dl then Some d else deadline
              end
  | None => deadline
  end.

(** ** Interleavings

    Every interleaving of callers, heartbeats and the read loop is a sequence of
    these steps. *)
Inductive sstep : stream → stream → Prop :=
| step_begin s ce now req : sstep s (Call_begin s ce now req).1
| step_written s ce req wr : sstep s (Call_written s ce req wr).1
| step_select s ce req ch w s' r : Call_select s ce req ch w = Some (s', r) → sstep s s'
| step_ping s ce id : sstep s (Ping_begin s ce id).1
| step_ping_written s id wr : sstep s (Ping_written s id wr).1
| step_ping_select s ce id ch now w s' r : Ping_select s ce id ch now w = Some (s', r) → sstep s s'
| step_read s now r : sstep s (readLoop_step s now r).1.1
| step_close s : sstep s (Close s).

Definition reachable (s : stream) : Prop := ∃ now, rtc sstep (newStream now) s.

(** ** Invariant *)

(** Results that carry a frame belong to the request id of the channel. *)
Definition belongs (id : Z) (r : rpcResult) : Prop :=
  match r with RFrame f => RequestID f = id | RErr _ => True end.

Record stream_ok (s : stream) : Prop := {
  ok_pending : ∀ id ch, pending s !! id = Some ch → chans s !! ch = Some (mkChan id None);
  ok_owner : ∀ ch o r, chans s !! ch = Some (mkChan o (Some r)) → belongs o r;
  ok_closed : closed s = true → pending s = ∅ ∧ is_Some (closeErr s) }.
