(* ===== verification/StreamFacts.v ===== *)
(** * Correctness of multiplexed streams *)

From S2P Require Import Prelude NetErrors Frame Stream.
Local Open Scope Z_scope.

(** ** Channels *)
Lemma chan_send_lookup cs ch r o : cs !! ch = Some (mkChan o None) →
  chan_send cs ch r !! ch = Some (mkChan o (Some r)).
Proof.
  intros H. unfold chan_send. rewrite H. apply list_lookup_insert_eq. by eapply lookup_lt_Some.
Qed.
Lemma chan_send_other cs ch ch' r : ch ≠ ch' → chan_send cs ch r !! ch' = cs !! ch'.
Proof.
  intros H. unfold chan_send. destruct (cs !! ch) as [[o [r'|]]|]; [done| |done].
  by rewrite list_lookup_insert_ne.
Qed.
Lemma chan_send_length cs ch r : length (chan_send cs ch r) = length cs.
Proof.
  unfold chan_send. destruct (cs !! ch) as [[o [r'|]]|]; [done| |done]. by rewrite length_insert.
Qed.

(** Sending to a list of distinct empty channels fills exactly those. *)
Lemma send_all_lookup r (chs : list nat) : ∀ cs ch, NoDup chs →
  foldl (λ cs ch, chan_send cs ch r) cs chs !! ch =
  if decide (ch ∈ chs)
  then match cs !! ch with Some (mkChan o None) => Some (mkChan o (Some r)) | x => x end
  else cs !! ch.
Proof.
  induction chs as [|c chs IH]; intros cs ch Hnd; cbn [foldl].
  - rewrite decide_False by apply not_elem_of_nil. done.
  - apply NoDup_cons in Hnd as [Hc Hnd]. rewrite IH by done.
    destruct (decide (ch = c)) as [->|Hne].
    + rewrite decide_False by done. rewrite decide_True by set_solver.
      destruct (cs !! c) as [[o [r'|]]|] eqn:E; unfold chan_send; rewrite E; [done| |done].
      apply list_lookup_insert_eq. by eapply lookup_lt_Some.
    + rewrite chan_send_other by done.
      destruct (decide (ch ∈ chs)); [rewrite decide_True by set_solver|rewrite decide_False by set_solver]; done.
Qed.

(** ** The invariant *)
Lemma newStream_ok now : stream_ok (newStream now).
Proof.
  split; cbn; [intros id ch H; by rewrite lookup_empty in H|intros ch o r H; destruct ch; discriminate|done].
Qed.

Lemma waiting_NoDup s : stream_ok s → NoDup (map_to_list (pending s)).*2.
Proof.
  intros Hok. apply NoDup_fmap_2_strong; [|apply NoDup_map_to_list].
  intros [id1 c1] [id2 c2] H1 H2 E. cbn in E. subst c2.
  apply elem_of_map_to_list in H1, H2.
  apply (ok_pending _ Hok) in H1, H2. congruence.
Qed.

Lemma elem_waiting s ch : ch ∈ (map_to_list (pending s)).*2 ↔ ∃ id, pending s !! id = Some ch.
Proof.
  rewrite list_elem_of_fmap. split.
  - intros ([id c] & -> & H%elem_of_map_to_list). eauto.
  - intros (id & H%elem_of_map_to_list). by exists (id, ch).
Qed.

(** States that differ only in counters and times are equally good. *)
Lemma stream_ok_ext s s' : pending s' = pending s → chans s' = chans s → closed s' = closed s →
  closeErr s' = closeErr s → stream_ok s → stream_ok s'.
Proof. intros E1 E2 E3 E4 [H1 H2 H3]. split; rewrite ?E1, ?E2, ?E3, ?E4; done. Qed.

Lemma failAll_ok s e : stream_ok s → stream_ok (failAll s e).
Proof.
  intros Hok. unfold failAll. destruct (closed s) eqn:Ec; [done|].
  split; cbn.
  - intros id ch H. by rewrite lookup_empty in H.
  - intros ch o r. rewrite send_all_lookup by (by apply waiting_NoDup).
    case_decide.
    + destruct (chans s !! ch) as [[o' [r'|]]|] eqn:E; intros H'; [|by inv H'|done].
      inv H'. by eapply ok_owner.
    + by apply ok_owner.
  - by eauto.
Qed.

Lemma dispatch_ok s id r : stream_ok s → belongs id r → stream_ok (dispatch s id r).
Proof.
  intros Hok Hb. unfold dispatch. destruct (pending s !! id) as [ch|] eqn:Hp; [|done].
  pose proof (ok_pending _ Hok _ _ Hp) as Hch. split; cbn.
  - intros id' ch' [Hne H]%lookup_delete_Some. pose proof (ok_pending _ Hok _ _ H) as H'.
    destruct (decide (ch = ch')) as [<-|]; [congruence|]. by rewrite chan_send_other.
  - intros ch' o r' H. destruct (decide (ch = ch')) as [<-|].
    + rewrite (chan_send_lookup _ _ _ _ Hch) in H. by inv H.
    + rewrite chan_send_other in H by done. by eapply ok_owner.
  - intros Hc. destruct (ok_closed _ Hok Hc) as [Hp0 _]. rewrite Hp0 in Hp. by rewrite lookup_empty in Hp.
Qed.

Lemma register_ok s id : stream_ok s → stream_ok (register s id).1.
Proof.
  intros Hok. unfold register. destruct (closed s) eqn:Ec; [done|].
  destruct (pending s !! id) eqn:Hp; [done|]. split; cbn; rewrite ?Ec; [| |done].
  - intros id' ch [[<- <-]|[Hne H]]%lookup_insert_Some; [by apply list_lookup_middle|].
    by apply lookup_app_l_Some, (ok_pending _ Hok).
  - intros ch o r [H|[_ H]]%lookup_app_Some; [by eapply ok_owner|].
    apply list_lookup_singleton_Some in H as [_ H]. discriminate.
Qed.

Lemma unregister_ok s id : stream_ok s → stream_ok (unregister s id).
Proof.
  intros Hok. split; cbn.
  - intros id' ch [_ H]%lookup_delete_Some. by apply (ok_pending _ Hok).
  - apply (ok_owner _ Hok).
  - intros Hc. destruct (ok_closed _ Hok Hc) as [-> Hs]. by rewrite delete_empty.
Qed.

Lemma chan_recv_Some cs ch cs' r : chan_recv cs ch = Some (cs', r) →
  ∃ o, cs !! ch = Some (mkChan o (Some r)) ∧ cs' = <[ch := mkChan o None]> cs.
Proof.
  unfold chan_recv. destruct (cs !! ch) as [[o [r'|]]|] eqn:E; intros H; inv H. eauto.
Qed.

Lemma recv_ok s ch cs r : stream_ok s → chan_recv (chans s) ch = Some (cs, r) → stream_ok (set_chans s cs).
Proof.
  intros Hok (o & Hch & ->)%chan_recv_Some. pose proof (lookup_lt_Some _ _ _ Hch). split; cbn.
  - intros id c H'. pose proof (ok_pending _ Hok _ _ H') as H''.
    rewrite list_lookup_insert_ne by congruence. done.
  - intros c o' r' H'. destruct (decide (ch = c)) as [<-|].
    + rewrite list_lookup_insert_eq in H' by done. discriminate.
    + rewrite list_lookup_insert_ne in H' by done. by eapply ok_owner.
  - apply (ok_closed _ Hok).
Qed.

Lemma add_inflight_ok s d : stream_ok s → stream_ok (add_inflight s d).
Proof. by apply stream_ok_ext. Qed.
Lemma touch_ok s now : stream_ok s → stream_ok (touch s now).
Proof. by apply stream_ok_ext. Qed.

Lemma defer_ok s req : stream_ok s → stream_ok (Call_defer s req).
Proof.
  intros. unfold Call_defer. apply add_inflight_ok. destruct (rq_oneway req); [done|].
  by apply unregister_ok.
Qed.

#[local] Hint Resolve failAll_ok dispatch_ok register_ok unregister_ok recv_ok defer_ok newStream_ok
  add_inflight_ok touch_ok : soil.
#[local] Hint Extern 1 (belongs _ _) => exact eq_refl : soil.

Lemma Call_begin_ok s ce now req : stream_ok s → stream_ok (Call_begin s ce now req).1.
Proof.
  intros Hok. unfold Call_begin. destruct ce; [done|]. destruct (Alive s); cbn [negb]; [|done].
  destruct (rq_oneway req); [cbn; auto with soil|].
  pose proof (register_ok (touch (add_inflight s 1) now) (rq_id req)) as Hr.
  destruct (register _ _) as [s' [e|ch]]; cbn in *; auto 6 with soil.
Qed.

Lemma sstep_ok s s' : stream_ok s → sstep s s' → stream_ok s'.
Proof.
  intros Hok Hs. destruct Hs as [s ce now req|s ce req wr|s ce req ch w s' r E|s ce id|s id wr|s ce id ch now w s' r E|s now r|s].
  - by apply Call_begin_ok.
  - unfold Call_written. destruct wr as [e|], ce as [ce|], (rq_oneway req); cbn; auto with soil.
  - unfold Call_select in E. destruct w.
    + destruct ce as [e|]; cbn in E; inv E. auto with soil.
    + destruct (chan_recv (chans s) ch) as [[cs r']|] eqn:Er; cbn in E; inv E. eauto with soil.
  - unfold Ping_begin. destruct ce; [done|]. pose proof (register_ok s id Hok) as Hr.
    destruct (register s id) as [s' [e|ch]]; done.
  - unfold Ping_written. destruct wr; cbn; auto with soil.
  - unfold Ping_select in E. destruct w.
    + destruct ce as [e|]; cbn in E; inv E. auto with soil.
    + destruct (chan_recv (chans s) ch) as [[cs r']|] eqn:Er; cbn in E; [|done].
      destruct r' as [f|e]; [destruct (MsgType f =? MessageTypePong)|]; inv E; eauto with soil.
  - unfold readLoop_step. destruct r as [e|f]; cbn [fst snd]; [auto with soil|].
    repeat case_match; cbn [fst snd]; auto with soil.
  - unfold Close. auto with soil.
Qed.

Lemma reachable_ok s : reachable s → stream_ok s.
Proof. intros [now H]. by eapply rtc_invariant; [apply sstep_ok|exact H|apply newStream_ok]. Qed.

(** ** Theorems *)

(** C13: Multiplexing is sound in every interleaving of callers, heartbeats, the
    read loop and closing: a response that a call receives carries the call's own
    request id (the channel belongs to that id), so answers are never swapped
    between concurrent calls; the result is the peer's response, its error, the
    stream's failure or the caller's context error. *)
Theorem stream_answers_match s ce req ch b s' r :
  reachable s → chans s !! ch = Some (mkChan (rq_id req) b) →
  Call_select s ce req ch Received = Some (s', r) →
  match r with
  | inr resp => rs_id resp = rq_id req
  | inl e => Some e = ce ∨ ∃ x, chans s !! ch = Some (mkChan (rq_id req) (Some x)) ∧
               match x with
               | RErr e' => e = e' ∧ ce = None
               | RFrame f => RequestID f = rq_id req ∧ IsError f = true ∧ e = remoteErrorFromFrame f
               end
  end.
Proof.
  intros Hr Ho Hs. pose proof (reachable_ok _ Hr) as Hok. unfold Call_select in Hs.
  destruct (chan_recv (chans s) ch) as [[cs x]|] eqn:E; [|done]. cbn in Hs. inv Hs.
  apply chan_recv_Some in E as (o & Hch & ->).
  assert (o = rq_id req) as -> by congruence.
  pose proof (ok_owner _ Hok _ _ _ Hch) as Hb. destruct x as [f|e]; cbn in Hb |- *.
  - destruct (IsError f) eqn:Ee; cbn; [|done]. right. by exists (RFrame f).
  - destruct ce as [c|]; cbn; [by left|]. right. by exists (RErr e).
Qed.

Lemma failAll_spec s e : stream_ok s → closed s = false →
  closed (failAll s e) = true ∧ pending (failAll s e) = ∅ ∧
  (∀ id ch, pending s !! id = Some ch →
     chans (failAll s e) !! ch = Some (mkChan id (Some (RErr (default (sent errConnClosed) e))))).
Proof.
  intros Hok Hc. unfold failAll. rewrite Hc. cbn. split_and!; [done|done|]. intros id ch Hp.
  rewrite send_all_lookup by (by apply waiting_NoDup).
  rewrite decide_True by (apply elem_waiting; eauto).
  by rewrite (ok_pending _ Hok _ _ Hp).
Qed.

(** C25: No wake-up is lost: in every reachable state a waiting call's channel is
    empty, so the non-blocking sends never drop a result; a response with the
    waiting id is delivered to that call and to no other, and when the connection
    fails or is closed every waiting call receives the error. *)
Theorem stream_no_lost_wakeup s id ch f e : reachable s → pending s !! id = Some ch →
  chans (dispatch s id (RFrame f)) !! ch = Some (mkChan id (Some (RFrame f))) ∧
  pending (dispatch s id (RFrame f)) = delete id (pending s) ∧
  (∀ ch', ch' ≠ ch → chans (dispatch s id (RFrame f)) !! ch' = chans s !! ch') ∧
  chans (failAll s (Some e)) !! ch = Some (mkChan id (Some (RErr e))).
Proof.
  intros Hr Hp. pose proof (reachable_ok _ Hr) as Hok. pose proof (ok_pending _ Hok _ _ Hp) as Hch.
  unfold dispatch. rewrite Hp. cbn. split_and!.
  - by apply chan_send_lookup.
  - done.
  - intros ch' Hne. by apply chan_send_other.
  - destruct (closed s) eqn:Hc.
    { destruct (ok_closed _ Hok Hc) as [Hp0 _]. rewrite Hp0 in Hp. by rewrite lookup_empty in Hp. }
    by apply (failAll_spec s (Some e)).
Qed.

(** Once closed, a stream stays closed and refuses every registration with the
    error that closed it. *)
Lemma closed_refuses s id : stream_ok s → closed s = true →
  ∃ e, closeErr s = Some e ∧ register s id = (s, inl e).
Proof.
  intros Hok Hc. destruct (ok_closed _ Hok Hc) as [_ [e He]]. exists e. split; [done|].
  unfold register. by rewrite Hc, He.
Qed.

(** The write deadline never exceeds the context's. *)
Lemma writeDeadline_bound d fallback now : ∃ w, writeDeadline (Some d) fallback now = Some w ∧ w <= d.
Proof.
  unfold writeDeadline. destruct (0 <? fallback); [|eexists; split; [done|lia]].
  destruct (Z.ltb_spec d (now + fallback)); eexists; (split; [done|lia]).
Qed.

(** ** Witnesses *)
Definition ex_req : Request := mkRequest 7 [] [] false.
Definition ex_s1 : stream := (Call_begin (newStream 0) None 1 ex_req).1.
Definition ex_f : Frame := NewFrame MessageTypeResponse 7 [] (bytes_of "ok").
Definition ex_s2 : stream := (readLoop_step ex_s1 2 (inr ex_f)).1.1.
Lemma ex_s1_reachable : reachable ex_s1.
Proof. exists 0. apply rtc_once. apply (step_begin _ None 1 ex_req). Qed.
Lemma ex_s2_reachable : reachable ex_s2.
Proof.
  destruct ex_s1_reachable as [now H]. exists now. eapply rtc_r; [exact H|]. apply (step_read ex_s1 2 (inr ex_f)).
Qed.
Lemma stream_answers_match_witness : ∃ s' resp,
  Call_select ex_s2 None ex_req 0 Received = Some (s', inr resp) ∧ rs_id resp = 7.
Proof.
  eexists _, _. split; [reflexivity|].
  exact (stream_answers_match ex_s2 None ex_req 0 _ _ _ ex_s2_reachable eq_refl eq_refl).
Defined.
Lemma stream_no_lost_wakeup_witness :
  chans (failAll ex_s1 (Some (sent EOF))) !! 0%nat = Some (mkChan 7 (Some (RErr (sent EOF)))).
Proof.
  apply (stream_no_lost_wakeup ex_s1 7 0 ex_f (sent EOF) ex_s1_reachable). reflexivity.
Defined.
