(* ===== verification/StreamPool.v ===== *)
(** * Stream pools of micro/net

    Models [src/micro/net/pool.go].  Streams are shared objects: the pool holds
    references (indices into a store of streams), callers hold the same
    references, and a stream can die at any time.  [Get] releases the pool's mutex
    while dialling, so it is cut into the iteration under the lock ([Get_iter]) and
    the continuation after a dial ([Get_dialed]). *)

From S2P Require Import Prelude NetErrors Frame Stream.
Local Open Scope Z_scope.

Record counters := mkCounters {
  dialCount : Z; closedIdle : Z; closedLife : Z; closedBad : Z; heartbeatOK : Z; heartbeatErr : Z }.

Record streamPool := mkPool {
  maxOpen : nat;
  idleTimeout : Z; maxLifetime : Z; heartbeatInterval : Z; heartbeatTimeout : Z;
  streams : list nat;
  dialing : nat;
  pclosed : bool;
  cnt : counters }.

Definition newStreamPool (maxOpenConns idle life hbi hbt : Z) : streamPool :=
  let mo := if maxOpenConns <=? 0 then 1 else maxOpenConns in
  mkPool (Z.to_nat mo) idle life hbi hbt [] 0 false (mkCounters 0 0 0 0 0 0).

(** ** The store of streams *)
Abbreviation store := (gmap nat stream).
Definition alive (st : store) (i : nat) : bool := match st !! i with Some s => Alive s | None => false end.
Definition load (st : store) (i : nat) : Z := match st !! i with Some s => Inflight s | None => 0 end.
Definition close_in (st : store) (i : nat) : store := alter Close i st.

Definition set_streams (p : streamPool) (l : list nat) : streamPool :=
  mkPool (maxOpen p) (idleTimeout p) (maxLifetime p) (heartbeatInterval p) (heartbeatTimeout p)
    l (dialing p) (pclosed p) (cnt p).
Definition set_dialing (p : streamPool) (n : nat) : streamPool :=
  mkPool (maxOpen p) (idleTimeout p) (maxLifetime p) (heartbeatInterval p) (heartbeatTimeout p)
    (streams p) n (pclosed p) (cnt p).
Definition set_cnt (p : streamPool) (c : counters) : streamPool :=
  mkPool (maxOpen p) (idleTimeout p) (maxLifetime p) (heartbeatInterval p) (heartbeatTimeout p)
    (streams p) (dialing p) (pclosed p) c.

Definition add_bad (c : counters) (n : nat) : counters :=
  mkCounters (dialCount c) (closedIdle c) (closedLife c) (i64 (closedBad c + Z.of_nat n)) (heartbeatOK c) (heartbeatErr c).
Definition add_idle (c : counters) : counters :=
  mkCounters (dialCount c) (i64 (closedIdle c + 1)) (closedLife c) (closedBad c) (heartbeatOK c) (heartbeatErr c).
Definition add_life (c : counters) : counters :=
  mkCounters (dialCount c) (closedIdle c) (i64 (closedLife c + 1)) (closedBad c) (heartbeatOK c) (heartbeatErr c).
Definition add_dial (c : counters) : counters :=
  mkCounters (i64 (dialCount c + 1)) (closedIdle c) (closedLife c) (closedBad c) (heartbeatOK c) (heartbeatErr c).
Definition add_hb (c : counters) (ok : bool) : counters :=
  if ok then mkCounters (dialCount c) (closedIdle c) (closedLife c) (closedBad c) (i64 (heartbeatOK c + 1)) (heartbeatErr c)
  else mkCounters (dialCount c) (closedIdle c) (closedLife c) (closedBad c) (heartbeatOK c) (i64 (heartbeatErr c + 1)).

(** ** Operations under the lock *)
Definition compactLocked (p : streamPool) (st : store) : streamPool :=
  let kept := List.filter (alive st) (streams p) in
  set_cnt (set_streams p kept) (add_bad (cnt p) (length (streams p) - length kept)).

Fixpoint pick_loop (st : store) (l : list nat) (best : option nat) (bestLoad : Z) : option nat :=
  match l with
  | [] => best
  | s :: l' =>
      if negb (alive st s) then pick_loop st l' best bestLoad
      else
        let ld := load st s in
        match best with
        | None => pick_loop st l' (Some s) ld
        | Some _ => if ld <? bestLoad then pick_loop st l' (Some s) ld else pick_loop st l' best bestLoad
        end
  end.
Definition pickLocked (p : streamPool) (st : store) : option nat := pick_loop st (streams p) None (-1).

Definition removeLocked (p : streamPool) (target : nat) : streamPool :=
  set_streams p (List.filter (λ s, negb (s =? target)%nat) (streams p)).

(** ** Get *)
Inductive get_out := GErr (e : err) | GStream (s : nat) | GDial | GWait.

(** One iteration.  Streams live and die outside the pool's mutex, so the scans of
    one iteration may see different states of the store: [st] is what compaction
    sees, [st1] the first pick and its load test, [st2] the last pick. *)
Definition Get_iter (p : streamPool) (st st1 st2 : store) (ctxErr : option err) : streamPool * get_out :=
  if pclosed p then (p, GErr (sent errPoolClosed))
  else match ctxErr with
  | Some e => (p, GErr e)
  | None =>
      let p := compactLocked p st in
      let full := (maxOpen p <=? length (streams p) + dialing p)%nat in
      let reuse := match pickLocked p st1 with
                   | Some s => if full || (load st1 s <? 32) then Some s else None
                   | None => None
                   end in
      match reuse with
      | Some s => (p, GStream s)
      | None =>
          if (length (streams p) + dialing p <? maxOpen p)%nat
          then (set_dialing p (S (dialing p)), GDial)
          else match pickLocked p st2 with
               | Some s => (p, GStream s)
               | None => (p, GWait)
               end
      end
  end.

(** [dialStream] succeeded: the counter and the new stream. *)
Definition dialed (p : streamPool) (st : store) (i : nat) (now : Z) : streamPool * store :=
  (set_cnt p (add_dial (cnt p)), <[i := newStream now]> st).

(** After the dial, with the lock held again; [None] is [continue]. *)
Definition Get_dialed (p : streamPool) (st : store) (r : err + nat) : streamPool * store * option (err + nat) :=
  let p := set_dialing p (dialing p - 1) in
  match r with
  | inl e => (p, st, Some (inl e))
  | inr s =>
      if pclosed p then (p, close_in st s, Some (inl (sent errPoolClosed)))
      else
        let p := compactLocked p st in
        if (maxOpen p <=? length (streams p))%nat then
          let st := close_in st s in
          match pickLocked p st with
          | Some x => (p, st, Some (inr x))
          | None => (p, st, None)
          end
        else (set_streams p (streams p ++ [s]), st, Some (inr s))
  end.

(** [waitLocked]: the checks before and after [cond.Wait]. *)
Definition waitLocked_before (ctxErr : option err) : option err := ctxErr.
Definition waitLocked_after (p : streamPool) (ctxErr : option err) : option err :=
  if pclosed p then Some (sent errPoolClosed) else ctxErr.

(** ** Maintenance *)

(** The verdict on one stream. *)
Inductive verdict := VBad | VLife | VIdle | VKeep (ping : bool).
Definition judge (p : streamPool) (st : store) (now : Z) (i : nat) : verdict :=
  match st !! i with
  | None => VBad
  | Some s =>
      if negb (Alive s) then VBad
      else if (0 <? maxLifetime p) && (maxLifetime p <? now - createdAt s) && (Inflight s =? 0) then VLife
      else if (0 <? idleTimeout p) && (Inflight s =? 0) && (idleTimeout p <? now - lastActive s) then VIdle
      else VKeep ((0 <? heartbeatInterval p) && (heartbeatInterval p <=? now - lastActive s))
  end.

Fixpoint maintain_loop (p : streamPool) (st : store) (now : Z) (l : list nat) (c : counters)
  : counters * list nat * list nat * list nat :=
  match l with
  | [] => (c, [], [], [])
  | s :: l' =>
      match judge p st now s with
      | VBad => maintain_loop p st now l' (add_bad c 1)
      | VLife => let '(c, toClose, toPing, keep) := maintain_loop p st now l' (add_life c) in
                 (c, s :: toClose, toPing, keep)
      | VIdle => let '(c, toClose, toPing, keep) := maintain_loop p st now l' (add_idle c) in
                 (c, s :: toClose, toPing, keep)
      | VKeep ping => let '(c, toClose, toPing, keep) := maintain_loop p st now l' c in
                      (c, toClose, if ping then s :: toPing else toPing, s :: keep)
      end
  end.

(** [maintain] up to the pings: the new pool, the store with the retired streams
    closed, and the streams to ping; [st] is what compaction sees, [st1] the scan. *)
Definition maintain (p : streamPool) (st st1 : store) (now : Z) : streamPool * store * list nat :=
  if pclosed p then (p, st1, [])
  else
    let p := compactLocked p st in
    let '(c, toClose, toPing, keep) := maintain_loop p st1 now (streams p) (cnt p) in
    (set_cnt (set_streams p keep) c, foldl close_in st1 toClose, toPing).

(** [pingOne] with the outcome of the ping. *)
Definition ping_timeout (p : streamPool) : Z :=
  if heartbeatTimeout p <=? 0 then 3 * 10 ^ 9 else heartbeatTimeout p.
Definition pingOne (p : streamPool) (st : store) (s : nat) (ping_err : option err) : streamPool * store :=
  if negb (alive st s) then (p, st)
  else match ping_err with
       | Some _ => (removeLocked (set_cnt p (add_hb (cnt p) false)) s, close_in st s)
       | None => (set_cnt p (add_hb (cnt p) true), st)
       end.

(** The ticker interval of the background goroutine. *)
Definition background_interval (p : streamPool) : Z :=
  let ms := 10 ^ 6 in
  let interval := 5000 * ms in
  let interval := if (0 <? heartbeatInterval p) && (heartbeatInterval p <? interval) then heartbeatInterval p else interval in
  if (0 <? idleTimeout p) && (idleTimeout p ÷ 2 <? interval) then
    let interval := idleTimeout p ÷ 2 in
    if interval <? 200 * ms then 200 * ms else interval
  else interval.

(** ** Close and Stats *)
Definition Close (p : streamPool) (st : store) : streamPool * store :=
  if pclosed p then (p, st)
  else
    (mkPool (maxOpen p) (idleTimeout p) (maxLifetime p) (heartbeatInterval p) (heartbeatTimeout p)
       [] (dialing p) true (cnt p),
     foldl close_in st (streams p)).

Record PoolStats := mkStats { Open : Z; st_cnt : counters; TotalInflight : Z }.
Definition Stats (p : streamPool) (st : store) : streamPool * PoolStats :=
  let p := compactLocked p st in
  (p, mkStats (Z.of_nat (length (streams p))) (cnt p)
        (foldl (λ acc s, i32 (acc + load st s)) 0 (streams p))).

(** ** Interleavings of callers, the background goroutine and dying streams *)
Record world := mkWorld { wp : streamPool; ws : store }.

Inductive store_step : store → store → Prop :=
| stream_moves st i s s' : st !! i = Some s → sstep s s' → store_step st (<[i := s']> st).
Definition evolves : store → store → Prop := rtc store_step.

Inductive wstep : world → world → Prop :=
| w_get p st st1 st2 ce : evolves st st1 → evolves st1 st2 →
    wstep (mkWorld p st) (mkWorld (Get_iter p st st1 st2 ce).1 st2)
| w_dial_fail p st e : (0 < dialing p)%nat →
    wstep (mkWorld p st) (mkWorld (Get_dialed p st (inl e)).1.1 (Get_dialed p st (inl e)).1.2)
| w_dial_ok p st i now p' st' : (0 < dialing p)%nat → st !! i = None → dialed p st i now = (p', st') →
    wstep (mkWorld p st) (mkWorld (Get_dialed p' st' (inr i)).1.1 (Get_dialed p' st' (inr i)).1.2)
| w_maintain p st st1 now : evolves st st1 →
    wstep (mkWorld p st) (mkWorld (maintain p st st1 now).1.1 (maintain p st st1 now).1.2)
| w_ping p st s e : wstep (mkWorld p st) (mkWorld (pingOne p st s e).1 (pingOne p st s e).2)
| w_stats p st : wstep (mkWorld p st) (mkWorld (Stats p st).1 st)
| w_close p st : wstep (mkWorld p st) (mkWorld (Close p st).1 (Close p st).2)
| w_streams p st st' : evolves st st' → wstep (mkWorld p st) (mkWorld p st').

Definition reachable_world (w : world) : Prop :=
  ∃ mo idle life hbi hbt, rtc wstep (mkWorld (newStreamPool mo idle life hbi hbt) ∅) w.

(** ** Invariant *)
Record pool_ok (p : streamPool) (st : store) : Prop := {
  po_max : (1 <= maxOpen p)%nat;
  po_bound : (length (streams p) + dialing p <= maxOpen p)%nat;
  po_nodup : NoDup (streams p);
  po_dom : ∀ i, i ∈ streams p → is_Some (st !! i);
  po_closed : pclosed p = true → streams p = [] }.
