(* ===== verification/StreamPoolFacts.v ===== *)
(** * Correctness of stream pools *)

From S2P Require Import Prelude NetErrors Frame Stream StreamPool.
Local Open Scope Z_scope.

(** ** Lists *)
Lemma NoDup_bfilter {A} (f : A → bool) l : NoDup l → NoDup (List.filter f l).
Proof.
  induction 1 as [|x l Hx Hl IH]; cbn; [constructor|]. destruct (f x); [|done].
  constructor; [|done]. rewrite elem_of_bfilter. by intros [? _].
Qed.

(** ** Compaction *)
Lemma compact_streams p st : streams (compactLocked p st) = List.filter (alive st) (streams p).
Proof. done. Qed.

(** Everything but the list and the counters is kept. *)
Definition same_shape (p p' : streamPool) : Prop :=
  maxOpen p' = maxOpen p ∧ dialing p' = dialing p ∧ pclosed p' = pclosed p.

Lemma sublist_ok p p' st : same_shape p p' → (∀ i, i ∈ streams p' → i ∈ streams p) → NoDup (streams p') →
  (length (streams p') <= length (streams p))%nat → pool_ok p st → pool_ok p' st.
Proof.
  intros (E1 & E2 & E3) Hsub Hnd Hlen [H1 H2 H3 H4 H5]. split; rewrite ?E1, ?E2, ?E3; [done|lia|done|by auto|].
  intros Hc. specialize (H5 Hc). rewrite H5 in Hlen. cbn in Hlen. destruct (streams p'); [done|cbn in Hlen; lia].
Qed.

Lemma compact_ok p st : pool_ok p st → pool_ok (compactLocked p st) st.
Proof.
  intros Hok. apply (sublist_ok p); [done| | | |done]; rewrite compact_streams.
  - intros i [? _]%elem_of_bfilter. done.
  - apply NoDup_bfilter, Hok.
  - apply filter_length_le.
Qed.

Lemma remove_ok p st s : pool_ok p st → pool_ok (removeLocked p s) st.
Proof.
  intros Hok. apply (sublist_ok p); [done| | | |done]; cbn.
  - intros i [? _]%elem_of_bfilter. done.
  - apply NoDup_bfilter, Hok.
  - apply filter_length_le.
Qed.

(** The invariant only needs the store to keep what the pool refers to. *)
Lemma store_ok_mono p st st' : (∀ i, is_Some (st !! i) → is_Some (st' !! i)) → pool_ok p st → pool_ok p st'.
Proof. intros Hst [H1 H2 H3 H4 H5]. split; try done. intros i Hi. by apply Hst, H4. Qed.

Lemma close_in_dom st j i : is_Some (st !! i) → is_Some (close_in st j !! i).
Proof.
  intros [s Hs]. unfold close_in. destruct (decide (i = j)) as [->|].
  - rewrite lookup_alter_eq, Hs. by eexists.
  - rewrite lookup_alter_ne by done. by eexists.
Qed.
Lemma close_all_dom l : ∀ st i, is_Some (st !! i) → is_Some (foldl close_in st l !! i).
Proof. induction l as [|j l IH]; intros st i Hi; cbn; [done|]. by apply IH, close_in_dom. Qed.

Lemma evolves_dom st st' i : evolves st st' → is_Some (st !! i) → is_Some (st' !! i).
Proof.
  induction 1 as [|st st1 st2 [st0 j s s' Hs _] _ IH]; [done|]. intros Hi. apply IH.
  destruct (decide (j = i)) as [->|]; [rewrite lookup_insert_eq; by eexists|by rewrite lookup_insert_ne].
Qed.
Lemma evolves_ok p st st' : evolves st st' → pool_ok p st → pool_ok p st'.
Proof. intros He. apply store_ok_mono. intros i. by apply evolves_dom. Qed.

Lemma counters_pool_ok p st c : pool_ok p st → pool_ok (set_cnt p c) st.
Proof. intros [H1 H2 H3 H4 H5]. by split. Qed.

#[local] Hint Resolve compact_ok remove_ok close_in_dom close_all_dom counters_pool_ok : soil.

(** ** Picking *)
Lemma pick_loop_spec st l : ∀ best bl,
  (∀ b, best = Some b → alive st b = true ∧ load st b = bl) →
  match pick_loop st l best bl with
  | Some s => (Some s = best ∨ s ∈ l) ∧ alive st s = true ∧
              (∀ b, best = Some b → load st s <= bl) ∧ ∀ i, i ∈ l → alive st i = true → load st s <= load st i
  | None => best = None ∧ ∀ i, i ∈ l → alive st i = false
  end.
Proof.
  induction l as [|s l IH]; intros best bl Hb; cbn [pick_loop].
  - destruct best as [b|]; [|split; [done|set_solver]]. destruct (Hb b eq_refl) as [Ha El].
    split_and!; [by left|done| |set_solver]. intros b' [= <-]. lia.
  - destruct (alive st s) eqn:Es; cbn [negb].
    + destruct best as [b|]; [destruct (Z.ltb_spec (load st s) bl) as [Hlt|Hge]|].
      * specialize (IH (Some s) (load st s) ltac:(by intros ? [= <-])).
        destruct (pick_loop st l _ _) as [x|]; [|by destruct IH].
        destruct IH as (H1 & H2 & H3 & H4). specialize (H3 s eq_refl). split_and!; [set_solver|done| |].
        { intros _ _. lia. } { intros i [->|Hi]%elem_of_cons Ha; [lia|by apply H4]. }
      * specialize (IH (Some b) bl Hb). destruct (pick_loop st l _ _) as [x|]; [|by destruct IH].
        destruct IH as (H1 & H2 & H3 & H4). specialize (H3 b eq_refl). split_and!; [set_solver|done| |].
        { intros _ _. lia. } { intros i [->|Hi]%elem_of_cons Ha; [lia|by apply H4]. }
      * specialize (IH (Some s) (load st s) ltac:(by intros ? [= <-])).
        destruct (pick_loop st l _ _) as [x|]; [|by destruct IH].
        destruct IH as (H1 & H2 & H3 & H4). specialize (H3 s eq_refl). split_and!; [set_solver|done|done|].
        intros i [->|Hi]%elem_of_cons Ha; [lia|by apply H4].
    + specialize (IH best bl Hb). destruct (pick_loop st l best bl) as [x|].
      * destruct IH as (H1 & H2 & H3 & H4). split_and!; [set_solver|done|done|].
        intros i [->|Hi]%elem_of_cons Ha; [congruence|by apply H4].
      * destruct IH as [? H]. split; [done|]. intros i [->|Hi]%elem_of_cons; auto.
Qed.

Lemma pickLocked_spec p st :
  match pickLocked p st with
  | Some s => s ∈ streams p ∧ alive st s = true ∧ ∀ i, i ∈ streams p → alive st i = true → load st s <= load st i
  | None => ∀ i, i ∈ streams p → alive st i = false
  end.
Proof.
  pose proof (pick_loop_spec st (streams p) None (-1) ltac:(done)) as H. unfold pickLocked.
  destruct (pick_loop _ _ _ _) as [s|]; [|by destruct H].
  destruct H as ([H1|H1] & H2 & _ & H4); [done|]. done.
Qed.

(** ** Get *)
Lemma Get_iter_ok p st st1 st2 ce : pool_ok p st → pool_ok (Get_iter p st st1 st2 ce).1 st.
Proof.
  intros Hok. unfold Get_iter. destruct (pclosed p); [done|]. destruct ce; [done|].
  pose proof (compact_ok p st Hok) as Hc. set (p1 := compactLocked p st) in *. clearbody p1.
  destruct (match pickLocked p1 st1 with Some _ => _ | None => _ end); [done|].
  destruct (Nat.ltb_spec (length (streams p1) + dialing p1) (maxOpen p1)) as [Hlt|]; [|by destruct (pickLocked p1 st2)].
  destruct Hc as [H1 H2 H3 H4 H5]. split; cbn; [done|lia|done|done|done].
Qed.

Lemma dialing_pred_ok p st : pool_ok p st → pool_ok (set_dialing p (dialing p - 1)) st.
Proof. intros [H1 H2 H3 H4 H5]. split; cbn; [done|lia|done|done|done]. Qed.

(** A completed dial always finds room. *)
Lemma dialed_has_room p st i : pool_ok p st → (0 < dialing p)%nat → pclosed p = false →
  Get_dialed p st (inr i) =
    (set_streams (compactLocked (set_dialing p (dialing p - 1)) st)
       (List.filter (alive st) (streams p) ++ [i]), st, Some (inr i)).
Proof.
  intros Hok Hd Hc. unfold Get_dialed. cbn. rewrite Hc.
  pose proof (filter_length_le (alive st) (streams p)). destruct Hok.
  destruct (Nat.leb_spec (maxOpen p) (length (List.filter (alive st) (streams p)))); [lia|done].
Qed.

Lemma Get_dialed_ok p st r : pool_ok p st → (0 < dialing p)%nat →
  (∀ i, r = inr i → is_Some (st !! i) ∧ i ∉ streams p) →
  pool_ok (Get_dialed p st r).1.1 (Get_dialed p st r).1.2.
Proof.
  intros Hok Hd Hr. destruct r as [e|i]; [by apply dialing_pred_ok|].
  destruct (Hr i eq_refl) as [Hi Hni]. destruct (pclosed p) eqn:Hc.
  - unfold Get_dialed. cbn [pclosed set_dialing]. rewrite Hc. cbn.
    eapply store_ok_mono, dialing_pred_ok, Hok. auto with soil.
  - rewrite dialed_has_room by done. cbn [fst snd].
    pose proof (filter_length_le (alive st) (streams p)). destruct Hok as [H1 H2 H3 H4 H5].
    split; cbn; [done| | | |].
    + rewrite length_app. cbn. lia.
    + apply NoDup_app. split; [by apply NoDup_bfilter|]. split; [|apply NoDup_singleton].
      intros j [Hj _]%elem_of_bfilter. rewrite list_elem_of_singleton. by intros ->.
    + intros j [[Hj _]%elem_of_bfilter|Hj]%elem_of_app; [by apply H4|]. apply list_elem_of_singleton in Hj. by subst.
    + by rewrite Hc.
Qed.

(** ** Maintenance *)
Lemma maintain_loop_spec p st now l : ∀ c,
  match maintain_loop p st now l c with
  | (c', tc, tp, keep) =>
      keep = List.filter (λ i, match judge p st now i with VKeep _ => true | _ => false end) l ∧
      tc = List.filter (λ i, match judge p st now i with VLife | VIdle => true | _ => false end) l ∧
      tp = List.filter (λ i, match judge p st now i with VKeep true => true | _ => false end) l
  end.
Proof.
  induction l as [|s l IH]; intros c; cbn [maintain_loop List.filter]; [done|].
  destruct (judge p st now s) as [| | |[]]; cbn [List.filter];
    match goal with |- context [maintain_loop p st now l ?c'] =>
      specialize (IH c'); destruct (maintain_loop p st now l c') as [[[? ?] ?] ?] end;
    destruct IH as (-> & -> & ->); done.
Qed.

Lemma maintain_ok p st st1 now : evolves st st1 → pool_ok p st →
  pool_ok (maintain p st st1 now).1.1 (maintain p st st1 now).1.2.
Proof.
  intros He Hok. unfold maintain. destruct (pclosed p) eqn:Hc; [by apply (evolves_ok p st)|].
  pose proof (evolves_ok _ _ _ He (compact_ok p st Hok)) as Hok1. set (p1 := compactLocked p st) in *.
  pose proof (maintain_loop_spec p1 st1 now (streams p1) (cnt p1)) as H.
  destruct (maintain_loop _ _ _ _ _) as [[[c tc] tp] keep]. destruct H as (-> & _ & _). cbn [fst snd].
  eapply store_ok_mono; [intros i; apply close_all_dom|]. apply counters_pool_ok.
  apply (sublist_ok p1); [done| | | |done]; cbn.
  - intros i [? _]%elem_of_bfilter. done.
  - apply NoDup_bfilter, Hok1.
  - apply filter_length_le.
Qed.

(** What [maintain] retires: only live streams with no call in flight that are
    past their lifetime or idle for too long; a stream in use is never closed. *)
Lemma maintain_retires_idle_only p st st1 now i s : pclosed p = false → alive st i = true →
  st1 !! i = Some s → i ∈ streams p → Alive s = true → i ∉ streams (maintain p st st1 now).1.1 →
  Inflight s = 0 ∧ ((0 < maxLifetime p ∧ maxLifetime p < now - createdAt s) ∨
                    (0 < idleTimeout p ∧ idleTimeout p < now - lastActive s)).
Proof.
  intros Hc Ha0 Hs Hi Ha. unfold maintain. rewrite Hc. set (p1 := compactLocked p st).
  pose proof (maintain_loop_spec p1 st1 now (streams p1) (cnt p1)) as H.
  destruct (maintain_loop _ _ _ _ _) as [[[c tc] tp] keep]. destruct H as (-> & _ & _). cbn [fst snd streams set_cnt set_streams].
  rewrite elem_of_bfilter. intros Hn.
  assert (match judge p1 st1 now i with VKeep _ => true | _ => false end ≠ true) as Hj.
  { intros E. apply Hn. split; [|done]. unfold p1. rewrite compact_streams. apply elem_of_bfilter.
    by split. }
  revert Hj. unfold judge. rewrite Hs, Ha. cbn. zb; cbn; intros; (split; [lia|]); first [left; lia|right; lia|done].
Qed.

(** ** Reachability *)
Lemma wstep_ok w w' : pool_ok (wp w) (ws w) → wstep w w' → pool_ok (wp w') (ws w').
Proof.
  intros Hok Hw. destruct Hw as [p st st1 st2 ce H1 H2|p st e Hd|p st i now p' st' Hd Hi E|p st st1 now He|p st s e|p st|p st|p st st' He]; cbn [wp ws] in *.
  - apply (evolves_ok _ _ _ H2), (evolves_ok _ _ _ H1). by apply Get_iter_ok.
  - by apply dialing_pred_ok.
  - unfold dialed in E. inv E. apply Get_dialed_ok; [|done|].
    + apply counters_pool_ok. eapply store_ok_mono, Hok. intros j Hj.
      destruct (decide (i = j)) as [->|]; [by rewrite Hi in Hj; destruct Hj|]. by rewrite lookup_insert_ne.
    + intros j [= <-]. split; [by rewrite lookup_insert_eq|]. cbn. intros Hin.
      apply (po_dom _ _ Hok) in Hin. rewrite Hi in Hin. by destruct Hin.
  - by apply maintain_ok.
  - unfold pingOne. destruct (alive st s); cbn; [|done]. destruct e; cbn; [|auto with soil].
    eapply store_ok_mono; [intros j; apply close_in_dom|]. auto with soil.
  - by apply compact_ok.
  - unfold Close. destruct (pclosed p); cbn; [done|]. destruct Hok as [H1 H2 H3 H4 H5].
    split; cbn; [done|lia|constructor|set_solver|done].
  - by apply (evolves_ok _ _ _ He).
Qed.

Lemma newStreamPool_ok mo a b c d : pool_ok (newStreamPool mo a b c d) ∅.
Proof.
  split; cbn; [|lia|constructor|set_solver|done]. destruct (Z.leb_spec mo 0); lia.
Qed.

Lemma reachable_world_ok w : reachable_world w → pool_ok (wp w) (ws w).
Proof.
  intros (mo & a & b & c & d & H).
  apply (rtc_invariant wstep (λ w, pool_ok (wp w) (ws w)) wstep_ok _ _ H). apply newStreamPool_ok.
Qed.

(** ** Theorems *)

(** C7: The pool never opens more than [maxOpen] streams: in every interleaving of
    callers, dials, heartbeats, maintenance, dying streams and closing, the streams
    it holds plus the dials under way stay within the limit, no stream is held
    twice, and a closed pool holds none.  Therefore the "already full after the
    dial" branch of [Get] is never taken: a successful dial on an open pool always
    enters the pool and is handed to its caller. *)
Theorem pool_respects_maxOpen w : reachable_world w →
  (length (streams (wp w)) + dialing (wp w) <= maxOpen (wp w))%nat ∧ NoDup (streams (wp w)) ∧
  (pclosed (wp w) = true → streams (wp w) = []) ∧
  (∀ i, pclosed (wp w) = false → (0 < dialing (wp w))%nat →
     (Get_dialed (wp w) (ws w) (inr i)).2 = Some (inr i) ∧
     i ∈ streams (Get_dialed (wp w) (ws w) (inr i)).1.1 ∧ (Get_dialed (wp w) (ws w) (inr i)).1.2 = ws w).
Proof.
  intros Hr. pose proof (reachable_world_ok w Hr) as Hok. destruct w as [p st]. cbn [wp ws] in *.
  split; [apply Hok|]. split; [apply Hok|]. split; [apply Hok|].
  intros i Hc Hd. rewrite dialed_has_room by done. cbn. split; [done|]. split; [|done].
  apply elem_of_app. right. by apply list_elem_of_singleton.
Qed.

(** One iteration of [Get] under the lock, on an open pool with a live context,
    while streams die concurrently: it returns a stream that was alive and least
    loaded when picked (with fewer than 32 calls unless the pool is full); it starts
    a dial only when there is room for it; and it waits only when the pool is full
    and no stream is alive any more, either because every slot is a dial under way
    or because a stream died during this very iteration. *)
Theorem Get_iter_spec w st1 st2 : reachable_world w → pclosed (wp w) = false →
  match Get_iter (wp w) (ws w) st1 st2 None with
  | (p', GStream s) => s ∈ streams (wp w) ∧ ∃ sto, (sto = st1 ∨ sto = st2) ∧
      alive sto s = true ∧ (∀ i, i ∈ streams p' → alive sto i = true → load sto s <= load sto i) ∧
      (load sto s < 32 ∨ (maxOpen (wp w) <= length (streams p') + dialing (wp w))%nat)
  | (p', GDial) => dialing p' = S (dialing (wp w)) ∧ (length (streams p') + dialing p' <= maxOpen (wp w))%nat
  | (p', GWait) => (∀ i, i ∈ streams p' → alive st2 i = false) ∧
      (dialing (wp w) = maxOpen (wp w) ∨ ∃ i, i ∈ streams (wp w) ∧ alive (ws w) i = true ∧ alive st2 i = false)
  | (_, GErr _) => False
  end.
Proof.
  intros Hr Hc. pose proof (reachable_world_ok w Hr) as Hok. destruct w as [p st]. cbn [wp ws] in *.
  unfold Get_iter. rewrite Hc. pose proof (compact_ok p st Hok) as Hok1.
  pose proof (pickLocked_spec (compactLocked p st) st1) as Hp1.
  pose proof (pickLocked_spec (compactLocked p st) st2) as Hp2.
  assert (∀ i, i ∈ streams (compactLocked p st) ↔ i ∈ streams p ∧ alive st i = true) as Hf
    by (intros; apply elem_of_bfilter).
  assert (maxOpen (compactLocked p st) = maxOpen p ∧ dialing (compactLocked p st) = dialing p) as [E1 E2] by done.
  set (p1 := compactLocked p st) in *.
  pose proof (po_bound _ _ Hok1). clearbody p1. rewrite E1, E2 in *.
  assert (match (match pickLocked p1 st1 with
                 | Some s => if (maxOpen p <=? length (streams p1) + dialing p)%nat || (load st1 s <? 32) then Some s else None
                 | None => None end) with
          | Some s => s ∈ streams p1 ∧ alive st1 s = true ∧
              (∀ i, i ∈ streams p1 → alive st1 i = true → load st1 s <= load st1 i) ∧
              (load st1 s < 32 ∨ (maxOpen p <= length (streams p1) + dialing p)%nat)
          | None => True end) as Hre.
  { destruct (pickLocked p1 st1) as [s|]; [|done]. destruct Hp1 as (Hin & Ha & Hmin).
    destruct (Nat.leb_spec (maxOpen p) (length (streams p1) + dialing p)); cbn [orb];
      [split_and!; try done; by right|].
    destruct (Z.ltb_spec (load st1 s) 32); [split_and!; try done; by left|done]. }
  destruct (match pickLocked p1 st1 with Some _ => _ | None => _ end) as [s|].
  { destruct Hre as ([Hin _]%Hf & Ha & Hmin & Hl). split; [done|]. exists st1. split; [by left|done]. }
  destruct (Nat.ltb_spec (length (streams p1) + dialing p) (maxOpen p)) as [Hlt|Hge].
  { cbn [dialing set_dialing streams]. split; [by rewrite ?E2|lia]. }
  destruct (pickLocked p1 st2) as [s|].
  - destruct Hp2 as ([Hin _]%Hf & Ha & Hmin). split; [done|]. exists st2. split; [by right|].
    split_and!; try done. by right.
  - split; [done|]. destruct (streams p1) as [|i l] eqn:Es; [left; cbn in *; lia|right].
    exists i. destruct (proj1 (Hf i)) as [Hi Ha]; [left|]. split_and!; [done|done|]. apply Hp2. left.
Qed.

(** ** Witnesses *)
Definition ex_w1 : world := mkWorld (set_dialing (newStreamPool 2 0 0 0 0) 1) ∅.
Lemma ex_w1_reachable : reachable_world ex_w1.
Proof.
  exists 2, 0, 0, 0, 0. apply rtc_once.
  exact (w_get (newStreamPool 2 0 0 0 0) ∅ ∅ ∅ None (rtc_refl _ _) (rtc_refl _ _)).
Qed.
Lemma pool_respects_maxOpen_witness :
  (Get_dialed (wp ex_w1) (ws ex_w1) (inr 5%nat)).2 = Some (inr 5%nat) ∧
  (length (streams (wp ex_w1)) + dialing (wp ex_w1) <= 2)%nat.
Proof.
  destruct (pool_respects_maxOpen ex_w1 ex_w1_reachable) as (H1 & _ & _ & H4). split; [|exact H1].
  apply H4; [reflexivity|cbn; lia].
Defined.
Lemma Get_iter_spec_witness : (dialing (Get_iter (wp ex_w1) (ws ex_w1) ∅ ∅ None).1 <= 2)%nat.
Proof.
  pose proof (Get_iter_spec ex_w1 ∅ ∅ ex_w1_reachable eq_refl) as H. cbn in H. destruct H as [_ H]. exact H.
Defined.

(** ** Races the code leaves open *)
Definition ex_full : streamPool := set_streams (newStreamPool 1 10 0 0 0) [0%nat].
Definition ex_open : store := {[0%nat := newStream 0]}.
Definition ex_dead : store := {[0%nat := Stream.Close (newStream 0)]}.

(** The only stream of a full pool dies between compaction and the picks: [Get]
    waits although no dial is under way and a slot has become free; only the next
    maintenance tick wakes it. *)
Example Get_waits_without_dial :
  (Get_iter ex_full ex_open ex_dead ex_dead None).2 = GWait ∧ dialing ex_full = 0%nat.
Proof. split; vm_compute; reflexivity. Qed.

(** [Get] hands out an idle stream; before the caller's [Call] counts as in flight,
    maintenance retires the stream, and the call fails on a healthy node. *)
Example maintain_closes_handed_out_stream :
  (Get_iter ex_full ex_open ex_open ex_open None).2 = GStream 0 ∧
  let '(_, st, _) := maintain ex_full ex_open ex_open 100 in
  ∃ s, st !! 0%nat = Some s ∧
    (Call_begin s None 101 (mkRequest 1 [] [] false)).2 = inl (sent errConnClosed).
Proof.
  split; [vm_compute; reflexivity|]. exists (Stream.Close (newStream 0)). split; vm_compute; reflexivity.
Qed.
