(* ===== verification/StreamPoolWait.v ===== *)
(** * Waiting for a stream of micro/net

    Models what [StreamPool] leaves out of [src/micro/net/pool.go]: the mutex, the
    condition variable and the background goroutine.  A call of [Get] is a goroutine
    with a context; [waitLocked] is cut between arming [context.AfterFunc] and
    [cond.Wait], since the callback broadcasts without the mutex.  The background
    goroutine of [newStreamPool] waits for its ticker or the stop channel, and
    [maintain] is cut between releasing the mutex and its broadcast, and at every
    ping.  Everything else under the mutex is one step. *)

From S2P Require Import Prelude NetErrors Frame Stream StreamPool.
Local Open Scope Z_scope.

(** ** State *)
(** A call of [Get]: not begun; dialling; back from a dial that found the pool full
    ([continue], with the mutex); about to call [waitLocked]; with the callback set;
    in [cond.Wait]; woken; returned. *)
Inductive npc := NNew | NDial | NAgain | NArm | NArmed | NWaiting | NWoken | NDone.
(** The callback of [context.AfterFunc]: not set; set; started; it has broadcast. *)
Inductive callback := CbNone | CbSet | CbStarted | CbDone.
(** [n_err]: [ctx.Err()]. *)
Record caller := mkCaller { n_pc : npc; n_err : option err; n_cb : callback }.
(** [background]: in [select]; in [maintain] before the broadcast, with what is to be
    pinged; about to ping; a failed ping has removed its stream and not yet
    broadcast; returned. *)
Inductive bg_pc := BSelect | BMaintained (toPing : list nat) | BPings (todo : list nat) | BRemoved (todo : list nat) | BStopped.
(** [n_lock]: the call that holds the mutex between steps.  [n_closing]: a call of
    [Close] waits for the background goroutine. *)
Record nsys := mkN { n_p : streamPool; n_st : store; n_calls : list caller; n_lock : option nat; n_bg : bg_pc; n_closing : bool }.

Definition set_npc (q : npc) (c : caller) : caller := mkCaller q (n_err c) (n_cb c).
Definition set_cb (b : callback) (c : caller) : caller := mkCaller (n_pc c) (n_err c) b.
(** The context is done: a callback that is set starts. *)
Definition ctx_done (e : err) (c : caller) : caller :=
  mkCaller (n_pc c) (match n_err c with None => Some e | x => x end) (match n_cb c with CbSet => CbStarted | b => b end).
(** [stop()]: without effect when the callback has started. *)
Definition stop_cb (c : caller) : caller := set_cb (match n_cb c with CbSet => CbNone | b => b end) c.

Definition with_pool (p : streamPool) (st : store) (y : nsys) : nsys := mkN p st (n_calls y) (n_lock y) (n_bg y) (n_closing y).
Definition with_calls (l : list caller) (y : nsys) : nsys := mkN (n_p y) (n_st y) l (n_lock y) (n_bg y) (n_closing y).
Definition with_lock (l : option nat) (y : nsys) : nsys := mkN (n_p y) (n_st y) (n_calls y) l (n_bg y) (n_closing y).
Definition with_bg (b : bg_pc) (y : nsys) : nsys := mkN (n_p y) (n_st y) (n_calls y) (n_lock y) b (n_closing y).
Definition with_closing (b : bool) (y : nsys) : nsys := mkN (n_p y) (n_st y) (n_calls y) (n_lock y) (n_bg y) b.
Definition with_caller (i : nat) (c : caller) (y : nsys) : nsys := with_calls (<[i := c]> (n_calls y)) y.

(** [cond.Broadcast()] *)
Definition waits (c : caller) : bool := match n_pc c with NWaiting => true | _ => false end.
Definition awaken (c : caller) : caller := if waits c then set_npc NWoken c else c.
Definition broadcast (y : nsys) : nsys := with_calls (map awaken (n_calls y)) y.

(** ** Steps of a call *)
(** Where an iteration of the loop leads; only a call that will wait keeps the mutex. *)
Definition after_iter (o : get_out) : npc := match o with GErr _ | GStream _ => NDone | GDial => NDial | GWait => NArm end.
Definition iterate (i : nat) (c : caller) (st1 st2 : store) (y : nsys) : nsys :=
  let '(p, o) := Get_iter (n_p y) (n_st y) st1 st2 (n_err c) in
  with_lock (match o with GWait => Some i | _ => None end) (with_caller i (set_npc (after_iter o) c) (with_pool p st2 y)).
(** After a dial: the counter, the broadcast and the rest of the branch. *)
Definition after_dial (i : nat) (c : caller) (p : streamPool) (st : store) (r : err + nat) (y : nsys) : nsys :=
  let '(p, st, o) := Get_dialed p st r in
  let y := with_caller i (set_npc (match o with Some _ => NDone | None => NAgain end) c) (with_pool p st y) in
  with_lock (match o with Some _ => None | None => Some i end) (broadcast y).

Inductive call_step (i : nat) : nsys → nsys → Prop :=
| n_begin y c st1 st2 : n_calls y !! i = Some c → n_pc c = NNew → n_lock y = None → evolves (n_st y) st1 → evolves st1 st2 →
    call_step i y (iterate i c st1 st2 y)
| n_again y c st1 st2 : n_calls y !! i = Some c → n_pc c = NAgain → n_lock y = Some i → evolves (n_st y) st1 → evolves st1 st2 →
    call_step i y (iterate i c st1 st2 y)
| n_dial_fail y c e : n_calls y !! i = Some c → n_pc c = NDial → n_lock y = None →
    call_step i y (after_dial i c (n_p y) (n_st y) (inl e) y)
| n_dial_ok y c k now p st : n_calls y !! i = Some c → n_pc c = NDial → n_lock y = None → n_st y !! k = None →
    dialed (n_p y) (n_st y) k now = (p, st) → call_step i y (after_dial i c p st (inr k) y)
(** [waitLocked] *)
| n_arm_over y c e : n_calls y !! i = Some c → n_pc c = NArm → n_lock y = Some i → waitLocked_before (n_err c) = Some e →
    call_step i y (with_lock None (with_caller i (set_npc NDone c) y))
| n_arm y c : n_calls y !! i = Some c → n_pc c = NArm → n_lock y = Some i → waitLocked_before (n_err c) = None →
    call_step i y (with_caller i (set_npc NArmed (set_cb CbSet c)) y)
| n_wait y c : n_calls y !! i = Some c → n_pc c = NArmed → n_lock y = Some i →
    call_step i y (with_lock None (with_caller i (set_npc NWaiting c) y))
| n_woken_err y c e : n_calls y !! i = Some c → n_pc c = NWoken → n_lock y = None → waitLocked_after (n_p y) (n_err c) = Some e →
    call_step i y (with_caller i (set_npc NDone (stop_cb c)) y)
| n_woken y c st1 st2 : n_calls y !! i = Some c → n_pc c = NWoken → n_lock y = None → waitLocked_after (n_p y) (n_err c) = None →
    evolves (n_st y) st1 → evolves st1 st2 → call_step i y (iterate i (stop_cb c) st1 st2 y)
(** The context and its callback. *)
| n_ctx y c e : n_calls y !! i = Some c → call_step i y (with_caller i (ctx_done e c) y)
| n_callback y c : n_calls y !! i = Some c → n_cb c = CbStarted →
    call_step i y (broadcast (with_caller i (set_cb CbDone c) y)).

(** ** Steps of the background goroutine *)
Inductive bg_step : nsys → nsys → Prop :=
| b_tick y st1 now p st toPing : n_bg y = BSelect → n_lock y = None → evolves (n_st y) st1 →
    maintain (n_p y) (n_st y) st1 now = (p, st, toPing) →
    bg_step y (with_bg (if pclosed (n_p y) then BSelect else BMaintained toPing) (with_pool p st y))
| b_stop y : n_bg y = BSelect → pclosed (n_p y) = true → bg_step y (with_bg BStopped y)
| b_broadcast y toPing : n_bg y = BMaintained toPing → bg_step y (with_bg (BPings toPing) (broadcast y))
(** Only the removal of a stream takes the mutex. *)
| b_ping y s todo e st1 p st : n_bg y = BPings (s :: todo) → (alive st1 s && bool_decide (is_Some e) = true → n_lock y = None) →
    evolves (n_st y) st1 → pingOne (n_p y) st1 s e = (p, st) →
    bg_step y (with_bg (if alive st1 s && bool_decide (is_Some e) then BRemoved todo else BPings todo) (with_pool p st y))
| b_removed y todo : n_bg y = BRemoved todo → bg_step y (with_bg (BPings todo) (broadcast y))
| b_pinged y : n_bg y = BPings [] → bg_step y (with_bg BSelect y).

(** [Close] sets the flag, closes the stop channel and broadcasts under the mutex; it
    returns when the background goroutine has. *)
Inductive env_step : nsys → nsys → Prop :=
| ns_call y e : env_step y (with_calls (n_calls y ++ [mkCaller NNew e CbNone]) y)
| ns_get i y y' : call_step i y y' → env_step y y'
| ns_stats y : n_lock y = None → env_step y (with_pool (Stats (n_p y) (n_st y)).1 (n_st y) y)
| ns_close y p st : n_lock y = None → pclosed (n_p y) = false → Close (n_p y) (n_st y) = (p, st) →
    env_step y (with_closing true (broadcast (with_pool p st y)))
| ns_closed y : n_closing y = true → n_bg y = BStopped → env_step y (with_closing false y)
| ns_streams y st' : evolves (n_st y) st' → env_step y (with_pool (n_p y) st' y).
Definition nstep (y y' : nsys) : Prop := env_step y y' ∨ bg_step y y'.

Definition new_nsys (p : streamPool) : nsys := mkN p ∅ [] None BSelect false.
Definition n_reachable (y : nsys) : Prop := ∃ mo a b c d, rtc nstep (new_nsys (newStreamPool mo a b c d)) y.

(** [Len] and [OpenCount] *)
Definition Len (p : streamPool) (st : store) : streamPool * Z := let '(p, s) := Stats p st in (p, Open s).
Definition OpenCount (p : streamPool) (st : store) : streamPool * Z := let '(p, s) := Stats p st in (p, Open s).
