(* ===== verification/StreamPoolWaitFacts.v ===== *)
(** * Who waits for a stream is woken

    The condition variable of the stream pool: dials are counted exactly, nobody waits
    once the pool is closed, and the background goroutine always wakes who waits. *)

From S2P Require Import Prelude NetErrors Frame Stream StreamPool StreamPoolFacts StreamPoolWait.
Local Open Scope Z_scope.

(** ** Invariant *)
Definition holding (q : npc) : bool := match q with NAgain | NArm | NArmed => true | _ => false end.
Definition dial1 (c : caller) : Z := match n_pc c with NDial => 1 | _ => 0 end.
(** The callback of a call that waits or is about to. *)
Definition cb_ok (c : caller) : Prop :=
  match n_pc c with
  | NWaiting | NArmed => match n_err c with None => n_cb c = CbSet | Some _ => n_cb c = CbStarted ∨ n_cb c = CbDone end
  | _ => True
  end.
Definition open_ok (p : streamPool) (c : caller) : Prop := pclosed p = true → holding (n_pc c) = false ∧ waits c = false.

Record n_ok (y : nsys) : Prop := {
  no_pool : pool_ok (n_p y) (n_st y);
  no_lock : ∀ i c, n_calls y !! i = Some c → (holding (n_pc c) = true ↔ n_lock y = Some i);
  no_holder : ∀ i, n_lock y = Some i → (i < length (n_calls y))%nat;
  no_calls : Forall (λ c, open_ok (n_p y) c ∧ cb_ok c) (n_calls y);
  no_dials : Z.of_nat (dialing (n_p y)) = sumZ (map dial1 (n_calls y));
  no_stop : n_bg y = BStopped → pclosed (n_p y) = true }.

(** One call and the pool change, with the mutex. *)
Lemma update_ok y i c c' p st l : n_ok y → n_calls y !! i = Some c → n_lock y = None ∨ n_lock y = Some i →
  l = (if holding (n_pc c') then Some i else None) → pool_ok p st → pclosed p = pclosed (n_p y) → open_ok p c' → cb_ok c' →
  Z.of_nat (dialing p) = Z.of_nat (dialing (n_p y)) - dial1 c + dial1 c' →
  n_ok (with_lock l (with_caller i c' (with_pool p st y))).
Proof.
  intros [H1 H2 H2' H3 H4 H5] Hi Hl -> Hp Hc Ho Hcb Hd. split; cbn.
  - done.
  - intros j cj. rewrite list_lookup_insert_Some. intros [(-> & <- & _)|[Hj Hcj]]; [by destruct (holding (n_pc c'))|].
    specialize (H2 j cj Hcj). split.
    + intros Hh. apply H2 in Hh. rewrite Hh in Hl. destruct Hl as [Hl|Hl]; [done|]. by injection Hl as ->.
    + destruct (holding (n_pc c')); [|done]. intros [= ->]. done.
  - intros j. rewrite length_insert. destruct (holding (n_pc c')); [|done]. intros [= <-]. by eapply lookup_lt_Some.
  - apply Forall_insert; [|done]. eapply Forall_impl; [exact H3|]. intros c0 [Ho0 Hcb0]. split; [|done]. unfold open_ok in *. by rewrite Hc.
  - rewrite (sum_map_insert dial1 _ i c c' Hi), Hd, H4. lia.
  - intros Hb. rewrite Hc. by apply H5.
Qed.
(** The pool alone changes. *)
Lemma pool_moves y p st : n_ok y → pool_ok p st → pclosed p = pclosed (n_p y) → dialing p = dialing (n_p y) → n_ok (with_pool p st y).
Proof.
  intros [H1 H2 H2' H3 H4 H5] Hp Hc Hd. split; cbn; [done|done|done| |by rewrite Hd|by rewrite Hc].
  eapply Forall_impl; [exact H3|]. intros c [Ho Hcb]. split; [|done]. unfold open_ok in *. by rewrite Hc.
Qed.
(** A call changes without the mutex and stays where it is. *)
Lemma local_ok y i c c' : n_ok y → n_calls y !! i = Some c → n_pc c' = n_pc c → cb_ok c' → n_ok (with_caller i c' y).
Proof.
  intros [H1 H2 H2' H3 H4 H5] Hi Hpc Hcb. split; cbn; [done| |by rewrite length_insert| | |done].
  - intros j cj. rewrite list_lookup_insert_Some. intros [(-> & <- & _)|[_ Hcj]]; [rewrite Hpc; by apply H2|by apply H2].
  - apply Forall_insert; [done|]. split; [|done]. destruct (Forall_lookup_1 _ _ _ _ H3 Hi) as [Ho _]. unfold open_ok, waits in *. by rewrite Hpc.
  - rewrite (sum_map_insert dial1 _ i c c' Hi), H4. unfold dial1. rewrite Hpc. lia.
Qed.
Lemma broadcast_n_ok y : n_ok y → n_ok (broadcast y).
Proof.
  intros [H1 H2 H2' H3 H4 H5]. split; cbn; [done| |by rewrite length_map| | |done].
  - intros i c'. rewrite list_lookup_fmap. intros (c & Hc & ->)%fmap_Some. rewrite <- (H2 i c Hc). unfold awaken, waits. by destruct (n_pc c) eqn:E; cbn; rewrite ?E.
  - apply Forall_map. eapply Forall_impl; [exact H3|]. intros c [Ho Hcb]. unfold awaken, open_ok, cb_ok, waits in *. by destruct (n_pc c) eqn:E; cbn; rewrite ?E.
  - rewrite H4, map_map. f_equal. apply map_ext. intros c. unfold dial1, awaken, waits. by destruct (n_pc c) eqn:E; cbn; rewrite ?E.
Qed.

(** ** The steps keep it *)
Lemma Get_iter_out p st st1 st2 ce p' o : Get_iter p st st1 st2 ce = (p', o) →
  pclosed p' = pclosed p ∧ dialing p' = (if match o with GDial => true | _ => false end then S (dialing p) else dialing p) ∧
  (pclosed p = true → ∃ e, o = GErr e).
Proof.
  unfold Get_iter. destruct (pclosed p) eqn:Hc; [intros [= <- <-]; by split_and!; [| |eexists]|]. destruct ce as [e|]; [intros [= <- <-]; by split_and!|].
  destruct (match pickLocked _ st1 with Some _ => _ | None => _ end) as [s|]; [intros [= <- <-]; by split_and!|].
  destruct (_ <? _)%nat; [intros [= <- <-]; by split_and!|]. destruct (pickLocked _ st2); intros [= <- <-]; by split_and!.
Qed.
Lemma iterate_ok y i c st1 st2 : n_ok y → n_calls y !! i = Some c → n_lock y = None ∨ n_lock y = Some i → dial1 c = 0 →
  evolves (n_st y) st1 → evolves st1 st2 → n_ok (iterate i c st1 st2 y).
Proof.
  intros Hok Hi Hl Hd He1 He2. unfold iterate. destruct (Get_iter (n_p y) (n_st y) st1 st2 (n_err c)) as [p o] eqn:E.
  destruct (Get_iter_out _ _ _ _ _ _ _ E) as (Hc & Hdl & Hcl). pose proof (Get_iter_ok _ _ st1 st2 (n_err c) (no_pool y Hok)) as Hp. rewrite E in Hp. cbn in Hp.
  apply (update_ok y i c); [done|done|done|by destruct o|by apply (evolves_ok _ _ _ He2), (evolves_ok _ _ _ He1)|done| |by destruct o|].
  - intros Hp'. rewrite Hc in Hp'. destruct (Hcl Hp') as [e ->]. done.
  - rewrite Hdl, Hd. unfold dial1. destruct o; cbn; lia.
Qed.
Lemma dials_nonneg l : 0 <= sumZ (map dial1 l).
Proof. induction l as [|c l IH]; cbn; [done|]. unfold dial1 at 1. destruct (n_pc c); lia. Qed.
Lemma dialing_positive y i c : n_ok y → n_calls y !! i = Some c → n_pc c = NDial → (0 < dialing (n_p y))%nat.
Proof.
  intros Hok Hi Hpc. pose proof (no_dials y Hok) as Hd. pose proof (dials_nonneg (<[i := set_npc NDone c]> (n_calls y))) as Hn.
  rewrite (sum_map_insert dial1 _ i c _ Hi), <- Hd in Hn. unfold dial1 in Hn. rewrite Hpc in Hn. cbn in Hn. lia.
Qed.
(** A dial that succeeds while the pool is open finds room, so the call returns. *)
Lemma after_dial_ok y i c p st r : n_ok y → n_calls y !! i = Some c → n_pc c = NDial → n_lock y = None → pool_ok p st →
  pclosed p = pclosed (n_p y) → dialing p = dialing (n_p y) → (∀ k, r = inr k → is_Some (st !! k) ∧ k ∉ streams p) →
  n_ok (after_dial i c p st r y) ∧ ∃ x, (Get_dialed p st r).2 = Some x.
Proof.
  intros Hok Hi Hpc Hl Hp Hc Hd Hr. pose proof (dialing_positive y i c Hok Hi Hpc) as Hpos. rewrite <- Hd in Hpos.
  pose proof (Get_dialed_ok p st r Hp Hpos Hr) as Hp'. unfold after_dial.
  assert (∃ x, (Get_dialed p st r).2 = Some x ∧ pclosed (Get_dialed p st r).1.1 = pclosed p ∧ dialing (Get_dialed p st r).1.1 = (dialing p - 1)%nat) as (x & Hx & Hcx & Hdx).
  { destruct r as [e|k]; [by eexists|]. destruct (pclosed p) eqn:Ec.
    - unfold Get_dialed. cbn [pclosed set_dialing]. rewrite Ec. by eexists.
    - rewrite dialed_has_room by done. by eexists. }
  split; [|by exists x]. destruct (Get_dialed p st r) as [[p1 st1] o]. cbn [fst snd] in *. subst o.
  change (with_lock None (broadcast ?z)) with (broadcast (with_lock None z)). apply broadcast_n_ok, (update_ok y i c); try done; [by left|congruence|].
  unfold dial1. rewrite Hpc, Hdx. cbn. lia.
Qed.
Lemma waiting_cb c : cb_ok c → n_pc c = NArmed → cb_ok (set_npc NWaiting c).
Proof. unfold cb_ok. by intros H E; rewrite E in H. Qed.

Lemma call_step_ok i y y' : n_ok y → call_step i y y' → n_ok y'.
Proof.
  intros Hok Hst. destruct Hst as [y c st1 st2 Hi Hpc Hl H1 H2|y c st1 st2 Hi Hpc Hl H1 H2|y c e Hi Hpc Hl|y c k now p st Hi Hpc Hl Hk E
    |y c e Hi Hpc Hl He|y c Hi Hpc Hl He|y c Hi Hpc Hl|y c e Hi Hpc Hl He|y c st1 st2 Hi Hpc Hl He H1 H2|y c e Hi|y c Hi Hcb].
  - apply iterate_ok; [done|done|by left|by unfold dial1; rewrite Hpc|done|done].
  - apply iterate_ok; [done|done|by right|by unfold dial1; rewrite Hpc|done|done].
  - apply after_dial_ok; [done|done|done|done|apply Hok|done|done|done].
  - unfold dialed in E. injection E as <- <-. pose proof (no_pool y Hok) as Hp. apply after_dial_ok; try done.
    + apply counters_pool_ok. eapply store_ok_mono, Hp. intros j Hj. destruct (decide (k = j)) as [->|]; [by rewrite lookup_insert_eq|by rewrite lookup_insert_ne].
    + intros j [= <-]. split; [by rewrite lookup_insert_eq|]. intros Hin. apply (po_dom _ _ Hp) in Hin. rewrite Hk in Hin. by destruct Hin.
  - apply (update_ok y i c _ (n_p y) (n_st y)); [done|done|by right|done|apply Hok|done|done|done|]. unfold dial1. rewrite Hpc. cbn. lia.
  - pose proof (update_ok y i c (set_npc NArmed (set_cb CbSet c)) (n_p y) (n_st y) (Some i) Hok Hi) as H. destruct y as [yp yst yc yl yb yk]. cbn in *. subst yl.
    apply H; [by right|done|apply Hok|done| | |unfold dial1; rewrite Hpc; cbn; lia].
    + destruct (Forall_lookup_1 _ _ _ _ (no_calls _ Hok) Hi) as [Ho _]. intros Hc. destruct (Ho Hc) as [Hh _]. by rewrite Hpc in Hh.
    + unfold cb_ok. cbn. unfold waitLocked_before in He. by rewrite He.
  - destruct (Forall_lookup_1 _ _ _ _ (no_calls _ Hok) Hi) as [Ho Hcb].
    apply (update_ok y i c _ (n_p y) (n_st y)); [done|done|by right|done|apply Hok|done| |by apply waiting_cb|unfold dial1; rewrite Hpc; cbn; lia].
    intros Hc. destruct (Ho Hc) as [Hh _]. by rewrite Hpc in Hh.
  - pose proof (update_ok y i c (set_npc NDone (stop_cb c)) (n_p y) (n_st y) None Hok Hi) as H. destruct y as [yp yst yc yl yb yk]. cbn in *. subst yl.
    apply H; [by left|done|apply Hok|done|done|done|unfold dial1; rewrite Hpc; cbn; lia].
  - assert (n_ok (with_caller i (stop_cb c) y)) as Hok' by (apply (local_ok y i c); [done|done|done|unfold cb_ok; cbn; by rewrite Hpc]).
    pose proof (iterate_ok (with_caller i (stop_cb c) y) i (stop_cb c) st1 st2 Hok') as H. unfold iterate in *. cbn in H. change (n_err (stop_cb c)) with (n_err c).
    destruct (Get_iter (n_p y) (n_st y) st1 st2 (n_err c)) as [p o]. unfold with_caller, with_pool in *. cbn in *. rewrite list_insert_insert_eq in H.
    apply H; [apply list_lookup_insert_eq; by eapply lookup_lt_Some|by left|by unfold dial1; cbn; rewrite Hpc|done|done].
  - apply (local_ok y i c); [done|done|done|]. destruct (Forall_lookup_1 _ _ _ _ (no_calls _ Hok) Hi) as [_ Hcb].
    unfold cb_ok in *. cbn. destruct (n_pc c); try done; destruct (n_err c); try (rewrite Hcb; by left); destruct Hcb as [-> | ->]; auto.
  - apply broadcast_n_ok, (local_ok y i c); [done|done|done|]. destruct (Forall_lookup_1 _ _ _ _ (no_calls _ Hok) Hi) as [_ Hcb'].
    unfold cb_ok in *. cbn. destruct (n_pc c); try done; destruct (n_err c); try (by right); by rewrite Hcb' in Hcb.
Qed.

Lemma with_bg_ok y b : n_ok y → (b = BStopped → pclosed (n_p y) = true) → n_ok (with_bg b y).
Proof. intros [H1 H2 H2' H3 H4 H5] Hb. by split. Qed.
Lemma maintain_shape p st st1 now : same_shape p (maintain p st st1 now).1.1.
Proof. unfold maintain. destruct (pclosed p); [done|]. by destruct (maintain_loop _ _ _ _ _) as [[[c tc] tp] keep]. Qed.
Lemma pingOne_shape p st s e : same_shape p (pingOne p st s e).1.
Proof. unfold pingOne. destruct (alive st s); [|done]. by destruct e. Qed.
Lemma pingOne_ok p st s e : pool_ok p st → pool_ok (pingOne p st s e).1 (pingOne p st s e).2.
Proof.
  intros Hok. unfold pingOne. destruct (alive st s); cbn; [|done]. destruct e; cbn; [|by apply counters_pool_ok].
  eapply store_ok_mono; [intros j; apply close_in_dom|]. by apply remove_ok, counters_pool_ok.
Qed.
Lemma bg_step_ok y y' : n_ok y → bg_step y y' → n_ok y'.
Proof.
  intros Hok Hst. pose proof (no_pool y Hok) as Hp. destruct Hst as [y st1 now p st toPing Hb Hl He E|y Hb Hc|y l Hb|y s todo e st1 p st Hb Hl He E|y todo Hb|y Hb].
  - pose proof (maintain_ok _ _ st1 now He Hp) as Hp'. pose proof (maintain_shape (n_p y) (n_st y) st1 now) as (_ & Hd & Hc). rewrite E in *. cbn in *.
    apply with_bg_ok; [by apply pool_moves|by destruct (pclosed (n_p y))].
  - by apply with_bg_ok.
  - apply with_bg_ok; [first [by apply broadcast_n_ok|done]|done].
  - pose proof (pingOne_ok _ _ s e (evolves_ok _ _ _ He Hp)) as Hp'. pose proof (pingOne_shape (n_p y) st1 s e) as (_ & Hd & Hc). rewrite E in *. cbn in *.
    apply with_bg_ok; [by apply pool_moves|by repeat case_match].
  - apply with_bg_ok; [first [by apply broadcast_n_ok|done]|done].
  - by apply with_bg_ok.
Qed.

(** [Close]: the mutex is free, so nobody is about to wait, and the broadcast leaves
    nobody waiting. *)
Lemma close_step_ok y p st : n_ok y → n_lock y = None → pclosed (n_p y) = false → Close (n_p y) (n_st y) = (p, st) →
  n_ok (with_closing true (broadcast (with_pool p st y))).
Proof.
  intros [[P1 P2 P3 P4 P5] H2 H2' H3 H4 H5] Hl Hc E. unfold Close in E. rewrite Hc in E. injection E as <- <-.
  assert (∀ i c, n_calls y !! i = Some c → holding (n_pc c) = false) as Hn.
  { intros i c Hi. specialize (H2 i c Hi). rewrite Hl in H2. destruct (holding (n_pc c)); [|done]. by discriminate (proj1 H2 eq_refl). }
  split; cbn.
  - split; cbn; [done|lia|constructor|set_solver|done].
  - intros i c'. rewrite list_lookup_fmap. intros (c & Hi & ->)%fmap_Some. rewrite <- (H2 i c Hi). unfold awaken, waits. by destruct (n_pc c) eqn:E; cbn; rewrite ?E.
  - by rewrite length_map.
  - apply Forall_lookup_2. intros i c'. rewrite list_lookup_fmap. intros (c & Hi & ->)%fmap_Some. specialize (Hn i c Hi).
    destruct (Forall_lookup_1 _ _ _ _ H3 Hi) as [_ Hcb]. unfold open_ok, cb_ok, awaken, waits in *. by destruct (n_pc c) eqn:E; cbn; rewrite ?E.
  - rewrite H4, map_map. f_equal. apply map_ext. intros c. unfold dial1, awaken, waits. by destruct (n_pc c) eqn:E; cbn; rewrite ?E.
  - done.
Qed.
Lemma env_step_ok y y' : n_ok y → env_step y y' → n_ok y'.
Proof.
  intros Hok Hst. destruct Hst as [y e|i y y' H|y Hl|y p st Hl Hc E|y Hk Hb|y st' He].
  - destruct Hok as [H1 H2 H2' H3 H4 H5]. split; cbn; [done| | | | |done].
    + intros i c. rewrite lookup_app_Some. intros [Hi|[Hlen Hi]]; [by apply H2|]. apply list_lookup_singleton_Some in Hi as [Hi <-].
      split; [done|]. cbn. intros Hl. specialize (H2' _ Hl). lia.
    + intros i Hl. rewrite length_app. specialize (H2' i Hl). lia.
    + apply Forall_app. split; [done|]. by constructor.
    + rewrite map_app, sumZ_app, H4. cbn. lia.
  - by apply (call_step_ok i y).
  - by apply pool_moves; [|apply compact_ok, Hok| |].
  - by apply close_step_ok.
  - by destruct Hok.
  - apply pool_moves; [done|by apply (evolves_ok _ _ _ He), Hok|done|done].
Qed.
Lemma nstep_ok y y' : n_ok y → nstep y y' → n_ok y'.
Proof. intros Hok [H|H]; [by apply (env_step_ok y)|by apply (bg_step_ok y)]. Qed.
Lemma n_reachable_ok y : n_reachable y → n_ok y.
Proof.
  intros (mo & a & b & c & d & H). apply (rtc_invariant nstep n_ok nstep_ok _ _ H).
  split; cbn; [apply newStreamPool_ok|done|done|constructor|done|done].
Qed.

(** ** Progress *)
Definition asleep (i : nat) (y : nsys) : Prop := ∃ c, n_calls y !! i = Some c ∧ waits c = true.
(** A run in which the call [i] waits all along, with [n] steps of the background
    goroutine among any others. *)
Inductive sleeps (i : nat) : nat → nsys → nsys → Prop :=
| sl_start y : asleep i y → sleeps i 0 y y
| sl_env n y y1 y' : asleep i y → env_step y y1 → sleeps i n y1 y' → sleeps i n y y'
| sl_bg n y y1 y' : asleep i y → bg_step y y1 → sleeps i n y1 y' → sleeps i (S n) y y'.

(** How many steps the background goroutine can take without a broadcast. *)
Definition bg_left (b : bg_pc) : nat :=
  match b with BSelect => 2 | BMaintained _ | BRemoved _ => 1 | BPings l => 3 + length l | BStopped => 0 end.
(** How many steps the holder of the mutex has to its release. *)
Definition lock_left (y : nsys) : nat :=
  match n_lock y ≫= λ j, n_pc <$> n_calls y !! j with Some NAgain => 3 | Some NArm => 2 | Some NArmed => 1 | _ => 0 end.

Lemma asleep_open i y : n_ok y → asleep i y → pclosed (n_p y) = false.
Proof.
  intros Hok (c & Hi & Hw). destruct (pclosed (n_p y)) eqn:Hc; [|done].
  destruct (Forall_lookup_1 _ _ _ _ (no_calls y Hok) Hi) as [Ho _]. destruct (Ho Hc) as [_ H]. congruence.
Qed.
Lemma broadcast_wakes i y b : ¬ asleep i (with_bg b (broadcast y)).
Proof.
  intros (c' & Hi & Hw). cbn in Hi. rewrite list_lookup_fmap in Hi. apply fmap_Some in Hi as (c & _ & ->).
  unfold awaken, waits in *. by destruct (n_pc c) eqn:E; cbn in Hw; rewrite ?E in Hw.
Qed.
Lemma bg_step_left i y y' : n_ok y → asleep i y → bg_step y y' → asleep i y' → (bg_left (n_bg y') < bg_left (n_bg y))%nat.
Proof.
  intros Hok Hs Hst Hs'. pose proof (asleep_open i y Hok Hs) as Hc.
  destruct Hst as [y st1 now p st toPing Hb Hl He E|y Hb Hc'|y l Hb|y s todo e st1 p st Hb Hl He E|y todo Hb|y Hb]; cbn [n_bg with_bg]; rewrite Hb.
  - rewrite Hc. cbn. lia.
  - congruence.
  - by apply broadcast_wakes in Hs'.
  - destruct (alive st1 s && _); cbn; lia.
  - by apply broadcast_wakes in Hs'.
  - cbn. lia.
Qed.
Lemma env_step_bg y y' : env_step y y' → n_bg y' = n_bg y.
Proof.
  intros H. destruct H as [| i y y' H| | | |]; try done. destruct H; try done.
  all: unfold iterate, after_dial; try by destruct (Get_iter _ _ _ _ _).
  all: by destruct (Get_dialed _ _ _) as [[? ?] ?].
Qed.
Lemma sleeps_spec i n y y' : sleeps i n y y' → n_ok y → n_ok y' ∧ asleep i y' ∧ (n + bg_left (n_bg y') <= bg_left (n_bg y))%nat.
Proof.
  assert (∀ n y y', sleeps i n y y' → asleep i y) as Hhd by (by intros ??? []).
  induction 1 as [y Hs|n y y1 y' Hs Hst Hsl IH|n y y1 y' Hs Hst Hsl IH]; intros Hok.
  - split_and!; [done|done|lia].
  - rewrite <- (env_step_bg _ _ Hst). apply IH. by apply (env_step_ok y).
  - destruct (IH (bg_step_ok _ _ Hok Hst)) as (H1 & H2 & H3). split_and!; [done|done|].
    pose proof (bg_step_left i y y1 Hok Hs Hst (Hhd _ _ _ Hsl)). lia.
Qed.

Lemma bg_enabled y : n_ok y → pclosed (n_p y) = false → n_lock y = None → ∃ z, bg_step y z.
Proof.
  intros Hok Hc Hl. destruct (n_bg y) as [|l|[|s l]|l|] eqn:Hb.
  - destruct (maintain (n_p y) (n_st y) (n_st y) 0) as [[p st] l] eqn:E. eexists. by eapply b_tick; [| |apply rtc_refl|].
  - eexists. by eapply b_broadcast.
  - eexists. by eapply b_pinged.
  - destruct (pingOne (n_p y) (n_st y) s None) as [p st] eqn:E. eexists. by eapply b_ping; [| |apply rtc_refl|].
  - eexists. by eapply b_removed.
  - apply (no_stop y Hok) in Hb. congruence.
Qed.
Lemma holder_enabled y j : n_ok y → n_lock y = Some j → ∃ z, call_step j y z ∧ (lock_left z < lock_left y)%nat.
Proof.
  intros Hok Hl. destruct (lookup_lt_is_Some_2 _ _ (no_holder y Hok j Hl)) as [c Hj].
  pose proof (proj2 (no_lock y Hok j c Hj) Hl) as Hh. unfold lock_left. rewrite Hl. cbn. rewrite Hj. cbn.
  assert (∀ c', <[j := c']> (n_calls y) !! j = Some c') as Hins by (intros; by eapply list_lookup_insert_eq, lookup_lt_Some).
  destruct (n_pc c) eqn:Hpc; try done.
  - exists (iterate j c (n_st y) (n_st y) y). split; [apply n_again; [done|done|done|apply rtc_refl|apply rtc_refl]|].
    unfold iterate. destruct (Get_iter _ _ _ _ _) as [p []]; cbn; rewrite ?Hins; cbn; lia.
  - destruct (waitLocked_before (n_err c)) as [e|] eqn:E.
    + eexists. split; [by eapply n_arm_over|]. cbn. lia.
    + eexists. split; [by eapply n_arm|]. cbn. rewrite Hl. cbn. rewrite Hins. cbn. lia.
  - eexists. split; [by eapply n_wait|]. cbn. lia.
Qed.

(** ** Theorem *)

(** C15: A [Get] that waits for a stream is always woken.  However calls, dying streams,
    dials, expiring contexts and [Stats] interleave, in a run during which a call
    waits all along the background goroutine takes at most a fixed number of steps
    (two when it sits in its [select], and one for every ping under way besides)
    before its broadcast wakes the call; it is never stuck: the pool is not closed,
    and either the goroutine can take a step or the call that holds the mutex can take
    one towards releasing it, itself two or three steps away.  As long as the waiting
    call's context lives, the callback that broadcasts when it ends is armed, and the
    dials the pool counts are the dials under way. *)
Theorem sleeper_is_woken i n y y' : n_reachable y → sleeps i n y y' →
  (n <= bg_left (n_bg y))%nat ∧ pclosed (n_p y') = false ∧
  match n_lock y' with
  | None => ∃ z, bg_step y' z
  | Some j => ∃ z, call_step j y' z ∧ (lock_left z < lock_left y')%nat
  end ∧
  (∀ c, n_calls y' !! i = Some c → n_err c = None → n_cb c = CbSet) ∧
  Z.of_nat (dialing (n_p y')) = sumZ (map dial1 (n_calls y')).
Proof.
  intros Hr Hsl. destruct (sleeps_spec i n y y' Hsl (n_reachable_ok y Hr)) as (Hok & Hs & Hn).
  pose proof (asleep_open i y' Hok Hs) as Hc. split_and!; [lia|done| | |by apply no_dials].
  - destruct (n_lock y') as [j|] eqn:Hl; [by apply holder_enabled|by apply bg_enabled].
  - intros c Hi He. destruct Hs as (c' & Hi' & Hw). rewrite Hi in Hi'. injection Hi' as <-.
    destruct (Forall_lookup_1 _ _ _ _ (no_calls y' Hok) Hi) as [_ Hcb]. unfold cb_ok, waits in *. destruct (n_pc c); try done. by rewrite He in Hcb.
Qed.

(** Two calls on a pool of one stream: the first dials, the second waits. *)
Definition ex_pool : streamPool := newStreamPool 1 0 0 0 0.
Definition ex_dialing : streamPool := set_dialing ex_pool 1.
Definition ex_calls (c : caller) : nsys := mkN ex_dialing ∅ [mkCaller NDial None CbNone; c] None BSelect false.
Lemma second_arms : rtc nstep (new_nsys ex_pool) (with_lock (Some 1%nat) (ex_calls (mkCaller NArmed None CbSet))).
Proof.
  eapply rtc_l; [left; apply (ns_call _ None)|]. eapply rtc_l; [left; apply (ns_call _ None)|].
  eapply rtc_l; [left; eapply (ns_get 0), (n_begin _ _ _ ∅ ∅); [done|done|done|apply rtc_refl|apply rtc_refl]|].
  eapply rtc_l; [left; eapply (ns_get 1), (n_begin _ _ _ ∅ ∅); [done|done|done|apply rtc_refl|apply rtc_refl]|].
  eapply rtc_l; [left; by eapply (ns_get 1), n_arm|]. vm_compute. apply rtc_refl.
Qed.
Lemma second_call_waits : n_reachable (ex_calls (mkCaller NWaiting None CbSet)).
Proof.
  exists 1, 0, 0, 0, 0. etransitivity; [exact second_arms|].
  eapply rtc_l; [left; by eapply (ns_get 1), n_wait|]. vm_compute. apply rtc_refl.
Qed.
Lemma sleeper_is_woken_witness : ∃ z, bg_step (ex_calls (mkCaller NWaiting None CbSet)) z.
Proof.
  refine (proj1 (proj2 (proj2 (sleeper_is_woken 1 0 _ (ex_calls (mkCaller NWaiting None CbSet)) second_call_waits _)))).
  apply sl_start. eexists. split; reflexivity.
Defined.

(** A context that ends between [context.AfterFunc] and [cond.Wait] broadcasts too
    early, since the callback does not take the mutex: the call sleeps on with its
    context done and nothing armed, until another broadcast. *)
Example expired_call_sleeps e : n_reachable (ex_calls (mkCaller NWaiting (Some e) CbDone)).
Proof.
  exists 1, 0, 0, 0, 0. etransitivity; [exact second_arms|].
  eapply rtc_l; [left; by eapply (ns_get 1), (n_ctx _ _ _ e)|]. eapply rtc_l; [left; by eapply (ns_get 1), n_callback|].
  eapply rtc_l; [left; by eapply (ns_get 1), n_wait|]. vm_compute. apply rtc_refl.
Qed.
