(* ===== verification/Endpoint.v ===== *)
(** * Endpoints of the micro/net client

    Models [src/micro/net/endpoint.go]: endpoint lists and their parsing, address
    resolution, and the run-time node with its circuit breaker.
    [net.SplitHostPort], [net.JoinHostPort], [net.ParseIP] and DNS look-ups are
    parameters. *)

From S2P Require Import Prelude NetErrors GoStrings Frame Stream StreamPool.
Local Open Scope Z_scope.
Local Open Scope soil_scope.

Record Endpoint := mkEp { Addr : string; Weight : Z }.
#[export] Instance Endpoint_eq_dec : EqDecision Endpoint.
Proof. solve_decision. Defined.

(** ** Lists of endpoints *)

(** [dedupeEndpoints]: [seen] maps an address to its index in [out]. *)
Definition norm_weight (w : Z) : Z := if w <=? 0 then 1 else w.

Definition dedupe_step (acc : gmap string nat * list Endpoint) (e : Endpoint) : gmap string nat * list Endpoint :=
  let '(seen, out) := acc in
  let e := mkEp (Addr e) (norm_weight (Weight e)) in
  match seen !! Addr e with
  | Some idx =>
      (seen, match out !! idx with
             | Some o => if Weight o <? Weight e then <[idx := mkEp (Addr o) (Weight e)]> out else out
             | None => out
             end)
  | None => (<[Addr e := length out]> seen, out ++ [e])
  end.
Definition dedupeEndpoints (l : list Endpoint) : list Endpoint := (foldl dedupe_step (∅, []) l).2.

Definition mergeEndpoints (base extra : list Endpoint) : list Endpoint := dedupeEndpoints (base ++ extra).

(** ** Parsing *)

(** [%q] of printable text. *)
Definition quote_mark : string := str1 (ascii_of_nat 34).
Definition fmt_q (s : string) : string := quote_mark +:+ s +:+ quote_mark.

(** [fmt.Errorf("endpoint: invalid address %q: %w", addr, err)] *)
Definition invalid_address (addr : string) (e : err) : err :=
  mkErr ("endpoint: invalid address " +:+ fmt_q addr +:+ ": " +:+ err_msg e) (err_chain e).

Section parsing.
Context (SplitHostPort : string → err + string * string).

Definition is_sep (c : ascii) : bool :=
  bool_decide (c ∈ [","; ";"; " "; "009"; "010"]%char).

Definition parseOneEndpoint (s : string) : err + Endpoint :=
  let s := trim_space s in
  if bool_decide (s = "") then inl (errors_new "endpoint: empty entry")
  else
    let checked addr weight :=
      match SplitHostPort addr with
      | inl e => inl (invalid_address addr e)
      | inr _ => inr (mkEp addr weight)
      end in
    match rcut1 "@" s with
    | Some (addr, ws) =>
        match atoi ws with
        | Some w => if w <=? 0 then inl (errors_new ("endpoint: invalid weight in " +:+ fmt_q s)) else checked addr w
        | None => inl (errors_new ("endpoint: invalid weight in " +:+ fmt_q s))
        end
    | None => checked s 1
    end.

Fixpoint parse_all (fields : list string) : err + list Endpoint :=
  match fields with
  | [] => inr []
  | f :: fs => match parseOneEndpoint f with
               | inl e => inl e
               | inr ep => match parse_all fs with inl e => inl e | inr eps => inr (ep :: eps) end
               end
  end.

Definition parseEndpointList (raw : string) : err + list Endpoint :=
  let raw := trim_space raw in
  if bool_decide (raw = "") then inl (errors_new "endpoint: empty address")
  else
    match fields_func is_sep raw with
    | [] => inl (errors_new "endpoint: empty address")
    | fields => match parse_all fields with inl e => inl e | inr eps => inr (dedupeEndpoints eps) end
    end.

(** ** Resolution *)

(** [StaticResolver] *)
Definition static_Resolve (address : string) : err + list string :=
  match SplitHostPort address with
  | inl e => inl (invalid_address address e)
  | inr _ => inr [address]
  end.

(** [DNSResolver]: an address is its text and whether it is IPv4. *)
Context (ParseIP : string → bool) (Lookup : string → err + list (string * bool)) (JoinHostPort : string → string → string).

Fixpoint dns_collect (network port : string) (ips : list (string * bool)) (seen : gset string) : list string :=
  match ips with
  | [] => []
  | (ip, is4) :: ips' =>
      if bool_decide (network = "tcp4") && negb is4 then dns_collect network port ips' seen
      else if bool_decide (network = "tcp6") && is4 then dns_collect network port ips' seen
      else
        let addr := JoinHostPort ip port in
        if bool_decide (addr ∈ seen) then dns_collect network port ips' seen
        else addr :: dns_collect network port ips' ({[addr]} ∪ seen)
  end.

Definition dns_Resolve (network address : string) : err + list string :=
  match SplitHostPort address with
  | inl e => inl (invalid_address address e)
  | inr (host, port) =>
      if ParseIP host then inr [address]
      else match Lookup host with
           | inl e => inl (mkErr ("endpoint: resolve " +:+ fmt_q host +:+ ": " +:+ err_msg e) (err_chain e))
           | inr [] => inl (errors_new ("endpoint: no addresses for " +:+ fmt_q host))
           | inr ips =>
               match dns_collect network port ips ∅ with
               | [] => inl (errors_new ("endpoint: no usable addresses for " +:+ fmt_q host +:+ " on " +:+ network))
               | out => inr out
               end
           end
  end.
End parsing.

Fixpoint resolve_all (Resolve : string → err + list string) (eps : list Endpoint) : err + list Endpoint :=
  match eps with
  | [] => inr []
  | ep :: eps' =>
      match Resolve (Addr ep) with
      | inl e => inl e
      | inr addrs => match resolve_all Resolve eps' with
                     | inl e => inl e
                     | inr out => inr (map (λ a, mkEp a (Weight ep)) addrs ++ out)
                     end
      end
  end.
Definition resolveEndpoints (Resolve : string → err + list string) (eps : list Endpoint) : err + list Endpoint :=
  match resolve_all Resolve eps with
  | inl e => inl e
  | inr [] => inl (errors_new "endpoint: no resolved addresses")
  | inr out => inr (dedupeEndpoints out)
  end.

(** ** Run-time nodes.  [nid] is the identity of the shared node object. *)
Record endpointNode := mkNode {
  nid : nat; ep : Endpoint; pool : streamPool; fails : Z; downUntil : Z; reserved : Z }.

Definition newNode (i : nat) (e : Endpoint) (p : streamPool) : endpointNode := mkNode i e p 0 0 0.
Definition node_Addr (n : endpointNode) : string := Addr (ep n).
Definition node_Weight (n : endpointNode) : Z := norm_weight (Weight (ep n)).

Definition Healthy (n : endpointNode) (now : Z) : bool := (downUntil n =? 0) || (downUntil n <=? now).

Definition MarkSuccess (n : endpointNode) : endpointNode :=
  mkNode (nid n) (ep n) (pool n) 0 0 (reserved n).
Definition MarkFailure (n : endpointNode) (threshold cooldown now : Z) : endpointNode :=
  let threshold := if threshold <=? 0 then 2 else threshold in
  let cooldown := if cooldown <=? 0 then 5 * 10 ^ 9 else cooldown in
  let f := i32 (fails n + 1) in
  mkNode (nid n) (ep n) (pool n) f
    (if threshold <=? f then i64 (now + cooldown) else downUntil n) (reserved n).

Definition Inflight (n : endpointNode) (st : store) : Z :=
  i32 (reserved n + TotalInflight (Stats (pool n) st).2).
Definition reserve (n : endpointNode) : endpointNode :=
  mkNode (nid n) (ep n) (pool n) (fails n) (downUntil n) (i32 (reserved n + 1)).
Definition unreserve (n : endpointNode) : endpointNode :=
  mkNode (nid n) (ep n) (pool n) (fails n) (downUntil n) (i32 (reserved n - 1)).

Record EndpointStats := mkEpStats {
  es_Addr : string; es_Weight : Z; es_Healthy : bool; es_Fails : Z; es_DownUntil : option Z; es_Pool : PoolStats }.
Definition node_Stats (n : endpointNode) (st : store) (now : Z) : EndpointStats :=
  mkEpStats (Addr (ep n)) (node_Weight n) (Healthy n now) (fails n)
    (if 0 <? downUntil n then Some (downUntil n) else None) (Stats (pool n) st).2.
