(* ===== verification/EndpointFacts.v ===== *)
(** * Correctness of endpoint lists and of the circuit breaker *)

From stdpp Require Import pretty.
From S2P Require Import Prelude NetErrors GoStrings Decimal Frame Stream StreamPool Endpoint.
Local Open Scope Z_scope.

(** ** Merging duplicate addresses *)

(** The specification: addresses in order of first occurrence, each with the
    largest weight given for it (weights below one count as one). *)
Definition firsts (l : list string) : list string :=
  foldl (λ acc a, if bool_decide (a ∈ acc) then acc else acc ++ [a]) [] l.
Definition maxw (a : string) (l : list Endpoint) : Z :=
  foldl (λ m e, if bool_decide (Addr e = a) then Z.max m (norm_weight (Weight e)) else m) 0 l.
Definition dedupe_spec (l : list Endpoint) : list Endpoint :=
  map (λ a, mkEp a (maxw a l)) (firsts (map Addr l)).

Lemma firsts_snoc l a : firsts (l ++ [a]) = if bool_decide (a ∈ firsts l) then firsts l else firsts l ++ [a].
Proof. unfold firsts. by rewrite foldl_app. Qed.
Lemma maxw_snoc a l e : maxw a (l ++ [e]) =
  if bool_decide (Addr e = a) then Z.max (maxw a l) (norm_weight (Weight e)) else maxw a l.
Proof. unfold maxw. by rewrite foldl_app. Qed.

Lemma elem_firsts a l : a ∈ firsts l ↔ a ∈ l.
Proof.
  induction l as [|x l IH] using rev_ind; [done|]. rewrite firsts_snoc.
  case_bool_decide; set_solver.
Qed.
Lemma NoDup_firsts l : NoDup (firsts l).
Proof.
  induction l as [|x l IH] using rev_ind; [constructor|]. rewrite firsts_snoc. case_bool_decide; [done|].
  apply NoDup_app. split; [done|]. split; [|apply NoDup_singleton]. set_solver.
Qed.

Lemma norm_weight_pos w : 1 <= norm_weight w.
Proof. unfold norm_weight. zb; lia. Qed.
Lemma maxw_absent a l : a ∉ map Addr l → maxw a l = 0.
Proof.
  induction l as [|e l IH] using rev_ind; [done|]. rewrite map_app, maxw_snoc. cbn. intros Hn.
  rewrite bool_decide_false by set_solver. apply IH. set_solver.
Qed.

(** The loop state mirrors the specification of the prefix read so far. *)
Definition dedupe_inv (l : list Endpoint) (acc : gmap string nat * list Endpoint) : Prop :=
  acc.2 = dedupe_spec l ∧ ∀ a i, acc.1 !! a = Some i ↔ firsts (map Addr l) !! i = Some a.

Lemma dedupe_spec_lookup l i a : firsts (map Addr l) !! i = Some a →
  dedupe_spec l !! i = Some (mkEp a (maxw a l)).
Proof. intros H. unfold dedupe_spec. by rewrite list_lookup_fmap, H. Qed.

Lemma dedupe_spec_seen l e i : firsts (map Addr l) !! i = Some (Addr e) →
  dedupe_spec (l ++ [e]) = <[i := mkEp (Addr e) (Z.max (maxw (Addr e) l) (norm_weight (Weight e)))]> (dedupe_spec l).
Proof.
  intros Hi. unfold dedupe_spec. rewrite map_app. cbn [map]. rewrite firsts_snoc.
  rewrite bool_decide_true by (by eapply list_elem_of_lookup_2).
  apply list_eq. intros j. rewrite list_lookup_fmap.
  destruct (decide (i = j)) as [<-|Hne].
  - rewrite Hi, list_lookup_insert_eq by (rewrite length_map; by eapply lookup_lt_Some).
    cbn. by rewrite maxw_snoc, bool_decide_true.
  - rewrite list_lookup_insert_ne by done. rewrite list_lookup_fmap.
    destruct (firsts (map Addr l) !! j) as [a|] eqn:Ej; [|done]. cbn. rewrite maxw_snoc.
    rewrite bool_decide_false; [done|]. intros <-. apply Hne.
    by eapply NoDup_lookup; [apply NoDup_firsts| |].
Qed.

Lemma dedupe_spec_new l e : Addr e ∉ map Addr l →
  dedupe_spec (l ++ [e]) = dedupe_spec l ++ [mkEp (Addr e) (norm_weight (Weight e))].
Proof.
  intros Hn. unfold dedupe_spec. rewrite map_app. cbn [map]. rewrite firsts_snoc.
  rewrite bool_decide_false by (by rewrite elem_firsts). rewrite map_app. cbn [map].
  f_equal.
  - apply map_ext_in. intros a Ha%list_elem_of_In. rewrite elem_firsts in Ha.
    rewrite maxw_snoc, bool_decide_false; [done|]. by intros <-.
  - rewrite maxw_snoc, bool_decide_true, maxw_absent by done.
    pose proof (norm_weight_pos (Weight e)). do 2 f_equal. lia.
Qed.

Lemma dedupe_step_inv l acc e : dedupe_inv l acc → dedupe_inv (l ++ [e]) (dedupe_step acc e).
Proof.
  destruct acc as [seen out]. intros [Hout Hseen]. cbn in Hout, Hseen. subst out.
  unfold dedupe_step. cbn [Addr Weight]. destruct (seen !! Addr e) as [i|] eqn:Es.
  - apply Hseen in Es. rewrite (dedupe_spec_lookup _ _ _ Es). split; cbn [fst snd Weight Addr].
    + rewrite (dedupe_spec_seen _ _ _ Es). pose proof (dedupe_spec_lookup _ _ _ Es) as Hl.
      destruct (Z.ltb_spec (maxw (Addr e) l) (norm_weight (Weight e))).
      * by rewrite Z.max_r by lia.
      * rewrite Z.max_l by lia. by rewrite list_insert_id.
    + intros a j. rewrite map_app. cbn [map]. rewrite firsts_snoc.
      rewrite bool_decide_true by (by eapply list_elem_of_lookup_2). apply Hseen.
  - assert (Addr e ∉ firsts (map Addr l)) as Hn.
    { intros [i Hi]%list_elem_of_lookup. apply Hseen in Hi. congruence. }
    split; cbn [fst snd].
    + rewrite dedupe_spec_new by (by rewrite <- elem_firsts). done.
    + intros a j. rewrite map_app. cbn [map]. rewrite firsts_snoc, bool_decide_false by done.
      assert (length (dedupe_spec l) = length (firsts (map Addr l))) as El by apply length_map.
      rewrite El, lookup_insert_Some, lookup_app_Some, list_lookup_singleton_Some, Hseen.
      split.
      * intros [[<- <-]|[Hne H]]; [right; split; [lia|]; split; [lia|done]|by left].
      * intros [H|(Hge & Hj & Ha)]; [right; split; [|done]|left; split; [done|lia]].
        intros <-. by apply Hn, list_elem_of_lookup; exists j.
Qed.

Lemma dedupe_refines_spec l : dedupeEndpoints l = dedupe_spec l.
Proof.
  assert (dedupe_inv l (foldl dedupe_step (∅, []) l)) as [H _]; [|exact H].
  induction l as [|e l IH] using rev_ind; [split; [done|]; intros a i; cbn; by rewrite lookup_empty|].
  rewrite foldl_app. cbn. by apply dedupe_step_inv.
Qed.

(** Merging endpoint lists is exact: the result has every address once, in the
    order of first occurrence, with the largest weight any entry gave it, and
    never a weight below one. *)
Theorem dedupe_refines l :
  map Addr (dedupeEndpoints l) = firsts (map Addr l) ∧ NoDup (map Addr (dedupeEndpoints l)) ∧
  ∀ e, e ∈ dedupeEndpoints l → Weight e = maxw (Addr e) l ∧ 1 <= Weight e ∧
    ∀ e', e' ∈ l → Addr e' = Addr e → norm_weight (Weight e') <= Weight e.
Proof.
  rewrite dedupe_refines_spec. unfold dedupe_spec. rewrite map_map. cbn [Addr]. rewrite map_id.
  split; [done|]. split; [apply NoDup_firsts|].
  intros e He. apply list_elem_of_fmap in He as (a & -> & Ha). cbn [Addr Weight].
  rewrite elem_firsts in Ha.
  assert (∀ e', e' ∈ l → Addr e' = a → norm_weight (Weight e') <= maxw a l) as Hmax.
  { clear Ha. induction l as [|x l IH] using rev_ind; [set_solver|]. intros e' He' Ea. rewrite maxw_snoc.
    apply elem_of_app in He' as [He'|He'%list_elem_of_singleton].
    - specialize (IH e' He' Ea). case_bool_decide; lia.
    - subst x. rewrite bool_decide_true by done. lia. }
  split; [done|]. split; [|done].
  apply list_elem_of_fmap in Ha as (e & -> & He). pose proof (norm_weight_pos (Weight e)).
  specialize (Hmax e He eq_refl). lia.
Qed.

(** ** The circuit breaker *)
Fixpoint fail_times (k : nat) (n : endpointNode) (threshold cooldown : Z) (at_ : nat → Z) : endpointNode :=
  match k with
  | O => n
  | S k' => MarkFailure (fail_times k' n threshold cooldown at_) threshold cooldown (at_ k')
  end.

Lemma fail_times_fails n threshold cooldown at_ k : fails n = 0 → Z.of_nat k < 2 ^ 31 →
  fails (fail_times k n threshold cooldown at_) = Z.of_nat k.
Proof.
  intros H0. induction k as [|k IH]; intros Hk; [done|]. cbn [fail_times MarkFailure fails].
  rewrite IH by lia. unfold i32. rewrite wraps_small by (cbn; lia). lia.
Qed.

(** The circuit breaker trips exactly at the threshold: fewer consecutive
    failures leave the node healthy, the threshold-th one takes it out for the
    cool-down counted from that failure and no longer, and one success restores
    it at once. *)
Theorem breaker_threshold n threshold cooldown at_ k t :
  fails n = 0 → downUntil n = 0 → 0 < threshold < 2 ^ 31 → 0 < cooldown →
  0 < at_ (Z.to_nat threshold - 1)%nat + cooldown < 2 ^ 63 →
  (Z.of_nat k < threshold → Healthy (fail_times k n threshold cooldown at_) t = true) ∧
  (Z.of_nat k = threshold →
     Healthy (fail_times k n threshold cooldown at_) t = (at_ (k - 1)%nat + cooldown <=? t)) ∧
  Healthy (MarkSuccess (fail_times k n threshold cooldown at_)) t = true.
Proof.
  intros Hf Hd Ht Hc Hat. split_and!; [| |done].
  - intros Hk. assert (downUntil (fail_times k n threshold cooldown at_) = 0) as E; [|unfold Healthy; by rewrite E].
    induction k as [|k IH]; [done|]. cbn [fail_times MarkFailure downUntil].
    rewrite fail_times_fails by (done || lia). unfold i32. rewrite wraps_small by (cbn; lia).
    destruct (Z.leb_spec threshold 0); [lia|]. destruct (Z.leb_spec threshold (Z.of_nat k + 1)); [lia|].
    apply IH. lia.
  - intros Hk. destruct k as [|k]; [lia|]. unfold Healthy. cbn [fail_times MarkFailure downUntil].
    rewrite fail_times_fails by (done || lia). unfold i32. rewrite wraps_small by (cbn; lia).
    destruct (Z.leb_spec threshold 0); [lia|]. destruct (Z.leb_spec threshold (Z.of_nat k + 1)); [|lia].
    destruct (Z.leb_spec cooldown 0); [lia|].
    replace (Z.to_nat threshold - 1)%nat with k in Hat by lia. replace (S k - 1)%nat with k by lia.
    unfold i64. rewrite wraps_small by (cbn; lia).
    destruct (Z.eqb_spec (at_ k + cooldown) 0); [lia|]. done.
Qed.

Definition ex_node : endpointNode := newNode 0 (mkEp "a:1" 1) (newStreamPool 1 0 0 0 0).
Lemma breaker_threshold_witness :
  Healthy (fail_times 2 ex_node 2 100 (λ k, Z.of_nat k)) 50 = false ∧
  Healthy (fail_times 1 ex_node 2 100 (λ k, Z.of_nat k)) 50 = true.
Proof.
  split.
  - rewrite (proj1 (proj2 (breaker_threshold ex_node 2 100 (λ k, Z.of_nat k) 2 50
      eq_refl eq_refl ltac:(lia) ltac:(lia) ltac:(cbn; lia))) eq_refl). reflexivity.
  - apply (breaker_threshold ex_node 2 100 (λ k, Z.of_nat k) 1 50); cbn; first [reflexivity|lia].
Defined.

(** ** Printing and parsing endpoint lists *)

(** *** Fields *)
Lemma fields_word p w rest : w ≠ "" → str_all (λ c, negb (p c)) w = true →
  match rest with EmptyString => True | String c _ => p c = true end →
  fields_func p (w +:+ rest) = w :: fields_func p rest.
Proof.
  intros Hne Hw Hr. revert Hne Hw. induction w as [|c w IH]; [done|]. intros _. cbn [str_all].
  intros [Hc Hw]%andb_true_iff. apply negb_true_iff in Hc. rewrite app_cons. cbn [fields_func]. rewrite Hc.
  destruct w as [|d w].
  - rewrite app_nil_l. destruct rest as [|e rest]; [done|]. by rewrite Hr.
  - rewrite app_cons. pose proof Hw as Hw'. cbn [str_all] in Hw'. apply andb_true_iff in Hw' as [Hd _].
    apply negb_true_iff in Hd. rewrite Hd. rewrite <- app_cons, IH by done. done.
Qed.

Lemma fields_join p c l : p c = true → Forall (λ w, w ≠ "" ∧ str_all (λ c, negb (p c)) w = true) l →
  fields_func p (join (str1 c) l) = l.
Proof.
  intros Hc Hl. induction Hl as [|w l [Hne Hw] Hl IH]; [done|].
  destruct l as [|w' l].
  - cbn [join]. rewrite <- (app_empty_r w) at 1. by rewrite fields_word.
  - rewrite join_cons by done. rewrite fields_word by done. f_equal.
    unfold str1 at 1. rewrite app_cons, app_nil_l. cbn [fields_func]. by rewrite Hc.
Qed.

Lemma rcut1_spec c s t : contains1 c t = false → rcut1 c (s +:+ String c t) = Some (s, t).
Proof.
  intros Ht. assert (rcut1 c t = None) as Hn.
  { induction t as [|d t IH]; [done|]. cbn [contains1] in Ht. apply orb_false_iff in Ht as [Hd Ht].
    cbn [rcut1]. by rewrite IH, Hd. }
  induction s as [|d s IH].
  - rewrite app_nil_l. cbn [rcut1]. by rewrite Hn, bool_decide_true.
  - rewrite app_cons. cbn [rcut1]. by rewrite IH.
Qed.

Lemma trim_space_id s : str_all (λ c, negb (Ascii.is_space c)) s = true → trim_space s = s.
Proof.
  intros Hs. unfold trim_space, trim_func. rewrite trim_left_id.
  - apply trim_right_id. destruct (last_char s) as [c|] eqn:E; [|done].
    pose proof (str_all_last _ _ _ Hs E) as H. cbn in H. by apply negb_true_iff in H.
  - destruct s as [|c s]; [done|]. cbn in Hs. apply andb_true_iff in Hs as [Hc _]. by apply negb_true_iff in Hc.
Qed.

(** *** The round trip *)
Definition clean (c : ascii) : bool := negb (is_sep c) && negb (Ascii.is_space c).
Definition show_ep (e : Endpoint) : string := Addr e +:+ String "@" (pretty (Weight e)).

Section roundtrip.
Context (SplitHostPort : string → err + string * string).

Record printable (e : Endpoint) : Prop := {
  pr_clean : str_all clean (Addr e) = true;
  pr_valid : ∃ hp, SplitHostPort (Addr e) = inr hp;
  pr_weight : 0 < Weight e < 2 ^ 63 }.

Lemma digit_clean c : is_digit c = true → clean c = true ∧ c ≠ "@"%char.
Proof.
  unfold is_digit. rewrite bool_decide_eq_true. intros [d H].
  destruct c as [[] [] [] [] [] [] [] []]; try discriminate H; done.
Qed.

Lemma show_ep_clean e : printable e → str_all clean (show_ep e) = true.
Proof.
  intros [Hc _ Hw]. unfold show_ep. rewrite str_all_app, Hc. cbn [str_all andb].
  destruct (pretty_pos_digits (Weight e) ltac:(lia)) as (d & t & -> & Hd & Ht). cbn [str_all].
  assert (is_digit (pretty_N_char d) = true) as Hdd.
  { unfold is_digit. rewrite is_nat_digit by done. by apply bool_decide_eq_true. }
  destruct (digit_clean _ Hdd) as [-> _].
  rewrite (str_all_impl is_digit clean) by (done || (intros; by apply digit_clean)). done.
Qed.

Lemma parse_show e : printable e → parseOneEndpoint SplitHostPort (show_ep e) = inr e.
Proof.
  intros Hp. pose proof (show_ep_clean e Hp) as Hcl. destruct Hp as [Hc [hp Hv] Hw].
  unfold parseOneEndpoint. rewrite trim_space_id
    by (eapply str_all_impl; [|exact Hcl]; intros c [_ ?]%andb_true_iff; done).
  rewrite bool_decide_false by (unfold show_ep; by destruct (Addr e)).
  unfold show_ep. rewrite rcut1_spec.
  - rewrite atoi_pretty by done. destruct (Z.leb_spec (Weight e) 0); [lia|]. rewrite Hv. by destruct e.
  - destruct (pretty_pos_digits (Weight e) ltac:(lia)) as (d & t & -> & Hd & Ht).
    assert (is_digit (pretty_N_char d) = true) as Hdd.
    { unfold is_digit. rewrite is_nat_digit by done. by apply bool_decide_eq_true. }
    cbn [contains1]. rewrite bool_decide_false by (by apply digit_clean). cbn [orb].
    clear -Ht. induction t as [|c t IH]; [done|]. cbn [str_all contains1] in *.
    apply andb_true_iff in Ht as [Hc Ht]. rewrite bool_decide_false by (by apply digit_clean). by apply IH.
Qed.

Lemma parseEndpointList_join eps : eps ≠ [] → Forall printable eps →
  parseEndpointList SplitHostPort (join "," (map show_ep eps)) = inr (dedupeEndpoints eps).
Proof.
  intros Hne Hp.
  assert (Forall (λ w, w ≠ "" ∧ str_all clean w = true) (map show_ep eps)) as Hw.
  { apply Forall_fmap. eapply Forall_impl; [exact Hp|]. intros e He. cbn. split; [|by apply show_ep_clean].
    unfold show_ep. by destruct (Addr e). }
  assert (str_all (λ c, negb (Ascii.is_space c)) (join "," (map show_ep eps)) = true) as Hns.
  { clear Hne Hp. induction Hw as [|w l [_ H] Hl IH]; [done|].
    assert (str_all (λ c, negb (Ascii.is_space c)) w = true) as Hw1
      by (eapply str_all_impl; [|exact H]; by intros c [_ ?]%andb_true_iff).
    destruct l; [done|]. rewrite join_cons, !str_all_app, Hw1, IH by done. done. }
  unfold parseEndpointList. rewrite trim_space_id by done.
  assert (fields_func is_sep (join "," (map show_ep eps)) = map show_ep eps) as Hf.
  { apply (fields_join is_sep ","); [done|]. eapply Forall_impl; [exact Hw|]. cbn. intros w [? H]. split; [done|].
    eapply str_all_impl; [|exact H]. by intros c [? _]%andb_true_iff. }
  rewrite bool_decide_false.
  - rewrite Hf. destruct eps as [|e eps]; [done|]. cbn [map].
    assert (∀ l, Forall printable l → parse_all SplitHostPort (map show_ep l) = inr l) as Ha.
    { intros l Hl. induction Hl as [|x l Hx Hl IH]; [done|]. cbn [map parse_all]. by rewrite parse_show, IH. }
    change (show_ep e :: map show_ep eps) with (map show_ep (e :: eps)). by rewrite Ha.
  - destruct eps as [|e eps]; [done|]. intros E. rewrite E in Hf. discriminate Hf.
Qed.

(** Endpoint lists survive printing: a list of endpoints written as
    "addr@weight" entries separated by commas parses back to exactly these
    endpoints with duplicates merged; each entry alone parses back to itself. *)
Theorem parse_print_roundtrip eps : eps ≠ [] → Forall printable eps →
  parseEndpointList SplitHostPort (join "," (map show_ep eps)) = inr (dedupeEndpoints eps) ∧
  Forall (λ e, parseOneEndpoint SplitHostPort (show_ep e) = inr e) eps.
Proof.
  intros Hne Hp. split; [by apply parseEndpointList_join|].
  eapply Forall_impl; [exact Hp|]. apply parse_show.
Qed.
End roundtrip.

Definition ex_split (s : string) : err + string * string :=
  match rcut1 ":" s with Some hp => inr hp | None => inl (errors_new "missing port in address") end.
Lemma parse_print_roundtrip_witness :
  parseEndpointList ex_split "a:1@3,b:2@1,a:1@5" = inr [mkEp "a:1" 5; mkEp "b:2" 1].
Proof.
  apply (parse_print_roundtrip ex_split [mkEp "a:1" 3; mkEp "b:2" 1; mkEp "a:1" 5]).
  - discriminate.
  - repeat constructor; cbn; first [lia | eexists; reflexivity].
Defined.
