(* ===== verification/Balancer.v ===== *)
(** * Load balancers of the micro/net client

    Models [src/micro/net/balancer.go].  The interface [Balancer] is a class whose
    law is what the client relies on: a pick from a non-empty list is one of its
    members.  Its [Pick] may return nil; the built-in ones do not.  Picks read the nodes' in-flight counts from the stream store; random
    numbers come from an arbitrary stream of raw draws.  [None] is a panic. *)

From S2P Require Import Prelude NetErrors GoStrings Frame Stream StreamPool Endpoint.
Local Open Scope Z_scope.

(** The k-th call of [rand.IntN(n)]. *)
Abbreviation entropy := (nat → Z).
Definition IntN (r : entropy) (k : nat) (n : Z) : Z := r k mod n.

Class Balancer (B : Type) := {
  Pick : B → entropy → store → list endpointNode → option (option endpointNode * B);
  bal_ok : B → Prop;
  Pick_member : ∀ b r st cs, bal_ok b → cs ≠ [] →
    ∃ n b', Pick b r st cs = Some (Some n, b') ∧ n ∈ cs ∧ bal_ok b' }.
Definition picked {B} (o : option (endpointNode * B)) : option (option endpointNode * B) := option_map (λ x, (Some x.1, x.2)) o.

(** ** Round robin: an atomic 64-bit counter *)
Record RoundRobinBalancer := mkRR { rr_n : Z }.
Definition NewRoundRobinBalancer : RoundRobinBalancer := mkRR 0.

Definition rr_Pick (b : RoundRobinBalancer) (cs : list endpointNode) : option (endpointNode * RoundRobinBalancer) :=
  match cs with
  | [c] => Some (c, b)
  | _ =>
      let n' := u64 (rr_n b + 1) in
      let i := u64 (n' - 1) in
      if (length cs =? 0)%nat then None
      else c ← cs !! Z.to_nat (i mod Z.of_nat (length cs)); Some (c, mkRR n')
  end.

(** ** Uniform random *)
Record RandomBalancer := mkRandom {}.
Definition random_Pick (r : entropy) (cs : list endpointNode) : option endpointNode :=
  match cs with
  | [c] => Some c
  | _ => if (length cs =? 0)%nat then None else cs !! Z.to_nat (IntN r 0 (Z.of_nat (length cs)))
  end.

(** ** Least active, ties broken by reservoir sampling *)
Record LeastActiveBalancer := mkLA {}.
Fixpoint la_loop (r : entropy) (st : store) (l : list endpointNode) (k : nat)
    (best : endpointNode) (bestLoad ties : Z) : endpointNode :=
  match l with
  | [] => best
  | c :: l' =>
      let ld := Inflight c st in
      if ld <? bestLoad then la_loop r st l' k c ld 1
      else if ld =? bestLoad then
        let ties := ties + 1 in
        la_loop r st l' (S k) (if IntN r k ties =? 0 then c else best) bestLoad ties
      else la_loop r st l' k best bestLoad ties
  end.
Definition la_Pick (r : entropy) (st : store) (cs : list endpointNode) : option endpointNode :=
  match cs with
  | [] => None
  | [c] => Some c
  | c :: l => Some (la_loop r st l 0 c (Inflight c st) 1)
  end.

(** ** Smooth weighted round robin *)
Record wrrState := mkWrr { addrs : list string; weights : list Z; current : list Z; total : Z }.
Record WeightedRoundRobinBalancer := mkWRR { wrr_state : option wrrState }.
Definition NewWeightedRoundRobinBalancer : WeightedRoundRobinBalancer := mkWRR None.

Fixpoint wrr_match (as_ : list string) (ws : list Z) (cs : list endpointNode) : bool :=
  match as_, ws, cs with
  | [], _, [] => true
  | a :: as', w :: ws', c :: cs' =>
      bool_decide (a = node_Addr c) && (w =? node_Weight c) && wrr_match as' ws' cs'
  | _, _, _ => false
  end.
Definition wrrMatches (st : wrrState) (cs : list endpointNode) : bool := wrr_match (addrs st) (weights st) cs.

Definition buildWRRState (cs : list endpointNode) : wrrState :=
  mkWrr (map node_Addr cs) (map node_Weight cs) (replicate (length cs) 0)
    (foldl (λ t c, i64 (t + node_Weight c)) 0 cs).

(** The scan: [nextCurrent] and the index of its first maximum above [bestVal]. *)
Fixpoint wrr_loop (ws cur : list Z) (i bestIdx : nat) (bestVal : Z) : list Z * nat :=
  match ws, cur with
  | w :: ws', c :: cur' =>
      let v := i64 (c + w) in
      let '(rest, idx) := if bestVal <? v then wrr_loop ws' cur' (S i) i v
                          else wrr_loop ws' cur' (S i) bestIdx bestVal in
      (v :: rest, idx)
  | _, _ => ([], bestIdx)
  end.

Definition wrr_next (st : wrrState) : option (nat * wrrState) :=
  let '(next, bestIdx) := wrr_loop (weights st) (current st) 0 0 (- 2 ^ 30) in
  v ← next !! bestIdx;
  Some (bestIdx, mkWrr (addrs st) (weights st) (<[bestIdx := i64 (v - total st)]> next) (total st)).

(** One pass of the compare-and-swap loop that succeeds.  A pass that fails may have
    stored a state built anew for its candidates before; the successful pass starts
    from the state it replaces, whoever stored it. *)
Definition wrr_Pick (b : WeightedRoundRobinBalancer) (cs : list endpointNode)
  : option (endpointNode * WeightedRoundRobinBalancer) :=
  match cs with
  | [c] => Some (c, b)
  | _ =>
      let st := match wrr_state b with
                | Some st => if wrrMatches st cs then st else buildWRRState cs
                | None => buildWRRState cs
                end in
      '(bestIdx, st') ← wrr_next st;
      want ← addrs st !! bestIdx;
      match list_find (λ c, node_Addr c = want) cs with
      | Some (_, c) => Some (c, mkWRR (Some st'))
      | None => c ← cs !! (bestIdx mod length cs)%nat; Some (c, mkWRR (Some st'))
      end
  end.

(** ** The instances *)
Lemma rr_Pick_member b cs : cs ≠ [] → ∃ n b', rr_Pick b cs = Some (n, b') ∧ n ∈ cs.
Proof.
  intros Hne. destruct cs as [|c [|c' cs]]; [done|by eexists _, _; split; [reflexivity|left]|].
  unfold rr_Pick. cbv zeta. set (l := c :: c' :: cs). destruct (Nat.eqb_spec (length l) 0) as [E|_]; [done|].
  destruct (lookup_lt_is_Some_2 l (Z.to_nat (u64 (u64 (rr_n b + 1) - 1) mod Z.of_nat (length l)))) as [n Hn].
  { pose proof (Z.mod_pos_bound (u64 (u64 (rr_n b + 1) - 1)) (Z.of_nat (length l)) ltac:(cbn; lia)). lia. }
  rewrite Hn. eexists _, _. split; [reflexivity|]. by eapply list_elem_of_lookup_2.
Qed.

Lemma random_Pick_member r cs : cs ≠ [] → ∃ n, random_Pick r cs = Some n ∧ n ∈ cs.
Proof.
  intros Hne. destruct cs as [|c [|c' cs]]; [done|by eexists; split; [reflexivity|left]|].
  unfold random_Pick. set (l := c :: c' :: cs). destruct (Nat.eqb_spec (length l) 0) as [E|_]; [done|].
  destruct (lookup_lt_is_Some_2 l (Z.to_nat (IntN r 0 (Z.of_nat (length l))))) as [n Hn].
  { unfold IntN. pose proof (Z.mod_pos_bound (r 0%nat) (Z.of_nat (length l)) ltac:(cbn; lia)). lia. }
  rewrite Hn. eexists. split; [reflexivity|]. by eapply list_elem_of_lookup_2.
Qed.

Lemma la_loop_spec r st l : ∀ k best bl ties, Inflight best st = bl →
  (la_loop r st l k best bl ties = best ∨ la_loop r st l k best bl ties ∈ l) ∧
  Inflight (la_loop r st l k best bl ties) st <= bl ∧
  ∀ c, c ∈ l → Inflight (la_loop r st l k best bl ties) st <= Inflight c st.
Proof.
  induction l as [|c l IH]; intros k best bl ties Hb; cbn [la_loop]; [split_and!; [by left|lia|set_solver]|].
  destruct (Z.ltb_spec (Inflight c st) bl) as [Hlt|Hge]; [|destruct (Z.eqb_spec (Inflight c st) bl) as [E|Hne]].
  - destruct (IH k c (Inflight c st) 1 eq_refl) as (H1 & H2 & H3). split_and!; [set_solver|lia|].
    intros x [->|Hx]%elem_of_cons; [lia|by apply H3].
  - destruct (IH (S k) (if IntN r k (ties + 1) =? 0 then c else best) bl (ties + 1)) as (H1 & H2 & H3);
      [by destruct (_ =? 0)|].
    split_and!; [|lia|intros x [->|Hx]%elem_of_cons; [lia|by apply H3]].
    destruct (_ =? 0); set_solver.
  - destruct (IH k best bl ties Hb) as (H1 & H2 & H3). split_and!; [set_solver|lia|].
    intros x [->|Hx]%elem_of_cons; [lia|by apply H3].
Qed.

Lemma la_Pick_spec r st cs : cs ≠ [] → ∃ n, la_Pick r st cs = Some n ∧ n ∈ cs ∧
  ∀ c, c ∈ cs → Inflight n st <= Inflight c st.
Proof.
  intros Hne. destruct cs as [|c [|c' cs]]; [done| |].
  - exists c. split_and!; [done|left|]. intros x ->%list_elem_of_singleton. lia.
  - unfold la_Pick. destruct (la_loop_spec r st (c' :: cs) 0 c (Inflight c st) 1 eq_refl) as (H1 & H2 & H3).
    eexists. split_and!; [reflexivity|set_solver|]. intros x [->|Hx]%elem_of_cons; [done|by apply H3].
Qed.

Lemma wrr_loop_length ws : ∀ cur i bi bv, length cur = length ws →
  length (wrr_loop ws cur i bi bv).1 = length ws ∧
  ((wrr_loop ws cur i bi bv).2 = bi ∨ (i <= (wrr_loop ws cur i bi bv).2 < i + length ws)%nat).
Proof.
  induction ws as [|w ws IH]; intros [|c cur] i bi bv Hl; try done; [by split; [|left]|].
  cbn [wrr_loop length] in *. injection Hl as Hl.
  destruct (bv <? i64 (c + w)).
  - specialize (IH cur (S i) i (i64 (c + w)) Hl). destruct (wrr_loop ws cur _ _ _) as [rest idx]. cbn in *.
    destruct IH as [-> [->|?]]; split; [done|right; lia|done|right; lia].
  - specialize (IH cur (S i) bi bv Hl). destruct (wrr_loop ws cur _ _ _) as [rest idx]. cbn in *.
    destruct IH as [-> [->|?]]; split; [done|by left|done|right; lia].
Qed.

Lemma wrr_match_true as_ ws cs : wrr_match as_ ws cs = true → length ws = length as_ →
  as_ = map node_Addr cs ∧ ws = map node_Weight cs.
Proof.
  revert ws cs. induction as_ as [|a as_ IH]; intros [|w ws] [|c cs] H Hl; try done. cbn in *.
  apply andb_true_iff in H as [[->%bool_decide_eq_true ->%Z.eqb_eq]%andb_true_iff H].
  injection Hl as Hl. by destruct (IH ws cs H Hl) as [<- <-].
Qed.

(** The state of a balancer after picks on any lists: parallel lists. *)
Definition wrr_wf (st : wrrState) : Prop :=
  length (weights st) = length (addrs st) ∧ length (current st) = length (addrs st).

Lemma build_wf cs : wrr_wf (buildWRRState cs).
Proof. split; cbn; rewrite ?length_map, ?length_replicate; done. Qed.

Lemma wrr_next_wf st : wrr_wf st → addrs st ≠ [] →
  ∃ idx st', wrr_next st = Some (idx, st') ∧ (idx < length (addrs st))%nat ∧ wrr_wf st' ∧ addrs st' = addrs st.
Proof.
  intros [Hw Hc] Hne. unfold wrr_next.
  destruct (wrr_loop_length (weights st) (current st) 0 0 (- 2 ^ 30) ltac:(congruence)) as [Hl Hi].
  destruct (wrr_loop _ _ _ _ _) as [next idx]. cbn [fst snd] in *.
  assert (idx < length (addrs st))%nat as Hidx.
  { destruct (addrs st); [done|]. rewrite Hw in Hi. cbn in *. destruct Hi as [->|?]; lia. }
  destruct (lookup_lt_is_Some_2 next idx) as [v Hv]; [congruence|]. rewrite Hv. cbn [mbind option_bind].
  eexists _, _. split_and!; [reflexivity|done| |done]. split; cbn; rewrite ?length_insert; congruence.
Qed.

Definition wrr_ok (b : WeightedRoundRobinBalancer) : Prop :=
  match wrr_state b with Some st => wrr_wf st | None => True end.

Lemma wrr_Pick_member b cs : wrr_ok b → cs ≠ [] →
  ∃ n b', wrr_Pick b cs = Some (n, b') ∧ n ∈ cs ∧ wrr_ok b'.
Proof.
  unfold wrr_ok. intros Hok Hne. destruct cs as [|c [|c' cs]]; [done|by exists c, b; split_and!; [done|left|]|].
  unfold wrr_Pick. set (l := c :: c' :: cs).
  set (st := match wrr_state b with Some st => if wrrMatches st l then st else buildWRRState l | None => buildWRRState l end).
  assert (wrr_wf st ∧ addrs st = map node_Addr l) as [Hwf Ha].
  { unfold st. destruct (wrr_state b) as [s|]; [|by split; [apply build_wf|]].
    destruct (wrrMatches s l) eqn:E; [|by split; [apply build_wf|]].
    split; [done|]. apply wrr_match_true in E as [? _]; [done|]. apply Hok. }
  destruct (wrr_next_wf st Hwf) as (idx & st' & -> & Hi & Hwf' & _); [by rewrite Ha|]. cbn [mbind option_bind].
  destruct (lookup_lt_is_Some_2 _ _ Hi) as [want Hw]. rewrite Hw. cbn [mbind option_bind].
  rewrite Ha in Hw. apply list_lookup_fmap_Some in Hw as (n & -> & Hn).
  destruct (list_find_elem_of (λ c0, node_Addr c0 = node_Addr n) l n) as [[j m] Hj];
    [by eapply list_elem_of_lookup_2|done|].
  rewrite Hj. eexists _, _. split_and!; [reflexivity| |done].
  apply list_find_Some in Hj as (Hj & _). by eapply list_elem_of_lookup_2.
Qed.

#[export] Program Instance rr_balancer : Balancer RoundRobinBalancer := {|
  Pick := λ b _ _ cs, picked (rr_Pick b cs); bal_ok := λ _, True |}.
Next Obligation. intros b r st cs _ Hne. destruct (rr_Pick_member b cs Hne) as (n & b' & -> & ?). cbn. eauto. Qed.

#[export] Program Instance random_balancer : Balancer RandomBalancer := {|
  Pick := λ b r _ cs, picked (option_map (λ n, (n, b)) (random_Pick r cs)); bal_ok := λ _, True |}.
Next Obligation.
  intros b r st cs _ Hne. destruct (random_Pick_member r cs Hne) as (n & -> & ?). cbn. eauto.
Qed.

#[export] Program Instance la_balancer : Balancer LeastActiveBalancer := {|
  Pick := λ b r st cs, picked (option_map (λ n, (n, b)) (la_Pick r st cs)); bal_ok := λ _, True |}.
Next Obligation.
  intros b r st cs _ Hne. destruct (la_Pick_spec r st cs Hne) as (n & -> & ? & _). cbn. eauto.
Qed.

#[export] Program Instance wrr_balancer : Balancer WeightedRoundRobinBalancer := {|
  Pick := λ b _ _ cs, picked (wrr_Pick b cs); bal_ok := wrr_ok |}.
Next Obligation. intros b r st cs Hok Hne. destruct (wrr_Pick_member b cs Hok Hne) as (n & b' & -> & ? & ?). cbn. eauto. Qed.

(** [NewBalancer]: the built-in policies by name; anything else is round robin. *)
Inductive any_balancer :=
| BRR (b : RoundRobinBalancer) | BRandom (b : RandomBalancer) | BLA (b : LeastActiveBalancer)
| BWRR (b : WeightedRoundRobinBalancer).

Definition NewBalancer (policy : string) : any_balancer :=
  if bool_decide (policy = "random") then BRandom (mkRandom)
  else if bool_decide (policy = "least_active") then BLA mkLA
  else if bool_decide (policy = "weighted_round_robin") then BWRR NewWeightedRoundRobinBalancer
  else BRR NewRoundRobinBalancer.

Definition any_Pick (b : any_balancer) (r : entropy) (st : store) (cs : list endpointNode)
  : option (option endpointNode * any_balancer) :=
  match b with
  | BRR b => option_map (λ x, (x.1, BRR x.2)) (Pick b r st cs)
  | BRandom b => option_map (λ x, (x.1, BRandom x.2)) (Pick b r st cs)
  | BLA b => option_map (λ x, (x.1, BLA x.2)) (Pick b r st cs)
  | BWRR b => option_map (λ x, (x.1, BWRR x.2)) (Pick b r st cs)
  end.

Definition any_ok (b : any_balancer) : Prop :=
  match b with BRR b => bal_ok b | BRandom b => bal_ok b | BLA b => bal_ok b | BWRR b => bal_ok b end.

#[export] Program Instance any_balancer_balancer : Balancer any_balancer := {| Pick := any_Pick; bal_ok := any_ok |}.
Next Obligation.
  intros [b|b|b|b] r st cs Hok Hne; destruct (Pick_member b r st cs Hok Hne) as (n & b' & E & Hn & Hb');
    unfold any_Pick; rewrite E; cbn; eauto.
Qed.
