(* ===== verification/BalancerFacts.v ===== *)
(** * Fairness of the load balancers *)

From S2P Require Import Prelude NetErrors GoStrings Frame Stream StreamPool Endpoint EndpointFacts Balancer.
Local Open Scope Z_scope.

(** ** Consecutive picks on the same candidates, through the interface *)
Fixpoint bal_run {B} `{Balancer B} (k : nat) (b : B) (r : nat → entropy) (st : nat → store) (cs : list endpointNode)
  : option (list endpointNode * B) :=
  match k with
  | O => Some ([], b)
  | S k' => '(ns, b) ← bal_run k' b r st cs; '(n, b) ← Pick b (r k') (st k') cs; n ← n; Some (ns ++ [n], b)
  end.

(** ** Counts *)
Definition cnt (i : nat) (is_ : list nat) : Z := Z.of_nat (length (List.filter (Nat.eqb i) is_)).
Lemma cnt_snoc i is_ j : cnt i (is_ ++ [j]) = cnt i is_ + (if (i =? j)%nat then 1 else 0).
Proof. unfold cnt. rewrite List.filter_app, length_app. cbn. destruct (i =? j)%nat; cbn; lia. Qed.

Lemma sum_cnt n is_ : Forall (λ i, i < n)%nat is_ → sumZ (map (λ i, cnt i is_) (seq 0 n)) = Z.of_nat (length is_).
Proof.
  induction is_ as [|j is_ IH] using rev_ind; intros H.
  - assert (∀ l, sumZ (map (λ i, cnt i []) l) = 0) as E.
    { induction l as [|x l IHl]; [done|]. cbn [map sumZ]. rewrite IHl. done. } apply E.
  - apply Forall_app in H as [H [Hj _]%Forall_cons]. specialize (IH H). rewrite length_app. cbn [length].
    assert (∀ l, NoDup l → sumZ (map (λ i, cnt i (is_ ++ [j])) l)
      = sumZ (map (λ i, cnt i is_) l) + (if bool_decide (j ∈ l) then 1 else 0)) as E.
    { induction 1 as [|x l Hx Hl IHl]; [done|]. cbn [map sumZ]. rewrite cnt_snoc, IHl.
      destruct (Nat.eqb_spec x j) as [->|Hne].
      - rewrite (bool_decide_false (j ∈ l)) by done. rewrite bool_decide_true by left. lia.
      - assert (bool_decide (j ∈ x :: l) = bool_decide (j ∈ l)) as ->; [|lia].
        apply bool_decide_ext. rewrite elem_of_cons. split; [intros [->|?]; done|by right]. }
    rewrite E by apply NoDup_seq. rewrite bool_decide_true by (apply elem_of_seq; lia). lia.
Qed.

(** ** The core of smooth weighted round robin *)
Lemma wrr_loop_spec ws : ∀ cur i bi bv, length cur = length ws →
  let nx := zip_with (λ c w, i64 (c + w)) cur ws in
  (wrr_loop ws cur i bi bv).1 = nx ∧
  (((wrr_loop ws cur i bi bv).2 = bi ∧ Forall (λ v, v <= bv) nx) ∨
   ∃ j v, (wrr_loop ws cur i bi bv).2 = (i + j)%nat ∧ nx !! j = Some v ∧ bv < v ∧ Forall (λ v', v' <= v) nx).
Proof.
  induction ws as [|w ws IH]; intros [|c cur] i bi bv Hl; try done; [split; [done|left; by split]|].
  cbn [wrr_loop length zip_with] in *. injection Hl as Hl. set (x := i64 (c + w)).
  destruct (Z.ltb_spec bv x) as [Hlt|Hge].
  - specialize (IH cur (S i) i x Hl) as [IH1 IH2]. destruct (wrr_loop ws cur _ _ _) as [rest idx]. cbn [fst snd] in *.
    subst rest. split; [done|]. right. destruct IH2 as [[-> Hall]|(j & v & -> & Hj & Hv & Hall)].
    + exists 0%nat, x. split_and!; [lia|done|done|]. constructor; [lia|done].
    + exists (S j), v. split_and!; [lia|done|lia|]. constructor; [lia|done].
  - specialize (IH cur (S i) bi bv Hl) as [IH1 IH2]. destruct (wrr_loop ws cur _ _ _) as [rest idx]. cbn [fst snd] in *.
    subst rest. split; [done|]. destruct IH2 as [[-> Hall]|(j & v & -> & Hj & Hv & Hall)].
    + left. split; [done|]. constructor; [lia|done].
    + right. exists (S j), v. split_and!; [lia|done|lia|]. constructor; [lia|done].
Qed.

Section wrr_core.
Context (as_ : list string) (ws : list Z).
Abbreviation n := (length ws).
Abbreviation tot := (sumZ ws).
Hypothesis ws_pos : Forall (λ w, 1 <= w) ws.
Hypothesis n_pos : (0 < n)%nat.
Hypothesis fits : Z.of_nat n * tot < 2 ^ 63.

Record cur_ok (cur : list Z) : Prop := {
  co_len : length cur = n; co_sum : sumZ cur = 0; co_low : Forall (λ c, - tot < c) cur }.

Lemma weight_le w : w ∈ ws → 1 <= w <= tot.
Proof.
  intros (l1 & l2 & E)%list_elem_of_split. rewrite E in ws_pos. apply Forall_app in ws_pos as [H1 [Hw H2]%Forall_cons].
  pose proof (sumZ_lower 0 l1 ltac:(eapply Forall_impl; [exact H1|]; cbn; lia)).
  pose proof (sumZ_lower 0 l2 ltac:(eapply Forall_impl; [exact H2|]; cbn; lia)).
  rewrite E, sumZ_app. cbn. lia.
Qed.
Lemma tot_pos : 0 < tot.
Proof.
  destruct (lookup_lt_is_Some_2 ws 0 n_pos) as [w Hw].
  pose proof (weight_le w (list_elem_of_lookup_2 _ _ _ Hw)). lia.
Qed.

Lemma next_small cur c w : cur_ok cur → c ∈ cur → w ∈ ws → i64 (c + w) = c + w ∧ - tot < c + w <= Z.of_nat n * tot.
Proof.
  intros [Hlen Hsum Hlow] Hc Hw. pose proof (weight_le w Hw). pose proof tot_pos.
  pose proof (sumZ_elem_le tot cur c Hlow Hc) as Hup. rewrite Hsum, Hlen in Hup.
  pose proof (proj1 (Forall_forall _ _) Hlow c Hc) as Hl. cbn in Hl.
  assert (- tot < c + w <= Z.of_nat n * tot) by nia. split; [|done].
  unfold i64. apply wraps_small; [lia|]. cbn. nia.
Qed.

Lemma next_eq cur : cur_ok cur → zip_with (λ c w, i64 (c + w)) cur ws = zip_with Z.add cur ws.
Proof.
  intros Hok. apply list_eq. intros i. rewrite !lookup_zip_with.
  destruct (cur !! i) as [c|] eqn:Ec; [|done]. destruct (ws !! i) as [w|] eqn:Ew; [|done]. cbn.
  by rewrite (proj1 (next_small cur c w Hok (list_elem_of_lookup_2 _ _ _ Ec) (list_elem_of_lookup_2 _ _ _ Ew))).
Qed.

Lemma sum_zip cur : length cur = n → sumZ (zip_with Z.add cur ws) = sumZ cur + tot.
Proof.
  clear ws_pos n_pos fits. revert cur. induction ws as [|w l IH]; intros [|c cur] H; try done. cbn in *.
  injection H as H. rewrite (IH cur H). lia.
Qed.

(** One pick: the chosen index gets its weight minus the total, the others their
    weight; the state stays balanced. *)
Lemma wrr_next_spec cur : cur_ok cur → ∃ idx cur',
  wrr_next (mkWrr as_ ws cur tot) = Some (idx, mkWrr as_ ws cur' tot) ∧ (idx < n)%nat ∧ cur_ok cur' ∧
  ∀ i w c, ws !! i = Some w → cur !! i = Some c →
    cur' !! i = Some (c + w - if (i =? idx)%nat then tot else 0).
Proof.
  intros Hok. pose proof (next_eq cur Hok) as Hnx. pose proof tot_pos.
  destruct (wrr_loop_spec ws cur 0 0 (- 2 ^ 30) (co_len _ Hok)) as [H1 H2]. rewrite Hnx in *.
  set (nx := zip_with Z.add cur ws) in *.
  assert (sumZ nx = tot) as Hs by (unfold nx; rewrite sum_zip by apply Hok; rewrite (co_sum _ Hok); lia).
  assert (length nx = n) as Hl by (unfold nx; rewrite length_zip_with, (co_len _ Hok); lia).
  destruct (sumZ_pos nx) as (x & Hx & Hx0); [lia|].
  assert (∃ idx v, (wrr_loop ws cur 0 0 (- 2 ^ 30)).2 = idx ∧ nx !! idx = Some v ∧ x <= v) as (idx & v & Hidx & Hv & Hxv).
  { destruct H2 as [[_ Hall]|(j & v & E & Hj & _ & Hall)].
    - pose proof (proj1 (Forall_forall _ _) Hall x Hx) as Hc. cbn in Hc. lia.
    - exists j, v. split_and!; [done|done|]. by apply (proj1 (Forall_forall _ _) Hall x Hx). }
  exists idx, (<[idx := i64 (v - tot)]> nx).
  assert (v ∈ nx) as Hvin by (by eapply list_elem_of_lookup_2).
  assert (v <= Z.of_nat n * tot) as Hvup.
  { unfold nx in Hvin. apply elem_of_lookup_zip_with in Hvin as (i & c & w & -> & Hc & Hw).
    apply (next_small cur c w Hok); by eapply list_elem_of_lookup_2. }
  assert (i64 (v - tot) = v - tot) as Hvt by (unfold i64; apply wraps_small; [lia|cbn; nia]).
  split_and!.
  - unfold wrr_next. cbn [weights current addrs total].
    destruct (wrr_loop ws cur 0 0 (- 2 ^ 30)) as [nx' idx']. cbn [fst snd] in *. subst nx' idx'. by rewrite Hv.
  - rewrite <- Hl. by eapply lookup_lt_Some.
  - split; [by rewrite length_insert| |].
    + rewrite (sumZ_insert _ v) by done. lia.
    + rewrite Hvt. apply Forall_insert; [|lia]. apply Forall_forall. intros y Hy. unfold nx in Hy.
      apply elem_of_lookup_zip_with in Hy as (i & c & w & -> & Hc & Hw).
      apply (next_small cur c w Hok); by eapply list_elem_of_lookup_2.
  - intros i w c Hw Hc. destruct (Nat.eqb_spec i idx) as [->|Hne].
    + rewrite list_lookup_insert_eq by (by eapply lookup_lt_Some). rewrite Hvt.
      unfold nx in Hv. rewrite lookup_zip_with, Hc, Hw in Hv. cbn in Hv. injection Hv as <-. done.
    + rewrite list_lookup_insert_ne by done. unfold nx. rewrite lookup_zip_with, Hc, Hw. cbn. f_equal. lia.
Qed.

Fixpoint wrr_run (k : nat) (cur : list Z) : option (list nat * list Z) :=
  match k with
  | O => Some ([], cur)
  | S k' => '(is_, cur) ← wrr_run k' cur;
            '(i, st) ← wrr_next (mkWrr as_ ws cur tot); Some (is_ ++ [i], current st)
  end.

Lemma zeros_ok : cur_ok (replicate n 0).
Proof.
  pose proof tot_pos. split; [by rewrite length_replicate| |].
  - generalize n. intros m. induction m; cbn in *; lia.
  - apply Forall_replicate. lia.
Qed.

Lemma wrr_run_spec k : ∃ is_ cur, wrr_run k (replicate n 0) = Some (is_, cur) ∧ length is_ = k ∧
  Forall (λ i, i < n)%nat is_ ∧ cur_ok cur ∧
  ∀ i w, ws !! i = Some w → cur !! i = Some (Z.of_nat k * w - tot * cnt i is_).
Proof.
  induction k as [|k (is_ & cur & E & Hlen & Hall & Hok & Hcur)].
  - exists [], (replicate n 0). split_and!; [done|done|done|apply zeros_ok|].
    intros i w Hw. rewrite lookup_replicate_2 by (by eapply lookup_lt_Some). cbn. f_equal. unfold cnt. cbn. lia.
  - destruct (wrr_next_spec cur Hok) as (idx & cur' & E' & Hidx & Hok' & Hc'). cbn [wrr_run]. rewrite E. cbn. rewrite E'. cbn.
    exists (is_ ++ [idx]), cur'. split_and!; [done|rewrite length_app; cbn; lia| |done|].
    + apply Forall_app. split; [done|]. by constructor.
    + intros i w Hw. rewrite (Hc' i w _ Hw (Hcur i w Hw)), cnt_snoc. f_equal.
      destruct (i =? idx)%nat; lia.
Qed.

(** Never ahead by a full share, and exact after a full cycle. *)
Lemma wrr_smooth k is_ cur i w : wrr_run k (replicate n 0) = Some (is_, cur) → ws !! i = Some w →
  tot * cnt i is_ < Z.of_nat k * w + tot.
Proof.
  intros E Hw. destruct (wrr_run_spec k) as (is' & cur' & E' & _ & _ & Hok & Hc). rewrite E in E'. inv E'.
  pose proof (proj1 (Forall_forall _ _) (co_low _ Hok) _ (list_elem_of_lookup_2 _ _ _ (Hc i w Hw))) as H. cbn in H. lia.
Qed.

Lemma wrr_cycle is_ cur : wrr_run (Z.to_nat tot) (replicate n 0) = Some (is_, cur) →
  cur = replicate n 0 ∧ ∀ i w, ws !! i = Some w → cnt i is_ = w.
Proof.
  intros E. pose proof tot_pos. destruct (wrr_run_spec (Z.to_nat tot)) as (is' & cur' & E' & Hlen & Hall & Hok & Hc).
  rewrite E in E'. symmetry in E'. inv E'. rewrite Z2Nat.id in Hc by lia.
  assert (map (λ i, cnt i is_) (seq 0 n) = ws) as Hcnt.
  { apply sumZ_pointwise.
    - by rewrite length_map, length_seq.
    - apply Forall2_same_length_lookup_2; [by rewrite length_map, length_seq|]. intros i x w Hx Hw.
      rewrite list_lookup_fmap, lookup_seq_lt in Hx by (by eapply lookup_lt_Some). cbn in Hx. injection Hx as <-.
      pose proof (wrr_smooth _ _ _ i w E Hw). rewrite Z2Nat.id in * by lia. nia.
    - rewrite sum_cnt by done. rewrite Hlen. lia. }
  assert (∀ i w, ws !! i = Some w → cnt i is_ = w) as Hi.
  { intros i w Hw. rewrite <- Hcnt in Hw.
    rewrite list_lookup_fmap in Hw. destruct (seq 0 n !! i) as [j|] eqn:Ej; [|done].
    apply lookup_seq in Ej as [-> _]. cbn in Hw. by injection Hw. }
  split; [|done]. apply list_eq. intros i. destruct (decide (i < n)%nat) as [Hlt|Hge].
  - destruct (lookup_lt_is_Some_2 _ _ Hlt) as [w Hw]. rewrite (Hc i w Hw), (Hi i w Hw).
    rewrite lookup_replicate_2 by done. f_equal. lia.
  - rewrite !lookup_ge_None_2; [done|rewrite length_replicate; lia|rewrite (co_len _ Hok); lia].
Qed.
End wrr_core.

(** ** Weighted round robin through the interface *)
Lemma wrr_match_refl cs : wrr_match (map node_Addr cs) (map node_Weight cs) cs = true.
Proof. induction cs as [|c cs IH]; [done|]. cbn. rewrite bool_decide_true by done. by rewrite Z.eqb_refl, IH. Qed.

Lemma node_weights_pos cs : Forall (λ w, 1 <= w) (map node_Weight cs).
Proof. apply Forall_fmap, Forall_forall. intros c _. apply norm_weight_pos. Qed.

Lemma build_total cs : sumZ (map node_Weight cs) < 2 ^ 63 → total (buildWRRState cs) = sumZ (map node_Weight cs).
Proof.
  intros Hs. cbn [total buildWRRState].
  assert (∀ acc, 0 <= acc → acc + sumZ (map node_Weight cs) < 2 ^ 63 →
    foldl (λ t c, i64 (t + node_Weight c)) acc cs = acc + sumZ (map node_Weight cs)) as H; [|by rewrite H; lia].
  clear Hs. induction cs as [|c cs IH]; intros acc Ha Hs; cbn [map sumZ foldl] in *; [lia|].
  pose proof (norm_weight_pos (Weight (ep c))) as Hw. change (norm_weight (Weight (ep c))) with (node_Weight c) in Hw.
  pose proof (sumZ_lower 0 (map node_Weight cs) ltac:(eapply Forall_impl; [apply node_weights_pos|]; cbn; lia)).
  assert (i64 (acc + node_Weight c) = acc + node_Weight c) as E by (unfold i64; apply wraps_small; [lia|cbn; lia]).
  rewrite E, IH; lia.
Qed.

Lemma wrr_Pick_two b l : (2 <= length l)%nat → wrr_Pick b l =
  let st := match wrr_state b with
            | Some st => if wrrMatches st l then st else buildWRRState l
            | None => buildWRRState l
            end in
  '(bestIdx, st') ← wrr_next st;
  want ← addrs st !! bestIdx;
  match list_find (λ c, node_Addr c = want) l with
  | Some (_, c) => Some (c, mkWRR (Some st'))
  | None => c ← l !! (bestIdx mod length l)%nat; Some (c, mkWRR (Some st'))
  end.
Proof. destruct l as [|c1 [|c2 l]]; [cbn; lia|cbn; lia|done]. Qed.

Section wrr_fairness.
Context (cs : list endpointNode).
Abbreviation ws := (map node_Weight cs).
Abbreviation tot := (sumZ ws).
Hypothesis two : (2 <= length cs)%nat.
Hypothesis distinct : NoDup (map node_Addr cs).
Hypothesis fits : Z.of_nat (length cs) * tot < 2 ^ 63.

Definition wrr_st (cur : list Z) : wrrState := mkWrr (map node_Addr cs) ws cur tot.

Lemma find_addr i c : cs !! i = Some c → list_find (λ c', node_Addr c' = node_Addr c) cs = Some (i, c).
Proof.
  intros Hi. apply list_find_Some. split_and!; [done|done|]. intros j c' Hj Hlt E.
  assert (i = j); [|lia]. eapply NoDup_lookup; [exact distinct| |].
  - by rewrite list_lookup_fmap, Hi.
  - by rewrite list_lookup_fmap, Hj, <- E.
Qed.

(** One pick on a matching state is one step of the core. *)
Lemma wrr_Pick_step b cur idx st' : wrr_state b = Some (wrr_st cur) ∨ wrr_state b = None ∧ cur = replicate (length cs) 0 →
  wrr_next (wrr_st cur) = Some (idx, st') → (idx < length cs)%nat →
  ∃ c, cs !! idx = Some c ∧ wrr_Pick b cs = Some (c, mkWRR (Some st')).
Proof.
  intros Hb Hn Hi. destruct (lookup_lt_is_Some_2 _ _ Hi) as [c Hc]. exists c. split; [done|].
  assert (Z.of_nat (length cs) * tot < 2 ^ 63) as Hf by exact fits.
  assert (tot < 2 ^ 63) as Ht.
  { pose proof (sumZ_lower 0 ws ltac:(eapply Forall_impl; [apply node_weights_pos|]; cbn; lia)). nia. }
  assert ((match wrr_state b with
           | Some st => if wrrMatches st cs then st else buildWRRState cs
           | None => buildWRRState cs end) = wrr_st cur) as Hst.
  { destruct Hb as [->|[-> ->]].
    - unfold wrrMatches. cbn [addrs weights wrr_st]. by rewrite wrr_match_refl.
    - unfold wrr_st. rewrite <- (build_total cs Ht). done. }
  rewrite (wrr_Pick_two b cs two). cbv zeta. rewrite Hst, Hn. cbn [mbind option_bind addrs wrr_st].
  rewrite list_lookup_fmap, Hc. cbn [fmap option_fmap option_map mbind option_bind].
  by rewrite (find_addr idx c Hc).
Qed.

Lemma wrr_bal_run k r st : ∃ is_ cur ns b',
  wrr_run (map node_Addr cs) ws k (replicate (length ws) 0) = Some (is_, cur) ∧
  bal_run k NewWeightedRoundRobinBalancer r st cs = Some (ns, b') ∧
  Forall2 (λ i c, cs !! i = Some c) is_ ns ∧
  (wrr_state b' = Some (wrr_st cur) ∨ wrr_state b' = None ∧ cur = replicate (length cs) 0).
Proof.
  assert (0 < length ws)%nat as Hn by (rewrite length_map; lia).
  assert (Z.of_nat (length ws) * tot < 2 ^ 63) as Hf by (rewrite length_map; exact fits).
  induction k as [|k (is_ & cur & ns & b' & E1 & E2 & H & Hb)].
  - exists [], (replicate (length ws) 0), [], NewWeightedRoundRobinBalancer.
    split_and!; [done|done|constructor|]. right. by rewrite length_map.
  - destruct (wrr_run_spec (map node_Addr cs) ws (node_weights_pos cs) Hn Hf k) as (is' & cur' & E' & _ & _ & Hok & _).
    rewrite E1 in E'. symmetry in E'. inv E'.
    destruct (wrr_next_spec (map node_Addr cs) ws (node_weights_pos cs) Hn Hf cur Hok) as (idx & cur2 & En & Hidx & _ & _).
    destruct (wrr_Pick_step b' cur idx _ Hb En ltac:(by rewrite length_map in Hidx)) as (c & Hc & Hp).
    exists (is_ ++ [idx]), cur2, (ns ++ [c]), (mkWRR (Some (wrr_st cur2))). split_and!.
    + cbn [wrr_run]. rewrite E1. cbn [mbind option_bind]. by rewrite En.
    + cbn [bal_run]. rewrite E2. cbn [mbind option_bind Pick wrr_balancer]. by rewrite Hp.
    + apply Forall2_app; [done|]. by repeat constructor.
    + by left.
Qed.

Definition times_picked (c : endpointNode) (ns : list endpointNode) : Z :=
  Z.of_nat (length (List.filter (λ n, bool_decide (node_Addr n = node_Addr c)) ns)).

Lemma times_picked_cnt i c is_ ns : cs !! i = Some c → Forall2 (λ i c, cs !! i = Some c) is_ ns →
  times_picked c ns = cnt i is_.
Proof.
  intros Hi. unfold times_picked, cnt. induction 1 as [|j d is_ ns Hj H IH]; [done|]. cbn [List.filter].
  destruct (Nat.eqb_spec i j) as [->|Hne].
  - rewrite bool_decide_true by congruence. cbn [length]. lia.
  - rewrite bool_decide_false; [done|]. intros E. apply Hne. eapply NoDup_lookup; [exact distinct| |].
    + by rewrite list_lookup_fmap, Hi.
    + by rewrite list_lookup_fmap, Hj, <- E.
Qed.

(** C5: Smooth weighted round robin is exactly fair.  For at least two candidates
    with distinct addresses (and weights whose products fit a 64-bit integer),
    starting from a fresh balancer: after k picks no endpoint has been picked a full
    share more often than its weight entitles it to (smoothness); and one cycle of
    as many picks as the total weight picks every endpoint exactly its weight many
    times. *)
Theorem wrr_fair k r st : ∃ ns b',
  bal_run k NewWeightedRoundRobinBalancer r st cs = Some (ns, b') ∧
  (∀ c, c ∈ cs → tot * times_picked c ns < Z.of_nat k * node_Weight c + tot) ∧
  (Z.of_nat k = tot → ∀ c, c ∈ cs → times_picked c ns = node_Weight c).
Proof.
  assert (0 < length ws)%nat as Hn by (rewrite length_map; lia).
  assert (Z.of_nat (length ws) * tot < 2 ^ 63) as Hf by (rewrite length_map; exact fits).
  destruct (wrr_bal_run k r st) as (is_ & cur & ns & b' & E1 & E2 & H & _). exists ns, b'.
  split; [done|]. split.
  - intros c [i Hi]%list_elem_of_lookup. rewrite (times_picked_cnt i c is_ ns Hi H).
    apply (wrr_smooth (map node_Addr cs) ws (node_weights_pos cs) Hn Hf k is_ cur i); [done|].
    by rewrite list_lookup_fmap, Hi.
  - intros Hk c [i Hi]%list_elem_of_lookup. rewrite (times_picked_cnt i c is_ ns Hi H).
    replace k with (Z.to_nat tot) in E1 by lia.
    apply (wrr_cycle (map node_Addr cs) ws (node_weights_pos cs) Hn Hf is_ cur E1).
    by rewrite list_lookup_fmap, Hi.
Qed.
End wrr_fairness.

Definition ex_nodes : list endpointNode :=
  [newNode 0 (mkEp "a:1" 3) (newStreamPool 1 0 0 0 0); newNode 1 (mkEp "b:1" 1) (newStreamPool 1 0 0 0 0)].
Lemma wrr_fair_witness : ∃ ns b',
  bal_run 4 NewWeightedRoundRobinBalancer (λ _ _, 0) (λ _, ∅) ex_nodes = Some (ns, b') ∧
  map node_Addr ns = ["a:1"; "a:1"; "b:1"; "a:1"] ∧ times_picked (newNode 0 (mkEp "a:1" 3) (newStreamPool 1 0 0 0 0)) ns = 3.
Proof.
  destruct (wrr_fair ex_nodes) with (k := 4%nat) (r := λ (_ : nat) (_ : nat), 0) (st := λ _ : nat, (∅ : store)) as (ns & b' & E & _ & H).
  - cbn. lia.
  - cbn. apply NoDup_cons. split; [|apply NoDup_singleton]. rewrite list_elem_of_singleton. discriminate.
  - reflexivity.
  - exists ns, b'. split; [exact E|]. split; [|apply (H eq_refl); left].
    assert (Some (ns, b') = bal_run 4 NewWeightedRoundRobinBalancer (λ _ _, 0) (λ _, ∅) ex_nodes) as E' by (symmetry; exact E).
    vm_compute in E'. injection E' as -> _. reflexivity.
Defined.

(** ** Round robin *)
Lemma rr_Pick_step b cs : (2 <= length cs)%nat → 0 <= rr_n b → rr_n b + 1 < 2 ^ 64 → ∃ c,
  cs !! Z.to_nat (rr_n b mod Z.of_nat (length cs)) = Some c ∧ rr_Pick b cs = Some (c, mkRR (rr_n b + 1)).
Proof.
  intros Hl H0 Hb. destruct (lookup_lt_is_Some_2 cs (Z.to_nat (rr_n b mod Z.of_nat (length cs)))) as [c Hc].
  { pose proof (Z.mod_pos_bound (rr_n b) (Z.of_nat (length cs)) ltac:(lia)). lia. }
  exists c. split; [done|]. unfold rr_Pick. destruct cs as [|c1 [|c2 l]] eqn:E; [cbn in *; lia|cbn in *; lia|].
  rewrite <- E in *. cbv zeta. destruct (Nat.eqb_spec (length cs) 0); [lia|].
  unfold u64. rewrite (wrapu_small 64 (rr_n b + 1)) by lia. rewrite wrapu_small by lia.
  replace (rr_n b + 1 - 1) with (rr_n b) by lia. by rewrite Hc.
Qed.

Lemma rr_run b r st cs k : (2 <= length cs)%nat → 0 <= rr_n b → rr_n b + Z.of_nat k < 2 ^ 64 → ∃ ns,
  bal_run k b r st cs = Some (ns, mkRR (rr_n b + Z.of_nat k)) ∧ length ns = k ∧
  ∀ j c, ns !! j = Some c → cs !! Z.to_nat ((rr_n b + Z.of_nat j) mod Z.of_nat (length cs)) = Some c.
Proof.
  intros Hl H0. induction k as [|k IH]; intros Hb.
  - exists []. split_and!; [cbn; destruct b; cbn; do 3 f_equal; lia|done|done].
  - destruct (IH ltac:(lia)) as (ns & E & Hlen & Hns).
    destruct (rr_Pick_step (mkRR (rr_n b + Z.of_nat k)) cs Hl) as (c & Hc & Hp); cbn [rr_n] in *; [lia|lia|].
    exists (ns ++ [c]). split_and!.
    + cbn [bal_run]. rewrite E. cbn [mbind option_bind Pick rr_balancer]. rewrite Hp. cbn. do 3 f_equal. lia.
    + rewrite length_app. cbn. lia.
    + intros j d [Hj|[Hge Hj]]%lookup_app_Some; [by apply Hns|].
      apply list_lookup_singleton_Some in Hj as [Hj <-]. replace j with k by lia. done.
Qed.

Lemma permutation_lookup {A} (cs ns : list A) (f : nat → nat) : length ns = length cs →
  (∀ j c, ns !! j = Some c → cs !! f j = Some c) →
  (∀ j k, (j < length cs)%nat → (k < length cs)%nat → f j = f k → j = k) → ns ≡ₚ cs.
Proof.
  intros Hl Hf Hinj. apply Permutation_inj. split; [done|].
  exists (λ j, if (j <? length cs)%nat then f j else j). split.
  - intros j k. destruct (Nat.ltb_spec j (length cs)), (Nat.ltb_spec k (length cs)); intros E; [by apply Hinj| | |done].
    + assert (f j < length cs)%nat; [|lia]. destruct (lookup_lt_is_Some_2 ns j) as [c Hc]; [lia|].
      eapply lookup_lt_Some. by apply (Hf j c).
    + assert (f k < length cs)%nat; [|lia]. destruct (lookup_lt_is_Some_2 ns k) as [c Hc]; [lia|].
      eapply lookup_lt_Some. by apply (Hf k c).
  - intros j. destruct (Nat.ltb_spec j (length cs)) as [Hj|Hj].
    + destruct (lookup_lt_is_Some_2 ns j) as [c Hc]; [lia|]. rewrite Hc. symmetry. by apply Hf.
    + rewrite !lookup_ge_None_2; [done|lia|lia].
Qed.

(** Round robin is exactly fair: from any counter value (short of the 64-bit
    wrap-around), as many picks as there are candidates pick every one of them
    exactly once. *)
Theorem rr_fair b r st cs : (2 <= length cs)%nat → 0 <= rr_n b → rr_n b + Z.of_nat (length cs) < 2 ^ 64 →
  ∃ ns b', bal_run (length cs) b r st cs = Some (ns, b') ∧ ns ≡ₚ cs.
Proof.
  intros Hl H0 Hb. destruct (rr_run b r st cs (length cs) Hl H0 Hb) as (ns & E & Hlen & Hns).
  exists ns, (mkRR (rr_n b + Z.of_nat (length cs))). split; [done|].
  apply (permutation_lookup cs ns (λ j, Z.to_nat ((rr_n b + Z.of_nat j) mod Z.of_nat (length cs)))); [done|done|].
  intros j k Hj Hk Ejk.
  set (m := Z.of_nat (length cs)) in *. assert (0 < m) as Hm by lia.
  pose proof (Z.mod_pos_bound (rr_n b + Z.of_nat j) m Hm). pose proof (Z.mod_pos_bound (rr_n b + Z.of_nat k) m Hm).
  assert ((rr_n b + Z.of_nat j) mod m = (rr_n b + Z.of_nat k) mod m) as Em by lia.
  pose proof (Z.div_mod (rr_n b + Z.of_nat j) m ltac:(lia)). pose proof (Z.div_mod (rr_n b + Z.of_nat k) m ltac:(lia)).
  assert ((rr_n b + Z.of_nat j) / m = (rr_n b + Z.of_nat k) / m) by nia. nia.
Qed.
Lemma rr_fair_witness : ∃ ns b',
  bal_run 2 (mkRR 7) (λ _ _, 0) (λ _, ∅) ex_nodes = Some (ns, b') ∧ ns ≡ₚ ex_nodes.
Proof. apply (rr_fair (mkRR 7) (λ _ _, 0) (λ _, ∅) ex_nodes); cbn; lia. Defined.
