(* ===== verification/NetClient.v ===== *)
(** * The micro/net client

    Models [src/micro/net/client.go] and the client part of
    [src/micro/net/options.go]: endpoint construction, node selection through the
    [Balancer] interface, one call with its health bookkeeping, and the retry loop.
    What a call meets at run time (clock, random numbers, state of the streams,
    results of [pool.Get] and [stream.Call], the context) is an explicit
    environment per attempt. *)

From S2P Require Import Prelude NetErrors GoStrings Frame Stream StreamPool Endpoint Balancer.
Local Open Scope Z_scope.

(** ** Options *)
Definition sec : Z := 10 ^ 9.
Definition msec : Z := 10 ^ 6.

Record clientOptions (B : Type) := mkOpts {
  o_dialTimeout : Z; o_readTimeout : Z; o_writeTimeout : Z; o_requestTimeout : Z; o_keepAlive : Z;
  o_idleTimeout : Z; o_maxConnLifetime : Z; o_maxHeaderSize : Z; o_maxBodySize : Z;
  o_maxIdleConns : Z; o_maxOpenConns : Z; o_retryAttempts : Z; o_retryBackoff : Z;
  o_heartbeatInterval : Z; o_heartbeatTimeout : Z;
  o_extraEndpoints : list Endpoint; o_balancer : B; o_dnsResolve : bool;
  o_healthThreshold : Z; o_healthCooldown : Z }.
Arguments mkOpts {B}. Arguments o_dialTimeout {B}. Arguments o_readTimeout {B}. Arguments o_writeTimeout {B}.
Arguments o_requestTimeout {B}. Arguments o_keepAlive {B}. Arguments o_idleTimeout {B}.
Arguments o_maxConnLifetime {B}. Arguments o_maxHeaderSize {B}. Arguments o_maxBodySize {B}.
Arguments o_maxIdleConns {B}. Arguments o_maxOpenConns {B}. Arguments o_retryAttempts {B}.
Arguments o_retryBackoff {B}. Arguments o_heartbeatInterval {B}. Arguments o_heartbeatTimeout {B}.
Arguments o_extraEndpoints {B}. Arguments o_balancer {B}. Arguments o_dnsResolve {B}.
Arguments o_healthThreshold {B}. Arguments o_healthCooldown {B}.

(** [defaultClientOptions], with the default balancer as an argument. *)
Definition defaultClientOptions {B} (b : B) : clientOptions B :=
  mkOpts (3 * sec) (5 * sec) (5 * sec) (10 * sec) (30 * sec) (60 * sec) 0
    defaultMaxHeaderSize defaultMaxBodySize 10 10 0 (100 * msec) (30 * sec) (3 * sec)
    [] b false 2 (5 * sec).

Definition limits {B} (o : clientOptions B) : frameLimits := mkLimits (o_maxHeaderSize o) (o_maxBodySize o).

Section options.
Context {B : Type}.
Implicit Types o : clientOptions B.

(** The options that do more than set one field. *)
Definition with_sizes o (h b : Z) : clientOptions B :=
  mkOpts (o_dialTimeout o) (o_readTimeout o) (o_writeTimeout o) (o_requestTimeout o) (o_keepAlive o)
    (o_idleTimeout o) (o_maxConnLifetime o) h b (o_maxIdleConns o) (o_maxOpenConns o) (o_retryAttempts o)
    (o_retryBackoff o) (o_heartbeatInterval o) (o_heartbeatTimeout o) (o_extraEndpoints o) (o_balancer o)
    (o_dnsResolve o) (o_healthThreshold o) (o_healthCooldown o).
Definition WithMaxMessageSize (maxHeader maxBody : Z) o : clientOptions B :=
  with_sizes o (if 0 <? maxHeader then maxHeader else o_maxHeaderSize o)
               (if 0 <? maxBody then maxBody else o_maxBodySize o).

Definition with_conns o (idle open_ : Z) : clientOptions B :=
  mkOpts (o_dialTimeout o) (o_readTimeout o) (o_writeTimeout o) (o_requestTimeout o) (o_keepAlive o)
    (o_idleTimeout o) (o_maxConnLifetime o) (o_maxHeaderSize o) (o_maxBodySize o) idle open_ (o_retryAttempts o)
    (o_retryBackoff o) (o_heartbeatInterval o) (o_heartbeatTimeout o) (o_extraEndpoints o) (o_balancer o)
    (o_dnsResolve o) (o_healthThreshold o) (o_healthCooldown o).
Definition WithMaxConns (n : Z) o : clientOptions B := with_conns o n n.
Definition WithMaxIdleConns (n : Z) o : clientOptions B := with_conns o n (o_maxOpenConns o).
Definition WithMaxOpenConns (n : Z) o : clientOptions B := with_conns o (o_maxIdleConns o) n.

Definition WithRetry (attempts backoff : Z) o : clientOptions B :=
  mkOpts (o_dialTimeout o) (o_readTimeout o) (o_writeTimeout o) (o_requestTimeout o) (o_keepAlive o)
    (o_idleTimeout o) (o_maxConnLifetime o) (o_maxHeaderSize o) (o_maxBodySize o) (o_maxIdleConns o) (o_maxOpenConns o)
    attempts backoff (o_heartbeatInterval o) (o_heartbeatTimeout o) (o_extraEndpoints o) (o_balancer o)
    (o_dnsResolve o) (o_healthThreshold o) (o_healthCooldown o).

Definition with_endpoints o (eps : list Endpoint) : clientOptions B :=
  mkOpts (o_dialTimeout o) (o_readTimeout o) (o_writeTimeout o) (o_requestTimeout o) (o_keepAlive o)
    (o_idleTimeout o) (o_maxConnLifetime o) (o_maxHeaderSize o) (o_maxBodySize o) (o_maxIdleConns o) (o_maxOpenConns o)
    (o_retryAttempts o) (o_retryBackoff o) (o_heartbeatInterval o) (o_heartbeatTimeout o) eps (o_balancer o)
    (o_dnsResolve o) (o_healthThreshold o) (o_healthCooldown o).
Definition WithEndpointList (eps : list Endpoint) o : clientOptions B := with_endpoints o (o_extraEndpoints o ++ eps).
(** Entries that do not parse are skipped. *)
Definition WithEndpoints (Split : string → err + string * string) (as_ : list string) o : clientOptions B :=
  foldl (λ o a, match parseOneEndpoint Split a with
                | inl _ => o
                | inr e => with_endpoints o (o_extraEndpoints o ++ [e])
                end) o as_.

Definition WithBalancer (b : option B) o : clientOptions B :=
  match b with
  | None => o
  | Some b => mkOpts (o_dialTimeout o) (o_readTimeout o) (o_writeTimeout o) (o_requestTimeout o) (o_keepAlive o)
    (o_idleTimeout o) (o_maxConnLifetime o) (o_maxHeaderSize o) (o_maxBodySize o) (o_maxIdleConns o) (o_maxOpenConns o)
    (o_retryAttempts o) (o_retryBackoff o) (o_heartbeatInterval o) (o_heartbeatTimeout o) (o_extraEndpoints o) b
    (o_dnsResolve o) (o_healthThreshold o) (o_healthCooldown o)
  end.

Definition WithEndpointHealth (threshold cooldown : Z) o : clientOptions B :=
  mkOpts (o_dialTimeout o) (o_readTimeout o) (o_writeTimeout o) (o_requestTimeout o) (o_keepAlive o)
    (o_idleTimeout o) (o_maxConnLifetime o) (o_maxHeaderSize o) (o_maxBodySize o) (o_maxIdleConns o) (o_maxOpenConns o)
    (o_retryAttempts o) (o_retryBackoff o) (o_heartbeatInterval o) (o_heartbeatTimeout o) (o_extraEndpoints o) (o_balancer o)
    (o_dnsResolve o) (if 0 <? threshold then threshold else o_healthThreshold o)
    (if 0 <? cooldown then cooldown else o_healthCooldown o).
End options.

(** ** The client *)
Section client.
Context {B : Type} `{Balancer B}.

Record Client := mkClient {
  c_network : string; c_address : string; c_opts : clientOptions B;
  c_nodes : list endpointNode; c_balancer : B; c_closed : bool; c_reqID : Z }.

Section construction.
Context (SplitHostPort : string → err + string * string).
Context (Resolve : string → string → err + list string).

Definition buildEndpoints (network address : string) (o : clientOptions B) : err + list Endpoint :=
  match (if bool_decide (address = "") then inr [] else parseEndpointList SplitHostPort address) with
  | inl e => inl e
  | inr eps =>
      match mergeEndpoints eps (o_extraEndpoints o) with
      | [] => inl (errors_new "client: no endpoints configured")
      | eps => if o_dnsResolve o then resolveEndpoints (Resolve network) eps else inr eps
      end
  end.

(** Each node gets its own pool; [base] is the first unused node identity. *)
Definition newNodes (base : nat) (o : clientOptions B) (eps : list Endpoint) : list endpointNode :=
  imap (λ i e, newNode (base + i) e
    (newStreamPool (o_maxOpenConns o) (o_idleTimeout o) (o_maxConnLifetime o)
       (o_heartbeatInterval o) (o_heartbeatTimeout o))) eps.

Definition NewClient (network address : string) (o : clientOptions B) : Client :=
  let eps := match buildEndpoints network address o with
             | inr eps => eps
             | inl _ => match parseOneEndpoint SplitHostPort address with inr e => [e] | inl _ => [] end
             end in
  mkClient network address o (newNodes 0 o eps) (o_balancer o) false 0.

(** [Resolve]: the new node list replaces the old one, whose pools are returned to
    be closed. *)
Definition client_Resolve (c : Client) (base : nat) : Client * (err + list endpointNode) :=
  if c_closed c then (c, inl (sent errPoolClosed))
  else match buildEndpoints (c_network c) (c_address c) (c_opts c) with
       | inl e => (c, inl e)
       | inr eps =>
           (mkClient (c_network c) (c_address c) (c_opts c) (newNodes base (c_opts c) eps)
              (c_balancer c) (c_closed c) (c_reqID c), inr (c_nodes c))
       end.
End construction.

Definition set_nodes (c : Client) (ns : list endpointNode) : Client :=
  mkClient (c_network c) (c_address c) (c_opts c) ns (c_balancer c) (c_closed c) (c_reqID c).
Definition set_balancer (c : Client) (b : B) : Client :=
  mkClient (c_network c) (c_address c) (c_opts c) (c_nodes c) b (c_closed c) (c_reqID c).
(** An operation on the shared node object with identity [i]. *)
Definition upd_node (c : Client) (i : nat) (f : endpointNode → endpointNode) : Client :=
  set_nodes c (map (λ n, if (nid n =? i)%nat then f n else n) (c_nodes c)).

(** [Close]: the node list is dropped and its pools are to be closed. *)
Definition client_Close (c : Client) : Client * list endpointNode :=
  if c_closed c then (c, [])
  else (mkClient (c_network c) (c_address c) (c_opts c) [] (c_balancer c) true (c_reqID c), c_nodes c).

Definition Endpoints (c : Client) : list string := map node_Addr (c_nodes c).
Definition client_EndpointStats (c : Client) (st : store) (now : Z) : list EndpointStats :=
  map (λ n, node_Stats n st now) (c_nodes c).

Definition nextRequestID (c : Client) : Client * Z :=
  let id := u64 (c_reqID c + 1) in
  (mkClient (c_network c) (c_address c) (c_opts c) (c_nodes c) (c_balancer c) (c_closed c) id, id).

(** ** One call *)
Record env := mkEnv {
  e_ctx : option err;        (** [ctx.Err()] when a node is picked *)
  e_now : Z; e_rand : entropy; e_store : store;
  e_get : option err;        (** error of [pool.Get] *)
  e_call : err + Response;   (** result of [stream.Call] *)
  e_wait : option err }.     (** [ctx.Err()] if the context ends during the backoff *)

Definition pickNode (c : Client) (v : env) : Client * res err endpointNode :=
  match e_ctx v with
  | Some e => (c, Err e)
  | None =>
      match c_nodes c with
      | [] => (c, Err (sent ErrNoEndpoint))
      | nodes =>
          let healthy := List.filter (λ n, Healthy n (e_now v)) nodes in
          let candidates := match healthy with [] => nodes | _ => healthy end in
          match Pick (c_balancer c) (e_rand v) (e_store v) candidates with
          | Some (Some n, b) => (set_balancer c b, Ok n)
          | Some (None, b) => (set_balancer c b, Err (sent ErrNoEndpoint))
          | None => (c, Panic)
          end
      end
  end.

Definition doCall (c : Client) (v : env) : Client * res err Response :=
  match pickNode c v with
  | (c, Err e) => (c, Err e)
  | (c, Panic) => (c, Panic)
  | (c, Ok node) =>
      let i := nid node in
      let c := upd_node c i reserve in
      let fail c := upd_node c i (λ n, MarkFailure n (o_healthThreshold (c_opts c)) (o_healthCooldown (c_opts c)) (e_now v)) in
      let '(c, r) :=
        match e_get v with
        | Some e => (fail c, Err e)
        | None =>
            match e_call v with
            | inl e => if is_business e then (upd_node c i MarkSuccess, Err e)
                       else if is_ctx_err e then (c, Err e)
                       else (fail c, Err e)
            | inr resp => (upd_node c i MarkSuccess, Ok resp)
            end
        end in
      (upd_node c i unreserve, r)
  end.

(** ** The retry loop: [left] attempts after this one; the number of attempts made
    is returned too. *)
Fixpoint call_loop (left : nat) (c : Client) (vs : nat → env) (k : nat) : Client * res err Response * nat :=
  match doCall c (vs k) with
  | (c, Ok resp) => (c, Ok resp, S k)
  | (c, Panic) => (c, Panic, S k)
  | (c, Err e) =>
      if is_business e then (c, Err e, S k)
      else if is_ctx_err e then (c, Err e, S k)
      else match left with
           | O => (c, Err e, S k)
           | S left' =>
               match e_wait (vs k) with
               | Some ce => (c, Err ce, S k)
               | None => call_loop left' c vs (S k)
               end
           end
  end.

Definition maxAttempts (o : clientOptions B) : nat := Z.to_nat (o_retryAttempts o).

(** [Call]: the request with its id filled in, the result, the attempts made. *)
Definition Call (c : Client) (ctxErr : option err) (req : Request) (vs : nat → env)
  : Client * Request * res err Response * nat :=
  if c_closed c then (c, req, Err (sent errPoolClosed), O)
  else match ctxErr with
  | Some e => (c, req, Err e, O)
  | None =>
      let '(c, req) := if rq_id req =? 0
                       then let '(c, id) := nextRequestID c in
                            (c, mkRequest id (rq_header req) (rq_body req) (rq_oneway req))
                       else (c, req) in
      let '(c, r, k) := call_loop (maxAttempts (c_opts c)) c vs 0 in
      (c, req, r, k)
  end.

(** The compatibility wrappers. *)
Definition Communicate (c : Client) (data : string) (vs : nat → env) : Client * res err string :=
  let '(c, _, r, _) := Call c None (mkRequest 0 [] (bytes_of data) false) vs in
  (c, match r with
      | Ok resp => match rs_error resp with Some e => Err e | None => Ok (string_of (rs_body resp)) end
      | Err e => Err e
      | Panic => Panic
      end).
Definition Send (c : Client) (data : string) (vs : nat → env) : Client * res err unit :=
  let '(c, _, r, _) := Call c None (mkRequest 0 [] (bytes_of data) true) vs in
  (c, res_map (λ _, tt) r).
End client.
Arguments Client B : clear implicits.
