(* ===== verification/NetClientFacts.v ===== *)
(** * Correctness of the micro/net client

    Everything here is proved against the [Balancer] interface, so it holds for
    every policy. *)

From S2P Require Import Prelude NetErrors GoStrings Frame Stream StreamPool Endpoint EndpointFacts Balancer NetClient.
Local Open Scope Z_scope.

Section client_facts.
Context {B : Type} `{Balancer B}.
Implicit Types c : Client B.

(** ** Selecting a node *)
Lemma pickNode_ok c v : bal_ok (c_balancer c) → e_ctx v = None → c_nodes c ≠ [] →
  ∃ n b, pickNode c v = (set_balancer c b, Ok n) ∧ bal_ok b ∧ n ∈ c_nodes c ∧
    (Healthy n (e_now v) = true ∨ ∀ m, m ∈ c_nodes c → Healthy m (e_now v) = false).
Proof.
  intros Hb Hc Hne. unfold pickNode. rewrite Hc. destruct (c_nodes c) as [|n0 ns] eqn:En; [done|].
  rewrite <- En in *. set (h := List.filter (λ n, Healthy n (e_now v)) (c_nodes c)).
  set (cand := match h with [] => c_nodes c | _ => h end).
  assert (cand ≠ []) as Hcand by (unfold cand; destruct h; [by rewrite En|done]).
  destruct (Pick_member (c_balancer c) (e_rand v) (e_store v) cand Hb Hcand) as (n & b & E & Hn & Hb').
  cbv zeta. fold h. fold cand. rewrite E. exists n, b. split_and!; [done|done| |].
  - unfold cand in Hn. destruct h as [|x l] eqn:Eh; [done|]. rewrite <- Eh in Hn.
    apply list_elem_of_In, filter_In in Hn as [Hn _]. by apply list_elem_of_In.
  - unfold cand in Hn. destruct h as [|x l] eqn:Eh.
    + right. intros m Hm. destruct (Healthy m (e_now v)) eqn:Em; [|done].
      assert (m ∈ h) as Hin by (apply list_elem_of_In, filter_In; by split; [apply list_elem_of_In|]).
      rewrite Eh in Hin. by apply not_elem_of_nil in Hin.
    + left. rewrite <- Eh in Hn. by apply list_elem_of_In, filter_In in Hn as [_ Hn].
Qed.

(** Node selection, for every balancer: with a live context and at least one
    endpoint a node is always found and it is one of the client's; an unhealthy
    node is chosen only when no node is healthy, in which case the client degrades
    to trying all of them. *)
Theorem pickNode_prefers_healthy c v : bal_ok (c_balancer c) → e_ctx v = None → c_nodes c ≠ [] →
  ∃ n b, pickNode c v = (set_balancer c b, Ok n) ∧ bal_ok b ∧ n ∈ c_nodes c ∧
    (Healthy n (e_now v) = true ∨ ∀ m, m ∈ c_nodes c → Healthy m (e_now v) = false).
Proof. apply pickNode_ok. Qed.

(** ** One call *)

(** What a call does to the node it used. *)
Definition health_effect (o : clientOptions B) (v : env) (n : endpointNode) : endpointNode :=
  let fail n := MarkFailure n (o_healthThreshold o) (o_healthCooldown o) (e_now v) in
  match e_get v with
  | Some _ => fail n
  | None => match e_call v with
            | inr _ => MarkSuccess n
            | inl e => if is_business e then MarkSuccess n else if is_ctx_err e then n else fail n
            end
  end.
Definition call_result (v : env) : res err Response :=
  match e_get v with
  | Some e => Err e
  | None => match e_call v with inr r => Ok r | inl e => Err e end
  end.

Lemma reserve_unreserve n f : (∀ m, f (reserve m) = reserve (f m)) →
  - 2 ^ 31 <= reserved (f n) < 2 ^ 31 - 1 → unreserve (f (reserve n)) = f n.
Proof.
  intros Hf Hr. rewrite Hf. destruct (f n) as [i e p fl d r] eqn:En. unfold unreserve, reserve. cbn in *.
  f_equal. unfold i32. rewrite (wraps_small 32 (r + 1)) by (cbn; lia). rewrite wraps_small by (cbn; lia). lia.
Qed.

Lemma upd_upd c i f g : (∀ n, nid (f n) = nid n) → upd_node (upd_node c i f) i g = upd_node c i (λ n, g (f n)).
Proof.
  intros Hf. unfold upd_node, set_nodes. cbn. f_equal. rewrite map_map. apply map_ext. intros n.
  destruct (nid n =? i)%nat eqn:E; [by rewrite Hf, E|by rewrite E].
Qed.

Lemma doCall_ok c v : bal_ok (c_balancer c) → e_ctx v = None → c_nodes c ≠ [] →
  Forall (λ n, - 2 ^ 31 <= reserved n < 2 ^ 31 - 1) (c_nodes c) →
  ∃ n b, n ∈ c_nodes c ∧ bal_ok b ∧
    doCall c v = (set_nodes (set_balancer c b)
      (map (λ m, if (nid m =? nid n)%nat then health_effect (c_opts c) v m else m) (c_nodes c)), call_result v).
Proof.
  intros Hb Hc Hne Hres. destruct (pickNode_ok c v Hb Hc Hne) as (n & b & E & Hb' & Hn & _).
  exists n, b. split_and!; [done|done|]. unfold doCall. rewrite E. cbn zeta.
  set (c1 := set_balancer c b).
  assert (∀ f, (∀ m, f (reserve m) = reserve (f m)) → (∀ m, nid (f m) = nid m) → (∀ m, reserved (f m) = reserved m) →
    upd_node (upd_node (upd_node c1 (nid n) reserve) (nid n) f) (nid n) unreserve =
    set_nodes c1 (map (λ m, if (nid m =? nid n)%nat then f m else m) (c_nodes c))) as Hu.
  { intros f Hf Hid Hrs. rewrite !upd_upd by done.
    unfold upd_node, set_nodes. f_equal. apply map_ext_in. intros m Hm%list_elem_of_In.
    destruct (nid m =? nid n)%nat; [|done]. apply reserve_unreserve; [done|].
    rewrite Hrs. by apply (proj1 (Forall_forall _ _) Hres). }
  unfold health_effect, call_result.
  destruct (e_get v) as [e|]; [by rewrite Hu|].
  destruct (e_call v) as [e|r]; [|by rewrite Hu].
  destruct (is_business e); [by rewrite Hu|]. destruct (is_ctx_err e); [|by rewrite Hu].
  specialize (Hu (λ m, m) ltac:(done) ltac:(done) ltac:(done)). cbn beta in Hu.
  assert (upd_node (upd_node c1 (nid n) reserve) (nid n) (λ m, m) = upd_node c1 (nid n) reserve) as Eid.
  { unfold upd_node, set_nodes. cbn. f_equal. rewrite map_map. apply map_ext. intros m.
    by destruct (nid m =? nid n)%nat; destruct (nid _ =? nid n)%nat. }
  by rewrite Eid in Hu; rewrite Hu.
Qed.

(** Health bookkeeping of a call, for every balancer: exactly one node is
    touched; a response or a business error (the peer answered) marks it healthy, a
    failed connection or transport error counts as a failure, the caller's own
    cancellation during the call changes nothing, and the reservation made for the
    call is always given back. *)
Theorem doCall_bookkeeping c v : bal_ok (c_balancer c) → e_ctx v = None → c_nodes c ≠ [] →
  Forall (λ n, - 2 ^ 31 <= reserved n < 2 ^ 31 - 1) (c_nodes c) →
  ∃ n b, n ∈ c_nodes c ∧ bal_ok b ∧
    doCall c v = (set_nodes (set_balancer c b)
      (map (λ m, if (nid m =? nid n)%nat then health_effect (c_opts c) v m else m) (c_nodes c)), call_result v).
Proof. apply doCall_ok. Qed.

(** ** Retrying *)
Lemma doCall_no_panic c v : bal_ok (c_balancer c) →
  (doCall c v).2 ≠ Panic ∧ bal_ok (c_balancer (doCall c v).1) ∧ c_opts (doCall c v).1 = c_opts c.
Proof.
  intros Hb. unfold doCall. destruct (e_ctx v) as [e|] eqn:Ec.
  { unfold pickNode. by rewrite Ec. }
  destruct (c_nodes c) as [|n0 ns] eqn:En.
  { unfold pickNode. by rewrite Ec, En. }
  destruct (pickNode_ok c v Hb Ec) as (n & b & E & Hb' & _); [by rewrite En|]. rewrite E. cbn zeta.
  destruct (e_get v); [done|]. destruct (e_call v) as [e|]; [|done].
  destruct (is_business e); [done|]. by destruct (is_ctx_err e).
Qed.

Definition retryable (e : err) : bool := negb (is_business e) && negb (is_ctx_err e).

(** A run of attempts [k .. m-1] that all failed with retryable errors and waited
    out their backoff. *)
Inductive retried (vs : nat → env) : nat → nat → Client B → Client B → Prop :=
| retried_nil k c : retried vs k k c c
| retried_cons k m c c1 c2 e : doCall c (vs k) = (c1, Err e) → retryable e = true → e_wait (vs k) = None →
    retried vs (S k) m c1 c2 → retried vs k m c c2.

Lemma call_loop_spec vs left : ∀ c k c' r m, call_loop left c vs k = (c', r, m) →
  ∃ c1 last, (k < m <= S (k + left))%nat ∧ retried vs k (m - 1) c c1 ∧ doCall c1 (vs (m - 1)%nat) = (c', last) ∧
  match last with
  | Err e => if retryable e
             then (r = Err e ∧ m = S (k + left)) ∨ (∃ ce, e_wait (vs (m - 1)%nat) = Some ce ∧ r = Err ce)
             else r = Err e
  | _ => r = last
  end.
Proof.
  induction left as [|left IH]; intros c k c' r m; cbn [call_loop];
    destruct (doCall c (vs k)) as [c1 [resp|e|]] eqn:Ed; intros E.
  1,3,4,6: injection E as <- <- <-; exists c; eexists; replace (S k - 1)%nat with k by lia;
      (split; [lia|]); (split; [constructor|]); (split; [exact Ed|]); done.
  - assert (c' = c1 ∧ r = Err e ∧ m = S k) as (-> & -> & ->) by (by destruct (is_business e), (is_ctx_err e); inv E).
    exists c, (Err e). replace (S k - 1)%nat with k by lia. split_and!; [lia|lia|constructor|done|].
    destruct (retryable e); [left; split; [done|lia]|done].
  - unfold retryable.
    destruct (is_business e) eqn:Eb; [|destruct (is_ctx_err e) eqn:Ec; [|destruct (e_wait (vs k)) as [ce|] eqn:Ew]].
    1,2: injection E as <- <- <-; exists c, (Err e); replace (S k - 1)%nat with k by lia;
      (split_and!; [lia|lia|constructor|done|]); by rewrite Eb, ?Ec.
    + injection E as <- <- <-. exists c, (Err e). replace (S k - 1)%nat with k by lia.
      split_and!; [lia|lia|constructor|done|]. rewrite Eb, Ec. cbn. right. by exists ce.
    + destruct (IH c1 (S k) c' r m E) as (c2 & last & Hm & Hr & Hd & Hl). exists c2, last.
      split_and!; [lia|lia| |done|].
      * eapply retried_cons; [exact Ed|by unfold retryable; rewrite Eb, Ec|done|]. done.
      * destruct last as [x|x|]; try done. unfold retryable in Hl. destruct (negb (is_business x) && _); [|done].
        destruct Hl as [[-> ->]|?]; [left; split; [done|lia]|by right].
Qed.

(** C36: The retry policy, for every balancer: an open client makes at least one and
    at most retryAttempts+1 attempts; every attempt but the last failed with a
    transport error; an answer of the peer (response, remote error, rate limit,
    handler panic) and a cancelled or expired context are never retried; the result
    is that of the last attempt, unless the context ended during a backoff; and no
    call panics. *)
Theorem call_retry_policy c req vs : bal_ok (c_balancer c) → c_closed c = false →
  match Call c None req vs with
  | (c', req', r, k) =>
      (1 <= k <= S (maxAttempts (c_opts c)))%nat ∧ r ≠ Panic ∧
      (rq_id req ≠ 0 → req' = req) ∧
      ∃ c0 c1 last, c_nodes c0 = c_nodes c ∧ retried vs 0 (k - 1) c0 c1 ∧ doCall c1 (vs (k - 1)%nat) = (c', last) ∧
      match last with
      | Err e => if retryable e
                 then (r = Err e ∧ k = S (maxAttempts (c_opts c))) ∨ (∃ ce, e_wait (vs (k - 1)%nat) = Some ce ∧ r = Err ce)
                 else r = Err e
      | _ => r = last
      end
  end.
Proof.
  intros Hb Hc. unfold Call. rewrite Hc.
  set (p := if rq_id req =? 0 then _ else (c, req)).
  assert (bal_ok (c_balancer p.1) ∧ c_nodes p.1 = c_nodes c ∧ c_opts p.1 = c_opts c ∧ (rq_id req ≠ 0 → p.2 = req))
    as (Hb0 & Hn0 & Ho0 & Hreq).
  { unfold p. destruct (Z.eqb_spec (rq_id req) 0); [by split_and!|done]. }
  destruct p as [c0 req0]. cbn [fst snd] in *. rewrite Ho0.
  destruct (call_loop (maxAttempts (c_opts c)) c0 vs 0) as [[c' r] k] eqn:E.
  destruct (call_loop_spec vs _ _ _ _ _ _ E) as (c1 & last & Hk & Hr & Hd & Hl).
  split; [lia|]. split; [|split; [done|by exists c0, c1, last]].
  assert (∀ k m a b, retried vs k m a b → bal_ok (c_balancer a) → bal_ok (c_balancer b)) as Hret.
  { clear -Hb. induction 1 as [|k m a a1 b e Hd _ _ _ IH]; [done|]. intros Ha. apply IH.
    pose proof (doCall_no_panic a (vs k) Ha) as (_ & Ho & _). by rewrite Hd in Ho. }
  pose proof (doCall_no_panic c1 (vs (k - 1)%nat) (Hret _ _ _ _ Hr Hb0)) as (Hnp & _). rewrite Hd in Hnp. cbn in Hnp.
  destruct last as [x|e|]; [by subst| |done]. destruct (retryable e); [|by subst].
  destruct Hl as [[-> _]|(ce & _ & ->)]; done.
Qed.
End client_facts.

(** ** Witnesses *)
Definition ex_opts : clientOptions any_balancer := WithRetry 2 0 (defaultClientOptions (NewBalancer "weighted_round_robin")).
Definition ex_client : Client any_balancer := NewClient ex_split (λ _ _, inl (sent EOF)) "tcp" "a:1@3,b:1" ex_opts.
Definition ex_env (get : option err) (call : err + Response) : env := mkEnv None 100 (λ _, 0) ∅ get call None.
Definition ex_vs (k : nat) : env :=
  match k with
  | O => ex_env (Some (sent EOF)) (inl (sent EOF))
  | S O => ex_env None (inl (sent EOF))
  | _ => ex_env None (inr (mkResponse 1 [] [] None))
  end.

Lemma ex_client_ok : bal_ok (c_balancer ex_client).
Proof. vm_compute. exact I. Qed.

Lemma pickNode_prefers_healthy_witness : ∃ n b,
  pickNode ex_client (ex_vs 0) = (set_balancer ex_client b, Ok n) ∧ n ∈ c_nodes ex_client.
Proof.
  destruct (pickNode_prefers_healthy ex_client (ex_vs 0) ex_client_ok eq_refl ltac:(discriminate)) as (n & b & H1 & _ & H2 & _).
  exists n, b. split; [exact H1|exact H2].
Defined.
Lemma doCall_bookkeeping_witness : ∃ n b, n ∈ c_nodes ex_client ∧
  doCall ex_client (ex_vs 0) = (set_nodes (set_balancer ex_client b)
    (map (λ m, if (nid m =? nid n)%nat then MarkFailure m 2 (5 * sec) 100 else m) (c_nodes ex_client)), Err (sent EOF)).
Proof.
  destruct (doCall_bookkeeping ex_client (ex_vs 0) ex_client_ok eq_refl ltac:(discriminate)
    ltac:(repeat constructor; cbn; lia)) as (n & b & H1 & _ & H2).
  exists n, b. split; [exact H1|exact H2].
Defined.
Lemma call_retry_policy_witness : ∃ c' req' k,
  Call ex_client None (mkRequest 0 [] [] false) ex_vs = (c', req', Ok (mkResponse 1 [] [] None), k) ∧ (1 <= k <= 3)%nat.
Proof.
  pose proof (call_retry_policy ex_client (mkRequest 0 [] [] false) ex_vs ex_client_ok eq_refl) as H.
  destruct (Call ex_client None (mkRequest 0 [] [] false) ex_vs) as [[[c' req'] r] k] eqn:E.
  destruct H as [Hk _]. exists c', req', k. split; [|exact Hk]. f_equal. f_equal.
  assert (r = (Call ex_client None (mkRequest 0 [] [] false) ex_vs).1.2) as -> by (rewrite E; reflexivity).
  vm_compute. reflexivity.
Defined.

(** The caller's own deadline, when it ends while waiting for a stream, counts as a
    failure of the node: two impatient callers take a healthy endpoint out. *)
Example caller_timeout_trips_breaker :
  let v := ex_env (Some (sent DeadlineExceeded)) (inl (sent EOF)) in
  let c := NewClient ex_split (λ _ _, inl (sent EOF)) "tcp" "a:1" ex_opts in
  let c1 := (doCall c v).1 in
  let c2 := (doCall c1 v).1 in
  map (λ n, Healthy n 200) (c_nodes c2) = [false].
Proof. vm_compute. reflexivity. Qed.
