(* ===== verification/NetServer.v ===== *)
(** * The micro/net server

    Models [src/micro/net/server.go] and [src/micro/net/handler.go]: the loop over
    the frames of a connection, the handling of one request, and the life cycle of
    connections under graceful shutdown. *)

From S2P Require Import Prelude NetErrors Frame Stream.
Local Open Scope Z_scope.

(** ** Handlers *)

(** What a handler does: return a (possibly nil) response, an error, or panic. *)
Inductive handled := HOk (r : option Response) | HErr (e : err) | HPanic.
Definition Handler : Type := Request → handled.
Definition EchoHandler : Handler := λ req, HOk (Some (mkResponse (rq_id req) (rq_header req) (rq_body req) None)).
(** [Chain] and [buildHandler]: first registered outermost. *)
Definition Chain (h : Handler) (mws : list (Handler → Handler)) : Handler := chain mws h.
Definition buildHandler (h : Handler) (mws : list (Handler → Handler)) : Handler :=
  match mws with [] => h | _ => Chain h mws end.

(** [safeHandle]: a panic becomes [ErrHandlerPanic]. *)
Definition safeHandle (h : Handler) (req : Request) : option Response * option err :=
  match h req with
  | HOk r => (r, None)
  | HErr e => (None, Some e)
  | HPanic => (None, Some (sent ErrHandlerPanic))
  end.

(** The frame [handleRequest] sends; none for a one-way request. *)
Definition handleRequest (h : Handler) (reqFrame : Frame) (req : Request) : option Frame :=
  let '(resp, e) := safeHandle h req in
  if IsOneWay reqFrame then None
  else Some
    (match e with
     | Some e => NewErrorFrame (RequestID reqFrame) (Some e)
     | None =>
         match resp with
         | Some r => match rs_error r with
                     | Some e => NewErrorFrame (RequestID reqFrame) (Some e)
                     | None => NewFrame MessageTypeResponse (RequestID reqFrame) (rs_header r) (rs_body r)
                     end
         | None => NewFrame MessageTypeResponse (RequestID reqFrame) [] []
         end
     end).

(** ** The connection loop

    One iteration with what it observes: the stop flags at its top and before the
    request, the outcome of the read, the limiter's decision and whether sends
    succeed. *)
Record iteration := mkIter {
  it_stop : bool; it_read : err + Frame; it_stop2 : bool; it_allow : bool; it_send : bool }.
Inductive action := ASend (f : Frame) | AHandle (f : Frame) (req : Request).

Definition request_of (f : Frame) : Request := mkRequest (RequestID f) (Header f) (Body f) (IsOneWay f).

Definition conn_iter (it : iteration) : list action * bool :=
  if it_stop it then ([], false)
  else match it_read it with
  | inl _ => ([], false)
  | inr frame =>
      if IsHeartbeat frame then
        if (MsgType frame =? MessageTypePing) || (MsgType frame =? MessageTypeHeartbeat)
        then ([ASend (NewFrame MessageTypePong (RequestID frame) [] [])], it_send it)
        else ([], true)
      else if negb (MsgType frame =? MessageTypeRequest) then ([], true)
      else if it_stop2 it then ([ASend (NewErrorFrame (RequestID frame) (Some (errors_new "server draining")))], false)
      else if negb (it_allow it) then ([ASend (NewErrorFrame (RequestID frame) (Some (sent ErrRateLimited)))], true)
      else ([AHandle frame (request_of frame)], true)
  end.

Fixpoint handleConn (its : list iteration) : list action :=
  match its with
  | [] => []
  | it :: its' => let '(acts, go_on) := conn_iter it in
                  acts ++ (if go_on then handleConn its' else [])
  end.

(** The frames an action eventually writes. *)
Definition action_reply (h : Handler) (a : action) : option Frame :=
  match a with ASend f => Some f | AHandle f req => handleRequest h f req end.

(** The read deadline of a connection: the idle timeout, else the read timeout. *)
Definition setReadDeadline (idleTimeout readTimeout : Z) : option Z :=
  let d := if idleTimeout <=? 0 then readTimeout else idleTimeout in
  if d <=? 0 then None else Some d.

(** ** Life cycle

    A connection serves, then waits for its in-flight requests, then leaves the
    wait group, then releases its slot.  [debt] counts requests that have signalled
    the connection but not yet the server's wait group.  Leaving the loop runs the
    deferred calls in reverse order: the context of the connection is cancelled
    first, then its requests are waited for. *)
Inductive phase := PServe | PWait | PDone | PReleased.
Record conn := mkConn {
  draining : bool; reqs : nat; ph : phase;
  cancelled : bool (** the context of the connection's requests *) }.
Record server := mkSrv { s_closed : bool; conns : list conn; wg : Z; debt : nat; sem : nat; maxConns : nat }.

Definition newServer (maxConns : nat) : server := mkSrv false [] 0 0 0 maxConns.

(** The accept loop takes a slot or turns the connection away. *)
Definition accept (s : server) : option server :=
  if (sem s <? maxConns s)%nat
  then Some (mkSrv (s_closed s) (conns s ++ [mkConn false 0 PServe false]) (wg s + 1) (debt s) (S (sem s)) (maxConns s))
  else None.

Definition set_conn (s : server) (i : nat) (c : conn) (dwg : Z) (debt' sem' : nat) : server :=
  mkSrv (s_closed s) (<[i := c]> (conns s)) (wg s + dwg) debt' sem' (maxConns s).

Definition beginDrain (c : conn) : conn := mkConn true (reqs c) (ph c) (cancelled c).

(** [Shutdown], first part: no more accepts, every connection drains. *)
Definition shutdown (s : server) : server :=
  if s_closed s then s else mkSrv true (map beginDrain (conns s)) (wg s) (debt s) (sem s) (maxConns s).

Inductive srv_step : server → server → Prop :=
| s_accept s s' : accept s = Some s' → srv_step s s'
| s_request s i c : conns s !! i = Some c → ph c = PServe →
    srv_step s (set_conn s i (mkConn (draining c) (S (reqs c)) PServe (cancelled c)) 1 (debt s) (sem s))
| s_req_done s i c n : conns s !! i = Some c → reqs c = S n →
    srv_step s (set_conn s i (mkConn (draining c) n (ph c) (cancelled c)) 0 (S (debt s)) (sem s))
| s_req_left s d : debt s = S d → srv_step s (mkSrv (s_closed s) (conns s) (wg s - 1) d (sem s) (maxConns s))
| s_drain s i c : conns s !! i = Some c → srv_step s (set_conn s i (beginDrain c) 0 (debt s) (sem s))
| s_exit s i c : conns s !! i = Some c → ph c = PServe →
    srv_step s (set_conn s i (mkConn (draining c) (reqs c) PWait true) 0 (debt s) (sem s))
| s_leave s i c : conns s !! i = Some c → ph c = PWait → reqs c = 0%nat →
    srv_step s (set_conn s i (mkConn (draining c) 0 PDone (cancelled c)) (-1) (debt s) (sem s))
| s_release s i c : conns s !! i = Some c → ph c = PDone →
    srv_step s (set_conn s i (mkConn (draining c) 0 PReleased (cancelled c)) 0 (debt s) (sem s - 1))
| s_shutdown s : srv_step s (shutdown s).

Definition srv_reachable (s : server) : Prop := ∃ n, rtc srv_step (newServer n) s.
