(* ===== verification/NetServerFacts.v ===== *)
(** * Correctness of the micro/net server, and of a call end to end *)

From S2P Require Import Prelude NetErrors Frame FrameFacts Stream StreamFacts NetServer.
Local Open Scope Z_scope.

(** ** Replies *)
Lemma handleRequest_id h f req r : handleRequest h f req = Some r →
  RequestID r = RequestID f ∧ MsgType r = MessageTypeResponse ∧ Magic r = frameMagic ∧ Version r = frameVersion.
Proof.
  unfold handleRequest. destruct (safeHandle h req) as [resp e]. destruct (IsOneWay f); [done|].
  intros [= <-]. destruct e as [e|]; [done|]. destruct resp as [r|]; [|done]. by destruct (rs_error r).
Qed.

(** The frame an iteration reads, if it gets as far as reading one. *)
Definition frame_read (it : iteration) : option Frame :=
  if it_stop it then None else match it_read it with inr f => Some f | inl _ => None end.

(** What the protocol prescribes for one frame. *)
Definition prescribed (h : Handler) (it : iteration) (f : Frame) : option Frame :=
  if (MsgType f =? MessageTypePing) || (MsgType f =? MessageTypeHeartbeat)
  then Some (NewFrame MessageTypePong (RequestID f) [] [])
  else if MsgType f =? MessageTypeRequest
  then if it_stop2 it then Some (NewErrorFrame (RequestID f) (Some (errors_new "server draining")))
       else if it_allow it then handleRequest h f (request_of f)
       else Some (NewErrorFrame (RequestID f) (Some (sent ErrRateLimited)))
  else None.

Lemma conn_iter_replies h it : omap (action_reply h) (conn_iter it).1 =
  match frame_read it with Some f => match prescribed h it f with Some r => [r] | None => [] end | None => [] end.
Proof.
  unfold conn_iter, frame_read, prescribed, IsHeartbeat. destruct (it_stop it); [done|].
  destruct (it_read it) as [e|f]; [done|].
  destruct (Z.eqb_spec (MsgType f) MessageTypeHeartbeat) as [E1|E1]; [by rewrite E1|].
  destruct (Z.eqb_spec (MsgType f) MessageTypePing) as [E2|E2]; [by rewrite E2|].
  destruct (Z.eqb_spec (MsgType f) MessageTypePong) as [E3|E3]; [by rewrite E3|]. cbn [orb].
  destruct (Z.eqb_spec (MsgType f) MessageTypeRequest); cbn [negb]; [|done].
  destruct (it_stop2 it); [done|]. destruct (it_allow it); cbn; [|done]. by destruct (handleRequest _ _ _).
Qed.

(** The iterations that run: up to and including the first that ends the loop. *)
Fixpoint ran (its : list iteration) : list iteration :=
  match its with [] => [] | it :: its' => it :: (if (conn_iter it).2 then ran its' else []) end.

(** The server answers a connection exactly as prescribed: over the whole
    connection, the replies caused by the frames read are, frame by frame and with
    the frame's own request id, one pong per ping, one response or error per two-way
    request (rate limited, draining, failed and panicking requests included), and
    nothing for one-way requests, pongs and unknown types. *)
Theorem server_replies h its :
  omap (action_reply h) (handleConn its)
  = omap (λ it, f ← frame_read it; prescribed h it f) (ran its) ∧
  ∀ it f r, prescribed h it f = Some r → RequestID r = RequestID f.
Proof.
  split.
  - induction its as [|it its IH]; [done|]. cbn [handleConn ran omap list_omap].
    pose proof (conn_iter_replies h it) as E. destruct (conn_iter it) as [acts go_on]. cbn [fst snd] in *.
    rewrite omap_app, E.
    destruct (frame_read it) as [f|]; cbn [mbind option_bind]; [destruct (prescribed h it f)|];
      destruct go_on; cbn; by rewrite ?IH.
  - intros it f r. unfold prescribed. repeat case_match; intros E;
      first [discriminate | by apply handleRequest_id in E as [? _] | by injection E as <-].
Qed.

(** ** Graceful shutdown *)
Definition busy (c : conn) : Z := Z.of_nat (reqs c) + match ph c with PServe | PWait => 1 | _ => 0 end.
Definition slot (c : conn) : Z := match ph c with PReleased => 0 | _ => 1 end.

Record srv_ok (s : server) : Prop := {
  so_wg : wg s = sumZ (map busy (conns s)) + Z.of_nat (debt s);
  so_sem : Z.of_nat (sem s) = sumZ (map slot (conns s));
  so_max : (sem s <= maxConns s)%nat;
  so_done : Forall (λ c, match ph c with PDone | PReleased => reqs c = 0%nat | _ => True end) (conns s) }.

Lemma set_conn_ok s i c c' dwg debt' sem' : srv_ok s → conns s !! i = Some c →
  dwg = busy c' - busy c + Z.of_nat debt' - Z.of_nat (debt s) →
  Z.of_nat sem' = Z.of_nat (sem s) - slot c + slot c' → (sem' <= maxConns s)%nat →
  match ph c' with PDone | PReleased => reqs c' = 0%nat | _ => True end →
  srv_ok (set_conn s i c' dwg debt' sem').
Proof.
  intros [H1 H2 H3 H4] Hi Hw Hs Hm Hd. split; cbn.
  - rewrite (sum_map_insert _ _ _ _ _ Hi). lia.
  - rewrite (sum_map_insert _ _ _ _ _ Hi). lia.
  - done.
  - by apply Forall_insert.
Qed.

Lemma drain_same f (l : list conn) : (∀ c, f (beginDrain c) = f c) → sumZ (map f (map beginDrain l)) = sumZ (map f l).
Proof. intros Hf. rewrite map_map. f_equal. by apply map_ext. Qed.

Lemma srv_step_ok s s' : srv_ok s → srv_step s s' → srv_ok s'.
Proof.
  intros Hok Hs.
  destruct Hs as [s s' E|s i c Hi Hp|s i c n Hi Hr|s d E|s i c Hi|s i c Hi Hp|s i c Hi Hp Hr|s i c Hi Hp|s];
    pose proof Hok as [H1 H2 H3 H4];
    assert (∀ i c, conns s !! i = Some c → match ph c with PDone | PReleased => reqs c = 0%nat | _ => True end) as Hd
      by (intros j d' Hj; by apply (Forall_lookup_1 _ _ _ _ H4 Hj)).
  - unfold accept in E. destruct (Nat.ltb_spec (sem s) (maxConns s)); inv E.
    assert (busy (mkConn false 0 PServe false) = 1 ∧ slot (mkConn false 0 PServe false) = 1) as [Eb Es] by done.
    split; cbn [wg conns debt sem maxConns]; rewrite ?map_app, ?sumZ_app; cbn [map sumZ]; rewrite ?Eb, ?Es; [lia|lia|lia|]. apply Forall_app. split; [done|]. by repeat constructor.
  - apply (set_conn_ok s i c); unfold busy, slot; cbn; rewrite ?Hp; try done; lia.
  - apply (set_conn_ok s i c); unfold busy, slot; cbn; try done; try lia.
    specialize (Hd i c Hi). destruct (ph c); try done; congruence.
  - split; cbn; [lia|done|done|done].
  - apply (set_conn_ok s i c); unfold busy, slot; cbn; try done; try lia. by apply (Hd i).
  - apply (set_conn_ok s i c); unfold busy, slot; cbn; rewrite ?Hp; try done; lia.
  - apply (set_conn_ok s i c); unfold busy, slot; cbn; rewrite ?Hp, ?Hr; try done; lia.
  - assert (1 <= Z.of_nat (sem s)).
    { rewrite H2. pose proof (sum_map_insert slot (conns s) i c (mkConn (draining c) 0 PReleased (cancelled c)) Hi) as E.
      unfold slot at 3 4 in E. rewrite Hp in E. cbn in E.
      pose proof (sumZ_lower 1 (map slot (<[i := mkConn (draining c) 0 PReleased (cancelled c)]> (conns s)))) as Hl.
      assert (0 <= sumZ (map slot (<[i := mkConn (draining c) 0 PReleased (cancelled c)]> (conns s)))); [|lia].
      clear. generalize (<[i := mkConn (draining c) 0 PReleased (cancelled c)]> (conns s)). intros l.
      induction l as [|x l IH]; cbn; [lia|]. unfold slot at 1. destruct (ph x); lia. }
    specialize (Hd i c Hi). rewrite Hp in Hd.
    apply (set_conn_ok s i c); unfold busy, slot; cbn; rewrite ?Hp, ?Hd; try done; lia.
  - unfold shutdown. destruct (s_closed s); [done|]. split; cbn; rewrite ?drain_same; try done.
    apply Forall_fmap. eapply Forall_impl; [exact H4|]. done.
Qed.

Lemma srv_reachable_ok s : srv_reachable s → srv_ok s.
Proof.
  intros [n H]. apply (rtc_invariant srv_step srv_ok srv_step_ok _ _ H).
  split; cbn; [lia|lia|lia|constructor].
Qed.

Lemma busy_nonneg c : 0 <= busy c.
Proof. unfold busy. destruct (ph c); lia. Qed.

(** Graceful shutdown loses nothing: in every interleaving of accepting,
    requests starting and finishing, draining and connections ending, the server's
    wait group is at zero only when no request is in flight and every accepted
    connection has finished waiting for its requests, which is the condition under
    which [Shutdown] reports success; and the server never holds more connections
    than configured. *)
Theorem shutdown_waits_for_requests s : srv_reachable s →
  (wg s = 0 → ∀ i c, conns s !! i = Some c → reqs c = 0%nat ∧ (ph c = PDone ∨ ph c = PReleased)) ∧
  (length (List.filter (λ c, match ph c with PReleased => false | _ => true end) (conns s)) <= maxConns s)%nat.
Proof.
  intros Hr. pose proof (srv_reachable_ok s Hr) as [H1 H2 H3 H4]. split.
  - intros Hz i c Hi. assert (busy c = 0) as Hb.
    { assert (∀ l, 0 <= sumZ (map busy l)) as Hnn.
      { induction l as [|x l IH]; cbn; [lia|]. pose proof (busy_nonneg x). lia. }
      assert (busy c <= sumZ (map busy (conns s))); [|pose proof (busy_nonneg c); lia].
      apply list_elem_of_lookup_2, list_elem_of_split in Hi as (l1 & l2 & ->). rewrite map_app, sumZ_app. cbn.
      pose proof (Hnn l1). pose proof (Hnn l2). lia. }
    unfold busy in Hb. destruct (ph c) eqn:Ep; try lia; (split; [lia|auto]).
  - assert (∀ l, Z.of_nat (length (List.filter (λ c, match ph c with PReleased => false | _ => true end) l))
                 = sumZ (map slot l)) as E.
    { induction l as [|x l IH]; [done|]. cbn [List.filter map sumZ]. unfold slot at 1.
      destruct (ph x); cbn [length]; lia. }
    specialize (E (conns s)). lia.
Qed.

(** ** A call end to end *)

(** What the caller should see, from what the handler did. *)
Definition caller_sees (h : Handler) (req : Request) (r : err + Response) : Prop :=
  match h req with
  | HOk (Some resp) =>
      match rs_error resp with
      | None => r = inr (mkResponse (rq_id req) (rs_header resp) (rs_body resp) None)
      | Some e => ∃ e', r = inl e' ∧ e' = remoteErrorFromFrame (NewErrorFrame (rq_id req) (Some e)) ∧ errors_is e' ErrRemote = true
      end
  | HOk None => r = inr (mkResponse (rq_id req) [] [] None)
  | HErr e => ∃ e', r = inl e' ∧ e' = remoteErrorFromFrame (NewErrorFrame (rq_id req) (Some e)) ∧ errors_is e' ErrRemote = true
  | HPanic => ∃ e', r = inl e' ∧ errors_is e' ErrRemote = true ∧ errors_is e' ErrHandlerPanic = true
  end.

Lemma remote_is_remote f : errors_is (remoteErrorFromFrame f) ErrRemote = true.
Proof. unfold remoteErrorFromFrame. by repeat case_bool_decide. Qed.

Lemma reply_seen h req f reply : IsOneWay f = false → RequestID f = rq_id req →
  handleRequest h f req = Some reply → caller_sees h req (result_of None (RFrame reply)).
Proof.
  intros Hw Hid. unfold handleRequest, caller_sees, safeHandle, result_of.
  destruct (h req) as [[resp|]|e|]; rewrite Hw, Hid.
  - destruct (rs_error resp) as [e|]; intros [= <-]; [|done]. eexists. split_and!; [reflexivity|done|apply remote_is_remote].
  - intros [= <-]. done.
  - intros [= <-]. eexists. split_and!; [reflexivity|done|apply remote_is_remote].
  - intros [= <-]. eexists. split_and!; [reflexivity|apply remote_is_remote|done].
Qed.

Lemma two_way_begin s now req s1 frame ch : Call_begin s None now req = (s1, inr (frame, Some ch)) →
  frame = NewFrame MessageTypeRequest (rq_id req) (rq_header req) (rq_body req) ∧ rq_oneway req = false ∧
  pending s1 !! rq_id req = Some ch.
Proof.
  unfold Call_begin. destruct (Alive s); cbn [negb]; [|done]. destruct (rq_oneway req) eqn:Ew; [done|].
  unfold register. destruct (closed (touch (add_inflight s 1) now)); [done|].
  destruct (pending (touch (add_inflight s 1) now) !! rq_id req); [done|]. intros E. injection E as <- <- <-.
  split; [done|]. split; [done|]. cbn. by rewrite lookup_insert_eq.
Qed.

(** C1: A remote call end to end, through encoding, the server's decoder and
    handler, the reply's encoding, the client's decoder and the dispatch by request
    id: whatever else is pending on the stream and whatever follows on the wire, the
    caller gets exactly the handler's response, or an error that is a remote error
    and, for a panicking handler, the handler-panic error; the stream stays usable
    and the call is no longer pending. *)
Theorem rpc_end_to_end s now req s1 frame ch lim h reply now2 rest1 rest2 :
  reachable s → Call_begin s None now req = (s1, inr (frame, Some ch)) →
  frame_ok frame lim → handleRequest h frame (request_of frame) = Some reply → frame_ok reply lim →
  ∃ bs1 bs2 s2 s3 r, EncodeWithLimits frame lim = Ok bs1 ∧ readFrame (bs1 ++ rest1) lim = (rest1, inr frame) ∧
    EncodeWithLimits reply lim = Ok bs2 ∧
    readLoop_step s1 now2 (readFrame (bs2 ++ rest2) lim).2 = (s2, None, true) ∧
    Call_select s2 None req ch Received = Some (s3, r) ∧ caller_sees h req r ∧
    pending s3 !! rq_id req = None ∧ closed s3 = closed s1.
Proof.
  intros Hr Hb Hf Hh Hok. destruct (two_way_begin _ _ _ _ _ _ Hb) as (Ef & Ew & Hp).
  assert (stream_ok s1) as Hs1.
  { pose proof (Call_begin_ok s None now req (reachable_ok _ Hr)) as H. by rewrite Hb in H. }
  pose proof (ok_pending _ Hs1 _ _ Hp) as Hch.
  assert (request_of frame = req) as Hrq by (subst frame; destruct req as [id hd bd ow]; cbn in *; by rewrite Ew).
  destruct (handleRequest_id _ _ _ _ Hh) as (Hid & Hty & _).
  assert (RequestID reply = rq_id req) as Hid' by (rewrite Hid, Ef; done).
  exists (wire frame), (wire reply).
  rewrite (readFrame_wire_app frame lim rest1 Hf), (readFrame_wire_app reply lim rest2 Hok). cbn [snd].
  set (s2 := dispatch (touch s1 now2) (rq_id req) (RFrame reply)).
  assert (readLoop_step s1 now2 (inr reply) = (s2, None, true)) as Hstep.
  { unfold readLoop_step. rewrite Hty, Hid'. done. }
  assert (chans s2 !! ch = Some (mkChan (rq_id req) (Some (RFrame reply)))) as Hbuf.
  { unfold s2, dispatch. cbn [pending touch]. rewrite Hp. cbn. by apply chan_send_lookup. }
  assert (closed s2 = closed s1) as Hcl by (unfold s2, dispatch; cbn; by rewrite Hp).
  exists s2. eexists _, _. split; [by apply encode_wire, validate_ok|]. split; [done|].
  split; [by apply encode_wire, validate_ok|]. split; [exact Hstep|].
  unfold Call_select, chan_recv. rewrite Hbuf. cbn [mbind option_bind]. split; [reflexivity|].
  split; [|split].
  - apply (reply_seen h req frame); [by rewrite Ef|by rewrite Ef|]. by rewrite <- Hrq at 1.
  - unfold Call_defer. rewrite Ew. cbn. by rewrite lookup_delete_eq.
  - unfold Call_defer. rewrite Ew. cbn. done.
Qed.

(** ** Witnesses *)
Definition ex_frame7 : Frame := NewFrame MessageTypeRequest 7 [] (bytes_of "hi").
Definition ex_req7 : Request := mkRequest 7 [] (bytes_of "hi") false.
Lemma small_frame_ok f : Magic f = frameMagic → Version f = frameVersion → frame_wt f →
  (length (Header f) <= 100)%nat → (length (Body f) <= 100)%nat → frame_ok f defaultLimits.
Proof. intros. split; cbn; try done; unfold defaultMaxHeaderSize, defaultMaxBodySize; lia. Qed.

Lemma rpc_end_to_end_witness : ∃ s2 ch r s3,
  Call_select s2 None ex_req7 ch Received = Some (s3, r) ∧
  r = inr (mkResponse 7 [] (bytes_of "hi") None).
Proof.
  destruct (rpc_end_to_end (newStream 0) 1 ex_req7 _ _ _ defaultLimits EchoHandler
    (NewFrame MessageTypeResponse 7 [] (bytes_of "hi")) 2 [] [] (ex_intro _ 0 (rtc_refl _ _)) eq_refl)
    as (bs1 & bs2 & s2 & s3 & r & _ & _ & _ & _ & H & Hc & _).
  - apply small_frame_ok; try reflexivity; cbn; try lia.
    split; (split; vm_compute; [discriminate|reflexivity]).
  - reflexivity.
  - apply small_frame_ok; try reflexivity; cbn; try lia.
    split; (split; vm_compute; [discriminate|reflexivity]).
  - exists s2, 0%nat, r, s3. split; [exact H|exact Hc].
Defined.

Definition ex_srv1 : server := mkSrv false [mkConn false 0 PServe false] 1 0 1 2.
Lemma shutdown_waits_for_requests_witness :
  srv_reachable ex_srv1 ∧
  (length (List.filter (λ c, match ph c with PReleased => false | _ => true end) (conns ex_srv1)) <= 2)%nat.
Proof.
  assert (srv_reachable ex_srv1) as H by (exists 2%nat; apply rtc_once; constructor; reflexivity).
  split; [exact H|]. exact (proj2 (shutdown_waits_for_requests ex_srv1 H)).
Defined.

(** Draining cancels the business contexts it is meant to spare: leaving the
    connection loop during a graceful shutdown, long before its timeout, cancels the
    context of requests that are still being handled. *)
Example drain_cancels_requests : ∃ s c, srv_reachable s ∧ s_closed s = true ∧ conns s !! 0%nat = Some c ∧
  reqs c = 1%nat ∧ cancelled c = true ∧ wg s = 2.
Proof.
  eexists _, _. split.
  - exists 1%nat. eapply rtc_l; [apply s_accept; reflexivity|].
    eapply rtc_l; [eapply (s_request _ 0); reflexivity|].
    eapply rtc_l; [apply s_shutdown|]. eapply rtc_l; [eapply (s_exit _ 0); reflexivity|]. apply rtc_refl.
  - cbn. done.
Qed.
