(* ===== verification/NetLifecycle.v ===== *)
(** * The life of a micro/net server

    Models [Start], [Shutdown], [beginDrain] and the control flow of [handleConn] and
    [handleRequest] in [src/micro/net/server.go] as a transition system: one step per
    access to the closed flag, the wait groups, the map of connections, the slots and
    the listener.  What a connection sends and what handlers compute is in
    [NetServer]. *)

From S2P Require Import Prelude.

(** ** State *)
(** Where the goroutine of a connection is: started; in the map; at the top of the
    loop; about to set the read deadline; reading; with a request; past the last check
    of the flags; in its deferred function, waiting for its requests; after [wg.Done];
    gone. *)
Inductive conn_pc := CStart | CStored | CLoop | CArmed | CReading | CRequest | CAllowed | CWait | CLeft | CGone.
#[global] Instance conn_pc_eq_dec : EqDecision conn_pc.
Proof. solve_decision. Defined.
(** [c_reqs]: requests under way.  [c_shut]: the connection is closed.  [c_tcp]: it is
    a [*net.TCPConn] (not one of [crypto/tls] or a Unix socket).  [c_past]: the read
    deadline was set to the present.  [c_half]: its read side is closed. *)
Record lconn := mkLConn { c_pc : conn_pc; c_draining : bool; c_reqs : nat; c_shut : bool; c_tcp : bool; c_past : bool; c_half : bool }.
Inductive listener := LNone | LOpen | LClosed.
(** [SReturned None]: [Start] returned nil. *)
Inductive start_pc := SNot | SChecked | SListening | SAccepted | SReturned (e : option string).
Inductive shut_result := RAlready | RDrained | RTimeout.
(** A call of [Shutdown]: not yet run; after the swap of the flag; draining the
    connections listed; waiting; the wait group was at zero; closing the connections
    listed; the second, bounded wait; returned. *)
Inductive shut_pc := HNew | HSwapped | HDrain (todo : list nat) | HWait | HDone | HForce (todo : list nat) | HForced
  | HReturned (r : shut_result).
(** [l_debt]: requests between [reqWg.Done] and [wg.Done]. *)
Record life := mkLife {
  l_closed : bool; l_listener : listener; l_start : start_pc; l_shuts : list shut_pc;
  l_wg : Z; l_debt : nat; l_sem : nat; l_max : nat; l_cancelled : bool; l_conns : list lconn }.
Definition new_life (maxConns : nat) (shuts : nat) : life :=
  mkLife false LNone SNot (replicate shuts HNew) 0 0 0 maxConns false [].

(** ** Operations *)
Definition set_start (p : start_pc) (l : life) : life :=
  mkLife (l_closed l) (l_listener l) p (l_shuts l) (l_wg l) (l_debt l) (l_sem l) (l_max l) (l_cancelled l) (l_conns l).
Definition set_listener (x : listener) (l : life) : life :=
  mkLife (l_closed l) x (l_start l) (l_shuts l) (l_wg l) (l_debt l) (l_sem l) (l_max l) (l_cancelled l) (l_conns l).
Definition set_shut (i : nat) (p : shut_pc) (l : life) : life :=
  mkLife (l_closed l) (l_listener l) (l_start l) (<[i := p]> (l_shuts l)) (l_wg l) (l_debt l) (l_sem l) (l_max l) (l_cancelled l) (l_conns l).
Definition set_closed (l : life) : life :=
  mkLife true (l_listener l) (l_start l) (l_shuts l) (l_wg l) (l_debt l) (l_sem l) (l_max l) (l_cancelled l) (l_conns l).
(** [s.cancel()] *)
Definition cancel_base (l : life) : life :=
  mkLife (l_closed l) (l_listener l) (l_start l) (l_shuts l) (l_wg l) (l_debt l) (l_sem l) (l_max l) true (l_conns l).
Definition add_wg (d : Z) (l : life) : life :=
  mkLife (l_closed l) (l_listener l) (l_start l) (l_shuts l) (l_wg l + d) (l_debt l) (l_sem l) (l_max l) (l_cancelled l) (l_conns l).
Definition set_debt (n : nat) (l : life) : life :=
  mkLife (l_closed l) (l_listener l) (l_start l) (l_shuts l) (l_wg l) n (l_sem l) (l_max l) (l_cancelled l) (l_conns l).
Definition set_sem (n : nat) (l : life) : life :=
  mkLife (l_closed l) (l_listener l) (l_start l) (l_shuts l) (l_wg l) (l_debt l) n (l_max l) (l_cancelled l) (l_conns l).
Definition set_lconns (cs : list lconn) (l : life) : life :=
  mkLife (l_closed l) (l_listener l) (l_start l) (l_shuts l) (l_wg l) (l_debt l) (l_sem l) (l_max l) (l_cancelled l) cs.
Definition set_lconn (i : nat) (c : lconn) (l : life) : life := set_lconns (<[i := c]> (l_conns l)) l.

Definition set_pc (p : conn_pc) (c : lconn) : lconn := mkLConn p (c_draining c) (c_reqs c) (c_shut c) (c_tcp c) (c_past c) (c_half c).
(** [beginDrain] *)
Definition drain (c : lconn) : lconn :=
  if c_draining c then c else mkLConn (c_pc c) true (c_reqs c) (c_shut c) (c_tcp c) true (c_tcp c).
(** [setReadDeadline]: later, or none. *)
Definition rearm (c : lconn) : lconn := mkLConn CReading (c_draining c) (c_reqs c) (c_shut c) (c_tcp c) false (c_half c).
Definition shut_conn (c : lconn) : lconn := mkLConn (c_pc c) (c_draining c) (c_reqs c) true (c_tcp c) (c_past c) (c_half c).
(** In the map of connections. *)
Definition stored (c : lconn) : bool := match c_pc c with CStart | CGone => false | _ => true end.
Definition stored_conns (cs : list lconn) : list nat :=
  omap (λ i, match cs !! i with Some c => if stored c then Some i else None | None => None end) (seq 0 (length cs)).

(** The accept loop takes a slot and starts the goroutine, or closes the connection. *)
Definition accept_conn (tcp : bool) (l : life) : life :=
  if (l_sem l <? l_max l)%nat
  then set_start SListening (set_lconns (l_conns l ++ [mkLConn CStart false 0 false tcp false false]) (set_sem (S (l_sem l)) (add_wg 1 l)))
  else set_start SListening l.

(** The checks of the flags in [handleConn]: where each leads. *)
Definition first_check (closed : bool) (c : lconn) : lconn :=
  if closed then set_pc CWait (drain c) else set_pc CLoop c.
Definition loop_check (closed : bool) (c : lconn) : lconn :=
  if closed || c_draining c then set_pc CWait (drain c) else set_pc CArmed c.
Definition request_check (closed : bool) (c : lconn) : lconn :=
  if c_draining c || closed then set_pc CWait c else set_pc CAllowed c.
(** [reqWg.Add(1)] *)
Definition begin_request (c : lconn) : lconn := mkLConn CLoop (c_draining c) (S (c_reqs c)) (c_shut c) (c_tcp c) (c_past c) (c_half c).
Definition end_request (n : nat) (c : lconn) : lconn := mkLConn (c_pc c) (c_draining c) n (c_shut c) (c_tcp c) (c_past c) (c_half c).

(** ** Steps *)
Inductive start_step : life → life → Prop :=
| st_closed l : l_start l = SNot → l_closed l = true → start_step l (set_start (SReturned (Some "server: already closed")) l)
| st_check l : l_start l = SNot → l_closed l = false → start_step l (set_start SChecked l)
| st_listen_err l e : l_start l = SChecked → start_step l (set_start (SReturned (Some e)) l)
| st_listen l : l_start l = SChecked → start_step l (set_start SListening (set_listener LOpen l))
| st_accept l : l_start l = SListening → l_listener l = LOpen → start_step l (set_start SAccepted l)
| st_accept_err l : l_start l = SListening →
    start_step l (if l_closed l then set_start (SReturned None) l else l)
| st_serve l tcp : l_start l = SAccepted → start_step l (accept_conn tcp l).

Inductive conn_step (i : nat) : life → life → Prop :=
| cs_store l c : l_conns l !! i = Some c → c_pc c = CStart → conn_step i l (set_lconn i (set_pc CStored c) l)
| cs_first l c : l_conns l !! i = Some c → c_pc c = CStored → conn_step i l (set_lconn i (first_check (l_closed l) c) l)
| cs_loop l c : l_conns l !! i = Some c → c_pc c = CLoop → conn_step i l (set_lconn i (loop_check (l_closed l) c) l)
| cs_arm l c : l_conns l !! i = Some c → c_pc c = CArmed → conn_step i l (set_lconn i (rearm c) l)
| cs_arm_err l c : l_conns l !! i = Some c → c_pc c = CArmed → conn_step i l (set_lconn i (set_pc CWait c) l)
(** A read ends with an error, a frame that is no request, or a request. *)
| cs_read_err l c : l_conns l !! i = Some c → c_pc c = CReading → conn_step i l (set_lconn i (set_pc CWait c) l)
| cs_read_other l c : l_conns l !! i = Some c → c_pc c = CReading → conn_step i l (set_lconn i (set_pc CLoop c) l)
| cs_read_request l c : l_conns l !! i = Some c → c_pc c = CReading → conn_step i l (set_lconn i (set_pc CRequest c) l)
| cs_request l c : l_conns l !! i = Some c → c_pc c = CRequest → conn_step i l (set_lconn i (request_check (l_closed l) c) l)
| cs_limited l c : l_conns l !! i = Some c → c_pc c = CAllowed → conn_step i l (set_lconn i (set_pc CLoop c) l)
| cs_handle l c : l_conns l !! i = Some c → c_pc c = CAllowed → conn_step i l (set_lconn i (begin_request c) (add_wg 1 l))
| cs_leave l c : l_conns l !! i = Some c → c_pc c = CWait → c_reqs c = 0%nat →
    conn_step i l (set_lconn i (set_pc CLeft c) (add_wg (-1) l))
| cs_gone l c : l_conns l !! i = Some c → c_pc c = CLeft →
    conn_step i l (set_lconn i (set_pc CGone (shut_conn c)) (set_sem (l_sem l - 1) l))
(** The deferred calls of [handleRequest]. *)
| cs_req_done l c n : l_conns l !! i = Some c → c_reqs c = S n →
    conn_step i l (set_lconn i (end_request n c) (set_debt (S (l_debt l)) l))
| cs_req_left l d : l_debt l = S d → conn_step i l (add_wg (-1) (set_debt d l)).

Inductive shut_step (i : nat) : life → life → Prop :=
| sh_already l : l_shuts l !! i = Some HNew → l_closed l = true → shut_step i l (set_shut i (HReturned RAlready) l)
| sh_swap l : l_shuts l !! i = Some HNew → l_closed l = false → shut_step i l (set_shut i HSwapped (set_closed l))
| sh_listener l : l_shuts l !! i = Some HSwapped →
    shut_step i l (set_shut i (HDrain (stored_conns (l_conns l)))
      (match l_listener l with LNone => l | _ => set_listener LClosed l end))
| sh_drain l j todo : l_shuts l !! i = Some (HDrain (j :: todo)) →
    shut_step i l (set_shut i (HDrain todo) (set_lconns (alter drain j (l_conns l)) l))
(** A connection stored during the iteration may be visited. *)
| sh_drain_new l todo j c : l_shuts l !! i = Some (HDrain todo) → l_conns l !! j = Some c → stored c = true →
    shut_step i l (set_lconn j (drain c) l)
| sh_drained l : l_shuts l !! i = Some (HDrain []) → shut_step i l (set_shut i HWait l)
| sh_done l : l_shuts l !! i = Some HWait → l_wg l = 0%Z → shut_step i l (set_shut i HDone l)
| sh_return l : l_shuts l !! i = Some HDone → shut_step i l (set_shut i (HReturned RDrained) (cancel_base l))
| sh_timeout l : l_shuts l !! i = Some HWait →
    shut_step i l (set_shut i (HForce (stored_conns (l_conns l))) (cancel_base l))
(** Both channels are ready. *)
| sh_timeout_late l : l_shuts l !! i = Some HDone →
    shut_step i l (set_shut i (HForce (stored_conns (l_conns l))) (cancel_base l))
| sh_force l j todo : l_shuts l !! i = Some (HForce (j :: todo)) →
    shut_step i l (set_shut i (HForce todo) (set_lconns (alter shut_conn j (l_conns l)) l))
| sh_forced l : l_shuts l !! i = Some (HForce []) → shut_step i l (set_shut i HForced l)
| sh_give_up l : l_shuts l !! i = Some HForced → shut_step i l (set_shut i (HReturned RTimeout) l).

Definition life_step (l l' : life) : Prop :=
  start_step l l' ∨ (∃ i, conn_step i l l') ∨ (∃ i, shut_step i l l').
Definition life_reachable (l : life) : Prop := ∃ m n, rtc life_step (new_life m n) l.

(** The goroutine is in a read that only the peer or a timeout can end: the deadline is
    not past, and neither the read side nor the connection is closed. *)
Definition waits_for_peer (c : lconn) : bool :=
  match c_pc c with CReading => negb (c_past c || c_half c || c_shut c) | _ => false end.
