(* ===== verification/NetLifecycleFacts.v ===== *)
(** * Shutting a server down

    What [Shutdown] guarantees when it returns, and that draining ends. *)

From S2P Require Import Prelude NetLifecycle.
Local Open Scope Z_scope.

(** ** Predicates *)
(** The goroutine may still start requests. *)
Definition looping (p : conn_pc) : bool := match p with CLoop | CArmed | CReading | CRequest | CAllowed => true | _ => false end.
Definition live (c : lconn) : Prop := looping (c_pc c) = true ∨ (0 < c_reqs c)%nat.
(** Its share of the server's wait group. *)
Definition load (c : lconn) : Z :=
  (match c_pc c with CLeft | CGone => 0 | _ => 1 end) + Z.of_nat (c_reqs c).
Definition slots (c : lconn) : Z := match c_pc c with CGone => 0 | _ => 1 end.
(** Requests only while the connection loops or waits for them; a connection told to
    drain has its read side closed if it is TCP. *)
Definition conn_fine (c : lconn) : Prop :=
  (looping (c_pc c) = true ∨ c_pc c = CWait ∨ c_reqs c = 0%nat) ∧ (c_draining c = true → c_tcp c = true → c_half c = true).

Definition past_swap (p : shut_pc) : bool := match p with HNew => false | _ => true end.
Definition has_cancelled (p : shut_pc) : bool :=
  match p with HForce _ | HForced | HReturned RDrained | HReturned RTimeout => true | _ => false end.
(** Every connection has been told to drain. *)
Definition told_all (p : shut_pc) : bool :=
  match p with HWait | HDone | HForce _ | HForced | HReturned RDrained | HReturned RTimeout => true | _ => false end.

(** What the state of one call of [Shutdown] says about the server. *)
Definition shut_fine (l : life) (p : shut_pc) : Prop :=
  (past_swap p = true → l_closed l = true) ∧
  (has_cancelled p = true → l_cancelled l = true) ∧
  (told_all p = true → ∀ j c, l_conns l !! j = Some c → looping (c_pc c) = true → c_draining c = true) ∧
  match p with
  | HDrain todo => ∀ j c, l_conns l !! j = Some c → looping (c_pc c) = true → c_draining c = true ∨ j ∈ todo
  | HDone | HReturned RDrained => l_debt l = 0%nat ∧ ∀ j c, l_conns l !! j = Some c → ¬ live c
  | HForce todo => ∀ j c, l_conns l !! j = Some c → live c → c_shut c = true ∨ j ∈ todo
  | HForced | HReturned RTimeout => ∀ j c, l_conns l !! j = Some c → live c → c_shut c = true
  | _ => True
  end.
Record life_ok (l : life) : Prop := {
  lo_wg : l_wg l = sumZ (map load (l_conns l)) + Z.of_nat (l_debt l);
  lo_sem : Z.of_nat (l_sem l) = sumZ (map slots (l_conns l));
  lo_max : (l_sem l <= l_max l)%nat;
  lo_conns : ∀ i c, l_conns l !! i = Some c → conn_fine c;
  lo_shuts : ∀ i p, l_shuts l !! i = Some p → shut_fine l p }.

Lemma load_nonneg c : 0 <= load c.
Proof. unfold load. destruct (c_pc c); lia. Qed.
Lemma sum_nonneg {A} (f : A → Z) l : (∀ x, 0 <= f x) → 0 <= sumZ (map f l).
Proof. intros Hf. induction l as [|x l IH]; simpl; [lia|]. pose proof (Hf x). lia. Qed.
Lemma sum_elem {A} (f : A → Z) l i x : (∀ x, 0 <= f x) → l !! i = Some x → f x <= sumZ (map f l).
Proof.
  intros Hf Hi. apply list_elem_of_lookup_2, list_elem_of_split in Hi as (l1 & l2 & ->). rewrite map_app, sumZ_app. simpl.
  pose proof (sum_nonneg f l1 Hf). pose proof (sum_nonneg f l2 Hf). lia.
Qed.
(** An empty wait group. *)
Lemma wg_zero l : life_ok l → l_wg l = 0 → l_debt l = 0%nat ∧ ∀ j c, l_conns l !! j = Some c → ¬ live c.
Proof.
  intros Hl Hz. rewrite (lo_wg l Hl) in Hz. pose proof (sum_nonneg load (l_conns l) load_nonneg). split; [lia|].
  intros j c Hj Hc. pose proof (sum_elem load _ j c load_nonneg Hj). unfold load in *. destruct Hc as [Hc|Hc]; [|destruct (c_pc c); lia].
  unfold looping in Hc. destruct (c_pc c); simpl in *; try done; lia.
Qed.
Lemma stored_spec cs i : i ∈ stored_conns cs ↔ ∃ c, cs !! i = Some c ∧ stored c = true.
Proof.
  unfold stored_conns. rewrite list_elem_of_omap. split.
  - intros (j & _ & Hj). destruct (cs !! j) as [c|] eqn:Hc; [|done]. destruct (stored c) eqn:Hs; [|done]. simplify_eq. by exists c.
  - intros (c & Hc & Hs). exists i. rewrite Hc, Hs. split; [|done]. apply elem_of_seq. apply lookup_lt_Some in Hc. lia.
Qed.
Lemma live_stored c : conn_fine c → live c → stored c = true.
Proof. unfold conn_fine, live, stored. destruct (c_pc c); simpl; try done; intros [[|[|]] _] [|]; try done; lia. Qed.

(** ** Steps of connections *)
(** A connection moves: wait group and slots move with it, and it does not come alive
    once the server is closed. *)
Record conn_move (l : life) (c c' : lconn) (dwg : Z) (ddebt : Z) (dsem : Z) : Prop := {
  cm_load : dwg = load c' - load c + ddebt;
  cm_slots : dsem = slots c' - slots c;
  cm_fine : conn_fine c';
  cm_live : l_closed l = true → live c' → live c;
  cm_shut : c_shut c = true → c_shut c' = true;
  cm_loop : l_closed l = true → looping (c_pc c') = true → looping (c_pc c) = true ∧ (c_draining c = true → c_draining c' = true);
  cm_debt : ddebt = 1 → live c }.

(** A change under which no connection comes alive and none is opened again. *)
Lemma shut_fine_mono l l' p :
  (l_closed l = true → l_closed l' = true) → (l_cancelled l = true → l_cancelled l' = true) →
  (l_closed l = true → ∀ k x, l_conns l' !! k = Some x → live x →
     ∃ x0, l_conns l !! k = Some x0 ∧ live x0 ∧ (c_shut x0 = true → c_shut x = true) ∧
       (looping (c_pc x) = true → looping (c_pc x0) = true ∧ (c_draining x0 = true → c_draining x = true))) →
  ((∀ j c, l_conns l !! j = Some c → ¬ live c) → l_debt l = 0%nat → l_debt l' = 0%nat) →
  shut_fine l p → shut_fine l' p.
Proof.
  intros Hcl Hca Hn Hd (H1 & H2 & HM & H3).
  assert (Hm' : ∀ P : nat → Prop, past_swap p = true → (∀ j c, l_conns l !! j = Some c → looping (c_pc c) = true → c_draining c = true ∨ P j) →
            ∀ j c, l_conns l' !! j = Some c → looping (c_pc c) = true → c_draining c = true ∨ P j).
  { intros P Hp HP k x Hk Hx. destruct (Hn (H1 Hp) k x Hk (or_introl Hx)) as (x0 & Hk0 & _ & _ & Hlo). destruct (Hlo Hx) as [Hx0 Hdr].
    destruct (HP k x0 Hk0 Hx0); auto. }
  split; [by eauto|]. split; [by eauto|]. split.
  { intros Hm j c Hj Hc. destruct (Hm' (λ _, False)) with (j := j) (c := c) as [?|[]]; [by destruct p|intros k x Hk Hx; left; by eapply HM|done..]. }
  assert (Hq : past_swap p = true → (∀ j c, l_conns l !! j = Some c → ¬ live c) → ∀ j c, l_conns l' !! j = Some c → ¬ live c).
  { intros Hp Hq k x Hk Hx. destruct (Hn (H1 Hp) k x Hk Hx) as (x0 & Hk0 & Hx0 & _). by eapply Hq. }
  assert (Hs : past_swap p = true → (∀ j c, l_conns l !! j = Some c → live c → c_shut c = true) →
            ∀ j c, l_conns l' !! j = Some c → live c → c_shut c = true).
  { intros Hp Hs k x Hk Hx. destruct (Hn (H1 Hp) k x Hk Hx) as (x0 & Hk0 & Hx0 & Hm & _). by eapply Hm, Hs. }
  destruct p as [| |todo| | |todo| |[]]; try done; try (by apply Hs); try (destruct H3; split; [by apply Hd|by apply Hq]).
  - by apply (Hm' (λ j, j ∈ todo)).
  - intros k x Hk Hx. destruct (Hn (H1 eq_refl) k x Hk Hx) as (x0 & Hk0 & Hx0 & Hm & _). destruct (H3 k x0 Hk0 Hx0); auto.
Qed.
Lemma shut_move l l' j c c' ddebt : l_conns l !! j = Some c → l_conns l' = <[j := c']> (l_conns l) →
  l_closed l' = l_closed l → l_cancelled l' = l_cancelled l → Z.of_nat (l_debt l') = Z.of_nat (l_debt l) + ddebt →
  (l_closed l = true → live c' → live c) → (c_shut c = true → c_shut c' = true) →
  (l_closed l = true → looping (c_pc c') = true → looping (c_pc c) = true ∧ (c_draining c = true → c_draining c' = true)) →
  (ddebt = 1 → live c) → (ddebt = 0 ∨ ddebt = 1) →
  ∀ p, shut_fine l p → shut_fine l' p.
Proof.
  intros Hj Hc Hcl Hca Hd Hlive Hshut Hloop Hdl Hdd p. apply shut_fine_mono; [by rewrite Hcl|by rewrite Hca| |].
  - intros Hclo k x. rewrite Hc. destruct (decide (k = j)) as [->|Hk].
    + rewrite list_lookup_insert_eq by (by apply lookup_lt_Some in Hj). intros [= <-] ?. exists c. split_and!; eauto.
    + rewrite list_lookup_insert_ne by done. intros ? ?. by exists x.
  - intros Hq Hz. destruct Hdd as [->|Hd1]; [lia|]. exfalso. by eapply Hq, Hdl.
Qed.
Lemma conn_move_ok l l' j c c' dwg ddebt dsem :
  life_ok l → l_conns l !! j = Some c → conn_move l c c' dwg ddebt dsem → ddebt = 0 ∨ ddebt = 1 → dsem <= 0 →
  l_conns l' = <[j := c']> (l_conns l) → l_wg l' = l_wg l + dwg → Z.of_nat (l_debt l') = Z.of_nat (l_debt l) + ddebt →
  Z.of_nat (l_sem l') = Z.of_nat (l_sem l) + dsem → l_max l' = l_max l →
  l_closed l' = l_closed l → l_cancelled l' = l_cancelled l → l_shuts l' = l_shuts l → life_ok l'.
Proof.
  intros Hl Hj [M1 M2 M3 M4 M5 M7 M6] Hdd Hds Hc Hw Hd Hs Hm Hcl Hca Hsh. pose proof Hl as [L1 L2 L3 L4 L5]. split.
  - rewrite Hc, (sum_map_insert load _ _ _ _ Hj), Hw, L1. lia.
  - rewrite Hc, (sum_map_insert slots _ _ _ _ Hj), Hs, L2. lia.
  - lia.
  - intros i x. rewrite Hc. destruct (decide (i = j)) as [->|Hi].
    + rewrite list_lookup_insert_eq by (by apply lookup_lt_Some in Hj). by intros [= <-].
    + rewrite list_lookup_insert_ne by done. apply L4.
  - intros i p. rewrite Hsh. intros Hp. eapply shut_move; eauto.
Qed.
(** Moves that only change where the connection is. *)
Lemma pc_move_ok l j c c' : life_ok l → l_conns l !! j = Some c → load c' = load c → slots c' = slots c → conn_fine c' →
  (l_closed l = true → live c' → live c) → (c_shut c = true → c_shut c' = true) →
  (l_closed l = true → looping (c_pc c') = true → looping (c_pc c) = true ∧ (c_draining c = true → c_draining c' = true)) → life_ok (set_lconn j c' l).
Proof.
  intros Hl Hj H1 H2 H3 H4 H5 H6. eapply (conn_move_ok l _ j c c' 0 0 0); try done; simpl; try lia.
  split; try done; lia.
Qed.

Lemma slots_pos l j c : life_ok l → l_conns l !! j = Some c → c_pc c ≠ CGone → (0 < l_sem l)%nat.
Proof.
  intros Hl Hj Hc. pose proof (lo_sem l Hl) as Hs. assert (H0 : ∀ x, 0 <= slots x) by (intros x; unfold slots; destruct (c_pc x); lia).
  pose proof (sum_elem slots _ j c H0 Hj) as Hle. assert (slots c = 1) by (unfold slots; by destruct (c_pc c)). lia.
Qed.
(** Unfold the small predicates of a connection whose place is known. *)
Ltac by_place := unfold load, slots, conn_fine, live, looping, first_check, loop_check, request_check, drain in *;
  repeat case_match; simpl in *; try congruence; try tauto; try lia; try naive_solver lia.

Lemma conn_step_ok i l l' : conn_step i l l' → life_ok l → life_ok l'.
Proof.
  intros Hs Hl. pose proof (lo_conns l Hl) as Hf.
  destruct Hs as [l c Hc Hp|l c Hc Hp|l c Hc Hp|l c Hc Hp|l c Hc Hp|l c Hc Hp|l c Hc Hp|l c Hc Hp|l c Hc Hp|l c Hc Hp|l c Hc Hp|l c Hc Hp Hr|l c Hc Hp|l c n Hc Hr|l d Hd];
    try (specialize (Hf _ _ Hc)).
  1-10: apply (pc_move_ok l i c); try done; destruct c as [pc dr rq sh tc pa ha]; simpl in *; subst pc; by_place.
  - eapply (conn_move_ok l _ i c (begin_request c) 1 0 0); try done; simpl; try lia.
    split; try done; destruct c as [pc dr rq sh tc pa ha]; simpl in *; subst pc; by_place.
  - eapply (conn_move_ok l _ i c (set_pc CLeft c) (-1) 0 0); try done; simpl; try lia.
    split; try done; destruct c as [pc dr rq sh tc pa ha]; simpl in *; subst pc; by_place.
  - pose proof (slots_pos l i c Hl Hc) as Hpos. eapply (conn_move_ok l _ i c (set_pc CGone (shut_conn c)) 0 0 (-1)); try done; simpl; try lia.
    + split; try done; destruct c as [pc dr rq sh tc pa ha]; simpl in *; subst pc; by_place.
    + rewrite Hp in Hpos. specialize (Hpos ltac:(done)). lia.
  - eapply (conn_move_ok l _ i c (end_request n c) 0 1 0); try done; simpl; try lia.
    + split; try done; destruct c as [pc dr rq sh tc pa ha]; simpl in *; subst rq; by_place.
  - destruct Hl as [L1 L2 L3 L4 L5]. split; simpl; try done; [lia|]. intros j p Hj. specialize (L5 j p Hj).
    destruct L5 as (H1 & H2 & HM & H3). split_and!; try done. destruct p as [| | | | |todo| |[]]; try done; simpl in *; destruct H3; congruence.
Qed.

(** ** Steps of [Start] and [Shutdown] *)
Definition conn_same (c c' : lconn) : Prop :=
  c_pc c' = c_pc c ∧ c_reqs c' = c_reqs c ∧ (c_shut c = true → c_shut c' = true) ∧ (c_draining c = true → c_draining c' = true) ∧
  (conn_fine c → conn_fine c').
Lemma same_refl cs : Forall2 conn_same cs cs.
Proof. by apply Forall_Forall2_diag, Forall_forall. Qed.
Lemma same_alter f j cs : (∀ c, conn_same c (f c)) → Forall2 conn_same cs (alter f j cs).
Proof.
  intros Hf. revert j. induction cs as [|c cs IH]; intros [|j]; simpl; constructor; try done; [apply same_refl|apply IH].
Qed.
Lemma same_sum (f : lconn → Z) cs cs' : (∀ c c', conn_same c c' → f c' = f c) → Forall2 conn_same cs cs' → sumZ (map f cs') = sumZ (map f cs).
Proof. intros Hf. induction 1 as [|c c' cs cs' Hc _ IH]; simpl; [done|]. by rewrite IH, (Hf c c' Hc). Qed.
Lemma same_live c c' : conn_same c c' → live c' ↔ live c.
Proof. intros (Hp & Hr & _). unfold live. by rewrite Hp, Hr. Qed.
Lemma shut_fine_same l l' p : Forall2 conn_same (l_conns l) (l_conns l') → l_debt l' = l_debt l →
  (l_closed l = true → l_closed l' = true) → (l_cancelled l = true → l_cancelled l' = true) → shut_fine l p → shut_fine l' p.
Proof.
  intros Hc Hd Hcl Hca. apply shut_fine_mono; try done; [|by rewrite Hd].
  intros _ k x Hk Hx. destruct (Forall2_lookup_r _ _ _ _ _ Hc Hk) as (x0 & Hx0 & Hs). exists x0. rewrite <- (same_live _ _ Hs).
  destruct Hs as (Hp & _ & ? & ? & _). rewrite Hp. by split_and!.
Qed.
Lemma life_ok_same l l' : life_ok l → Forall2 conn_same (l_conns l) (l_conns l') → l_wg l' = l_wg l → l_debt l' = l_debt l →
  l_sem l' = l_sem l → l_max l' = l_max l → (∀ i p, l_shuts l' !! i = Some p → shut_fine l' p) → life_ok l'.
Proof.
  intros [L1 L2 L3 L4 L5] Hc Hw Hd Hs Hm Hsh. split; try done.
  - rewrite Hw, Hd, (same_sum load (l_conns l)); [done| |done]. intros c c' (Hp & Hr & _). unfold load. by rewrite Hp, Hr.
  - rewrite Hs, (same_sum slots (l_conns l)); [done| |done]. intros c c' (Hp & Hr & _). unfold slots. by rewrite Hp.
  - by rewrite Hs, Hm.
  - intros i x Hx. destruct (Forall2_lookup_r _ _ _ _ _ Hc Hx) as (x0 & Hx0 & _ & _ & _ & _ & Hfi). by eapply Hfi, L4.
Qed.
Lemma shut_ok l l' i p' : life_ok l → l_shuts l' = <[i := p']> (l_shuts l) → Forall2 conn_same (l_conns l) (l_conns l') →
  l_wg l' = l_wg l → l_debt l' = l_debt l → l_sem l' = l_sem l → l_max l' = l_max l →
  (l_closed l = true → l_closed l' = true) → (l_cancelled l = true → l_cancelled l' = true) → shut_fine l' p' → life_ok l'.
Proof.
  intros Hl Hsh Hc Hw Hd Hs Hm Hcl Hca Hp. eapply life_ok_same; try done. intros j p. rewrite Hsh. intros Hj.
  apply list_lookup_insert_Some in Hj as [(<- & <- & _)|(_ & Hj)]; [done|]. eapply shut_fine_same; try done. by eapply lo_shuts.
Qed.
Lemma forced_conns l : life_ok l → ∀ j c, l_conns l !! j = Some c → live c → c_shut c = true ∨ j ∈ stored_conns (l_conns l).
Proof. intros Hl j c Hj Hc. right. apply stored_spec. exists c. split; [done|]. apply live_stored; [by eapply lo_conns|done]. Qed.

(** Changes of the listener or of where [Start] is. *)
Lemma life_ok_id l l' : life_ok l → l_conns l' = l_conns l → l_shuts l' = l_shuts l → l_wg l' = l_wg l → l_debt l' = l_debt l →
  l_sem l' = l_sem l → l_max l' = l_max l → l_closed l' = l_closed l → l_cancelled l' = l_cancelled l → life_ok l'.
Proof.
  intros Hl Hc Hsh Hw Hd Hse Hm Hcl Hca. eapply (life_ok_same l); try done; rewrite ?Hc; [apply same_refl|].
  intros i p. rewrite Hsh. intros Hp. eapply (shut_fine_same l); rewrite ?Hc, ?Hcl, ?Hca; try done; [apply same_refl|by eapply lo_shuts].
Qed.

Lemma accept_ok tcp l : life_ok l → life_ok (accept_conn tcp l).
Proof.
  intros Hl. unfold accept_conn. destruct (Nat.ltb_spec (l_sem l) (l_max l)) as [Hlt|_].
  - destruct Hl as [L1 L2 L3 L4 L5]. assert (H1 : load (mkLConn CStart false 0 false tcp false false) = 1) by done.
    assert (H2 : slots (mkLConn CStart false 0 false tcp false false) = 1) by done.
    split; cbn [l_wg l_sem l_max l_debt l_conns l_shuts set_start set_lconns set_sem add_wg]; rewrite ?map_app, ?sumZ_app; cbn [map sumZ]; [lia..| |].
    + intros i c Hi. apply lookup_snoc_Some in Hi as [[_ Hi]|[_ <-]]; [by eapply L4|]. split; [by right; right|done].
    + intros i p Hp. eapply shut_fine_mono, L5; try done. intros _ k x Hk Hx. exists x. split; [|done].
      apply lookup_snoc_Some in Hk as [[_ Hk]|[_ <-]]; [done|]. destruct Hx; simpl in *; [done|lia].
  - by eapply life_ok_id.
Qed.

Lemma start_step_ok l l' : start_step l l' → life_ok l → life_ok l'.
Proof.
  intros Hs Hl. destruct Hs; try (by eapply life_ok_id); [by destruct (l_closed l); [eapply life_ok_id|]|by apply accept_ok].
Qed.
Lemma same_insert cs j c c' : cs !! j = Some c → conn_same c c' → Forall2 conn_same cs (<[j := c']> cs).
Proof.
  intros Hj Hc. rewrite <- (list_insert_id cs j c) at 1 by done. apply Forall2_insert; [apply same_refl|done].
Qed.
Lemma life_drain_same c : conn_same c (drain c).
Proof. unfold conn_same, drain, conn_fine. destruct (c_draining c) eqn:E; [by rewrite E|]. simpl. split_and!; try done. by intros [? _]. Qed.
Lemma shut_same c : conn_same c (shut_conn c).
Proof. by unfold conn_same, conn_fine. Qed.
Lemma drain_drains c : c_draining (drain c) = true.
Proof. unfold drain. by destruct (c_draining c) eqn:E. Qed.
Lemma shut_step_ok i l l' : shut_step i l l' → life_ok l → life_ok l'.
Proof.
  intros Hs Hl. pose proof (lo_shuts l Hl i) as Hf. pose proof (same_refl (l_conns l)) as Hr.
  assert (Hd : ∀ j, Forall2 conn_same (l_conns l) (alter drain j (l_conns l))) by (intros j; apply same_alter, life_drain_same).
  assert (Hsh : ∀ j, Forall2 conn_same (l_conns l) (alter shut_conn j (l_conns l))) by (intros j; apply same_alter, shut_same).
  destruct Hs as [l H Hc|l H Hc|l H|l j todo H|l todo j c H Hj Hst|l H|l H Hw|l H|l H|l H|l j todo H|l H|l H];
    specialize (Hf _ H) as (F1 & F2 & FM & F3); simpl in F1, F2, FM, F3;
    try (eapply (shut_ok l _ i); simpl; try done; split_and!; simpl; auto; fail).
  - assert (Hm : ∀ k x, l_conns l !! k = Some x → looping (c_pc x) = true → c_draining x = true ∨ k ∈ stored_conns (l_conns l)).
    { intros k x Hk Hx. right. apply stored_spec. exists x. split; [done|]. apply live_stored; [by eapply lo_conns|by left]. }
    destruct (l_listener l); eapply (shut_ok l _ i); simpl; try done; split_and!; simpl; auto.
  - eapply (shut_ok l _ i); simpl; try done; split_and!; simpl; auto; [done|]. intros k x Hk Hx.
    destruct (decide (j = k)) as [->|Hne].
    + left. rewrite list_lookup_alter_eq in Hk. apply fmap_Some in Hk as (y & _ & ->). apply drain_drains.
    + rewrite list_lookup_alter_ne in Hk by done. destruct (F3 k x Hk Hx) as [?|[->|?]%elem_of_cons]; auto; done.
  - pose proof (same_insert _ _ _ _ Hj (life_drain_same c)) as Hs.
    eapply (life_ok_same l); simpl; try done. intros k p Hp. eapply (shut_fine_same l); try done. by eapply lo_shuts.
  - eapply (shut_ok l _ i); simpl; try done; split_and!; simpl; auto. intros _ k x Hk Hx.
    destruct (F3 k x Hk Hx) as [?|Hin]; [done|]. by apply elem_of_nil in Hin.
  - eapply (shut_ok l _ i); simpl; try done. destruct (wg_zero l Hl Hw) as [? Hz]. split_and!; simpl; auto.
  - eapply (shut_ok l _ i); simpl; try done. split_and!; simpl; auto. exact (forced_conns l Hl).
  - eapply (shut_ok l _ i); simpl; try done. split_and!; simpl; auto. exact (forced_conns l Hl).
  - assert (Hdr : ∀ k x, alter shut_conn j (l_conns l) !! k = Some x → ∃ y, l_conns l !! k = Some y ∧ c_pc x = c_pc y ∧ c_draining x = c_draining y).
    { intros k x Hk. destruct (decide (j = k)) as [->|Hne].
      - rewrite list_lookup_alter_eq in Hk. by apply fmap_Some in Hk as (y & ? & ->); exists y.
      - rewrite list_lookup_alter_ne in Hk by done. by exists x. }
    eapply (shut_ok l _ i); simpl; try done; split_and!; simpl; auto.
    + intros _ k x Hk Hx. destruct (Hdr k x Hk) as (y & Hy & Hp & ->). rewrite Hp in Hx. by eapply FM.
    + intros k x Hk Hx. destruct (decide (j = k)) as [->|Hne].
      * left. rewrite list_lookup_alter_eq in Hk. by apply fmap_Some in Hk as (y & _ & ->).
      * rewrite list_lookup_alter_ne in Hk by done. destruct (F3 k x Hk Hx) as [?|[->|?]%elem_of_cons]; auto; done.
  - eapply (shut_ok l _ i); simpl; try done; split_and!; simpl; auto.
    intros k x Hk Hx. destruct (F3 k x Hk Hx) as [?|Hin]; [done|]. by apply elem_of_nil in Hin.
Qed.

Lemma life_reachable_ok l : life_reachable l → life_ok l.
Proof.
  intros (m & n & Hr). eapply (rtc_invariant _ life_ok); [|exact Hr|].
  - intros l1 l2 Hl1 [Hs|[[i Hs]|[i Hs]]]; [by eapply start_step_ok|by eapply conn_step_ok|by eapply shut_step_ok].
  - split; simpl; [lia|lia|lia|done|]. by intros i p [-> _]%lookup_replicate.
Qed.

(** ** When [Shutdown] returns *)
Lemma slots_count cs : sumZ (map slots cs) = Z.of_nat (length (List.filter (λ c, match c_pc c with CGone => false | _ => true end) cs)).
Proof. induction cs as [|c cs IH]; [done|]. simpl. rewrite IH. unfold slots. destruct (c_pc c); simpl; lia. Qed.

(** C11: what [Shutdown] promises when it returns holds in every interleaving of
    [Start], connections, requests and any number of calls of [Shutdown], from then
    on.  The call that closed the server and drained it returns nil only when no
    request is running or between its two wait groups, and none is ever started
    afterwards, also not by connections accepted late.  If it timed out, it has
    cancelled the server's context and closed every connection that could still serve
    a request.  A call that finds the server closed returns nil at once and promises
    only that.  There are never more connections than slots. *)
Theorem shutdown_promises l : life_reachable l →
  (∀ i, l_shuts l !! i = Some (HReturned RDrained) → l_closed l = true ∧ l_cancelled l = true ∧ l_debt l = 0%nat ∧
     ∀ j c, l_conns l !! j = Some c → c_reqs c = 0%nat ∧ c_pc c ∉ [CLoop; CArmed; CReading; CRequest; CAllowed]) ∧
  (∀ i, l_shuts l !! i = Some (HReturned RTimeout) → l_closed l = true ∧ l_cancelled l = true ∧
     ∀ j c, l_conns l !! j = Some c → (0 < c_reqs c)%nat ∨ c_pc c ∈ [CLoop; CArmed; CReading; CRequest; CAllowed] → c_shut c = true) ∧
  (∀ i, l_shuts l !! i = Some (HReturned RAlready) → l_closed l = true) ∧
  (length (List.filter (λ c, match c_pc c with CGone => false | _ => true end) (l_conns l)) <= l_max l)%nat.
Proof.
  intros Hr. pose proof (life_reachable_ok l Hr) as Hl.
  assert (Hlo : ∀ p, p ∈ [CLoop; CArmed; CReading; CRequest; CAllowed] ↔ looping p = true).
  { intros p. rewrite !elem_of_cons, elem_of_nil. destruct p; simpl; naive_solver. }
  split_and!.
  - intros i Hi. destruct (lo_shuts l Hl i _ Hi) as (H1 & H2 & _ & Hz & Hq). split_and!; auto. intros j c Hj. specialize (Hq j c Hj).
    rewrite Hlo. unfold live in Hq. split; [destruct (c_reqs c); [done|]; exfalso; apply Hq; right; lia|tauto].
  - intros i Hi. destruct (lo_shuts l Hl i _ Hi) as (H1 & H2 & _ & Hq). split_and!; auto. intros j c Hj Hc. apply (Hq j c Hj).
    rewrite Hlo in Hc. unfold live. tauto.
  - intros i Hi. by destruct (lo_shuts l Hl i _ Hi) as (H1 & _); apply H1.
  - pose proof (lo_sem l Hl) as Hs. rewrite slots_count in Hs. pose proof (lo_max l Hl). lia.
Qed.

(** ** Draining ends *)
Definition any_conn (l l' : life) : Prop := ∃ i, conn_step i l l'.
(** Steps a connection has left once the server is closed. *)
Definition pc_work (p : conn_pc) : Z :=
  match p with CGone => 0 | CLeft => 1 | CWait => 2 | CStored | CLoop | CRequest => 3 | CStart | CReading => 4 | CArmed => 5 | CAllowed => 6 end.
Definition conn_work (c : lconn) : Z := pc_work (c_pc c) + 2 * Z.of_nat (c_reqs c).
Definition drain_work (l : life) : Z := sumZ (map conn_work (l_conns l)) + Z.of_nat (l_debt l).

Lemma conn_work_nonneg c : 0 <= conn_work c.
Proof. unfold conn_work, pc_work. destruct (c_pc c); lia. Qed.
Lemma conn_step_work i l l' : conn_step i l l' → l_closed l = true → drain_work l' < drain_work l ∧ l_closed l' = true.
Proof.
  intros Hs Hcl. unfold drain_work.
  destruct Hs as [l c Hc Hp|l c Hc Hp|l c Hc Hp|l c Hc Hp|l c Hc Hp|l c Hc Hp|l c Hc Hp|l c Hc Hp|l c Hc Hp|l c Hc Hp|l c Hc Hp|l c Hc Hp Hr|l c Hc Hp|l c n Hc Hr|l d Hd];
    simpl; (split; [|done]).
  1-13: apply Z.add_lt_mono_r; rewrite (sum_map_insert conn_work _ _ _ _ Hc); unfold conn_work, first_check, loop_check, request_check, drain, pc_work;
    rewrite ?Hcl, ?orb_true_r; destruct c as [pc [] rq sh tc pa ha]; simpl in *; subst pc; simpl; lia.
  - rewrite (sum_map_insert conn_work _ _ _ _ Hc). unfold conn_work. rewrite Hr. simpl. lia.
  - lia.
Qed.
Lemma conn_can_step l i c : life_ok l → l_conns l !! i = Some c → c_pc c ≠ CGone → ∃ l', any_conn l l'.
Proof.
  intros Hl Hc Hp. pose proof (lo_conns l Hl i c Hc) as Hf. destruct (c_reqs c) as [|n] eqn:Hr; [|eexists _, i; by eapply cs_req_done].
  destruct (c_pc c) eqn:E; [..|done]; eexists _, i.
  - by eapply cs_store.
  - by eapply cs_first.
  - by eapply cs_loop.
  - by eapply cs_arm.
  - by eapply cs_read_err.
  - by eapply cs_request.
  - by eapply cs_limited.
  - by eapply cs_leave.
  - by eapply cs_gone.
Qed.
Lemma can_step_or_zero l : life_ok l → l_wg l = 0 ∨ ∃ l', any_conn l l'.
Proof.
  intros Hl. destruct (l_debt l) as [|d] eqn:Hd; [|right; eexists _, 0%nat; by eapply cs_req_left].
  destruct (decide (Forall (λ c, c_pc c = CGone) (l_conns l))) as [Hg|Hg]; [left|right].
  - rewrite (lo_wg l Hl), Hd. pose proof (lo_conns l Hl) as Hf. clear -Hg Hf. induction Hg as [|c cs Hc _ IH]; [done|]. simpl.
    specialize (IH (λ i, Hf (S i))). assert (load c = 0); [|lia]. unfold load. rewrite Hc.
    destruct (Hf 0%nat c eq_refl) as [[?|[?|Hr]] _]; [by rewrite Hc in *|congruence|by rewrite Hr].
  - apply not_Forall_Exists in Hg; [|apply _]. apply Exists_exists in Hg as (c & [i Hi]%list_elem_of_lookup & Hc).
    by eapply conn_can_step.
Qed.

(** C30: draining a TCP server waits for handlers and writes, and for nothing else.
    Once the server is closed, its connections and requests can take only so many
    steps, however reads and handlers end and whatever clients have still sent.  Once
    [Shutdown] has told the connections to drain, no TCP connection is left in a read
    that only its peer could end, also one that passed its checks before and set its
    deadline anew afterwards.  So if handlers return and writes end, somebody can go on
    until the wait group is at zero and [Shutdown] returns. *)
Theorem drain_ends l : life_reachable l → l_closed l = true →
  (∀ n l', nsteps any_conn n l l' → Z.of_nat n <= drain_work l) ∧
  (∀ i p j c, l_shuts l !! i = Some p → told_all p = true → l_conns l !! j = Some c → c_tcp c = true → waits_for_peer c = false) ∧
  (∀ i p, l_shuts l !! i = Some p → told_all p = true → Forall (λ c, c_tcp c = true) (l_conns l) → l_wg l ≠ 0 →
     ∃ j l', conn_step j l l' ∧ ∀ c, l_conns l !! j = Some c → waits_for_peer c = false).
Proof.
  intros Hr Hcl. pose proof (life_reachable_ok l Hr) as Hl.
  assert (Hw : ∀ i p j c, l_shuts l !! i = Some p → told_all p = true → l_conns l !! j = Some c → c_tcp c = true → waits_for_peer c = false).
  { intros i p j c Hi Hm Hj Ht. destruct (lo_shuts l Hl i p Hi) as (_ & _ & HM & _). destruct (lo_conns l Hl j c Hj) as [_ Hh].
    specialize (HM Hm j c Hj). unfold waits_for_peer. destruct (c_pc c) eqn:E; try done. specialize (HM eq_refl).
    rewrite (Hh HM Ht). by rewrite orb_true_r. }
  split_and!; [|exact Hw|].
  - intros n l' Hs. assert (H : Z.of_nat n + drain_work l' <= drain_work l).
    { clear Hr Hl Hw. induction Hs as [l|n l l1 l' [i H1] _ IH]; [simpl; lia|]. destruct (conn_step_work i l l1 H1 Hcl) as [Hw Hcl1]. specialize (IH Hcl1). lia. }
    assert (0 <= drain_work l'); [|lia]. unfold drain_work. pose proof (sum_nonneg conn_work (l_conns l') conn_work_nonneg). lia.
  - intros i p Hi Hm Ht Hz. destruct (can_step_or_zero l Hl) as [?|[l' [j Hst]]]; [done|]. exists j, l'. split; [done|].
    intros c Hj. eapply Hw; [done|done|done|]. by eapply Forall_lookup_1 in Ht.
Qed.

(** ** Runs *)
Ltac run_start rule := eapply rtc_l; [left; eapply rule; vm_compute; reflexivity|].
Ltac run_conn i rule := eapply rtc_l; [right; left; exists i; eapply rule; vm_compute; reflexivity|].
Ltac run_shut i rule := eapply rtc_l; [right; right; exists i; eapply rule; vm_compute; reflexivity|].
(** A connection has a request under way and is about to read when [Shutdown] is
    called. *)
Definition closing (tcp : bool) : life :=
  mkLife true LOpen SListening [HSwapped; HNew] 2 0 1 4 false [mkLConn CArmed false 1 false tcp false false].
Lemma closing_reached tcp : rtc life_step (new_life 4 2) (closing tcp).
Proof.
  run_start st_check. run_start st_listen. run_start st_accept. eapply rtc_l; [left; apply (st_serve _ tcp); vm_compute; reflexivity|].
  run_conn 0%nat cs_store. run_conn 0%nat cs_first. run_conn 0%nat cs_loop. run_conn 0%nat cs_arm. run_conn 0%nat cs_read_request.
  run_conn 0%nat cs_request. run_conn 0%nat cs_handle. run_conn 0%nat cs_loop. run_shut 0%nat sh_swap. apply rtc_refl.
Qed.
(** It reads, its deadline set after [Shutdown] has set it to the present. *)
Definition draining (tcp : bool) : life :=
  mkLife true LClosed SListening [HWait; HNew] 2 0 1 4 false [mkLConn CReading true 1 false tcp false tcp].
Lemma closing_draining tcp : rtc life_step (closing tcp) (draining tcp).
Proof. run_shut 0%nat sh_listener. run_shut 0%nat sh_drain. run_shut 0%nat sh_drained. run_conn 0%nat cs_arm. apply rtc_refl. Qed.
Lemma draining_reachable tcp : life_reachable (draining tcp).
Proof. exists 4%nat, 2%nat. etrans; [apply closing_reached|apply closing_draining]. Qed.
Definition drained : life :=
  mkLife true LClosed SListening [HReturned RDrained; HNew] 0 0 1 4 true [mkLConn CLeft true 0 false true false true].
Lemma draining_drained : rtc life_step (draining true) drained.
Proof.
  run_conn 0%nat cs_read_err. run_conn 0%nat cs_req_done. run_conn 0%nat cs_leave. run_conn 0%nat cs_req_left.
  run_shut 0%nat sh_done. run_shut 0%nat sh_return. apply rtc_refl.
Qed.
Lemma shutdown_promises_witness : life_reachable drained ∧ l_debt drained = 0%nat ∧
  ∀ j c, l_conns drained !! j = Some c → c_reqs c = 0%nat ∧ c_pc c ∉ [CLoop; CArmed; CReading; CRequest; CAllowed].
Proof.
  assert (Hr : life_reachable drained) by (exists 4%nat, 2%nat; etrans; [apply closing_reached|etrans; [apply closing_draining|apply draining_drained]]).
  split; [exact Hr|]. destruct (shutdown_promises drained Hr) as (H & _). destruct (H 0%nat eq_refl) as (_ & _ & Hd & Hc).
  split; [exact Hd|exact Hc].
Defined.
Lemma drain_ends_witness : life_reachable (draining true) ∧ (∀ n l', nsteps any_conn n (draining true) l' → Z.of_nat n <= 6) ∧
  ∃ j l', conn_step j (draining true) l'.
Proof.
  split; [apply draining_reachable|]. destruct (drain_ends (draining true) (draining_reachable true) eq_refl) as (H & _ & Hp). split; [exact H|].
  destruct (Hp 0%nat HWait eq_refl eq_refl) as (j & l' & Hs & _); [by repeat constructor|done|]. by exists j, l'.
Defined.

(** A connection that is not TCP has only its deadline moved, and sets it anew: it
    stays in its read, which no step of [Shutdown] ends before the timeout. *)
Example other_connection_keeps_reading : life_reachable (draining false) ∧
  ∃ c, l_conns (draining false) !! 0%nat = Some c ∧ waits_for_peer c = true.
Proof. split; [apply draining_reachable|]. by eexists. Qed.
(** A second call returns nil while the request is running. *)
Example second_shutdown_returns : ∃ l c, life_reachable l ∧ l_shuts l = [HWait; HReturned RAlready] ∧ l_conns l !! 0%nat = Some c ∧ c_reqs c = 1%nat.
Proof.
  eexists _, _. split_and!.
  - destruct (draining_reachable true) as (m & n & H). exists m, n. eapply rtc_r; [exact H|]. right. right. exists 1%nat. by eapply sh_already.
  - done.
  - done.
  - done.
Qed.

(** [Shutdown] between the check of [Start] and its listener: it returns nil, and the
    listener that is opened afterwards is never closed. *)
Definition late_start : life := mkLife true LOpen SListening [HReturned RDrained] 0 0 0 4 true [].
Lemma start_outlives_shutdown : rtc life_step (new_life 4 1) late_start ∧
  ∀ l, rtc life_step late_start l → l_listener l = LOpen ∧ l_shuts l = [HReturned RDrained].
Proof.
  split.
  - run_start st_check. run_shut 0%nat sh_swap. run_shut 0%nat sh_listener. run_shut 0%nat sh_drained. run_shut 0%nat sh_done.
    run_shut 0%nat sh_return. run_start st_listen. apply rtc_refl.
  - intros l Hr. enough (H : l_listener l = LOpen ∧ l_shuts l = [HReturned RDrained] ∧ l_start l ≠ SNot ∧ l_start l ≠ SChecked) by tauto.
    eapply (rtc_invariant _ (λ l, l_listener l = LOpen ∧ l_shuts l = [HReturned RDrained] ∧ l_start l ≠ SNot ∧ l_start l ≠ SChecked)); [|exact Hr|].
    + intros l1 l2 (Ho & Hs & Hn & Hn') Hst.
      destruct Hst as [Hst|[[i Hst]|[i Hst]]]; [destruct Hst|destruct Hst|destruct Hst]; simpl;
        try (rewrite Hs in *; match goal with H : [_] !! ?i = Some _ |- _ => by destruct i as [|[|?]]; simplify_eq/= end);
        try (split_and!; congruence).
      * destruct (l_closed l0); simpl; split_and!; congruence.
      * unfold accept_conn. case_match; simpl; split_and!; congruence.
    + done.
Qed.
