(* ===== verification/NetOptions.v ===== *)
(** * Options of the transport's client and server

    Models the options of [src/micro/net/options.go] that set single fields, the
    server's options and [NewServer] of [server.go], and of [client.go] dialling and
    the statistics.  The options with logic of the client are in [NetClient].
    Loggers, metrics, TLS settings, limiters and resolvers are carried as opaque
    values. *)

From S2P Require Import Prelude Frame NetErrors Stream StreamPool Endpoint Balancer NetClient NetServer.
Local Open Scope Z_scope.

(** ** Client options *)
Section client_options.
Context {B : Type}.
Implicit Types o : clientOptions B.

(** All durations at once. *)
Definition with_durations o (dial read write request keep idle life : Z) : clientOptions B :=
  mkOpts dial read write request keep idle life (o_maxHeaderSize o) (o_maxBodySize o) (o_maxIdleConns o) (o_maxOpenConns o)
    (o_retryAttempts o) (o_retryBackoff o) (o_heartbeatInterval o) (o_heartbeatTimeout o) (o_extraEndpoints o) (o_balancer o)
    (o_dnsResolve o) (o_healthThreshold o) (o_healthCooldown o).
Definition WithDialTimeout (d : Z) o := with_durations o d (o_readTimeout o) (o_writeTimeout o) (o_requestTimeout o) (o_keepAlive o) (o_idleTimeout o) (o_maxConnLifetime o).
Definition WithReadTimeout (d : Z) o := with_durations o (o_dialTimeout o) d (o_writeTimeout o) (o_requestTimeout o) (o_keepAlive o) (o_idleTimeout o) (o_maxConnLifetime o).
Definition WithWriteTimeout (d : Z) o := with_durations o (o_dialTimeout o) (o_readTimeout o) d (o_requestTimeout o) (o_keepAlive o) (o_idleTimeout o) (o_maxConnLifetime o).
Definition WithRequestTimeout (d : Z) o := with_durations o (o_dialTimeout o) (o_readTimeout o) (o_writeTimeout o) d (o_keepAlive o) (o_idleTimeout o) (o_maxConnLifetime o).
Definition WithKeepAlive (d : Z) o := with_durations o (o_dialTimeout o) (o_readTimeout o) (o_writeTimeout o) (o_requestTimeout o) d (o_idleTimeout o) (o_maxConnLifetime o).
Definition WithIdleTimeout (d : Z) o := with_durations o (o_dialTimeout o) (o_readTimeout o) (o_writeTimeout o) (o_requestTimeout o) (o_keepAlive o) d (o_maxConnLifetime o).
Definition WithMaxConnLifetime (d : Z) o := with_durations o (o_dialTimeout o) (o_readTimeout o) (o_writeTimeout o) (o_requestTimeout o) (o_keepAlive o) (o_idleTimeout o) d.
Definition with_heartbeat o (interval timeout : Z) (dns : bool) : clientOptions B :=
  mkOpts (o_dialTimeout o) (o_readTimeout o) (o_writeTimeout o) (o_requestTimeout o) (o_keepAlive o)
    (o_idleTimeout o) (o_maxConnLifetime o) (o_maxHeaderSize o) (o_maxBodySize o) (o_maxIdleConns o) (o_maxOpenConns o)
    (o_retryAttempts o) (o_retryBackoff o) interval timeout (o_extraEndpoints o) (o_balancer o)
    dns (o_healthThreshold o) (o_healthCooldown o).
Definition WithHeartbeat (interval timeout : Z) o := with_heartbeat o interval timeout (o_dnsResolve o).
Definition WithDNSResolve (enable : bool) o := with_heartbeat o (o_heartbeatInterval o) (o_heartbeatTimeout o) enable.

(** Everything that can be passed to [NewClient], applied in order. *)
Inductive ClientOption :=
| ODial (d : Z) | ORead (d : Z) | OWrite (d : Z) | ORequest (d : Z) | OKeepAlive (d : Z) | OIdle (d : Z) | OLifetime (d : Z)
| OMaxMessage (h b : Z) | OMaxConns (n : Z) | OMaxIdle (n : Z) | OMaxOpen (n : Z) | ORetry (n d : Z) | OHeartbeat (i t : Z)
| OEndpoints (eps : list Endpoint) | OBalancer (b : option B) | ODNS (b : bool) | OHealth (n d : Z).
Definition apply_option o (x : ClientOption) : clientOptions B :=
  match x with
  | ODial d => WithDialTimeout d o | ORead d => WithReadTimeout d o | OWrite d => WithWriteTimeout d o
  | ORequest d => WithRequestTimeout d o | OKeepAlive d => WithKeepAlive d o | OIdle d => WithIdleTimeout d o
  | OLifetime d => WithMaxConnLifetime d o | OMaxMessage h b => WithMaxMessageSize h b o
  | OMaxConns n => WithMaxConns n o | OMaxIdle n => WithMaxIdleConns n o | OMaxOpen n => WithMaxOpenConns n o
  | ORetry n d => WithRetry n d o | OHeartbeat i t => WithHeartbeat i t o | OEndpoints eps => WithEndpointList eps o
  | OBalancer b => WithBalancer b o | ODNS b => WithDNSResolve b o | OHealth n d => WithEndpointHealth n d o
  end.

(** Whatever the options, message limits and the breaker's settings stay positive. *)
Lemma options_positive (b : B) xs : let o := foldl apply_option (defaultClientOptions b) xs in
  0 < maxHeader (limits o) ∧ 0 < maxBody (limits o) ∧ 0 < o_healthThreshold o ∧ 0 < o_healthCooldown o.
Proof.
  cbn zeta. assert (∀ o, 0 < o_maxHeaderSize o → 0 < o_maxBodySize o → 0 < o_healthThreshold o → 0 < o_healthCooldown o →
    let o' := foldl apply_option o xs in
    0 < o_maxHeaderSize o' ∧ 0 < o_maxBodySize o' ∧ 0 < o_healthThreshold o' ∧ 0 < o_healthCooldown o') as H; [|by apply H].
  induction xs as [|x xs IH]; intros o H1 H2 H3 H4; [done|]. cbn [foldl]. apply IH; destruct x as [| | | | | | |h' b'| | | | | | |[]| |n' d']; try done;
    cbn; zb; lia.
Qed.
End client_options.

(** ** Server options *)
Section server_options.
Context {Logger Metrics TLS Limiter : Type}.
Context (defaultLogger : Logger) (defaultMetrics : Metrics) (defaultRateLimiter : Limiter).

Record serverOptions := mkSO {
  so_readTimeout : Z; so_writeTimeout : Z; so_idleTimeout : Z; so_maxConns : Z; so_maxHeaderSize : Z; so_maxBodySize : Z;
  so_handler : Handler; so_middlewares : list (Handler → Handler); so_logger : Logger; so_metrics : Metrics;
  so_tlsConfig : option TLS; so_limiter : Limiter; so_handlerTimeout : Z }.
Definition ServerOption := serverOptions → serverOptions.

Definition defaultServerOptions : serverOptions :=
  mkSO (5 * sec) (5 * sec) (120 * sec) 1000 defaultMaxHeaderSize defaultMaxBodySize EchoHandler [] defaultLogger defaultMetrics
    None defaultRateLimiter 0.
Definition server_limits (o : serverOptions) : frameLimits := mkLimits (so_maxHeaderSize o) (so_maxBodySize o).

Definition so_times (o : serverOptions) (r w i h : Z) : serverOptions :=
  mkSO r w i (so_maxConns o) (so_maxHeaderSize o) (so_maxBodySize o) (so_handler o) (so_middlewares o) (so_logger o) (so_metrics o)
    (so_tlsConfig o) (so_limiter o) h.
Definition WithServerReadTimeout (d : Z) : ServerOption := λ o, so_times o d (so_writeTimeout o) (so_idleTimeout o) (so_handlerTimeout o).
Definition WithServerWriteTimeout (d : Z) : ServerOption := λ o, so_times o (so_readTimeout o) d (so_idleTimeout o) (so_handlerTimeout o).
Definition WithServerIdleTimeout (d : Z) : ServerOption := λ o, so_times o (so_readTimeout o) (so_writeTimeout o) d (so_handlerTimeout o).
Definition WithHandlerTimeout (d : Z) : ServerOption := λ o, so_times o (so_readTimeout o) (so_writeTimeout o) (so_idleTimeout o) d.
Definition so_sizes (o : serverOptions) (conns h b : Z) : serverOptions :=
  mkSO (so_readTimeout o) (so_writeTimeout o) (so_idleTimeout o) conns h b (so_handler o) (so_middlewares o) (so_logger o) (so_metrics o)
    (so_tlsConfig o) (so_limiter o) (so_handlerTimeout o).
Definition WithMaxConnections (n : Z) : ServerOption := λ o, so_sizes o n (so_maxHeaderSize o) (so_maxBodySize o).
Definition WithServerMaxMessageSize (h b : Z) : ServerOption := λ o,
  so_sizes o (so_maxConns o) (if 0 <? h then h else so_maxHeaderSize o) (if 0 <? b then b else so_maxBodySize o).
Definition so_code (o : serverOptions) (h : Handler) (ms : list (Handler → Handler)) : serverOptions :=
  mkSO (so_readTimeout o) (so_writeTimeout o) (so_idleTimeout o) (so_maxConns o) (so_maxHeaderSize o) (so_maxBodySize o) h ms
    (so_logger o) (so_metrics o) (so_tlsConfig o) (so_limiter o) (so_handlerTimeout o).
Definition WithHandler (h : Handler) : ServerOption := λ o, so_code o h (so_middlewares o).
Definition WithMiddleware (ms : list (Handler → Handler)) : ServerOption := λ o, so_code o (so_handler o) (so_middlewares o ++ ms).
Definition so_services (o : serverOptions) (l : Logger) (m : Metrics) (t : option TLS) (r : Limiter) : serverOptions :=
  mkSO (so_readTimeout o) (so_writeTimeout o) (so_idleTimeout o) (so_maxConns o) (so_maxHeaderSize o) (so_maxBodySize o)
    (so_handler o) (so_middlewares o) l m t r (so_handlerTimeout o).
Definition WithServerLogger (l : Logger) : ServerOption := λ o, so_services o l (so_metrics o) (so_tlsConfig o) (so_limiter o).
Definition WithServerMetrics (m : Metrics) : ServerOption := λ o, so_services o (so_logger o) m (so_tlsConfig o) (so_limiter o).
Definition WithServerTLSConfig (t : option TLS) : ServerOption := λ o, so_services o (so_logger o) (so_metrics o) t (so_limiter o).
Definition WithRateLimiter (l : Limiter) : ServerOption := λ o, so_services o (so_logger o) (so_metrics o) (so_tlsConfig o) l.

(** [NewServer]: a negative number of connections panics when the channel is made. *)
Definition NewServer (opts : list ServerOption) : option (serverOptions * Handler * server) :=
  let o := foldl (λ o f, f o) defaultServerOptions opts in
  if so_maxConns o <? 0 then None
  else Some (o, buildHandler (so_handler o) (so_middlewares o), newServer (Z.to_nat (so_maxConns o))).

(** Middlewares given in several options wrap the last handler given, the earliest
    outermost. *)
Lemma NewServer_handler h ms1 ms2 : ∃ o s, NewServer [WithMiddleware ms1; WithHandler h; WithMiddleware ms2]
  = Some (o, Chain (Chain h ms2) ms1, s).
Proof.
  unfold NewServer. cbn. do 2 eexists. do 2 f_equal. f_equal. unfold buildHandler, Chain. rewrite <- chain_app. by destruct (ms1 ++ ms2).
Qed.
(** No connections allowed is accepted as a setting, and then none is served. *)
Lemma NewServer_zero : ∃ o h s, NewServer [WithMaxConnections 0] = Some (o, h, s) ∧ accept s = None.
Proof. do 3 eexists. split; [reflexivity|]. done. Qed.
Lemma NewServer_negative n : n < 0 → NewServer [WithMaxConnections n] = None.
Proof. intros H. unfold NewServer. cbn. by rewrite (proj2 (Z.ltb_lt n 0) H). Qed.
End server_options.

(** ** The rest of the client *)
Definition WithBalancerPolicy (policy : string) (o : clientOptions any_balancer) : clientOptions any_balancer :=
  WithBalancer (Some (NewBalancer policy)) o.
Section client_services.
Context {Logger Metrics TLS Resolver : Type} (defaultLogger : Logger) (defaultMetrics : Metrics) (DNSResolver : Resolver).
(** The fields of the options that are not in [clientOptions]. *)
Record clientServices := mkCS { cs_logger : Logger; cs_metrics : Metrics; cs_tlsConfig : option TLS; cs_resolver : option Resolver }.
Definition defaultClientServices : clientServices := mkCS defaultLogger defaultMetrics None None.
Definition WithLogger (l : Logger) (o : clientServices) := mkCS l (cs_metrics o) (cs_tlsConfig o) (cs_resolver o).
Definition WithMetrics (m : Metrics) (o : clientServices) := mkCS (cs_logger o) m (cs_tlsConfig o) (cs_resolver o).
Definition WithTLSConfig (cfg : option TLS) (o : clientServices) := mkCS (cs_logger o) (cs_metrics o) cfg (cs_resolver o).
Definition WithResolver (r : option Resolver) (o : clientServices) := mkCS (cs_logger o) (cs_metrics o) (cs_tlsConfig o) r.
(** The resolver [buildEndpoints] uses. *)
Definition chosen_resolver (o : clientServices) : Resolver := default DNSResolver (cs_resolver o).

(** [dialAddr]; the metric counts connections that were opened. *)
Context {Conn : Type} (tls_Dial : TLS → Z → Z → string → string → err + Conn) (net_Dial : Z → Z → string → string → err + Conn).
Definition dialAddr {B} (o : clientOptions B) (s : clientServices) (network address : string) (opened : nat) : (err + Conn) * nat :=
  let r := match cs_tlsConfig s with
           | Some cfg => tls_Dial cfg (o_dialTimeout o) (o_keepAlive o) network address
           | None => net_Dial (o_dialTimeout o) (o_keepAlive o) network address
           end in
  (r, match r with inl _ => opened | inr _ => S opened end).
End client_services.

(** [Client.Stats]: the pools one after the other, each compacted; the sums wrap. *)
Definition zero_stats : PoolStats := mkStats 0 (mkCounters 0 0 0 0 0 0) 0.
Definition plus_stats (a b : PoolStats) : PoolStats :=
  mkStats (i64 (Open a + Open b))
    (mkCounters (i64 (dialCount (st_cnt a) + dialCount (st_cnt b))) (i64 (closedIdle (st_cnt a) + closedIdle (st_cnt b)))
       (i64 (closedLife (st_cnt a) + closedLife (st_cnt b))) (i64 (closedBad (st_cnt a) + closedBad (st_cnt b)))
       (i64 (heartbeatOK (st_cnt a) + heartbeatOK (st_cnt b))) (i64 (heartbeatErr (st_cnt a) + heartbeatErr (st_cnt b))))
    (i32 (TotalInflight a + TotalInflight b)).
Fixpoint stats_loop (st : store) (nodes : list endpointNode) (acc : PoolStats) : list endpointNode * PoolStats :=
  match nodes with
  | [] => ([], acc)
  | n :: nodes' =>
      let '(p, s) := Stats (pool n) st in
      let '(ns, acc) := stats_loop st nodes' (plus_stats acc s) in
      (mkNode (nid n) (ep n) p (fails n) (downUntil n) (reserved n) :: ns, acc)
  end.
Definition Client_Stats (st : store) (nodes : list endpointNode) : list endpointNode * PoolStats := stats_loop st nodes zero_stats.

(** Every open stream is counted once, and asking drops exactly the dead ones. *)
Lemma stats_loop_spec st nodes : ∀ acc,
  let live := sumZ (map (λ n, Z.of_nat (length (List.filter (alive st) (streams (pool n))))) nodes) in
  (0 <= Open acc)%Z → (Open acc + live < 2 ^ 63)%Z →
  Open (stats_loop st nodes acc).2 = Open acc + live ∧
  map (λ n, streams (pool n)) (stats_loop st nodes acc).1 = map (λ n, List.filter (alive st) (streams (pool n))) nodes.
Proof.
  induction nodes as [|n nodes IH]; intros acc live H0 H1; [split; [unfold live; simpl; lia|done]|].
  assert (Hn : 0 <= sumZ (map (λ n, Z.of_nat (length (List.filter (alive st) (streams (pool n))))) nodes)).
  { clear. induction nodes as [|m nodes IH]; simpl; lia. }
  unfold live in *. cbn [map sumZ stats_loop] in *. unfold Stats. cbn [fst snd].
  set (k := length (List.filter (alive st) (streams (pool n)))) in *.
  pose (s := mkStats (Z.of_nat k) (cnt (compactLocked (pool n) st))
               (foldl (λ acc s, i32 (acc + load st s)) 0 (streams (compactLocked (pool n) st)))).
  change (mkStats (Z.of_nat (length (streams (compactLocked (pool n) st)))) _ _) with s.
  assert (Ho : Open (plus_stats acc s) = Open acc + Z.of_nat k) by (cbn [plus_stats Open s]; apply wraps_small; simpl; lia).
  destruct (IH (plus_stats acc s)) as [I1 I2]; [lia|lia|].
  destruct (stats_loop st nodes (plus_stats acc s)) as [ns acc'] eqn:E. cbn [fst snd map] in *. split; [lia|]. by rewrite I2.
Qed.
