(* ===== verification/ConnPool.v ===== *)
(** * The connection pool of micro/pool

    Models [src/micro/pool/pool.go].  [PoolConn] objects are shared and recycled
    through a [sync.Pool], so they live in a store and are referred to by index.
    Every operation is cut where it releases the mutex: around a dial and around a
    ping; objects a goroutine holds in between are in [limbo], and dials under way
    are counted. *)

From S2P Require Import Prelude.
Local Open Scope Z_scope.

Record PoolConn := mkPC { pc_conn : option nat; createTime : Z; lastActiveTime : Z; returned : bool }.

Record Pool := mkPool {
  maxIdleCnt : nat; maxConnCap : Z; maxIdleTime : Z; maxConnLifetime : Z; has_ping : bool;
  objs : gmap nat PoolConn;
  idle : list nat;            (** top of the stack first *)
  active : gset nat;
  limbo : gset nat;
  dials : nat;
  free : list nat;            (** the [sync.Pool] *)
  connCnt : Z;
  closed : bool;
  maxIdleClosed : Z; maxLifetimeClosed : Z; waitCount : Z; waitDurationNs : Z }.

Inductive pool_err := ErrPoolClosed | ErrCapacity | ErrNoFactory | ErrFactory | ErrCtx.

(** ** Field updates *)
Definition set_objs (p : Pool) o := mkPool (maxIdleCnt p) (maxConnCap p) (maxIdleTime p) (maxConnLifetime p) (has_ping p)
  o (idle p) (active p) (limbo p) (dials p) (free p) (connCnt p) (closed p) (maxIdleClosed p) (maxLifetimeClosed p) (waitCount p) (waitDurationNs p).
Definition set_idle (p : Pool) l := mkPool (maxIdleCnt p) (maxConnCap p) (maxIdleTime p) (maxConnLifetime p) (has_ping p)
  (objs p) l (active p) (limbo p) (dials p) (free p) (connCnt p) (closed p) (maxIdleClosed p) (maxLifetimeClosed p) (waitCount p) (waitDurationNs p).
Definition set_active (p : Pool) a := mkPool (maxIdleCnt p) (maxConnCap p) (maxIdleTime p) (maxConnLifetime p) (has_ping p)
  (objs p) (idle p) a (limbo p) (dials p) (free p) (connCnt p) (closed p) (maxIdleClosed p) (maxLifetimeClosed p) (waitCount p) (waitDurationNs p).
Definition set_limbo (p : Pool) l := mkPool (maxIdleCnt p) (maxConnCap p) (maxIdleTime p) (maxConnLifetime p) (has_ping p)
  (objs p) (idle p) (active p) l (dials p) (free p) (connCnt p) (closed p) (maxIdleClosed p) (maxLifetimeClosed p) (waitCount p) (waitDurationNs p).
Definition set_dials (p : Pool) (n : nat) (cnt : Z) := mkPool (maxIdleCnt p) (maxConnCap p) (maxIdleTime p) (maxConnLifetime p) (has_ping p)
  (objs p) (idle p) (active p) (limbo p) n (free p) cnt (closed p) (maxIdleClosed p) (maxLifetimeClosed p) (waitCount p) (waitDurationNs p).
Definition set_free (p : Pool) f (cnt : Z) := mkPool (maxIdleCnt p) (maxConnCap p) (maxIdleTime p) (maxConnLifetime p) (has_ping p)
  (objs p) (idle p) (active p) (limbo p) (dials p) f cnt (closed p) (maxIdleClosed p) (maxLifetimeClosed p) (waitCount p) (waitDurationNs p).
Definition set_closed (p : Pool) := mkPool (maxIdleCnt p) (maxConnCap p) (maxIdleTime p) (maxConnLifetime p) (has_ping p)
  (objs p) (idle p) (active p) (limbo p) (dials p) (free p) (connCnt p) true (maxIdleClosed p) (maxLifetimeClosed p) (waitCount p) (waitDurationNs p).
Definition add_stats (p : Pool) (i l : Z) := mkPool (maxIdleCnt p) (maxConnCap p) (maxIdleTime p) (maxConnLifetime p) (has_ping p)
  (objs p) (idle p) (active p) (limbo p) (dials p) (free p) (connCnt p) (closed p)
  (maxIdleClosed p + i) (maxLifetimeClosed p + l) (waitCount p) (waitDurationNs p).
Definition add_wait (p : Pool) (n d : Z) := mkPool (maxIdleCnt p) (maxConnCap p) (maxIdleTime p) (maxConnLifetime p) (has_ping p)
  (objs p) (idle p) (active p) (limbo p) (dials p) (free p) (connCnt p) (closed p)
  (maxIdleClosed p) (maxLifetimeClosed p) (waitCount p + n) (waitDurationNs p + d).

Definition upd_obj (p : Pool) (pc : nat) (f : PoolConn → PoolConn) : Pool := set_objs p (alter f pc (objs p)).
Definition set_returned (b : bool) (o : PoolConn) : PoolConn := mkPC (pc_conn o) (createTime o) (lastActiveTime o) b.
Definition set_lastActive (t : Z) (o : PoolConn) : PoolConn := mkPC (pc_conn o) (createTime o) t (returned o).
Definition drop_conn (o : PoolConn) : PoolConn := mkPC None (createTime o) (lastActiveTime o) (returned o).

(** ** Creating and retiring connections *)

(** [wrapConn]: an object from the [sync.Pool] or a new one; which, is the
    runtime's choice [ptr]. *)
Definition may_wrap (p : Pool) (ptr : nat) : Prop := ptr ∈ free p ∨ objs p !! ptr = None.
Definition wrapConn (p : Pool) (ptr conn : nat) (now : Z) : Pool :=
  let p := set_free p (List.filter (λ x, negb (x =? ptr)%nat) (free p)) (connCnt p) in
  set_objs p (<[ptr := mkPC (Some conn) now now false]> (objs p)).

Definition closeConnLocked (p : Pool) (pc : nat) : Pool :=
  let p := upd_obj p pc drop_conn in
  set_free p (pc :: free p) (connCnt p - 1).

(** The initial connections: the [i]-th call of the factory is wrapped in a fresh
    object.  On a failure the connections opened so far are closed. *)
Fixpoint open_initial (factory : nat → option nat) (todo i : nat) (p : Pool) (now : Z) : list nat + Pool :=
  match todo with
  | O => inr p
  | S todo' =>
      match factory i with
      | None => inl (omap (λ pc, objs p !! pc ≫= pc_conn) (rev (idle p)))
      | Some conn =>
          let p := wrapConn p i conn now in
          open_initial factory todo' (S i) (set_idle p (i :: idle p)) now
      end
  end.

(** An error comes with the connections closed on the way out. *)
Definition NewPool (init maxIdle cap : Z) (idleTime : Z) (factory : option (nat → option nat)) (ping : bool)
    (life : list Z) (now : Z) : (pool_err * list nat) + Pool :=
  if (maxIdle <? init) || (cap <? maxIdle) || (init <? 0) then inl (ErrCapacity, [])
  else match factory with
       | None => inl (ErrNoFactory, [])
       | Some factory =>
           let mcl := match life with [] => 0 | l :: _ => l end in
           let p := mkPool (Z.to_nat maxIdle) cap idleTime mcl ping ∅ [] ∅ ∅ 0 [] 0 false 0 0 0 0 in
           match open_initial factory (Z.to_nat init) 0 p now with
           | inl closed => inl (ErrFactory, closed)
           | inr p => inr (set_free p (free p) init)
           end
       end.

(** ** Getting *)
Definition idle_expired (p : Pool) (o : PoolConn) (now : Z) : bool := lastActiveTime o + maxIdleTime p <? now.
Definition too_old (p : Pool) (o : PoolConn) (now : Z) : bool :=
  (0 <? maxConnLifetime p) && (createTime o + maxConnLifetime p <? now).

Inductive idle_out := NoIdle | GotIdle (pc : nat) | PingIdle (pc : nat).

Fixpoint getIdle_loop (p : Pool) (l : list nat) (now : Z) : Pool * idle_out :=
  match l with
  | [] => (set_idle p [], NoIdle)
  | pc :: l' =>
      match objs p !! pc with
      | None => (p, NoIdle)
      | Some o =>
          if idle_expired p o now then getIdle_loop (add_stats (closeConnLocked p pc) 1 0) l' now
          else if too_old p o now then getIdle_loop (add_stats (closeConnLocked p pc) 0 1) l' now
          else if has_ping p then (set_limbo (set_idle p l') ({[pc]} ∪ limbo p), PingIdle pc)
          else (upd_obj (set_idle p l') pc (set_returned false), GotIdle pc)
      end
  end.
Definition getIdleConnLocked (p : Pool) (now : Z) : Pool * idle_out := getIdle_loop p (idle p) now.

Inductive get_out := GErr (e : pool_err) | GConn (pc : nat) | GPing (pc : nat) | GDial | GWait.

Definition take_conn (p : Pool) (pc : nat) : Pool := set_active p ({[pc]} ∪ active p).

(** One iteration of the loop of [Get] under the lock. *)
Definition Get_iter (p : Pool) (now : Z) : Pool * get_out :=
  match getIdleConnLocked p now with
  | (p, GotIdle pc) => (take_conn p pc, GConn pc)
  | (p, PingIdle pc) => (p, GPing pc)
  | (p, NoIdle) =>
      if connCnt p <? maxConnCap p then (set_dials p (S (dials p)) (connCnt p + 1), GDial)
      else (add_wait p 1 0, GWait)
  end.
Definition Get_start (p : Pool) (now : Z) : Pool * get_out :=
  if closed p then (p, GErr ErrPoolClosed) else Get_iter p now.

(** [waitWithContext] and the lines around it: the context may be over before the
    wait, or when the goroutine is woken; [None] is the next round of the loop. *)
Definition Get_waited (p : Pool) (ctx_before ctx_after : bool) (elapsed : Z) : Pool * option pool_err :=
  let p := add_wait p 0 elapsed in
  if ctx_before then (p, Some ErrCtx)
  else if closed p then (p, Some ErrPoolClosed)
  else if ctx_after then (p, Some ErrCtx)
  else (p, None).

(** After the ping of an idle connection: [None] is the next round of the loop. *)
Definition Get_pinged (p : Pool) (pc : nat) (ping_ok : bool) : Pool * option (pool_err + nat) :=
  let p := set_limbo p (limbo p ∖ {[pc]}) in
  if closed p then (closeConnLocked p pc, Some (inl ErrPoolClosed))
  else if negb ping_ok then (closeConnLocked p pc, None)
  else (take_conn (upd_obj p pc (set_returned false)) pc, Some (inr pc)).

(** After the dial. *)
Definition Get_dialed (p : Pool) (r : option nat) (ptr : nat) (now : Z) : Pool * (pool_err + nat) :=
  match r with
  | None => (set_dials p (dials p - 1) (connCnt p - 1), inl ErrFactory)
  | Some conn =>
      let p := wrapConn (set_dials p (dials p - 1) (connCnt p)) ptr conn now in
      if closed p then (closeConnLocked p ptr, inl ErrPoolClosed)
      else (take_conn p ptr, inr ptr)
  end.

(** ** Returning *)
Definition is_returned (p : Pool) (pc : nat) : bool := match objs p !! pc with Some o => returned o | None => true end.

Definition finish_put (p : Pool) (pc : nat) (now : Z) : Pool :=
  let p := upd_obj p pc (set_lastActive now) in
  if (length (idle p) <? maxIdleCnt p)%nat then set_idle p (pc :: idle p) else closeConnLocked p pc.

(** [putConn] either returns or goes on to ping. *)
Inductive put_out := PutPing | PutRet (e : option pool_err).
Definition putConn (p : Pool) (pc : nat) (now : Z) : Pool * put_out :=
  if is_returned p pc then (p, PutRet None)
  else
    let p := upd_obj p pc (set_returned true) in
    if closed p then (closeConnLocked p pc, PutRet (Some ErrPoolClosed))
    else
      let p := set_active p (active p ∖ {[pc]}) in
      match objs p !! pc with
      | None => (p, PutRet None)
      | Some o =>
          if (0 <? maxConnLifetime p) && (maxConnLifetime p <? now - createTime o)
          then (add_stats (closeConnLocked p pc) 0 1, PutRet None)
          else if has_ping p then (set_limbo p ({[pc]} ∪ limbo p), PutPing)
          else (finish_put p pc now, PutRet None)
      end.
(** [putConn] after its ping; the closed flag is not checked again. *)
Definition putConn_pinged (p : Pool) (pc : nat) (ping_ok : bool) (now : Z) : Pool :=
  let p := set_limbo p (limbo p ∖ {[pc]}) in
  if ping_ok then finish_put p pc now else closeConnLocked p pc.

(** [Put] of a connection that does not come from the pool. *)
Definition Put_raw (p : Pool) (ptr conn : nat) (now : Z) : Pool * option pool_err :=
  if closed p then (p, Some ErrPoolClosed)
  else
    let p := wrapConn (set_free p (free p) (connCnt p + 1)) ptr conn now in
    (if (length (idle p) <? maxIdleCnt p)%nat then set_idle p (ptr :: idle p) else closeConnLocked p ptr, None).

Definition markUnhealthy (p : Pool) (pc : nat) : Pool :=
  if is_returned p pc then p
  else closeConnLocked (set_active (upd_obj p pc (set_returned true)) (active p ∖ {[pc]})) pc.

(** ** Cleaning up and releasing *)
Definition stale (p : Pool) (now : Z) (pc : nat) : bool :=
  match objs p !! pc with Some o => idle_expired p o now || too_old p o now | None => false end.
(** One tick of [backgroundCleanup]: the scan under the lock, with the counts of
    connections that idled too long and of those that are too old, the closing of
    what it found, the statistics. *)
Definition count_if (f : PoolConn → bool) (p : Pool) (l : list nat) : Z :=
  Z.of_nat (length (List.filter (λ pc, match objs p !! pc with Some o => f o | None => false end) l)).
Definition cleanup_scan (p : Pool) (now : Z) : Pool * (list nat * Z * Z) :=
  if closed p then (p, ([], 0, 0))
  else
    let gone := List.filter (stale p now) (idle p) in
    (set_limbo (set_idle p (List.filter (λ pc, negb (stale p now pc)) (idle p))) (list_to_set gone ∪ limbo p),
     (gone, count_if (λ o, idle_expired p o now) p gone, count_if (λ o, negb (idle_expired p o now)) p gone)).
Definition cleanup_close (p : Pool) (pc : nat) : Pool := closeConnLocked (set_limbo p (limbo p ∖ {[pc]})) pc.

(** [Release]: the flag, by the first caller only, and after the background
    goroutine has stopped the connections. *)
Definition Release_flag (p : Pool) : Pool * bool := if closed p then (p, false) else (set_closed p, true).
Definition Release_close (p : Pool) : Pool :=
  let p := foldl closeConnLocked p (idle p) in
  let p := set_idle p [] in
  let p := foldl closeConnLocked p (elements (active p)) in
  let p := set_active p ∅ in
  set_free p (free p) 0.

Record Stats := mkStats { MaxOpenConnections : Z; OpenConnections : Z; InUse : nat; Idle : nat;
  WaitCount : Z; WaitDuration : Z; MaxIdleClosed : Z; MaxLifetimeClosed : Z }.
Definition pool_Stats (p : Pool) : Stats :=
  mkStats (maxConnCap p) (connCnt p) (size (active p)) (length (idle p))
    (waitCount p) (waitDurationNs p) (maxIdleClosed p) (maxLifetimeClosed p).

(** ** Interleavings

    A client closes, puts back or marks unhealthy only connections it currently
    holds; besides, it may put connections of its own into the pool. *)
Inductive pstep : Pool → Pool → Prop :=
| p_get p now : pstep p (Get_start p now).1
| p_again p now : pstep p (Get_iter p now).1
| p_get_pinged p pc ok : pc ∈ limbo p → pstep p (Get_pinged p pc ok).1
| p_dialed p r ptr now : (0 < dials p)%nat → may_wrap p ptr → pstep p (Get_dialed p r ptr now).1
| p_put p pc now : pc ∈ active p → pstep p (putConn p pc now).1
| p_put_pinged p pc ok now : pc ∈ limbo p → pstep p (putConn_pinged p pc ok now)
| p_unhealthy p pc : pc ∈ active p → pstep p (markUnhealthy p pc)
| p_scan p now : pstep p (cleanup_scan p now).1
| p_close p pc : pc ∈ limbo p → pstep p (cleanup_close p pc)
| p_waited p b a d : pstep p (Get_waited p b a d).1
| p_counted p i l : pstep p (add_stats p i l)
| p_flag p : pstep p (Release_flag p).1.

(** The pool after [n] foreign connections were put into it. *)
Inductive pool_after : nat → Pool → Prop :=
| after_new init maxIdle cap t factory ping life now p :
    NewPool init maxIdle cap t factory ping life now = inr p → pool_after 0 p
| after_step n p p' : pool_after n p → pstep p p' → pool_after n p'
| after_foreign n p ptr conn now : pool_after n p → may_wrap p ptr → pool_after (S n) (Put_raw p ptr conn now).1.

Definition pool_reachable (p : Pool) : Prop := ∃ n, pool_after n p.

(** ** Invariant *)

(** The books of a pool that took [n] foreign connections. *)
Record acct (n : nat) (p : Pool) : Prop := {
  a_cnt : connCnt p = Z.of_nat (length (idle p) + size (active p) + size (limbo p) + dials p);
  a_cap : connCnt p <= maxConnCap p + Z.of_nat n;
  a_idle : (length (idle p) <= maxIdleCnt p)%nat;
  a_nodup : NoDup (idle p);
  a_ia : ∀ x, x ∈ idle p → x ∉ active p ∧ x ∉ limbo p ∧ x ∉ free p;
  a_al : ∀ x, x ∈ active p → x ∉ limbo p ∧ x ∉ free p;
  a_lf : ∀ x, x ∈ limbo p → x ∉ free p;
  a_dom : ∀ x, x ∈ idle p ∨ x ∈ active p ∨ x ∈ limbo p ∨ x ∈ free p → is_Some (objs p !! x);
  a_ret : ∀ x, x ∈ active p → is_returned p x = false;
  a_conn : ∀ x o, x ∈ idle p ∨ x ∈ active p ∨ x ∈ limbo p → objs p !! x = Some o → is_Some (pc_conn o) }.
Arguments a_cnt {n p} _.
Arguments a_ia {n} p _ _ _.
Arguments a_al {n} p _ _ _.
Arguments a_lf {n} p _ _ _.
Arguments a_dom {n} p _ _ _.
Arguments a_ret {n} p _ _ _.
Arguments a_conn {n} p _ _ _ _ _.
