(* ===== verification/ConnPoolFacts.v ===== *)
(** * Correctness of the connection pool *)

From S2P Require Import Prelude ConnPool.
Local Open Scope Z_scope.

(** ** Sets *)
Lemma size_add (x : nat) (X : gset nat) : x ∉ X → size ({[x]} ∪ X) = S (size X).
Proof. intros H. rewrite size_union, size_singleton by set_solver. lia. Qed.
Lemma size_del (x : nat) (X : gset nat) : x ∈ X → size X = S (size (X ∖ {[x]})).
Proof. intros H. rewrite (union_difference_singleton_L x X) at 1 by done. apply size_add. set_solver. Qed.
Lemma add_del (x : nat) (X : gset nat) : x ∉ X → ({[x]} ∪ X) ∖ {[x]} = X.
Proof. intros. set_solver. Qed.

(** ** Moving objects between the idle stack, the clients, limbo and the free pool *)
Section Books.
Context (n : nat).
#[local] Notation acct := (ConnPool.acct n).

Lemma acct_stats p a b : acct p → acct (add_stats p a b).
Proof. intros [H1 H2 H3 H4 H5 H6 H7 H8 H9 H10]. by split. Qed.

Lemma acct_wait p a b : acct p → acct (add_wait p a b).
Proof. intros [H1 H2 H3 H4 H5 H6 H7 H8 H9 H10]. by split. Qed.

Lemma acct_closed p : acct p → acct (set_closed p).
Proof. intros [H1 H2 H3 H4 H5 H6 H7 H8 H9 H10]. by split. Qed.

(** Changing an object without touching its connection; clients' objects keep
    their flag. *)
Lemma acct_upd p pc f : (∀ o, pc_conn (f o) = pc_conn o) → (pc ∈ active p → ∀ o, returned (f o) = returned o) →
  acct p → acct (upd_obj p pc f).
Proof.
  intros Hf Hr [H1 H2 H3 H4 H5 H6 H7 H8 H9 H10]. split; try done; cbn.
  - intros x Hx. destruct (decide (pc = x)) as [->|].
    + rewrite lookup_alter_eq. destruct (H8 x Hx) as [o ->]. by eexists.
    + rewrite lookup_alter_ne by done. by apply H8.
  - intros x Hx. specialize (H9 x Hx). unfold is_returned in *. cbn. destruct (decide (pc = x)) as [->|].
    + rewrite lookup_alter_eq. destruct (objs p !! x) as [o|]; [|done]. cbn. by rewrite Hr.
    + by rewrite lookup_alter_ne.
  - intros x o Hx. destruct (decide (pc = x)) as [->|].
    + rewrite lookup_alter_eq. destruct (objs p !! x) as [o'|] eqn:E; [|done]. cbn. intros [= <-]. rewrite Hf. by apply (H10 x).
    + rewrite lookup_alter_ne by done. by apply H10.
Qed.

Lemma idle_to_limbo p pc l : acct (set_idle p (pc :: l)) → acct (set_limbo (set_idle p l) ({[pc]} ∪ limbo p)).
Proof.
  intros [H1 H2 H3 H4 H5 H6 H7 H8 H9 H10]. cbn in *. apply NoDup_cons in H4 as [Hpc H4].
  destruct (H5 pc) as (? & ? & ?); [left|]. split; cbn; try done.
  - rewrite size_add by done. lia.
  - lia.
  - intros x Hx. destruct (H5 x) as (? & ? & ?); [by right|]. set_solver.
  - intros x Hx. destruct (H6 x Hx). set_solver.
  - intros x. set_solver.
  - intros x Hx. apply H8. set_solver.
  - intros x o Hx. apply H10. set_solver.
Qed.

Lemma close_from_limbo p pc : pc ∈ limbo p → acct p → acct (closeConnLocked (set_limbo p (limbo p ∖ {[pc]})) pc).
Proof.
  intros Hpc [H1 H2 H3 H4 H5 H6 H7 H8 H9 H10]. pose proof (size_del pc (limbo p) Hpc) as Hs. split; cbn; try done.
  - lia.
  - lia.
  - intros x Hx. destruct (H5 x Hx) as (? & ? & ?). set_solver.
  - intros x Hx. destruct (H6 x Hx). set_solver.
  - intros x. set_solver.
  - intros x Hx. destruct (decide (pc = x)) as [->|].
    + rewrite lookup_alter_eq. destruct (H8 x) as [o ->]; [set_solver|]. by eexists.
    + rewrite lookup_alter_ne by done. apply H8. set_solver.
  - intros x Hx. specialize (H9 x Hx). unfold is_returned in *. cbn.
    rewrite lookup_alter_ne; [done|]. intros ->. by destruct (H6 x Hx).
  - intros x o Hx. destruct (decide (pc = x)) as [->|].
    + exfalso. destruct Hx as [Hx|[Hx|Hx]]; [by destruct (H5 x Hx) as (_ & ? & _)|by destruct (H6 x Hx)|set_solver].
    + rewrite lookup_alter_ne by done. apply H10. set_solver.
Qed.

Lemma limbo_to_active p pc : pc ∈ limbo p → is_returned p pc = false → acct p →
  acct (take_conn (set_limbo p (limbo p ∖ {[pc]})) pc).
Proof.
  intros Hpc Hr [H1 H2 H3 H4 H5 H6 H7 H8 H9 H10]. pose proof (size_del pc (limbo p) Hpc) as Hs.
  assert (pc ∉ active p) as Hna by (intros Ha; by destruct (H6 pc Ha)). split; cbn; try done.
  - rewrite size_add by done. lia.
  - intros x Hx. destruct (H5 x Hx) as (? & ? & ?). set_solver.
  - intros x [->%elem_of_singleton|Hx]%elem_of_union; [split; [set_solver|by apply H7]|]. destruct (H6 x Hx). set_solver.
  - intros x Hx. apply H7. set_solver.
  - intros x Hx. apply H8. set_solver.
  - intros x [->%elem_of_singleton|Hx]%elem_of_union; [done|]. by apply H9.
  - intros x o Hx. apply H10. set_solver.
Qed.

Lemma active_to_limbo p pc : pc ∈ active p → acct p →
  acct (set_limbo (set_active (upd_obj p pc (set_returned true)) (active p ∖ {[pc]})) ({[pc]} ∪ limbo p)).
Proof.
  intros Hpc [H1 H2 H3 H4 H5 H6 H7 H8 H9 H10]. pose proof (size_del pc (active p) Hpc) as Hs.
  destruct (H6 pc Hpc) as [Hnl Hnf]. split; cbn; try done.
  - rewrite size_add by done. lia.
  - intros x Hx. destruct (H5 x Hx) as (? & ? & ?). set_solver.
  - intros x Hx. destruct (H6 x) as [? ?]; [set_solver|]. set_solver.
  - intros x. set_solver.
  - intros x Hx. destruct (decide (pc = x)) as [->|].
    + rewrite lookup_alter_eq. destruct (H8 x) as [o ->]; [set_solver|]. by eexists.
    + rewrite lookup_alter_ne by done. apply H8. set_solver.
  - intros x Hx. unfold is_returned. cbn. rewrite lookup_alter_ne by set_solver. apply H9. set_solver.
  - intros x o Hx. destruct (decide (pc = x)) as [->|].
    + rewrite lookup_alter_eq. destruct (objs p !! x) as [o'|] eqn:E; [|done]. cbn. intros [= <-]. cbn.
      apply (H10 x); [set_solver|done].
    + rewrite lookup_alter_ne by done. apply H10. set_solver.
Qed.

Lemma limbo_to_idle p pc : pc ∈ limbo p → (length (idle p) < maxIdleCnt p)%nat → acct p →
  acct (set_idle (set_limbo p (limbo p ∖ {[pc]})) (pc :: idle p)).
Proof.
  intros Hpc Hroom [H1 H2 H3 H4 H5 H6 H7 H8 H9 H10]. pose proof (size_del pc (limbo p) Hpc) as Hs.
  assert (pc ∉ active p) as Hna by (intros Ha; by destruct (H6 pc Ha)).
  assert (pc ∉ idle p) as Hni by (intros Ha; by destruct (H5 pc Ha) as (_ & ? & _)). split; cbn; try done.
  - lia.
  - by apply NoDup_cons.
  - intros x [->|Hx]%elem_of_cons; [split_and!; [done|set_solver|by apply H7]|].
    destruct (H5 x Hx) as (? & ? & ?). set_solver.
  - intros x Hx. destruct (H6 x Hx). set_solver.
  - intros x Hx. apply H7. set_solver.
  - intros x Hx. apply H8. set_solver.
  - intros x o Hx. apply H10. set_solver.
Qed.

(** A dialled connection is wrapped in a free or a new object. *)
Lemma dial_to_limbo p ptr conn now : (0 < dials p)%nat → may_wrap p ptr → acct p →
  acct (set_limbo (wrapConn (set_dials p (dials p - 1) (connCnt p)) ptr conn now) ({[ptr]} ∪ limbo p)).
Proof.
  intros Hd Hw [H1 H2 H3 H4 H5 H6 H7 H8 H9 H10].
  assert (ptr ∉ idle p ∧ ptr ∉ active p ∧ ptr ∉ limbo p) as (Hi & Ha & Hl).
  { destruct Hw as [Hf|Hn].
    - split_and!; intros Hx; [by destruct (H5 ptr Hx) as (_ & _ & ?)|by destruct (H6 ptr Hx)|by apply (H7 ptr Hx)].
    - split_and!; intros Hx; destruct (H8 ptr) as [o Ho]; set_solver. }
  assert (∀ x, x ∈ List.filter (λ y, negb (y =? ptr)%nat) (free p) → x ∈ free p ∧ x ≠ ptr) as Hfil.
  { intros x [Hx Hne]%list_elem_of_In%filter_In. split; [by apply list_elem_of_In|].
    by apply negb_true_iff, Nat.eqb_neq in Hne. }
  split; cbn; try done.
  - rewrite size_add by done. lia.
  - intros x Hx. destruct (H5 x Hx) as (? & ? & ?). split_and!; [done|set_solver|]. by intros [? _]%Hfil.
  - intros x Hx. destruct (H6 x Hx). split; [set_solver|]. by intros [? _]%Hfil.
  - intros x Hx [Hxf Hne]%Hfil. apply elem_of_union in Hx as [Hx%elem_of_singleton|Hx]; [done|]. by apply (H7 x).
  - intros x Hx. destruct (decide (ptr = x)) as [->|]; [rewrite lookup_insert_eq; by eexists|].
    rewrite lookup_insert_ne by done. apply H8.
    destruct Hx as [?|[?|[?|[? _]%Hfil]]]; [set_solver..|auto].
  - intros x Hx. unfold is_returned. cbn. rewrite lookup_insert_ne by set_solver. by apply H9.
  - intros x o Hx. destruct (decide (ptr = x)) as [->|].
    + rewrite lookup_insert_eq. intros [= <-]. by eexists.
    + rewrite lookup_insert_ne by done. apply H10. set_solver.
Qed.

#[local] Hint Resolve acct_stats acct_closed idle_to_limbo close_from_limbo limbo_to_active active_to_limbo limbo_to_idle : soil.

(** ** The operations *)
Lemma set_limbo_idem p X : set_limbo (set_limbo p X) (limbo p) = set_limbo p (limbo p).
Proof. done. Qed.
Lemma set_limbo_same p : set_limbo p (limbo p) = p.
Proof. by destruct p. Qed.

Lemma close_idle_top p pc l : acct (set_idle p (pc :: l)) → acct (set_idle (closeConnLocked p pc) l).
Proof.
  intros Hok. destruct (a_ia _ Hok pc) as (_ & Hnl & _); [left|]. cbn in Hnl.
  pose proof (idle_to_limbo p pc l Hok) as H.
  apply (close_from_limbo _ pc) in H; [|cbn; set_solver]. cbn [limbo set_limbo] in H. rewrite add_del in H by done.
  by replace (set_idle (closeConnLocked p pc) l) with
    (closeConnLocked (set_limbo (set_limbo (set_idle p l) ({[pc]} ∪ limbo p)) (limbo p)) pc) by (by destruct p).
Qed.

Lemma getIdle_ok now l : ∀ p, acct (set_idle p l) →
  match getIdle_loop p l now with
  | (p', NoIdle) => acct p'
  | (p', PingIdle pc) => acct p'
  | (p', GotIdle pc) => acct (take_conn p' pc)
  end.
Proof.
  induction l as [|pc l IH]; intros p Hok; cbn [getIdle_loop]; [done|].
  destruct (a_dom _ Hok pc) as [o Ho]; [left; left|]. cbn in Ho. rewrite Ho.
  destruct (idle_expired p o now); 
    [apply IH; by apply (acct_stats (set_idle (closeConnLocked p pc) l)), close_idle_top|].
  destruct (too_old p o now); 
    [apply IH; by apply (acct_stats (set_idle (closeConnLocked p pc) l)), close_idle_top|].
  pose proof (idle_to_limbo p pc l Hok) as Hl. destruct (has_ping p); [done|].
  destruct (a_ia _ Hok pc) as (Hna & Hnl & _); [left|]. cbn in Hna, Hnl.
  apply (acct_upd _ pc (set_returned false)) in Hl; [|done|done].
  apply (limbo_to_active _ pc) in Hl; [|cbn; set_solver|].
  - cbn [limbo set_limbo upd_obj set_objs] in Hl. rewrite add_del in Hl by done.
    by replace (take_conn (upd_obj (set_idle p l) pc (set_returned false)) pc) with
      (take_conn (set_limbo (upd_obj (set_limbo (set_idle p l) ({[pc]} ∪ limbo p)) pc (set_returned false)) (limbo p)) pc)
      by (by destruct p).
  - unfold is_returned. cbn. by rewrite lookup_alter_eq, Ho.
Qed.

Lemma cp_Get_iter_ok p now : acct p → acct (Get_iter p now).1.
Proof.
  intros Hok. unfold Get_iter, getIdleConnLocked.
  assert (acct (set_idle p (idle p))) as Hok' by (by destruct p).
  pose proof (getIdle_ok now (idle p) p Hok') as H.
  destruct (getIdle_loop p (idle p) now) as [p' [|pc|pc]]; [|done|done].
  destruct (Z.ltb_spec (connCnt p') (maxConnCap p')); [|by apply acct_wait].
  destruct H as [H1 H2 H3 H4 H5 H6 H7 H8 H9 H10]. split; cbn; try done; lia.
Qed.

Lemma finish_put_ok p pc now : pc ∈ limbo p → acct p →
  acct (finish_put (set_limbo p (limbo p ∖ {[pc]})) pc now).
Proof.
  intros Hpc Hok. unfold finish_put.
  assert (pc ∉ active p) as Hna by (intros Ha; by destruct (a_al _ Hok pc Ha)).
  assert (acct (upd_obj p pc (set_lastActive now))) as Hu by (by apply acct_upd).
  cbn [idle maxIdleCnt upd_obj set_objs set_limbo].
  destruct (Nat.ltb_spec (length (idle p)) (maxIdleCnt p)).
  - by apply (limbo_to_idle (upd_obj p pc (set_lastActive now)) pc).
  - by apply (close_from_limbo (upd_obj p pc (set_lastActive now)) pc).
Qed.


Lemma putConn_ok p pc now : closed p = false → pc ∈ active p → acct p → acct (putConn p pc now).1.
Proof.
  intros Hc Hpc Hok. unfold putConn. rewrite (a_ret _ Hok pc Hpc).
  pose proof (active_to_limbo p pc Hpc Hok) as Hl. destruct (a_al _ Hok pc Hpc) as [Hnl _].
  destruct (a_dom _ Hok pc) as [o Eo]; [auto|].
  cbn [closed upd_obj set_objs set_active objs active]. rewrite Hc, lookup_alter_eq, Eo. cbn [fmap option_fmap option_map].
  set (q := set_active (set_objs p (alter (set_returned true) pc (objs p))) (active p ∖ {[pc]})) in *.
  set (q1 := set_limbo q ({[pc]} ∪ limbo p)) in *.
  assert (set_limbo q1 (limbo q1 ∖ {[pc]}) = q) as Eq.
  { unfold q1. cbn [limbo set_limbo]. rewrite add_del by done. by destruct p. }
  assert (acct q1) as Hl1 by exact Hl. assert (pc ∈ limbo q1) as Hin by (cbn; set_solver).
  pose proof (close_from_limbo q1 pc Hin Hl1) as G1. pose proof (finish_put_ok q1 pc now Hin Hl1) as G2.
  rewrite Eq in G1, G2.
  match goal with |- context [if ?b then _ else _] => destruct b end.
  - by apply acct_stats.
  - match goal with |- context [if ?b then _ else _] => destruct b end; [exact Hl|exact G2].
Qed.

Lemma markUnhealthy_ok p pc : pc ∈ active p → acct p → acct (markUnhealthy p pc).
Proof.
  intros Hpc Hok. unfold markUnhealthy. rewrite (a_ret _ Hok pc Hpc).
  pose proof (active_to_limbo p pc Hpc Hok) as Hl. destruct (a_al _ Hok pc Hpc) as [Hnl _].
  apply (close_from_limbo _ pc) in Hl; [|cbn; set_solver]. cbn [limbo set_limbo] in Hl. rewrite add_del in Hl by done.
  by replace (set_active (upd_obj p pc (set_returned true)) (active p ∖ {[pc]})) with
    (set_limbo (set_limbo (set_active (upd_obj p pc (set_returned true)) (active p ∖ {[pc]})) ({[pc]} ∪ limbo p)) (limbo p))
    by (by destruct p).
Qed.

Lemma Get_pinged_ok p pc ok : pc ∈ limbo p → acct p → acct (Get_pinged p pc ok).1.
Proof.
  intros Hpc Hok. unfold Get_pinged. cbn [closed set_limbo].
  destruct (closed p); [by apply close_from_limbo|]. destruct ok; cbn [negb fst]; [|by apply close_from_limbo].
  assert (pc ∉ active p) as Hna by (intros Ha; by destruct (a_al _ Hok pc Ha)).
  apply (limbo_to_active (upd_obj p pc (set_returned false)) pc); [done| |by apply acct_upd].
  unfold is_returned. cbn. rewrite lookup_alter_eq. destruct (a_dom _ Hok pc) as [o ->]; [auto|]. done.
Qed.

Lemma cp_Get_dialed_ok p r ptr now : (0 < dials p)%nat → may_wrap p ptr → acct p → acct (Get_dialed p r ptr now).1.
Proof.
  intros Hd Hw Hok. destruct r as [conn|]; cbn [Get_dialed].
  - pose proof (dial_to_limbo p ptr conn now Hd Hw Hok) as Hl. set (q := wrapConn _ _ _ _) in *.
    assert (ptr ∉ limbo p) as Hnl.
    { intros Hx. destruct Hw as [Hf|Hn]; [by apply (a_lf _ Hok ptr)|].
      destruct (a_dom _ Hok ptr) as [o Ho]; [auto|congruence]. }
    set (q1 := set_limbo q ({[ptr]} ∪ limbo p)) in *.
    assert (set_limbo q1 (limbo q1 ∖ {[ptr]}) = q) as Eq.
    { unfold q1. cbn [limbo set_limbo]. rewrite add_del by done. by destruct p. }
    assert (ptr ∈ limbo q1) as Hin by (cbn; set_solver).
    assert (is_returned q1 ptr = false) as Hret by (unfold is_returned; cbn; by rewrite lookup_insert_eq).
    pose proof (close_from_limbo q1 ptr Hin Hl) as G1. pose proof (limbo_to_active q1 ptr Hin Hret Hl) as G2.
    rewrite Eq in G1, G2. by destruct (closed q).
  - destruct Hok as [H1 H2 H3 H4 H5 H6 H7 H8 H9 H10]. split; cbn; try done; lia.
Qed.

Lemma scan_ok p now : acct p → acct (cleanup_scan p now).1.
Proof.
  intros Hok. unfold cleanup_scan. destruct (closed p); [done|]. cbn [fst].
  set (f := stale p now). destruct Hok as [H1 H2 H3 H4 H5 H6 H7 H8 H9 H10].
  assert (∀ x, x ∈ List.filter f (idle p) ↔ x ∈ idle p ∧ f x = true) as Hg
    by (intros; by rewrite !list_elem_of_In, filter_In).
  assert (∀ x, x ∈ List.filter (λ pc, negb (f pc)) (idle p) ↔ x ∈ idle p ∧ f x = false) as Hk
    by (intros; by rewrite !list_elem_of_In, filter_In, negb_true_iff).
  assert (∀ g, NoDup (List.filter g (idle p))) as Hnd.
  { intros g. clear -H4. induction H4 as [|x l Hx Hl IH]; cbn; [constructor|]. destruct (g x); [|done].
    constructor; [|done]. by rewrite list_elem_of_In, filter_In, <- list_elem_of_In; intros [? _]. }
  assert (length (List.filter f (idle p)) + length (List.filter (λ pc, negb (f pc)) (idle p)) = length (idle p))%nat as Hlen
    by apply filter_length.
  split; cbn; try done.
  - rewrite size_union.
    + rewrite size_list_to_set by apply Hnd. lia.
    + intros x Hx Hl. apply elem_of_list_to_set, Hg in Hx as [Hx _]. by destruct (H5 x Hx) as (_ & ? & _).
  - lia.
  - intros x [Hx Hf]%Hk. destruct (H5 x Hx) as (? & ? & ?). split_and!; [done| |done].
    rewrite elem_of_union, elem_of_list_to_set, Hg. intros [[_ ?]|?]; [congruence|done].
  - intros x Hx. destruct (H6 x Hx). split; [|done].
    rewrite elem_of_union, elem_of_list_to_set, Hg. intros [[Hi _]|?]; [|done]. by destruct (H5 x Hi).
  - intros x [Hx%elem_of_list_to_set%Hg|Hx]%elem_of_union; [|by apply H7].
    destruct Hx as [Hx _]. by destruct (H5 x Hx) as (_ & _ & ?).
  - intros x Hx. apply H8. rewrite Hk, elem_of_union, elem_of_list_to_set, Hg in Hx. naive_solver.
  - intros x o Hx. apply H10. rewrite Hk, elem_of_union, elem_of_list_to_set, Hg in Hx. naive_solver.
Qed.

End Books.

(** A foreign connection is counted beyond the capacity. *)
Lemma Put_raw_ok n p ptr conn now : may_wrap p ptr → acct n p → acct (S n) (Put_raw p ptr conn now).1.
Proof.
  intros Hw Hok. unfold Put_raw. destruct (closed p); [destruct Hok; split; cbn; try done; lia|].
  assert (acct (S n) (set_dials p (S (dials p)) (connCnt p + 1))) as H1 by (destruct Hok; split; cbn; try done; lia).
  assert (ptr ∉ limbo p) as Hnl.
  { intros Hx. destruct Hw as [Hf|Hn]; [by apply (a_lf _ Hok ptr)|]. destruct (a_dom _ Hok ptr) as [o Ho]; [auto|congruence]. }
  apply (dial_to_limbo _ _ ptr conn now) in H1; [|cbn; lia|exact Hw]. cbn [fst].
  assert (ptr ∈ {[ptr]} ∪ limbo p) as Hin by set_solver.
  match goal with |- context [if ?b then _ else _] => destruct b eqn:Hb end.
  - apply Nat.ltb_lt in Hb. apply (limbo_to_idle _ _ ptr) in H1; [|exact Hin|exact Hb].
    cbn in H1 |- *. rewrite add_del, Nat.sub_0_r in H1 by done. by destruct p.
  - apply (close_from_limbo _ _ ptr) in H1; [|exact Hin].
    cbn in H1 |- *. rewrite add_del, Nat.sub_0_r in H1 by done. by destruct p.
Qed.

(** ** Reachability *)
Definition pool_inv (n : nat) (p : Pool) : Prop := closed p = true ∨ acct n p.

Lemma getIdle_closed now l : ∀ p, closed (getIdle_loop p l now).1 = closed p.
Proof.
  induction l as [|pc l IH]; intros p; cbn [getIdle_loop]; [done|]. destruct (objs p !! pc) as [o|]; [|done].
  destruct (idle_expired p o now); [by rewrite IH|]. destruct (too_old p o now); [by rewrite IH|]. by destruct (has_ping p).
Qed.
Lemma Get_iter_closed p now : closed (Get_iter p now).1 = closed p.
Proof.
  unfold Get_iter, getIdleConnLocked. pose proof (getIdle_closed now (idle p) p) as H.
  destruct (getIdle_loop p (idle p) now) as [p' []]; [|done|done]. cbn in H. by destruct (_ <? _).
Qed.

Lemma closed_stays p p' : closed p = true → pstep p p' → closed p' = true.
Proof.
  intros Hc Hs. destruct Hs as [p now|p now|p pc ok _|p r ptr now _ _|p pc now _|p pc ok now _|p pc _|p now|p pc _|p b a d|p i l|p].
  - unfold Get_start. by rewrite Hc.
  - by rewrite Get_iter_closed.
  - unfold Get_pinged. cbn [closed set_limbo]. rewrite Hc. exact Hc.
  - destruct r as [conn|]; cbn [Get_dialed]; [|exact Hc].
    destruct (closed (wrapConn _ _ _ _)) eqn:E; [exact E|]. change (closed p = false) in E. congruence.
  - unfold putConn. destruct (is_returned p pc); [exact Hc|].
    cbn [closed upd_obj set_objs]. rewrite Hc. exact Hc.
  - unfold putConn_pinged, finish_put. destruct ok; [|exact Hc]. cbv zeta.
    match goal with |- context [if ?b then _ else _] => destruct b end; exact Hc.
  - unfold markUnhealthy. destruct (is_returned p pc); exact Hc.
  - unfold cleanup_scan. rewrite Hc. exact Hc.
  - exact Hc.
  - unfold Get_waited. cbn [closed add_wait]. rewrite Hc. by destruct b.
  - exact Hc.
  - unfold Release_flag. by rewrite Hc.
Qed.

Lemma pstep_inv n p p' : pool_inv n p → pstep p p' → pool_inv n p'.
Proof.
  intros [Hc|Hok] Hs; [left; by eapply closed_stays|]. destruct (closed p) eqn:Hc; [left; by eapply closed_stays|].
  right. destruct Hs as [p now|p now|p pc ok Hin|p r ptr now Hd Hw|p pc now Hin|p pc ok now Hin|p pc Hin|p now|p pc Hin|p b a d|p i l|p].
  - unfold Get_start. rewrite Hc. by apply cp_Get_iter_ok.
  - by apply cp_Get_iter_ok.
  - by apply Get_pinged_ok.
  - by apply cp_Get_dialed_ok.
  - by apply putConn_ok.
  - unfold putConn_pinged. destruct ok; [by apply finish_put_ok|by apply close_from_limbo].
  - by apply markUnhealthy_ok.
  - by apply scan_ok.
  - by apply close_from_limbo.
  - unfold Get_waited. apply (acct_wait _ p 0 d) in Hok. destruct b; [done|]. destruct (closed _); [done|]. by destruct a.
  - by apply acct_stats.
  - unfold Release_flag. rewrite Hc. by apply acct_closed.
Qed.

(** The state while the initial connections are opened: the first [k] objects are
    idle and the count is not yet stored. *)
Record opening (k : nat) (p : Pool) : Prop := {
  o_acct : acct 0 (set_free p (free p) (Z.of_nat k));
  o_fresh : ∀ x, is_Some (objs p !! x) → (x < k)%nat;
  o_limbo : limbo p = ∅; o_dials : dials p = 0%nat; o_len : length (idle p) = k }.

Lemma opening_step k p conn now : opening k p → (k < maxIdleCnt p)%nat → Z.of_nat k < maxConnCap p →
  opening (S k) (set_idle (wrapConn p k conn now) (k :: idle p)).
Proof.
  intros [Hok Hf Hl Hd Hlen] Hi Hcap.
  assert (objs p !! k = None) as Hn by (apply eq_None_not_Some; intros H%Hf; lia). split; [| |done|done|cbn; lia].
  - assert (acct 0 (set_dials p 1 (Z.of_nat (S k)))) as H1.
    { destruct Hok as [H1 H2 H3 H4 H5 H6 H7 H8 H9 H10]. split; cbn in *; try done; lia. }
    apply (dial_to_limbo _ _ k conn now) in H1; [|cbn; lia|by right].
    apply (limbo_to_idle _ _ k) in H1; [|cbn; set_solver|cbn; lia]. cbn in H1. rewrite add_del in H1 by (rewrite Hl; set_solver).
    destruct p. cbn in *. subst. exact H1.
  - intros x. cbn. destruct (decide (k = x)) as [->|]; [lia|]. rewrite lookup_insert_ne by done. intros H%Hf. lia.
Qed.

Lemma open_initial_ok factory now n : ∀ k p p', opening k p → (k + n <= maxIdleCnt p)%nat → Z.of_nat (k + n) <= maxConnCap p →
  open_initial factory n k p now = inr p' → opening (k + n) p' ∧ maxConnCap p' = maxConnCap p.
Proof.
  induction n as [|n IH]; intros k p p' Ho Hi Hc E; cbn [open_initial] in E.
  - injection E as <-. by rewrite Nat.add_0_r.
  - destruct (factory k) as [conn|]; [|done]. rewrite <- Nat.add_succ_comm.
    apply (IH (S k) _ p') in E; [done|apply (opening_step k p conn now); [done|lia..]|cbn; lia|cbn; lia].
Qed.

Lemma NewPool_ok init maxIdle cap t factory ping life now p :
  NewPool init maxIdle cap t factory ping life now = inr p → acct 0 p.
Proof.
  intros E. unfold NewPool in E. destruct (Z.ltb_spec maxIdle init), (Z.ltb_spec cap maxIdle), (Z.ltb_spec init 0); try done.
  cbn [orb] in E. destruct factory as [factory|]; [|done].
  destruct (open_initial _ _ _ _ _) as [?|p1] eqn:Eo; [done|]. injection E as <-.
  apply open_initial_ok in Eo as [[Hok _ _ _ _] _]; cbn; [|split; cbn; try done|lia|lia].
  - by replace init with (Z.of_nat (0 + Z.to_nat init)) at 1 by lia.
  - split; cbn; try done; try lia; try set_solver. constructor.
  - intros x [? Hx]. by rewrite lookup_empty in Hx.
Qed.

Lemma after_inv n p : pool_after n p → pool_inv n p.
Proof.
  induction 1 as [init maxIdle cap t factory ping life now p E|n p p' _ IH Hs|n p ptr conn now _ IH Hw].
  - right. by eapply NewPool_ok.
  - by eapply pstep_inv.
  - destruct IH as [Hc|Hok]; [left|right; by apply Put_raw_ok]. unfold Put_raw. by rewrite Hc.
Qed.

Lemma reachable_inv p : pool_reachable p → closed p = true ∨ ∃ n, acct n p.
Proof. intros [n H]. destruct (after_inv n p H) as [?|?]; [by left|right; by exists n]. Qed.

(** ** Theorems *)

(** C33: The pool keeps its books exactly while it is open, in every interleaving of
    gets, dials, pings, returns, clean-ups, unhealthy marks and puts of foreign
    connections, by clients that use a connection only while they hold it: the
    open-connection count equals the idle, held, pinged and dialling connections
    together; it exceeds the configured capacity by at most the number of foreign
    connections that were put into the pool, so never when clients put back only
    what they got; the idle stack stays within its bound; and no connection object
    is in two places at once: not idle or recycled while a client holds it, so no
    two clients ever share a connection. *)
Theorem pool_accounting n p : pool_after n p → closed p = false →
  connCnt p = Z.of_nat (length (idle p) + size (active p) + size (limbo p) + dials p) ∧
  connCnt p <= maxConnCap p + Z.of_nat n ∧ (length (idle p) <= maxIdleCnt p)%nat ∧ NoDup (idle p) ∧
  (∀ x, x ∈ active p → x ∉ idle p ∧ x ∉ limbo p ∧ x ∉ free p) ∧
  (∀ p' now pc, Get_iter p now = (p', GConn pc) → pc ∉ active p).
Proof.
  intros Hr Hc. destruct (after_inv n p Hr) as [?|Hok]; [congruence|].
  split_and!; [apply Hok|apply Hok|apply Hok|apply Hok| |].
  - intros x Hx. destruct (a_al _ Hok x Hx) as [? ?]. split_and!; [|done|done].
    intros Hi. by destruct (a_ia _ Hok x Hi).
  - intros p' now pc E. unfold Get_iter, getIdleConnLocked in E.
    assert (∀ l q r, getIdle_loop q l now = (r, GotIdle pc) → pc ∈ l) as Hin.
    { induction l as [|x l IH]; intros q r Eq; cbn [getIdle_loop] in Eq; [done|].
      destruct (objs q !! x) as [o|]; [|done].
      destruct (idle_expired q o now); [right; by eapply IH|]. destruct (too_old q o now); [right; by eapply IH|].
      destruct (has_ping q); [done|]. injection Eq as _ <-. left. }
    destruct (getIdle_loop p (idle p) now) as [q [|pc'|pc']] eqn:Eg.
    + by destruct (_ <? _).
    + injection E as _ <-. apply (a_ia _ Hok). by eapply Hin.
    + done.
Qed.

Definition ex_new (ping : bool) : Pool :=
  match NewPool 1 1 2 10 (Some Some) ping [] 0 with inr p => p | inl _ => mkPool 0 0 0 0 false ∅ [] ∅ ∅ 0 [] 0 false 0 0 0 0 end.
Definition ex_pool : Pool := ex_new false.
(** Two clients hold a connection each, a third has put one of its own into the pool. *)
Definition ex_busy : Pool := (Get_dialed (Get_start (Get_start ex_pool 1).1 2).1 (Some 7%nat) 1 3).1.
Definition ex_full : Pool := (Put_raw ex_busy 2 9 4).1.
Lemma ex_full_after : pool_after 1 ex_full.
Proof.
  apply after_foreign; [|right; reflexivity].
  eapply after_step; [eapply after_step; [eapply after_step; [|apply p_get]|apply p_get]|apply p_dialed].
  - by apply (after_new 1 1 2 10 (Some Some) false [] 0).
  - vm_compute. lia.
  - right. reflexivity.
Qed.
Lemma pool_accounting_witness :
  connCnt ex_full = 3 ∧ maxConnCap ex_full = 2 ∧ idle ex_full = [2%nat] ∧
  connCnt ex_full = Z.of_nat (1 + size (active ex_full) + 0 + 0) ∧
  (∀ x, x ∈ active ex_full → x ∉ idle ex_full ∧ x ∉ limbo ex_full ∧ x ∉ free ex_full).
Proof.
  destruct (pool_accounting 1 ex_full ex_full_after eq_refl) as (H1 & _ & _ & _ & H5 & _).
  split_and!; [reflexivity..|exact H1|exact H5].
Defined.

(** ** What the discipline and the open state are needed for *)

(** A client that closes its handle a second time, after the object was retired and
    recycled for another client, returns the other client's connection to the pool,
    and a third client is handed the same connection. *)
Definition st1 : Pool := (Get_start ex_pool 1).1.                    (* A gets object 0 *)
Definition st2 : Pool := (putConn st1 0 2).1.                         (* A closes it *)
Definition st3 : Pool := (Get_start st2 100).1.                       (* expired: retired, B dials *)
Definition st4 : Pool := (Get_dialed st3 (Some 7%nat) 0 101).1.       (* B's connection reuses object 0 *)
Definition st5 : Pool := (putConn st4 0 102).1.                       (* A's second Close *)
Example stale_close_shares_connection :
  0%nat ∈ active st4 ∧ (Get_start st5 103).2 = GConn 0 ∧
  objs (Get_start st5 103).1 !! 0%nat = Some (mkPC (Some 7%nat) 101 102 false).
Proof. split; [|split]; vm_compute; reflexivity. Qed.

(** Closing a connection after [Release] retires it a second time: the count of
    open connections becomes negative and the object is in the free pool twice. *)
Example close_after_release :
  let p := Release_close (Release_flag st1).1 in
  let p' := (putConn p 0 3).1 in
  OpenConnections (pool_Stats p') = -1 ∧ free p' = [0; 0]%nat.
Proof. vm_compute. done. Qed.

(** [Release] during the ping of a return: the connection is put on the idle stack
    of the released pool and never closed. *)
Example release_during_ping_leaks :
  let p1 := (Get_pinged (Get_start (ex_new true) 1).1 0 true).1 in
  let p2 := (putConn p1 0 2).1 in
  let p3 := putConn_pinged (Release_close (Release_flag p2).1) 0 true 3 in
  closed p3 = true ∧ idle p3 = [0]%nat ∧ objs p3 !! 0%nat = Some (mkPC (Some 0%nat) 0 3 true).
Proof. vm_compute. done. Qed.

(** [Put] of a foreign connection does not look at the capacity. *)
Example put_raw_exceeds_capacity : connCnt ex_busy = 2 ∧ connCnt ex_full = 3 ∧ maxConnCap ex_full = 2.
Proof. vm_compute. done. Qed.
