(* ===== verification/ConnPoolConn.v ===== *)
(** * The connections a pool hands out

    The methods of [PoolConn] in [src/micro/pool/pool.go]: what a caller does with a
    connection it got.  Every method of [net.Conn] is passed on to the connection
    underneath, which the object loses when the pool closes it; [Close] gives the
    object back to the pool.  Operations on the network are a parameter. *)

From S2P Require Import Prelude ConnPool ConnPoolFacts.
Local Open Scope Z_scope.

(** [net.Conn] over the state of the network. *)
Class NetConn (N : Type) := {
  c_Read : nat → nat → N → N * (string * option string);       (** at most so many bytes *)
  c_Write : nat → string → N → N * (Z * option string);
  c_LocalAddr : nat → N → string; c_RemoteAddr : nat → N → string;
  c_SetDeadline : nat → Z → N → N * option string; c_SetReadDeadline : nat → Z → N → N * option string; c_SetWriteDeadline : nat → Z → N → N * option string }.

Section methods.
Context `{NetConn N}.

(** A method value on [pc.conn]; [None] is the panic on a nil interface. *)
Definition on_conn {A} (p : Pool) (pc : nat) (op : nat → A) : option A := op <$> (objs p !! pc ≫= pc_conn).
Definition PoolConn_Read (p : Pool) (pc b : nat) (w : N) := on_conn p pc (λ c, c_Read c b w).
Definition PoolConn_Write (p : Pool) (pc : nat) (b : string) (w : N) := on_conn p pc (λ c, c_Write c b w).
Definition PoolConn_LocalAddr (p : Pool) (pc : nat) (w : N) := on_conn p pc (λ c, c_LocalAddr c w).
Definition PoolConn_RemoteAddr (p : Pool) (pc : nat) (w : N) := on_conn p pc (λ c, c_RemoteAddr c w).
Definition PoolConn_SetDeadline (p : Pool) (pc : nat) (t : Z) (w : N) := on_conn p pc (λ c, c_SetDeadline c t w).
Definition PoolConn_SetReadDeadline (p : Pool) (pc : nat) (t : Z) (w : N) := on_conn p pc (λ c, c_SetReadDeadline c t w).
Definition PoolConn_SetWriteDeadline (p : Pool) (pc : nat) (t : Z) (w : N) := on_conn p pc (λ c, c_SetWriteDeadline c t w).
(** Up to the ping of [putConn], where there is one; what it reports is dropped. *)
Definition PoolConn_Close (p : Pool) (pc : nat) (now : Z) : Pool * option pool_err := ((putConn p pc now).1, None).
Definition PoolConn_MarkUnhealthy (p : Pool) (pc : nat) : Pool := markUnhealthy p pc.

(** Who holds a connection of an open pool can use it. *)
Lemma held_usable p pc : pool_reachable p → closed p = false → pc ∈ active p →
  ∃ c, ∀ A (op : nat → A), on_conn p pc op = Some (op c).
Proof.
  intros Hr Hc Hpc. destruct (reachable_inv p Hr) as [?|[n Hok]]; [congruence|].
  destruct (a_dom _ Hok pc) as [o Ho]; [auto|]. destruct (a_conn _ Hok pc o) as [c Hcn]; [auto|done|].
  exists c. intros A op. unfold on_conn. rewrite Ho. cbn. by rewrite Hcn.
Qed.
(** Marked unhealthy, it is out of the caller's hands: every further use panics. *)
Lemma unhealthy_unusable {A} p pc (op : nat → A) : pool_reachable p → closed p = false → pc ∈ active p →
  on_conn (PoolConn_MarkUnhealthy p pc) pc op = None ∧ pc ∉ active (PoolConn_MarkUnhealthy p pc).
Proof.
  intros Hr Hc Hpc. destruct (reachable_inv p Hr) as [?|[n Hok]]; [congruence|].
  destruct (a_dom _ Hok pc) as [o Ho]; [auto|]. pose proof (a_ret _ Hok pc Hpc) as Hret.
  unfold PoolConn_MarkUnhealthy, markUnhealthy. rewrite Hret. unfold closeConnLocked, on_conn, upd_obj. cbn.
  split; [|set_solver]. rewrite ?lookup_alter_eq, ?Ho. cbn. rewrite ?lookup_alter_eq, ?Ho. done.
Qed.
End methods.

(** A caller that closes a connection the pool has no room for and reads from it
    afterwards dereferences nil. *)
Definition two_out : Pool := (Get_dialed (Get_start (Get_start ex_pool 1).1 1).1 (Some 7%nat) 5 1).1.
Definition both_back : Pool := (PoolConn_Close (PoolConn_Close two_out 0 2).1 5 2).1.
Example read_after_close_panics :
  on_conn two_out 5 id = Some 7%nat ∧ (PoolConn_Close two_out 5 2).2 = None ∧ on_conn both_back 5 (id (A := nat)) = None.
Proof. split_and!; vm_compute; reflexivity. Qed.
