(* ===== verification/ConnPoolWait.v ===== *)
(** * Waiting for a connection of micro/pool

    Models what [ConnPool] leaves out of [src/micro/pool/pool.go]: the mutex, the
    condition variable and who wakes whom.  A call of [Get] is a goroutine with a
    context; [waitWithContext] is cut between arming [context.AfterFunc] and
    [cond.Wait], since the callback and a failed dial broadcast without the mutex.
    Everything else under the mutex is one step. *)

From S2P Require Import Prelude ConnPool.
Local Open Scope Z_scope.

(** ** State *)
(** A call of [Get]: not begun; pinging an idle connection; dialling; a failed dial
    has given its slot back; about to call [waitWithContext]; with the callback set;
    in [cond.Wait]; woken; returned. *)
Inductive get_pc := QNew | QPing (pc : nat) | QDial | QDialErr | QArm | QArmed | QWaiting | QWoken | QDone.
(** The callback of [context.AfterFunc]: not set; set; its goroutine has started; it
    has broadcast. *)
Inductive after_func := AFNone | AFSet | AFPending | AFDone.
(** [g_over]: the context is done. *)
Record getter := mkGetter { g_pc : get_pc; g_over : bool; g_after : after_func }.
(** [backgroundCleanup]: waiting; closing what a scan found, with what it counted. *)
Inductive cleaner_pc := KIdle | KClosing (todo : list nat) (idleClosed lifetimeClosed : Z).
(** [Release]: not called; the flag is set; after the broadcast; done. *)
Inductive release_pc := RNone | RFlagged | RWaiting | RDone.
(** [y_putting]: connections that [putConn] pings.  [y_missed]: a broadcast came
    after a goroutine had decided to wait and before it waited: that of its own
    callback, or that of a failed dial. *)
Record psys := mkSys {
  y_pool : Pool; y_gets : list getter; y_lock : option nat; y_putting : list nat;
  y_cleaner : cleaner_pc; y_release : release_pc; y_missed : bool }.

Definition set_gpc (q : get_pc) (g : getter) : getter := mkGetter q (g_over g) (g_after g).
(** The context is done: a callback that is set starts. *)
Definition ctx_over (g : getter) : getter :=
  mkGetter (g_pc g) true (match g_after g with AFSet => AFPending | a => a end).
(** [stop()]: without effect when the callback has started. *)
Definition stop_after (g : getter) : getter :=
  mkGetter (g_pc g) (g_over g) (match g_after g with AFSet => AFNone | a => a end).
Definition set_after (a : after_func) (g : getter) : getter := mkGetter (g_pc g) (g_over g) a.

Definition set_pool (p : Pool) (y : psys) : psys :=
  mkSys p (y_gets y) (y_lock y) (y_putting y) (y_cleaner y) (y_release y) (y_missed y).
Definition set_gets (gs : list getter) (y : psys) : psys :=
  mkSys (y_pool y) gs (y_lock y) (y_putting y) (y_cleaner y) (y_release y) (y_missed y).
Definition set_lock (l : option nat) (y : psys) : psys :=
  mkSys (y_pool y) (y_gets y) l (y_putting y) (y_cleaner y) (y_release y) (y_missed y).
Definition set_putting (l : list nat) (y : psys) : psys :=
  mkSys (y_pool y) (y_gets y) (y_lock y) l (y_cleaner y) (y_release y) (y_missed y).
Definition set_cleaner (k : cleaner_pc) (y : psys) : psys :=
  mkSys (y_pool y) (y_gets y) (y_lock y) (y_putting y) k (y_release y) (y_missed y).
Definition set_release (r : release_pc) (y : psys) : psys :=
  mkSys (y_pool y) (y_gets y) (y_lock y) (y_putting y) (y_cleaner y) r (y_missed y).
Definition set_missed (b : bool) (y : psys) : psys :=
  mkSys (y_pool y) (y_gets y) (y_lock y) (y_putting y) (y_cleaner y) (y_release y) (y_missed y || b).
Definition set_getter (i : nat) (g : getter) (y : psys) : psys := set_gets (<[i := g]> (y_gets y)) y.

(** ** The condition variable *)
Inductive wake := WNone | WSignal | WAll.
Definition is_waiting (g : getter) : bool := match g_pc g with QWaiting => true | _ => false end.
Definition is_armed (g : getter) : bool := match g_pc g with QArmed => true | _ => false end.
Definition wake_up (g : getter) : getter := if is_waiting g then set_gpc QWoken g else g.
(** [Signal] wakes one of those who wait. *)
Inductive woke : wake → list getter → list getter → Prop :=
| wk_none gs : woke WNone gs gs
| wk_all gs : woke WAll gs (map wake_up gs)
| wk_signal gs i g : gs !! i = Some g → is_waiting g = true → woke WSignal gs (<[i := wake_up g]> gs)
| wk_nobody gs : Forall (λ g, is_waiting g = false) gs → woke WSignal gs gs.

(** What the ways to return a connection call on the condition variable. *)
Definition finish_wake (p : Pool) : wake := if (length (idle p) <? maxIdleCnt p)%nat then WSignal else WAll.
Definition putConn_wake (p : Pool) (pc : nat) (now : Z) : wake :=
  if is_returned p pc || closed p then WNone
  else match objs p !! pc with
       | None => WNone
       | Some o =>
           if (0 <? maxConnLifetime p) && (maxConnLifetime p <? now - createTime o) then WAll
           else if has_ping p then WNone else finish_wake p
       end.
Definition Put_raw_wake (p : Pool) : wake :=
  if closed p then WNone else if (length (idle p) <? maxIdleCnt p)%nat then WSignal else WNone.
Definition markUnhealthy_wake (p : Pool) (pc : nat) : wake := if is_returned p pc then WNone else WAll.

(** ** Steps *)
(** Where a round of the loop of [Get] leads. *)
Definition after_round (o : get_out) : get_pc :=
  match o with GErr _ | GConn _ => QDone | GPing pc => QPing pc | GDial => QDial | GWait => QArm end.
Definition lock_after (i : nat) (o : get_out) : option nat := match o with GWait => Some i | _ => None end.
(** A round by goroutine [i], which holds the mutex. *)
Definition do_round (i : nat) (g : getter) (r : Pool * get_out) (y : psys) : psys :=
  set_lock (lock_after i r.2) (set_getter i (set_gpc (after_round r.2) g) (set_pool r.1 y)).

Inductive get_step (i : nat) : psys → psys → Prop :=
| g_begin y g now : y_gets y !! i = Some g → g_pc g = QNew → y_lock y = None →
    get_step i y (do_round i g (Get_start (y_pool y) now) y)
| g_pinged y g pc ok p r : y_gets y !! i = Some g → g_pc g = QPing pc → y_lock y = None →
    Get_pinged (y_pool y) pc ok = (p, Some r) → get_step i y (set_getter i (set_gpc QDone g) (set_pool p y))
| g_ping_failed y g pc ok p now : y_gets y !! i = Some g → g_pc g = QPing pc → y_lock y = None →
    Get_pinged (y_pool y) pc ok = (p, None) → get_step i y (do_round i g (Get_iter p now) y)
| g_dialed y g conn ptr now : y_gets y !! i = Some g → g_pc g = QDial → y_lock y = None → may_wrap (y_pool y) ptr →
    get_step i y (set_getter i (set_gpc QDone g) (set_pool (Get_dialed (y_pool y) (Some conn) ptr now).1 y))
(** A failed dial: the counter and the broadcast, both without the mutex. *)
| g_dial_err y g now : y_gets y !! i = Some g → g_pc g = QDial →
    get_step i y (set_getter i (set_gpc QDialErr g) (set_pool (Get_dialed (y_pool y) None 0 now).1 y))
| g_dial_bcast y g : y_gets y !! i = Some g → g_pc g = QDialErr →
    get_step i y (set_missed (bool_decide (y_lock y ≠ None)) (set_gets (map wake_up (<[i := set_gpc QDone g]> (y_gets y))) y))
(** [waitWithContext] *)
| g_arm_over y g d : y_gets y !! i = Some g → g_pc g = QArm → g_over g = true →
    get_step i y (set_lock None (set_getter i (set_gpc QDone g) (set_pool (Get_waited (y_pool y) true true d).1 y)))
| g_arm y g : y_gets y !! i = Some g → g_pc g = QArm → g_over g = false →
    get_step i y (set_getter i (set_gpc QArmed (set_after AFSet g)) y)
| g_wait y g : y_gets y !! i = Some g → g_pc g = QArmed →
    get_step i y (set_lock None (set_getter i (set_gpc QWaiting g) y))
| g_woken_err y g d p e : y_gets y !! i = Some g → g_pc g = QWoken → y_lock y = None →
    Get_waited (y_pool y) false (g_over g) d = (p, Some e) →
    get_step i y (set_getter i (set_gpc QDone (stop_after g)) (set_pool p y))
| g_woken y g d p now : y_gets y !! i = Some g → g_pc g = QWoken → y_lock y = None →
    Get_waited (y_pool y) false (g_over g) d = (p, None) →
    get_step i y (do_round i (stop_after g) (Get_iter p now) y)
(** The context is done before [stop] is called. *)
| g_woken_late y g d p now : y_gets y !! i = Some g → g_pc g = QWoken → y_lock y = None →
    Get_waited (y_pool y) false (g_over g) d = (p, None) →
    get_step i y (do_round i (ctx_over g) (Get_iter p now) y)
(** The context and its callback. *)
| g_ctx_over y g : y_gets y !! i = Some g → get_step i y (set_getter i (ctx_over g) y)
| g_callback y g : y_gets y !! i = Some g → g_after g = AFPending →
    get_step i y (set_missed (is_armed g) (set_gets (map wake_up (<[i := set_after AFDone g]> (y_gets y))) y)).

Inductive sys_step : psys → psys → Prop :=
| s_call y over : sys_step y (set_gets (y_gets y ++ [mkGetter QNew over AFNone]) y)
| s_get i y y' : get_step i y y' → sys_step y y'
| s_put y pc now p e gs : y_lock y = None → putConn (y_pool y) pc now = (p, PutRet e) →
    woke (putConn_wake (y_pool y) pc now) (y_gets y) gs → sys_step y (set_gets gs (set_pool p y))
| s_put_ping y pc now p : y_lock y = None → putConn (y_pool y) pc now = (p, PutPing) →
    sys_step y (set_putting (pc :: y_putting y) (set_pool p y))
| s_put_pinged y l1 pc l2 (ok : bool) now gs : y_lock y = None → y_putting y = l1 ++ pc :: l2 →
    woke (if ok then finish_wake (y_pool y) else WAll) (y_gets y) gs →
    sys_step y (set_putting (l1 ++ l2) (set_gets gs (set_pool (putConn_pinged (y_pool y) pc ok now) y)))
| s_put_raw y ptr conn now gs : y_lock y = None → may_wrap (y_pool y) ptr → woke (Put_raw_wake (y_pool y)) (y_gets y) gs →
    sys_step y (set_gets gs (set_pool (Put_raw (y_pool y) ptr conn now).1 y))
| s_unhealthy y pc gs : y_lock y = None → woke (markUnhealthy_wake (y_pool y) pc) (y_gets y) gs →
    sys_step y (set_gets gs (set_pool (markUnhealthy (y_pool y) pc) y))
(** [backgroundCleanup] *)
| s_scan y now p gone ni nl : y_lock y = None → y_cleaner y = KIdle → cleanup_scan (y_pool y) now = (p, (gone, ni, nl)) →
    sys_step y (set_cleaner (match gone with [] => KIdle | _ => KClosing gone ni nl end) (set_pool p y))
| s_close y pc todo ni nl : y_lock y = None → y_cleaner y = KClosing (pc :: todo) ni nl →
    sys_step y (set_cleaner (KClosing todo ni nl) (set_pool (cleanup_close (y_pool y) pc) y))
| s_clean_bcast y ni nl : y_cleaner y = KClosing [] ni nl →
    sys_step y (set_cleaner KIdle (set_gets (map wake_up (y_gets y)) (set_pool (add_stats (y_pool y) ni nl) y)))
(** [Release]; a second call finds the flag set. *)
| s_flag y : y_lock y = None → closed (y_pool y) = false →
    sys_step y (set_release RFlagged (set_pool (Release_flag (y_pool y)).1 y))
| s_rel_bcast y : y_release y = RFlagged → sys_step y (set_release RWaiting (set_gets (map wake_up (y_gets y)) y))
| s_rel_close y : y_lock y = None → y_release y = RWaiting → y_cleaner y = KIdle →
    sys_step y (set_release RDone (set_pool (Release_close (y_pool y)) y)).

Definition new_sys (p : Pool) : psys := mkSys p [] None [] KIdle RNone false.
Definition sys_reachable (y : psys) : Prop :=
  ∃ init maxIdle cap t factory ping life now p0,
    NewPool init maxIdle cap t factory ping life now = inr p0 ∧ rtc sys_step (new_sys p0) y.

(** Nobody inside the pool has anything left to do: every call of [Get] waits or has
    returned, and no broadcast is on its way. *)
Definition at_rest (g : getter) : bool :=
  match g_pc g with QWaiting | QDone => match g_after g with AFPending => false | _ => true end | _ => false end.
Definition quiescent (y : psys) : Prop :=
  Forall (λ g, at_rest g = true) (y_gets y) ∧ y_cleaner y = KIdle ∧ y_release y ≠ RFlagged.
