(* ===== verification/ConnPoolWaitFacts.v ===== *)
(** * No wake-up of the connection pool is lost

    Unless a broadcast comes between a goroutine's decision to wait and its waiting,
    nobody sleeps while a connection or a slot is free or after its context is done.
    The two broadcasts of the code that do not hold the mutex can come there. *)

From S2P Require Import Prelude ConnPool ConnPoolFacts ConnPoolWait.
Local Open Scope Z_scope.

(** ** What a pool has to give *)
Definition avail (p : Pool) : Z := Z.of_nat (length (idle p)) + Z.max 0 (maxConnCap p - connCnt p).
Definition dom_ok (p : Pool) : Prop := ∀ x, x ∈ idle p → is_Some (objs p !! x).
Abbreviation same_dom p p' := (∀ x, is_Some (objs p !! x) → is_Some (objs p' !! x)).

Lemma avail_nonneg p : 0 <= avail p.
Proof. unfold avail. lia. Qed.
Lemma upd_dom p pc f : same_dom p (upd_obj p pc f).
Proof. intros x Hx. simpl. destruct (decide (x = pc)) as [->|]; [rewrite lookup_alter_eq; by apply fmap_is_Some|by rewrite lookup_alter_ne]. Qed.
Lemma close_dom p pc : same_dom p (closeConnLocked p pc).
Proof. intros x. apply (upd_dom p pc drop_conn x). Qed.

(** A round takes what it closes and one more, or finds nothing. *)
Lemma getIdle_avail now l : ∀ p, (∀ x, x ∈ l → is_Some (objs p !! x)) →
  let '(p', o) := getIdle_loop p l now in
  same_dom p p' ∧ (∀ x, x ∈ idle p' → x ∈ l) ∧ maxConnCap p' = maxConnCap p ∧ closed p' = closed p ∧
  match o with
  | NoIdle => idle p' = [] ∧ connCnt p' = connCnt p - Z.of_nat (length l)
  | _ => avail p' <= Z.of_nat (length l) + Z.max 0 (maxConnCap p - connCnt p) - 1
  end.
Proof.
  induction l as [|pc l IH]; intros p Hd; simpl.
  - split_and!; [by intros x|done|done|done|done|lia].
  - destruct (Hd pc) as [o Ho]; [by left|]. rewrite Ho.
    assert (Hr : ∀ a b, let '(p', o) := getIdle_loop (add_stats (closeConnLocked p pc) a b) l now in
      same_dom p p' ∧ (∀ x, x ∈ idle p' → x ∈ pc :: l) ∧ maxConnCap p' = maxConnCap p ∧ closed p' = closed p ∧
      match o with
      | NoIdle => idle p' = [] ∧ connCnt p' = connCnt p - Z.of_nat (S (length l))
      | _ => avail p' <= Z.of_nat (S (length l)) + Z.max 0 (maxConnCap p - connCnt p) - 1
      end).
    { intros a b. specialize (IH (add_stats (closeConnLocked p pc) a b)).
      destruct (getIdle_loop (add_stats (closeConnLocked p pc) a b) l now) as [p' o'].
      destruct IH as (H1 & H2 & H3 & H4 & H5). { intros x Hx. apply close_dom, Hd. by right. }
      split_and!; [intros x Hx; by apply H1, close_dom|intros x Hx; right; by apply H2|done|done|].
      simpl in *. destruct o'; [split; [apply H5|lia]|lia..]. }
    destruct (idle_expired p o now); [apply Hr|]. destruct (too_old p o now); [apply Hr|].
    destruct (has_ping p); simpl; (split_and!; [|intros x Hx; by right|done|done|unfold avail; simpl; lia]).
    + by intros x.
    + intros x Hx. by apply (upd_dom (set_idle p l) pc (set_returned false)).
Qed.
Lemma Get_iter_avail p now p' o : dom_ok p → Get_iter p now = (p', o) →
  same_dom p p' ∧ dom_ok p' ∧ closed p' = closed p ∧ (∀ e, o ≠ GErr e) ∧ (o = GWait → avail p' = 0) ∧ (o ≠ GWait → avail p' <= avail p - 1).
Proof.
  intros Hd. unfold Get_iter, getIdleConnLocked. pose proof (getIdle_avail now (idle p) p Hd) as H.
  destruct (getIdle_loop p (idle p) now) as [p1 o1]. destruct H as (H1 & H2 & H3 & H4 & H5).
  assert (Hd1 : dom_ok p1) by (intros x Hx; apply H1, Hd; by apply H2).
  destruct o1 as [|pc|pc]; [|intros [= <- <-]; split_and!; done..]. destruct H5 as [Hi Hc].
  destruct (Z.ltb_spec (connCnt p1) (maxConnCap p1)); intros [= <- <-]; split_and!; try done.
  - intros _. unfold avail. simpl. rewrite Hi. simpl. lia.
  - intros _. unfold avail. simpl. rewrite Hi. simpl. lia.
Qed.

(** A change of the pool that gives at most [d] more. *)
Record gives (d : Z) (p p' : Pool) : Prop := {
  gv_dom : same_dom p p'; gv_idle : dom_ok p → dom_ok p'; gv_closed : closed p' = closed p;
  gv_avail : closed p = false → avail p' <= avail p + d }.
Lemma gives_mono d d' p p' : d <= d' → gives d p p' → gives d' p p'.
Proof. intros Hd [H1 H2 H3 H4]. split; [done..|]. intros Hc. specialize (H4 Hc). lia. Qed.
Lemma gives_closed d d' p p' : closed p = true → gives d p p' → gives d' p p'.
Proof. intros Hc [H1 H2 H3 _]. split; [done..|]. congruence. Qed.
Lemma gives_same p p' : same_dom p p' → idle p' = idle p → closed p' = closed p → connCnt p' = connCnt p → maxConnCap p' = maxConnCap p →
  gives 0 p p'.
Proof.
  intros H1 H2 H3 H4 H5. split; [done| |done|].
  - intros Hd x. rewrite H2. intros Hx. by apply H1, Hd.
  - intros _. unfold avail. rewrite H2, H4, H5. lia.
Qed.
Lemma gives_close p p1 pc : same_dom p p1 → idle p1 = idle p → closed p1 = closed p → connCnt p1 = connCnt p → maxConnCap p1 = maxConnCap p →
  gives 1 p (closeConnLocked p1 pc).
Proof.
  intros H1 H2 H3 H4 H5. split; simpl; [intros x Hx; by apply close_dom, H1| |done|].
  - intros Hd x. simpl. rewrite H2. intros Hx. by apply (close_dom p1 pc), H1, Hd.
  - intros _. unfold avail. simpl. rewrite H2, H4, H5. lia.
Qed.

Lemma gives_stats d p p' a b : gives d p p' → gives d p (add_stats p' a b).
Proof. by intros [H1 H2 H3 H4]. Qed.

Lemma Get_pinged_gives p pc ok p' r : Get_pinged p pc ok = (p', r) → gives (match r with None => 1 | Some _ => 0 end) p p'.
Proof.
  unfold Get_pinged. cbn [closed set_limbo]. destruct (closed p) eqn:Hc.
  - intros [= <- <-]. apply (gives_closed 1); [done|]. by apply gives_close.
  - destruct ok; simpl; intros [= <- <-]; [|by apply gives_close].
    apply gives_same; try done. intros x Hx. by apply (upd_dom (set_limbo p (limbo p ∖ {[pc]})) pc (set_returned false)).
Qed.
Lemma wrap_dom p ptr conn now : same_dom p (wrapConn p ptr conn now).
Proof. intros x Hx. simpl. destruct (decide (x = ptr)) as [->|]; [by rewrite lookup_insert_eq|by rewrite lookup_insert_ne]. Qed.
Lemma Get_dialed_gives p conn ptr now : gives 0 p (Get_dialed p (Some conn) ptr now).1.
Proof.
  unfold Get_dialed. cbn [closed wrapConn set_objs set_free set_dials]. destruct (closed p) eqn:Hc.
  - apply (gives_closed 1); [done|]. apply gives_close; try done. intros x Hx. by apply (wrap_dom (set_dials p (dials p - 1) (connCnt p))).
  - apply gives_same; try done. intros x Hx. by apply (wrap_dom (set_dials p (dials p - 1) (connCnt p))).
Qed.
Lemma dial_err_gives p ptr now : gives 1 p (Get_dialed p None ptr now).1.
Proof. split; [by intros x|done|done|]. intros _. unfold avail. simpl. lia. Qed.

(** [Signal] goes with one more, nothing with no more. *)
Definition wake_credit (w : wake) : Z := match w with WNone => 0 | _ => 1 end.
Lemma finish_put_gives p p1 pc now : same_dom p p1 → idle p1 = idle p → closed p1 = closed p → connCnt p1 = connCnt p →
  maxConnCap p1 = maxConnCap p → is_Some (objs p !! pc) → gives 1 p (finish_put p1 pc now).
Proof.
  intros H1 H2 H3 H4 H5 Hpc. unfold finish_put. cbn [idle maxIdleCnt upd_obj set_objs].
  assert (Hs : same_dom p (upd_obj p1 pc (set_lastActive now))) by (intros x Hx; by apply upd_dom, H1).
  destruct (length (idle p1) <? maxIdleCnt p1)%nat; [|by apply gives_close].
  split; [done| |done|].
  - intros Hd x. simpl. rewrite H2. intros [->|Hx]%elem_of_cons; apply Hs; [done|by apply Hd].
  - intros _. unfold avail. simpl. rewrite H2, H4, H5. lia.
Qed.
Lemma finish_wake_credit p : wake_credit (finish_wake p) = 1.
Proof. unfold finish_wake. by destruct (_ <? _)%nat. Qed.
Lemma putConn_gives p pc now p' o : putConn p pc now = (p', o) →
  gives (match o with PutPing => 0 | PutRet _ => wake_credit (putConn_wake p pc now) end) p p' ∧
  (o = PutPing → is_Some (objs p !! pc)).
Proof.
  unfold putConn, putConn_wake. destruct (is_returned p pc) eqn:Hret; simpl.
  { intros [= <- <-]. split; [|done]. by apply gives_same. }
  destruct (closed p) eqn:Hc.
  { intros [= <- <-]. split; [|done]. apply (gives_closed 1); [done|]. apply gives_close; try done. by apply upd_dom. }
  rewrite lookup_alter_eq. destruct (objs p !! pc) as [ob|] eqn:Ho; simpl; rewrite ?Ho.
  - destruct ((0 <? maxConnLifetime p) && (maxConnLifetime p <? now - createTime ob)).
    { intros [= <- <-]. split; [|done]. apply gives_stats, (gives_close p (set_active (upd_obj p pc (set_returned true)) (active p ∖ {[pc]}))); try done. apply (upd_dom p pc). }
    destruct (has_ping p).
    + intros [= <- <-]. split; [|done]. apply gives_same; try done. apply (upd_dom p pc).
    + intros [= <- <-]. split; [|done]. rewrite finish_wake_credit. apply finish_put_gives; try done. apply (upd_dom p pc).
  - intros [= <- <-]. split; [|done]. apply gives_same; try done. apply (upd_dom p pc).
Qed.
Lemma putConn_pinged_gives p pc ok now : is_Some (objs p !! pc) → gives 1 p (putConn_pinged p pc ok now).
Proof. intros Hpc. unfold putConn_pinged. destruct ok; [by apply finish_put_gives|by apply gives_close]. Qed.
Lemma Put_raw_gives p ptr conn now : gives (wake_credit (Put_raw_wake p)) p (Put_raw p ptr conn now).1.
Proof.
  unfold Put_raw, Put_raw_wake. destruct (closed p) eqn:Hc; [by apply gives_same|]. simpl.
  assert (Hs : same_dom p (wrapConn (set_free p (free p) (connCnt p + 1)) ptr conn now)) by (intros x Hx; by apply wrap_dom).
  destruct (length (idle p) <? maxIdleCnt p)%nat; simpl.
  - split; [done| |done|].
    + intros Hd x. simpl. intros [->|Hx]%elem_of_cons; [by rewrite lookup_insert_eq|]. by apply Hs, Hd.
    + intros _. unfold avail. simpl. lia.
  - split; [| |done|].
    + intros x Hx. by apply close_dom, Hs.
    + intros Hd x Hx. apply close_dom, Hs. by apply Hd.
    + intros _. unfold avail. simpl. lia.
Qed.
Lemma markUnhealthy_gives p pc : gives (wake_credit (markUnhealthy_wake p pc)) p (markUnhealthy p pc).
Proof.
  unfold markUnhealthy, markUnhealthy_wake. destruct (is_returned p pc); [by apply gives_same|].
  apply gives_close; try done. apply (upd_dom p pc).
Qed.
Lemma scan_gives p now : gives 0 p (cleanup_scan p now).1.
Proof.
  unfold cleanup_scan. destruct (closed p) eqn:Hc; [by apply gives_same|]. split; simpl; [by intros x| |done|].
  - intros Hd x. simpl. intros [Hx _]%elem_of_bfilter. by apply Hd.
  - intros _. unfold avail. simpl. pose proof (filter_length_le (λ pc, negb (stale p now pc)) (idle p)). lia.
Qed.
Lemma Get_waited_gives p b a d : gives 0 p (Get_waited p b a d).1.
Proof. unfold Get_waited. destruct b; [|destruct (closed (add_wait p 0 d)); [|destruct a]]; by apply gives_same. Qed.

(** ** Invariant *)
Definition arming (g : getter) : bool := match g_pc g with QArm | QArmed => true | _ => false end.
Definition dial_err (g : getter) : bool := match g_pc g with QDialErr => true | _ => false end.
(** A broadcast is on its way. *)
Definition pend (g : getter) : bool := dial_err g || match g_after g with AFPending => true | _ => false end.
(** Will run a round. *)
Definition fresh (g : getter) : Z := match g_pc g with QWoken => if g_over g then 0 else 1 | _ => 0 end.
Definition awake (gs : list getter) : Z := sumZ (map fresh gs).
Definition ctx_ok (g : getter) : Prop :=
  (g_after g = AFPending → g_over g = true) ∧
  match g_pc g with
  | QArmed | QWaiting => g_after g = if g_over g then AFPending else AFSet
  | QWoken => g_over g = false → g_after g = AFSet
  | _ => True
  end.
Definition nobody_waits (gs : list getter) : Prop := Forall (λ g, is_waiting g = false) gs.
(** Somebody who waits while there is something to give will be woken, or enough
    others are awake to take it. *)
Definition wait_ok (p : Pool) (gs : list getter) (k : cleaner_pc) : Prop :=
  nobody_waits gs ∨ Exists (λ g, pend g = true) gs ∨ k ≠ KIdle ∨ avail p <= awake gs.
(** Who is about to wait has found nothing. *)
Definition arm_ok (p : Pool) (gs : list getter) (l : option nat) : Prop :=
  l = None ∨ Exists (λ g, dial_err g = true) gs ∨ avail p = 0.
Definition lock_ok (gs : list getter) (l : option nat) : Prop :=
  ∀ i, l = Some i ↔ ∃ g, gs !! i = Some g ∧ arming g = true.
Record sys_ok (y : psys) : Prop := {
  so_dom : dom_ok (y_pool y);
  so_put : ∀ x, x ∈ y_putting y → is_Some (objs (y_pool y) !! x);
  so_lock : lock_ok (y_gets y) (y_lock y);
  so_closed : closed (y_pool y) = true → y_lock y = None ∧ (y_release y ≠ RFlagged → nobody_waits (y_gets y));
  so_rel : y_release y ≠ RNone → closed (y_pool y) = true;
  so_live : y_missed y = false → closed (y_pool y) = false →
    Forall ctx_ok (y_gets y) ∧ wait_ok (y_pool y) (y_gets y) (y_cleaner y) ∧ arm_ok (y_pool y) (y_gets y) (y_lock y) }.

Lemma Exists_insert_mono {A} (P : A → Prop) l i x x' : l !! i = Some x → (P x → P x') → Exists P l → Exists P (<[i := x']> l).
Proof.
  intros Hi Hp He.
  apply Exists_exists in He as (z & [j Hj]%list_elem_of_lookup & Hz). apply Exists_exists.
  destruct (decide (i = j)) as [->|Hne].
  - exists x'. split; [|apply Hp; by simplify_eq]. apply (list_elem_of_lookup_2 _ j). rewrite list_lookup_insert_eq; [done|]. by eapply lookup_lt_Some.
  - exists z. split; [|done]. apply (list_elem_of_lookup_2 _ j). by rewrite list_lookup_insert_ne.
Qed.
Lemma fresh_nonneg g : 0 <= fresh g <= 1.
Proof. unfold fresh. destruct (g_pc g); try lia. destruct (g_over g); lia. Qed.
Lemma awake_nonneg gs : 0 <= awake gs.
Proof. unfold awake. induction gs as [|g gs IH]; simpl; [lia|]. pose proof (fresh_nonneg g). lia. Qed.

Lemma lock_insert gs l i g g' : lock_ok gs l → gs !! i = Some g → arming g' = arming g → lock_ok (<[i := g']> gs) l.
Proof.
  intros Hl Hi Ha j. rewrite (Hl j). pose proof (lookup_lt_Some _ _ _ Hi). destruct (decide (i = j)) as [<-|Hne].
  - rewrite list_lookup_insert_eq by done. rewrite Hi. split; intros (z & [= <-] & Hz); eexists; (split; [done|congruence]).
  - by rewrite list_lookup_insert_ne.
Qed.
Lemma lock_free gs l i g : lock_ok gs l → gs !! i = Some g → l = None → arming g = false.
Proof. intros Hl Hi ->. destruct (arming g) eqn:E; [|done]. by assert (None = Some i) as ? by (apply Hl; eauto). Qed.
Lemma lock_take gs i g g' : lock_ok gs None → gs !! i = Some g → arming g' = true → lock_ok (<[i := g']> gs) (Some i).
Proof.
  intros Hl Hi Ha j. pose proof (lookup_lt_Some _ _ _ Hi). destruct (decide (i = j)) as [<-|Hne].
  - rewrite list_lookup_insert_eq by done. split; [eauto|done].
  - rewrite list_lookup_insert_ne by done. rewrite <- (Hl j). split; [by intros [= ->]|done].
Qed.
Lemma lock_drop gs l i g g' : lock_ok gs l → gs !! i = Some g → arming g = true → arming g' = false → lock_ok (<[i := g']> gs) None.
Proof.
  intros Hl Hi Ha Ha' j. assert (Hli : l = Some i) by (apply Hl; eauto). pose proof (lookup_lt_Some _ _ _ Hi). split; [done|].
  destruct (decide (i = j)) as [<-|Hne].
  - rewrite list_lookup_insert_eq by done. intros (z & [= <-] & Hz). congruence.
  - rewrite list_lookup_insert_ne by done. intros Hz. apply (Hl j) in Hz. congruence.
Qed.
(** Waking changes neither locks nor broadcasts. *)
Definition woken_from (g g' : getter) : Prop := g' = g ∨ (is_waiting g = true ∧ g' = set_gpc QWoken g).
Lemma wake_up_from g : woken_from g (wake_up g).
Proof. unfold wake_up. destruct (is_waiting g) eqn:E; [by right|by left]. Qed.
Lemma woke_from w gs gs' : woke w gs gs' → Forall2 woken_from gs gs'.
Proof.
  destruct 1 as [gs|gs|gs i g Hi Hw|gs Hn].
  - apply Forall2_same_length_lookup. split; [done|]. intros i x y Hx Hy. left. congruence.
  - induction gs as [|g gs IH]; simpl; [constructor|]. constructor; [apply wake_up_from|done].
  - apply Forall2_same_length_lookup. rewrite length_insert. split; [done|]. intros j x y Hx [(<- & <- & _)|(_ & Hy)]%list_lookup_insert_Some.
    + assert (x = g) as -> by congruence. apply wake_up_from.
    + left. congruence.
  - apply Forall2_same_length_lookup. split; [done|]. intros i x y Hx Hy. left. congruence.
Qed.
Lemma from_arming g g' : woken_from g g' → arming g' = arming g.
Proof. intros [->|[Hw ->]]; [done|]. unfold is_waiting, arming in *. by destruct (g_pc g). Qed.
Lemma from_pend g g' : woken_from g g' → pend g' = pend g ∧ dial_err g' = dial_err g.
Proof. intros [->|[Hw ->]]; [done|]. unfold is_waiting, pend, dial_err in *. by destruct (g_pc g). Qed.
Lemma from_ctx g g' : woken_from g g' → ctx_ok g → ctx_ok g'.
Proof.
  intros [->|[Hw ->]]; [done|]. unfold is_waiting, ctx_ok in *. destruct (g_pc g); try done. simpl.
  intros [Ho Hg]. split; [done|]. by intros H; rewrite H in Hg.
Qed.
Lemma from_waits g g' : woken_from g g' → is_waiting g = false → is_waiting g' = false.
Proof. by intros [->|[Hw ->]]. Qed.

Lemma lock_from gs gs' l : Forall2 woken_from gs gs' → lock_ok gs l → lock_ok gs' l.
Proof.
  intros Hf Hl i. rewrite (Hl i). split.
  - intros (g & Hi & Ha). destruct (Forall2_lookup_l _ _ _ _ _ Hf Hi) as (g' & Hi' & Hg). exists g'. split; [done|]. by rewrite (from_arming _ _ Hg).
  - intros (g' & Hi & Ha). destruct (Forall2_lookup_r _ _ _ _ _ Hf Hi) as (g & Hi' & Hg). exists g. split; [done|]. by rewrite <- (from_arming _ _ Hg).
Qed.
Lemma Exists_from (P : getter → bool) gs gs' : (∀ g g', woken_from g g' → P g' = P g) → Forall2 woken_from gs gs' →
  Exists (λ g, P g = true) gs → Exists (λ g, P g = true) gs'.
Proof.
  intros HP. induction 1 as [|g g' gs gs' Hg _ IH]; intros He; [by inversion He|].
  apply Exists_cons in He as [He|He]; apply Exists_cons; [left|right; auto]. by rewrite (HP _ _ Hg).
Qed.
Lemma Forall_from (P : getter → Prop) gs gs' : (∀ g g', woken_from g g' → P g → P g') → Forall2 woken_from gs gs' →
  Forall P gs → Forall P gs'.
Proof. intros HP. induction 1; intros Hf; [done|]. apply Forall_cons in Hf as [? ?]. constructor; eauto. Qed.
Lemma all_woken gs : nobody_waits (map wake_up gs).
Proof.
  unfold nobody_waits. induction gs as [|g gs IH]; simpl; constructor; [|done].
  unfold wake_up. destruct (is_waiting g) eqn:E; [done|exact E].
Qed.

(** ** Steps of one goroutine *)
Lemma move_ok y i g g' p' l' : sys_ok y → y_gets y !! i = Some g →
  same_dom (y_pool y) p' → dom_ok p' → closed p' = closed (y_pool y) → (is_waiting g = false → is_waiting g' = false) →
  lock_ok (<[i := g']> (y_gets y)) l' → (closed (y_pool y) = true → l' = None) →
  (closed (y_pool y) = false → ctx_ok g → arm_ok (y_pool y) (y_gets y) (y_lock y) →
     ctx_ok g' ∧ (pend g = true → pend g' = true) ∧
     (avail p' + fresh g <= avail (y_pool y) + fresh g' ∨ avail p' = 0 ∨ pend g' = true) ∧
     arm_ok p' (<[i := g']> (y_gets y)) l') →
  sys_ok (set_lock l' (set_getter i g' (set_pool p' y))).
Proof.
  intros Hy Hi Hsd Hd Hc Hw Hl Hcl Hlive. split; simpl; [done| |done| |rewrite Hc; apply Hy|].
  - intros x Hx. by apply Hsd, (so_put y Hy).
  - rewrite Hc. intros Hcl'. split; [by apply Hcl|]. intros Hr.
    assert (Hn : nobody_waits (y_gets y)) by (by apply (so_closed y Hy)). apply Forall_insert; [done|]. by apply Hw, (Forall_lookup_1 _ _ _ _ Hn Hi).
  - rewrite Hc. intros Hm Hop. destruct (so_live y Hy Hm Hop) as (Hctx & Hwait & Harm).
    pose proof (Forall_lookup_1 _ _ _ _ Hctx Hi) as Hg.
    destruct (Hlive Hop Hg Harm) as (Hg' & Hp & Ha & Harm'). split_and!; [by apply Forall_insert| |done].
    assert (Hpend : pend g' = true → Exists (λ g, pend g = true) (<[i := g']> (y_gets y))).
    { intros Hp'. apply Exists_exists. exists g'. split; [|done]. apply (list_elem_of_lookup_2 _ i).
      apply list_lookup_insert_eq. by eapply lookup_lt_Some. }
    destruct Hwait as [Hn|[He|[Hk|Hav]]].
    + left. apply Forall_insert; [done|]. by apply Hw, (Forall_lookup_1 _ _ _ _ Hn Hi).
    + right; left. by eapply Exists_insert_mono.
    + by right; right; left.
    + destruct Ha as [Ha|[Ha|Ha]]; [|right; right; right|right; left; by apply Hpend].
      * right; right; right. unfold awake in *. rewrite (sum_map_insert fresh _ _ _ _ Hi). lia.
      * rewrite Ha. apply awake_nonneg.
Qed.

(** A round. *)
Lemma round_ok y i g g0 p1 now : sys_ok y → y_gets y !! i = Some g → y_lock y = None → dial_err g = false →
  (g_after g = AFPending → g_after g0 = AFPending) → (ctx_ok g → g_after g0 = AFPending → g_over g0 = true) →
  same_dom (y_pool y) p1 → dom_ok p1 → closed p1 = closed (y_pool y) → closed (y_pool y) = false →
  avail p1 + fresh g <= avail (y_pool y) + 1 →
  sys_ok (do_round i g0 (Get_iter p1 now) y).
Proof.
  intros Hy Hi Hl He Hpa Hov Hsd Hd Hc Hop Hav. destruct (Get_iter p1 now) as [p2 o] eqn:E.
  destruct (Get_iter_avail p1 now p2 o Hd E) as (H1 & H2 & H3 & H4 & H5 & H6). pose proof (so_lock y Hy) as Hlk. rewrite Hl in Hlk.
  pose proof (lock_free _ _ _ _ Hlk Hi eq_refl) as Har. unfold do_round. simpl. apply (move_ok y i g); auto.
  - congruence.
  - by destruct o.
  - destruct o; simpl; try (by apply (lock_insert _ _ _ g)). by apply (lock_take _ _ g).
  - congruence.
  - intros _ Hg _. split_and!.
    + split; [by apply Hov|by destruct o].
    + unfold pend. rewrite He. simpl. destruct (g_after g); try done. rewrite (Hpa eq_refl), orb_true_r. done.
    + assert (fresh (set_gpc (after_round o) g0) = 0) as -> by (by destruct o). destruct o; first [right; left; by apply H5|left; specialize (H6 ltac:(done)); lia].
    + unfold arm_ok. destruct o; simpl; auto.
Qed.

(** A broadcast, after goroutine [i] has become [g']. *)
Lemma bcast_ok y i g g' b : sys_ok y → y_gets y !! i = Some g → arming g' = arming g → 
  (ctx_ok g → b = false → ctx_ok (wake_up g')) → (b = false → dial_err g' = dial_err g ∨ y_lock y = None) →
  sys_ok (set_missed b (set_gets (map wake_up (<[i := g']> (y_gets y))) y)).
Proof.
  intros Hy Hi Ha Hctx Hde.
  assert (Hf : Forall2 woken_from (<[i := g']> (y_gets y)) (map wake_up (<[i := g']> (y_gets y)))) by (apply (woke_from WAll); constructor).
  split; simpl; [apply Hy|apply Hy| | |apply Hy|].
  - eapply lock_from; [exact Hf|]. eapply lock_insert; [apply Hy|done..].
  - intros Hc. split; [by apply (so_closed y Hy)|]. intros _. apply all_woken.
  - intros [Hm Hb]%orb_false_iff Hop. destruct (so_live y Hy Hm Hop) as (Hc & _ & Harm).
    pose proof (Forall_lookup_1 _ _ _ _ Hc Hi) as Hg. split_and!.
    + change (map wake_up) with (fmap (M := list) wake_up). rewrite list_fmap_insert.
      apply Forall_insert; [|by apply Hctx]. apply Forall_fmap. eapply Forall_impl; [exact Hc|]. intros x Hx. simpl.
      eapply from_ctx; [apply wake_up_from|done].
    + left. apply all_woken.
    + destruct Harm as [Hn|[He|Hz]]; [by left| |by right; right]. destruct (Hde Hb) as [Hd|Hn]; [|by left]. right; left.
      eapply (Exists_from dial_err); [intros ? ? Hxy; by apply from_pend|exact Hf|]. eapply Exists_insert_mono; [done| |exact He]. by rewrite Hd.
Qed.

(** The goroutine goes where it neither waits nor holds the mutex, and the pool gives
    no more than before. *)
Lemma leave_ok y i g g' p' : sys_ok y → y_gets y !! i = Some g → gives 0 (y_pool y) p' →
  is_waiting g' = false → arming g = false → arming g' = false → dial_err g = false →
  (closed (y_pool y) = false → fresh g = 0) → (ctx_ok g → ctx_ok g') →
  (pend g = true → pend g' = true) → sys_ok (set_getter i g' (set_pool p' y)).
Proof.
  intros Hy Hi [H1 H2 H3 H4] Hw Ha Ha' He Hf Hc Hp. apply (move_ok y i g g' p' (y_lock y)); auto.
  - by apply H2, Hy.
  - eapply lock_insert; [apply Hy|done|congruence].
  - intros Hcl. by apply (so_closed y Hy).
  - intros Hop Hg Harm. split_and!; [by apply Hc|done|left; specialize (H4 Hop); specialize (Hf Hop); pose proof (fresh_nonneg g'); lia|].
    destruct Harm as [Hn|[Hx|Hz]]; [by left|right; left|right; right].
    + eapply Exists_insert_mono; [done| |exact Hx]. by rewrite He.
    + specialize (H4 Hop). pose proof (avail_nonneg p'). lia.
Qed.
Lemma pend_set_gpc q g : dial_err g = false → pend g = true → pend (set_gpc q g) = true.
Proof. unfold pend. intros ->. simpl. intros ->. by rewrite orb_true_r. Qed.
Lemma pend_stop g : g_after g = AFPending → g_after (stop_after g) = AFPending.
Proof. by intros H; simpl; rewrite H. Qed.
Lemma pend_over g : g_after g = AFPending → g_after (ctx_over g) = AFPending.
Proof. by intros H; simpl; rewrite H. Qed.

(** Facts about a goroutine at a known place. *)
Ltac at_pc H := unfold is_waiting, arming, dial_err, fresh, ctx_ok, is_armed, set_gpc, set_after, stop_after, ctx_over, wake_up in *;
  simpl in *; rewrite ?H in *; simpl in *.

Lemma woken_ok y i g g0 d p now : sys_ok y → y_gets y !! i = Some g → g_pc g = QWoken → y_lock y = None →
  (g_after g = AFPending → g_after g0 = AFPending) → (ctx_ok g → g_after g0 = AFPending → g_over g0 = true) →
  Get_waited (y_pool y) false (g_over g) d = (p, None) → sys_ok (do_round i g0 (Get_iter p now) y).
Proof.
  intros Hy Hi Hpc Hl Hg0 Hov E. pose proof (Get_waited_gives (y_pool y) false (g_over g) d) as H. rewrite E in H. destruct H as [H1 H2 H3 H4].
  assert (Hop : closed (y_pool y) = false).
  { revert E. unfold Get_waited. simpl. by destruct (closed (y_pool y)). }
  apply (round_ok y i g); auto.
  - by at_pc Hpc.
  - by apply H2, Hy.
  - specialize (H4 Hop). simpl in *. pose proof (fresh_nonneg g). lia.
Qed.

(** A failed dial gives its slot back. *)
Lemma dial_err_ok y i g now : sys_ok y → y_gets y !! i = Some g → g_pc g = QDial →
  sys_ok (set_getter i (set_gpc QDialErr g) (set_pool (Get_dialed (y_pool y) None 0 now).1 y)).
Proof.
  intros Hy Hi Hpc. destruct (dial_err_gives (y_pool y) 0 now) as [H1 H2 H3 H4].
  apply (move_ok y i g (set_gpc QDialErr g) _ (y_lock y)); auto; [by apply H2, Hy| | |].
  - eapply lock_insert; [apply Hy|done|by at_pc Hpc].
  - intros Hcl. by apply (so_closed y Hy).
  - intros Hop [? _] _. split_and!; [done|done|by right; right|]. right; left. apply Exists_exists. exists (set_gpc QDialErr g). split; [|done].
    apply (list_elem_of_lookup_2 _ i), list_lookup_insert_eq. by eapply lookup_lt_Some.
Qed.
(** The callback is set. *)
Lemma arm_step_ok y i g : sys_ok y → y_gets y !! i = Some g → g_pc g = QArm → g_over g = false →
  sys_ok (set_getter i (set_gpc QArmed (set_after AFSet g)) y).
Proof.
  intros Hy Hi Hpc Ho. apply (move_ok y i g _ (y_pool y) (y_lock y)); auto; try (by at_pc Hpc); [apply Hy| | |].
  - eapply lock_insert; [apply Hy|done|by at_pc Hpc].
  - intros Hcl. by apply (so_closed y Hy).
  - intros _ [Hg _] Harm. split_and!; [split; [done|]; simpl; by rewrite Ho| | |].
    + unfold pend. at_pc Hpc. destruct (g_after g); try done. specialize (Hg eq_refl). congruence.
    + left. at_pc Hpc. lia.
    + destruct Harm as [?|[?|?]]; [by left| |by right; right]. right; left. eapply Exists_insert_mono; [done| |done]. by at_pc Hpc.
Qed.
(** From [cond.Wait]'s caller to a waiter. *)
Lemma wait_step_ok y i g : sys_ok y → y_gets y !! i = Some g → g_pc g = QArmed →
  sys_ok (set_lock None (set_getter i (set_gpc QWaiting g) y)).
Proof.
  intros Hy Hi Hpc. assert (Hl : y_lock y = Some i) by (apply (so_lock y Hy); exists g; by at_pc Hpc).
  split; simpl; [apply Hy|apply Hy| | |apply Hy|].
  - eapply lock_drop; [apply Hy|done|by at_pc Hpc..].
  - intros Hc. destruct (so_closed y Hy Hc) as [Hn _]. congruence.
  - intros Hm Hop. destruct (so_live y Hy Hm Hop) as (Hctx & _ & Harm). split_and!; [| |by left].
    + apply Forall_insert; [done|]. pose proof (Forall_lookup_1 _ _ _ _ Hctx Hi) as Hg. unfold ctx_ok in *. rewrite Hpc in Hg. done.
    + destruct Harm as [?|[He|Hz]]; [congruence| |].
      * right; left. apply Exists_exists in He as (z & [j Hj]%list_elem_of_lookup & Hz). apply Exists_exists. exists z. split.
        -- apply (list_elem_of_lookup_2 _ j). rewrite list_lookup_insert_ne; [done|]. intros ->. assert (z = g) as -> by congruence. by at_pc Hpc.
        -- unfold pend. by rewrite Hz.
      * right; right; right. rewrite Hz. apply awake_nonneg.
Qed.
(** The context of any goroutine ends. *)
Lemma over_ok y i g : sys_ok y → y_gets y !! i = Some g → sys_ok (set_getter i (ctx_over g) y).
Proof.
  intros Hy Hi. apply (move_ok y i g _ (y_pool y) (y_lock y)); auto; [apply Hy| | |].
  - eapply lock_insert; [apply Hy|done|done].
  - intros Hcl. by apply (so_closed y Hy).
  - intros Hop [Ho Hg] Harm. split_and!.
    + split; [done|]. unfold ctx_ok, ctx_over in *. simpl. destruct (g_pc g); try done; destruct (g_over g), (g_after g); try done; by rewrite Hg.
    + unfold pend, dial_err. simpl. destruct (g_after g); rewrite ?orb_true_r; auto.
    + unfold fresh, pend. simpl. destruct (g_pc g) eqn:E; try (left; lia). destruct (g_over g); [left; lia|]. right; right.
      rewrite (Hg eq_refl). by rewrite orb_true_r.
    + destruct Harm as [?|[He|?]]; [by left| |by right; right]. right; left. by eapply Exists_insert_mono.
Qed.

Lemma get_step_ok i y y' : sys_ok y → get_step i y y' → sys_ok y'.
Proof.
  intros Hy Hs. destruct Hs as [y g now Hi Hpc Hl|y g pc ok p r Hi Hpc Hl E|y g pc ok p now Hi Hpc Hl E|y g conn ptr now Hi Hpc Hl _|y g now Hi Hpc|y g Hi Hpc
    |y g d Hi Hpc Ho|y g Hi Hpc Ho|y g Hi Hpc|y g d p e Hi Hpc Hl E|y g d p now Hi Hpc Hl E|y g d p now Hi Hpc Hl E|y g Hi|y g Hi Ha].
  - unfold Get_start. destruct (closed (y_pool y)) eqn:Hc.
    + unfold do_round. simpl. rewrite <- Hl. apply (leave_ok y i g); auto; try (by at_pc Hpc); [by apply gives_same|].
      apply pend_set_gpc. by at_pc Hpc.
    + apply (round_ok y i g); auto; [by at_pc Hpc|by intros [? _]|apply Hy|]. at_pc Hpc. lia.
  - apply (leave_ok y i g); auto; try (by at_pc Hpc); [exact (Get_pinged_gives _ _ _ _ _ E)|]. apply pend_set_gpc. by at_pc Hpc.
  - destruct (Get_pinged_gives _ _ _ _ _ E) as [H1 H2 H3 H4].
    assert (Hop : closed (y_pool y) = false) by (revert E; unfold Get_pinged; simpl; by destruct (closed (y_pool y))).
    apply (round_ok y i g); auto; [by at_pc Hpc|by intros [? _]|by apply H2, Hy|]. specialize (H4 Hop). at_pc Hpc. lia.
  - apply (leave_ok y i g); auto; try (by at_pc Hpc); [apply Get_dialed_gives|]. apply pend_set_gpc. by at_pc Hpc.
  - by apply dial_err_ok.
  - apply (bcast_ok y i g); auto; try (by at_pc Hpc). intros Hb. right. by apply bool_decide_eq_false, dec_stable in Hb.
  - destruct (Get_waited_gives (y_pool y) true true d) as [H1 H2 H3 H4]. apply (move_ok y i g); auto; try (by at_pc Hpc); [by apply H2, Hy| |].
    + eapply lock_drop; [apply Hy|done|by at_pc Hpc..].
    + intros Hop [? _] _. specialize (H4 Hop). split_and!; [done|apply pend_set_gpc; by at_pc Hpc| |by left]. left. at_pc Hpc. lia.
  - by apply arm_step_ok.
  - by apply wait_step_ok.
  - pose proof (Get_waited_gives (y_pool y) false (g_over g) d) as H. rewrite E in H.
    apply (leave_ok y i g); auto; try (by at_pc Hpc).
    + intros Hop. revert E. unfold Get_waited. simpl. rewrite Hop. unfold fresh. rewrite Hpc. by destruct (g_over g).
    + intros [? _]. split; [|done]. simpl. by destruct (g_after g).
    + unfold pend. simpl. at_pc Hpc. by destruct (g_after g).
  - apply (woken_ok y i g _ d p); auto; [apply pend_stop|]. intros [Hg _]. simpl. by destruct (g_after g).
  - apply (woken_ok y i g _ d p); auto. apply pend_over.
  - by apply over_ok.
  - apply (bcast_ok y i g); auto. intros [Hg Hg'] Hb. unfold ctx_ok, is_armed, wake_up, is_waiting in *. simpl.
    destruct (g_pc g) eqn:E; simpl; rewrite ?E; try (split; [done|]); try done; by rewrite (Hg Ha).
Qed.

(** ** The other steps *)
Lemma pool_ok y p' l k : sys_ok y → y_lock y = None → gives 0 (y_pool y) p' → (∀ x, x ∈ l → is_Some (objs p' !! x)) →
  (y_cleaner y ≠ KIdle → k ≠ KIdle) → sys_ok (set_putting l (set_cleaner k (set_pool p' y))).
Proof.
  intros Hy Hl [H1 H2 H3 H4] Hput Hk. split; simpl; [by apply H2, Hy|done|apply Hy|rewrite H3; apply Hy|rewrite H3; apply Hy|].
  rewrite H3. intros Hm Hop. destruct (so_live y Hy Hm Hop) as (Hctx & Hwait & _). split_and!; [done| |by left].
  destruct Hwait as [?|[?|[?|Hav]]]; [by left|by right; left|right; right; left; auto|right; right; right]. specialize (H4 Hop). lia.
Qed.
(** Somebody returns a connection and wakes others. *)
Lemma wake_ok w y p' gs l : sys_ok y → y_lock y = None → gives (wake_credit w) (y_pool y) p' → woke w (y_gets y) gs →
  (∀ x, x ∈ l → is_Some (objs p' !! x)) → sys_ok (set_putting l (set_gets gs (set_pool p' y))).
Proof.
  intros Hy Hl [H1 H2 H3 H4] Hw Hput. pose proof (woke_from _ _ _ Hw) as Hf. split; simpl; [by apply H2, Hy|done| | |rewrite H3; apply Hy|].
  - eapply lock_from; [done|apply Hy].
  - rewrite H3. intros Hc. destruct (so_closed y Hy Hc) as [? Hn]. split; [done|]. intros Hr. eapply Forall_from; [|exact Hf|by apply Hn]. apply from_waits.
  - rewrite H3. intros Hm Hop. destruct (so_live y Hy Hm Hop) as (Hctx & Hwait & _). specialize (H4 Hop).
    split_and!; [by eapply Forall_from; [apply from_ctx|..]| |by left].
    assert (Hp : Exists (λ g, pend g = true) (y_gets y) → Exists (λ g, pend g = true) gs).
    { apply Exists_from; [|done]. intros g g' Hg. by apply from_pend. }
    destruct Hw as [gs|gs|gs i g Hi Hwt|gs Hn]; [| left; apply all_woken | |by left].
    + destruct Hwait as [?|[?|[?|Hav]]]; [by left|by right; left|by right; right; left|]. right; right; right. simpl in H4. lia.
    + pose proof (Forall_lookup_1 _ _ _ _ Hctx Hi) as [_ Hg]. simpl in H4. assert (Hwu : wake_up g = set_gpc QWoken g) by (unfold wake_up; by rewrite Hwt). unfold is_waiting in Hwt.
      destruct (g_pc g) eqn:Hpc; try done. destruct (g_over g) eqn:Ho.
      * right; left. apply Hp, Exists_exists. exists g. split; [by eapply list_elem_of_lookup_2|]. unfold pend. rewrite Hg. apply orb_true_r.
      * destruct Hwait as [Hn|[?|[?|Hav]]]; [|right; left; by apply Hp|by right; right; left|right; right; right].
        -- pose proof (Forall_lookup_1 _ _ _ _ Hn Hi) as Hx. unfold is_waiting in Hx. simpl in Hx. by rewrite Hpc in Hx.
        -- unfold awake in *. rewrite (sum_map_insert fresh _ _ _ _ Hi), Hwu. unfold fresh at 2 3. simpl. rewrite Hpc, Ho. lia.
Qed.
(** A broadcast that goes with no change of a goroutine. *)
Lemma broadcast_ok y p' k r : sys_ok y → gives 0 (y_pool y) p' → (r ≠ RNone → y_release y ≠ RNone) →
  sys_ok (set_release r (set_cleaner k (set_gets (map wake_up (y_gets y)) (set_pool p' y)))).
Proof.
  intros Hy [H1 H2 H3 H4] Hr. assert (Hf : Forall2 woken_from (y_gets y) (map wake_up (y_gets y))) by (apply (woke_from WAll); constructor).
  split; simpl; [by apply H2, Hy|intros x Hx; by apply H1, (so_put y Hy)|by eapply lock_from; [|apply Hy]| |rewrite H3; intros Hn; by apply (so_rel y Hy), Hr|].
  - rewrite H3. intros Hc. split; [by apply (so_closed y Hy)|]. intros _. apply all_woken.
  - rewrite H3. intros Hm Hop. destruct (so_live y Hy Hm Hop) as (Hctx & _ & Harm). specialize (H4 Hop).
    split_and!; [by eapply Forall_from; [apply from_ctx|..]|left; apply all_woken|].
    destruct Harm as [?|[He|Hz]]; [by left|right; left|right; right; pose proof (avail_nonneg p'); lia].
    eapply (Exists_from dial_err); [|exact Hf|exact He]. intros g g' Hg. by apply from_pend.
Qed.
Lemma foldl_close_dom l : ∀ p, same_dom p (foldl closeConnLocked p l).
Proof. induction l as [|pc l IH]; intros p x Hx; [done|]. simpl. by apply IH, close_dom. Qed.

Lemma foldl_close_idle l : ∀ p, idle (foldl closeConnLocked p l) = idle p.
Proof. induction l as [|pc l IH]; intros p; [done|]. simpl. by rewrite IH. Qed.
Lemma foldl_close_closed l : ∀ p, closed (foldl closeConnLocked p l) = closed p.
Proof. induction l as [|pc l IH]; intros p; [done|]. simpl. by rewrite IH. Qed.
Lemma call_ok y over : sys_ok y → sys_ok (set_gets (y_gets y ++ [mkGetter QNew over AFNone]) y).
Proof.
  intros Hy. split; simpl; [apply Hy|apply Hy| | |apply Hy|].
  - intros i. rewrite (so_lock y Hy i). split; intros (g & Hi & Ha); exists g; (split; [|done]); [by apply lookup_app_l_Some|].
    apply lookup_app_Some in Hi as [Hi|[_ Hi]]; [done|]. by apply list_lookup_singleton_Some in Hi as [_ <-].
  - intros Hc. destruct (so_closed y Hy Hc) as [? Hn]. split; [done|]. intros Hr. apply Forall_app. split; [by apply Hn|by repeat constructor].
  - intros Hm Hop. destruct (so_live y Hy Hm Hop) as (Hctx & Hwait & Harm). split_and!; [apply Forall_app; split; [done|by repeat constructor]| |].
    + destruct Hwait as [Hn|[?|[?|Hav]]]; [left|right; left; apply Exists_app; by left|by right; right; left|right; right; right].
      * apply Forall_app. split; [done|by repeat constructor].
      * unfold awake in *. rewrite map_app, sumZ_app. unfold fresh at 2. simpl. lia.
    + destruct Harm as [?|[?|?]]; [by left|right; left; apply Exists_app; by left|by right; right].
Qed.
Lemma close_ok y pc todo ni nl : sys_ok y → y_lock y = None → y_cleaner y = KClosing (pc :: todo) ni nl →
  sys_ok (set_cleaner (KClosing todo ni nl) (set_pool (cleanup_close (y_pool y) pc) y)).
Proof.
  intros Hy Hl Hk. assert (Hg : gives 1 (y_pool y) (cleanup_close (y_pool y) pc)) by (by apply gives_close).
  destruct Hg as [H1 H2 H3 _]. split; simpl; [by apply H2, Hy|intros x Hx; by apply H1, (so_put y Hy)|apply Hy|apply Hy|apply Hy|].
  intros Hm Hop. destruct (so_live y Hy Hm Hop) as (? & _ & _). split_and!; [done|by right; right; left|by left].
Qed.
Lemma flag_ok y : sys_ok y → y_lock y = None → closed (y_pool y) = false → sys_ok (set_release RFlagged (set_pool (Release_flag (y_pool y)).1 y)).
Proof. intros Hy Hl Hop. unfold Release_flag. rewrite Hop. by split; simpl; [apply Hy|apply Hy|apply Hy|..]. Qed.
(** Once the flag is set only the mutex and the waiters matter. *)
Lemma release_ok y : sys_ok y → y_lock y = None → y_release y = RWaiting →
  sys_ok (set_release RDone (set_pool (Release_close (y_pool y)) y)).
Proof.
  intros Hy Hl Hr. assert (Hc : closed (y_pool y) = true) by (apply (so_rel y Hy); by rewrite Hr).
  assert (Hc' : closed (Release_close (y_pool y)) = true) by (unfold Release_close; simpl; rewrite foldl_close_closed; simpl; by rewrite foldl_close_closed).
  split; simpl.
  - intros x Hx. unfold Release_close in Hx. simpl in Hx. rewrite foldl_close_idle in Hx. by apply not_elem_of_nil in Hx.
  - intros x Hx. apply foldl_close_dom. simpl. by apply foldl_close_dom, (so_put y Hy).
  - apply Hy.
  - intros _. split; [done|]. intros _. apply (so_closed y Hy Hc). by rewrite Hr.
  - done.
  - intros _ Hop. simpl in Hc'. congruence.
Qed.

Lemma sys_step_ok y y' : sys_ok y → sys_step y y' → sys_ok y'.
Proof.
  intros Hy Hs. destruct Hs as [y over|i y y' Hs|y pc now p e gs Hl E Hw|y pc now p Hl E|y l1 pc l2 ok now gs Hl El Hw|y ptr conn now gs Hl _ Hw|y pc gs Hl Hw
    |y now p gone ni nl Hl Hk E|y pc todo ni nl Hl Hk|y ni nl Hk|y Hl Hop|y Hr|y Hl Hr Hk].
  - by apply call_ok.
  - by eapply get_step_ok.
  - destruct (putConn_gives _ _ _ _ _ E) as [Hg _]. apply (wake_ok (putConn_wake (y_pool y) pc now) y p gs (y_putting y)); auto.
    intros x Hx. by apply (gv_dom _ _ _ Hg), (so_put y Hy).
  - destruct (putConn_gives _ _ _ _ _ E) as [Hg Hpc]. apply (pool_ok y p (pc :: y_putting y) (y_cleaner y)); auto.
    intros x [->|Hx]%elem_of_cons; apply (gv_dom _ _ _ Hg); [by apply Hpc|by apply (so_put y Hy)].
  - assert (Hpc : is_Some (objs (y_pool y) !! pc)) by (apply (so_put y Hy); rewrite El; apply elem_of_app; right; by left).
    pose proof (putConn_pinged_gives (y_pool y) pc ok now Hpc) as Hg.
    apply (wake_ok (if ok then finish_wake (y_pool y) else WAll)); [done|done| |exact Hw|].
    + replace (wake_credit _) with 1; [done|]. destruct ok; [by rewrite finish_wake_credit|done].
    + intros x Hx. apply (gv_dom _ _ _ Hg), (so_put y Hy). rewrite El. apply elem_of_app in Hx. apply elem_of_app. destruct Hx; [by left|right; by right].
  - pose proof (Put_raw_gives (y_pool y) ptr conn now) as Hg.
    apply (wake_ok (Put_raw_wake (y_pool y)) y _ gs (y_putting y)); auto. intros x Hx. by apply (gv_dom _ _ _ Hg), (so_put y Hy).
  - pose proof (markUnhealthy_gives (y_pool y) pc) as Hg.
    apply (wake_ok (markUnhealthy_wake (y_pool y) pc) y _ gs (y_putting y)); auto. intros x Hx. by apply (gv_dom _ _ _ Hg), (so_put y Hy).
  - pose proof (scan_gives (y_pool y) now) as Hg. rewrite E in Hg. apply (pool_ok y p (y_putting y) (match gone with [] => KIdle | _ => KClosing gone ni nl end)); [done|done|exact Hg| |congruence].
    intros x Hx. by apply (gv_dom _ _ _ Hg), (so_put y Hy).
  - by apply close_ok.
  - apply (broadcast_ok y (add_stats (y_pool y) ni nl) KIdle (y_release y)); auto. by apply gives_same.
  - apply flag_ok; auto.
  - apply (broadcast_ok y (y_pool y) (y_cleaner y) RWaiting); auto; [by apply gives_same|]. by rewrite Hr.
  - apply release_ok; auto.
Qed.

Lemma open_initial_dom factory now n : ∀ k p p', dom_ok p → open_initial factory n k p now = inr p' → dom_ok p'.
Proof.
  induction n as [|n IH]; intros k p p' Hd E; simpl in E; [by simplify_eq|]. destruct (factory k) as [conn|]; [|done].
  eapply IH; [|exact E]. intros x [->|Hx]%elem_of_cons; [by simpl; rewrite lookup_insert_eq|]. by apply wrap_dom, Hd.
Qed.
Lemma NewPool_dom init maxIdle cap t factory ping life now p : NewPool init maxIdle cap t factory ping life now = inr p → dom_ok p.
Proof.
  unfold NewPool. destruct (_ || _); [done|]. destruct factory as [factory|]; [|done].
  destruct (open_initial _ _ _ _ _) as [?|p1] eqn:E; [done|]. intros [= <-]. apply open_initial_dom in E; [exact E|]. by intros x ?%elem_of_nil.
Qed.
Lemma sys_reachable_ok y : sys_reachable y → sys_ok y.
Proof.
  intros (init & maxIdle & cap & t & factory & ping & life & now & p0 & Hn & Hr).
  eapply (rtc_invariant _ sys_ok); [by intros ? ?; apply sys_step_ok|exact Hr|].
  split; simpl; [|by intros x ?%elem_of_nil|split; [done|by intros (? & ? & _)]|intros _; split; [done|intros _; constructor]|done|].
  - by eapply NewPool_dom.
  - intros _ _. split_and!; [done|left; constructor|by left].
Qed.

(** ** Nobody sleeps for nothing *)
Lemma free_lock_step y i g : y_gets y !! i = Some g → y_lock y = None → at_rest g = false → ∃ y', get_step i y y'.
Proof.
  intros Hi Hl Hr. unfold at_rest in Hr. destruct (g_pc g) eqn:Hpc.
  - eexists. by eapply (g_begin i y g 0).
  - destruct (Get_pinged (y_pool y) pc true) as [p [r|]] eqn:E; eexists; [by eapply g_pinged|by eapply (g_ping_failed i y g pc true p 0)].
  - eexists. by eapply (g_dial_err i y g 0).
  - eexists. by eapply g_dial_bcast.
  - destruct (g_over g) eqn:Ho; eexists; [by eapply (g_arm_over i y g 0)|by eapply g_arm].
  - eexists. by eapply g_wait.
  - destruct (g_after g) eqn:Ha; try done. eexists. by eapply g_callback.
  - destruct (Get_waited (y_pool y) false (g_over g) 0) as [p [e|]] eqn:E; eexists; [by eapply g_woken_err|by eapply (g_woken i y g 0 p 0)].
  - destruct (g_after g) eqn:Ha; try done. eexists. by eapply g_callback.
Qed.

Lemma quiescent_avail y i g : sys_ok y → quiescent y → y_gets y !! i = Some g → g_pc g = QWaiting →
  wait_ok (y_pool y) (y_gets y) (y_cleaner y) → avail (y_pool y) <= 0.
Proof.
  intros Hy (Hq & Hk & _) Hi Hpc [Hn|[He|[?|Hav]]].
  - pose proof (Forall_lookup_1 _ _ _ _ Hn Hi) as Hw. unfold is_waiting in Hw. simpl in Hw. by rewrite Hpc in Hw.
  - apply Exists_exists in He as (z & Hz & Hp). rewrite Forall_forall in Hq. specialize (Hq z Hz). unfold at_rest, pend, dial_err in *.
    destruct (g_pc z), (g_after z); done.
  - done.
  - assert (awake (y_gets y) = 0); [|lia]. clear -Hq. unfold awake. induction Hq as [|z gs Hz _ IH]; [done|]. simpl. rewrite IH.
    unfold at_rest, fresh in *. by destruct (g_pc z).
Qed.
(** C14: nobody sleeps for nothing in the connection pool.  In every interleaving of
    gets, dials, pings, returns, clean-ups and releases: whoever holds the mutex can
    go on, and so can somebody whenever a call of [Get] is not waiting.  Unless a
    broadcast came between a decision to wait and the waiting, when everybody has
    gone as far as they can, a call of [Get] still waits only if the pool is open, no
    connection is idle, all slots are taken and its context is not done: no signal
    given to a caller that then leaves is lost. *)
Theorem no_lost_wakeup y : sys_reachable y →
  (∀ i, y_lock y = Some i → ∃ y', get_step i y y') ∧
  (Exists (λ g, at_rest g = false) (y_gets y) → ∃ i y', get_step i y y') ∧
  (y_missed y = false → quiescent y → ∀ i g, y_gets y !! i = Some g → g_pc g = QWaiting →
     closed (y_pool y) = false ∧ idle (y_pool y) = [] ∧ maxConnCap (y_pool y) <= connCnt (y_pool y) ∧ g_over g = false).
Proof.
  intros Hr. pose proof (sys_reachable_ok y Hr) as Hy.
  assert (Hlock : ∀ i, y_lock y = Some i → ∃ y', get_step i y y').
  { intros i (g & Hi & Ha)%(so_lock y Hy). unfold arming in Ha. destruct (g_pc g) eqn:Hpc; try done.
    - destruct (g_over g) eqn:Ho; eexists; [by eapply (g_arm_over i y g 0)|by eapply g_arm].
    - eexists. by eapply g_wait. }
  split_and!; [done| |].
  - intros (g & [i Hi]%list_elem_of_lookup & Hg)%Exists_exists. destruct (y_lock y) as [j|] eqn:Hl; [exists j; by apply Hlock|].
    exists i. by eapply free_lock_step.
  - intros Hm (Hq & Hk & Hre) i g Hi Hpc. destruct (closed (y_pool y)) eqn:Hc.
    { destruct (so_closed y Hy Hc) as [_ Hn]. pose proof (Forall_lookup_1 _ _ _ _ (Hn Hre) Hi) as Hw. unfold is_waiting in Hw. simpl in Hw. by rewrite Hpc in Hw. }
    destruct (so_live y Hy Hm Hc) as (Hctx & Hwait & _). pose proof (Forall_lookup_1 _ _ _ _ Hctx Hi) as [_ Hg]. rewrite Hpc in Hg.
    pose proof (Forall_lookup_1 _ _ _ _ Hq Hi) as Hr0. unfold at_rest in Hr0. simpl in Hr0. rewrite Hpc in Hr0.
    assert (Hav : avail (y_pool y) <= 0) by (by eapply quiescent_avail).
    unfold avail in Hav. split_and!; [done|by apply length_zero_iff_nil; lia|lia|].
    destruct (g_over g); [by rewrite Hg in Hr0|done].
Qed.

(** ** Runs of a pool with one slot *)
Definition ex_one : Pool := match NewPool 0 1 1 10 (Some Some) false [] 0 with inr p => p | inl _ => ex_pool end.
Lemma ex_one_reachable y : rtc sys_step (new_sys ex_one) y → sys_reachable y.
Proof. intros H. exists 0, 1, 1, 10, (Some Some), false, [], 0, ex_one. split; [reflexivity|exact H]. Qed.
Tactic Notation "s_by" constr(i) uconstr(rule) := eapply rtc_l; [apply (s_get i); eapply rule; vm_compute; first [reflexivity|by right]|].
Ltac s_call := eapply rtc_l; [apply (s_call _ false)|].
Ltac at_quiescence := repeat split; try discriminate; repeat constructor; vm_compute; reflexivity.

(** The first call takes the slot, the second waits. *)
Lemma second_waits : ∃ y, rtc sys_step (new_sys ex_one) y ∧ y_missed y = false ∧ quiescent y ∧ ∃ g, y_gets y !! 1%nat = Some g ∧ g_pc g = QWaiting.
Proof.
  eexists. split.
  { s_call. s_by 0%nat (g_begin 0 _ (mkGetter QNew false AFNone) 0). s_by 0%nat (g_dialed 0 _ (mkGetter QDial false AFNone) 7 0 0).
    s_call. s_by 1%nat (g_begin 1 _ (mkGetter QNew false AFNone) 0). s_by 1%nat g_arm. s_by 1%nat g_wait. apply rtc_refl. }
  split; [reflexivity|]. split; [at_quiescence|]. eexists. split; reflexivity.
Qed.
Lemma no_lost_wakeup_witness : ∃ y, sys_reachable y ∧ idle (y_pool y) = [] ∧ maxConnCap (y_pool y) <= connCnt (y_pool y).
Proof.
  destruct second_waits as (y & Hr & Hm & Hq & g & Hg & Hpc). exists y. split; [by apply ex_one_reachable|].
  destruct (no_lost_wakeup y (ex_one_reachable y Hr)) as (_ & _ & H). destruct (H Hm Hq 1%nat g Hg Hpc) as (_ & Hi & Hc & _). exact (conj Hi Hc).
Defined.

(** A deadline between the check of the context and [cond.Wait]: the callback
    broadcasts too early, and the call sleeps on although its context is done. *)
Lemma expired_caller_sleeps : ∃ y g, sys_reachable y ∧ quiescent y ∧ y_gets y !! 1%nat = Some g ∧ g_pc g = QWaiting ∧ g_over g = true.
Proof.
  eexists _, _. split.
  { apply ex_one_reachable. s_call. s_by 0%nat (g_begin 0 _ (mkGetter QNew false AFNone) 0). s_by 0%nat (g_dialed 0 _ (mkGetter QDial false AFNone) 7 0 0).
    s_call. s_by 1%nat (g_begin 1 _ (mkGetter QNew false AFNone) 0). s_by 1%nat g_arm. s_by 1%nat g_ctx_over. s_by 1%nat g_callback.
    s_by 1%nat g_wait. apply rtc_refl. }
  split; [at_quiescence|]. split_and!; reflexivity.
Qed.
(** A failed dial gives the slot back and broadcasts while another call, which has
    found no slot, is about to wait: it sleeps on although nobody uses the pool. *)
Lemma free_slot_sleeper : ∃ y g, sys_reachable y ∧ quiescent y ∧ y_gets y !! 1%nat = Some g ∧ g_pc g = QWaiting ∧
  connCnt (y_pool y) = 0 ∧ maxConnCap (y_pool y) = 1.
Proof.
  eexists _, _. split.
  { apply ex_one_reachable. s_call. s_call. s_by 0%nat (g_begin 0 _ (mkGetter QNew false AFNone) 0). s_by 1%nat (g_begin 1 _ (mkGetter QNew false AFNone) 0).
    s_by 0%nat (g_dial_err 0 _ (mkGetter QDial false AFNone) 0). s_by 0%nat g_dial_bcast. s_by 1%nat g_arm. s_by 1%nat g_wait. apply rtc_refl. }
  split; [at_quiescence|]. split_and!; reflexivity.
Qed.
