(* ===== verification/RpcMessage.v ===== *)
(** * Message codec of micro/rpc

    Models [src/micro/rpc/message/request.go], [src/micro/rpc/message/response.go]
    and the framing helpers of [src/micro/rpc/common.go].  A panic of the codec (an
    index or slice out of range) is [None].  A nil map and a nil slice are the
    empty map and the empty list. *)

From S2P Require Import Prelude.
Local Open Scope Z_scope.

Definition NL : byte := "010"%char.
Definition CR : byte := "013"%char.

(** [bytes.IndexByte] followed by the two slices around it. *)
Fixpoint cut_at (c : byte) (b : bytes) : option (bytes * bytes) :=
  match b with
  | [] => None
  | x :: b' => if bool_decide (x = c) then Some ([], b')
               else match cut_at c b' with Some (l, r) => Some (x :: l, r) | None => None end
  end.

(** ** Requests *)
Record Request := mkReq {
  HeadLength : Z; BodyLength : Z; MessageID : Z; Version : Z; Compressor : Z; Serializer : Z;
  ServiceName : bytes; MethodName : bytes; Meta : gmap bytes bytes; Data : bytes }.

Definition len (b : bytes) : Z := Z.of_nat (length b).

(** The two length computations, in 32-bit arithmetic, over the map in some order. *)
Definition CalculateHeadLength (r : Request) (order : list (bytes * bytes)) : Z :=
  foldl (λ acc kv, u32 (acc + u32 (len kv.1 + 1 + len kv.2 + 1)))
    (u32 (15 + len (ServiceName r) + 1 + len (MethodName r) + 1)) order.
Definition CalculateBodyLength (r : Request) : Z := u32 (len (Data r)).

Definition fixed_part (hl bl id v c s : Z) : bytes :=
  be_put 4 hl ++ be_put 4 bl ++ be_put 4 id ++ [byte_of v; byte_of c; byte_of s].
Definition encode_meta (order : list (bytes * bytes)) : bytes :=
  concat (map (λ kv, kv.1 ++ [CR] ++ kv.2 ++ [NL]) order).
Definition variable_part (r : Request) (order : list (bytes * bytes)) : bytes :=
  ServiceName r ++ [NL] ++ MethodName r ++ [NL] ++ encode_meta order.

(** [EncodeRequest]: a buffer of the announced size; writing the variable part past
    its end panics, the body is copied as far as it fits. *)
Definition EncodeRequest (r : Request) (order : list (bytes * bytes)) : option bytes :=
  let n := Z.to_nat (u32 (HeadLength r + BodyLength r)) in
  let var := variable_part r order in
  if (n <? 15 + length var)%nat then None
  else
    let room := (n - 15 - length var)%nat in
    let body := if 0 <? BodyLength r then take room (Data r) else [] in
    Some (fixed_part (HeadLength r) (BodyLength r) (MessageID r) (Version r) (Compressor r) (Serializer r)
          ++ var ++ body ++ replicate (room - length body) (byte_of 0)).

(** The loop over the metadata lines; the fuel is the length of the header, of
    which every round consumes at least one byte. *)
Fixpoint decode_meta (fuel : nat) (header : bytes) (meta : gmap bytes bytes) : option (gmap bytes bytes) :=
  match fuel with
  | O => Some meta
  | S fuel' =>
      match cut_at NL header with
      | None => Some meta
      | Some (line, rest) =>
          match cut_at CR line with
          | None => None
          | Some (key, value) => decode_meta fuel' rest (<[key := value]> meta)
          end
      end
  end.

Definition DecodeRequest (data : bytes) : option Request :=
  if (length data <? 15)%nat then None
  else
    let hl := be_get (take 4 data) in
    let bl := be_get (take 4 (drop 4 data)) in
    let id := be_get (take 4 (drop 8 data)) in
    let v := be_get (take 1 (drop 12 data)) in
    let c := be_get (take 1 (drop 13 data)) in
    let s := be_get (take 1 (drop 14 data)) in
    if (hl <? 15) || (len data <? hl) then None
    else
      let header := drop 15 (take (Z.to_nat hl) data) in
      '(service, header) ← cut_at NL header;
      '(method, header) ← cut_at NL header;
      meta ← decode_meta (length header) header ∅;
      Some (mkReq hl bl id v c s service method meta
              (if 0 <? bl then drop (Z.to_nat hl) data else [])).

(** ** Responses *)
Record Response := mkResp {
  rHeadLength : Z; rBodyLength : Z; rMessageID : Z; rVersion : Z; rCompressor : Z; rSerializer : Z;
  ErrorInfo : bytes; rData : bytes }.

Definition rCalculateHeadLength (r : Response) : Z := u32 (15 + len (ErrorInfo r)).
Definition rCalculateBodyLength (r : Response) : Z := u32 (len (rData r)).

Definition EncodeResponse (r : Response) : option bytes :=
  let n := Z.to_nat (u32 (rHeadLength r + rBodyLength r)) in
  if (n <? 15 + length (ErrorInfo r))%nat then None
  else
    let room := (n - 15 - length (ErrorInfo r))%nat in
    let body := take room (rData r) in
    Some (fixed_part (rHeadLength r) (rBodyLength r) (rMessageID r) (rVersion r) (rCompressor r) (rSerializer r)
          ++ ErrorInfo r ++ body ++ replicate (room - length body) (byte_of 0)).

Definition DecodeResponse (data : bytes) : option Response :=
  if (length data <? 15)%nat then None
  else
    let hl := be_get (take 4 data) in
    let bl := be_get (take 4 (drop 4 data)) in
    if (hl <? 15) || (len data <? hl) then None
    else Some (mkResp hl bl (be_get (take 4 (drop 8 data))) (be_get (take 1 (drop 12 data)))
                 (be_get (take 1 (drop 13 data))) (be_get (take 1 (drop 14 data)))
                 (drop 15 (take (Z.to_nat hl) data))
                 (if 0 <? bl then drop (Z.to_nat hl) data else [])).

(** ** Streams

    A connection delivers its bytes in chunks; [Read] returns at most one chunk. *)
Abbreviation wire := (list bytes).
Definition conn_Read (w : wire) (n : nat) : option (bytes * wire) :=
  match w with
  | [] => None
  | c :: w' => Some (take n c, if (length c <=? n)%nat then w' else drop n c :: w')
  end.

(** [ReceiveRequestStream] and [ReceiveResponseStream]: one [Read] for the lengths,
    one for the rest, both into zeroed buffers. *)
Definition fill (n : nat) (b : bytes) : bytes := b ++ replicate (n - length b) (byte_of 0).
Definition ReceiveStream (w : wire) : option (option bytes * wire) :=
  match conn_Read w 8 with
  | None => Some (None, w)
  | Some (b, w) =>
      let length_ := fill 8 b in
      let total := Z.to_nat (u32 (be_get (take 4 length_) + be_get (drop 4 length_))) in
      if (total <? 8)%nat then None
      else match conn_Read w (total - 8) with
           | None => Some (None, w)
           | Some (b, w) => Some (Some (length_ ++ fill (total - 8) b), w)
           end
  end.

(** [EncapsulatedData] and [Recv]: an eight-byte length and the data. *)
Definition EncapsulatedData (data : bytes) : bytes := be_put 8 (len data) ++ data.
Definition Recv (w : wire) : option bytes * wire :=
  match conn_Read w 8 with
  | None => (None, w)
  | Some (b, w) =>
      let n := Z.to_nat (be_get (fill 8 b)) in
      match conn_Read w n with
      | None => (None, w)
      | Some (b, w) => (Some (fill n b), w)
      end
  end.
