(* ===== verification/RpcMessageFacts.v ===== *)
(** * Correctness of the micro/rpc message codec *)

From S2P Require Import Prelude RpcMessage.
Local Open Scope Z_scope.

(** ** Separators *)
Lemma cut_at_app c l r : c ∉ l → cut_at c (l ++ c :: r) = Some (l, r).
Proof.
  induction l as [|x l IH]; intros H; cbn [cut_at app].
  - by rewrite bool_decide_true.
  - rewrite bool_decide_false by set_solver. rewrite IH by set_solver. done.
Qed.
Lemma cut_at_nil c : cut_at c [] = None.
Proof. done. Qed.

Lemma u32_small z : 0 <= z < 2 ^ 32 → u32 z = z.
Proof. apply wrapu_small. Qed.

(** ** The fixed part *)
Lemma fixed_length hl bl id v c s : length (fixed_part hl bl id v c s) = 15%nat.
Proof. unfold fixed_part. rewrite !length_app, !be_put_length. done. Qed.

Lemma fixed_fields hl bl id v c s rest :
  0 <= hl < 2 ^ 32 → 0 <= bl < 2 ^ 32 → 0 <= id < 2 ^ 32 → 0 <= v < 256 → 0 <= c < 256 → 0 <= s < 256 →
  let d := fixed_part hl bl id v c s ++ rest in
  be_get (take 4 d) = hl ∧ be_get (take 4 (drop 4 d)) = bl ∧ be_get (take 4 (drop 8 d)) = id ∧
  be_get (take 1 (drop 12 d)) = v ∧ be_get (take 1 (drop 13 d)) = c ∧ be_get (take 1 (drop 14 d)) = s ∧
  drop 15 d = rest.
Proof.
  intros Hh Hb Hi Hv Hc Hs d. unfold d, fixed_part. rewrite <- !app_assoc.
  destruct (be_put 4 hl) as [|a1 [|a2 [|a3 [|a4 [|]]]]] eqn:E1; try (apply (f_equal length) in E1; rewrite be_put_length in E1; discriminate).
  destruct (be_put 4 bl) as [|b1 [|b2 [|b3 [|b4 [|]]]]] eqn:E2; try (apply (f_equal length) in E2; rewrite be_put_length in E2; discriminate).
  destruct (be_put 4 id) as [|c1 [|c2 [|c3 [|c4 [|]]]]] eqn:E3; try (apply (f_equal length) in E3; rewrite be_put_length in E3; discriminate).
  cbn [app take drop]. rewrite <- E1, <- E2, <- E3, !be_get_1, !byte_val_of.
  rewrite !be_get_put_small by (cbn; lia). rewrite !Z.mod_small by lia. done.
Qed.

(** ** Metadata *)
Record clean_pair (kv : bytes * bytes) : Prop := {
  cp_key : NL ∉ kv.1 ∧ CR ∉ kv.1; cp_val : NL ∉ kv.2 }.

Lemma decode_meta_spec order : ∀ fuel m, Forall clean_pair order → (length (encode_meta order) <= fuel)%nat →
  decode_meta fuel (encode_meta order) m = Some (foldl (λ m kv, <[kv.1 := kv.2]> m) m order).
Proof.
  induction order as [|[k v] order IH]; intros fuel m Hc Hf; [by destruct fuel|].
  apply Forall_cons in Hc as [[[Hk1 Hk2] Hv] Hc]. cbn [fst snd] in *.
  assert (encode_meta ((k, v) :: order) = (k ++ CR :: v) ++ NL :: encode_meta order) as He
    by (unfold encode_meta; cbn [map concat fst snd]; by rewrite <- !app_assoc).
  rewrite He in *. rewrite !length_app in Hf. cbn [length] in Hf.
  destruct fuel as [|fuel]; [lia|]. cbn [decode_meta]. rewrite (cut_at_app NL (k ++ CR :: v)).
  - rewrite cut_at_app by done. rewrite IH by (done || lia). done.
  - rewrite elem_of_app, elem_of_cons. intros [?|[H|?]]; [done|by vm_compute in H|done].
Qed.

Lemma foldl_insert_order (order : list (bytes * bytes)) (m : gmap bytes bytes) :
  order ≡ₚ map_to_list m → foldl (λ m kv, <[kv.1 := kv.2]> m) ∅ order = m.
Proof.
  intros Ho. assert (NoDup order.*1) as Hnd by (rewrite Ho; apply NoDup_fst_map_to_list).
  assert (∀ l (acc : gmap bytes bytes), NoDup l.*1 → (∀ k, k ∈ l.*1 → acc !! k = None) →
    foldl (λ m kv, <[kv.1 := kv.2]> m) acc l = acc ∪ list_to_map l) as H.
  { induction l as [|[k v] l IH]; intros acc Hn Ha; cbn [foldl fst snd]; [by rewrite list_to_map_nil, (right_id_L ∅ (∪))|].
    cbn in Hn. apply NoDup_cons in Hn as [Hk Hn]. rewrite IH; [|done|].
    - rewrite list_to_map_cons. rewrite <- insert_union_l. rewrite <- insert_union_r by (apply Ha; left). done.
    - intros k' Hk'. rewrite lookup_insert_ne by (intros ->; done). apply Ha. by right. }
  rewrite H; [|done|intros; apply lookup_empty].
  rewrite (left_id_L ∅ (∪)). transitivity (list_to_map (map_to_list m) : gmap bytes bytes); [|apply list_to_map_to_list].
  by apply list_to_map_proper.
Qed.

(** ** Round trips *)

(** A request as the client builds it: consistent lengths, in-range fields, no
    separators inside names and keys. *)
Record request_ok (r : Request) (order : list (bytes * bytes)) : Prop := {
  q_order : order ≡ₚ map_to_list (Meta r);
  q_head : HeadLength r = 15 + len (variable_part r order);
  q_body : BodyLength r = len (Data r);
  q_total : HeadLength r + BodyLength r < 2 ^ 32;
  q_id : 0 <= MessageID r < 2 ^ 32;
  q_v : 0 <= Version r < 256; q_c : 0 <= Compressor r < 256; q_s : 0 <= Serializer r < 256;
  q_service : NL ∉ ServiceName r; q_method : NL ∉ MethodName r;
  q_meta : Forall clean_pair order }.

Lemma encode_ok r order : request_ok r order → EncodeRequest r order =
  Some (fixed_part (HeadLength r) (BodyLength r) (MessageID r) (Version r) (Compressor r) (Serializer r)
        ++ variable_part r order ++ Data r).
Proof.
  intros H. pose proof (q_head _ _ H) as Hh. pose proof (q_body _ _ H) as Hb. pose proof (q_total _ _ H) as Ht.
  unfold EncodeRequest. unfold len in *. rewrite u32_small by lia.
  destruct (Nat.ltb_spec (Z.to_nat (HeadLength r + BodyLength r)) (15 + length (variable_part r order))); [lia|].
  replace (Z.to_nat (HeadLength r + BodyLength r) - 15 - length (variable_part r order))%nat with (length (Data r)) by lia.
  assert ((if 0 <? BodyLength r then take (length (Data r)) (Data r) else []) = Data r) as ->.
  { rewrite firstn_all. destruct (Z.ltb_spec 0 (BodyLength r)); [done|]. destruct (Data r); [done|cbn in *; lia]. }
  rewrite Nat.sub_diag. cbn [replicate]. by rewrite app_nil_r.
Qed.

Lemma request_roundtrip r order : request_ok r order → ∃ bs, EncodeRequest r order = Some bs ∧ DecodeRequest bs = Some r.
Proof.
  intros H. eexists. split; [by apply encode_ok|].
  pose proof (q_head _ _ H) as Hh. pose proof (q_body _ _ H) as Hb. pose proof (q_total _ _ H) as Ht. unfold len in *.
  unfold DecodeRequest. set (var := variable_part r order) in *.
  rewrite !length_app, fixed_length. destruct (Nat.ltb_spec (15 + (length var + length (Data r))) 15); [lia|].
  destruct (fixed_fields (HeadLength r) (BodyLength r) (MessageID r) (Version r) (Compressor r) (Serializer r) (var ++ Data r))
    as (E1 & E2 & E3 & E4 & E5 & E6 & E7); try (destruct H; done || lia).
  cbv zeta. rewrite E1, E2, E3, E4, E5, E6.
  destruct (Z.ltb_spec (HeadLength r) 15); [lia|].
  unfold len. rewrite !length_app, fixed_length.
  destruct (Z.ltb_spec (Z.of_nat (15 + (length var + length (Data r)))) (HeadLength r)); [lia|]. cbn [orb].
  assert (drop 15 (take (Z.to_nat (HeadLength r)) (fixed_part (HeadLength r) (BodyLength r) (MessageID r) (Version r)
            (Compressor r) (Serializer r) ++ var ++ Data r)) = var) as ->.
  { rewrite <- (fixed_length (HeadLength r) (BodyLength r) (MessageID r) (Version r) (Compressor r) (Serializer r)) at 1.
    rewrite app_assoc, take_app_le by (rewrite length_app, fixed_length; lia).
    rewrite take_ge by (rewrite length_app, fixed_length; lia). apply drop_app_length. }
  assert (drop (Z.to_nat (HeadLength r)) (fixed_part (HeadLength r) (BodyLength r) (MessageID r) (Version r)
            (Compressor r) (Serializer r) ++ var ++ Data r) = Data r) as ->.
  { rewrite app_assoc. replace (Z.to_nat (HeadLength r)) with (length (fixed_part (HeadLength r) (BodyLength r) (MessageID r) (Version r)
            (Compressor r) (Serializer r) ++ var)) by (rewrite length_app, fixed_length; lia). apply drop_app_length. }
  unfold var, variable_part. cbn [app].
  rewrite (cut_at_app NL (ServiceName r)) by apply H. cbn [mbind option_bind].
  rewrite (cut_at_app NL (MethodName r)) by apply H. cbn [mbind option_bind].
  rewrite decode_meta_spec by (apply H || done). cbn [mbind option_bind].
  rewrite (foldl_insert_order order (Meta r)) by apply H.
  assert ((if 0 <? BodyLength r then Data r else []) = Data r) as ->.
  { destruct (Z.ltb_spec 0 (BodyLength r)); [done|]. destruct (Data r); [done|cbn in *; lia]. }
  by destruct r.
Qed.

(** The lengths the client computes are those of a well-formed request. *)
Lemma head_length_exact r order : 15 + len (variable_part r order) < 2 ^ 32 →
  CalculateHeadLength r order = 15 + len (variable_part r order).
Proof.
  unfold CalculateHeadLength, variable_part, len. rewrite !length_app. cbn [length].
  intros Hlt. rewrite (u32_small (15 + _ + 1 + _ + 1)) by lia.
  assert (∀ l acc, 0 <= acc → acc + Z.of_nat (length (encode_meta l)) < 2 ^ 32 →
    foldl (λ acc kv, u32 (acc + u32 (Z.of_nat (length kv.1) + 1 + Z.of_nat (length kv.2) + 1))) acc l
    = acc + Z.of_nat (length (encode_meta l))) as H; [|rewrite H; lia].
  induction l as [|[k v] l IH]; intros acc Ha Hs; cbn [foldl]; [cbn; lia|].
  unfold encode_meta in *. cbn [map concat fst snd] in *. rewrite !length_app in *. cbn [length] in *.
  rewrite (u32_small (Z.of_nat (length k) + 1 + _ + 1)) by lia. rewrite u32_small by lia. rewrite IH; lia.
Qed.

(** C34: Requests survive the wire: a request whose lengths were computed by the
    client, whose names contain no newline, whose metadata keys contain no newline
    or carriage return and values no newline, encodes without a panic in whatever
    order the metadata map is iterated, and decodes to exactly the same request. *)
Theorem rpc_request_roundtrip r order : request_ok r order →
  (∃ bs, EncodeRequest r order = Some bs ∧ len bs = HeadLength r + BodyLength r ∧ DecodeRequest bs = Some r) ∧
  CalculateHeadLength r order = HeadLength r.
Proof.
  intros H. pose proof (q_head _ _ H). pose proof (q_body _ _ H). pose proof (q_total _ _ H). split.
  - destruct (request_roundtrip r order H) as (bs & E & D). exists bs. split_and!; [done| |done].
    rewrite (encode_ok r order H) in E. apply (inj Some) in E. subst bs. unfold len in *. rewrite !length_app, fixed_length. lia.
  - rewrite head_length_exact; unfold len in *; lia.
Qed.

(** A response on the wire: the fixed part, the error text and the data. *)
Record response_ok (r : Response) : Prop := {
  p_head : rHeadLength r = 15 + len (ErrorInfo r); p_body : rBodyLength r = len (rData r);
  p_total : rHeadLength r + rBodyLength r < 2 ^ 32; p_id : 0 <= rMessageID r < 2 ^ 32;
  p_v : 0 <= rVersion r < 256; p_c : 0 <= rCompressor r < 256; p_s : 0 <= rSerializer r < 256 }.
Definition response_wire (r : Response) : bytes :=
  fixed_part (rHeadLength r) (rBodyLength r) (rMessageID r) (rVersion r) (rCompressor r) (rSerializer r) ++ ErrorInfo r ++ rData r.

Lemma encode_response_ok r : response_ok r → EncodeResponse r = Some (response_wire r).
Proof.
  intros [Hh Hb Ht _ _ _ _]. unfold len in *. unfold EncodeResponse. rewrite u32_small by lia.
  destruct (Nat.ltb_spec (Z.to_nat (rHeadLength r + rBodyLength r)) (15 + length (ErrorInfo r))); [lia|].
  replace (Z.to_nat (rHeadLength r + rBodyLength r) - 15 - length (ErrorInfo r))%nat with (length (rData r)) by lia.
  rewrite firstn_all, Nat.sub_diag. cbn [replicate]. by rewrite app_nil_r.
Qed.

Lemma decode_response_ok r : response_ok r → DecodeResponse (response_wire r) = Some r.
Proof.
  intros [Hh Hb Ht Hi Hv Hc Hs]. unfold len in *. unfold DecodeResponse, response_wire. rewrite !length_app, fixed_length.
  destruct (Nat.ltb_spec (15 + (length (ErrorInfo r) + length (rData r))) 15); [lia|].
  destruct (fixed_fields (rHeadLength r) (rBodyLength r) (rMessageID r) (rVersion r) (rCompressor r) (rSerializer r)
    (ErrorInfo r ++ rData r)) as (E1 & E2 & E3 & E4 & E5 & E6 & E7); try lia.
  cbv zeta. rewrite E1, E2, E3, E4, E5, E6. destruct (Z.ltb_spec (rHeadLength r) 15); [lia|].
  unfold len. rewrite !length_app, fixed_length.
  destruct (Z.ltb_spec (Z.of_nat (15 + (length (ErrorInfo r) + length (rData r)))) (rHeadLength r)); [lia|]. cbn [orb].
  set (fx := fixed_part _ _ _ _ _ _). assert (length fx = 15%nat) as Hfx by apply fixed_length.
  assert (drop 15 (take (Z.to_nat (rHeadLength r)) (fx ++ ErrorInfo r ++ rData r)) = ErrorInfo r) as ->.
  { rewrite <- Hfx at 1. rewrite app_assoc, take_app_le by (rewrite length_app; lia).
    rewrite take_ge by (rewrite length_app; lia). apply drop_app_length. }
  assert (drop (Z.to_nat (rHeadLength r)) (fx ++ ErrorInfo r ++ rData r) = rData r) as ->.
  { rewrite app_assoc. replace (Z.to_nat (rHeadLength r)) with (length (fx ++ ErrorInfo r)) by (rewrite length_app; lia).
    apply drop_app_length. }
  assert ((if 0 <? rBodyLength r then rData r else []) = rData r) as ->.
  { destruct (Z.ltb_spec 0 (rBodyLength r)); [done|]. destruct (rData r); [done|cbn in *; lia]. }
  by destruct r.
Qed.

(** ** Witness and what the conditions are for *)
Definition ex_rpc_req : Request :=
  let r := mkReq 0 0 9 1 0 1 (bytes_of "user") (bytes_of "Get") {[bytes_of "one-way" := bytes_of "true"]} (bytes_of "{}") in
  let order := [(bytes_of "one-way", bytes_of "true")] in
  mkReq (CalculateHeadLength r order) (CalculateBodyLength r) 9 1 0 1 (ServiceName r) (MethodName r) (Meta r) (Data r).
Lemma rpc_request_roundtrip_witness : ∃ bs,
  EncodeRequest ex_rpc_req [(bytes_of "one-way", bytes_of "true")] = Some bs ∧ DecodeRequest bs = Some ex_rpc_req.
Proof.
  destruct (rpc_request_roundtrip ex_rpc_req [(bytes_of "one-way", bytes_of "true")]) as [(bs & H1 & _ & H2) _].
  - split; try reflexivity; try (split; [discriminate|reflexivity]).
    + refine (bool_decide_eq_true_1 (NL ∉ ServiceName ex_rpc_req) _). reflexivity.
    + refine (bool_decide_eq_true_1 (NL ∉ MethodName ex_rpc_req) _). reflexivity.
    + constructor; [|constructor].
      constructor; [split|]; refine (bool_decide_eq_true_1 (_ ∉ (_ : bytes)) _); reflexivity.
  - exists bs. split; [exact H1|exact H2].
Defined.

(** Names are not checked for separators: with a newline in the service name the
    decoder panics, or finds another service, another method and metadata that the
    client never sent. *)
Definition ex_named (service method : bytes) : Request :=
  let r := mkReq 0 0 1 1 0 1 service method ∅ [] in
  mkReq (CalculateHeadLength r []) 0 1 1 0 1 service method ∅ [].
Example newline_in_name_panics :
  (bs ← EncodeRequest (ex_named (bytes_of "a" ++ NL :: bytes_of "b") (bytes_of "c")) []; Some (DecodeRequest bs)) = Some None.
Proof. vm_compute. reflexivity. Qed.
Example newline_in_name_misroutes : ∃ r,
  (bs ← EncodeRequest (ex_named (bytes_of "a" ++ NL :: bytes_of "b") (bytes_of "one-way" ++ CR :: bytes_of "true")) [];
   DecodeRequest bs) = Some r ∧
  ServiceName r = bytes_of "a" ∧ MethodName r = bytes_of "b" ∧ Meta r = {[bytes_of "one-way" := bytes_of "true"]}.
Proof.
  eexists (mkReq _ _ _ _ _ _ _ _ _ _). split; [vm_compute; reflexivity|]. done.
Qed.

(** A message that arrives in two segments is cut off: one [Read] is taken for the
    whole, and the rest of the buffer stays zero. *)
Example short_read_truncates :
  ReceiveStream [be_put 4 15 ++ be_put 4 4; bytes_of "123456789"; bytes_of "ab"]
  = Some (Some (be_put 4 15 ++ be_put 4 4 ++ bytes_of "123456789" ++ [byte_of 0; byte_of 0]), [bytes_of "ab"]).
Proof. vm_compute. reflexivity. Qed.
