(* ===== verification/Rpc.v ===== *)
(** * The reflective RPC framework of micro/rpc

    Models [src/micro/rpc/client.go], [src/micro/rpc/server.go] and
    [src/micro/rpc/context.go].  Reflection is explicit: a service is a table of
    methods, a method has the shape the framework calls or another one, Go types
    are the elements of [T] and values those of [V].  Serializers and compressors
    are records of functions, since they wrap library code.  [None] is a panic; no
    goroutine of the package recovers, so a panic ends the process. *)

From stdpp Require Import pretty.
From S2P Require Import Prelude GoStrings RpcMessage.
Local Open Scope Z_scope.

(** ** Contexts *)

(** Times are nanoseconds since 1970; [UnixMilli], the method and the function. *)
Definition UnixMilli (t : Z) : Z := t / 1000000.
Definition of_UnixMilli (msec : Z) : Z := msec * 1000000.

Record Ctx := mkCtx { deadline : option Z; one_way : bool }.
Definition Background : Ctx := mkCtx None false.
Definition CtxWithOneWay (ctx : Ctx) : Ctx := mkCtx (deadline ctx) true.
Definition isOneWay (ctx : Ctx) : bool := one_way ctx.
(** [context.WithDeadline]: the earlier deadline wins. *)
Definition WithDeadline (ctx : Ctx) (d : Z) : Ctx :=
  mkCtx (Some (match deadline ctx with Some d' => Z.min d d' | None => d end)) (one_way ctx).

Definition key_deadline : bytes := bytes_of "deadline".
Definition key_one_way : bytes := bytes_of "one-way".
Definition val_true : bytes := bytes_of "true".

Section rpc.
Context {T V : Type}.

(** [Decode] gives what the pointer points to afterwards and the error. *)
Record serializer := mkSer {
  s_Code : Z; s_Encode : V → bytes + bytes; s_Decode : T → bytes → V * option bytes }.
Record compressor := mkComp { c_Code : Z; c_Compress : bytes → bytes + bytes; c_Decompress : bytes → bytes + bytes }.

(** A method called by the framework: context and pointer in, pointer and error
    out; [OtherShape] is any method with fewer than two parameters, such as
    [Name]. *)
Inductive method :=
| Handler (arg : T) (f : Ctx → V → option (option V * option bytes))
| OtherShape.
Record service := mkService { Name : bytes; methods : gmap bytes method }.

(** ** Server *)
Record Server := mkServer { services : gmap bytes service; serializers : gmap Z serializer; compressors : gmap Z compressor }.

Definition RegisterService (s : Server) (sv : service) : Server :=
  mkServer (<[Name sv := sv]> (services s)) (serializers s) (compressors s).
Definition RegisterSerializer (s : Server) (x : serializer) : Server :=
  mkServer (services s) (<[s_Code x := x]> (serializers s)) (compressors s).
Definition RegisterCompressor (s : Server) (x : compressor) : Server :=
  mkServer (services s) (serializers s) (<[c_Code x := x]> (compressors s)).
Definition NewServer (json protobuf : serializer) (gzip : compressor) : Server :=
  RegisterCompressor (RegisterSerializer (RegisterSerializer (mkServer ∅ ∅ ∅) json) protobuf) gzip.

(** [reflectStub.invoke]. *)
Definition stub_invoke (s : Server) (sv : service) (ctx : Ctx) (req : Request) : option (bytes * option bytes) :=
  match methods sv !! MethodName req with
  | None | Some OtherShape => None
  | Some (Handler arg f) =>
      let decompressed := match compressors s !! Compressor req with
                          | Some c => c_Decompress c (Data req)
                          | None => inr (Data req)
                          end in
      match decompressed with
      | inl e => Some ([], Some e)
      | inr reqData =>
          match serializers s !! Serializer req with
          | None => None
          | Some ser =>
              match s_Decode ser arg reqData with
              | (_, Some e) => Some ([], Some e)
              | (v, None) =>
                  match f ctx v with
                  | None => None
                  | Some (None, err) => Some ([], err)
                  | Some (Some out, err) =>
                      match s_Encode ser out with
                      | inl e => Some ([], Some e)
                      | inr responseData => Some (responseData, err)
                      end
                  end
              end
          end
      end
  end.

Definition err_no_service (name : bytes) : bytes := bytes_of "micro: 服务[" ++ name ++ bytes_of "]不存在".
Definition err_one_way : bytes := bytes_of "micro: 微服务服务端 oneway 请求".

(** [Server.invoke]: the response, the error, and the work of a goroutine it
    starts. *)
Definition server_invoke (s : Server) (ctx : Ctx) (req : Request)
    : option (option Response * option bytes * option (unit → option (bytes * option bytes))) :=
  let resp data := mkResp 0 0 (MessageID req) (Version req) (Compressor req) (Serializer req) [] data in
  match services s !! ServiceName req with
  | None => Some (Some (resp []), Some (err_no_service (ServiceName req)), None)
  | Some sv =>
      if isOneWay ctx then Some (None, Some err_one_way, Some (λ _, stub_invoke s sv ctx req))
      else match stub_invoke s sv ctx req with
           | None => None
           | Some (data, err) => Some (Some (resp data), err, None)
           end
  end.

(** The context [handleConn] builds from the metadata. *)
Definition request_ctx (req : Request) : Ctx :=
  let ctx := match Meta req !! key_deadline with
             | Some str => match atoi (string_of str) with Some d => WithDeadline Background (of_UnixMilli d) | None => Background end
             | None => Background
             end in
  if bool_decide (Meta req !! key_one_way = Some val_true) then CtxWithOneWay ctx else ctx.

Definition set_error (r : Response) (e : bytes) : Response :=
  mkResp (rHeadLength r) (rBodyLength r) (rMessageID r) (rVersion r) (rCompressor r) (rSerializer r) e (rData r).
Definition set_lengths (r : Response) : Response :=
  mkResp (rCalculateHeadLength r) (rCalculateBodyLength r) (rMessageID r) (rVersion r) (rCompressor r) (rSerializer r)
    (ErrorInfo r) (rData r).

(** One request of [handleConn]: [None] a panic, otherwise the bytes to write, if
    any. *)
Definition serve_request (s : Server) (data : bytes) : option (option bytes) :=
  req ← DecodeRequest data;
  '(response, businessExecErr, _) ← server_invoke s (request_ctx req) req;
  if bool_decide (Meta req !! key_one_way = Some val_true) then Some None
  else
    response ← response;
    let response := match businessExecErr with Some e => set_error response e | None => response end in
    bs ← EncodeResponse (set_lengths response);
    Some (Some bs).

(** [handleConn]: the replies written and how the loop ends; [write_ok i] tells
    whether the [i]-th write succeeds.  Every round consumes input, so
    [wire_size w] rounds are enough. *)
Inductive conn_end := ReadFailed | WriteFailed | Crashed | OutOfFuel.
Definition wire_size (w : wire) : nat := (length (concat w) + length w)%nat.
Fixpoint handleConn (fuel : nat) (s : Server) (w : wire) (write_ok : nat → bool) (i : nat) : list bytes * conn_end :=
  match fuel with
  | O => ([], OutOfFuel)
  | S fuel' =>
      match ReceiveStream w with
      | None => ([], Crashed)
      | Some (None, _) => ([], ReadFailed)
      | Some (Some data, w) =>
          match serve_request s data with
          | None => ([], Crashed)
          | Some None => handleConn fuel' s w write_ok i
          | Some (Some bs) =>
              if write_ok i then let '(out, e) := handleConn fuel' s w write_ok (S i) in (bs :: out, e)
              else ([], WriteFailed)
          end
      end
  end.

(** ** Client *)
Record Client := mkClient { cl_serializer : serializer; cl_compressor : option compressor }.

(** The request the generated function builds; [order] is the iteration order of
    the metadata in the length computation. *)
Definition request_meta (ctx : Ctx) : gmap bytes bytes :=
  let meta := match deadline ctx with Some d => {[key_deadline := bytes_of (pretty (UnixMilli d))]} | None => ∅ end in
  if isOneWay ctx then <[key_one_way := val_true]> meta else meta.
Definition build_request (c : Client) (ctx : Ctx) (service_name method_name : bytes) (arg : V)
    (order : list (bytes * bytes)) : bytes + Request :=
  match s_Encode (cl_serializer c) arg with
  | inl e => inl e
  | inr reqData =>
      let compressed := match cl_compressor c with Some z => c_Compress z reqData | None => inr reqData end in
      match compressed with
      | inl e => inl e
      | inr reqData =>
          let comp := match cl_compressor c with Some z => c_Code z | None => 0 end in
          let r := mkReq 0 0 0 0 comp (s_Code (cl_serializer c)) service_name method_name (request_meta ctx) reqData in
          inr (mkReq (CalculateHeadLength r order) (CalculateBodyLength r) 0 0 comp (s_Code (cl_serializer c))
                 service_name method_name (request_meta ctx) reqData)
      end
  end.

(** The rest of the generated function, from the answer of [invoke] on. *)
Definition finish_call (c : Client) (out : T) (zero : T → V) (r : bytes + Response) : V * option bytes :=
  match r with
  | inl e => (zero out, Some e)
  | inr resp =>
      let business := match ErrorInfo resp with [] => None | e => Some e end in
      match rData resp with
      | [] => (zero out, business)
      | data => match s_Decode (cl_serializer c) out data with
                | (v, Some e) => (v, Some e)
                | (v, None) => (v, business)
                end
      end
  end.

Definition err_client_one_way : bytes := bytes_of "mirco: one-way调用，不必处理结果".

(** [sendAndReceive]: the connection comes from the pool, or the error of [Get];
    it goes back to the pool in every case.  [w] is what the connection delivers
    after the write. *)
Definition sendAndReceive (ctx : Ctx) (got : bytes + wire) (write_err read_err : option bytes) : option (bytes + bytes) * wire :=
  match got with
  | inl e => (Some (inl e), [])
  | inr w =>
      match write_err with
      | Some e => (Some (inl e), w)
      | None =>
          if isOneWay ctx then (Some (inl err_client_one_way), w)
          else match ReceiveStream w with
               | None => (None, w)
               | Some (None, w) => (Some (inl (default [] read_err)), w)
               | Some (Some data, w) => (Some (inr data), w)
               end
      end
  end.

(** [doInvoke], given the order in which the encoder iterates the metadata, up to
    the bytes sent, and from the bytes received. *)
Definition doInvoke_send (req : Request) (order : list (bytes * bytes)) : option bytes := EncodeRequest req order.
Definition doInvoke_recv (r : option (bytes + bytes)) : option (bytes + Response) :=
  match r with
  | None => None
  | Some (inl e) => Some (inl e)
  | Some (inr data) => match DecodeResponse data with Some resp => Some (inr resp) | None => None end
  end.
End rpc.
Arguments serializer : clear implicits.
Arguments method : clear implicits.
Arguments service : clear implicits.
Arguments Server : clear implicits.
Arguments Client : clear implicits.

(** ** [Client.invoke]: the caller and the goroutine that does the call

    The channel has room for one element and is closed when the caller returns. *)
Inductive goroutine := GRunning | GAssigned | GSent | GPanicked.
Inductive caller := CWaiting | CReturned (r : bytes + Response).
Record invocation := mkInv {
  ctx_err : option bytes; chan_full : bool; chan_closed : bool;
  shared : option (bytes + Response);     (** the captured [response] and [err] *)
  gor : goroutine; cal : caller }.

Inductive inv_step : invocation → invocation → Prop :=
| i_expire e b s i g : inv_step (mkInv None b s i g CWaiting) (mkInv (Some e) b s i g CWaiting)
| i_assign x b s i c r : inv_step (mkInv x b s i GRunning c) (mkInv x b s (Some r) GAssigned c)
| i_send x b i c : inv_step (mkInv x b false i GAssigned c) (mkInv x true false i GSent c)
| i_send_closed x b i c : inv_step (mkInv x b true i GAssigned c) (mkInv x b true i GPanicked c)
| i_recv x i g r : i = Some r → inv_step (mkInv x true false i g CWaiting) (mkInv x false true i g (CReturned r))
| i_done e b i g : inv_step (mkInv (Some e) b false i g CWaiting) (mkInv (Some e) b true i g (CReturned (inl e))).

(** [invoke] returns at once when the context is already over. *)
Definition invoke_start (x : option bytes) : invocation + bytes :=
  match x with Some e => inr e | None => inl (mkInv None false false None GRunning CWaiting) end.
