(* ===== verification/RpcFacts.v ===== *)
(** * Correctness of the reflective RPC framework *)

From stdpp Require Import pretty.
From S2P Require Import Prelude GoStrings Decimal RpcMessage RpcMessageFacts Rpc.
Local Open Scope Z_scope.

(** A byte that does not occur in a given constant. *)
Ltac not_in := match goal with |- ?c ∉ ?l => refine (bool_decide_eq_true_1 (c ∉ l) _); reflexivity end.

(** ** Streams *)

(** A message that arrives in one segment is received whole, and nothing else. *)
Lemma ReceiveStream_whole hl bl rest w : 0 <= hl < 2 ^ 32 → 0 <= bl < 2 ^ 32 → (0 < length rest)%nat →
  hl + bl = 8 + Z.of_nat (length rest) → hl + bl < 2 ^ 32 →
  ReceiveStream ((be_put 4 hl ++ be_put 4 bl ++ rest) :: w) = Some (Some (be_put 4 hl ++ be_put 4 bl ++ rest), w).
Proof.
  intros Hh Hb Hr Hs Hlt. unfold ReceiveStream, conn_Read.
  assert (length (be_put 4 hl ++ be_put 4 bl) = 8%nat) as H8 by (rewrite length_app, !be_put_length; done).
  rewrite (app_assoc (be_put 4 hl)). rewrite length_app, H8.
  destruct (Nat.leb_spec (8 + length rest) 8); [lia|].
  rewrite (take_app_length' (be_put 4 hl ++ be_put 4 bl) rest 8) by done.
  rewrite (drop_app_length' (be_put 4 hl ++ be_put 4 bl) rest 8) by done. unfold fill. rewrite H8. cbn [replicate Nat.sub].
  rewrite app_nil_r.
  assert (length (be_put 4 hl) = 4%nat) as H4 by apply be_put_length.
  rewrite (take_app_length' (be_put 4 hl) (be_put 4 bl) 4), (drop_app_length' (be_put 4 hl) (be_put 4 bl) 4) by done.
  rewrite !be_get_put_small by (cbn; lia).
  rewrite u32_small by lia. destruct (Nat.ltb_spec (Z.to_nat (hl + bl)) 8); [lia|].
  replace (Z.to_nat (hl + bl) - 8)%nat with (length rest) by lia.
  rewrite firstn_all, Nat.leb_refl, Nat.sub_diag. cbn [replicate]. by rewrite app_nil_r.
Qed.

Lemma fixed_split hl bl id v c s rest : fixed_part hl bl id v c s ++ rest =
  be_put 4 hl ++ be_put 4 bl ++ (be_put 4 id ++ [byte_of v; byte_of c; byte_of s]) ++ rest.
Proof. unfold fixed_part. by rewrite <- !app_assoc. Qed.

(** ** What the framework relies on

    [has_type t v]: the Go value [v] has type [t]; [zero t] is its zero value. *)
Section framework.
Context {T V : Type} (has_type : T → V → Prop) (zero : T → V).

Class SerializerOk (ser : serializer T V) : Prop := {
  ser_code : 0 <= s_Code ser < 256;
  ser_roundtrip t v b : has_type t v → s_Encode ser v = inr b → s_Decode ser t b = (v, None);
  ser_empty t v : has_type t v → s_Encode ser v = inr [] → v = zero t }.
Class CompressorOk (z : compressor) : Prop := {
  comp_code : 0 <= c_Code z < 256;
  comp_roundtrip b b' : c_Compress z b = inr b' → c_Decompress z b' = inr b }.

(** Client and server agree on the codes the client uses. *)
Record agree (c : Client T V) (s : Server T V) : Prop := {
  ag_ser : serializers s !! s_Code (cl_serializer c) = Some (cl_serializer c);
  ag_comp : match cl_compressor c with
            | Some z => compressors s !! c_Code z = Some z ∧ CompressorOk z
            | None => compressors s !! 0 = None
            end }.

(** ** The request on the wire *)
Definition ctx_ok (ctx : Ctx) : Prop := match deadline ctx with Some d => 0 < UnixMilli d < 2 ^ 63 | None => True end.
(** The caller's context as the server gets to know it: the deadline in whole
    milliseconds. *)
Definition sent_ctx (ctx : Ctx) : Ctx := mkCtx ((λ d, of_UnixMilli (UnixMilli d)) <$> deadline ctx) (one_way ctx).
(** It is never later than the caller's, and less than a millisecond earlier. *)
Lemma sent_deadline ctx d : deadline ctx = Some d → ∃ d', deadline (sent_ctx ctx) = Some d' ∧ d - 1000000 < d' <= d.
Proof.
  intros Hd. unfold sent_ctx. cbn [deadline]. rewrite Hd. eexists. split; [done|]. unfold of_UnixMilli, UnixMilli.
  pose proof (Z.mul_div_le d 1000000 ltac:(lia)). pose proof (Z.mod_pos_bound d 1000000 ltac:(lia)).
  pose proof (Z.div_mod d 1000000 ltac:(lia)). lia.
Qed.

Lemma meta_clean ctx k v : ctx_ok ctx → request_meta ctx !! k = Some v → clean_pair (k, v).
Proof.
  intros Hc. unfold request_meta.
  assert (∀ m : gmap bytes bytes, (m !! k = Some v → clean_pair (k, v)) → <[key_one_way := val_true]> m !! k = Some v → clean_pair (k, v)) as H1.
  { intros m Hm. destruct (decide (key_one_way = k)) as [<-|Hne]; [|by rewrite lookup_insert_ne].
    rewrite lookup_insert_eq. intros [= <-]. split; [split|]; not_in. }
  assert ((match deadline ctx with Some d => {[key_deadline := bytes_of (pretty (UnixMilli d))]} | None => ∅ end : gmap bytes bytes) !! k = Some v →
          clean_pair (k, v)) as H2.
  { unfold ctx_ok in Hc. destruct (deadline ctx) as [d|]; [|by rewrite lookup_empty].
    intros [<- <-]%lookup_singleton_Some. split; [split; not_in|]. cbn [snd].
    intros Hin. pose proof (pretty_pos_all is_digit (UnixMilli d) ltac:(lia) (λ c H, H)) as Hall.
    by pose proof (str_all_bytes _ _ _ Hall Hin) as Hn. }
  cbv zeta. destruct (isOneWay ctx); [by apply H1|exact H2].
Qed.

Lemma encode_meta_perm o1 o2 : o1 ≡ₚ o2 → length (encode_meta o1) = length (encode_meta o2).
Proof.
  unfold encode_meta. induction 1 as [|x l l' _ IH|x y l|l1 l2 l3 _ IH1 _ IH2]; cbn [map concat]; [done| | |congruence];
    rewrite !length_app; lia.
Qed.

(** The context the server derives. *)
Lemma request_ctx_ok hl bl id v c s sn mn data ctx : ctx_ok ctx →
  request_ctx (mkReq hl bl id v c s sn mn (request_meta ctx) data) = sent_ctx ctx ∧
  (request_meta ctx !! key_one_way = Some val_true ↔ one_way ctx = true).
Proof.
  intros Hc. unfold request_ctx, request_meta, isOneWay, ctx_ok, sent_ctx in *. cbn [Meta]. destruct ctx as [dl ow]. cbn [deadline one_way] in *.
  assert (key_deadline ≠ key_one_way) as Hne by (by intros H; vm_compute in H).
  split.
  - destruct ow.
    + rewrite lookup_insert_eq, bool_decide_true by done. rewrite lookup_insert_ne by done.
      destruct dl as [d|]; [|by rewrite lookup_empty].
      by rewrite lookup_singleton_eq, string_of_bytes_of, atoi_pretty.
    + destruct dl as [d|].
      * rewrite lookup_singleton_eq, string_of_bytes_of, atoi_pretty by done.
        by rewrite lookup_singleton_ne.
      * by rewrite !lookup_empty.
  - destruct ow; [by rewrite lookup_insert_eq|]. destruct dl; [by rewrite lookup_singleton_ne|by rewrite lookup_empty].
Qed.

Record sendable (ctx : Ctx) (sn mn data : bytes) : Prop := {
  sd_ctx : ctx_ok ctx; sd_sn : NL ∉ sn; sd_mn : NL ∉ mn;
  sd_size : 15 + len sn + 1 + len mn + 1 + len (encode_meta (map_to_list (request_meta ctx))) + len data < 2 ^ 32 }.

Lemma built_request_ok ctx sn mn comp ser data o1 o2 : sendable ctx sn mn data →
  0 <= comp < 256 → 0 <= ser < 256 →
  o1 ≡ₚ map_to_list (request_meta ctx) → o2 ≡ₚ map_to_list (request_meta ctx) →
  let r := mkReq 0 0 0 0 comp ser sn mn (request_meta ctx) data in
  request_ok (mkReq (CalculateHeadLength r o1) (CalculateBodyLength r) 0 0 comp ser sn mn (request_meta ctx) data) o2.
Proof.
  intros [Hc Hs Hm Hz] Hco Hse H1 H2 r. unfold len in Hz.
  assert (∀ o, o ≡ₚ map_to_list (request_meta ctx) →
    len (variable_part r o) = len sn + 1 + len mn + 1 + len (encode_meta (map_to_list (request_meta ctx)))) as Hv.
  { intros o Ho. unfold variable_part, len. cbn [ServiceName MethodName r]. rewrite !length_app, (encode_meta_perm _ _ Ho).
    cbn [length]. lia. }
  assert (CalculateHeadLength r o1 = 15 + len (variable_part r o1)) as Eh
    by (apply head_length_exact; rewrite Hv by done; unfold len; lia).
  assert (CalculateBodyLength r = len data) as Eb by (unfold CalculateBodyLength, len; cbn [Data r]; apply u32_small; lia).
  split; cbn [HeadLength BodyLength MessageID Version Compressor Serializer ServiceName MethodName Meta Data]; try done; try lia.
  - rewrite Eh, !Hv by done. change (variable_part _ o2) with (variable_part r o2). by rewrite Hv.
  - rewrite Eh, Eb, Hv by done. unfold len. lia.
  - apply Forall_forall. intros [k v] Hin. rewrite H2 in Hin. apply elem_of_map_to_list in Hin. by apply (meta_clean ctx).
Qed.
(** ** The response on the wire *)
Lemma reply_delivered r w : 0 <= rMessageID r < 2 ^ 32 →
  0 <= rVersion r < 256 → 0 <= rCompressor r < 256 → 0 <= rSerializer r < 256 →
  15 + len (ErrorInfo r) + len (rData r) < 2 ^ 32 →
  ∃ bs, EncodeResponse (set_lengths r) = Some bs ∧ DecodeResponse bs = Some (set_lengths r) ∧
        ReceiveStream (bs :: w) = Some (Some bs, w).
Proof.
  intros Hi Hv Hc Hs Hz. unfold len in Hz.
  assert (rHeadLength (set_lengths r) = 15 + len (ErrorInfo r)) as Eh
    by (unfold set_lengths, rCalculateHeadLength, len; cbn [rHeadLength]; apply u32_small; lia).
  assert (rBodyLength (set_lengths r) = len (rData r)) as Eb
    by (unfold set_lengths, rCalculateBodyLength, len; cbn [rBodyLength]; apply u32_small; lia).
  assert (response_ok (set_lengths r)) as Hok by (split; try done; rewrite Eh, Eb; unfold len; lia).
  exists (response_wire (set_lengths r)). split_and!; [by apply encode_response_ok|by apply decode_response_ok|].
  unfold response_wire. rewrite fixed_split, Eh, Eb. unfold len.
  apply ReceiveStream_whole; try lia; rewrite !length_app, ?be_put_length; cbn [length set_lengths ErrorInfo rData]; lia.
Qed.

(** ** The server on a request *)
Definition payload (c : Client T V) (arg : V) : bytes + bytes :=
  match s_Encode (cl_serializer c) arg with
  | inl e => inl e
  | inr d => match cl_compressor c with Some z => c_Compress z d | None => inr d end
  end.
Definition comp_code_of (c : Client T V) : Z := match cl_compressor c with Some z => c_Code z | None => 0 end.

Lemma build_request_spec c ctx sn mn arg data o1 : payload c arg = inr data →
  let r := mkReq 0 0 0 0 (comp_code_of c) (s_Code (cl_serializer c)) sn mn (request_meta ctx) data in
  build_request c ctx sn mn arg o1 =
    inr (mkReq (CalculateHeadLength r o1) (CalculateBodyLength r) 0 0 (comp_code_of c) (s_Code (cl_serializer c)) sn mn (request_meta ctx) data).
Proof.
  unfold payload, build_request, comp_code_of. destruct (s_Encode _ _) as [e|d]; [done|].
  destruct (cl_compressor c) as [z|]; [|by intros [= ->]]. intros E. rewrite E. done.
Qed.

(** What the method answers, encoded. *)
Definition answer_data (ser : serializer T V) (ret : option V) : bytes + bytes :=
  match ret with None => inr [] | Some out => s_Encode ser out end.

Lemma stub_invoke_spec c s sv arg_t f ctx req arg data ret err rd :
  SerializerOk (cl_serializer c) → agree c s → methods sv !! MethodName req = Some (Handler arg_t f) →
  Serializer req = s_Code (cl_serializer c) → Compressor req = comp_code_of c → Data req = data →
  has_type arg_t arg → payload c arg = inr data → f ctx arg = Some (ret, err) → answer_data (cl_serializer c) ret = inr rd →
  stub_invoke s sv ctx req = Some (rd, err).
Proof.
  intros Hs [Ha1 Ha2] Hm Es Ec Ed Ht Hp Hf Hr. unfold stub_invoke. rewrite Hm, Es, Ec, Ed, Ha1.
  unfold payload in Hp. destruct (s_Encode _ arg) as [e|d] eqn:Ee; [done|].
  assert (match compressors s !! comp_code_of c with Some z => c_Decompress z data | None => inr data end = inr d) as ->.
  { unfold comp_code_of. destruct (cl_compressor c) as [z|].
    - destruct Ha2 as [-> Hz]. by apply comp_roundtrip.
    - rewrite Ha2. congruence. }
  rewrite (ser_roundtrip arg_t arg d Ht Ee), Hf.
  destruct ret as [out|]; cbn in Hr; [by rewrite Hr|]. congruence.
Qed.

(** Encoded requests arrive whole when they come in one segment. *)
Lemma request_delivered r order w : request_ok r order → ∃ bs,
  EncodeRequest r order = Some bs ∧ DecodeRequest bs = Some r ∧ ReceiveStream (bs :: w) = Some (Some bs, w).
Proof.
  intros H. destruct (request_roundtrip r order H) as (bs & E & D). exists bs. split_and!; [done|done|].
  rewrite (encode_ok r order H) in E. apply (inj Some) in E. subst bs.
  pose proof (q_head _ _ H) as Hh. pose proof (q_body _ _ H) as Hb. pose proof (q_total _ _ H) as Ht. unfold len in *.
  rewrite fixed_split. apply ReceiveStream_whole; rewrite ?length_app, ?be_put_length; cbn [length]; lia.
Qed.

(** The reply to a two-way call, as a response object. *)
Definition reply_to (req : Request) (rd : bytes) (err : option bytes) : Response :=
  mkResp 0 0 (MessageID req) (Version req) (Compressor req) (Serializer req) (default [] err) rd.

Lemma serve_two_way (s : Server T V) sv req ctx rd err data : DecodeRequest data = Some req →
  request_ctx req = ctx → one_way ctx = false → Meta req !! key_one_way ≠ Some val_true →
  services s !! ServiceName req = Some sv → stub_invoke s sv ctx req = Some (rd, err) →
  serve_request s data = (bs ← EncodeResponse (set_lengths (reply_to req rd err)); Some (Some bs)).
Proof.
  intros Hd Hx Ho Hm Hs Hi. unfold serve_request. rewrite Hd. cbn [mbind option_bind].
  unfold server_invoke. rewrite Hx, Hs. unfold isOneWay. rewrite Ho, Hi. cbn [mbind option_bind].
  rewrite bool_decide_false by done. by destruct err.
Qed.

(** What the caller takes for the error: an empty message is none. *)
Definition reported (err : option bytes) : option bytes := match err with Some [] => None | _ => err end.
Lemma finish_reply c out_t req rd err ret : SerializerOk (cl_serializer c) →
  answer_data (cl_serializer c) ret = inr rd → (∀ out, ret = Some out → has_type out_t out) →
  finish_call c out_t zero (inr (set_lengths (reply_to req rd err))) = (default (zero out_t) ret, reported err).
Proof.
  intros Hs Ha Ht. unfold finish_call. cbn [set_lengths reply_to ErrorInfo rData].
  assert (match default [] err with [] => None | e => Some e end = reported err) as -> by (destruct err as [[|]|]; done).
  destruct ret as [out|]; cbn in Ha |- *; [|by injection Ha as <-].
  specialize (Ht out eq_refl). destruct rd as [|x rd]; [by rewrite (ser_empty out_t out Ht Ha)|].
  by rewrite (ser_roundtrip out_t out _ Ht Ha).
Qed.

(** Calls through the reflective client and server work end to end: when both
    sides agree on serializer and compressor and these invert themselves, the
    service has the method, names contain no newline, sizes fit 32 bits and each
    message arrives in one segment, then the call of the generated function runs
    the method once with the caller's argument and deadline, cut to milliseconds, in
    whatever order the metadata map is iterated, the server writes exactly one
    reply and waits for more, and the caller receives the method's result (the
    zero value for nil) together with the method's error message; an error with an
    empty message is lost. *)
Theorem rpc_call_end_to_end (c : Client T V) (s : Server T V) sv arg_t out_t f ctx sn mn arg data ret err rd o1 o2 :
  SerializerOk (cl_serializer c) → agree c s → services s !! sn = Some sv → methods sv !! mn = Some (Handler arg_t f) →
  has_type arg_t arg → payload c arg = inr data → sendable ctx sn mn data → one_way ctx = false →
  o1 ≡ₚ map_to_list (request_meta ctx) → o2 ≡ₚ map_to_list (request_meta ctx) →
  f (sent_ctx ctx) arg = Some (ret, err) → answer_data (cl_serializer c) ret = inr rd → (∀ out, ret = Some out → has_type out_t out) →
  15 + len (default [] err) + len rd < 2 ^ 32 →
  ∃ req bs rs r resp,
    build_request c ctx sn mn arg o1 = inr req ∧ doInvoke_send req o2 = Some bs ∧
    handleConn (S (wire_size [bs])) s [bs] (λ _, true) 0 = ([rs], ReadFailed) ∧
    sendAndReceive ctx (inr [rs]) None None = (r, []) ∧ doInvoke_recv r = Some resp ∧
    finish_call c out_t zero resp = (default (zero out_t) ret, reported err).
Proof.
  intros Hs Hag Hsv Hm Ht Hp Hsd Ho H1 H2 Hf Ha Hty Hz.
  assert (0 <= comp_code_of c < 256) as Hco.
  { unfold comp_code_of. destruct Hag as [_ Hc]. destruct (cl_compressor c) as [z|]; [|lia]. destruct Hc as [_ Hz']. apply Hz'. }
  pose proof ser_code as Hse. pose proof (build_request_spec c ctx sn mn arg data o1 Hp) as Hb. cbn zeta in Hb.
  pose proof (built_request_ok ctx sn mn _ _ data o1 o2 Hsd Hco Hse H1 H2) as Hok. cbn zeta in Hok.
  set (req := mkReq (CalculateHeadLength _ _) _ _ _ _ _ _ _ _ _) in *.
  destruct (request_delivered req o2 [] Hok) as (bs & Eb & Db & Rb).
  destruct (reply_delivered (reply_to req rd err) []) as (rs & Er & Dr & Rr); [cbn; lia..|].
  destruct (request_ctx_ok (HeadLength req) (BodyLength req) 0 0 (comp_code_of c) (s_Code (cl_serializer c)) sn mn data ctx) as [Hctx How];
    [apply Hsd|].
  assert (serve_request s bs = Some (Some rs)) as Hserve.
  { rewrite (serve_two_way s sv req (sent_ctx ctx) rd err bs Db Hctx Ho); [by rewrite Er| | |].
    - cbn. intros Hw%How. congruence.
    - done.
    - by apply (stub_invoke_spec c s sv arg_t f (sent_ctx ctx) req arg data ret err rd). }
  exists req, bs, rs, (Some (inr rs)), (inr (set_lengths (reply_to req rd err))). split_and!; [done|done| | | |].
  - cbn [handleConn]. rewrite Rb, Hserve. unfold wire_size. cbn [concat length Nat.add].
    rewrite Nat.add_1_r. cbn [handleConn ReceiveStream conn_Read]. done.
  - unfold sendAndReceive, isOneWay. by rewrite Ho, Rr.
  - cbn. by rewrite Dr.
  - by apply finish_reply.
Qed.
End framework.

(** ** The connection loop terminates *)
Lemma conn_Read_shrinks w n b w' : conn_Read w n = Some (b, w') →
  (wire_size w' <= wire_size w)%nat ∧ ((0 < n)%nat → (wire_size w' < wire_size w)%nat).
Proof.
  unfold conn_Read, wire_size. destruct w as [|c w]; [done|]. intros [= <- <-]. cbn [concat length]. rewrite length_app.
  destruct (Nat.leb_spec (length c) n); cbn [concat length]; rewrite ?length_app, ?length_drop; lia.
Qed.

Lemma ReceiveStream_shrinks w data w' : ReceiveStream w = Some (Some data, w') → (wire_size w' < wire_size w)%nat.
Proof.
  unfold ReceiveStream. destruct (conn_Read w 8) as [[b w1]|] eqn:E1; [|done].
  destruct (_ <? 8)%nat; [done|]. destruct (conn_Read w1 _) as [[b2 w2]|] eqn:E2; [|done]. intros [= _ <-].
  destruct (conn_Read_shrinks _ _ _ _ E1) as [_ H1]. destruct (conn_Read_shrinks _ _ _ _ E2) as [H2 _].
  specialize (H1 ltac:(lia)). lia.
Qed.

Lemma handleConn_ends {T V} (s : Server T V) ok : ∀ fuel w i, (wire_size w < fuel)%nat → (handleConn fuel s w ok i).2 ≠ OutOfFuel.
Proof.
  induction fuel as [|fuel IH]; intros w i Hf; [lia|]. cbn [handleConn].
  destruct (ReceiveStream w) as [[[data|] w']|] eqn:E; [|done|done].
  pose proof (ReceiveStream_shrinks _ _ _ E). destruct (serve_request s data) as [[bs|]|]; [|apply IH; lia|done].
  destruct (ok i); [|done]. specialize (IH w' (S i) ltac:(lia)). by destruct (handleConn fuel s w' ok (S i)).
Qed.

(** ** The caller and the goroutine of [Client.invoke] *)
Definition inv_reachable (st : invocation) : Prop := ∃ st0, invoke_start None = inl st0 ∧ rtc inv_step st0 st.

Record inv_ok (st : invocation) : Prop := {
  io_answer : ∀ r, cal st = CReturned r →
    (shared st = Some r ∧ gor st = GSent) ∨ (∃ e, ctx_err st = Some e ∧ r = inl e);
  io_closed : chan_closed st = true ↔ cal st ≠ CWaiting;
  io_full : chan_full st = true → gor st = GSent;
  io_sent : gor st = GSent → is_Some (shared st) ∧ (cal st = CWaiting → chan_full st = true);
  io_panic : gor st = GPanicked → ∃ e, ctx_err st = Some e ∧ cal st = CReturned (inl e);
  io_value : gor st = GAssigned → is_Some (shared st);
  io_assigned : gor st = GAssigned → ∀ r, cal st = CReturned r → ∃ e, ctx_err st = Some e ∧ r = inl e;
  io_running : gor st = GRunning → ∀ r, cal st = CReturned r → ∃ e, ctx_err st = Some e ∧ r = inl e }.

Lemma inv_step_ok st st' : inv_ok st → inv_step st st' → inv_ok st'.
Proof.
  intros [A1 A2 A3 A4 A5 A8 A6 A7] Hs. destruct Hs as [e b s i g|x b s i c r|x b i c|x b i c|x i g r Hi|e b i g];
    cbn in *; split; cbn; intros; simplify_eq; eauto; try done.
  - by destruct (A5 eq_refl) as (? & ? & ?).
  - by specialize (A3 eq_refl).
  - by specialize (A3 eq_refl).
  - destruct c as [|r]; [by destruct (proj1 A2 eq_refl)|]. destruct (A6 eq_refl r eq_refl) as (e & ? & ->). eauto.
  - by destruct (A5 eq_refl) as (? & ? & ?).
  - by specialize (A3 eq_refl).
  - by specialize (A3 eq_refl).
  - split; [by apply A4|done].
Qed.

Lemma inv_reachable_ok st : inv_reachable st → inv_ok st.
Proof.
  intros (st0 & [= <-] & H). apply (rtc_invariant inv_step inv_ok inv_step_ok _ _ H).
  split; cbn; naive_solver.
Qed.

(** C39: The answer of a client call, in every interleaving of the caller, the
    goroutine that does the exchange and the context: what the caller returns is
    either exactly what the goroutine obtained or the error of a context that is
    over; while it waits with a live context a finished exchange can be received;
    and the goroutine panics exactly when it finishes after the caller left, which
    is certain once the caller has returned on its context before the answer. *)
Theorem invoke_outcomes st : inv_reachable st →
  (∀ r, cal st = CReturned r → (shared st = Some r ∧ gor st = GSent) ∨ (∃ e, ctx_err st = Some e ∧ r = inl e)) ∧
  (gor st = GSent → cal st = CWaiting → ∃ r st', shared st = Some r ∧ inv_step st st' ∧ cal st' = CReturned r) ∧
  (gor st = GPanicked → ∃ e, ctx_err st = Some e ∧ cal st = CReturned (inl e)) ∧
  (gor st = GAssigned → cal st ≠ CWaiting →
     (∃ st', inv_step st st') ∧ ∀ st', inv_step st st' → gor st' = GPanicked).
Proof.
  intros [A1 A2 A3 A4 A5 A8 A6 A7]%inv_reachable_ok. destruct st as [x b s i g c]. cbn in *. split_and!; [done| |done|].
  - intros -> ->. destruct (A4 eq_refl) as [[r ->] Hf]. rewrite (Hf eq_refl).
    destruct s; [by destruct (proj1 A2 eq_refl)|]. exists r. eexists. split_and!; [done|by apply i_recv|done].
  - intros -> Hc. apply A2 in Hc. subst s. split; [eexists; apply i_send_closed|].
    intros st' Hs. inversion Hs; subst; try done. by destruct (proj1 A2 eq_refl).
Qed.

(** ** Witnesses and what the conditions are for *)

(** A service of byte strings with an identity serializer. *)
Definition raw_ser : serializer unit bytes := mkSer 1 inr (λ _ b, (b, None)).
Definition raw_gzip : compressor := mkComp 1 (λ b, inr (rev b)) (λ b, inr (rev b)).
#[local] Instance raw_ser_ok : SerializerOk (λ _ _, True) (λ _, []) raw_ser.
Proof. split; [done| |]; [intros t v b _ [= ->]; done|intros t v _ [= ->]; done]. Qed.
#[local] Instance raw_gzip_ok : CompressorOk raw_gzip.
Proof. split; [done|]. intros b b' [= <-]. cbn. by rewrite rev_involutive. Qed.

Definition echo : method unit bytes := Handler tt (λ ctx v, Some (Some v, match deadline ctx with Some _ => None | None => Some (bytes_of "late") end)).
Definition silent : method unit bytes := Handler tt (λ _ _, Some (None, Some [])).
Definition user : service unit bytes :=
  mkService (bytes_of "user") {[bytes_of "Echo" := echo; bytes_of "Silent" := silent; bytes_of "Name" := OtherShape]}.
Definition ex_server : Server unit bytes := RegisterService (NewServer raw_ser (mkSer 2 inr (λ _ b, (b, None))) raw_gzip) user.
Definition ex_client : Client unit bytes := mkClient raw_ser (Some raw_gzip).

Definition ex_ctx : Ctx := mkCtx (Some 1700000000000123456) false.
Lemma rpc_call_end_to_end_witness : ∃ req bs rs r resp,
  build_request ex_client ex_ctx (bytes_of "user") (bytes_of "Echo") (bytes_of "hi") (map_to_list (request_meta ex_ctx)) = inr req ∧
  doInvoke_send req (map_to_list (request_meta ex_ctx)) = Some bs ∧
  handleConn (S (wire_size [bs])) ex_server [bs] (λ _, true) 0 = ([rs], ReadFailed) ∧
  sendAndReceive ex_ctx (inr [rs]) None None = (r, []) ∧ doInvoke_recv r = Some resp ∧
  finish_call ex_client tt (λ _, []) resp = (bytes_of "hi", None).
Proof.
  apply (rpc_call_end_to_end (λ _ _, True) (λ _, []) ex_client ex_server user tt tt
           (λ ctx v, Some (Some v, match deadline ctx with Some _ => None | None => Some (bytes_of "late") end))
           ex_ctx (bytes_of "user") (bytes_of "Echo") (bytes_of "hi") (bytes_of "ih") (Some (bytes_of "hi")) None (bytes_of "hi")).
  - exact raw_ser_ok.
  - split; [reflexivity|split; [reflexivity|exact raw_gzip_ok]].
  - reflexivity.
  - reflexivity.
  - exact I.
  - reflexivity.
  - split; [done|not_in|not_in|reflexivity].
  - reflexivity.
  - reflexivity.
  - reflexivity.
  - reflexivity.
  - reflexivity.
  - intros; exact I.
  - reflexivity.
Defined.

(** The call finishes after its context: the interleaving that ends the process. *)
Definition late_call : invocation :=
  mkInv (Some (bytes_of "context deadline exceeded")) false true (Some (inl [])) GAssigned (CReturned (inl (bytes_of "context deadline exceeded"))).
Lemma late_call_reachable : inv_reachable late_call.
Proof.
  eexists. split; [reflexivity|].
  eapply rtc_l; [apply (i_expire (bytes_of "context deadline exceeded"))|].
  eapply rtc_l; [apply i_done|]. eapply rtc_l; [apply i_assign|]. apply rtc_refl.
Qed.
Lemma invoke_outcomes_witness : (∃ st', inv_step late_call st') ∧ ∀ st', inv_step late_call st' → gor st' = GPanicked.
Proof. apply (invoke_outcomes late_call late_call_reachable); [reflexivity|discriminate]. Defined.

(** Requests that end the server process: an unknown method, a method of another
    shape, an unknown serializer code. *)
Definition raw_request (mn : bytes) (ser : Z) : option bytes :=
  let r := mkReq 0 0 0 0 0 ser (bytes_of "user") mn ∅ [] in
  EncodeRequest (mkReq (CalculateHeadLength r []) 0 0 0 0 ser (bytes_of "user") mn ∅ []) [].
Example unknown_method_crashes_server :
  (λ bs, (handleConn 9 ex_server [bs] (λ _, true) 0).2) <$> raw_request (bytes_of "Nope") 1 = Some Crashed.
Proof. vm_compute. reflexivity. Qed.
Example name_method_crashes_server :
  (λ bs, (handleConn 9 ex_server [bs] (λ _, true) 0).2) <$> raw_request (bytes_of "Name") 1 = Some Crashed.
Proof. vm_compute. reflexivity. Qed.
Example unknown_serializer_crashes_server :
  (λ bs, (handleConn 9 ex_server [bs] (λ _, true) 0).2) <$> raw_request (bytes_of "Echo") 9 = Some Crashed.
Proof. vm_compute. reflexivity. Qed.

(** An error with an empty message reaches the caller as a success. *)
Example empty_error_is_success :
  (bs ← raw_request (bytes_of "Silent") 1; rs ← serve_request ex_server bs ≫= id;
   resp ← DecodeResponse rs; Some (finish_call ex_client tt (λ _, []) (inr resp))) = Some ([], None).
Proof. vm_compute. reflexivity. Qed.

(** Connections go back to the pool whatever happened on them: after a reply that
    came in two segments the next call on the connection reads the rest of it. *)
Example leftover_poisons_next_call :
  let reply := fixed_part 15 12 0 0 0 1 ++ bytes_of "first-second" in
  let '(r1, w) := sendAndReceive Background (inr [take 20 reply; drop 20 reply]) None None in
  (∃ b, r1 = Some (inr b) ∧ b ≠ reply) ∧ w = [drop 20 reply].
Proof. vm_compute. split; [|reflexivity]. eexists. split; [reflexivity|discriminate]. Qed.
