(* ===== verification/RpcStack.v ===== *)
(** * The RPC framework with its own codecs

    Models the serializers of [src/micro/rpc/serialize], the compressor of
    [src/micro/rpc/compressor], and of [src/micro/rpc/client.go] and
    [src/micro/rpc/server.go] what puts them together: [NewClient] and its options,
    [InitClientProxy], [NewServer] and the accept loop of [Start].  [encoding/json],
    protobuf and [compress/gzip] are parameters.  Values and types are as in [Rpc]. *)

From S2P Require Import Prelude GoStrings RpcMessage Rpc.
Local Open Scope Z_scope.

Definition JsonSerializer : Z := 1.
Definition ProtoSerializer : Z := 2.
Definition Gzip : Z := 1.

(** ** Library code *)
(** [as_proto]: the assertion to [proto.Message]; [proto_type]: whether a pointer to
    the type is one. *)
Class Codecs (T V M : Type) := {
  json_Marshal : V → bytes + bytes;
  json_Unmarshal : T → bytes → V * option bytes;
  as_proto : V → option M;
  proto_type : T → bool;
  proto_Marshal : M → bytes + bytes;
  proto_Unmarshal : T → bytes → V * option bytes;
  zero_of : T → V }.
(** A writer of [compress/gzip] over a buffer, and a reader. *)
Class GzipLib (G R : Type) := {
  gz_NewWriter : G;
  gz_Write : bytes → G → G * option bytes;
  gz_Close : G → G * option bytes;
  gz_Bytes : G → bytes;
  gz_NewReader : bytes → bytes + R;
  io_Copy : R → bytes * option bytes }.

(** ** Serializers and compressor *)
Section codecs.
Context {T V M : Type} `{Codecs T V M}.
Definition err_not_proto : bytes := bytes_of "micro: 输入参数类型不是proto.Message".

Definition json_serializer : serializer T V := mkSer JsonSerializer json_Marshal json_Unmarshal.
Definition proto_Encode (value : V) : bytes + bytes :=
  match as_proto value with None => inl err_not_proto | Some msg => proto_Marshal msg end.
Definition proto_Decode (t : T) (data : bytes) : V * option bytes :=
  if proto_type t then proto_Unmarshal t data else (zero_of t, Some err_not_proto).
Definition proto_serializer : serializer T V := mkSer ProtoSerializer proto_Encode proto_Decode.
End codecs.

Section gzip.
Context {G R : Type} `{GzipLib G R}.
Definition Compress (p : bytes) : bytes + bytes :=
  let '(zw, err) := gz_Write p gz_NewWriter in
  match err with
  | Some e => inl e
  | None =>
      let '(zw, err) := gz_Close zw in
      match err with Some e => inl e | None => inr (gz_Bytes zw) end
  end.
(** The deferred close comes after the results are set: its error is lost. *)
Definition Decompress (p : bytes) : bytes * option bytes :=
  match gz_NewReader p with
  | inl e => ([], Some e)
  | inr zr => io_Copy zr
  end.
(** Callers look at the error first. *)
Definition gzip_compressor : compressor :=
  mkComp Gzip Compress (λ p, match Decompress p with (_, Some e) => inl e | (b, None) => inr b end).
End gzip.

(** ** Client and server *)
Section stack.
Context {T V M G R : Type} `{Codecs T V M} `{GzipLib G R}.
Abbreviation RpcClientOption := (Client T V → Client T V).
Definition ClientWithSerializer (s : serializer T V) : RpcClientOption := λ c, mkClient s (cl_compressor c).
Definition ClientWithCompressor (z : compressor) : RpcClientOption := λ c, mkClient (cl_serializer c) (Some z).
(** [pool]: the error of [NewPool], when it could not open its first connection. *)
Definition NewClient (pool : option bytes) (opts : list RpcClientOption) : bytes + Client T V :=
  match pool with
  | Some err => inl err
  | None => inr (foldl (λ c opt, opt c) (mkClient json_serializer None) opts)
  end.
Definition StackServer : Server T V := NewServer json_serializer proto_serializer gzip_compressor.

(** ** Proxies *)
(** The fields of a service struct: functions with argument and result type, or
    anything else. *)
Inductive field_kind := FFunc (arg out : T) | FOther.
Record field := mkField { f_name : bytes; f_CanSet : bool; f_kind : field_kind }.
Inductive service_value := SNil | SStruct (name : bytes) (fields : list field) | SOther.
(** A field that was set: the method it calls. *)
Record proxy_method := mkProxy { px_service : bytes; px_method : bytes; px_arg : T; px_out : T }.
(** [reflect.MakeFunc] panics for a type that is not a function. *)
Fixpoint proxy_fields (name : bytes) (fs : list field) : res bytes (list proxy_method) :=
  match fs with
  | [] => Ok []
  | f :: fs' =>
      if f_CanSet f then
        match f_kind f with
        | FFunc arg out => res_map (cons (mkProxy name (f_name f) arg out)) (proxy_fields name fs')
        | FOther => Panic
        end
      else proxy_fields name fs'
  end.
Definition setFuncFiled (s : service_value) : res bytes (list proxy_method) :=
  match s with
  | SStruct name fields => proxy_fields name fields
  | _ => Err (bytes_of "rpc: service must be a pointer to a struct")
  end.
Definition InitClientProxy (s : service_value) : res bytes (list proxy_method) :=
  match s with
  | SNil => Err (bytes_of "rpc: service is nil")
  | _ => setFuncFiled s
  end.

(** ** Accepting *)
(** [Start] after listening: the connections handed to goroutines, and the error that
    ends the loop; [None] while it goes on. *)
Fixpoint accept_loop {Conn} (accepts : list (bytes + Conn)) : list Conn * option bytes :=
  match accepts with
  | [] => ([], None)
  | inl err :: _ => ([], Some err)
  | inr conn :: accepts' => let '(l, e) := accept_loop accepts' in (conn :: l, e)
  end.
Definition Server_Start {Conn} (listen : option bytes) (accepts : list (bytes + Conn)) : list Conn * option bytes :=
  match listen with Some err => ([], Some err) | None => accept_loop accepts end.
End stack.
