(* ===== verification/RpcStackFacts.v ===== *)
(** * Calls through the framework's own codecs

    The serializers and the compressor discharge what [Rpc] asks of them, so calls
    work between any client and server made with them. *)

From S2P Require Import Prelude GoStrings RpcMessage RpcMessageFacts Rpc RpcFacts RpcStack.
Local Open Scope Z_scope.

(** Documented behaviour of the libraries. *)
Class CodecsOk {T V M} `{Codecs T V M} (has_type : T → V → Prop) : Prop := {
  json_back t v b : has_type t v → json_Marshal v = inr b → json_Unmarshal t b = (v, None);
  json_not_empty v : json_Marshal v ≠ inr [];
  proto_typed t v m : has_type t v → as_proto v = Some m → proto_type t = true;
  proto_back t v m b : has_type t v → as_proto v = Some m → proto_Marshal m = inr b → proto_Unmarshal t b = (v, None);
  proto_empty t v m : has_type t v → as_proto v = Some m → proto_Marshal m = inr [] → v = zero_of t }.
Class GzipOk {G R} `{GzipLib G R} : Prop := {
  gzip_back p zw zw' : gz_Write p gz_NewWriter = (zw, None) → gz_Close zw = (zw', None) →
    ∃ zr, gz_NewReader (gz_Bytes zw') = inr zr ∧ io_Copy zr = (p, None) }.

Section stack.
Context {T V M G R : Type} `{Codecs T V M} `{GzipLib G R} {has_type : T → V → Prop}.
Context {CO : CodecsOk has_type} {GO : GzipOk}.

#[global] Instance json_serializer_ok : SerializerOk has_type zero_of json_serializer.
Proof. split; simpl; [done|intros t v b; apply json_back|]. intros t v _ Hv. by apply json_not_empty in Hv. Qed.
#[global] Instance proto_serializer_ok : SerializerOk has_type zero_of proto_serializer.
Proof.
  split; simpl; [done| |]; unfold proto_Encode.
  - intros t v b Ht. destruct (as_proto v) as [m|] eqn:Hm; [|done]. intros Hb. unfold proto_Decode.
    rewrite (proto_typed t v m Ht Hm). by eapply proto_back.
  - intros t v Ht. destruct (as_proto v) as [m|] eqn:Hm; [|done]. by eapply proto_empty.
Qed.
#[global] Instance gzip_compressor_ok : CompressorOk gzip_compressor.
Proof.
  split; simpl; [done|]. intros b b'. unfold Compress, Decompress.
  destruct (gz_Write b gz_NewWriter) as [zw [e|]] eqn:Hw; [done|]. destruct (gz_Close zw) as [zw' [e|]] eqn:Hc; [done|].
  intros [= <-]. destruct (gzip_back b zw zw' Hw Hc) as (zr & -> & ->). done.
Qed.

(** Options with the framework's codecs. *)
Inductive own_option : (Client T V → Client T V) → Prop :=
| own_json : own_option (ClientWithSerializer json_serializer)
| own_proto : own_option (ClientWithSerializer proto_serializer)
| own_gzip : own_option (ClientWithCompressor gzip_compressor).
Definition own_client (c : Client T V) : Prop :=
  (cl_serializer c = json_serializer ∨ cl_serializer c = proto_serializer) ∧
  (cl_compressor c = None ∨ cl_compressor c = Some gzip_compressor).
Lemma NewClient_own opts c : Forall own_option opts → NewClient None opts = inr c → own_client c.
Proof.
  intros Ho [= <-].
  assert (Hi : own_client (mkClient json_serializer None)) by (split; by left).
  revert Hi. generalize (mkClient (T := T) (V := V) json_serializer None). induction Ho as [|opt opts Hop _ IH]; intros c Hc; [done|].
  simpl. apply IH. destruct Hc as [Hs Hz]. destruct Hop; split; simpl; auto.
Qed.
Lemma own_agree c sv : own_client c → agree c (RegisterService StackServer sv).
Proof.
  intros [Hs Hz]. split; simpl.
  - destruct Hs as [->| ->]; by simplify_map_eq.
  - destruct Hz as [->| ->]; [by simplify_map_eq|]. split; [by simplify_map_eq|apply gzip_compressor_ok].
Qed.

(** C20: calls work end to end with the framework's own codecs.  For a client made by
    [NewClient] with any options among JSON, protobuf and gzip, and a server made by
    [NewServer] with the service registered: when the libraries invert what they
    encode, the call is not one-way, names contain no newline, a deadline lies after
    1970, sizes fit 32 bits, and reads and writes succeed with each message in one
    segment, a call of a generated function runs the method once with the caller's
    argument and the caller's deadline cut to whole milliseconds, and the caller
    receives the method's result (the zero value for nil) and error message, where an
    empty message is no error; the server writes one reply and waits for more. *)
Theorem stack_call_works opts c sv arg_t out_t f ctx mn arg data ret err rd o1 o2 :
  Forall own_option opts → NewClient None opts = inr c → methods sv !! mn = Some (Handler arg_t f) →
  has_type arg_t arg → payload c arg = inr data → sendable ctx (Name sv) mn data → one_way ctx = false →
  o1 ≡ₚ map_to_list (request_meta ctx) → o2 ≡ₚ map_to_list (request_meta ctx) →
  f (sent_ctx ctx) arg = Some (ret, err) → answer_data (cl_serializer c) ret = inr rd → (∀ out, ret = Some out → has_type out_t out) →
  15 + len (default [] err) + len rd < 2 ^ 32 →
  ∃ req bs rs r resp,
    build_request c ctx (Name sv) mn arg o1 = inr req ∧ doInvoke_send req o2 = Some bs ∧
    handleConn (S (wire_size [bs])) (RegisterService StackServer sv) [bs] (λ _, true) 0 = ([rs], ReadFailed) ∧
    sendAndReceive ctx (inr [rs]) None None = (r, []) ∧ doInvoke_recv r = Some resp ∧
    finish_call c out_t zero_of resp = (default (zero_of out_t) ret, reported err).
Proof.
  intros Ho Hc Hm Ht Hp Hs Hw H1 H2 Hf Ha Hty Hz. pose proof (NewClient_own opts c Ho Hc) as Hown.
  assert (Hser : SerializerOk has_type zero_of (cl_serializer c)) by (destruct Hown as [[->| ->] _]; apply _).
  eapply (rpc_call_end_to_end has_type zero_of c (RegisterService StackServer sv) sv arg_t out_t f); try done.
  - by apply own_agree.
  - simpl. by simplify_map_eq.
Qed.
End stack.

(** ** Codecs that mark what they encode *)
#[local] Instance mark_codecs : Codecs unit bytes bytes := {
  json_Marshal v := inr (ascii_of_N 74 :: v);
  json_Unmarshal _ b := (tail b, None);
  as_proto v := Some v;
  proto_type _ := true;
  proto_Marshal v := inr v;
  proto_Unmarshal _ b := (b, None);
  zero_of _ := [] }.
#[local] Instance mark_codecs_ok : CodecsOk (λ _ _, True).
Proof. split; simpl; try done; [by intros t v b _ [= <-]|by intros t v m b _ [= <-] [= <-]|by intros t v m _ [= <-] [= ->]]. Qed.
#[local] Instance mark_gzip : GzipLib bytes bytes := {
  gz_NewWriter := [];
  gz_Write p zw := (zw ++ p, None);
  gz_Close zw := (ascii_of_N 90 :: rev zw, None);
  gz_Bytes zw := zw;
  gz_NewReader b := match b with [] => inl (bytes_of "EOF") | _ :: b' => inr b' end;
  io_Copy r := (rev r, None) }.
#[local] Instance mark_gzip_ok : GzipOk.
Proof. split. intros p zw zw' [= <-] [= <-]. exists (rev p). simpl. by rewrite rev_involutive. Qed.

Definition echo_service : service unit bytes := mkService (bytes_of "user") {[bytes_of "Echo" := echo]}.
Definition gzip_client : Client unit bytes := mkClient json_serializer (Some gzip_compressor).
Definition echo_data : bytes := ascii_of_N 90 :: rev (ascii_of_N 74 :: bytes_of "hi").
Lemma stack_call_works_witness : ∃ req bs rs r resp,
  build_request gzip_client ex_ctx (bytes_of "user") (bytes_of "Echo") (bytes_of "hi") (map_to_list (request_meta ex_ctx)) = inr req ∧
  doInvoke_send req (map_to_list (request_meta ex_ctx)) = Some bs ∧
  handleConn (S (wire_size [bs])) (RegisterService StackServer echo_service) [bs] (λ _, true) 0 = ([rs], ReadFailed) ∧
  sendAndReceive ex_ctx (inr [rs]) None None = (r, []) ∧ doInvoke_recv r = Some resp ∧
  finish_call gzip_client tt zero_of resp = (bytes_of "hi", None).
Proof.
  apply (stack_call_works (has_type := λ _ _, True) [ClientWithCompressor gzip_compressor] gzip_client echo_service tt tt
           (λ ctx v, Some (Some v, match deadline ctx with Some _ => None | None => Some (bytes_of "late") end))
           ex_ctx (bytes_of "Echo") (bytes_of "hi") echo_data (Some (bytes_of "hi")) None (ascii_of_N 74 :: bytes_of "hi")).
  - constructor; [apply own_gzip|constructor].
  - reflexivity.
  - reflexivity.
  - exact I.
  - reflexivity.
  - split; [done|not_in|not_in|reflexivity].
  - reflexivity.
  - reflexivity.
  - reflexivity.
  - reflexivity.
  - reflexivity.
  - intros; exact I.
  - reflexivity.
Defined.

(** ** Proxies *)
(** [InitClientProxy] sets exactly the exported functions, in order, when all exported
    fields are functions, and panics otherwise. *)
Definition exported_other {T} (f : @field T) : bool := f_CanSet f && match f_kind f with FOther => true | _ => false end.
Definition exported_funcs {T} (name : bytes) (fs : list (@field T)) : list proxy_method :=
  omap (λ f, if f_CanSet f then match f_kind f with FFunc a o => Some (mkProxy name (f_name f) a o) | FOther => None end else None) fs.
Lemma InitClientProxy_spec {T} name (fs : list (@field T)) :
  InitClientProxy (SStruct name fs) = if existsb exported_other fs then Panic else Ok (exported_funcs name fs).
Proof.
  simpl. induction fs as [|f fs IH]; [done|]. simpl. unfold exported_other at 1. destruct (f_CanSet f); simpl; [|done].
  destruct (f_kind f); simpl; [|done]. rewrite IH. by destruct (existsb exported_other fs).
Qed.
