(* ===== verification/LocalCache.v ===== *)
(** * The in-memory cache

    Models [src/cache/localCache.go] and [src/cache/size.go].  List nodes are
    shared between the map and a doubly linked list and are updated in place, so
    they live in a heap; a pointer is an index, nil is [None], and dereferencing nil
    is a panic. *)

From S2P Require Import Prelude.
Local Open Scope Z_scope.
Local Open Scope soil_scope.

(** ** Sizes of values (size.go)

    A Go value as reflection shows it; every node carries the size of its type,
    reference kinds their address.  A pointer or map that is met again is not
    entered, so a cyclic value is any finite unfolding of it. *)
Inductive gval :=
| GScalar (tsize : Z)
| GString (tsize addr : Z) (s : string)
| GArray (elem_size : Z) (spare : Z) (elems : list gval)
| GSlice (tsize addr elem_size : Z) (spare : Z) (elems : list gval)
| GPtr (tsize addr : Z) (target : option gval)
| GIface (tsize : Z) (inner : gval)
| GMap (tsize addr : Z) (entries : list (gval * gval))
| GStruct (tsize : Z) (fields : list (Z * gval))
| GOther (kind : string).

(** The set of visited addresses is threaded through the traversal. *)
Fixpoint sizeOf (v : gval) (seen : gset Z) {struct v} : (string + Z) * gset Z :=
  let sum_list := fix go (l : list gval) (acc : Z) (seen : gset Z) : (string + Z) * gset Z :=
    match l with
    | [] => (inr acc, seen)
    | x :: l' => match sizeOf x seen with
                 | (inl e, seen) => (inl e, seen)
                 | (inr s, seen) => go l' (acc + s) seen
                 end
    end in
  match v with
  | GScalar t => (inr t, seen)
  | GString t a s => if decide (a ∈ seen) then (inr t, seen) else (inr (t + Z.of_nat (String.length s)), {[a]} ∪ seen)
  | GArray es spare l =>
      match sum_list l 0 seen with
      | (inl e, seen) => (inl e, seen)
      | (inr s, seen) => (inr (s + spare * es), seen)
      end
  | GSlice t a es spare l =>
      if decide (a ∈ seen) then (inr 0, seen)
      else match sum_list l 0 ({[a]} ∪ seen) with
           | (inl e, seen) => (inl e, seen)
           | (inr s, seen) => (inr (s + t + spare * es), seen)
           end
  | GPtr t a target =>
      if decide (a ∈ seen) then (inr t, seen)
      else let seen := {[a]} ∪ seen in
           match target with
           | None => (inr 8, seen)
           | Some x => match sizeOf x seen with
                       | (inl e, seen) => (inl e, seen)
                       | (inr s, seen) => (inr (s + t), seen)
                       end
           end
  | GIface t x => match sizeOf x seen with
                  | (inl e, seen) => (inl e, seen)
                  | (inr s, seen) => (inr (s + t), seen)
                  end
  | GMap t a l =>
      if decide (a ∈ seen) then (inr 0, seen)
      else
        let go := fix go (l : list (gval * gval)) (acc : Z) (seen : gset Z) : (string + Z) * gset Z :=
          match l with
          | [] => (inr acc, seen)
          | (k, x) :: l' => match sizeOf x seen with
                            | (inl e, seen) => (inl e, seen)
                            | (inr sv, seen) => match sizeOf k seen with
                                                | (inl e, seen) => (inl e, seen)
                                                | (inr sk, seen) => go l' (acc + sv + sk) seen
                                                end
                            end
          end in
        match go l 0 ({[a]} ∪ seen) with
        | (inl e, seen) => (inl e, seen)
        | (inr s, seen) => (inr (s + t), seen)
        end
  | GStruct t fields =>
      let go := fix go (l : list (Z * gval)) (acc : Z) (seen : gset Z) : (string + Z) * gset Z :=
        match l with
        | [] => (inr acc, seen)
        | (_, x) :: l' => match sizeOf x seen with
                          | (inl e, seen) => (inl e, seen)
                          | (inr s, seen) => go l' (acc + s) seen
                          end
        end in
      match go fields 0 seen with
      | (inl e, seen) => (inl e, seen)
      | (inr s, seen) =>
          let padding := foldl (λ p f, p - f.1) t fields in
          (inr (s + padding), seen)
      end
  | GOther k => (inl ("unsupported type: " +:+ k)%string, seen)
  end.

Definition Of (v : gval) : string + Z :=
  match sizeOf v ∅ with (inl e, _) => inl e | (inr s, _) => inr (u32 s) end.
(** A string key, with its data at some address. *)
Definition key_val (k : string) : gval := GString 16 0 k.

(** ** Nodes and the cache *)
Record item := mkItem { key : string; value : gval; deadline : Z; size : Z; prev : option nat; next : option nat }.
(** The zero time is 0. *)
Definition deadlineBefore (i : item) (t : Z) : bool := negb (deadline i =? 0) && (deadline i <? t).
Definition initItem (k : string) : item := mkItem k (GOther "nil") 0 0 None None.

Record cache := mkCache {
  heap : gmap nat item; nextp : nat;       (** the store and the next fresh address *)
  data : gmap string nat; head : nat; tail : nat; csize : Z; capacity : Z;
  evicted : list (string * gval) }.        (** calls of [onEvicted] *)

Definition set_value (v : gval) (i : item) := mkItem (key i) v (deadline i) (size i) (prev i) (next i).
Definition set_prev (p : option nat) (i : item) := mkItem (key i) (value i) (deadline i) (size i) p (next i).
Definition set_next (p : option nat) (i : item) := mkItem (key i) (value i) (deadline i) (size i) (prev i) p.
Definition with_heap (b : cache) h := mkCache h (nextp b) (data b) (head b) (tail b) (csize b) (capacity b) (evicted b).
Definition with_data (b : cache) d := mkCache (heap b) (nextp b) d (head b) (tail b) (csize b) (capacity b) (evicted b).
Definition with_csize (b : cache) s := mkCache (heap b) (nextp b) (data b) (head b) (tail b) s (capacity b) (evicted b).
Definition with_evicted (b : cache) e := mkCache (heap b) (nextp b) (data b) (head b) (tail b) (csize b) (capacity b) e.

(** Assigning a field through a pointer. *)
Definition nxt (h : gmap nat item) (n : nat) : option nat := h !! n ≫= next.
Definition prv (h : gmap nat item) (n : nat) : option nat := h !! n ≫= prev.
Definition assign (h : gmap nat item) (p : option nat) (f : item → item) : res string (gmap nat item) :=
  match p with
  | None => Panic
  | Some n => match h !! n with None => Panic | Some i => Ok (<[n := f i]> h) end
  end.

Definition NewBuildInMapCache (capacity : Z) : cache :=
  let h := <[1%nat := initItem "tail"]> {[0%nat := initItem "head"]} in
  let h := alter (set_next (Some 1%nat)) 0%nat h in
  let h := alter (set_prev (Some 0%nat)) 1%nat h in
  mkCache h 2 ∅ 0 1 0 capacity [].

(** ** The linked list *)
Definition addToHead (b : cache) (node : nat) : res string cache :=
  let h := heap b in
  let? h := assign h (Some node) (set_next (nxt h (head b))) in
  let? h := assign h (Some node) (set_prev (Some (head b))) in
  let? h := assign h (nxt h (head b)) (set_prev (Some node)) in
  let? h := assign h (Some (head b)) (set_next (Some node)) in
  Ok (with_heap b h).

Definition removeNode (b : cache) (node : nat) : res string cache :=
  let h := heap b in
  let? h := assign h (prv h node) (set_next (nxt h node)) in
  let? h := assign h (nxt h node) (set_prev (prv h node)) in
  Ok (with_heap b h).

Definition moveToHead (b : cache) (node : nat) : res string cache :=
  let? b := removeNode b node in addToHead b node.

Definition removeTail (b : cache) : res string (cache * nat) :=
  match prv (heap b) (tail b) with
  | None => Panic
  | Some node => let? b := removeNode b node in Ok (b, node)
  end.

(** ** Operations *)
Definition set (b : cache) (k : string) (v : gval) (expiration pairSize now : Z) : res string cache :=
  let dl := if 0 <? expiration then now + expiration else 0 in
  let n := nextp b in
  let b := mkCache (<[n := mkItem k v dl pairSize None None]> (heap b)) (S n) (<[k := n]> (data b)) (head b) (tail b)
             (csize b) (capacity b) (evicted b) in
  let? b := addToHead b n in
  Ok (with_csize b (u32 (csize b + pairSize))).

(** The eviction loop.  Every round unlinks one node, so the number of nodes in
    the store bounds the rounds. *)
Definition err_fuel : string := "out of fuel".
Fixpoint evict (fuel : nat) (b : cache) (p : option nat) (margin pairSize : Z) : res string cache :=
  if margin <? pairSize then
    match fuel with
    | O => Err err_fuel
    | S fuel' =>
        match p ≫= λ n, heap b !! n with
        | None => Panic
        | Some pi =>
            let margin := u32 (margin + size pi) in
            let? (b, n) := removeTail b in
            match heap b !! n with
            | None => Panic
            | Some ni =>
                let b := with_data b (delete (key ni) (data b)) in
                let b := with_csize b (u32 (csize b - size pi)) in
                evict fuel' b (p ≫= prv (heap b)) margin pairSize
            end
        end
    end
  else Ok b.

Definition Set_ (b : cache) (k : string) (v : gval) (expiration now : Z) : res string cache :=
  match Of (key_val k) with
  | inl e => Err e
  | inr keySize =>
      match Of v with
      | inl e => Err e
      | inr valSize =>
          let pairSize := u32 (keySize + valSize) in
          match data b !! k with
          | Some node =>
              let b := with_heap b (alter (set_value v) node (heap b)) in
              let? b := moveToHead b node in
              set b k v expiration pairSize now
          | None =>
              let? b := (if capacity b <? u32 (csize b + pairSize)
                         then evict (S (nextp b)) b (prv (heap b) (tail b)) (u32 (capacity b - csize b)) pairSize
                         else Ok b) in
              set b k v expiration pairSize now
          end
      end
  end.

(** [delete]: the map entry goes, the list and the size stay. *)
Definition delete_ (b : cache) (k : string) : cache :=
  match data b !! k with
  | None => b
  | Some n => match heap b !! n with
              | None => b
              | Some i => with_evicted (with_data b (delete k (data b))) (evicted b ++ [(k, value i)])
              end
  end.
Definition Delete (b : cache) (k : string) : option cache :=
  match data b !! k with None => None | Some _ => Some (delete_ b k) end.

(** [Get] under the read lock, and under the write lock when the entry has
    expired. *)
Inductive fast := FMiss | FHit (v : gval) | FExpired.
Definition Get_fast (b : cache) (k : string) (now : Z) : fast :=
  match data b !! k ≫= λ n, heap b !! n with
  | None => FMiss
  | Some i => if deadlineBefore i now then FExpired else FHit (value i)
  end.
Definition Get_slow (b : cache) (k : string) (now : Z) : res string (cache * option gval) :=
  match data b !! k with
  | None => Ok (b, None)
  | Some n =>
      match heap b !! n with
      | None => Panic
      | Some i =>
          if deadlineBefore i now then Ok (delete_ b k, None)
          else let? b := moveToHead b n in Ok (b, Some (value i))
      end
  end.
Definition Get (b : cache) (k : string) (now : Z) : res string (cache * option gval) :=
  match Get_fast b k now with
  | FMiss => Ok (b, None)
  | FHit v => Ok (b, Some v)
  | FExpired => Get_slow b k now
  end.

(** One tick of the background goroutine, with the keys in the order the map
    iteration yields them. *)
Definition tick (b : cache) (order : list string) (t : Z) : cache :=
  foldl (λ b k, match data b !! k ≫= λ n, heap b !! n with
                | Some i => if deadlineBefore i t then delete_ b k else b
                | None => b
                end) b (take 1001 order).
