(* ===== verification/LocalCacheFacts.v ===== *)
(** * Correctness of the in-memory cache *)

From S2P Require Import Prelude LocalCache.
Local Open Scope Z_scope.

(** ** Linked lists in the heap *)
Definition edge (h : gmap nat item) (a b : nat) : Prop := nxt h a = Some b ∧ prv h b = Some a.
Fixpoint path (h : gmap nat item) (L : list nat) : Prop :=
  match L with
  | a :: ((b :: _) as L') => edge h a b ∧ path h L'
  | _ => True
  end.

Lemma path_app h A x B : path h (A ++ x :: B) ↔ path h (A ++ [x]) ∧ path h (x :: B).
Proof.
  induction A as [|a [|a' A] IH]; cbn [app].
  - cbn. tauto.
  - cbn. tauto.
  - change (path h (a :: a' :: A ++ x :: B)) with (edge h a a' ∧ path h ((a' :: A) ++ x :: B)).
    change (path h (a :: a' :: A ++ [x])) with (edge h a a' ∧ path h ((a' :: A) ++ [x])). rewrite IH. tauto.
Qed.

Lemma path_frame_init h h' A x : path h (A ++ [x]) →
  (∀ m, m ∈ A → nxt h' m = nxt h m) → (∀ m, m ∈ A ++ [x] → prv h' m = prv h m) → path h' (A ++ [x]).
Proof.
  induction A as [|a A IH]; intros Hp Hn Hv; [done|].
  assert (∃ y B, A ++ [x] = y :: B) as (y & B & E) by (destruct A; eauto).
  cbn [app] in *. rewrite E in *. destruct Hp as [[H1 H2] Hp]. split.
  - split; [rewrite Hn by set_solver; done|rewrite Hv by set_solver; done].
  - apply IH; [done|intros; apply Hn; set_solver|intros; apply Hv; set_solver].
Qed.
Lemma path_frame_tail h h' x B : path h (x :: B) →
  (∀ m, m ∈ x :: B → nxt h' m = nxt h m) → (∀ m, m ∈ B → prv h' m = prv h m) → path h' (x :: B).
Proof.
  revert x. induction B as [|y B IH]; intros x Hp Hn Hv; [done|]. destruct Hp as [[H1 H2] Hp]. split.
  - split; [rewrite Hn by set_solver; done|rewrite Hv by set_solver; done].
  - apply IH; [done|intros; apply Hn; set_solver|intros; apply Hv; set_solver].
Qed.

(** ** Assignments *)
Definition payload (i : item) : string * gval * Z * Z := (key i, value i, deadline i, size i).
Definition pl (h : gmap nat item) (n : nat) := payload <$> h !! n.
Definition upd {A} (f : nat → A) (n : nat) (x : A) (m : nat) : A := if decide (m = n) then x else f m.
Lemma upd_eq {A} (f : nat → A) n x : upd f n x n = x.
Proof. unfold upd. by rewrite decide_True. Qed.
Lemma upd_ne {A} (f : nat → A) n x m : m ≠ n → upd f n x m = f m.
Proof. intros. unfold upd. by rewrite decide_False. Qed.

Lemma is_Some_pl h n : is_Some (h !! n) ↔ is_Some (pl h n).
Proof. unfold pl. by rewrite fmap_is_Some. Qed.

Lemma assign_next h n p : is_Some (h !! n) → ∃ h', assign h (Some n) (set_next p) = Ok h' ∧
  (∀ m, nxt h' m = upd (nxt h) n p m) ∧ (∀ m, prv h' m = prv h m) ∧ (∀ m, pl h' m = pl h m).
Proof.
  intros [i Hi]. unfold assign. rewrite Hi. eexists. split; [done|].
  unfold nxt, prv, pl, upd. split_and!; intros m; destruct (decide (m = n)) as [->|];
    rewrite ?lookup_insert_eq, ?lookup_insert_ne by done; try done; by rewrite Hi.
Qed.
Lemma assign_prev h n p : is_Some (h !! n) → ∃ h', assign h (Some n) (set_prev p) = Ok h' ∧
  (∀ m, nxt h' m = nxt h m) ∧ (∀ m, prv h' m = upd (prv h) n p m) ∧ (∀ m, pl h' m = pl h m).
Proof.
  intros [i Hi]. unfold assign. rewrite Hi. eexists. split; [done|].
  unfold nxt, prv, pl, upd. split_and!; intros m; destruct (decide (m = n)) as [->|];
    rewrite ?lookup_insert_eq, ?lookup_insert_ne by done; try done; by rewrite Hi.
Qed.
Lemma nxt_is_Some h n x : nxt h n = Some x → is_Some (h !! n).
Proof. unfold nxt. destruct (h !! n); [by eexists|done]. Qed.
Lemma prv_is_Some h n x : prv h n = Some x → is_Some (h !! n).
Proof. unfold prv. destruct (h !! n); [by eexists|done]. Qed.

(** ** The list of a cache *)
Record listed (b : cache) (l : list nat) : Prop := {
  l_path : path (heap b) (head b :: l ++ [tail b]);
  l_nodup : NoDup (head b :: l ++ [tail b]) }.

Lemma addToHead_spec b l n : listed b l → n ∉ head b :: l ++ [tail b] → is_Some (heap b !! n) →
  ∃ h', addToHead b n = Ok (with_heap b h') ∧ listed (with_heap b h') (n :: l) ∧ (∀ m, pl h' m = pl (heap b) m).
Proof.
  intros [Hp Hnd] Hn Hs. set (h := heap b) in *. set (hd := head b) in *.
  assert (∃ x C, l ++ [tail b] = x :: C) as (x & C & El) by (destruct l; eauto). rewrite El in *.
  destruct Hp as [[Hnx Hpx] Hp].
  assert (hd ≠ n ∧ x ≠ n ∧ n ∉ C) as (Hhn & Hxn & HnC) by set_solver.
  apply NoDup_cons in Hnd as [Hhd Hnd]. assert (NoDup (x :: C)) as [HxC HC]%NoDup_cons by done.
  unfold addToHead. fold h hd. rewrite Hnx.
  destruct (assign_next h n (Some x) Hs) as (h1 & -> & N1 & P1 & L1). cbn [res_bind].
  destruct (assign_prev h1 n (Some hd)) as (h2 & -> & N2 & P2 & L2); [apply is_Some_pl; rewrite L1; by apply is_Some_pl|]. cbn [res_bind].
  assert (nxt h2 hd = Some x) as -> by (rewrite N2, N1, upd_ne by done; done).
  destruct (assign_prev h2 x (Some n)) as (h3 & -> & N3 & P3 & L3).
  { apply is_Some_pl. rewrite L2, L1. apply is_Some_pl. by eapply prv_is_Some. } cbn [res_bind].
  destruct (assign_next h3 hd (Some n)) as (h4 & -> & N4 & P4 & L4).
  { apply is_Some_pl. rewrite L3, L2, L1. apply is_Some_pl. by eapply nxt_is_Some. } cbn [res_bind].
  exists h4. split; [done|].
  assert (∀ m, nxt h4 m = upd (upd (nxt h) n (Some x)) hd (Some n) m) as EN.
  { intros m. rewrite N4. unfold upd. destruct (decide (m = hd)); [done|]. rewrite N3, N2, N1. done. }
  assert (∀ m, prv h4 m = upd (upd (prv h) n (Some hd)) x (Some n) m) as EP.
  { intros m. rewrite P4, P3. unfold upd. destruct (decide (m = x)); [done|]. rewrite P2. unfold upd.
    destruct (decide (m = n)); [done|]. apply P1. }
  split; [|intros m; by rewrite L4, L3, L2, L1].
  split; cbn [head tail heap with_heap]; fold hd.
  - cbn [app]. rewrite El. split; [|split].
    + split; [rewrite EN, upd_eq; done|]. rewrite EP, upd_ne, upd_eq by done. done.
    + split; [rewrite EN, upd_ne, upd_eq by done; done|]. by rewrite EP, upd_eq.
    + apply (path_frame_tail h); [done| |].
      * intros m Hm. rewrite EN, !upd_ne; [done| |]; intros ->; set_solver.
      * intros m Hm. rewrite EP, !upd_ne; [done| |]; intros ->; set_solver.
  - cbn [app]. rewrite El. apply NoDup_cons. split; [set_solver|]. apply NoDup_cons. split; [set_solver|done].
Qed.

Lemma removeNode_spec b l1 n l2 : listed b (l1 ++ n :: l2) →
  ∃ h', removeNode b n = Ok (with_heap b h') ∧ listed (with_heap b h') (l1 ++ l2) ∧ (∀ m, pl h' m = pl (heap b) m) ∧
        prv h' n = prv (heap b) n ∧ (l2 = [] → prv h' (tail b) = prv (heap b) n).
Proof.
  intros [Hp Hnd]. set (h := heap b) in *.
  assert (∃ A p, head b :: l1 = A ++ [p]) as (A & p & EA).
  { destruct (exists_last (l := head b :: l1)) as (A & p & E); [done|]. eauto. }
  assert (∃ s C, l2 ++ [tail b] = s :: C) as (s & C & EC) by (destruct l2; eauto).
  assert (head b :: (l1 ++ n :: l2) ++ [tail b] = A ++ p :: n :: s :: C) as EL.
  { rewrite <- app_assoc. cbn [app]. rewrite EC, app_comm_cons, EA, <- app_assoc. done. }
  assert (head b :: (l1 ++ l2) ++ [tail b] = A ++ p :: s :: C) as EL'.
  { rewrite <- app_assoc, EC, app_comm_cons, EA, <- app_assoc. done. }
  rewrite EL in *. apply path_app in Hp as [HpA [[Hpn Hnp] [[Hns Hsn] HpC]]].
  pose proof Hnd as HND. apply NoDup_app in Hnd as (HA & HAx & Hnd). 
  apply NoDup_cons in Hnd as [Hp_ Hnd]. apply NoDup_cons in Hnd as [Hn_ Hnd]. apply NoDup_cons in Hnd as [Hs_ HC].
  assert (n ≠ p ∧ n ≠ s ∧ p ≠ s) as (Hne1 & Hne2 & Hne3) by set_solver.
  unfold removeNode. fold h. rewrite Hnp, Hns.
  destruct (assign_next h p (Some s)) as (h1 & -> & N1 & P1 & L1); [by eapply nxt_is_Some|]. cbn [res_bind].
  assert (nxt h1 n = Some s) as -> by (rewrite N1, upd_ne by done; done). rewrite P1, Hnp.
  destruct (assign_prev h1 s (Some p)) as (h2 & -> & N2 & P2 & L2).
  { apply is_Some_pl. rewrite L1. apply is_Some_pl. by eapply prv_is_Some. } cbn [res_bind].
  exists h2. split; [done|]. split_and!.
  - split; cbn [head tail heap with_heap]; rewrite EL'.
    + apply path_app. split.
      * apply (path_frame_init h); [done| |]; intros m Hm.
        -- rewrite N2, N1, upd_ne; [done|]. intros ->. apply (HAx p Hm). left.
        -- rewrite P2, upd_ne; [by rewrite P1|]. intros ->. apply elem_of_app in Hm as [Hm|Hm%list_elem_of_singleton]; [|done].
           apply (HAx s Hm). set_solver.
      * split; [split|].
        -- by rewrite N2, N1, upd_eq.
        -- by rewrite P2, upd_eq.
        -- apply (path_frame_tail h); [done| |]; intros m Hm.
           ++ rewrite N2, N1, upd_ne; [done|]. intros ->. set_solver.
           ++ rewrite P2, upd_ne; [by rewrite P1|]. intros ->. done.
    + apply NoDup_app. split_and!; [done| |].
      * intros x Hx Hin. apply (HAx x Hx). set_solver.
      * apply NoDup_cons. split; [set_solver|]. apply NoDup_cons. done.
  - intros m. by rewrite L2, L1.
  - by rewrite P2, upd_ne, P1.
  - intros ->. injection EC as <- <-. by rewrite P2, upd_eq.
Qed.

Lemma moveToHead_spec b l1 n l2 : listed b (l1 ++ n :: l2) →
  ∃ h', moveToHead b n = Ok (with_heap b h') ∧ listed (with_heap b h') (n :: l1 ++ l2) ∧ (∀ m, pl h' m = pl (heap b) m).
Proof.
  intros Hl. unfold moveToHead. destruct (removeNode_spec b l1 n l2 Hl) as (h1 & -> & Hl1 & L1 & _). cbn [res_bind].
  destruct (addToHead_spec (with_heap b h1) (l1 ++ l2) n Hl1) as (h2 & E & Hl2 & L2).
  - cbn [head tail with_heap]. destruct Hl as [_ Hnd]. clear -Hnd. rewrite <- app_assoc in *. cbn [app] in Hnd.
    rewrite app_comm_cons in Hnd. apply NoDup_app in Hnd as (H1 & H2 & H3). apply NoDup_cons in H3 as [H3 _].
    rewrite app_comm_cons, elem_of_app. intros [Hin|Hin]; [apply (H2 n Hin); left|done].
  - cbn [heap with_heap]. apply is_Some_pl. rewrite L1. apply is_Some_pl.
    destruct Hl as [Hp _]. rewrite <- app_assoc in Hp. cbn [app] in Hp. rewrite app_comm_cons in Hp. apply path_app in Hp as [_ Hp].
    destruct (l2 ++ [tail b]) as [|s C] eqn:E; [by destruct l2|]. destruct Hp as [[Hp _] _]. by eapply nxt_is_Some.
  - exists h2. split; [exact E|]. split; [exact Hl2|]. intros m. rewrite L2. apply L1.
Qed.

(** ** The invariant *)
Definition nsize (h : gmap nat item) (n : nat) : Z := match pl h n with Some (_, _, _, s) => s | None => 0 end.
Definition nkey (h : gmap nat item) (n : nat) : option string := (λ x, x.1.1.1) <$> pl h n.
Definition total (h : gmap nat item) (l : list nat) : Z := sumZ (map (nsize h) l).

Record wf (b : cache) (l : list nat) : Prop := {
  w_list : listed b l;
  w_fresh : ∀ n, is_Some (heap b !! n) → (n < nextp b)%nat;
  w_data : ∀ k n, data b !! k = Some n → n ∈ l ∧ nkey (heap b) n = Some k;
  w_size : csize b = u32 (total (heap b) l);
  w_pos : ∀ n, 0 <= nsize (heap b) n < 2 ^ 32;
  w_cap : 0 <= capacity b < 2 ^ 32 }.

Lemma listed_in_heap b l n : listed b l → n ∈ l → is_Some (heap b !! n).
Proof.
  intros [Hp _] (l1 & l2 & ->)%list_elem_of_split. rewrite <- app_assoc in Hp. cbn [app] in Hp.
  rewrite app_comm_cons in Hp. apply path_app in Hp as [_ Hp].
  destruct (l2 ++ [tail b]) as [|s C] eqn:E; [by destruct l2|]. destruct Hp as [[Hp _] _]. by eapply nxt_is_Some.
Qed.

Lemma NoDup_bounded (l : list nat) n : NoDup l → (∀ x, x ∈ l → (x < n)%nat) → (length l <= n)%nat.
Proof.
  intros Hnd Hb. rewrite <- (length_seq n 0). apply submseteq_length. apply NoDup_submseteq; [done|].
  intros x Hx%Hb. apply elem_of_seq. lia.
Qed.
Lemma wf_length b l : wf b l → (length l <= nextp b)%nat.
Proof.
  intros [Hl Hf _ _ _ _]. apply NoDup_bounded.
  - destruct Hl as [_ Hnd]. apply NoDup_cons in Hnd as [_ Hnd]. by apply NoDup_app in Hnd as [? _].
  - intros x Hx. apply Hf. by eapply listed_in_heap.
Qed.

Lemma total_ext h h' l : (∀ m, pl h' m = pl h m) → total h' l = total h l.
Proof. intros H. unfold total. f_equal. apply map_ext. intros m. unfold nsize. by rewrite H. Qed.
Lemma total_perm h l l' : l ≡ₚ l' → total h l = total h l'.
Proof. unfold total. induction 1; cbn; lia. Qed.
Lemma total_app h l l' : total h (l ++ l') = total h l + total h l'.
Proof. unfold total. by rewrite map_app, sumZ_app. Qed.

(** A heap with the same payloads and a list with the same nodes. *)
Lemma wf_relink b l h' l' : wf b l → listed (with_heap b h') l' → l' ≡ₚ l → (∀ m, pl h' m = pl (heap b) m) → wf (with_heap b h') l'.
Proof.
  intros [Hl Hf Hd Hs Hp Hc] Hl' Hperm Hpl. split; cbn [heap nextp data csize capacity with_heap]; try done.
  - intros n Hn. apply Hf. apply is_Some_pl. rewrite <- Hpl. by apply is_Some_pl.
  - intros k n Hk. destruct (Hd k n Hk) as [H1 H2]. split; [by rewrite Hperm|]. unfold nkey in *. by rewrite Hpl.
  - by rewrite (total_ext (heap b) h' l' Hpl), (total_perm _ _ _ Hperm).
  - intros n. unfold nsize. rewrite Hpl. apply Hp.
Qed.

(** ** Adding a node *)
Lemma u32_add a b : u32 (u32 a + b) = u32 (a + b).
Proof. unfold u32, wrapu. by rewrite Zplus_mod_idemp_l. Qed.
Lemma u32_sub a b : u32 (u32 a - b) = u32 (a - b).
Proof. unfold u32, wrapu. by rewrite Zminus_mod_idemp_l. Qed.
Lemma u32_id z : 0 <= z < 2 ^ 32 → u32 z = z.
Proof. apply wrapu_small. Qed.

Lemma listed_ends b l : listed b l → is_Some (heap b !! head b) ∧ is_Some (heap b !! tail b).
Proof.
  intros [Hp _]. split.
  - destruct (l ++ [tail b]) as [|x C] eqn:E; [by destruct l|]. destruct Hp as [[Hp _] _]. by eapply nxt_is_Some.
  - destruct (exists_last (l := head b :: l)) as (A & p & E); [done|].
    rewrite app_comm_cons, E, <- app_assoc in Hp. apply path_app in Hp as [_ [[_ Hp] _]]. by eapply prv_is_Some.
Qed.
Lemma listed_member b l n : listed b l → n ∈ head b :: l ++ [tail b] → is_Some (heap b !! n).
Proof.
  intros Hl. destruct (listed_ends b l Hl) as [Hh Ht].
  intros [->|[Hn| ->%list_elem_of_singleton]%elem_of_app]%elem_of_cons; [done|by eapply listed_in_heap|done].
Qed.

Lemma listed_ext b b' l : listed b l → head b' = head b → tail b' = tail b →
  (∀ n, n ∈ head b :: l ++ [tail b] → heap b' !! n = heap b !! n) → listed b' l.
Proof.
  intros [Hp Hnd] Eh Et Hh. split; rewrite Eh, Et; [|done]. rewrite app_comm_cons in *.
  apply (path_frame_init (heap b)); [done| |]; intros m Hm; unfold nxt, prv; rewrite Hh; [done| |done|done].
  apply elem_of_app. by left.
Qed.

Definition deadline_of (expiration now : Z) : Z := if 0 <? expiration then now + expiration else 0.

Lemma set_spec b l k v e ps now : wf b l → 0 <= ps < 2 ^ 32 → ∃ b', set b k v e ps now = Ok b' ∧
  wf b' (nextp b :: l) ∧ data b' = <[k := nextp b]> (data b) ∧
  pl (heap b') (nextp b) = Some (k, v, deadline_of e now, ps) ∧ (∀ m, m ≠ nextp b → pl (heap b') m = pl (heap b) m) ∧
  capacity b' = capacity b.
Proof.
  intros [Hl Hf Hd Hs Hp Hc] Hps. unfold set. fold (deadline_of e now). set (n := nextp b) in *.
  set (i := mkItem k v (deadline_of e now) ps None None).
  assert (heap b !! n = None) as Hn by (apply eq_None_not_Some; intros H%Hf; lia).
  assert (∀ m, m ∈ head b :: l ++ [tail b] → m ≠ n) as Hnew.
  { intros m Hm ->. apply (listed_member b l n Hl) in Hm. rewrite Hn in Hm. by destruct Hm. }
  set (b1 := mkCache (<[n := i]> (heap b)) (S n) (<[k := n]> (data b)) (head b) (tail b) (csize b) (capacity b) (evicted b)).
  assert (listed b1 l) as Hl1.
  { apply (listed_ext b); [done..|]. intros m Hm%Hnew. cbn. by rewrite lookup_insert_ne. }
  destruct (addToHead_spec b1 l n Hl1) as (h' & -> & Hl2 & L2).
  { intros Hin. by apply (Hnew n Hin). } { cbn. rewrite lookup_insert_eq. by eexists. }
  cbn [res_bind]. eexists. split; [reflexivity|]. cbn [heap data capacity with_heap with_csize b1] in *.
  assert (∀ m, m ≠ n → pl h' m = pl (heap b) m) as Hold by (intros m Hm; rewrite L2; unfold pl; by rewrite lookup_insert_ne).
  assert (pl h' n = Some (k, v, deadline_of e now, ps)) as Hne by (rewrite L2; unfold pl; by rewrite lookup_insert_eq).
  split_and!; [|done..]. split; cbn [heap data capacity csize nextp with_heap with_csize b1].
  - by apply (listed_ext (with_heap b1 h')).
  - intros m Hm. destruct (decide (m = n)) as [->|Hmn]; [lia|]. apply is_Some_pl in Hm. rewrite Hold in Hm by done.
    apply is_Some_pl, Hf in Hm. lia.
  - intros k' m. destruct (decide (k = k')) as [<-|Hk].
    + rewrite lookup_insert_eq. intros [= <-]. split; [left|]. unfold nkey. by rewrite Hne.
    + rewrite lookup_insert_ne by done. intros [H1 H2]%Hd. split; [by right|]. unfold nkey in *. rewrite Hold; [done|].
      apply Hnew. set_solver.
  - rewrite Hs, u32_add. unfold total. cbn [map sumZ]. unfold nsize at 2. rewrite Hne.
    replace (map (nsize h') l) with (map (nsize (heap b)) l); [f_equal; lia|].
    apply map_ext_in. intros m Hm%list_elem_of_In. unfold nsize. rewrite Hold; [done|]. apply Hnew. set_solver.
  - intros m. unfold nsize. destruct (decide (m = n)) as [->|Hmn]; [by rewrite Hne|]. rewrite Hold by done. apply Hp.
  - done.
Qed.

(** ** Evicting *)
Lemma omap_nkey_ext h h' (d : list nat) : (∀ m, pl h' m = pl h m) → omap (nkey h') d = omap (nkey h) d.
Proof.
  intros H. assert (∀ m, nkey h' m = nkey h m) as Hk by (intros m; unfold nkey; by rewrite H).
  induction d as [|y d IH]; [done|]. cbn. by rewrite Hk, IH.
Qed.

(** One round of the loop: the last node goes, and with it the entry of its key. *)
Lemma evict_round b l x : wf b (l ++ [x]) → ∃ b1 k,
  nkey (heap b) x = Some k ∧
  (∀ fuel ps, u32 (capacity b - total (heap b) (l ++ [x])) < ps →
     evict (S fuel) b (prv (heap b) (tail b)) (u32 (capacity b - total (heap b) (l ++ [x]))) ps =
     evict fuel b1 (prv (heap b1) (tail b1)) (u32 (capacity b1 - total (heap b1) l)) ps) ∧
  wf b1 l ∧ (∀ m, pl (heap b1) m = pl (heap b) m) ∧ capacity b1 = capacity b ∧ nextp b1 = nextp b ∧
  (∀ k' n, data b1 !! k' = Some n ↔ data b !! k' = Some n ∧ k' ≠ k).
Proof.
  intros Hw. pose proof Hw as [Hl Hf Hd Hs Hp Hc].
  destruct (listed_in_heap b (l ++ [x]) x Hl) as [i Hi]; [set_solver|].
  assert (prv (heap b) (tail b) = Some x) as Htx.
  { destruct Hl as [Hpa _]. rewrite <- app_assoc in Hpa. cbn [app] in Hpa. rewrite app_comm_cons in Hpa.
    apply path_app in Hpa as [_ [[_ H] _]]. done. }
  destruct (removeNode_spec b l x [] Hl) as (h1 & E1 & Hl1 & L1 & P1 & P2). rewrite app_nil_r in Hl1. specialize (P2 eq_refl).
  assert (∃ i1, h1 !! x = Some i1 ∧ payload i1 = payload i) as (i1 & Hi1 & Ep).
  { specialize (L1 x). unfold pl in L1. rewrite Hi in L1. destruct (h1 !! x) as [i1|]; [|done]. apply (inj Some) in L1. eauto. }
  assert (key i1 = key i ∧ nsize (heap b) x = size i) as [Ek Es].
  { unfold nsize, pl. rewrite Hi. by injection Ep. }
  exists (with_csize (with_data (with_heap b h1) (delete (key i) (data b))) (u32 (csize b - size i))), (key i).
  assert (nkey (heap b) x = Some (key i)) as Hkx by (unfold nkey, pl; by rewrite Hi).
  split_and!; [done| | |done|done|done|].
  - intros fuel ps Hlt. cbn [evict]. apply Z.ltb_lt in Hlt. rewrite Hlt, Htx. cbn [mbind option_bind]. rewrite Hi.
    unfold removeTail. rewrite Htx, E1. cbn [res_bind heap with_heap]. rewrite Hi1.
    cbn [heap data csize capacity tail with_heap with_data with_csize]. rewrite Ek, P1, P2. f_equal.
    rewrite total_app, (total_ext _ _ _ L1), u32_add. unfold total at 2. cbn [map sumZ]. rewrite Es. f_equal. lia.
  - split; cbn [heap data csize capacity nextp with_heap with_data with_csize].
    + by apply (listed_ext (with_heap b h1)).
    + intros n Hn. apply Hf, is_Some_pl. rewrite <- L1. by apply is_Some_pl.
    + intros k n [Hk Hkn]%lookup_delete_Some. destruct (Hd k n Hkn) as [Hin Hkey].
      unfold nkey in *. rewrite L1. split; [|done]. apply elem_of_app in Hin as [?| ->%list_elem_of_singleton]; [done|].
      rewrite Hkx in Hkey. congruence.
    + rewrite Hs, u32_sub, total_app, (total_ext _ _ _ L1). unfold total at 2. cbn [map sumZ]. rewrite Es. f_equal. lia.
    + intros n. unfold nsize. rewrite L1. apply Hp.
    + done.
  - intros k' n. cbn. rewrite lookup_delete_Some. naive_solver.
Qed.

Lemma evict_spec ps : ∀ l fuel b, wf b l → (length l <= fuel)%nat → 0 <= ps <= capacity b →
  ∃ b' l' d, evict fuel b (prv (heap b) (tail b)) (u32 (capacity b - total (heap b) l)) ps = Ok b' ∧
    l = l' ++ d ∧ wf b' l' ∧ (∀ m, pl (heap b') m = pl (heap b) m) ∧ capacity b' = capacity b ∧ nextp b' = nextp b ∧
    ps <= u32 (capacity b - total (heap b) l') ∧
    (∀ x d', d = x :: d' → u32 (capacity b - total (heap b) (l' ++ [x])) < ps) ∧
    (∀ k n, data b' !! k = Some n ↔ data b !! k = Some n ∧ k ∉ omap (nkey (heap b)) d).
Proof.
  induction l as [|x l IH] using rev_ind; intros fuel b Hw Hfuel Hps.
  - exists b, [], []. pose proof (w_cap _ _ Hw). unfold total. cbn [map sumZ]. rewrite u32_id by lia.
    split_and!; try done; try lia; [|intros; set_solver].
    destruct fuel; cbn [evict]; destruct (Z.ltb_spec (capacity b - 0) ps); (lia || done).
  - destruct (Z.ltb_spec (u32 (capacity b - total (heap b) (l ++ [x]))) ps) as [Hlt|Hge].
    2:{ exists b, (l ++ [x]), []. rewrite app_nil_r. split_and!; try done; [|set_solver].
        destruct fuel; cbn [evict]; by destruct (Z.ltb_spec (u32 (capacity b - total (heap b) (l ++ [x]))) ps); [lia|]. }
    destruct (evict_round b l x Hw) as (b1 & i & Ei & Er & Hw1 & L1 & C1 & N1 & D1).
    rewrite length_app in Hfuel. cbn [length] in Hfuel. destruct fuel as [|fuel]; [lia|].
    destruct (IH fuel b1 Hw1 ltac:(lia) ltac:(rewrite C1; lia)) as (b' & l' & d & E & El & Hw' & L' & C' & N' & H1 & H2 & H3).
    rewrite C1, (total_ext _ _ _ L1) in H1. exists b', l', (d ++ [x]).
    split_and!; [|by rewrite El, <- app_assoc|done|intros m; by rewrite L', L1|congruence|congruence|done| |].
    + rewrite (Er fuel ps Hlt). exact E.
    + intros y d' Ed. destruct d as [|z d]; cbn [app] in Ed.
      * injection Ed as <- _. by rewrite app_nil_r in El; subst l.
      * injection Ed as <- _. specialize (H2 z d eq_refl). by rewrite C1, (total_ext _ _ _ L1) in H2.
    + intros k n. rewrite H3, D1, omap_app, elem_of_app. cbn [omap list_omap].
      rewrite (omap_nkey_ext _ _ d L1), Ei. set_solver.
Qed.

(** ** [Set] *)
Definition pair_size (k : string) (v : gval) : option Z :=
  match Of (key_val k), Of v with inr ks, inr vs => Some (u32 (ks + vs)) | _, _ => None end.
Lemma pair_size_range k v ps : pair_size k v = Some ps → 0 <= ps < 2 ^ 32.
Proof.
  unfold pair_size. destruct (Of (key_val k)); [done|]. destruct (Of v); [done|]. intros [= <-]. by apply wrapu_range.
Qed.

Lemma wf_set_value b l n v : wf b l → let h' := alter (set_value v) n (heap b) in
  wf (with_heap b h') l ∧ (∀ m, m ≠ n → pl h' m = pl (heap b) m).
Proof.
  intros [Hl Hf Hd Hs Hp Hc] h'.
  assert (∀ m, nxt h' m = nxt (heap b) m ∧ prv h' m = prv (heap b) m ∧ nkey h' m = nkey (heap b) m ∧
               nsize h' m = nsize (heap b) m ∧ (is_Some (h' !! m) → is_Some (heap b !! m))) as Hall.
  { intros m. unfold h', nxt, prv, nkey, nsize, pl. destruct (decide (n = m)) as [<-|].
    - rewrite lookup_alter_eq. by destruct (heap b !! n).
    - by rewrite lookup_alter_ne. }
  split.
  - split; cbn [heap nextp data csize capacity with_heap]; try done.
    + destruct Hl as [Hpa Hnd]. split; cbn [heap head tail with_heap]; [|done]. rewrite app_comm_cons in *.
      apply (path_frame_init (heap b)); [done|intros; apply Hall..].
    + intros m Hm. by apply Hf, Hall.
    + intros k m [H1 H2]%Hd. split; [done|]. by rewrite (proj1 (proj2 (proj2 (Hall m)))).
    + rewrite Hs. f_equal. unfold total. f_equal. apply map_ext. intros m. symmetry. apply Hall.
    + intros m. rewrite (proj1 (proj2 (proj2 (proj2 (Hall m))))). apply Hp.
  - intros m Hm. unfold h', pl. by rewrite lookup_alter_ne.
Qed.

(** What [Set_] leaves: the kept nodes [l'] with the new one in front, the dropped
    nodes [d], and every other entry as it was unless its key was dropped. *)
Record set_result (b : cache) (l l' d : list nat) (k : string) (v : gval) (dl ps : Z) (b' : cache) : Prop := {
  sr_wf : wf b' (nextp b :: l');
  sr_new : data b' !! k = Some (nextp b) ∧ pl (heap b') (nextp b) = Some (k, v, dl, ps);
  sr_other : ∀ k' n, k' ≠ k → data b' !! k' = Some n ↔ data b !! k' = Some n ∧ k' ∉ omap (nkey (heap b)) d;
  sr_same : ∀ m, m ≠ nextp b → data b !! k ≠ Some m → pl (heap b') m = pl (heap b) m;
  sr_cap : capacity b' = capacity b }.

Lemma Set_old b l k v e now ps n : wf b l → pair_size k v = Some ps → data b !! k = Some n →
  ∃ b' l', Set_ b k v e now = Ok b' ∧ l' ≡ₚ l ∧ set_result b l l' [] k v (deadline_of e now) ps b'.
Proof.
  intros Hw Hps Hk. pose proof (pair_size_range _ _ _ Hps) as Hr. unfold pair_size in Hps. unfold Set_.
  destruct (Of (key_val k)) as [|ks]; [done|]. destruct (Of v) as [|vs]; [done|]. injection Hps as Eps. rewrite Eps, Hk. clear Eps.
  destruct (wf_set_value b l n v Hw) as [Hw1 L1]. set (h1 := alter (set_value v) n (heap b)) in *.
  destruct (w_data _ _ Hw k n Hk) as [(l1 & l2 & ->)%list_elem_of_split _].
  destruct (moveToHead_spec (with_heap b h1) l1 n l2 (w_list _ _ Hw1)) as (h2 & E2 & Hl2 & L2).
  assert (n :: l1 ++ l2 ≡ₚ l1 ++ n :: l2) as Hperm by apply Permutation_middle.
  pose proof (wf_relink _ _ h2 _ Hw1 Hl2 Hperm L2) as Hw2. rewrite E2. cbn [res_bind].
  destruct (set_spec _ _ k v e ps now Hw2 Hr) as (b' & -> & Hw3 & D3 & N3 & O3 & C3).
  cbn [nextp data heap capacity with_heap] in *. exists b', (n :: l1 ++ l2). split_and!; [done|done|]. split; [done| | | |done].
  - split; [by rewrite D3, lookup_insert_eq|done].
  - intros k' m Hne. rewrite D3, lookup_insert_ne by done. set_solver.
  - intros m Hm Hkm. rewrite O3, L2, L1; [done| |done]. congruence.
Qed.

Lemma Set_new b l k v e now ps : wf b l → pair_size k v = Some ps → ps <= capacity b → data b !! k = None →
  ∃ b' l' d, Set_ b k v e now = Ok b' ∧ l = l' ++ d ∧ set_result b l l' d k v (deadline_of e now) ps b' ∧
    (u32 (csize b + ps) <= capacity b → d = []) ∧
    (capacity b < u32 (csize b + ps) → ps <= u32 (capacity b - total (heap b) l') ∧
       ∀ x d', d = x :: d' → u32 (capacity b - total (heap b) (l' ++ [x])) < ps).
Proof.
  intros Hw Hps Hcap Hk. pose proof (pair_size_range _ _ _ Hps) as Hr. unfold pair_size in Hps. unfold Set_.
  destruct (Of (key_val k)) as [|ks]; [done|]. destruct (Of v) as [|vs]; [done|]. injection Hps as Eps. rewrite Eps, Hk. clear Eps.
  assert (∃ b1 l' d, (if capacity b <? u32 (csize b + ps)
            then evict (S (nextp b)) b (prv (heap b) (tail b)) (u32 (capacity b - csize b)) ps else Ok b) = Ok b1 ∧
      l = l' ++ d ∧ wf b1 l' ∧ (∀ m, pl (heap b1) m = pl (heap b) m) ∧ capacity b1 = capacity b ∧ nextp b1 = nextp b ∧
      (∀ k n, data b1 !! k = Some n ↔ data b !! k = Some n ∧ k ∉ omap (nkey (heap b)) d) ∧
      (u32 (csize b + ps) <= capacity b → d = []) ∧
      (capacity b < u32 (csize b + ps) → ps <= u32 (capacity b - total (heap b) l') ∧
         ∀ x d', d = x :: d' → u32 (capacity b - total (heap b) (l' ++ [x])) < ps))
    as (b1 & l' & d & -> & El & Hw1 & L1 & C1 & N1 & D1 & G1 & G2).
  { destruct (Z.ltb_spec (capacity b) (u32 (csize b + ps))).
    - pose proof (wf_length b l Hw). destruct (evict_spec ps l (S (nextp b)) b Hw ltac:(lia) ltac:(lia))
        as (b1 & l' & d & E & El & Hw1 & L1 & C1 & N1 & H1 & H2 & H3).
      exists b1, l', d. split_and!; try done; [|lia].
      rewrite <- E. f_equal. rewrite (w_size _ _ Hw). unfold u32, wrapu. by rewrite Zminus_mod_idemp_r.
    - exists b, l, []. rewrite app_nil_r. split_and!; try done; [set_solver|lia]. }
  cbn [res_bind]. destruct (set_spec b1 l' k v e ps now Hw1 Hr) as (b' & -> & Hw3 & D3 & N3 & O3 & C3). rewrite N1 in *.
  exists b', l', d. split_and!; [done|done| |done|done]. split; [done| | | |congruence].
  - split; [by rewrite D3, lookup_insert_eq|done].
  - intros k' m Hne. rewrite D3, lookup_insert_ne by done. apply D1.
  - intros m Hm _. by rewrite O3, L1.
Qed.

(** ** The cache as a lossy map

    The specification is a map from keys to values with deadlines that forgets
    nothing; the cache may forget entries but never invents or revives one. *)
Abbreviation amap := (gmap string (gval * Z)).
Definition expired (dl now : Z) : bool := negb (dl =? 0) && (dl <? now).

Inductive op :=
| OSet (k : string) (v : gval) (expiration now : Z)
| OGet (k : string) (now : Z)
| OGetSlow (k : string) (now : Z)     (** the second half of a [Get], at any later time *)
| ODelete (k : string)
| OTick (order : list string) (t : Z).

Definition cstep (b : cache) (o : op) : res string (cache * option gval) :=
  match o with
  | OSet k v e now => res_map (λ b, (b, None)) (Set_ b k v e now)
  | OGet k now => Get b k now
  | OGetSlow k now => Get_slow b k now
  | ODelete k => Ok (default b (Delete b k), None)
  | OTick order t => Ok (tick b order t, None)
  end.
Definition astep (m : amap) (o : op) : amap :=
  match o with
  | OSet k v e now => <[k := (v, deadline_of e now)]> m
  | ODelete k => delete k m
  | _ => m
  end.
(** Values that can be measured and fit the cache. *)
Definition fits (cap : Z) (o : op) : Prop :=
  match o with OSet k v _ _ => ∃ ps, pair_size k v = Some ps ∧ ps <= cap | _ => True end.

Record refines (b : cache) (l : list nat) (m : amap) : Prop := {
  r_wf : wf b l;
  r_map : ∀ k n, data b !! k = Some n → ∃ v dl s, pl (heap b) n = Some (k, v, dl, s) ∧ m !! k = Some (v, dl) }.

Lemma refines_item b l m k n : refines b l m → data b !! k = Some n → ∃ i, heap b !! n = Some i ∧ key i = k ∧ m !! k = Some (value i, deadline i).
Proof.
  intros [_ Hm] Hk. destruct (Hm k n Hk) as (v & dl & s & Hp & Hmk). unfold pl in Hp.
  destruct (heap b !! n) as [i|]; [|done]. cbn in Hp. unfold payload in Hp. injection Hp as <- <- <- <-. eauto.
Qed.

Lemma refines_less b l m k (d : gmap string nat) : refines b l m → d = delete k (data b) → refines (with_data b d) l m.
Proof.
  intros [[Hl Hf Hd Hs Hp Hc] Hm] ->. split; [split|]; cbn [data heap csize capacity nextp with_data]; try done.
  - by apply (listed_ext b).
  - intros k' n [_ Hk']%lookup_delete_Some. by apply Hd.
  - intros k' n [_ Hk']%lookup_delete_Some. by apply Hm.
Qed.
Lemma refines_evicted b l m e : refines b l m → refines (with_evicted b e) l m.
Proof. intros [[Hl Hf Hd Hs Hp Hc] Hm]. split; [split|]; try done. by apply (listed_ext b). Qed.

Lemma delete_refines b l m k : refines b l m → refines (delete_ b k) l m ∧ data (delete_ b k) = delete k (data b) ∧ capacity (delete_ b k) = capacity b.
Proof.
  intros Hr. unfold delete_. destruct (data b !! k) as [n|] eqn:E; [|by rewrite delete_id].
  destruct (refines_item b l m k n Hr E) as (i & -> & _). split; [|done]. apply refines_evicted. by apply (refines_less b l m k).
Qed.
Lemma delete_amap b l m k : refines b l m → data b !! k = None → refines b l (delete k m).
Proof.
  intros [Hw Hm] Hk. split; [done|]. intros k' n Hk'. destruct (Hm k' n Hk') as (v & dl & s & ? & ?). exists v, dl, s.
  split; [done|]. rewrite lookup_delete_ne; [done|]. intros ->. congruence.
Qed.

Lemma set_refines b l l' d k v e now ps b' m : refines b l m → set_result b l l' d k v (deadline_of e now) ps b' →
  refines b' (nextp b :: l') (<[k := (v, deadline_of e now)]> m).
Proof.
  intros [Hw Hm] [Hw' [Hn Hp] Ho Hs Hc]. split; [done|]. intros k' n Hk'. destruct (decide (k = k')) as [<-|Hne].
  - rewrite Hn in Hk'. injection Hk' as <-. rewrite lookup_insert_eq. eauto.
  - rewrite lookup_insert_ne by done. apply Ho in Hk' as [Hk' _]; [|done].
    destruct (Hm k' n Hk') as (v' & dl & s & Hpl & Hmk). exists v', dl, s. split; [|done]. rewrite Hs; [done| |].
    + intros ->. destruct (w_data _ _ Hw k' _ Hk') as [Hin _]. apply (listed_in_heap b l) in Hin; [|apply Hw].
      apply (w_fresh _ _ Hw) in Hin. lia.
    + intros Hkn. destruct (Hm k n Hkn) as (? & ? & ? & Hpl' & _). congruence.
Qed.

Lemma tick_refines b l m order t : refines b l m → refines (tick b order t) l m ∧ capacity (tick b order t) = capacity b.
Proof.
  unfold tick. generalize (take 1001 order) as ks. intros ks. revert b.
  induction ks as [|k ks IH]; intros b Hr; cbn [foldl]; [done|].
  destruct (data b !! k ≫= λ n, heap b !! n) as [i|]; [|by apply IH].
  destruct (deadlineBefore i t); [|by apply IH]. destruct (delete_refines b l m k Hr) as (H1 & _ & H2).
  destruct (IH _ H1) as [? ->]. done.
Qed.

Lemma Get_slow_refines b l m k now : refines b l m → ∃ b' l' out, Get_slow b k now = Ok (b', out) ∧ refines b' l' m ∧ capacity b' = capacity b ∧
  ∀ v, out = Some v → ∃ dl, m !! k = Some (v, dl) ∧ expired dl now = false.
Proof.
  intros Hr. unfold Get_slow. destruct (data b !! k) as [n|] eqn:E; [|by exists b, l, None].
  destruct (refines_item b l m k n Hr E) as (i & -> & _ & Hmk). destruct (deadlineBefore i now) eqn:Ed.
  - destruct (delete_refines b l m k Hr) as (H1 & _ & H2). by exists (delete_ b k), l, None.
  - pose proof Hr as [Hw Hm]. destruct (w_data _ _ Hw k n E) as [(l1 & l2 & ->)%list_elem_of_split _].
    destruct (moveToHead_spec b l1 n l2 (w_list _ _ Hw)) as (h' & -> & Hl & L). cbn [res_bind].
    exists (with_heap b h'), (n :: l1 ++ l2), (Some (value i)). split_and!; [done| |done|].
    + split; [apply (wf_relink b _ h' _ Hw Hl); [apply Permutation_middle|done]|].
      intros k' n' Hk'. cbn [heap with_heap]. rewrite L. by apply Hm.
    + intros v [= <-]. eauto.
Qed.

Lemma cstep_refines b l m o : refines b l m → fits (capacity b) o → ∃ b' l' out,
  cstep b o = Ok (b', out) ∧ refines b' l' (astep m o) ∧ capacity b' = capacity b ∧
  ∀ k now v, o = OGet k now ∨ o = OGetSlow k now → out = Some v → ∃ dl, m !! k = Some (v, dl) ∧ expired dl now = false.
Proof.
  intros Hr Hf. destruct o as [k v e now|k now|k now|k|order t]; cbn [cstep astep].
  - destruct Hf as (ps & Hps & Hcap). destruct (data b !! k) as [n|] eqn:E.
    + destruct (Set_old b l k v e now ps n (r_wf _ _ _ Hr) Hps E) as (b' & l' & -> & _ & Hs).
      exists b', (nextp b :: l'), None. split_and!; [done|by eapply set_refines|apply Hs|naive_solver].
    + destruct (Set_new b l k v e now ps (r_wf _ _ _ Hr) Hps Hcap E) as (b' & l' & d & -> & _ & Hs & _).
      exists b', (nextp b :: l'), None. split_and!; [done|by eapply set_refines|apply Hs|naive_solver].
  - unfold Get. destruct (Get_slow_refines b l m k now Hr) as (b' & l' & out & Es & H1 & H2 & H3).
    unfold Get_fast. destruct (data b !! k) as [n|] eqn:E; cbn [mbind option_bind].
    + destruct (refines_item b l m k n Hr E) as (i & -> & _ & Hmk). destruct (deadlineBefore i now) eqn:Ed.
      * exists b', l', out. split_and!; [done..|]. intros k' now' v [[= -> ->]|[=]]. apply H3.
      * exists b, l, (Some (value i)). split_and!; [done..|]. intros k' now' v [[= -> ->]|[=]] [= <-]. eauto.
    + exists b, l, None. naive_solver.
  - destruct (Get_slow_refines b l m k now Hr) as (b' & l' & out & Es & H1 & H2 & H3).
    exists b', l', out. split_and!; [done..|]. intros k' now' v [[=]|[= -> ->]]. apply H3.
  - unfold Delete. destruct (data b !! k) as [n|] eqn:E; cbn [default].
    + destruct (delete_refines b l m k Hr) as (H1 & H2 & H3). exists (delete_ b k), l, None. split_and!; [done| |done|naive_solver].
      apply delete_amap; [done|]. by rewrite H2, lookup_delete_eq.
    + exists b, l, None. split_and!; [done|by apply delete_amap|done|naive_solver].
  - destruct (tick_refines b l m order t Hr) as [H1 H2]. exists (tick b order t), l, None. split_and!; [done..|naive_solver].
Qed.

Fixpoint run (b : cache) (ops : list op) : res string (cache * list (option gval)) :=
  match ops with
  | [] => Ok (b, [])
  | o :: ops' => match cstep b o with
                 | Ok (b, out) => res_map (λ '(b, outs), (b, out :: outs)) (run b ops')
                 | Err e => Err e
                 | Panic => Panic
                 end
  end.

Lemma new_refines cap : 0 <= cap < 2 ^ 32 → refines (NewBuildInMapCache cap) [] ∅.
Proof.
  intros Hc. split; [split|]; cbn [data heap csize capacity nextp NewBuildInMapCache]; try done.
  - split; [by vm_compute|]. cbn. apply NoDup_cons. split; [|apply NoDup_singleton]. by intros ?%list_elem_of_singleton.
  - intros n [i Hi]. apply lookup_alter_Some in Hi as [(<- & _)|[_ Hi]]; [lia|].
    apply lookup_alter_Some in Hi as [(<- & _)|[_ Hi]]; [lia|].
    apply lookup_insert_Some in Hi as [[<- _]|[_ [<- _]%lookup_singleton_Some]]; lia.
  - intros n. unfold nsize, pl.
    destruct n as [|[|n]]; [by vm_compute..|]. by rewrite !lookup_alter_ne, lookup_insert_ne, lookup_singleton_ne by done.
Qed.

Lemma run_refines ops : ∀ b l m, refines b l m → Forall (fits (capacity b)) ops → ∃ b' l' outs,
  run b ops = Ok (b', outs) ∧ refines b' l' (foldl astep m ops) ∧
  ∀ i k now v, (ops !! i = Some (OGet k now) ∨ ops !! i = Some (OGetSlow k now)) → outs !! i = Some (Some v) →
    ∃ dl, foldl astep m (take i ops) !! k = Some (v, dl) ∧ expired dl now = false.
Proof.
  induction ops as [|o ops IH]; intros b l m Hr Hf; cbn [run foldl].
  - exists b, l, []. split_and!; [done..|]. intros i k now v _ H. by rewrite lookup_nil in H.
  - apply Forall_cons in Hf as [Ho Hf]. destruct (cstep_refines b l m o Hr Ho) as (b1 & l1 & out & -> & Hr1 & C1 & G1).
    rewrite <- C1 in Hf. destruct (IH b1 l1 _ Hr1 Hf) as (b' & l' & outs & -> & Hr' & G).
    exists b', l', (out :: outs). split_and!; [done..|]. intros [|i] k now v Hi Hout.
    + cbn in Hi, Hout. apply (G1 k now v); [|by injection Hout]. destruct Hi as [[= ->]|[= ->]]; auto.
    + by apply (G i k now v).
Qed.

Lemma set_total b l l' d k v dl ps b' : wf b l → l = l' ++ d → set_result b l l' d k v dl ps b' → data b !! k = None →
  total (heap b') (nextp b :: l') = total (heap b) l' + ps.
Proof.
  intros Hw El [_ [_ Hn] _ Hsame _] Hk. unfold total. cbn [map sumZ]. unfold nsize at 1. rewrite Hn.
  replace (map (nsize (heap b')) l') with (map (nsize (heap b)) l'); [lia|].
  apply map_ext_in. intros m Hm%list_elem_of_In. unfold nsize. rewrite Hsame; [done| |congruence].
  intros ->. assert (nextp b ∈ l) as Hin by (rewrite El; set_solver).
  apply (listed_in_heap b l) in Hin; [|apply Hw]. apply (w_fresh _ _ Hw) in Hin. lia.
Qed.

Definition cache_reachable (cap : Z) (b : cache) : Prop :=
  ∃ ops outs, Forall (fits cap) ops ∧ run (NewBuildInMapCache cap) ops = Ok (b, outs).
Lemma reachable_refines cap b : 0 <= cap < 2 ^ 32 → cache_reachable cap b → capacity b = cap ∧ ∃ l m, refines b l m.
Proof.
  intros Hc (ops & outs & Hf & E). pose proof (new_refines cap Hc) as Hr.
  assert (∀ ops b0 l0 m0 outs, refines b0 l0 m0 → capacity b0 = cap → Forall (fits cap) ops → run b0 ops = Ok (b, outs) →
    capacity b = cap ∧ ∃ l m, refines b l m) as H; [|by eapply (H ops _ [] ∅)].
  clear. induction ops as [|o ops IH]; intros b0 l0 m0 outs Hr Hcap Hf E; cbn [run] in E.
  - injection E as <- _. eauto.
  - apply Forall_cons in Hf as [Ho Hf]. rewrite <- Hcap in Ho.
    destruct (cstep_refines b0 l0 m0 o Hr Ho) as (b1 & l1 & out & E1 & Hr1 & C1 & _). rewrite E1 in E.
    destruct (run b1 ops) as [[b2 outs2]| |] eqn:E2; [|done|done]. cbn in E. injection E as -> _.
    eapply IH; [done|congruence|done|done].
Qed.

(** ** Theorems *)

(** C23: The cache behaves as a lossy map: any sequence of sets, gets (also with the
    write-locked half of a get delayed past other operations), deletes and clean-up
    ticks, with values that can be measured and fit the capacity, runs without a
    panic, a broken list or an endless loop, and every get that finds something
    returns exactly the value of the last set of that key that was not deleted
    since, and only while it has not expired. *)
Theorem cache_lossy_map cap ops : 0 <= cap < 2 ^ 32 → Forall (fits cap) ops → ∃ b outs,
  run (NewBuildInMapCache cap) ops = Ok (b, outs) ∧
  ∀ i k now v, (ops !! i = Some (OGet k now) ∨ ops !! i = Some (OGetSlow k now)) → outs !! i = Some (Some v) →
    ∃ dl, foldl astep ∅ (take i ops) !! k = Some (v, dl) ∧ expired dl now = false.
Proof.
  intros Hc Hf. destruct (run_refines ops _ [] ∅ (new_refines cap Hc) Hf) as (b' & l' & outs & E & _ & G). eauto.
Qed.

(** A value that was just set is found: in every reachable state, setting a
    measurable value that fits succeeds whatever has to be evicted for it, and a get
    of the key returns it at any time up to its deadline, and for ever when no
    expiration is given. *)
Theorem cache_set_then_get cap b k v e now ps t : 0 <= cap < 2 ^ 32 → cache_reachable cap b →
  pair_size k v = Some ps → ps <= cap → expired (deadline_of e now) t = false →
  ∃ b', Set_ b k v e now = Ok b' ∧ Get b' k t = Ok (b', Some v).
Proof.
  intros Hc Hb Hps Hcap Ht. destruct (reachable_refines cap b Hc Hb) as (Ec & l & m & Hr).
  assert (∃ b' l' d, Set_ b k v e now = Ok b' ∧ set_result b l l' d k v (deadline_of e now) ps b') as (b' & l' & d & E & Hs).
  { destruct (data b !! k) as [n|] eqn:E.
    - destruct (Set_old b l k v e now ps n (r_wf _ _ _ Hr) Hps E) as (b' & l' & ? & _ & ?). eauto.
    - destruct (Set_new b l k v e now ps (r_wf _ _ _ Hr) Hps) as (b' & l' & d & ? & _ & ? & _); [lia|done|]. eauto. }
  exists b'. split; [done|]. destruct (sr_new _ _ _ _ _ _ _ _ _ Hs) as [Hd Hp]. unfold Get, Get_fast. rewrite Hd. cbn [mbind option_bind].
  unfold pl in Hp. destruct (heap b' !! nextp b) as [i|]; [|done]. cbn in Hp. unfold payload in Hp. injection Hp as _ <- Edl _.
  unfold deadlineBefore. rewrite Edl. unfold expired in Ht. by rewrite Ht.
Qed.

Lemma set_minimal cap b l m k v e now ps : refines b l m → capacity b = cap → data b !! k = None →
  pair_size k v = Some ps → ps <= cap → total (heap b) l <= cap → total (heap b) l + ps < 2 ^ 32 →
  ∃ b' l' d, Set_ b k v e now = Ok b' ∧ l = l' ++ d ∧ listed b' (nextp b :: l') ∧
    csize b' = total (heap b) l' + ps ∧ csize b' <= cap ∧
    (∀ x d', d = x :: d' → cap < total (heap b) (l' ++ [x]) + ps) ∧
    (∀ k' n, k' ≠ k → data b' !! k' = Some n ↔ data b !! k' = Some n ∧ k' ∉ omap (nkey (heap b)) d).
Proof.
  intros [Hw _] Ec Hk Hps Hcap Htot Hov. pose proof (w_cap _ _ Hw) as Hc. pose proof (pair_size_range _ _ _ Hps) as Hr.
  assert (∀ l, 0 <= total (heap b) l) as Hpos.
  { intros l0. unfold total. induction l0 as [|x l0 IH]; cbn; [lia|]. pose proof (w_pos _ _ Hw x). lia. }
  assert (csize b = total (heap b) l) as Es by (rewrite (w_size _ _ Hw); apply u32_id; specialize (Hpos l); lia).
  destruct (Set_new b l k v e now ps Hw Hps ltac:(lia) Hk) as (b' & l' & d & E & El & Hs & G1 & G2).
  assert (total (heap b) l = total (heap b) l' + total (heap b) d) as Esum by (rewrite El; apply total_app).
  pose proof (Hpos l') as P1. pose proof (Hpos d) as P2. rewrite Es, (u32_id (total (heap b) l + ps)) in G1, G2 by (specialize (Hpos l); lia).
  assert (total (heap b) l' + ps <= cap ∧ ∀ x d', d = x :: d' → cap < total (heap b) (l' ++ [x]) + ps) as [Hfit Hmin].
  { destruct (decide (total (heap b) l + ps <= cap)) as [Hroom|Hfull].
    - rewrite G1 in * by lia. split; [unfold total in Esum at 3; cbn in Esum; lia|done].
    - destruct G2 as [H1 H2]; [lia|]. rewrite u32_id in H1 by lia. split; [lia|]. intros x d' Ed. specialize (H2 x d' Ed).
      subst d. rewrite total_app in H2 |- *. change (x :: d') with ([x] ++ d') in P2, Esum. rewrite total_app in P2, Esum.
      pose proof (Hpos [x]). pose proof (Hpos d'). rewrite u32_id in H2 by lia. lia. }
  exists b', l', d. pose proof Hs as [Hw' [_ Hn] Ho Hsame _]. split_and!; [done|done|apply Hw'| | |done|done].
  - rewrite (w_size _ _ Hw'), (set_total b l l' d k v _ ps b' Hw El Hs Hk). apply u32_id. lia.
  - rewrite (w_size _ _ Hw'), (set_total b l l' d k v _ ps b' Hw El Hs Hk). rewrite u32_id; lia.
Qed.

(** Eviction is least-recently-set first and minimal: adding a new key to a cache
    within its capacity keeps it within its capacity, drops a suffix of the list and
    the entries of exactly its keys, and drops nothing when there is room, and no
    node more than necessary when there is not. *)
Theorem set_evicts_minimally cap b k v e now ps : 0 <= cap < 2 ^ 32 → cache_reachable cap b → data b !! k = None →
  pair_size k v = Some ps → ps <= cap → ∃ l, listed b l ∧
  (total (heap b) l <= cap → total (heap b) l + ps < 2 ^ 32 → ∃ b' l' d,
    Set_ b k v e now = Ok b' ∧ l = l' ++ d ∧ listed b' (nextp b :: l') ∧
    csize b' = total (heap b) l' + ps ∧ csize b' <= cap ∧
    (∀ x d', d = x :: d' → cap < total (heap b) (l' ++ [x]) + ps) ∧
    (∀ k' n, k' ≠ k → data b' !! k' = Some n ↔ data b !! k' = Some n ∧ k' ∉ omap (nkey (heap b)) d)).
Proof.
  intros Hc Hb Hk Hps Hcap. destruct (reachable_refines cap b Hc Hb) as (Ec & l & m & Hr). exists l.
  split; [apply Hr|]. intros. by apply (set_minimal cap b l m).
Qed.

(** ** Witnesses and what the conditions are for *)
Definition num : gval := GScalar 8.
Definition after (cap : Z) (ops : list op) : cache :=
  match run (NewBuildInMapCache cap) ops with Ok (b, _) => b | _ => NewBuildInMapCache cap end.
Definition outs_of (cap : Z) (ops : list op) : list (option gval) :=
  match run (NewBuildInMapCache cap) ops with Ok (_, o) => o | _ => [] end.

Definition ex_ops : list op := [OSet "a" num 0 0; OSet "b" num 10 0; OGet "a" 5; OGet "b" 20].
Lemma ex_ops_fit cap : 25 <= cap → Forall (fits cap) ex_ops.
Proof.
  intros Hc. assert (∀ k, String.length k = 1%nat → ∀ e t, fits cap (OSet k num e t)) as H.
  { intros k Hk e t. exists 25. split; [|lia]. unfold pair_size, Of. cbn. by rewrite Hk. }
  unfold ex_ops. by repeat (apply Forall_cons; split; [by first [apply H|exact I]|]).
Qed.
Lemma cache_lossy_map_witness : ∃ b outs, run (NewBuildInMapCache 60) ex_ops = Ok (b, outs).
Proof.
  destruct (cache_lossy_map 60 ex_ops ltac:(lia) (ex_ops_fit 60 ltac:(lia))) as (b & outs & E & _). exists b, outs. exact E.
Defined.

Lemma ex_reachable : cache_reachable 60 (after 60 ex_ops).
Proof. exists ex_ops, (outs_of 60 ex_ops). split; [apply ex_ops_fit; lia|]. vm_compute. reflexivity. Qed.
Lemma cache_set_then_get_witness : ∃ b', Set_ (after 60 ex_ops) "c" num 7 20 = Ok b' ∧ Get b' "c" 27 = Ok (b', Some num).
Proof.
  apply (cache_set_then_get 60 (after 60 ex_ops) "c" num 7 20 25 27);
    [lia|exact ex_reachable|reflexivity|lia|reflexivity].
Defined.
Lemma set_evicts_minimally_witness : ∃ l, listed (after 60 ex_ops) l.
Proof.
  destruct (set_evicts_minimally 60 (after 60 ex_ops) "c" num 0 30 25) as (l & Hl & _);
    [lia|exact ex_reachable|reflexivity|reflexivity|lia|]. exists l. exact Hl.
Defined.

(** Setting an existing key links a second node for it and adds its size again
    without looking at the capacity; once the size is above the capacity the room
    left wraps around and nothing is ever evicted. *)
Example overwrite_exceeds_capacity :
  csize (after 60 [OSet "a" num 0 0; OSet "a" num 0 0; OSet "a" num 0 0]) = 75 ∧
  csize (after 60 [OSet "a" num 0 0; OSet "a" num 0 0; OSet "a" num 0 0; OSet "b" num 0 0; OSet "c" num 0 0]) = 125.
Proof. split; vm_compute; reflexivity. Qed.

(** The abandoned node of an overwritten key is evicted later and takes the live
    entry of the key with it: "a" is not found although its newer node is linked and
    was set after the node of "b" that had to go first. *)
Example stale_node_evicts_live_key :
  outs_of 80 [OSet "a" num 0 0; OSet "b" num 0 0; OSet "a" num 0 0; OSet "c" num 0 0; OSet "d" num 0 0; OGet "a" 1; OGet "c" 1]
  = [None; None; None; None; None; None; Some num].
Proof. vm_compute. reflexivity. Qed.

(** Deleting does not give the space back. *)
Example delete_keeps_size : csize (after 60 [OSet "a" num 0 0; ODelete "a"]) = 25.
Proof. vm_compute. reflexivity. Qed.

(** A value larger than the whole cache makes [Set] run past the head of the list. *)
Example oversized_value_panics : Set_ (NewBuildInMapCache 20) "a" num 0 0 = Panic.
Proof. vm_compute. reflexivity. Qed.

(** Reading does not count as use: the entry read last is evicted first. *)
Example get_does_not_refresh :
  outs_of 60 [OSet "a" num 0 0; OSet "b" num 0 0; OGet "a" 1; OSet "c" num 0 1; OGet "a" 2; OGet "b" 2]
  = [None; None; Some num; None; None; Some num].
Proof. vm_compute. reflexivity. Qed.

(** Eviction for room is not reported to the callback. *)
Example eviction_is_silent : evicted (after 30 [OSet "a" num 0 0; OSet "b" num 0 0]) = [].
Proof. vm_compute. reflexivity. Qed.
