(* ===== verification/CacheLife.v ===== *)
(** * The clean-up goroutine of the local cache and [Close]

    Models the goroutine [NewBuildInMapCache] starts in [src/cache/localCache.go],
    and [Close].  [Close] offers a value on an
    unbuffered channel and gives up at once when the goroutine is not receiving; the
    goroutine closes the channel after it has received, and a send on a closed channel
    panics. *)

From S2P Require Import Prelude LocalCache.

Inductive cleaner := KSelect | KSweep (t : Z) | KReceived | KEnded.
(** [k_order]: the order in which the next sweep meets the keys. *)
Record cache_life := mkLifeC { k_cache : cache; k_cleaner : cleaner; k_closed : bool; k_results : list (option string) }.
Inductive close_out := CloseNil | CloseRepeat | ClosePanic.
Definition ErrRepeatClose : string := "cache: 重复关闭".
(** What a call of [Close] does where the goroutine is. *)
Definition Close (k : cache_life) : cache_life * close_out :=
  if k_closed k then (k, ClosePanic)
  else match k_cleaner k with
       | KSelect => (mkLifeC (k_cache k) KReceived (k_closed k) (k_results k ++ [None]), CloseNil)
       | _ => (mkLifeC (k_cache k) (k_cleaner k) (k_closed k) (k_results k ++ [Some ErrRepeatClose]), CloseRepeat)
       end.
Inductive cleaner_step : cache_life → cache_life → Prop :=
| kl_tick k t : k_cleaner k = KSelect → cleaner_step k (mkLifeC (k_cache k) (KSweep t) (k_closed k) (k_results k))
| kl_sweep k t order : k_cleaner k = KSweep t →
    cleaner_step k (mkLifeC (tick (k_cache k) order t) KSelect (k_closed k) (k_results k))
| kl_end k : k_cleaner k = KReceived → cleaner_step k (mkLifeC (k_cache k) KEnded true (k_results k))
| kl_close k k' o : Close k = (k', o) → o ≠ ClosePanic → cleaner_step k k'
(** Other operations change the cache. *)
| kl_use k b : cleaner_step k (mkLifeC b (k_cleaner k) (k_closed k) (k_results k)).
Definition new_cache_life (capacity : Z) : cache_life := mkLifeC (NewBuildInMapCache capacity) KSelect false [].
Definition life_of (capacity : Z) (k : cache_life) : Prop := rtc cleaner_step (new_cache_life capacity) k.

(** ** Closing *)
Definition successes (l : list (option string)) : nat := length (List.filter (λ r, match r with None => true | _ => false end) l).
Lemma successes_snoc l r : successes (l ++ [r]) = (successes l + match r with None => 1 | _ => 0 end)%nat.
Proof. unfold successes. rewrite List.filter_app, length_app. by destruct r. Qed.
Definition cleaner_ok (k : cache_life) : Prop :=
  match k_cleaner k with
  | KSelect | KSweep _ => successes (k_results k) = 0%nat ∧ k_closed k = false
  | KReceived => successes (k_results k) = 1%nat ∧ k_closed k = false
  | KEnded => successes (k_results k) = 1%nat ∧ k_closed k = true
  end.
Lemma cleaner_step_ok k k' : cleaner_ok k → cleaner_step k k' → cleaner_ok k'.
Proof.
  intros Hk Hs. destruct Hs as [k t Hc|k t order Hc|k Hc|k k' o Ho Hp|k b]; unfold cleaner_ok in *; simpl.
  - by rewrite Hc in Hk.
  - by rewrite Hc in Hk.
  - rewrite Hc in Hk. by destruct Hk.
  - unfold Close in Ho. destruct (k_closed k) eqn:Hcl; [by simplify_eq|].
    destruct (k_cleaner k) as [|t| |] eqn:E; simplify_eq; simpl; rewrite ?E, successes_snoc; simpl; destruct Hk; (split; [lia|congruence]).
  - exact Hk.
Qed.
(** At most one [Close] succeeds, the goroutine runs until one has, and afterwards
    every call panics. *)
Lemma close_once capacity k : life_of capacity k →
  (successes (k_results k) <= 1)%nat ∧ (successes (k_results k) = 0%nat ↔ k_cleaner k ∉ [KReceived; KEnded]) ∧
  (k_cleaner k = KEnded → (Close k).2 = ClosePanic).
Proof.
  intros Hr. assert (Hk : cleaner_ok k).
  { eapply (rtc_invariant _ cleaner_ok cleaner_step_ok); [exact Hr|]. done. }
  unfold cleaner_ok in Hk. rewrite !not_elem_of_cons, elem_of_nil. split_and!.
  - destruct (k_cleaner k); lia.
  - destruct (k_cleaner k); naive_solver lia.
  - intros E. rewrite E in Hk. unfold Close. by destruct Hk as [_ ->].
Qed.
(** The first [Close] fails with the error for a repeated one while a sweep runs. *)
Lemma close_during_sweep : ∃ k, life_of 10 k ∧ k_results k = [] ∧ (Close k).2 = CloseRepeat.
Proof. eexists. split; [apply rtc_once, (kl_tick _ 0); reflexivity|]. split; reflexivity. Qed.
