(* ===== verification/RedisLock.v ===== *)
(** * The Redis lock

    Models [src/cache/redis_lock.go], [src/cache/retry.go] and the scripts
    [src/cache/lua/lock.lua], [src/cache/lua/unlock.lua] and
    [src/cache/lua/refresh.lua].  The Redis server is a class of commands with the
    documented behaviour the lock relies on; scripts run atomically on it.  What the
    network does to a command (delivered or not, answered or not) is an input. *)

From S2P Require Import Prelude.
Local Open Scope Z_scope.

(** ** The server *)
Class Redis (S : Type) := {
  GET : S → string → option string;
  SETNX : S → string → string → Z → S * bool;
  SETEX : S → string → string → Z → option S;          (** [SET k v EX t]; [None] is an error reply *)
  EXPIRE : S → string → Z → option (S * Z);
  DEL : S → string → S * Z }.

(** Documented behaviour of the commands on the keys and values. *)
Class RedisLaws (S : Type) `{Redis S} : Prop := {
  setnx_free s k v t : GET s k = None → ∃ s', SETNX s k v t = (s', true) ∧ GET s' k = Some v;
  setnx_taken s k v t x : GET s k = Some x → SETNX s k v t = (s, false);
  setnx_other s k v t k' : k' ≠ k → GET (SETNX s k v t).1 k' = GET s k';
  setex_key s k v t s' : SETEX s k v t = Some s' → GET s' k = Some v;
  setex_other s k v t s' k' : SETEX s k v t = Some s' → k' ≠ k → GET s' k' = GET s k';
  expire_key s k t s' r : EXPIRE s k t = Some (s', r) → (r = 1 ↔ is_Some (GET s k)) ∧ (0 < t → GET s' k = GET s k);
  expire_other s k t s' r k' : EXPIRE s k t = Some (s', r) → k' ≠ k → GET s' k' = GET s k';
  del_key s k : GET (DEL s k).1 k = None ∧ ((DEL s k).2 = 1 ↔ is_Some (GET s k));
  del_other s k k' : k' ≠ k → GET (DEL s k).1 k' = GET s k' }.

Section lock.
Context {S : Type} `{Redis S}.

(** ** Scripts; [None] is an error raised by a command *)
Definition lua_lock (s : S) (key val : string) (ttl : Z) : option (S * string) :=
  match GET s key with
  | Some x => if bool_decide (x = val)
              then match EXPIRE s key ttl with Some (s, _) => Some (s, "OK") | None => None end
              else Some (s, "")
  | None => match SETEX s key val ttl with Some s => Some (s, "OK") | None => None end
  end.
Definition lua_unlock (s : S) (key val : string) : S * Z :=
  if bool_decide (GET s key = Some val) then DEL s key else (s, 0).
Definition lua_refresh (s : S) (key val : string) (ttl : Z) : option (S * Z) :=
  if bool_decide (GET s key = Some val) then EXPIRE s key ttl else Some (s, 0).

(** ** Locks *)
Record Lock := mkLock { l_key : string; l_uuid : string; l_expiration : Z }.
Inductive lock_err := ErrFailedToPreemptLock | ErrLockNotHold | ErrRetries | ErrCtxDone | ErrRedis (msg : string) | ErrDeadline.

(** What the network makes of a command: answered; not delivered; delivered but
    the answer lost.  In the last two the client sees an error. *)
Inductive net := Answered | NotSent (e : lock_err) | AnswerLost (e : lock_err).

Definition TryLock (s : S) (key uuid : string) (timeout : Z) (n : net) : S * (lock_err + Lock) :=
  match n with
  | NotSent e => (s, inl e)
  | AnswerLost e => ((SETNX s key uuid timeout).1, inl e)
  | Answered => let '(s, ok) := SETNX s key uuid timeout in
                (s, if ok then inr (mkLock key uuid timeout) else inl ErrFailedToPreemptLock)
  end.

(** The deferred [close] of the unlock channel panics when an earlier [Unlock] has
    closed it, whatever the script did. *)
Definition Unlock (s : S) (l : Lock) (chan_closed : bool) (n : net) : S * res lock_err unit :=
  let '(s, err) :=
    match n with
    | NotSent e => (s, Some e)
    | AnswerLost e => ((lua_unlock s (l_key l) (l_uuid l)).1, Some e)
    | Answered => let '(s, res) := lua_unlock s (l_key l) (l_uuid l) in
                  (s, if res =? 1 then None else Some ErrLockNotHold)
    end in
  (s, if chan_closed then Panic else match err with None => Ok tt | Some e => Err e end).

(** The argument of the script is the expiration in seconds, [secs]; Redis answers
    a number it does not accept with an error, which [EXPIRE] may do. *)
Definition Refresh (s : S) (l : Lock) (secs : Z → Z) (n : net) : S * option lock_err :=
  match n with
  | NotSent e => (s, Some e)
  | AnswerLost e => (match lua_refresh s (l_key l) (l_uuid l) (secs (l_expiration l)) with Some (s', _) => s' | None => s end, Some e)
  | Answered => match lua_refresh s (l_key l) (l_uuid l) (secs (l_expiration l)) with
                | None => (s, Some (ErrRedis "ERR"))
                | Some (s, res) => (s, if res =? 1 then None else Some ErrLockNotHold)
                end
  end.

(** One attempt of [Lock]: the reply of the script, or the error. *)
Definition Lock_attempt (s : S) (key val : string) (expiration : Z) (send : Z → Z) (n : net) : S * (lock_err + string) :=
  match n with
  | NotSent e => (s, inl e)
  | AnswerLost e => (match lua_lock s key val (send expiration) with Some (s', _) => s' | None => s end, inl e)
  | Answered => match lua_lock s key val (send expiration) with
                | None => (s, inl (ErrRedis "ERR"))
                | Some (s, r) => (s, inr r)
                end
  end.
End lock.

(** ** Retrying *)
Record FixedRetryStrategy := mkRetry { Interval : Z; MaxCnt : Z; Cnt : Z }.
Definition Next (f : FixedRetryStrategy) : FixedRetryStrategy * option Z :=
  if MaxCnt f <=? Cnt f then (f, None) else (mkRetry (Interval f) (MaxCnt f) (Cnt f + 1), Some (Interval f)).

(** The body of the loop of [Lock] after an attempt; [ctx_done] is the branch the
    select takes while waiting.  A deadline error has a nil result, on which the
    type assertion panics. *)
Inductive lock_next := LReturn (r : lock_err + unit) | LRetry (f : FixedRetryStrategy) | LPanic.
Definition Lock_decide (f : FixedRetryStrategy) (r : lock_err + string) (ctx_done : bool) : lock_next :=
  match r with
  | inl ErrDeadline => LPanic
  | inl e => LReturn (inl e)
  | inr "OK" => LReturn (inr tt)
  | inr _ => match Next f with
             | (_, None) => LReturn (inl ErrRetries)
             | (f, Some _) => if ctx_done then LReturn (inl ErrCtxDone) else LRetry f
             end
  end.

(** The loop over the results of its attempts. *)
Fixpoint Lock_loop (f : FixedRetryStrategy) (attempts : list ((lock_err + string) * bool)) : option (res unit (lock_err + unit)) * nat :=
  match attempts with
  | [] => (None, 0%nat)
  | (r, done) :: rest =>
      match Lock_decide f r done with
      | LReturn x => (Some (Ok x), 1%nat)
      | LPanic => (Some Panic, 1%nat)
      | LRetry f => let '(x, n) := Lock_loop f rest in (x, S n)
      end
  end.

(** [AutoRefresh]: on every tick one refresh; any error ends it, before the test
    for a deadline is reached. *)
Fixpoint AutoRefresh (ticks : list (option lock_err)) : option lock_err :=
  match ticks with
  | [] => None                     (** the unlock channel is closed *)
  | Some e :: _ => Some e
  | None :: rest => AutoRefresh rest
  end.
