(* ===== verification/RedisLockFacts.v ===== *)
(** * Correctness of the Redis lock *)

From S2P Require Import Prelude RedisLock.
Local Open Scope Z_scope.

Section lock.
Context {S : Type} `{RedisLaws S}.
(** What the client library sends for a duration. *)
Context (send secs : Z → Z).

(** ** Traces of all clients and of expiry *)
Inductive act :=
| ATry (key uuid : string) (timeout : Z) (n : net)
| ALock (key uuid : string) (expiration : Z) (n : net)
| AUnlock (l : Lock) (chan_closed : bool) (n : net)
| ARefresh (l : Lock) (n : net)
| AExpire (gone : list string).

(** Who acts, and the key gained. *)
Definition actor (a : act) : option string :=
  match a with
  | ATry _ u _ _ | ALock _ u _ _ => Some u
  | AUnlock l _ _ | ARefresh l _ => Some (l_uuid l)
  | AExpire _ => None
  end.
Definition gains (s : S) (a : act) (k : string) : Prop :=
  match a with
  | ATry key u t n => key = k ∧ ∃ l, (TryLock s key u t n).2 = inr l
  | ALock key u e n => key = k ∧ (Lock_attempt s key u e send n).2 = inr "OK"
  | _ => False
  end.

Inductive lstep : S → act → S → Prop :=
| s_try s k u t n : lstep s (ATry k u t n) (TryLock s k u t n).1
| s_lock s k u e n : lstep s (ALock k u e n) (Lock_attempt s k u e send n).1
| s_unlock s l c n : lstep s (AUnlock l c n) (Unlock s l c n).1
| s_refresh s l n : lstep s (ARefresh l n) (Refresh s l secs n).1
| s_expire s gone s' : (∀ k, GET s' k = if bool_decide (k ∈ gone) then None else GET s k) → lstep s (AExpire gone) s'.

(** A trace with the states before its actions. *)
Inductive trace : S → list (S * act) → S → Prop :=
| t_nil s : trace s [] s
| t_cons s a s1 tr s' : lstep s a s1 → trace s1 tr s' → trace s ((s, a) :: tr) s'.

(** ** Scripts and commands leave other clients' locks alone *)
Lemma SETNX_held s k v t k' u : GET s k' = Some u → GET (SETNX s k v t).1 k' = Some u.
Proof.
  intros Hg. destruct (decide (k' = k)) as [->|Hne]; [by rewrite (setnx_taken s k v t u Hg)|by rewrite setnx_other].
Qed.
Lemma SETNX_taken s k v t u : GET s k = Some u → (SETNX s k v t).2 = false.
Proof. intros Hg. by rewrite (setnx_taken s k v t u Hg). Qed.

Lemma lua_lock_held s k v t s' r k' u : lua_lock s k v t = Some (s', r) → GET s k' = Some u → v ≠ u →
  GET s' k' = Some u ∧ (k = k' → r ≠ "OK").
Proof.
  unfold lua_lock. intros E Hg Hne. destruct (GET s k) as [x|] eqn:Ek.
  - case_bool_decide as Hx; [|injection E as <- <-; done]. subst x.
    destruct (EXPIRE s k t) as [[s1 r1]|] eqn:Ee; [|done]. injection E as <- <-.
    assert (k' ≠ k) as Hk by (intros ->; congruence). by rewrite (expire_other _ _ _ _ _ _ Ee Hk).
  - destruct (SETEX s k v t) as [s1|] eqn:Ee; [|done]. injection E as <- <-.
    assert (k' ≠ k) as Hk by (intros ->; congruence). by rewrite (setex_other _ _ _ _ _ _ Ee Hk).
Qed.
Lemma lua_unlock_held s k v k' u : GET s k' = Some u → v ≠ u → GET (lua_unlock s k v).1 k' = Some u.
Proof.
  intros Hg Hne. unfold lua_unlock. case_bool_decide as Hk; [|done]. rewrite del_other; [done|]. intros ->. congruence.
Qed.
Lemma lua_refresh_held s k v t s' r k' u : lua_refresh s k v t = Some (s', r) → GET s k' = Some u → v ≠ u → GET s' k' = Some u.
Proof.
  unfold lua_refresh. intros E Hg Hne. case_bool_decide as Hk; [|injection E as <- _; done].
  rewrite (expire_other _ _ _ _ _ _ E); [done|]. intros ->. congruence.
Qed.

Lemma step_held s a s' k u : lstep s a s' → GET s k = Some u → actor a ≠ Some u →
  (∀ gone, a = AExpire gone → k ∉ gone) → GET s' k = Some u ∧ ¬ gains s a k.
Proof.
  intros Hs Hg Ha He. destruct Hs as [s k0 v t n|s k0 v t n|s l c n|s l n|s gone s' Hgone]; cbn [actor gains] in *.
  - split; [destruct n; cbn; [|done|by apply SETNX_held]|].
    + pose proof (SETNX_held s k0 v t k u Hg) as Hh. by destruct (SETNX s k0 v t).
    + intros [-> [l Hl]]. destruct n; cbn in Hl; try done. pose proof (SETNX_taken s k v t u Hg) as Hf.
      destruct (SETNX s k v t) as [s1 b]. cbn in *. by subst b.
  - assert (v ≠ u) as Hne by congruence. destruct n; cbn.
    + destruct (lua_lock s k0 v (send t)) as [[s1 r]|] eqn:E; cbn; [|by split; [|intros [_ ?]]].
      destruct (lua_lock_held _ _ _ _ _ _ k u E Hg Hne) as [H1 H2]. split; [done|]. intros [-> [= ->]]. by apply H2.
    + by split; [|intros [_ ?]].
    + split; [|by intros [_ ?]]. destruct (lua_lock s k0 v (send t)) as [[s1 r]|] eqn:E; [|done].
      by destruct (lua_lock_held _ _ _ _ _ _ k u E Hg Hne).
  - assert (l_uuid l ≠ u) as Hne by congruence. split; [|by intros []].
    pose proof (lua_unlock_held s (l_key l) (l_uuid l) k u Hg Hne) as Hh. unfold Unlock.
    by destruct n; [destruct (lua_unlock s (l_key l) (l_uuid l))|..].
  - assert (l_uuid l ≠ u) as Hne by congruence. split; [|by intros []].
    destruct n; cbn; [|done|]; destruct (lua_refresh s (l_key l) (l_uuid l) _) as [[s1 r]|] eqn:E; try done; cbn;
      by eapply lua_refresh_held.
  - split; [|by intros []]. rewrite Hgone, bool_decide_false; [done|]. by apply He.
Qed.

Lemma unlock_answered s l : (GET s (l_key l) = Some (l_uuid l) ∧ (Unlock s l false Answered) = ((DEL s (l_key l)).1, Ok tt)) ∨
  (GET s (l_key l) ≠ Some (l_uuid l) ∧ Unlock s l false Answered = (s, Err ErrLockNotHold)).
Proof.
  unfold Unlock, lua_unlock. case_bool_decide as Hg; [left|by right]. split; [done|].
  destruct (del_key s (l_key l)) as [_ Hd]. destruct (DEL s (l_key l)) as [s' r]. cbn in *.
  assert (r = 1) as -> by (apply Hd; rewrite Hg; by eexists). done.
Qed.

Lemma lua_lock_ok s k u t s' r : lua_lock s k u t = Some (s', r) →
  (r = "OK" ↔ GET s k = None ∨ GET s k = Some u) ∧ (r = "OK" → 0 < t → GET s' k = Some u) ∧ (r ≠ "OK" → s' = s).
Proof.
  unfold lua_lock. intros E. destruct (GET s k) as [x|] eqn:Ek.
  - case_bool_decide as Hx.
    + subst x. destruct (EXPIRE s k t) as [[s1 r1]|] eqn:Ee; [|done]. injection E as <- <-.
      destruct (expire_key _ _ _ _ _ Ee) as [_ He]. rewrite Ek in He. naive_solver.
    + injection E as <- <-. split_and!; [|done|done]. split; [done|]. intros [?|[= ?]]; congruence.
  - destruct (SETEX s k u t) as [s1|] eqn:Ee; [|done]. injection E as <- <-.
    pose proof (setex_key _ _ _ _ _ Ee). naive_solver.
Qed.

(** ** Theorems *)

(** C24: The lock is exclusive: once a client's token is stored under a key, no
    sequence of attempts, unlocks and refreshes by other clients, on this or other
    keys and with requests or answers lost, and no expiry of other keys gives the
    key to anyone else or takes it away, until the client itself acts or its key
    expires. *)
Theorem lock_excludes s tr s' k u : GET s k = Some u → trace s tr s' →
  Forall (λ x, actor x.2 ≠ Some u ∧ ∀ gone, x.2 = AExpire gone → k ∉ gone) tr →
  GET s' k = Some u ∧ Forall (λ x, ¬ gains x.1 x.2 k) tr.
Proof.
  intros Hg Ht. induction Ht as [s|s a s1 tr s' Hs Ht IH]; intros Hf; [done|].
  apply Forall_cons in Hf as [[Ha He] Hf]. destruct (step_held s a s1 k u Hs Hg Ha He) as [Hg1 Hn].
  destruct (IH Hg1 Hf) as [H1 H2]. split; [done|]. by apply Forall_cons.
Qed.

(** The life of a lock, command by command when answers arrive: an attempt
    succeeds exactly on a free key, with the retrying form also on a key the caller
    already holds, and then the caller's token is stored; a first unlock succeeds
    exactly for the holder and frees the key; refreshing with a positive time succeeds
    exactly for the holder and keeps the key; failures change nothing. *)
Theorem lock_lifecycle s k u t l :
  ((∃ l', (TryLock s k u t Answered).2 = inr l') ↔ GET s k = None) ∧
  (GET s k = None → GET (TryLock s k u t Answered).1 k = Some u) ∧
  (GET s k ≠ None → (TryLock s k u t Answered).1 = s) ∧
  (∀ s' r, Lock_attempt s k u t send Answered = (s', inr r) → (r = "OK" ↔ GET s k = None ∨ GET s k = Some u) ∧
     (r = "OK" → 0 < send t → GET s' k = Some u) ∧ (r ≠ "OK" → s' = s)) ∧
  ((Unlock s l false Answered).2 = Ok tt ↔ GET s (l_key l) = Some (l_uuid l)) ∧
  ((Unlock s l false Answered).2 = Ok tt → GET (Unlock s l false Answered).1 (l_key l) = None) ∧
  ((Unlock s l false Answered).2 ≠ Ok tt → (Unlock s l false Answered).1 = s) ∧
  (∀ s' r, lua_refresh s (l_key l) (l_uuid l) (secs (l_expiration l)) = Some (s', r) →
     ((Refresh s l secs Answered).2 = None ↔ GET s (l_key l) = Some (l_uuid l)) ∧
     (0 < secs (l_expiration l) → GET (Refresh s l secs Answered).1 (l_key l) = GET s (l_key l))).
Proof.
  split_and!.
  - cbn. destruct (GET s k) as [x|] eqn:E.
    + rewrite (setnx_taken s k u t x E). split; [by intros [? ?]|done].
    + destruct (setnx_free s k u t E) as (s' & -> & _). split; [done|eauto].
  - intros E. cbn. by destruct (setnx_free s k u t E) as (s' & -> & ?).
  - intros E. cbn. destruct (GET s k) as [x|] eqn:Ek; [|done]. by rewrite (setnx_taken s k u t x Ek).
  - intros s' r E. cbn in E. destruct (lua_lock s k u (send t)) as [[s1 r1]|] eqn:El; [|done]. injection E as -> ->.
    by apply lua_lock_ok.
  - destruct (unlock_answered s l) as [[Hg ->]|[Hg ->]]; cbn; [done|]. by split.
  - destruct (unlock_answered s l) as [[Hg ->]|[Hg ->]]; cbn; [|done]. intros _. apply del_key.
  - by destruct (unlock_answered s l) as [[Hg ->]|[Hg ->]].
  - intros s' r E. cbn. rewrite E. unfold lua_refresh in E. case_bool_decide as Hg.
    + destruct (expire_key _ _ _ _ _ E) as [Hr Hk]. rewrite Hg in Hr.
      assert (r = 1) as -> by (apply Hr; by eexists). rewrite Z.eqb_refl. cbn. split; [done|exact Hk].
    + injection E as <- <-. cbn. done.
Qed.
End lock.

(** ** Retrying ends *)
Lemma Lock_loop_bounded attempts : ∀ f, let '(r, n) := Lock_loop f attempts in
  Z.of_nat n <= Z.max 0 (MaxCnt f - Cnt f) + 1 ∧ (Z.max 0 (MaxCnt f - Cnt f) + 1 <= Z.of_nat (length attempts) → is_Some r).
Proof.
  induction attempts as [|[r done] rest IH]; intros f; cbn [Lock_loop length]; [lia|].
  destruct (Lock_decide f r done) as [x|f'|] eqn:E; [split; [lia|by eexists]| |split; [lia|by eexists]].
  assert (MaxCnt f' = MaxCnt f ∧ Cnt f' = Cnt f + 1 ∧ Cnt f < MaxCnt f) as (E1 & E2 & E3).
  { unfold Lock_decide, Next in E. destruct (Z.leb_spec (MaxCnt f) (Cnt f)).
    - repeat case_match; simplify_eq.
    - repeat case_match; simplify_eq; done. }
  specialize (IH f'). destruct (Lock_loop f' rest) as [x n]. rewrite E1, E2 in IH. destruct IH as [H1 H2].
  split; [lia|]. intros Hl. apply H2. lia.
Qed.

(** ** A server for the witnesses *)
Definition mem := gmap string string.
#[local] Instance mem_redis : Redis mem := {
  GET s k := (s : gmap string string) !! k;
  SETNX s k v t := match (s : gmap string string) !! k with None => (<[k := v]> s, true) | Some _ => (s, false) end;
  SETEX s k v t := if 0 <? t then Some (<[k := v]> s) else None;
  EXPIRE s k t := match (s : gmap string string) !! k with
                  | None => Some (s, 0)
                  | Some _ => Some (if 0 <? t then s else delete k s, 1)
                  end;
  DEL s k := match (s : gmap string string) !! k with None => (s, 0) | Some _ => (delete k s, 1) end }.
#[local] Instance mem_laws : RedisLaws mem.
Proof.
  split; cbn; unfold mem; intros.
  - rewrite H. eexists. split; [done|]. apply lookup_insert_eq.
  - by rewrite H.
  - destruct (s !! k); [done|]. by apply lookup_insert_ne.
  - destruct (0 <? t); [|done]. injection H as <-. apply lookup_insert_eq.
  - destruct (0 <? t); [|done]. injection H as <-. by apply lookup_insert_ne.
  - destruct (s !! k) eqn:E; injection H as <- <-; (split; [split; [by eauto|by eauto]|]).
    + intros Ht. apply Z.ltb_lt in Ht. by rewrite Ht.
    + done.
  - destruct (s !! k) eqn:E; injection H as <- <-; [|done]. destruct (0 <? t); [done|]. by apply lookup_delete_ne.
  - destruct (s !! k) eqn:E; cbn; [split; [apply lookup_delete_eq|by eauto]|]. split; [done|]. split; [done|]. by intros [].
  - destruct (s !! k); [|done]. by apply lookup_delete_ne.
Qed.

Definition seconds (ns : Z) : Z := ns / 10 ^ 9.
Definition held : mem := {[ "job" := "alice" ]}.
Definition ex_trace : list (mem * act) :=
  [(held, ATry "job" "bob" 5 Answered); (held, ALock "job" "carol" (10 ^ 9) Answered); (held, AUnlock (mkLock "job" "bob" 5) false Answered)].
Lemma lock_excludes_witness : GET held "job" = Some "alice" ∧ Forall (λ x, ¬ gains seconds x.1 x.2 "job") ex_trace.
Proof.
  apply (lock_excludes seconds seconds held ex_trace held "job" "alice").
  - reflexivity.
  - eapply t_cons; [apply (s_try seconds seconds held "job" "bob" 5 Answered)|].
    eapply t_cons; [apply (s_lock seconds seconds held "job" "carol" (10 ^ 9) Answered)|].
    eapply t_cons; [apply (s_unlock seconds seconds held (mkLock "job" "bob" 5) false Answered)|]. apply t_nil.
  - repeat (apply Forall_cons; split; [split; [discriminate|intros ? [=]]|]). apply Forall_nil. exact I.
Defined.
Lemma lock_lifecycle_witness : (Unlock held (mkLock "job" "alice" 5) false Answered).2 = Ok tt.
Proof. apply (lock_lifecycle seconds seconds held "job" "alice" 5 (mkLock "job" "alice" 5)). reflexivity. Defined.

(** ** Corner cases *)

(** A timed-out attempt panics instead of being retried: the result is nil. *)
Example deadline_panics f : Lock_loop f [(inl ErrDeadline, false); (inr "OK", false)] = (Some Panic, 1%nat).
Proof. reflexivity. Qed.
(** A timed-out refresh ends [AutoRefresh]; the code that would retry is behind the
    return. *)
Example autorefresh_gives_up : AutoRefresh [None; Some ErrDeadline; None] = Some ErrDeadline.
Proof. reflexivity. Qed.
(** When the answer is lost the key is taken although the caller holds no lock. *)
Example lost_answer_leaves_key : TryLock (∅ : mem) "job" "bob" 5 (AnswerLost ErrDeadline) = ({["job" := "bob"]}, inl ErrDeadline).
Proof. reflexivity. Qed.
(** Unlocking twice panics on the closed channel. *)
Example second_unlock_panics : (Unlock (∅ : mem) (mkLock "job" "alice" 5) true Answered).2 = Panic.
Proof. reflexivity. Qed.
