(* ===== verification/OrmModel.v ===== *)
(** * Table metadata of the ORM

    Models [src/orm/internal/model/model.go], [src/orm/internal/model/registry.go]
    and the errors of [src/orm/internal/errs/error.go].  A Go struct type is what
    reflection shows of it (without embedded fields).  Metadata fields are shared by pointer between the maps
    of a model, so a model keeps them in one vector and refers to them by position.
    Identifiers are ASCII text. *)

From S2P Require Import Prelude GoStrings.
Local Open Scope Z_scope.

(** ** Errors *)
Inductive orm_err :=
| ErrPointerOnly | ErrNoRows | ErrTooManyRows | ErrTooManyReturnedColumns | ErrInsertZeroRow | ErrOptimisticLock
| ErrInvalidTagContent (pair : string) | ErrUnknownField (field : string) | ErrUnknownColumn (column : string)
| ErrUnsupportedFeature (feature : string) | ErrUnsupportedTable | ErrUnsupportedAssignable | ErrUnsupportedExpr
| ErrNoCondition
| ErrNilValue (field : string) | ErrNotSettable (field : string) | ErrFieldType (field : string)
| ErrRollback (biz rb : orm_err) (panicked : bool)
| ErrOther (msg : string).

(** ** Go types and values as far as the ORM looks at them *)
Inductive ftype :=
| FTime | FPtrTime | FAny                       (** [time.Time], [*time.Time], an interface a time fits *)
| FInt (width : Z) | FUint (width : Z)
| FOther (name : string).

Record sfield := mkSF { f_Name : string; f_Tag : option string; f_Type : ftype; f_exported : bool }.
(** A struct type: identity, name, fields, and the table name its pointer type
    gives through the [TableName] interface, if it implements it. *)
Record structdef := mkStruct { s_id : nat; s_Name : string; s_Fields : list sfield; s_TableName : option string }.
(** The type of what is handed over as an entity. *)
Inductive entity := PtrStruct (s : structdef) | NotPtrStruct (id : nat).

#[export] Instance ftype_eq_dec : EqDecision ftype.
Proof. solve_decision. Defined.
#[export] Instance ftype_countable : Countable ftype.
Proof.
  refine (inj_countable'
    (λ t, match t with
          | FTime => inl 0%nat | FPtrTime => inl 1%nat | FAny => inl 2%nat
          | FInt w => inr (inl w) | FUint w => inr (inr (inl w)) | FOther n => inr (inr (inr n))
          end)
    (λ c, match c with
          | inl 0%nat => FTime | inl 1%nat => FPtrTime | inl _ => FAny
          | inr (inl w) => FInt w | inr (inr (inl w)) => FUint w | inr (inr (inr n)) => FOther n
          end) _); by intros [].
Defined.
#[export] Instance sfield_eq_dec : EqDecision sfield.
Proof. solve_decision. Defined.
#[export] Instance sfield_countable : Countable sfield.
Proof.
  refine (inj_countable' (λ f, (f_Name f, f_Tag f, f_Type f, f_exported f))
    (λ '(n, t, y, e), mkSF n t y e) _); by intros [].
Defined.
#[export] Instance structdef_eq_dec : EqDecision structdef.
Proof. solve_decision. Defined.
#[export] Instance structdef_countable : Countable structdef.
Proof.
  refine (inj_countable' (λ s, (s_id s, s_Name s, s_Fields s, s_TableName s))
    (λ '(i, n, f, t), mkStruct i n f t) _); by intros [].
Defined.
#[export] Instance entity_eq_dec : EqDecision entity.
Proof. solve_decision. Defined.
#[export] Instance entity_countable : Countable entity.
Proof.
  refine (inj_countable' (λ e, match e with PtrStruct s => inl s | NotPtrStruct i => inr i end)
    (λ c, match c with inl s => PtrStruct s | inr i => NotPtrStruct i end) _); by intros [].
Defined.

Definition isIntegerKind (t : ftype) : bool := match t with FInt _ | FUint _ => true | _ => false end.

(** ** Metadata *)
Record Field := mkField { ColName : string; GoName : string; Type_ : ftype }.
Record Model := mkModel {
  TableName : string;
  Fields : list Field;
  FieldMap : gmap string nat; ColumnMap : gmap string nat;
  CreatedAtField : option nat; UpdatedAtField : option nat; DeletedAtField : option nat; VersionField : option nat }.

Definition field_at (m : Model) (i : option nat) : option Field := i ≫= λ i, Fields m !! i.
(** [m.FieldMap[name]] and [m.ColumnMap[col]] *)
Definition field_of (m : Model) (name : string) : option Field := field_at m (FieldMap m !! name).
Definition column_of (m : Model) (col : string) : option Field := field_at m (ColumnMap m !! col).

(** ** Names *)

(** [Camel2Case]: [prev] is the byte before. *)
Fixpoint camel_go (prev : option ascii) (s : string) : string :=
  match s with
  | EmptyString => EmptyString
  | String c s' =>
      let sep :=
        match prev with
        | None => false
        | Some p =>
            is_upper c &&
            (negb (is_upper p) || match s' with String n _ => is_lower n | EmptyString => false end)
        end in
      (if sep then str1 "_" else EmptyString) +:+ String (to_lower c) (camel_go (Some c) s')
  end.
Definition Camel2Case (s : string) : string := camel_go None s.

(** ** Tags *)
Definition parseSegment (seg : string) : orm_err + (string * string) :=
  if negb (has_suffix1 ")" seg) then inl (ErrInvalidTagContent seg)
  else match split1 "(" seg with
       | [k; v] => inr (k, trim_suffix1 ")" v)
       | _ => inl (ErrInvalidTagContent seg)
       end.
Fixpoint parseSegments (segs : list string) (res : gmap string string) : orm_err + gmap string string :=
  match segs with
  | [] => inr res
  | seg :: segs' => match parseSegment seg with
                    | inl e => inl e
                    | inr (k, v) => parseSegments segs' (<[k := v]> res)
                    end
  end.
Definition parseTag (tag : option string) : orm_err + gmap string string :=
  match tag with None => inr ∅ | Some val => parseSegments (split1 ";" val) ∅ end.

Definition tagKeyColumn := "column".
Definition tagKeyCreatedAt := "created_at".
Definition tagKeyUpdatedAt := "updated_at".
Definition tagKeyDeletedAt := "deleted_at".
Definition tagKeyVersion := "version".

(** ** Parsing a struct type *)
Definition marked (tags : gmap string string) (key name go : string) : bool :=
  bool_decide (is_Some (tags !! key)) || bool_decide (name = go).

(** The name given, or the default when it is absent or empty. *)
Definition or_default (given : option string) (dflt : string) : string :=
  match default "" given with "" => dflt | c => c end.

Definition add_field (m : Model) (f : sfield) (tags : gmap string string) : Model :=
  let colName := or_default (tags !! tagKeyColumn) (Camel2Case (f_Name f)) in
  let i := length (Fields m) in
  mkModel (TableName m) (Fields m ++ [mkField colName (f_Name f) (f_Type f)])
    (<[f_Name f := i]> (FieldMap m)) (<[colName := i]> (ColumnMap m))
    (if marked tags tagKeyCreatedAt (f_Name f) "CreatedAt" then Some i else CreatedAtField m)
    (if marked tags tagKeyUpdatedAt (f_Name f) "UpdatedAt" then Some i else UpdatedAtField m)
    (if marked tags tagKeyDeletedAt (f_Name f) "DeletedAt" then Some i else DeletedAtField m)
    (if marked tags tagKeyVersion (f_Name f) "Version" && isIntegerKind (f_Type f) then Some i else VersionField m).

Fixpoint parseFields (fs : list sfield) (m : Model) : orm_err + Model :=
  match fs with
  | [] => inr m
  | f :: fs' => match parseTag (f_Tag f) with
                | inl e => inl e
                | inr tags => parseFields fs' (add_field m f tags)
                end
  end.

Definition set_table (m : Model) (t : string) : Model :=
  mkModel t (Fields m) (FieldMap m) (ColumnMap m) (CreatedAtField m) (UpdatedAtField m) (DeletedAtField m) (VersionField m).
Definition emptyModel : Model := mkModel "" [] ∅ ∅ None None None None.

Definition parseModel (e : entity) : orm_err + Model :=
  match e with
  | NotPtrStruct _ => inl ErrPointerOnly
  | PtrStruct s =>
      match parseFields (s_Fields s) emptyModel with
      | inl e => inl e
      | inr m => inr (set_table m (or_default (s_TableName s) (Camel2Case (s_Name s))))
      end
  end.

(** ** Options *)
Definition ModelOpt := Model → orm_err + Model.
Definition WithTableName (t : string) : ModelOpt := λ m, inr (set_table m t).
(** Both pointers are followed: the field found by name and the one found under its
    column. *)
Definition rename (i : nat) (col : string) (fs : list Field) : list Field :=
  alter (λ f, mkField col (GoName f) (Type_ f)) i fs.
Definition WithColumName (field colName : string) : ModelOpt := λ m,
  match FieldMap m !! field with
  | None => inl (ErrUnknownField field)
  | Some i =>
      match Fields m !! i with
      | None => inl (ErrUnknownField field)
      | Some fd =>
          match ColumnMap m !! ColName fd with
          | None => inl (ErrUnknownColumn field)
          | Some j =>
              inr (mkModel (TableName m) (rename i colName (rename j colName (Fields m)))
                     (FieldMap m) (<[colName := j]> (delete (ColName fd) (ColumnMap m)))
                     (CreatedAtField m) (UpdatedAtField m) (DeletedAtField m) (VersionField m))
          end
      end
  end.

Fixpoint apply_opts (opts : list ModelOpt) (m : Model) : orm_err + Model :=
  match opts with [] => inr m | o :: opts' => match o m with inl e => inl e | inr m => apply_opts opts' m end end.
(** [Registry]: the result is not stored. *)
Definition Registry (e : entity) (opts : list ModelOpt) : orm_err + Model :=
  match parseModel e with inl e => inl e | inr m => apply_opts opts m end.

(** ** The cache

    The map from types to models.  [Get] is cut between the read lock and the write
    lock. *)
Abbreviation registry := (gmap entity Model).
Definition NewRegistry : registry := ∅.
Definition Get_read (r : registry) (e : entity) : option Model := r !! e.
Definition Get_write (r : registry) (e : entity) : registry * (orm_err + Model) :=
  match r !! e with
  | Some m => (r, inr m)
  | None => match Registry e [] with
            | inl err => (r, inl err)
            | inr m => (<[e := m]> r, inr m)
            end
  end.
Definition registry_Get (r : registry) (e : entity) : registry * (orm_err + Model) :=
  match Get_read r e with Some m => (r, inr m) | None => Get_write r e end.
