(* ===== verification/OrmModelFacts.v ===== *)
(** * Correctness of the ORM's table metadata *)

From S2P Require Import Prelude GoStrings Decimal OrmModel.
Local Open Scope Z_scope.

(** ** Names *)
Definition no_upper (s : string) : bool := str_all (λ c, negb (is_upper c)) s.
Lemma to_lower_not_upper c : is_upper (to_lower c) = false.
Proof. by destruct c as [[] [] [] [] [] [] [] []]. Qed.
Lemma to_lower_id c : is_upper c = false → to_lower c = c.
Proof. unfold to_lower. by intros ->. Qed.
Lemma to_lower_underscore c : to_lower c = "_"%char → c = "_"%char.
Proof. by destruct c as [[] [] [] [] [] [] [] []]. Qed.

Lemma camel_no_upper s : ∀ p, no_upper (camel_go p s) = true.
Proof.
  induction s as [|c s IH]; intros p; [done|]. cbn [camel_go].
  assert (no_upper (String (to_lower c) (camel_go (Some c) s)) = true) as H.
  { unfold no_upper in *. cbn [str_all]. by rewrite to_lower_not_upper, IH. }
  match goal with |- context [if ?b then _ else _] => by destruct b end.
Qed.
Lemma camel_lower_id s : ∀ p, no_upper s = true → camel_go p s = s.
Proof.
  induction s as [|c s IH]; intros p; [done|]. unfold no_upper. cbn [str_all camel_go]. intros [Hc Hs]%andb_true_iff.
  apply negb_true_iff in Hc. rewrite Hc, IH, to_lower_id by done. by destruct p.
Qed.

Fixpoint without (c : ascii) (s : string) : string :=
  match s with EmptyString => EmptyString | String d s' => if bool_decide (d = c) then without c s' else String d (without c s') end.
Lemma camel_letters s : ∀ p, contains1 "_" s = false → without "_" (camel_go p s) = str_lower s.
Proof.
  induction s as [|c s IH]; intros p; [done|]. cbn [contains1 camel_go str_lower].
  intros [Hc Hs]%orb_false_iff. apply bool_decide_eq_false in Hc.
  assert (without "_" (String (to_lower c) (camel_go (Some c) s)) = String (to_lower c) (str_lower s)) as H.
  { cbn [without]. rewrite bool_decide_false by (by intros ?%to_lower_underscore). by rewrite IH. }
  match goal with |- context [if ?b then _ else _] => by destruct b end.
Qed.

(** Column and table names derived from Go names: the result has no upper-case
    letter, deriving again changes nothing, and for a Go name without underscores
    exactly underscores are inserted into its lower-case form. *)
Theorem camel_case s : no_upper (Camel2Case s) = true ∧ Camel2Case (Camel2Case s) = Camel2Case s ∧
  (contains1 "_" s = false → without "_" (Camel2Case s) = str_lower s).
Proof.
  unfold Camel2Case. split_and!; [apply camel_no_upper|apply camel_lower_id, camel_no_upper|apply camel_letters].
Qed.
Example camel_http : Camel2Case "HTTPServerID" = "http_server_id".
Proof. reflexivity. Qed.

(** ** Tags *)
Definition show_tag (kv : string * string) : string := kv.1 +:+ "(" +:+ kv.2 +:+ ")".
Definition tag_clean (kv : string * string) : Prop :=
  contains1 "(" kv.1 = false ∧ contains1 "(" kv.2 = false ∧ contains1 ";" kv.1 = false ∧ contains1 ";" kv.2 = false.

Lemma parse_show_tag kv : tag_clean kv → parseSegment (show_tag kv) = inr kv.
Proof.
  destruct kv as [k v]. intros (H1 & H2 & _ & _). unfold parseSegment, show_tag. cbn [fst snd] in *.
  assert (k +:+ "(" +:+ v +:+ ")" = (k +:+ String "(" v) +:+ str1 ")") as E by (by rewrite str_app_assoc).
  assert (has_suffix1 ")" (k +:+ "(" +:+ v +:+ ")") = true) as ->
    by (rewrite E; unfold has_suffix1; rewrite last_char_snoc; by apply bool_decide_eq_true).
  cbn [negb]. change ("(" +:+ v +:+ ")") with (String "(" (v +:+ ")")). rewrite split1_app by done.
  rewrite (split1_no_sep "(" (v +:+ ")")) by (rewrite contains1_app, H2; done).
  unfold trim_suffix1, has_suffix1. change (v +:+ ")") with (v +:+ str1 ")").
  rewrite last_char_snoc, bool_decide_true by done. by rewrite drop_last_snoc.
Qed.

Lemma parse_show_tags kvs : ∀ m, Forall tag_clean kvs →
  parseSegments (map show_tag kvs) m = inr (foldl (λ m kv, <[kv.1 := kv.2]> m) m kvs).
Proof.
  induction kvs as [|[k v] kvs IH]; intros m H; [done|]. apply Forall_cons in H as [Hk H]. cbn [map parseSegments foldl].
  rewrite parse_show_tag by done. by apply IH.
Qed.

Lemma show_tag_no_semi kv : tag_clean kv → contains1 ";" (show_tag kv) = false.
Proof. destruct kv as [k v]. intros (_ & _ & H1 & H2). unfold show_tag. cbn in *. by rewrite !contains1_app, H1, H2. Qed.

(** Printed tags parse back. *)
Lemma tag_roundtrip kvs : kvs ≠ [] → Forall tag_clean kvs →
  parseTag (Some (join ";" (map show_tag kvs))) = inr (foldl (λ m kv, <[kv.1 := kv.2]> m) ∅ kvs).
Proof.
  intros Hne Hc. unfold parseTag. change (join ";") with (join (str1 ";")). rewrite split1_join.
  - by apply parse_show_tags.
  - by destruct kvs.
  - apply Forall_fmap, (Forall_impl _ _ _ Hc). apply show_tag_no_semi.
Qed.

(** ** Well-formed models *)
Record model_ok (m : Model) : Prop := {
  mo_names : NoDup (map GoName (Fields m));
  mo_field : ∀ i f, Fields m !! i = Some f → FieldMap m !! GoName f = Some i;
  mo_field' : ∀ n i, FieldMap m !! n = Some i → ∃ f, Fields m !! i = Some f ∧ GoName f = n;
  mo_col : ∀ i f, Fields m !! i = Some f → is_Some (ColumnMap m !! ColName f);
  mo_col' : ∀ c i, ColumnMap m !! c = Some i → ∃ f, Fields m !! i = Some f ∧ ColName f = c;
  mo_special : ∀ i, i ∈ [CreatedAtField m; UpdatedAtField m; DeletedAtField m; VersionField m] →
    ∀ j, i = Some j → (j < length (Fields m))%nat;
  mo_version : ∀ f, field_at m (VersionField m) = Some f → isIntegerKind (Type_ f) = true }.

Lemma lookup_snoc_inv {A} (l : list A) x i y : (l ++ [x]) !! i = Some y → l !! i = Some y ∨ (i = length l ∧ y = x).
Proof.
  intros H. apply lookup_app_Some in H as [H|[Hl H]]; [by left|]. right.
  apply list_lookup_singleton_Some in H as [Hi ->]. split; [lia|done].
Qed.

Lemma lookup_snoc_length {A} (l : list A) x : (l ++ [x]) !! length l = Some x.
Proof. by rewrite lookup_app_r, Nat.sub_diag by lia. Qed.

Lemma add_field_ok m f tags : model_ok m → f_Name f ∉ map GoName (Fields m) → model_ok (add_field m f tags).
Proof.
  intros [H1 H2 H3 H4 H5 H6 H7] Hn. unfold add_field. set (col := or_default _ _).
  set (i := length (Fields m)). split; cbn [Fields FieldMap ColumnMap CreatedAtField UpdatedAtField DeletedAtField VersionField].
  - rewrite map_app. apply NoDup_app. split_and!; [done| |apply NoDup_singleton].
    cbn. intros x Hx ->%list_elem_of_singleton. done.
  - intros j g [Hg|[-> ->]]%lookup_snoc_inv; [|by rewrite lookup_insert_eq].
    rewrite lookup_insert_ne; [by apply H2|]. intros E. apply Hn. rewrite E. apply list_elem_of_In, in_map, list_elem_of_In.
    by eapply list_elem_of_lookup_2.
  - intros n j. destruct (decide (f_Name f = n)) as [<-|Hne].
    + rewrite lookup_insert_eq. intros [= <-]. eexists. split; [apply lookup_snoc_length|done].
    + rewrite lookup_insert_ne by done. intros (g & Hg & Eg)%H3. exists g. split; [by apply lookup_app_l_Some|done].
  - intros j g Hg. destruct (decide (col = ColName g)) as [<-|Hne]; [rewrite lookup_insert_eq; by eexists|].
    rewrite lookup_insert_ne by done. apply lookup_snoc_inv in Hg as [Hg|[_ ->]]; [by eapply H4|done].
  - intros c j. destruct (decide (col = c)) as [<-|Hne].
    + rewrite lookup_insert_eq. intros [= <-]. eexists. split; [apply lookup_snoc_length|done].
    + rewrite lookup_insert_ne by done. intros (g & Hg & Eg)%H5. exists g. split; [by apply lookup_app_l_Some|done].
  - intros o Ho j ->. rewrite length_app. cbn [length].
    assert (∀ b o', (∀ j, o' = Some j → (j < length (Fields m))%nat) → (if (b : bool) then Some i else o') = Some j →
      (j < length (Fields m) + 1)%nat) as Hb by (intros [] o' Hs E; [injection E; lia|apply Hs in E; lia]).
    rewrite !elem_of_cons, elem_of_nil in Ho.
    destruct Ho as [E|[E|[E|[E|[]]]]]; symmetry in E; (eapply Hb; [|exact E]); intros j' Ej; (eapply (H6 _); [|exact Ej]); set_solver.
  - intros g. unfold field_at. cbn [Fields VersionField]. destruct (_ && _) eqn:E.
    + cbn [mbind option_bind]. unfold i. rewrite lookup_snoc_length. intros [= <-]. by apply andb_true_iff in E as [_ E].
    + destruct (VersionField m) as [j|] eqn:Ej; [|done]. cbn [mbind option_bind]. intros [Hg|[Hj _]]%lookup_snoc_inv.
      * apply H7. unfold field_at. by cbn.
      * assert (j < length (Fields m))%nat by (eapply H6; [|done]; set_solver). lia.
Qed.

Lemma parseFields_ok fs : ∀ m m', model_ok m → NoDup (map GoName (Fields m) ++ map f_Name fs) →
  parseFields fs m = inr m' → model_ok m' ∧ map GoName (Fields m') = map GoName (Fields m) ++ map f_Name fs.
Proof.
  induction fs as [|f fs IH]; intros m m' Hm Hnd E; cbn [parseFields] in E.
  - injection E as <-. by rewrite app_nil_r.
  - destruct (parseTag (f_Tag f)) as [e|tags]; [done|]. cbn [map] in Hnd.
    assert (f_Name f ∉ map GoName (Fields m)) as Hn.
    { apply NoDup_app in Hnd as (_ & Hd & _). intros Hin. apply (Hd _ Hin). left. }
    assert (map GoName (Fields (add_field m f tags)) = map GoName (Fields m) ++ [f_Name f]) as Eg
      by (unfold add_field; cbn [Fields]; by rewrite map_app).
    destruct (IH (add_field m f tags) m') as [H1 H2]; [by apply add_field_ok| |done|].
    + rewrite Eg, <- app_assoc. done.
    + split; [done|]. rewrite H2, Eg, <- app_assoc. done.
Qed.

Lemma model_ok_table m t : model_ok m → model_ok (set_table m t).
Proof. intros [H1 H2 H3 H4 H5 H6 H7]. by split. Qed.
Lemma emptyModel_ok : model_ok emptyModel.
Proof. split; cbn; try done; [constructor|]. intros i Hi j ->. set_solver. Qed.

(** ** Renaming a column *)
Lemma lookup_map_eq {A B} (f : A → B) (l : list A) i : map f l !! i = f <$> l !! i.
Proof. apply list_lookup_fmap. Qed.
Lemma rename_lookup i col fs j : rename i col fs !! j = (λ f, if decide (i = j) then mkField col (GoName f) (Type_ f) else f) <$> fs !! j.
Proof.
  unfold rename. destruct (decide (i = j)) as [->|Hne].
  - by rewrite list_lookup_alter_eq.
  - rewrite list_lookup_alter_ne by done. by destruct (fs !! j).
Qed.
Lemma rename_twice i col fs : rename i col (rename i col fs) = rename i col fs.
Proof. apply list_eq. intros j. rewrite !rename_lookup. destruct (fs !! j); [|done]. cbn. by destruct (decide (i = j)). Qed.

Lemma own_column m i f : model_ok m → NoDup (map ColName (Fields m)) → Fields m !! i = Some f → ColumnMap m !! ColName f = Some i.
Proof.
  intros Hm Hc Hf. destruct (mo_col m Hm i f Hf) as [j Hj]. destruct (mo_col' m Hm _ _ Hj) as (g & Hg & Eg). rewrite Hj. f_equal.
  apply (NoDup_lookup (map ColName (Fields m)) j i (ColName f)); [done| |]; rewrite lookup_map_eq; by rewrite ?Hg, ?Hf; cbn; rewrite ?Eg.
Qed.

Lemma WithColumName_ok m field col i f : model_ok m → NoDup (map ColName (Fields m)) → col ∉ map ColName (Fields m) →
  FieldMap m !! field = Some i → Fields m !! i = Some f →
  ∃ m', WithColumName field col m = inr m' ∧ model_ok m' ∧ NoDup (map ColName (Fields m')) ∧
    field_of m' field = Some (mkField col (GoName f) (Type_ f)) ∧ column_of m' col = field_of m' field ∧
    column_of m' (ColName f) = None ∧ (∀ n, n ≠ field → field_of m' n = field_of m n).
Proof.
  intros Hm Hc Hcol Hi Hf. pose proof Hm as [H1 H2 H3 H4 H5 H6 H7].
  pose proof (own_column m i f Hm Hc Hf) as Hj. unfold WithColumName. rewrite Hi, Hf, Hj, rename_twice.
  set (m' := mkModel _ _ _ _ _ _ _ _). exists m'. split; [done|].
  assert (∀ j, Fields m' !! j = (λ g, if decide (i = j) then mkField col (GoName g) (Type_ g) else g) <$> Fields m !! j) as Hl
    by (intros j; apply rename_lookup).
  assert (map GoName (Fields m') = map GoName (Fields m)) as Eg.
  { apply list_eq. intros j. rewrite !lookup_map_eq, Hl. destruct (Fields m !! j); [|done]. cbn. by destruct (decide (i = j)). }
  assert (∀ j g, Fields m !! j = Some g → ColName g ≠ col) as Hold.
  { intros j g Hg <-. apply Hcol, list_elem_of_In, in_map, list_elem_of_In. by eapply list_elem_of_lookup_2. }
  assert (∀ j g, Fields m !! j = Some g → j ≠ i → ColName g ≠ ColName f) as Hdiff.
  { intros j g Hg Hne E. apply Hne, (NoDup_lookup _ j i (ColName f) Hc); rewrite lookup_map_eq; by rewrite ?Hg, ?Hf; cbn; rewrite ?E. }
  assert (Fields m' !! i = Some (mkField col (GoName f) (Type_ f))) as Hif
    by (rewrite Hl, Hf; cbn; by rewrite decide_True).
  assert (field_of m' field = Some (mkField col (GoName f) (Type_ f))) as Hff
    by (unfold field_of, field_at; cbn [FieldMap m']; rewrite Hi; cbn [mbind option_bind]; done).
  split_and!; [| |done| | |].
  - split; try done.
    + by rewrite Eg.
    + intros j g Hg. rewrite Hl in Hg. destruct (Fields m !! j) as [g0|] eqn:E0; [|done]. cbn in Hg. injection Hg as <-.
      destruct (decide (i = j)); cbn; by apply H2.
    + intros n j (g & Hg & En)%H3. rewrite Hl, Hg. cbn. eexists. split; [done|]. by destruct (decide (i = j)).
    + intros j g Hg. rewrite Hl in Hg. destruct (Fields m !! j) as [g0|] eqn:E0; [|done]. cbn in Hg. injection Hg as <-.
      cbn [ColumnMap m']. destruct (decide (i = j)) as [->|Hij]; cbn [ColName]; [rewrite lookup_insert_eq; by eexists|].
      rewrite lookup_insert_ne by (intros ->; by apply (Hold j g0)). rewrite lookup_delete_ne by (intros E; by apply (Hdiff j g0)).
      by apply (H4 j).
    + intros c j. cbn [ColumnMap m']. destruct (decide (col = c)) as [<-|Hne].
      * rewrite lookup_insert_eq. intros [= <-]. eauto.
      * rewrite lookup_insert_ne by done. intros [Hc' (g & Hg & Eg')%H5]%lookup_delete_Some. exists g. split; [|done].
        rewrite Hl, Hg. cbn. rewrite decide_False; [done|]. intros ->. rewrite Hf in Hg. injection Hg as ->. congruence.
    + intros o Ho j ->. assert (length (Fields m') = length (Fields m)) as -> by (by rewrite <- (length_map GoName), Eg, length_map).
      by eapply H6.
    + intros g. unfold field_at. cbn [VersionField m']. destruct (VersionField m) as [v|] eqn:Ev; [|done]. cbn [mbind option_bind].
      rewrite Hl. destruct (Fields m !! v) as [g0|] eqn:E0; [|done]. cbn. intros [= <-].
      assert (isIntegerKind (Type_ g0) = true) as Hk by (apply H7; unfold field_at; rewrite ?Ev; cbn; done). by destruct (decide (i = v)).
  - apply NoDup_alt. intros a b x Ha Hb. rewrite !lookup_map_eq, !Hl in Ha, Hb.
    destruct (Fields m !! a) as [ga|] eqn:Ea; [|done]. destruct (Fields m !! b) as [gb|] eqn:Ebb; [|done]. cbn in Ha, Hb.
    injection Ha as <-. injection Hb as Hb. destruct (decide (i = a)) as [<-|Hia], (decide (i = b)) as [<-|Hib]; cbn in Hb; [done| | |].
    + by destruct (Hold b gb).
    + by destruct (Hold a ga).
    + apply (NoDup_lookup _ a b (ColName ga) Hc); rewrite lookup_map_eq; by rewrite ?Ea, ?Ebb; cbn; rewrite ?Hb.
  - unfold column_of, field_at. cbn [ColumnMap m']. rewrite lookup_insert_eq. cbn [mbind option_bind]. rewrite Hif. by rewrite Hff.
  - unfold column_of, field_at. cbn [ColumnMap m']. rewrite lookup_insert_ne by (intros E; by apply (Hold i f Hf)).
    by rewrite lookup_delete_eq.
  - intros n Hne. unfold field_of, field_at. cbn [FieldMap m']. destruct (FieldMap m !! n) as [j|] eqn:Ej; [|done]. cbn [mbind option_bind].
    rewrite Hl. destruct (Fields m !! j) as [g|] eqn:E0; [|done]. cbn. rewrite decide_False; [done|]. intros <-.
    destruct (H3 _ _ Ej) as (g1 & G1 & G2). destruct (H3 _ _ Hi) as (g2 & G3 & G4). congruence.
Qed.

Lemma parseModel_ok s m : NoDup (map f_Name (s_Fields s)) → parseModel (PtrStruct s) = inr m →
  model_ok m ∧ map GoName (Fields m) = map f_Name (s_Fields s).
Proof.
  intros Hnd. unfold parseModel. destruct (parseFields _ _) as [e|m0] eqn:E; [done|]. intros [= <-].
  destruct (parseFields_ok _ _ _ emptyModel_ok Hnd E) as [Hm Hn]. split; [by apply model_ok_table|done].
Qed.

(** C27: The metadata of a struct type is well formed: the fields are the struct's, in
    order; both maps lead to fields of that name and column, and every field is found
    under its name; the special fields are fields, and the version field has an
    integer type.  Giving one field a fresh column keeps all of it when columns are
    distinct: the field is found under the new column only and no other changes. *)
Theorem model_well_formed s m : NoDup (map f_Name (s_Fields s)) → parseModel (PtrStruct s) = inr m →
  model_ok m ∧ map GoName (Fields m) = map f_Name (s_Fields s) ∧
  ∀ i f col, Fields m !! i = Some f → NoDup (map ColName (Fields m)) → col ∉ map ColName (Fields m) →
    ∃ m', WithColumName (GoName f) col m = inr m' ∧ model_ok m' ∧
      field_of m' (GoName f) = Some (mkField col (GoName f) (Type_ f)) ∧ column_of m' col = field_of m' (GoName f) ∧
      column_of m' (ColName f) = None ∧ (∀ n, n ≠ GoName f → field_of m' n = field_of m n).
Proof.
  intros Hnd E. destruct (parseModel_ok s m Hnd E) as [Hok Hn].
  split_and!; [done|done|]. intros i f col Hf Hc Hcol.
  destruct (WithColumName_ok _ (GoName f) col i f Hok Hc Hcol) as (m' & H1 & H2 & _ & H3 & H4 & H5 & H6);
    [by apply (mo_field _ Hok)|done|]. by exists m'.
Qed.
Definition wUser : structdef :=
  mkStruct 1 "TestUser" [mkSF "Id" None (FInt 64) true; mkSF "Name" (Some "column(user_name)") (FOther "string") true;
    mkSF "Version" None (FInt 64) true] None.
Lemma model_well_formed_witness : ∃ m, parseModel (PtrStruct wUser) = inr m ∧ model_ok m.
Proof.
  destruct (parseModel (PtrStruct wUser)) as [e|m] eqn:E; [vm_compute in E; discriminate|]. exists m. split; [done|].
  refine (proj1 (model_well_formed wUser m _ E)). apply (bool_decide_unpack _). by vm_compute.
Defined.

(** ** The cache of models *)
Definition reg_ok (r : registry) : Prop := ∀ e m, r !! e = Some m → parseModel e = inr m.

Lemma reg_ok_new : reg_ok NewRegistry.
Proof. intros e m. unfold NewRegistry. by rewrite lookup_empty. Qed.
Lemma Registry_plain e : Registry e [] = parseModel e.
Proof. unfold Registry. by destruct (parseModel e). Qed.

Lemma Get_write_spec r e : reg_ok r → reg_ok (Get_write r e).1 ∧ (Get_write r e).2 = parseModel e.
Proof.
  intros Hr. unfold Get_write. destruct (r !! e) as [m|] eqn:E; [split; [done|symmetry; by apply Hr]|].
  rewrite Registry_plain. destruct (parseModel e) as [err|m] eqn:Ep; [done|]. split; [|done].
  intros e' m'. cbn [fst]. destruct (decide (e = e')) as [<-|Hne]; [rewrite lookup_insert_eq; congruence|].
  rewrite lookup_insert_ne by done. apply Hr.
Qed.
Lemma registry_Get_spec r e : reg_ok r → reg_ok (registry_Get r e).1 ∧ (registry_Get r e).2 = parseModel e.
Proof.
  intros Hr. unfold registry_Get, Get_read. destruct (r !! e) as [m|] eqn:E; [|by apply Get_write_spec].
  split; [done|]. symmetry. by apply Hr.
Qed.

(** What one thread may do to the cache between two of its own accesses. *)
Inductive reg_step : registry → registry → Prop := reg_write r e : reg_step r (Get_write r e).1.
Lemma reg_steps_ok r r' : rtc reg_step r r' → reg_ok r → reg_ok r'.
Proof. apply (rtc_invariant reg_step reg_ok). intros s s' Hs Hst. destruct Hst. by apply Get_write_spec. Qed.

(** The cache is transparent: whatever other goroutines do before the read and
    between the read lock and the write lock, [Get] answers what parsing the type
    answers, errors included. *)
Theorem registry_transparent r1 r2 e : rtc reg_step NewRegistry r1 → rtc reg_step r1 r2 →
  match Get_read r1 e with
  | Some m => inr m = parseModel e
  | None => (Get_write r2 e).2 = parseModel e
  end.
Proof.
  intros H1 H2. pose proof (reg_steps_ok _ _ H1 reg_ok_new) as Hr1. unfold Get_read.
  destruct (r1 !! e) as [m|] eqn:E; [symmetry; by apply Hr1|]. exact (proj2 (Get_write_spec r2 e (reg_steps_ok _ _ H2 Hr1))).
Qed.
Lemma registry_transparent_witness :
  match Get_read NewRegistry (PtrStruct wUser) with
  | Some m => inr m = parseModel (PtrStruct wUser)
  | None => (Get_write (Get_write NewRegistry (PtrStruct wUser)).1 (PtrStruct wUser)).2 = parseModel (PtrStruct wUser)
  end.
Proof. apply registry_transparent; [apply rtc_refl|apply rtc_once; constructor]. Defined.

(** Options of [Registry] do not reach the cache: the next [Get] parses again. *)
Example registry_options_lost :
  TableName <$> (match Registry (PtrStruct wUser) [WithTableName "users"] with inr m => Some m | _ => None end) = Some "users" ∧
  TableName <$> (match (registry_Get NewRegistry (PtrStruct wUser)).2 with inr m => Some m | _ => None end) = Some "test_user".
Proof. by split. Qed.
(** Two fields may claim one column; renaming then hits the later one as well. *)
Definition wTwins : structdef :=
  mkStruct 2 "T" [mkSF "ID" None (FInt 64) true; mkSF "Id" None (FInt 64) true] None.
Example rename_hits_twin :
  map ColName <$> (match Registry (PtrStruct wTwins) [WithColumName "ID" "key"] with inr m => Some (Fields m) | _ => None end)
  = Some ["key"; "key"].
Proof. reflexivity. Qed.
