(* ===== verification/OrmFixture.v ===== *)
(** * A struct with a column of every kind

    Models [src/orm/internal/valuer/simpleStruct.go] and its copy
    [src/orm/internal/integration/simpleStruct.go]: the struct type the ORM is tried
    on, the instance [NewSimpleStruct] makes, and [JsonColumn], a column type that
    stores a struct as JSON through [sql.Scanner] and [driver.Valuer].  encoding/json
    is an interface. *)

From S2P Require Import Prelude GoStrings OrmModel.
Local Open Scope Z_scope.

(** ** The JSON column *)
Record User := mkUser { u_Name : string; u_Age : Z }.
Record JsonColumn := mkJson { Val : User; Valid : bool }.

(** What a driver hands to [Scan]; a pointer to a byte slice may be nil. *)
Inductive scan_src := SNil | SBytes (bs : string) | SString (s : string) | SPtrBytes (p : option string) | SOtherSrc.
(** [driver.Value] as far as [Value] uses it. *)
Inductive driver_value := DNil | DBytes (bs : string).
Definition handed_back (v : driver_value) : scan_src := match v with DNil => SNil | DBytes bs => SBytes bs end.

(** encoding/json on [User].  [Unmarshal] writes into the struct it is given and may
    have written part of it when it fails.  What [Marshal] writes of a struct with
    exported fields and no tags has every field, so reading it back restores the
    struct whatever was there before; it is never empty.  Strings are valid UTF-8. *)
Class Json := {
  Marshal : User → orm_err + string;
  Unmarshal : string → User → User * option orm_err;
  utf8 : string → bool;
  marshal_ok : ∀ u, utf8 (u_Name u) = true → 0 <= u_Age u < 2 ^ 32 →
    ∃ bs, Marshal u = inr bs ∧ bs ≠ EmptyString ∧ ∀ old, Unmarshal bs old = (u, None) }.

Section column.
Context `{Json}.

(** The bytes of the [switch]; a nil pointer is dereferenced. *)
Definition source_bytes (v : scan_src) : res orm_err string :=
  match v with
  | SBytes bs | SString bs | SPtrBytes (Some bs) => Ok bs
  | SPtrBytes None => Panic
  | SNil | SOtherSrc => Err (ErrOther "type")
  end.
Definition Scan (jc : JsonColumn) (value : scan_src) : JsonColumn * res orm_err unit :=
  match value with
  | SNil => (mkJson (Val jc) false, Ok tt)
  | _ =>
      match source_bytes value with
      | Panic => (jc, Panic)
      | Err e => (jc, Err e)
      | Ok EmptyString => (mkJson (Val jc) false, Ok tt)
      | Ok bs =>
          match Unmarshal bs (Val jc) with
          | (u, Some e) => (mkJson u (Valid jc), Err e)
          | (u, None) => (mkJson u true, Ok tt)
          end
      end
  end.
Definition Value (jc : JsonColumn) : orm_err + driver_value :=
  if negb (Valid jc) then inr DNil
  else match Marshal (Val jc) with inl e => inl e | inr bs => inr (DBytes bs) end.

(** What is stored and read back into any column: a valid value whole; of an
    invalid one only that it is invalid, the value read over stays. *)
Lemma json_column_roundtrip jc old : utf8 (u_Name (Val jc)) = true → 0 <= u_Age (Val jc) < 2 ^ 32 →
  ∃ v, Value jc = inr v ∧
    Scan old (handed_back v) = (if Valid jc then jc else mkJson (Val old) false, Ok tt).
Proof.
  intros Hu Ha. destruct jc as [u [|]]; cbn in *; [|by exists DNil].
  destruct (marshal_ok u Hu Ha) as (bs & E & Hne & Hback). exists (DBytes bs). unfold Value. cbn. rewrite E. split; [done|].
  cbn. destruct bs; [done|]. by rewrite Hback.
Qed.
(** [Scan] never turns an invalid column valid without a value decoded, and panics
    on a nil pointer alone. *)
Lemma scan_valid jc value jc' r : Scan jc value = (jc', r) →
  (r = Panic ↔ value = SPtrBytes None) ∧
  (Valid jc' = true → Valid jc = true ∨ ∃ bs, source_bytes value = Ok bs ∧ Unmarshal bs (Val jc) = (Val jc', None)).
Proof.
  destruct value as [|[|a bs]|[|a bs]|[[|a bs]|]|]; cbn; try (by intros [= <- <-]; split; [split|intros; auto]).
  all: destruct (Unmarshal _ _) as [u [e|]] eqn:E; intros [= <- <-]; (split; [done|]); [by left|]; right; by eexists.
Qed.
End column.

(** ** The struct *)
(** A value of a field: numbers of a width, a float as numerator over ten, pointers. *)
Inductive fval :=
| FvBool (b : bool) | FvInt (w z : Z) | FvUint (w z : Z) | FvFloat (w tenths : Z) | FvBytes (s : string) | FvString (s : string)
| FvPtr (v : fval)
| FvNull (kind : string) (v : fval) (valid : bool)      (** [sql.NullString] and the like *)
| FvJson (j : JsonColumn).
(** The type a value has, as [OrmModel] writes types. *)
Fixpoint type_name (v : fval) : string :=
  match v with
  | FvBool _ => "bool"
  | FvInt w _ => if w =? 0 then "int" else if w =? 8 then "int8" else if w =? 16 then "int16" else if w =? 32 then "int32" else "int64"
  | FvUint w _ => if w =? 0 then "uint" else if w =? 8 then "uint8" else if w =? 16 then "uint16" else if w =? 32 then "uint32" else "uint64"
  | FvFloat w _ => if w =? 32 then "float32" else "float64"
  | FvBytes _ => "[]byte" | FvString _ => "string"
  | FvPtr v => "*" +:+ type_name v
  | FvNull k _ _ => "sql.Null" +:+ k
  | FvJson _ => "JsonColumn"
  end.
(** [int] and [uint] have 64 bits. *)
Definition bits (w : Z) : Z := if w =? 0 then 64 else w.
Fixpoint in_range (v : fval) : bool :=
  match v with
  | FvInt w z => (- 2 ^ (bits w - 1) <=? z) && (z <? 2 ^ (bits w - 1))
  | FvUint w z => (0 <=? z) && (z <? 2 ^ bits w)
  | FvPtr v | FvNull _ v _ => in_range v
  | FvJson j => (0 <=? u_Age (Val j)) && (u_Age (Val j) <? 2 ^ 32)
  | _ => true
  end.
Definition ftype_of (name : string) : ftype :=
  match name with
  | "int" | "int64" => FInt 64 | "int8" => FInt 8 | "int16" => FInt 16 | "int32" => FInt 32
  | "uint" | "uint64" => FUint 64 | "uint8" => FUint 8 | "uint16" => FUint 16 | "uint32" => FUint 32
  | n => FOther n
  end.

Definition simple_fields : list (string * string) :=
  [("Id", "uint64"); ("Bool", "bool"); ("BoolPtr", "*bool"); ("Int", "int"); ("IntPtr", "*int"); ("Int8", "int8"); ("Int8Ptr", "*int8");
   ("Int16", "int16"); ("Int16Ptr", "*int16"); ("Int32", "int32"); ("Int32Ptr", "*int32"); ("Int64", "int64"); ("Int64Ptr", "*int64");
   ("Uint", "uint"); ("UintPtr", "*uint"); ("Uint8", "uint8"); ("Uint8Ptr", "*uint8"); ("Uint16", "uint16"); ("Uint16Ptr", "*uint16");
   ("Uint32", "uint32"); ("Uint32Ptr", "*uint32"); ("Uint64", "uint64"); ("Uint64Ptr", "*uint64"); ("Float32", "float32"); ("Float32Ptr", "*float32");
   ("Float64", "float64"); ("Float64Ptr", "*float64"); ("Byte", "uint8"); ("BytePtr", "*uint8"); ("ByteArray", "[]byte"); ("String", "string");
   ("NullStringPtr", "*sql.NullString"); ("NullInt16Ptr", "*sql.NullInt16"); ("NullInt32Ptr", "*sql.NullInt32"); ("NullInt64Ptr", "*sql.NullInt64");
   ("NullBoolPtr", "*sql.NullBool"); ("NullFloat64Ptr", "*sql.NullFloat64"); ("JsonColumn", "*JsonColumn")].
Definition SimpleStruct (id : nat) : structdef :=
  mkStruct id "SimpleStruct" (map (λ f, mkSF f.1 None (ftype_of f.2) true) simple_fields) None.

Definition NewSimpleStruct (id : Z) : list (string * fval) :=
  [("Id", FvUint 64 id); ("Bool", FvBool true); ("BoolPtr", FvPtr (FvBool false)); ("Int", FvInt 0 12); ("IntPtr", FvPtr (FvInt 0 13));
   ("Int8", FvInt 8 8); ("Int8Ptr", FvPtr (FvInt 8 (-8))); ("Int16", FvInt 16 16); ("Int16Ptr", FvPtr (FvInt 16 (-16)));
   ("Int32", FvInt 32 32); ("Int32Ptr", FvPtr (FvInt 32 (-32))); ("Int64", FvInt 64 64); ("Int64Ptr", FvPtr (FvInt 64 (-64)));
   ("Uint", FvUint 0 14); ("UintPtr", FvPtr (FvUint 0 15)); ("Uint8", FvUint 8 8); ("Uint8Ptr", FvPtr (FvUint 8 18));
   ("Uint16", FvUint 16 16); ("Uint16Ptr", FvPtr (FvUint 16 116)); ("Uint32", FvUint 32 32); ("Uint32Ptr", FvPtr (FvUint 32 132));
   ("Uint64", FvUint 64 64); ("Uint64Ptr", FvPtr (FvUint 64 164)); ("Float32", FvFloat 32 32); ("Float32Ptr", FvPtr (FvFloat 32 (-32)));
   ("Float64", FvFloat 64 64); ("Float64Ptr", FvPtr (FvFloat 64 (-64))); ("Byte", FvUint 8 8); ("BytePtr", FvPtr (FvUint 8 18));
   ("ByteArray", FvBytes "hello"); ("String", FvString "world");
   ("NullStringPtr", FvPtr (FvNull "String" (FvString "null string") true)); ("NullInt16Ptr", FvPtr (FvNull "Int16" (FvInt 16 16) true));
   ("NullInt32Ptr", FvPtr (FvNull "Int32" (FvInt 32 32) true)); ("NullInt64Ptr", FvPtr (FvNull "Int64" (FvInt 64 64) true));
   ("NullBoolPtr", FvPtr (FvNull "Bool" (FvBool true) true)); ("NullFloat64Ptr", FvPtr (FvNull "Float64" (FvFloat 64 64) true));
   ("JsonColumn", FvPtr (FvJson (mkJson (mkUser "Tom" 18) true)))].

(** The literal gives every field of the struct a value of its type and in its range. *)
Lemma NewSimpleStruct_typed id : 0 <= id < 2 ^ 64 →
  map (λ f, (f.1, type_name f.2)) (NewSimpleStruct id) = simple_fields ∧ forallb (λ f, in_range f.2) (NewSimpleStruct id) = true.
Proof.
  intros Hid. split; [reflexivity|]. unfold NewSimpleStruct. cbn [forallb snd in_range]. apply andb_true_intro. split; [|reflexivity].
  change (bits 64) with 64. apply andb_true_intro. split; [apply Z.leb_le|apply Z.ltb_lt]; lia.
Qed.

(** The metadata of the struct: one column per field, in order, all different. *)
Lemma SimpleStruct_columns id : ∃ m, parseModel (PtrStruct (SimpleStruct id)) = inr m ∧ TableName m = "simple_struct" ∧
  map GoName (Fields m) = map fst simple_fields ∧
  map ColName (Fields m) = map (λ f, Camel2Case f.1) simple_fields ∧ NoDup (map ColName (Fields m)) ∧
  DeletedAtField m = None ∧ VersionField m = None.
Proof. eexists. split; [reflexivity|]. split_and!; try reflexivity. apply (bool_decide_unpack _). vm_compute. exact I. Qed.

(** The interface is met: a marshaller that tallies the age. *)
Fixpoint tally (n : nat) (s : string) : string := match n with O => String ":" s | S n => String "|" (tally n s) end.
Fixpoint untally (s : string) : option (nat * string) :=
  match s with
  | String ":" s => Some (0%nat, s)
  | String "|" s => prod_map S id <$> untally s
  | _ => None
  end.
Lemma untally_tally n s : untally (tally n s) = Some (n, s).
Proof. induction n as [|n IH]; cbn; [done|]. by rewrite IH. Qed.
#[export, refine] Instance tally_json : Json := {|
  Marshal u := inr (tally (Z.to_nat (u_Age u)) (u_Name u));
  Unmarshal bs old := match untally bs with Some (n, s) => (mkUser s (Z.of_nat n), None) | None => (old, Some (ErrOther "json")) end;
  utf8 _ := true |}.
Proof.
  intros [n a] _ Ha. cbn in *. eexists. split; [done|]. split; [by destruct (Z.to_nat a)|]. intros old. rewrite untally_tally. f_equal. f_equal. lia.
Defined.

(** A column that held a value and is scanned from malformed text keeps its flag: the
    error is the only sign that the value is not the row's. *)
Example failed_scan_stays_valid :
  Scan (mkJson (mkUser "Tom" 18) true) (SString "?") = (mkJson (mkUser "Tom" 18) true, Err (ErrOther "json")).
Proof. reflexivity. Qed.
