(* ===== verification/OrmBuilder.v ===== *)
(** * The ORM's SQL builder

    Models the expression language and the shared builder: [src/orm/expression.go],
    [predicate.go], [column.go], [aggregate.go], [table.go], [assignment.go],
    [types.go], [builder.go] and the field access of [src/orm/internal/valuer].  The
    builder appends to a text and an argument list and may fail in the middle, so it
    is a state and error monad in which a failure keeps what was written.  A pointer
    to an entity is what it points to, field by field. *)

From S2P Require Import Prelude GoStrings OrmModel.
Local Open Scope Z_scope.

(** ** Values

    What an [any] may hold, with its dynamic type.  The zero time is [VTime 0];
    number 0 of another type is its zero value. *)
Inductive gval :=
| VNil
| VInt (width : Z) (z : Z) | VUint (width : Z) (z : Z)
| VStr (s : string)
| VTime (t : Z) | VPtrTime (p : option Z)
| VOther (ty : string) (v : nat).
#[export] Instance gval_eq_dec : EqDecision gval.
Proof. solve_decision. Defined.

(** A struct value by field position; a pointer to one may be nil. *)
Abbreviation svalue := (list gval).
Abbreviation sptr := (option (list gval)).

(** ** Expressions *)
Record Table := mkTable { t_entity : entity; t_alias : string }.
Record Column := mkCol { c_name : string; c_table : option Table; c_alias : string }.
Record Aggregate := mkAgg { a_fn : string; a_arg : string; a_alias : string }.

Inductive expr :=
| ENil
| EColumn (c : Column)
| EValue (v : gval)
| EAgg (a : Aggregate)
| EPred (left : expr) (op : string) (right : expr)
| ERaw (raw : string) (args : list gval)
| EMath (left : expr) (op : string) (right : expr).

Record Predicate := mkPred { p_left : expr; p_op : string; p_right : expr }.
Definition of_pred (p : Predicate) : expr := EPred (p_left p) (p_op p) (p_right p).

Definition opEQ := "=".
Definition opAnd := "AND".
Definition opOr := "OR".
Definition opNOT := "NOT".
Definition opLT := "<".
Definition opGT := ">".
Definition opAdd := "+".
Definition opSub := "-".
Definition opMulti := "*".
Definition opDiv := "/".

(** An argument is an expression or a plain value. *)
Inductive arg := AExpr (e : expr) | AVal (v : gval).
Definition exprOf (a : arg) : expr := match a with AExpr e => e | AVal v => EValue v end.

Definition Col (name : string) : Column := mkCol name None "".
Definition Column_As (c : Column) (alias : string) : Column := mkCol (c_name c) (c_table c) alias.
Definition Column_EQ (c : Column) (a : arg) : Predicate := mkPred (EColumn c) opEQ (exprOf a).
Definition Column_GT (c : Column) (a : arg) : Predicate := mkPred (EColumn c) opGT (exprOf a).
Definition Column_LT (c : Column) (a : arg) : Predicate := mkPred (EColumn c) opLT (exprOf a).

Definition Avg (a : string) : Aggregate := mkAgg "AVG" a "".
Definition Count (a : string) : Aggregate := mkAgg "COUNT" a "".
Definition Sum (a : string) : Aggregate := mkAgg "SUM" a "".
Definition Max (a : string) : Aggregate := mkAgg "MAX" a "".
Definition Min (a : string) : Aggregate := mkAgg "MIN" a "".
Definition Aggregate_As (a : Aggregate) (alias : string) : Aggregate := mkAgg (a_fn a) (a_arg a) alias.
Definition Aggregate_EQ (g : Aggregate) (a : arg) : Predicate := mkPred (EAgg g) opEQ (exprOf a).
Definition Aggregate_LT (g : Aggregate) (a : arg) : Predicate := mkPred (EAgg g) opLT (exprOf a).
Definition Aggregate_GT (g : Aggregate) (a : arg) : Predicate := mkPred (EAgg g) opGT (exprOf a).

Definition Not (p : Predicate) : Predicate := mkPred ENil opNOT (of_pred p).
Definition And (l r : Predicate) : Predicate := mkPred (of_pred l) opAnd (of_pred r).
Definition Or (l r : Predicate) : Predicate := mkPred (of_pred l) opOr (of_pred r).

Definition Raw (raw : string) (args : list gval) : expr := ERaw raw args.
Definition AsPredicate (raw : string) (args : list gval) : Predicate := mkPred (ERaw raw args) "" ENil.

Definition math (op : string) (m : expr) (a : arg) : expr := EMath m op (exprOf a).
Definition Math_Add := math opAdd.
Definition Math_Sub := math opSub.
Definition Math_Multi := math opMulti.
Definition Math_Div := math opDiv.

(** ** Tables *)
Inductive tableref :=
| TNil
| TTable (t : Table)
| TJoin (left : tableref) (typ : string) (right : tableref) (on : list Predicate) (usg : list string)
| TOther.

Record JoinBuilder := mkJB { jb_left : tableref; jb_typ : string; jb_right : tableref }.
Definition TableOf (e : entity) : Table := mkTable e "".
Definition Table_Col (t : Table) (col : string) : Column := mkCol col (Some t) "".
Definition Table_As (t : Table) (alias : string) : Table := mkTable (t_entity t) alias.
(** On a table and on a join alike. *)
Definition Join (l r : tableref) : JoinBuilder := mkJB l "JOIN" r.
Definition LeftJoin (l r : tableref) : JoinBuilder := mkJB l "LEFT JOIN" r.
Definition RightJoin (l r : tableref) : JoinBuilder := mkJB l "RIGHT JOIN" r.
Definition On (j : JoinBuilder) (ps : list Predicate) : tableref := TJoin (jb_left j) (jb_typ j) (jb_right j) ps [].
Definition Using (j : JoinBuilder) (usg : list string) : tableref := TJoin (jb_left j) (jb_typ j) (jb_right j) [] usg.

(** ** Assignments *)
Inductive assignable :=
| AAssign (column : string) (val : expr)
| ACol (c : Column)
| AOther.                                       (** a pointer to one of the others *)
Definition Assign (column : string) (a : arg) : assignable := AAssign column (exprOf a).

(** ** Field access *)
Inductive Creator := NewUnsafeValue | NewReflectValue.

(** [reflect.Value.FieldByName] on a struct value. *)
Definition FieldByName (s : structdef) (name : string) : option (nat * sfield) :=
  list_find (λ f, f_Name f = name) (s_Fields s).

Definition GetFieldValue (c : Creator) (s : structdef) (meta : Model) (p : sptr) (name : string) : res orm_err gval :=
  match c with
  | NewUnsafeValue =>
      match FieldMap meta !! name with
      | None => Err (ErrUnknownField name)
      | Some i => match p with
                  | None => Err (ErrNilValue name)
                  | Some v => index_or_panic v i
                  end
      end
  | NewReflectValue =>
      match p with
      | None => Panic
      | Some v => match FieldByName s name with
                  | None => Err (ErrUnknownField name)
                  | Some (i, f) => if f_exported f then index_or_panic v i else Panic
                  end
      end
  end.

(** ** The builder *)
Record Query := mkQuery { SQL : string; Args : list gval }.
Record bst := mkB { sqlStrBuilder : string; args : list gval; reg : registry }.
Definition M (A : Type) : Type := bst → bst * res orm_err A.
Definition ret {A} (a : A) : M A := λ b, (b, Ok a).
Definition bind {A B} (m : M A) (k : A → M B) : M B := λ b,
  match m b with
  | (b', Ok a) => k a b'
  | (b', Err e) => (b', Err e)
  | (b', Panic) => (b', Panic)
  end.
Definition lift {A} (r : res orm_err A) : M A := λ b, (b, r).
Definition fail {A} (e : orm_err) : M A := lift (Err e).

Declare Scope orm_scope.
Delimit Scope orm_scope with orm.
Notation "'do' x ← m ; k" := (bind m (fun x => k)) (at level 200, x pattern, m at level 100, k at level 200) : orm_scope.
Notation "m ;; k" := (bind m (fun _ => k)) (at level 100, k at level 200, right associativity) : orm_scope.
Local Open Scope orm_scope.

Definition WriteString (s : string) : M unit := λ b, (mkB (sqlStrBuilder b +:+ s) (args b) (reg b), Ok tt).
Definition add_args (vs : list gval) : M unit := λ b, (mkB (sqlStrBuilder b) (args b ++ vs) (reg b), Ok tt).
(** [i.args = make([]any, 0, _)] *)
Definition reset_args : M unit := λ b, (mkB (sqlStrBuilder b) [] (reg b), Ok tt).
(** [b.r.Get(entity)] *)
Definition rGet (e : entity) : M Model := λ b,
  let '(r, o) := registry_Get (reg b) e in
  (mkB (sqlStrBuilder b) (args b) r, match o with inl err => Err err | inr m => Ok m end).

(** [for idx, x := range l { if idx > 0 { write sep }; f x }] *)
Fixpoint each_from {A} (sep : string) (f : A → M unit) (idx : nat) (l : list A) : M unit :=
  match l with
  | [] => ret tt
  | x :: l' => (if (0 <? idx)%nat then WriteString sep else ret tt) ;; f x ;; each_from sep f (S idx) l'
  end.
Definition each {A} (sep : string) (f : A → M unit) (l : list A) : M unit := each_from sep f 0 l.

Section builder.
Context (quoter : ascii) (model : Model).

Definition quote (name : string) : M unit :=
  WriteString (str1 quoter) ;; WriteString (replace1 quoter (str1 quoter +:+ str1 quoter) name) ;; WriteString (str1 quoter).

Definition buildColumn (col : Column) : M unit :=
  match c_table col with
  | None =>
      match field_of model (c_name col) with
      | None => fail (ErrUnknownField (c_name col))
      | Some field =>
          quote (ColName field) ;;
          if bool_decide (c_alias col = "") then ret tt else WriteString " AS " ;; quote (c_alias col)
      end
  | Some t =>
      do meta ← rGet (t_entity t) ;
      match field_of meta (c_name col) with
      | None => fail (ErrUnknownField (c_name col))
      | Some field =>
          (if bool_decide (t_alias t = "") then quote (TableName meta) else quote (t_alias t)) ;;
          WriteString "." ;; quote (ColName field)
      end
  end.

Definition buildAggregate (a : Aggregate) : M unit :=
  WriteString (a_fn a) ;; WriteString "(" ;; buildColumn (Col (a_arg a)) ;; WriteString ")" ;;
  if bool_decide (a_alias a = "") then ret tt else WriteString " AS " ;; quote (a_alias a).

(** The two callers of [buildBinaryExpr] share the recursive call. *)
Definition sub_expr (rec : expr → M unit) (e : expr) : M unit :=
  match e with
  | EPred _ _ _ => WriteString "(" ;; rec e ;; WriteString ")"
  | _ => rec e
  end.
Fixpoint buildExpression (e : expr) : M unit :=
  match e with
  | ENil => ret tt
  | EColumn c => buildColumn (mkCol (c_name c) (c_table c) "")
  | EValue v => WriteString "?" ;; add_args [v]
  | EAgg a => buildAggregate a
  | EPred l o r =>
      sub_expr buildExpression l ;;
      (if bool_decide (o = "") then ret tt else WriteString (" " +:+ o +:+ " ")) ;;
      match r with ENil => ret tt | _ => sub_expr buildExpression r end
  | ERaw raw vs => WriteString "(" ;; WriteString raw ;; add_args vs ;; WriteString ")"
  | EMath _ _ _ => fail ErrUnsupportedExpr
  end.
Definition buildSubExpr : expr → M unit := sub_expr buildExpression.
Definition buildBinaryExpr (p : Predicate) : M unit := buildExpression (of_pred p).

Definition buildPredicates (ps : list Predicate) : M unit :=
  match ps with
  | [] => lift Panic
  | p :: ps' => buildExpression (of_pred (foldl And p ps'))
  end.

Definition buildAssignment (column : string) (val : expr) : M unit :=
  buildColumn (Col column) ;; WriteString "=" ;; buildExpression val.

Definition buildWhereWithSoftDelete (where_ : list Predicate) : M unit :=
  match field_at model (DeletedAtField model), where_ with
  | None, [] => ret tt
  | None, _ => WriteString " WHERE " ;; buildPredicates where_
  | Some f, [] => WriteString " WHERE " ;; quote (ColName f) ;; WriteString " IS NULL"
  | Some f, _ => WriteString " WHERE " ;; quote (ColName f) ;; WriteString " IS NULL" ;; WriteString " AND " ;; buildPredicates where_
  end.
End builder.
