(* ===== verification/OrmQuery.v ===== *)
(** * The ORM's statements

    Models the statement builders [src/orm/select.go], [insert.go], [updater.go] and
    [delete.go] with [dialect.go]: their setters and [Build].  A statement's type
    parameter is the type of a pointer to it. *)

From S2P Require Import Prelude GoStrings OrmModel OrmBuilder.
Local Open Scope Z_scope.
Local Open Scope orm_scope.

(** The query handed out at the end of every [Build]. *)
Definition finish : M Query := λ b,
  let s := sqlStrBuilder b +:+ ";" in (mkB s (args b) (reg b), Ok (mkQuery s (args b))).

(** ** SELECT *)
Inductive selectable := SCol (c : Column) | SAgg (a : Aggregate) | SRaw (raw : string) (vs : list gval) | SOther.
Record OrderBy := mkOrder { o_col : string; o_order : string }.
Definition Asc (col : string) : OrderBy := mkOrder col "ASC".
Definition Desc (col : string) : OrderBy := mkOrder col "DESC".

Record Selector := mkSel {
  s_table : tableref; s_where : list Predicate; s_columns : list selectable; s_groupBy : list Column;
  s_having : list Predicate; s_orderBy : list OrderBy; s_offset : Z; s_limit : Z }.
Definition NewSelector : Selector := mkSel TNil [] [] [] [] [] 0 0.
Definition From (s : Selector) (t : tableref) : Selector :=
  mkSel t (s_where s) (s_columns s) (s_groupBy s) (s_having s) (s_orderBy s) (s_offset s) (s_limit s).
Definition Selector_Where (s : Selector) (p : list Predicate) : Selector :=
  mkSel (s_table s) p (s_columns s) (s_groupBy s) (s_having s) (s_orderBy s) (s_offset s) (s_limit s).
Definition Select (s : Selector) (cols : list selectable) : Selector :=
  mkSel (s_table s) (s_where s) cols (s_groupBy s) (s_having s) (s_orderBy s) (s_offset s) (s_limit s).
Definition GroupBy (s : Selector) (cols : list Column) : Selector :=
  mkSel (s_table s) (s_where s) (s_columns s) cols (s_having s) (s_orderBy s) (s_offset s) (s_limit s).
Definition Having (s : Selector) (p : list Predicate) : Selector :=
  mkSel (s_table s) (s_where s) (s_columns s) (s_groupBy s) p (s_orderBy s) (s_offset s) (s_limit s).
Definition Selector_OrderBy (s : Selector) (os : list OrderBy) : Selector :=
  mkSel (s_table s) (s_where s) (s_columns s) (s_groupBy s) (s_having s) os (s_offset s) (s_limit s).
Definition Offset (s : Selector) (n : Z) : Selector :=
  mkSel (s_table s) (s_where s) (s_columns s) (s_groupBy s) (s_having s) (s_orderBy s) n (s_limit s).
Definition Limit (s : Selector) (n : Z) : Selector :=
  mkSel (s_table s) (s_where s) (s_columns s) (s_groupBy s) (s_having s) (s_orderBy s) (s_offset s) n.
Definition Paginate (s : Selector) (page size : Z) : Selector :=
  let page := if page <? 1 then 1 else page in
  let size := if size <=? 0 then 10 else size in
  Offset (Limit s size) (i64 (i64 (page - 1) * size)).

Section select.
Context (quoter : ascii) (model : Model).

Definition buildSelectable (s : selectable) : M unit :=
  match s with
  | SCol c => buildColumn quoter model c
  | SAgg a => buildAggregate quoter model a
  | SRaw raw vs => WriteString raw ;; add_args vs
  | SOther => ret tt
  end.
Definition buildColumns (cols : list selectable) : M unit :=
  match cols with [] => WriteString "*" | _ => each "," buildSelectable cols end.

Definition buildOrder (o : OrderBy) : M unit :=
  buildColumn quoter model (Col (o_col o)) ;; WriteString (" " +:+ o_order o).
Definition buildOrderBy (os : list OrderBy) : M unit := each "," buildOrder os.

Fixpoint buildTable (t : tableref) : M unit :=
  match t with
  | TNil => quote quoter (TableName model)
  | TTable t =>
      do meta ← rGet (t_entity t) ;
      quote quoter (TableName meta) ;;
      if bool_decide (t_alias t = "") then ret tt else WriteString " AS " ;; quote quoter (t_alias t)
  | TJoin l typ r on usg =>
      WriteString "(" ;; buildTable l ;; WriteString (" " +:+ typ +:+ " ") ;; buildTable r ;;
      match usg with
      | [] => ret tt
      | _ => WriteString " USING (" ;; each ", " (λ u, buildColumn quoter model (Col u)) usg ;; WriteString ")"
      end ;;
      match on with [] => ret tt | _ => WriteString " ON " ;; buildPredicates quoter model on end ;;
      WriteString ")"
  | TOther => fail ErrUnsupportedTable
  end.

Definition buildLimit (limit offset : Z) : M unit :=
  (if 0 <? limit then WriteString " LIMIT ?" ;; add_args [VInt 64 limit]
   else if 0 <? offset then WriteString " LIMIT 18446744073709551615" else ret tt) ;;
  if 0 <? offset then WriteString " OFFSET ?" ;; add_args [VInt 64 offset] else ret tt.
End select.

Definition Selector_Build (quoter : ascii) (T : entity) (s : Selector) : M Query :=
  do model ← rGet T ;
  WriteString "SELECT " ;; buildColumns quoter model (s_columns s) ;;
  WriteString " FROM " ;; buildTable quoter model (s_table s) ;;
  buildWhereWithSoftDelete quoter model (s_where s) ;;
  match s_groupBy s with [] => ret tt | cs => WriteString " GROUP BY " ;; each "," (buildColumn quoter model) cs end ;;
  match s_having s with [] => ret tt | ps => WriteString " HAVING " ;; buildPredicates quoter model ps end ;;
  match s_orderBy s with [] => ret tt | os => WriteString " ORDER BY " ;; buildOrderBy quoter model os end ;;
  buildLimit (s_limit s) (s_offset s) ;;
  finish.

(** ** Dialects *)
Inductive Dialect := standardSql | mysqlDialect | sqliteDialect.
Definition dialect_quoter (d : Dialect) : ascii :=
  match d with standardSql => ascii_of_nat 34 | mysqlDialect | sqliteDialect => "`" end.

Record Upsert := mkUpsert { conflictColumns : list string; u_assigns : list assignable }.

(** The loop over the assignments; an [Assignment] ends it. *)
Fixpoint buildUpsertAssigns (quoter : ascii) (model : Model) (excluded : string → M unit) (idx : nat) (l : list assignable) : M unit :=
  match l with
  | [] => ret tt
  | a :: l' =>
      (if (0 <? idx)%nat then WriteString "," else ret tt) ;;
      match a with
      | AAssign column val => buildAssignment quoter model column val
      | ACol c => match field_of model (c_name c) with
                  | None => fail (ErrUnknownField (c_name c))
                  | Some field => quote quoter (ColName field) ;; excluded (ColName field) ;;
                                  buildUpsertAssigns quoter model excluded (S idx) l'
                  end
      | AOther => fail ErrUnsupportedAssignable
      end
  end.
Definition buildUpsert (d : Dialect) (quoter : ascii) (model : Model) (u : Upsert) : M unit :=
  match d with
  | standardSql => fail (ErrUnsupportedFeature "upsert")
  | mysqlDialect =>
      WriteString " ON DUPLICATE KEY UPDATE " ;;
      buildUpsertAssigns quoter model (λ col, WriteString "=VALUES(" ;; quote quoter col ;; WriteString ")") 0 (u_assigns u)
  | sqliteDialect =>
      WriteString " ON CONFLICT(" ;;
      each "," (λ c, buildColumn quoter model (Col c)) (conflictColumns u) ;;
      WriteString ") DO UPDATE SET " ;;
      buildUpsertAssigns quoter model (λ col, WriteString "=excluded." ;; quote quoter col) 0 (u_assigns u)
  end.

(** ** INSERT *)

(** The values are pointers into a store; nil pointers are [None]. *)
Abbreviation store := (gmap nat svalue).
Abbreviation ptr := (option nat).
Definition deref (h : store) (p : ptr) : sptr := p ≫= λ a, h !! a.

Record Inserter := mkIns {
  i_values : list ptr; i_columns : list string; i_chunkSize : Z; i_upsert : option Upsert }.
Definition NewInserter : Inserter := mkIns [] [] 0 None.
Definition Values (i : Inserter) (vs : list ptr) : Inserter := mkIns (i_values i ++ vs) (i_columns i) (i_chunkSize i) (i_upsert i).
Definition Columns (i : Inserter) (cs : list string) : Inserter := mkIns (i_values i) (i_columns i ++ cs) (i_chunkSize i) (i_upsert i).
Definition ChunkSize (i : Inserter) (n : Z) : Inserter := mkIns (i_values i) (i_columns i) n (i_upsert i).
(** [i.OnDuplicateKey().ConflictColumns(cols...).Update(assigns...)] *)
Record UpsertBuilder := mkUB { ub_inserter : Inserter; ub_conflictColumns : list string }.
Definition OnDuplicateKey (i : Inserter) : UpsertBuilder := mkUB i [].
Definition ConflictColumns (u : UpsertBuilder) (cols : list string) : UpsertBuilder := mkUB (ub_inserter u) cols.
Definition Upsert_Update (u : UpsertBuilder) (assigns : list assignable) : Inserter :=
  let i := ub_inserter u in mkIns (i_values i) (i_columns i) (i_chunkSize i) (Some (mkUpsert (ub_conflictColumns u) assigns)).

(** The struct type behind a model's entity: models exist only for those. *)
Definition struct_of (T : entity) : structdef :=
  match T with PtrStruct s => s | NotPtrStruct i => mkStruct i "" [] None end.

(** The columns asked for, or all. *)
Fixpoint pick_fields (model : Model) (cols : list string) : res orm_err (list Field) :=
  match cols with
  | [] => Ok []
  | col :: cols' => match field_of model col with
                    | None => Err (ErrUnknownField col)
                    | Some f => res_map (cons f) (pick_fields model cols')
                    end
  end.
Definition insert_fields (model : Model) (cols : list string) : res orm_err (list Field) :=
  match cols with [] => Ok (Fields model) | _ => pick_fields model cols end.

Section insert.
Context (d : Dialect) (cr : Creator) (T : entity) (h : store).
Let quoter := dialect_quoter d.

Definition buildCell (model : Model) (p : ptr) (field : Field) : M unit :=
  WriteString "?" ;;
  do v ← lift (GetFieldValue cr (struct_of T) model (deref h p) (GoName field)) ;
  add_args [v].
Definition buildRow (model : Model) (fields : list Field) (p : ptr) : M unit :=
  WriteString "(" ;; each "," (buildCell model p) fields ;; WriteString ")".

Definition Inserter_Build (i : Inserter) : M Query :=
  match i_values i with
  | [] => fail ErrInsertZeroRow
  | _ =>
      do model ← rGet T ;
      WriteString "INSERT INTO " ;; quote quoter (TableName model) ;; WriteString "(" ;;
      do fields ← lift (insert_fields model (i_columns i)) ;
      each "," (λ f, quote quoter (ColName f)) fields ;; WriteString ")" ;;
      WriteString " VALUES " ;; reset_args ;;
      each "," (buildRow model fields) (i_values i) ;;
      match i_upsert i with None => ret tt | Some u => buildUpsert d quoter model u end ;;
      finish
  end.
End insert.

(** [splitChunk]: the loop over start indices, with fuel for the number of chunks. *)
Fixpoint splitChunk_from {A} (fuel : nat) (values : list A) (size : nat) : list (list A) :=
  match fuel, values with
  | _, [] => []
  | O, _ => []
  | S fuel', _ => take size values :: splitChunk_from fuel' (drop size values) size
  end.
Definition splitChunk {A} (values : list A) (size : Z) : list (list A) :=
  if (size <=? 0) || bool_decide (values = []) then [values]
  else splitChunk_from (length values) values (Z.to_nat size).

(** ** UPDATE *)
Record Updater := mkUpd { u_assigns_ : list assignable; u_val : ptr; u_where : list Predicate }.
Definition NewUpdater : Updater := mkUpd [] None [].
Definition Set_ (u : Updater) (l : list assignable) : Updater := mkUpd l (u_val u) (u_where u).
Definition Update (u : Updater) (p : ptr) : Updater := mkUpd (u_assigns_ u) p (u_where u).
Definition Updater_Where (u : Updater) (p : list Predicate) : Updater := mkUpd (u_assigns_ u) (u_val u) p.

Definition assigns_name (a : assignable) (name : string) : bool :=
  match a with
  | AAssign column _ => bool_decide (column = name)
  | ACol c => bool_decide (c_name c = name)
  | AOther => false
  end.
Definition versionColumnExplicitlySet (model : Model) (assigns : list assignable) : bool :=
  match field_at model (VersionField model) with
  | None => false
  | Some f => existsb (λ a, assigns_name a (GoName f)) assigns
  end.

Definition readVersionFromVal (s : structdef) (p : sptr) (field : Field) : res orm_err gval :=
  match p with
  | None => Panic
  | Some v => match FieldByName s (GoName field) with
              | None => Err (ErrUnknownField (GoName field))
              | Some (i, _) => match v !! i with
                               | Some (VInt _ z) => Ok (VInt 64 z)
                               | Some (VUint _ z) => Ok (VInt 64 (i64 z))
                               | _ => Err (ErrFieldType (GoName field))
                               end
              end
  end.

Section update.
Context (d : Dialect) (cr : Creator) (T : entity) (h : store).
Let quoter := dialect_quoter d.

Definition buildSet (model : Model) (p : ptr) (a : assignable) : M unit :=
  match a with
  | AAssign column val => buildAssignment quoter model column val
  | ACol c =>
      do v ← lift (GetFieldValue cr (struct_of T) model (deref h p) (c_name c)) ;
      buildColumn quoter model (Col (c_name c)) ;; WriteString "=?" ;; add_args [v]
  | AOther => ret tt
  end.

Definition bump (f : Field) : M unit :=
  quote quoter (ColName f) ;; WriteString "=" ;; quote quoter (ColName f) ;; WriteString "+1".

(** The loop over all fields; [first] is threaded through. *)
Fixpoint buildAllFields (model : Model) (p : ptr) (first : bool) (fs : list Field) : M bool :=
  match fs with
  | [] => ret first
  | field :: fs' =>
      if match field_at model (VersionField model) with Some vf => bool_decide (GoName field = GoName vf) | None => false end
      then buildAllFields model p first fs'
      else
        (if first then ret tt else WriteString ",") ;;
        buildColumn quoter model (Col (GoName field)) ;; WriteString "=?" ;;
        do v ← lift (GetFieldValue cr (struct_of T) model (deref h p) (GoName field)) ;
        add_args [v] ;; buildAllFields model p false fs'
  end.

Definition buildSets (model : Model) (u : Updater) : M unit :=
  match u_assigns_ u with
  | [] =>
      match u_val u with
      | None => fail ErrNoCondition
      | Some _ =>
          WriteString " SET " ;;
          do first ← buildAllFields model (u_val u) true (Fields model) ;
          match field_at model (VersionField model) with
          | None => ret tt
          | Some vf => (if first then ret tt else WriteString ",") ;; bump vf
          end
      end
  | assigns =>
      WriteString " SET " ;; each "," (buildSet model (u_val u)) assigns ;;
      match field_at model (VersionField model), u_val u with
      | Some vf, Some _ => if versionColumnExplicitlySet model assigns then ret tt else WriteString "," ;; bump vf
      | _, _ => ret tt
      end
  end.

Definition buildVersionGuard (model : Model) (u : Updater) : M unit :=
  match field_at model (VersionField model), u_val u with
  | Some vf, Some _ =>
      WriteString (if bool_decide (is_Some (field_at model (DeletedAtField model))) || bool_decide (u_where u ≠ []) then " AND " else " WHERE ") ;;
      quote quoter (ColName vf) ;; WriteString "=?" ;;
      do v ← lift (readVersionFromVal (struct_of T) (deref h (u_val u)) vf) ;
      add_args [v]
  | _, _ => ret tt
  end.

Definition Updater_Build (u : Updater) : M Query :=
  do model ← rGet T ;
  WriteString "UPDATE " ;; quote quoter (TableName model) ;;
  buildSets model u ;;
  buildWhereWithSoftDelete quoter model (u_where u) ;;
  buildVersionGuard model u ;;
  finish.
End update.

(** ** DELETE *)
Record Deleter := mkDel { d_tableName : string; d_where : list Predicate }.
Definition NewDeleter : Deleter := mkDel "" [].
Definition Deleter_From (d : Deleter) (t : string) : Deleter := mkDel t (d_where d).
Definition Deleter_Where (d : Deleter) (p : list Predicate) : Deleter := mkDel (d_tableName d) p.

Section delete.
Context (quoter : ascii) (now : Z).

Definition buildTarget (model : Model) (d : Deleter) : M unit :=
  if bool_decide (d_tableName d = "") then quote quoter (TableName model) else WriteString (d_tableName d).
Definition buildSoftDelete (model : Model) (f : Field) (d : Deleter) : M Query :=
  WriteString "UPDATE " ;; buildTarget model d ;; WriteString " SET " ;; quote quoter (ColName f) ;; WriteString "=?" ;;
  add_args [VTime now] ;;
  buildWhereWithSoftDelete quoter model (d_where d) ;;
  finish.
Definition Deleter_Build (T : entity) (d : Deleter) : M Query :=
  do model ← rGet T ;
  match field_at model (DeletedAtField model) with
  | Some f => buildSoftDelete model f d
  | None =>
      WriteString "DELETE FROM " ;; buildTarget model d ;;
      match d_where d with [] => ret tt | ps => WriteString " WHERE " ;; buildPredicates quoter model ps end ;;
      finish
  end.
End delete.

Definition fresh : bst := mkB "" [] NewRegistry.

(** ** The interface [QueryBuilder] *)
Inductive QueryBuilder :=
| QSelect (s : Selector) | QInsert (i : Inserter) | QUpdate (u : Updater) | QDelete (d : Deleter)
| QChunk (q : Query).                           (** [chunkQueryBuilder] *)
Definition Build (d : Dialect) (cr : Creator) (T : entity) (h : store) (now : Z) (qb : QueryBuilder) : M Query :=
  match qb with
  | QSelect s => Selector_Build (dialect_quoter d) T s
  | QInsert i => Inserter_Build d cr T h i
  | QUpdate u => Updater_Build d cr T h u
  | QDelete x => Deleter_Build (dialect_quoter d) now T x
  | QChunk q => ret q
  end.
