(* ===== verification/OrmQueryFacts.v ===== *)
(** * Correctness of the ORM's statements *)

From S2P Require Import Prelude GoStrings OrmModel OrmModelFacts OrmBuilder OrmQuery.
Local Open Scope Z_scope.
Local Open Scope orm_scope.

(** ** Samples: the statements of the package's tests *)
Definition wT : entity := PtrStruct (mkStruct 3 "TestModel"
  [mkSF "Id" None (FInt 64) true; mkSF "FirstName" None (FOther "string") true;
   mkSF "Age" None (FInt 8) true; mkSF "LastName" None (FOther "*sql.NullString") true] None).
Definition run (m : M Query) : res orm_err Query := (m fresh).2.
Example select_sample :
  run (Selector_Build "`" wT (Selector_Where NewSelector [Not (Column_EQ (Col "Age") (AVal (VInt 64 18)))]))
  = Ok (mkQuery "SELECT * FROM `test_model` WHERE  NOT (`age` = ?);" [VInt 64 18]).
Proof. reflexivity. Qed.
Example select_join_sample :
  let t1 := Table_As (TableOf wT) "t1" in let t2 := TableOf (PtrStruct wUser) in
  run (Selector_Build "`" wT (Paginate (From NewSelector
    (On (Join (TTable t1) (TTable t2)) [Column_EQ (Table_Col t1 "Id") (AExpr (EColumn (Table_Col t2 "Id")))])) 3 20))
  = Ok (mkQuery "SELECT * FROM (`test_model` AS `t1` JOIN `test_user` ON `t1`.`id` = `test_user`.`id`) LIMIT ? OFFSET ?;"
      [VInt 64 20; VInt 64 40]).
Proof. reflexivity. Qed.
Definition wStore : store := {[ 1%nat := [VInt 64 12; VStr "Tom"; VInt 8 18; VNil] ]}.
Example insert_sample :
  run (Inserter_Build mysqlDialect NewUnsafeValue wT wStore
    (Upsert_Update (OnDuplicateKey (Columns (Values NewInserter [Some 1%nat]) ["FirstName"; "Age"])) [ACol (Col "Age")]))
  = Ok (mkQuery "INSERT INTO `test_model`(`first_name`,`age`) VALUES (?,?) ON DUPLICATE KEY UPDATE `age`=VALUES(`age`);"
      [VStr "Tom"; VInt 8 18]).
Proof. reflexivity. Qed.

(** ** Reading a statement: quoted names and placeholders

    One pass over the text: inside or outside a quoted name, and the placeholders
    outside.  A doubled quote leaves a quoted name and enters it again. *)
Fixpoint scan (q : ascii) (inq : bool) (s : string) : bool * nat :=
  match s with
  | EmptyString => (inq, 0%nat)
  | String c s' =>
      if bool_decide (c = q) then scan q (negb inq) s'
      else let '(e, n) := scan q inq s' in
           (e, if negb inq && bool_decide (c = "?"%char) then S n else n)
  end.
(** A complete piece of SQL with [n] placeholders. *)
Definition frag (q : ascii) (s : string) (n : nat) : Prop := scan q false s = (false, n).

Lemma scan_app q s t : ∀ b,
  scan q b (s +:+ t) = let '(b1, n1) := scan q b s in let '(b2, n2) := scan q b1 t in (b2, n1 + n2)%nat.
Proof.
  induction s as [|c s IH]; intros b; [rewrite app_nil_l; cbn [scan]; by destruct (scan q b t)|]. rewrite app_cons. cbn [scan].
  destruct (bool_decide (c = q)); rewrite IH; [by destruct (scan q (negb b) s)|].
  destruct (scan q b s) as [b1 n1]. destruct (scan q b1 t) as [b2 n2]. by destruct (_ && _).
Qed.
Lemma frag_app q s t n m : frag q s n → frag q t m → frag q (s +:+ t) (n + m).
Proof. unfold frag. intros H1 H2. by rewrite scan_app, H1, H2. Qed.
Lemma frag_nil q : frag q "" 0.
Proof. done. Qed.

(** Escaping keeps the reader inside the name. *)
Definition quoted (q : ascii) (name : string) : string :=
  str1 q +:+ replace1 q (str1 q +:+ str1 q) name +:+ str1 q.
Lemma scan_escaped q name t : scan q true (replace1 q (str1 q +:+ str1 q) name +:+ t) = scan q true t.
Proof.
  induction name as [|c name IH]; [done|]. cbn [replace1]. rewrite str_app_assoc. case_bool_decide as Hc.
  - subst c. change ((str1 q +:+ str1 q) +:+ ?x) with (String q (String q x)). cbn [scan].
    rewrite bool_decide_true by done. cbn [negb]. apply IH.
  - change (str1 c +:+ ?x) with (String c x). cbn [scan]. rewrite bool_decide_false by done. rewrite IH. by destruct (scan q true t).
Qed.
Lemma frag_quoted q name : frag q (quoted q name) 0.
Proof.
  unfold frag, quoted. change (str1 q +:+ ?x) with (String q x). cbn [scan]. rewrite bool_decide_true by done. cbn [negb].
  rewrite scan_escaped. cbn. by rewrite bool_decide_true.
Qed.

(** Undoing the quoting. *)
Fixpoint unescape (q : ascii) (s : string) : string :=
  match s with
  | EmptyString => EmptyString
  | String c s' =>
      match s' with
      | EmptyString => if bool_decide (c = q) then EmptyString else String c EmptyString
      | String d s'' => if bool_decide (c = q) && bool_decide (d = q) then String q (unescape q s'') else String c (unescape q s')
      end
  end.
Definition unquote (q : ascii) (s : string) : option string :=
  match s with String c s' => if bool_decide (c = q) then Some (unescape q s') else None | EmptyString => None end.
Lemma unescape_escaped q name : unescape q (replace1 q (str1 q +:+ str1 q) name +:+ str1 q) = name.
Proof.
  induction name as [|c name IH]; [cbn [replace1]; rewrite app_nil_l; cbn [str1 unescape]; by rewrite bool_decide_true|]. cbn [replace1]. rewrite str_app_assoc. case_bool_decide as Hc.
  - subst c. change ((str1 q +:+ str1 q) +:+ ?x) with (String q (String q x)). cbn [unescape].
    rewrite !bool_decide_true by done. cbn [andb]. by rewrite IH.
  - change (str1 c +:+ ?x) with (String c x). cbn [unescape]. rewrite IH. rewrite (bool_decide_false (c = q)) by done. cbn [andb].
    destruct (replace1 q _ name +:+ str1 q) as [|d s] eqn:E; [by destruct (replace1 q _ name)|]. done.
Qed.
Lemma unquote_quoted q name : unquote q (quoted q name) = Some name.
Proof.
  unfold unquote, quoted. change (str1 q +:+ ?x) with (String q x). cbn. rewrite bool_decide_true by done. f_equal. apply unescape_escaped.
Qed.

(** ** A logic for the builder

    [emits q m z Q]: [m] does not panic; when it succeeds it has appended a complete
    piece of SQL and some arguments, with [z] placeholders more than arguments, and
    its result satisfies [Q]; a quiet one adds no arguments.  The cache stays
    transparent. *)
Definition emits (q : ascii) (quiet : bool) {A} (m : M A) (z : Z) (Q : A → Prop) : Prop := ∀ b, reg_ok (reg b) →
  match m b with
  | (b', Ok a) => reg_ok (reg b') ∧ Q a ∧ ∃ s n vs,
      sqlStrBuilder b' = sqlStrBuilder b +:+ s ∧ args b' = args b ++ vs ∧ frag q s n ∧ Z.of_nat n = Z.of_nat (length vs) + z ∧
      (quiet = true → vs = [])
  | (b', Err _) => reg_ok (reg b')
  | (_, Panic) => False
  end.
Abbreviation emit0 q m := (emits q false m 0 (λ _, True)).
Abbreviation hush0 q t m := (emits q t m 0 (λ _, True)).

Section logic.
Context (q : ascii) (t : bool).

Lemma emits_bind {A B} (m : M A) (k : A → M B) z1 z2 z Q R :
  emits q t m z1 Q → (∀ a, Q a → emits q t (k a) z2 R) → z = z1 + z2 → emits q t (bind m k) z R.
Proof.
  intros Hm Hk -> b Hb. specialize (Hm b Hb). unfold bind. destruct (m b) as [b1 [a| |]]; [|done|done].
  destruct Hm as (Hr & Ha & s1 & n1 & v1 & Hs1 & Hv1 & Hf1 & Hz1 & Hq1). specialize (Hk a Ha b1 Hr).
  destruct (k a b1) as [b2 [x| |]]; [|done|done]. destruct Hk as (Hr2 & Hx & s2 & n2 & v2 & Hs2 & Hv2 & Hf2 & Hz2 & Hq2).
  split_and!; [done|done|]. exists (s1 +:+ s2), (n1 + n2)%nat, (v1 ++ v2).
  rewrite Hs2, Hs1, Hv2, Hv1, str_app_assoc, app_assoc, length_app. split_and!; [done|done|by apply frag_app|lia|].
  intros Ht. by rewrite Hq1, Hq2.
Qed.
Lemma emits_seq {A B} (m : M A) (k : M B) z Q R : emits q t m 0 Q → emits q t k z R → emits q t (m ;; k) z R.
Proof. intros Hm Hk. by eapply emits_bind; [exact Hm|intros; exact Hk|lia]. Qed.
Lemma emits_ret {A} (a : A) (Q : A → Prop) : Q a → emits q t (ret a) 0 Q.
Proof. intros Ha b Hb. cbn. split_and!; [done|done|]. exists "", 0%nat, []. by rewrite app_empty_r, app_nil_r. Qed.
Lemma emits_fail {A} e z (Q : A → Prop) : emits q t (fail e) z Q.
Proof. intros b Hb. done. Qed.
Lemma emits_lift {A} (r : res orm_err A) (Q : A → Prop) : (r ≠ Panic) → (∀ a, r = Ok a → Q a) → emits q t (lift r) 0 Q.
Proof. intros Hp HQ b Hb. destruct r as [a|e|]; [|done|done]. apply (emits_ret a Q); auto. Qed.
Lemma emits_write s n : frag q s n → emits q t (WriteString s) (Z.of_nat n) (λ _, True).
Proof. intros Hf b Hb. cbn. split_and!; [done|done|]. exists s, n, []. rewrite app_nil_r. by split_and!. Qed.
Lemma emits_write0 s : frag q s 0 → hush0 q t (WriteString s).
Proof. apply emits_write. Qed.
Lemma emits_quote name : hush0 q t (quote q name).
Proof.
  intros b Hb. pose proof (emits_write0 _ (frag_quoted q name) b Hb) as H. cbn in H |- *. unfold quoted in H.
  by rewrite !str_app_assoc.
Qed.
Lemma emits_rGet e (k : Model → M unit) : (∀ m, parseModel e = inr m → hush0 q t (k m)) → hush0 q t (bind (rGet e) k).
Proof.
  intros Hk. eapply (emits_bind _ _ 0 0 0 (λ m, parseModel e = inr m)); [|done|done]. intros b Hb. unfold rGet.
  pose proof (registry_Get_spec (reg b) e Hb) as [H1 H2]. destruct (registry_Get (reg b) e) as [r o]. cbn in H1, H2. subst o.
  destruct (parseModel e) as [err|m]; [done|]. cbn. split_and!; [done|done|]. exists "", 0%nat, []. by rewrite app_empty_r, app_nil_r.
Qed.
Lemma emits_each_from {A} sep (f : A → M unit) (l : list A) : frag q sep 0 → (∀ x, x ∈ l → hush0 q t (f x)) →
  ∀ idx, hush0 q t (each_from sep f idx l).
Proof.
  intros Hs. induction l as [|x l IH]; intros Hf idx; [by apply emits_ret|]. cbn [each_from].
  eapply emits_seq; [destruct (0 <? idx)%nat; [by apply emits_write0|by apply (emits_ret tt (λ _, True))]|].
  eapply emits_seq; [apply Hf; left|]. apply IH. intros y Hy. apply Hf. by right.
Qed.
Lemma emits_each {A} sep (f : A → M unit) (l : list A) : frag q sep 0 → (∀ x, x ∈ l → hush0 q t (f x)) → hush0 q t (each sep f l).
Proof. intros Hs Hf. by apply emits_each_from. Qed.
Lemma emits_if {A} (c : bool) (m1 m2 : M A) z Q : emits q t m1 z Q → emits q t m2 z Q → emits q t (if c then m1 else m2) z Q.
Proof. by destruct c. Qed.
End logic.

Lemma emits_args q vs : emits q false (add_args vs) (- Z.of_nat (length vs)) (λ _, True).
Proof. intros b Hb. cbn. split_and!; [done|done|]. exists "", 0%nat, vs. rewrite app_empty_r. split_and!; [done|done|done|lia|done]. Qed.
Lemma emits_filled q s vs : frag q s (length vs) → emit0 q (WriteString s ;; add_args vs).
Proof. intros Hf. eapply emits_bind; [by apply emits_write|intros; apply emits_args|lia]. Qed.

Ltac emit_step :=
  lazymatch goal with
  | |- emits _ _ (bind (rGet _) _) _ _ => apply emits_rGet; intros ? ?
  | |- emits _ _ (bind _ _) _ _ => eapply emits_seq
  | |- emits _ _ (ret _) _ _ => apply (emits_ret _ _ _ (λ _, True)); done
  | |- emits _ _ (fail _) _ _ => apply emits_fail
  | |- emits _ _ (quote _ _) _ _ => apply emits_quote
  | |- emits _ _ (WriteString _) _ _ => apply emits_write0
  | |- emits _ _ (if _ then _ else _) _ _ => apply emits_if
  end.

(** ** Statements with sound raw fragments

    Raw SQL given by the caller must be complete and have as many placeholders as
    arguments; operators, aggregate functions, join types and orders must be plain,
    as all that the package makes are. *)
Section wf.
Context (q : ascii).

Fixpoint wf_expr (e : expr) : Prop :=
  match e with
  | ENil | EColumn _ | EValue _ | EMath _ _ _ => True
  | EAgg a => frag q (a_fn a) 0
  | EPred l o r => wf_expr l ∧ frag q o 0 ∧ wf_expr r
  | ERaw raw vs => frag q raw (length vs)
  end.
Definition wf_pred (p : Predicate) : Prop := wf_expr (of_pred p).
Fixpoint wf_table (t : tableref) : Prop :=
  match t with
  | TJoin l typ r on _ => wf_table l ∧ frag q typ 0 ∧ wf_table r ∧ Forall wf_pred on
  | _ => True
  end.
Definition wf_selectable (s : selectable) : Prop :=
  match s with SAgg a => frag q (a_fn a) 0 | SRaw raw vs => frag q raw (length vs) | _ => True end.
Definition wf_assign (a : assignable) : Prop := match a with AAssign _ e => wf_expr e | _ => True end.
Record wf_selector (s : Selector) : Prop := {
  ws_table : wf_table (s_table s); ws_where : Forall wf_pred (s_where s); ws_columns : Forall wf_selectable (s_columns s);
  ws_having : Forall wf_pred (s_having s); ws_orderBy : Forall (λ o, frag q (o_order o) 0) (s_orderBy s) }.
Definition wf_upsert (u : option Upsert) : Prop := match u with None => True | Some u => Forall wf_assign (u_assigns u) end.
End wf.

Section builders.
Context (d : Dialect).
Let q := dialect_quoter d.

(** Texts without quotes and question marks. *)
Lemma frag_const s : (∀ d, scan (dialect_quoter d) false s = (false, 0%nat)) → frag q s 0.
Proof. intros H. apply H. Qed.
Ltac const := apply frag_const; by intros [].
Lemma frag_mark : frag q "?" 1.
Proof. by destruct d. Qed.

Lemma emits_column model c : emit0 q (buildColumn q model c).
Proof.
  unfold buildColumn. destruct (c_table c) as [t|].
  - apply emits_rGet. intros meta _. destruct (field_of _ _); [|apply emits_fail].
    repeat emit_step; const.
  - destruct (field_of _ _); [|apply emits_fail]. repeat emit_step; const.
Qed.
Lemma emits_aggregate model a : frag q (a_fn a) 0 → emit0 q (buildAggregate q model a).
Proof.
  intros Ha. unfold buildAggregate. emit_step; [by apply emits_write0|]. repeat emit_step; try const.
  apply emits_column.
Qed.

Lemma emits_expression model e : wf_expr q e → emit0 q (buildExpression q model e).
Proof.
  assert (∀ e, emit0 q (buildExpression q model e) → emit0 q (sub_expr (buildExpression q model) e)) as Hsub.
  { intros [] H; try exact H. unfold sub_expr. repeat (first [exact H|emit_step]); const. }
  induction e as [|c|v|a|l IHl o r IHr|raw vs|]; cbn [wf_expr buildExpression].
  - intros _. repeat emit_step.
  - intros _. apply emits_column.
  - intros _. apply (emits_filled q _ [v]), frag_mark.
  - apply emits_aggregate.
  - intros (Hl & Ho & Hr). emit_step; [by apply Hsub, IHl|]. emit_step.
    + repeat emit_step. apply (frag_app q " " _ 0 0); [const|]. apply (frag_app q o _ 0 0); [done|const].
    + destruct r; [by repeat emit_step|..]; by apply Hsub, IHr.
  - intros Hf. emit_step; [repeat emit_step; const|]. eapply (emits_bind _ _ _ _ _ (- Z.of_nat (length vs)));
      [by apply emits_write| |lia]. intros _ _. eapply emits_bind; [apply emits_args| |symmetry; apply Z.add_0_r].
    intros _ _. repeat emit_step. const.
  - intros _. apply emits_fail.
Qed.

Lemma emits_predicates model ps : ps ≠ [] → Forall (wf_pred q) ps → emit0 q (buildPredicates q model ps).
Proof.
  destruct ps as [|p ps]; [done|]. intros _ [Hp Hps]%Forall_cons. cbn [buildPredicates]. apply emits_expression.
  change (wf_pred q (foldl And p ps)). revert p Hp. induction ps as [|p' ps IH]; intros p Hp; [done|].
  apply Forall_cons in Hps as [Hp' Hps]. cbn [foldl]. apply (IH Hps). repeat split; [apply Hp..| |apply Hp'|apply Hp'|apply Hp']. by destruct d.
Qed.
Lemma emits_assignment model c e : wf_expr q e → emit0 q (buildAssignment q model c e).
Proof. intros He. unfold buildAssignment. repeat (first [apply emits_column|by apply emits_expression|emit_step]); const. Qed.
Lemma emits_where model ps : Forall (wf_pred q) ps → emit0 q (buildWhereWithSoftDelete q model ps).
Proof.
  intros Hps. unfold buildWhereWithSoftDelete. destruct (field_at _ _), ps; repeat (first [by apply emits_predicates|emit_step]); const.
Qed.

Lemma emits_selectable model s : wf_selectable q s → emit0 q (buildSelectable q model s).
Proof. destruct s; cbn; [intros _; apply emits_column|apply emits_aggregate|apply emits_filled|intros _; repeat emit_step]. Qed.
Lemma emits_columns model cols : Forall (wf_selectable q) cols → emit0 q (buildColumns q model cols).
Proof.
  intros H. unfold buildColumns. destruct cols; [repeat emit_step; const|]. apply emits_each; [const|].
  intros x Hx. apply emits_selectable. by eapply Forall_forall in H.
Qed.
Lemma emits_orderBy model os : Forall (λ o, frag q (o_order o) 0) os → emit0 q (buildOrderBy q model os).
Proof.
  intros H. apply emits_each; [const|]. intros o Ho. unfold buildOrder. emit_step; [apply emits_column|]. emit_step.
  apply (frag_app q " " _ 0 0); [const|]. by eapply Forall_forall in H.
Qed.
Lemma emits_table model t : wf_table q t → emit0 q (buildTable q model t).
Proof.
  induction t as [|t|l IHl typ r IHr on usg|]; cbn [wf_table buildTable].
  - intros _. repeat emit_step.
  - intros _. repeat emit_step. const.
  - intros (Hl & Ht & Hr & Hon). emit_step; [repeat emit_step; const|]. emit_step; [by apply IHl|]. emit_step.
    { emit_step. apply (frag_app q " " _ 0 0); [const|]. apply (frag_app q typ _ 0 0); [done|const]. }
    emit_step; [by apply IHr|]. emit_step; [|emit_step].
    + destruct usg; [repeat emit_step|]. emit_step; [repeat emit_step; const|]. emit_step; [|repeat emit_step; const].
      apply emits_each; [const|]. intros. apply emits_column.
    + destruct on; [repeat emit_step|]. repeat (first [by apply emits_predicates|emit_step]); const.
    + repeat emit_step; const.
  - intros _. repeat emit_step.
Qed.
Lemma emits_limit limit offset : emit0 q (buildLimit limit offset).
Proof.
  unfold buildLimit. emit_step; repeat (apply emits_if);
    first [apply (emits_filled q _ [_]); by destruct d|repeat emit_step; const|by repeat emit_step].
Qed.
End builders.

(** ** Reading fields *)
Record typed (s : structdef) (h : store) : Prop := {
  ty_names : NoDup (map f_Name (s_Fields s));
  ty_store : ∀ a v, h !! a = Some v → length v = length (s_Fields s) }.
(** What the reflective access needs of a pointer. *)
Definition readable (cr : Creator) (s : structdef) (h : store) (p : ptr) : Prop :=
  match cr with
  | NewUnsafeValue => True
  | NewReflectValue => is_Some (deref h p) ∧ Forall (λ f, f_exported f = true) (s_Fields s)
  end.

Lemma FieldByName_index s m i f : NoDup (map f_Name (s_Fields s)) → map GoName (Fields m) = map f_Name (s_Fields s) →
  Fields m !! i = Some f → ∃ sf, s_Fields s !! i = Some sf ∧ FieldByName s (GoName f) = Some (i, sf).
Proof.
  intros Hnd E Hf. assert (map f_Name (s_Fields s) !! i = Some (GoName f)) as Hn by (rewrite <- E, lookup_map_eq, Hf; done).
  rewrite lookup_map_eq in Hn. apply fmap_Some in Hn as (sf & Hsf & En). exists sf. split; [done|].
  unfold FieldByName. apply list_find_Some. split_and!; [done|done|]. intros j y Hy Hj Ey.
  assert (j = i); [|lia]. apply (NoDup_lookup _ j i (GoName f) Hnd); rewrite lookup_map_eq; [rewrite Hy|rewrite Hsf]; cbn; congruence.
Qed.
Lemma FieldByName_none s m name : model_ok m → map GoName (Fields m) = map f_Name (s_Fields s) →
  FieldMap m !! name = None → FieldByName s name = None.
Proof.
  intros Hm E Hn. unfold FieldByName. apply list_find_None, Forall_forall. intros sf Hin En.
  assert (name ∈ map GoName (Fields m)) as H by (rewrite E; apply list_elem_of_In, in_map_iff; exists sf; split; [done|by apply list_elem_of_In]).
  apply list_elem_of_In, in_map_iff in H as (f & Ef & [i Hi]%list_elem_of_In%list_elem_of_lookup).
  pose proof (mo_field m Hm i f Hi). congruence.
Qed.

(** The field of a well-typed value. *)
Lemma field_value s h m a v i f : typed s h → parseModel (PtrStruct s) = inr m → h !! a = Some v → Fields m !! i = Some f →
  ∃ x, v !! i = Some x.
Proof.
  intros [Hnd Hl] Hp Hv Hf. destruct (parseModel_ok s m Hnd Hp) as [_ E]. apply lookup_lt_is_Some. rewrite (Hl a v Hv).
  rewrite <- (length_map f_Name), <- E, length_map. by eapply lookup_lt_Some.
Qed.

(** The two ways to read an entity agree: on a live pointer to a value of a struct
    with exported fields, the unsafe access by offset and the access by reflection
    give the same answer for every name, which is the field's value when the struct
    has the field and the unknown-field error otherwise. *)
Theorem valuers_agree s h m a name : typed s h → parseModel (PtrStruct s) = inr m → is_Some (h !! a) →
  Forall (λ f, f_exported f = true) (s_Fields s) →
  GetFieldValue NewUnsafeValue s m (deref h (Some a)) name = GetFieldValue NewReflectValue s m (deref h (Some a)) name ∧
  (∀ i f, s_Fields s !! i = Some f → ∃ x, (h !! a ≫= λ v, v !! i) = Some x ∧
     GetFieldValue NewUnsafeValue s m (deref h (Some a)) (f_Name f) = Ok x) ∧
  (name ∉ map f_Name (s_Fields s) → GetFieldValue NewUnsafeValue s m (deref h (Some a)) name = Err (ErrUnknownField name)).
Proof.
  intros Hty Hp [v Hv] Hex. destruct (parseModel_ok s m (ty_names _ _ Hty) Hp) as [Hm E]. unfold deref. cbn [mbind option_bind].
  rewrite Hv. unfold GetFieldValue. split_and!.
  - destruct (FieldMap m !! name) as [i|] eqn:Hi.
    + destruct (mo_field' m Hm _ _ Hi) as (f & Hf & <-).
      destruct (FieldByName_index s m i f (ty_names _ _ Hty) E Hf) as (sf & Hsf & ->). rewrite Forall_lookup in Hex. by rewrite (Hex _ _ Hsf).
    + by rewrite (FieldByName_none s m name Hm E Hi).
  - intros i f Hf. assert (map GoName (Fields m) !! i = Some (f_Name f)) as Hg by (rewrite E, lookup_map_eq, Hf; done).
    rewrite lookup_map_eq in Hg. apply fmap_Some in Hg as (g & Hg & ->). rewrite (mo_field m Hm i g Hg).
    destruct (field_value s h m a v i g Hty Hp Hv Hg) as [x Hx]. exists x. unfold index_or_panic. cbn. by rewrite Hx.
  - intros Hn. destruct (FieldMap m !! name) as [i|] eqn:Hi; [|done]. destruct (mo_field' m Hm _ _ Hi) as (f & Hf & Ef).
    destruct Hn. rewrite <- E, <- Ef. apply list_elem_of_In, in_map, list_elem_of_In. by eapply list_elem_of_lookup_2.
Qed.
Definition wModel : structdef := struct_of wT.
Lemma wTyped : typed wModel wStore.
Proof.
  split; [apply (bool_decide_unpack _); by vm_compute|]. intros a v. unfold wStore.
  intros [<- <-]%lookup_singleton_Some. done.
Qed.
Lemma valuers_agree_witness : ∃ m, parseModel wT = inr m ∧
  GetFieldValue NewUnsafeValue wModel m (deref wStore (Some 1%nat)) "Age" = GetFieldValue NewReflectValue wModel m (deref wStore (Some 1%nat)) "Age".
Proof.
  destruct (parseModel wT) as [e|m] eqn:E; [vm_compute in E; discriminate|]. exists m. split; [done|].
  apply (valuers_agree wModel wStore m 1 "Age" wTyped E); [by eexists|repeat constructor].
Defined.

(** ** Statements *)
Lemma reset_fresh (b : bst) : args b = [] → reset_args b = (b, Ok tt).
Proof. destruct b as [s a r]. cbn. by intros ->. Qed.

(** [m], run on a fresh builder, yields a statement as many placeholders as
    arguments, with every quoted name closed. *)
Definition builds (q : ascii) (m : M Query) : Prop := ∀ b, reg_ok (reg b) → frag q (sqlStrBuilder b) (length (args b)) →
  match m b with
  | (b', Ok qr) => reg_ok (reg b') ∧ sqlStrBuilder b' = SQL qr ∧ args b' = Args qr ∧ frag q (SQL qr) (length (Args qr))
  | (b', Err _) => reg_ok (reg b')
  | (_, Panic) => False
  end.
Lemma builds_seq {A} q (m : M A) Q k : emits q false m 0 Q → (∀ a, Q a → builds q (k a)) → builds q (bind m k).
Proof.
  intros Hm Hk b Hb Hf. specialize (Hm b Hb). unfold bind. destruct (m b) as [b1 [a| |]]; [|done|done].
  destruct Hm as (Hr & Ha & s & n & vs & Hs & Hv & Hn & Hz & _). apply (Hk a Ha b1 Hr). rewrite Hs, Hv, length_app.
  replace n with (length vs) in Hn by lia. by apply frag_app.
Qed.
Lemma builds_rGet q e k : (∀ m, parseModel e = inr m → builds q (k m)) → builds q (bind (rGet e) k).
Proof.
  intros Hk b Hb Hf. unfold bind, rGet. pose proof (registry_Get_spec (reg b) e Hb) as [H1 H2].
  destruct (registry_Get (reg b) e) as [r o]. cbn in H1, H2. subst o. destruct (parseModel e) as [err|m]; [done|]. by apply Hk.
Qed.
Lemma builds_finish d : builds (dialect_quoter d) finish.
Proof.
  intros b Hb Hf. cbn. split_and!; [done|done|done|]. rewrite <- (Nat.add_0_r (length _)). apply frag_app; [done|]. by destruct d.
Qed.
Lemma builds_fail q e : builds q (fail e).
Proof. by intros b Hb Hf. Qed.

(** The same from a builder that has no arguments yet. *)
Definition starts (q : ascii) (m : M Query) : Prop := ∀ b, reg_ok (reg b) → args b = [] → frag q (sqlStrBuilder b) 0 →
  match m b with
  | (b', Ok qr) => reg_ok (reg b') ∧ sqlStrBuilder b' = SQL qr ∧ args b' = Args qr ∧ frag q (SQL qr) (length (Args qr))
  | (b', Err _) => reg_ok (reg b')
  | (_, Panic) => False
  end.
Lemma builds_starts q m : builds q m → starts q m.
Proof. intros H b Hb Ha Hf. apply H; [done|]. by rewrite Ha. Qed.
Lemma starts_seq {A} q (m : M A) Q k : emits q true m 0 Q → (∀ a, Q a → starts q (k a)) → starts q (bind m k).
Proof.
  intros Hm Hk b Hb Ha Hf. specialize (Hm b Hb). unfold bind. destruct (m b) as [b1 [a| |]]; [|done|done].
  destruct Hm as (Hr & Hq & s & n & vs & Hs & Hv & Hn & Hz & Ht). rewrite (Ht eq_refl) in Hz, Hv. cbn in Hz.
  apply (Hk a Hq b1 Hr); [by rewrite Hv, Ha|]. rewrite Hs. replace n with 0%nat in Hn by lia. by apply (frag_app q _ _ 0 0).
Qed.
Lemma starts_rGet q e k : (∀ m, parseModel e = inr m → starts q (k m)) → starts q (bind (rGet e) k).
Proof.
  intros Hk b Hb Ha Hf. unfold bind, rGet. pose proof (registry_Get_spec (reg b) e Hb) as [H1 H2].
  destruct (registry_Get (reg b) e) as [r o]. cbn in H1, H2. subst o. destruct (parseModel e) as [err|m]; [done|]. by apply Hk.
Qed.
Lemma starts_reset q k : builds q k → starts q (reset_args ;; k).
Proof. intros Hk b Hb Ha Hf. unfold bind. rewrite reset_fresh by done. apply Hk; [done|]. by rewrite Ha. Qed.

Section statements.
Context (d : Dialect) (cr : Creator) (s : structdef) (h : store).
Let q := dialect_quoter d.
Let T := PtrStruct s.
Ltac const := apply frag_const; by intros [].
Ltac bstep := eapply builds_seq; [|intros ? _].
Ltac sstep := eapply starts_seq; [|intros ? _].

Lemma select_builds sel T' : wf_selector q sel → builds q (Selector_Build q T' sel).
Proof.
  intros [H1 H2 H3 H4 H5]. unfold Selector_Build. apply builds_rGet. intros model _.
  bstep; [apply emits_write0; const|]. bstep; [by apply emits_columns|]. bstep; [apply emits_write0; const|].
  bstep; [by apply emits_table|]. bstep; [by apply emits_where|]. bstep; [|bstep; [|bstep; [|bstep; [apply emits_limit|apply builds_finish]]]].
  - destruct (s_groupBy sel); [repeat emit_step|]. emit_step; [apply emits_write0; const|].
    apply emits_each; [const|]. intros. apply emits_column.
  - destruct (s_having sel); [repeat emit_step|]. emit_step; [apply emits_write0; const|]. by apply emits_predicates.
  - destruct (s_orderBy sel); [repeat emit_step|]. emit_step; [apply emits_write0; const|]. by apply emits_orderBy.
Qed.

Lemma delete_builds now del T' : Forall (wf_pred q) (d_where del) → frag q (d_tableName del) 0 →
  builds q (Deleter_Build q now T' del).
Proof.
  intros Hw Ht. unfold Deleter_Build. apply builds_rGet. intros model _.
  assert (emit0 q (buildTarget q model del)) as Htarget by (unfold buildTarget; repeat emit_step; done).
  destruct (field_at _ _) as [f|].
  - unfold buildSoftDelete. bstep; [apply emits_write0; const|]. bstep; [done|]. bstep; [apply emits_write0; const|].
    bstep; [apply emits_quote|]. intros b Hb Hf.
    assert (∀ k, (WriteString "=?" ;; add_args [VTime now] ;; k : M Query) b = ((WriteString "=?" ;; add_args [VTime now]) ;; k) b) as ->
      by done. revert b Hb Hf.
    change (builds q ((WriteString "=?" ;; add_args [VTime now]) ;; buildWhereWithSoftDelete q model (d_where del) ;; finish)).
    bstep; [apply (emits_filled q _ [_]); by destruct d|]. bstep; [by apply emits_where|apply builds_finish].
  - bstep; [apply emits_write0; const|]. bstep; [done|]. bstep; [|apply builds_finish].
    destruct (d_where del); [repeat emit_step|]. emit_step; [apply emits_write0; const|]. by apply emits_predicates.
Qed.

Hypothesis Hty : typed s h.

Lemma field_no_panic p m name : readable cr s h p → parseModel T = inr m → GetFieldValue cr s m (deref h p) name ≠ Panic.
Proof.
  intros Hr Hp. destruct (parseModel_ok s m (ty_names _ _ Hty) Hp) as [Hm E]. unfold GetFieldValue, readable in *. destruct cr.
  - destruct (FieldMap m !! name) as [i|] eqn:Hi; [|done]. destruct (deref h p) as [v|] eqn:Hd; [|done].
    destruct p as [a|]; [|done]. destruct (mo_field' m Hm _ _ Hi) as (f & Hf & _).
    destruct (field_value s h m a v i f Hty Hp Hd Hf) as [x Hx]. unfold index_or_panic. by rewrite Hx.
  - destruct Hr as [[v Hv] Hex]. rewrite Hv. destruct (FieldByName s name) as [[i f]|] eqn:Ef; [|done].
    apply list_find_Some in Ef as (Hf & _ & _). rewrite Forall_lookup in Hex. rewrite (Hex _ _ Hf).
    destruct p as [a|]; [|done]. unfold index_or_panic.
    destruct (lookup_lt_is_Some_2 v i) as [x Hx]; [rewrite (ty_store _ _ Hty a v Hv); by eapply lookup_lt_Some|]. by rewrite Hx.
Qed.
Lemma emits_field p m name : readable cr s h p → parseModel T = inr m →
  hush0 q false (lift (GetFieldValue cr s m (deref h p) name)).
Proof. intros. apply emits_lift; [by apply field_no_panic|done]. Qed.

Lemma emits_marked {A} (m : M A) : emit0 q m → ∀ (f : A → gval), emit0 q (WriteString "?" ;; do v ← m ; add_args [f v]).
Proof.
  intros Hm f. eapply (emits_bind _ _ _ _ 1 (-1)); [apply (emits_write q false "?" 1), frag_mark| |done]. intros _ _.
  eapply (emits_bind _ _ _ _ 0 (-1)); [exact Hm| |done]. intros v _. apply (emits_args q [f v]).
Qed.
Lemma emits_row model fields p : readable cr s h p → parseModel T = inr model → emit0 q (buildRow cr T h model fields p).
Proof.
  intros Hr Hp. unfold buildRow. emit_step; [apply emits_write0; const|]. emit_step; [|apply emits_write0; const].
  apply emits_each; [const|]. intros f _. apply (emits_marked _ (emits_field p model (GoName f) Hr Hp) id).
Qed.
Lemma emits_upsert_assigns model excluded l : (∀ c, emit0 q (excluded c)) → Forall (wf_assign q) l →
  ∀ idx, emit0 q (buildUpsertAssigns q model excluded idx l).
Proof.
  intros Hx. induction l as [|a l IH]; intros Hl idx; [by apply emits_ret|]. apply Forall_cons in Hl as [Ha Hl]. cbn [buildUpsertAssigns].
  emit_step; [repeat emit_step; const|]. destruct a; [by apply emits_assignment| |apply emits_fail].
  destruct (field_of _ _); [|apply emits_fail]. emit_step; [apply emits_quote|]. emit_step; [apply Hx|]. by apply IH.
Qed.
Lemma emits_upsert d' model u : Forall (wf_assign q) (u_assigns u) → emit0 q (buildUpsert d' q model u).
Proof.
  intros Hu. unfold buildUpsert. destruct d'; [apply emits_fail|..].
  - emit_step; [apply emits_write0; const|]. apply emits_upsert_assigns; [|done]. intros c. repeat emit_step; const.
  - emit_step; [apply emits_write0; const|]. emit_step; [|emit_step; [apply emits_write0; const|]].
    + apply emits_each; [const|]. intros. apply emits_column.
    + apply emits_upsert_assigns; [|done]. intros c. repeat emit_step; const.
Qed.

(** The head of the statement adds no arguments, so clearing them is harmless on a
    fresh builder. *)
Lemma insert_starts i : Forall (readable cr s h) (i_values i) → wf_upsert q (i_upsert i) → starts q (Inserter_Build d cr T h i).
Proof.
  intros Hr Hu. unfold Inserter_Build. destruct (i_values i) as [|v vs] eqn:Ev; [by intros b ? ? ?|]. rewrite <- Ev in *. clear Ev v vs.
  apply starts_rGet. intros model Hp. sstep; [apply emits_write0; const|]. sstep; [apply emits_quote|]. sstep; [apply emits_write0; const|].
  eapply (starts_seq _ _ (λ _, True)); [apply emits_lift; [|done]|intros fields _].
  { assert (∀ cols, pick_fields model cols ≠ Panic) as Hpick.
    { induction cols as [|c cols IH]; [done|]. cbn. destruct (field_of _ _); [|done]. by destruct (pick_fields model cols). }
    unfold insert_fields. destruct (i_columns i); [done|]. apply Hpick. }
  sstep; [apply emits_each; [const|]; intros; apply emits_quote|]. sstep; [apply emits_write0; const|].
  sstep; [apply emits_write0; const|]. apply starts_reset. bstep.
  { apply emits_each; [const|]. intros p Hin. apply emits_row; [|done]. by eapply Forall_forall in Hr. }
  bstep; [|apply builds_finish]. destruct (i_upsert i); [by apply emits_upsert|repeat emit_step].
Qed.

Lemma emits_set model p a : wf_assign q a → (∀ c, a = ACol c → readable cr s h p) → parseModel T = inr model →
  emit0 q (buildSet d cr T h model p a).
Proof.
  intros Ha Hr Hp. destruct a as [c e|c|]; cbn [buildSet]; [by apply emits_assignment| |repeat emit_step].
  eapply emits_bind; [apply (emits_field p model (c_name c)); [by eapply Hr|done]| |reflexivity]. intros v _.
  emit_step; [apply emits_column|]. apply (emits_filled q _ [v]). by destruct d.
Qed.
Lemma emits_bump f : emit0 q (bump d f).
Proof. unfold bump. repeat emit_step; const. Qed.
Lemma emits_all_fields model p fs : readable cr s h p → parseModel T = inr model →
  ∀ first, hush0 q false (buildAllFields d cr T h model p first fs).
Proof.
  intros Hr Hp. induction fs as [|f fs IH]; intros first; cbn [buildAllFields]; [by apply emits_ret|]. apply emits_if; [apply IH|].
  emit_step; [repeat emit_step; const|]. emit_step; [apply emits_column|].
  eapply (emits_bind _ _ _ _ 1 (-1)); [apply (emits_write q false "=?" 1); by destruct d| |done]. intros _ _.
  eapply (emits_bind _ _ _ _ 0 (-1)); [by apply (emits_field p model (GoName f))| |done]. intros v _.
  eapply (emits_bind _ _ _ _ (-1) 0); [apply (emits_args q [v])| |done]. intros _ _. apply IH.
Qed.

(** What an update needs: a live instance if it has one, and one if it reads columns
    from it by reflection. *)
Record wf_updater (u : Updater) : Prop := {
  wu_assigns : Forall (wf_assign q) (u_assigns_ u); wu_where : Forall (wf_pred q) (u_where u);
  wu_val : ∀ a, u_val u = Some a → is_Some (h !! a) ∧ readable cr s h (Some a);
  wu_none : u_val u = None → cr = NewUnsafeValue ∨ Forall (λ a, ∀ c, a ≠ ACol c) (u_assigns_ u) }.

Lemma emits_sets model u : wf_updater u → parseModel T = inr model → emit0 q (buildSets d cr T h model u).
Proof.
  intros [Ha Hw Hv Hn] Hp. unfold buildSets. destruct (u_assigns_ u) as [|a l] eqn:El.
  - destruct (u_val u) as [p|]; [|apply emits_fail]. emit_step; [apply emits_write0; const|].
    eapply emits_bind; [apply emits_all_fields; [by apply Hv|done]| |reflexivity]. intros first _.
    destruct (field_at _ _); [|repeat emit_step]. emit_step; [repeat emit_step; const|apply emits_bump].
  - rewrite <- El in *. emit_step; [apply emits_write0; const|]. emit_step.
    + apply emits_each; [const|]. intros x Hx. apply emits_set; [by eapply Forall_forall in Ha| |done].
      intros c ->. destruct (u_val u) as [p|]; [by apply Hv|]. destruct (Hn eq_refl) as [->|Hc]; [done|].
      eapply Forall_forall in Hc; [|done]. by destruct (Hc c).
    + destruct (field_at _ _), (u_val u); try by repeat emit_step. apply emits_if; [repeat emit_step|].
      emit_step; [apply emits_write0; const|apply emits_bump].
Qed.
Lemma emits_version_guard model u : wf_updater u → emit0 q (buildVersionGuard d T h model u).
Proof.
  intros [Ha Hw Hv Hn]. unfold buildVersionGuard. destruct (field_at _ _) as [vf|]; [|repeat emit_step].
  destruct (u_val u) as [p|] eqn:Eu; [|repeat emit_step]. emit_step; [apply emits_write0; case_match; const|].
  emit_step; [apply emits_quote|].
  eapply (emits_bind _ _ _ _ 1 (-1)); [apply (emits_write q false "=?" 1); by destruct d| |done]. intros _ _.
  eapply (emits_bind _ _ _ _ 0 (-1) _ (λ _, True)); [apply emits_lift; [|done]| |done].
  - destruct (Hv p eq_refl) as [[v Hpv] _]. unfold readVersionFromVal, deref. cbn [mbind option_bind]. rewrite Hpv.
    destruct (FieldByName _ _) as [[i ?]|]; [|done]. by destruct (v !! i) as [[]|].
  - intros v _. apply (emits_args q [v]).
Qed.
Lemma update_builds u : wf_updater u → builds q (Updater_Build d cr T h u).
Proof.
  intros Hu. unfold Updater_Build. apply builds_rGet. intros model Hp. bstep; [apply emits_write0; const|]. bstep; [apply emits_quote|].
  bstep; [by apply emits_sets|]. bstep; [by apply emits_where, Hu|]. bstep; [by apply emits_version_guard|apply builds_finish].
Qed.

(** Statements whose raw pieces are sound and whose entities can be read. *)
Definition wf_query (qb : QueryBuilder) : Prop :=
  match qb with
  | QSelect x => wf_selector q x
  | QInsert i => Forall (readable cr s h) (i_values i) ∧ wf_upsert q (i_upsert i)
  | QUpdate u => wf_updater u
  | QDelete x => Forall (wf_pred q) (d_where x) ∧ frag q (d_tableName x) 0
  | QChunk _ => False
  end.
Lemma build_starts now qb : wf_query qb → starts q (Build d cr T h now qb).
Proof.
  destruct qb; cbn [wf_query Build]; intros H; [|by destruct H; apply insert_starts| | |done]; apply builds_starts.
  - by apply select_builds.
  - by apply update_builds.
  - by destruct H; apply delete_builds.
Qed.
End statements.

(** C10: No statement can be broken out of by a name that is quoted or a value that is
    bound.  Take a statement whose raw pieces, which the ORM copies as they are (raw
    expressions and the table name given to [Deleter.From]), have their quoted names
    closed and one placeholder per argument, and whose entities can be read where the
    reflective access reads them (there is an instance, and its fields are exported).
    Whatever the names of tables, columns and aliases and the values contain, building
    it on a fresh builder does not panic, and the statement it hands out has every
    quoted identifier closed and outside of them exactly as many placeholders as
    arguments; a quoted name reads back as the name. *)
Theorem statements_well_formed d cr s h now qb b : typed s h → wf_query d cr s h qb →
  reg_ok (reg b) → sqlStrBuilder b = "" → args b = [] →
  match Build d cr (PtrStruct s) h now qb b with
  | (b', Ok qr) => scan (dialect_quoter d) false (SQL qr) = (false, length (Args qr)) ∧ reg_ok (reg b')
  | (b', Err _) => reg_ok (reg b')
  | (_, Panic) => False
  end ∧ ∀ name, ∃ text, (quote (dialect_quoter d) name b).1 = mkB text [] (reg b) ∧ unquote (dialect_quoter d) text = Some name.
Proof.
  intros Hty Hwf Hr Hs Ha. split.
  - pose proof (build_starts d cr s h Hty now qb Hwf b Hr Ha) as H. rewrite Hs in H. specialize (H (frag_nil _)).
    destruct (Build _ _ _ _ _ _ b) as [b' [qr| |]]; [|done|done]. destruct H as (H1 & _ & _ & H2). exact (conj H2 H1).
  - intros name. exists (quoted (dialect_quoter d) name). split; [|apply unquote_quoted].
    destruct b as [t vs r]. cbn in Hs, Ha. subst. unfold quote, bind, WriteString, quoted. cbn [fst sqlStrBuilder args reg].
    by rewrite app_nil_l, !str_app_assoc.
Qed.
Lemma statements_well_formed_witness :
  match Build mysqlDialect NewReflectValue (PtrStruct wModel) wStore 5 (QInsert (Values NewInserter [Some 1%nat; Some 1%nat])) fresh with
  | (b', Ok qr) => scan (dialect_quoter mysqlDialect) false (SQL qr) = (false, length (Args qr)) ∧ reg_ok (reg b')
  | (b', Err _) => reg_ok (reg b')
  | (_, Panic) => False
  end.
Proof.
  assert (wf_query mysqlDialect NewReflectValue wModel wStore (QInsert (Values NewInserter [Some 1%nat; Some 1%nat]))) as Hw
    by (split; [repeat constructor; by eexists|done]).
  destruct (statements_well_formed _ _ _ _ 5 _ fresh wTyped Hw reg_ok_new eq_refl eq_refl) as [H _]. exact H.
Defined.
