(* ===== verification/OrmTextFacts.v ===== *)
(** * The exact text and arguments of the ORM's statements *)

From S2P Require Import Prelude GoStrings OrmModel OrmModelFacts OrmBuilder OrmQuery OrmQueryFacts.
Local Open Scope Z_scope.
Local Open Scope orm_scope.

(** ** A logic for exact output

    [writes m s vs a]: [m] appends [s] and [vs] and returns [a]. *)
Definition writes {A} (m : M A) (s : string) (vs : list gval) (a : A) : Prop := ∀ b,
  m b = (mkB (sqlStrBuilder b +:+ s) (args b ++ vs) (reg b), Ok a).

Lemma bst_eta b : mkB (sqlStrBuilder b +:+ "") (args b ++ []) (reg b) = b.
Proof. destruct b. cbn. by rewrite app_empty_r, app_nil_r. Qed.
Lemma writes_bind {A B} (m : M A) (k : A → M B) s vs a s' vs' x :
  writes m s vs a → writes (k a) s' vs' x → writes (bind m k) (s +:+ s') (vs ++ vs') x.
Proof. intros Hm Hk b. unfold bind. rewrite Hm, Hk. cbn [sqlStrBuilder args reg]. by rewrite str_app_assoc, <- app_assoc. Qed.
Lemma writes_ret {A} (a : A) : writes (ret a) "" [] a.
Proof. intros b. unfold ret. by rewrite bst_eta. Qed.
Lemma writes_str s : writes (WriteString s) s [] tt.
Proof. intros b. unfold WriteString. by rewrite app_nil_r. Qed.
Lemma writes_args vs : writes (add_args vs) "" vs tt.
Proof. intros b. unfold add_args. by rewrite app_empty_r. Qed.
Lemma writes_ok {A} (r : res orm_err A) a : r = Ok a → writes (lift r) "" [] a.
Proof. intros ->. apply writes_ret. Qed.
Lemma writes_quote q name : writes (quote q name) (quoted q name) [] tt.
Proof.
  unfold quote, quoted. apply (writes_bind _ _ _ [] tt _ [] tt); [apply writes_str|].
  apply (writes_bind _ _ _ [] tt _ [] tt); apply writes_str.
Qed.
Lemma writes_eq {A} (m : M A) s vs s' vs' a : writes m s vs a → s = s' → vs = vs' → writes m s' vs' a.
Proof. by intros H <- <-. Qed.

(** Separated output. *)
Lemma writes_each_from {A} sep (f : A → M unit) (g : A → string) (av : A → list gval) l :
  (∀ x, x ∈ l → writes (f x) (g x) (av x) tt) → ∀ idx,
  writes (each_from sep f idx l) (match idx, l with S _, _ :: _ => sep | _, _ => "" end +:+ join sep (map g l)) (concat (map av l)) tt.
Proof.
  induction l as [|x l IH]; intros Hf idx; [cbn; destruct idx; apply writes_ret|].
  cbn [each_from]. assert (∀ y, y ∈ l → writes (f y) (g y) (av y) tt) as Hl by (intros y Hy; apply Hf; by right).
  specialize (IH Hl (S idx)).
  assert (writes (f x ;; each_from sep f (S idx) l) (join sep (map g (x :: l))) (concat (map av (x :: l))) tt) as Htail.
  { eapply writes_eq; [eapply writes_bind; [apply Hf; left|exact IH]| |done]. destruct l; [cbn; by rewrite app_empty_r|]. done. }
  eapply writes_eq; [eapply (writes_bind _ _ _ []); [|exact Htail]| |done].
  - instantiate (1 := tt). instantiate (1 := match idx with S _ => sep | _ => "" end). destruct idx; [apply writes_ret|apply writes_str].
  - by destruct idx.
Qed.
Lemma writes_each {A} sep (f : A → M unit) g av l : (∀ x, x ∈ l → writes (f x) (g x) (av x) tt) →
  writes (each sep f l) (join sep (map g l)) (concat (map av l)) tt.
Proof. intros Hf. apply (writes_each_from sep f g av l Hf 0). Qed.

Lemma rGet_spec (e : entity) m b : reg_ok (reg b) → parseModel e = inr m →
  ∃ r', reg_ok r' ∧ rGet e b = (mkB (sqlStrBuilder b) (args b) r', Ok m).
Proof.
  intros Hr Hp. unfold rGet. pose proof (registry_Get_spec (reg b) e Hr) as [H1 H2].
  destruct (registry_Get (reg b) e) as [r' o]. cbn in H1, H2. subst o. rewrite Hp. by exists r'.
Qed.
Lemma writes_column q m f i : model_ok m → Fields m !! i = Some f → writes (buildColumn q m (Col (GoName f))) (quoted q (ColName f)) [] tt.
Proof.
  intros Hm Hf. unfold buildColumn, Col. cbn [c_table c_name c_alias].
  assert (field_of m (GoName f) = Some f) as -> by (unfold field_of, field_at; by rewrite (mo_field m Hm i f Hf)).
  eapply writes_eq; [eapply (writes_bind _ _ _ [] tt "" [] tt); [apply writes_quote|]|apply app_empty_r|done].
  rewrite bool_decide_true by done. apply writes_ret.
Qed.

(** ** INSERT *)
Section insert_text.
Context (d : Dialect) (cr : Creator) (s : structdef) (h : store) (m : Model).
Context (Hty : typed s h) (Hp : parseModel (PtrStruct s) = inr m).
Let q := dialect_quoter d.

(** The rows of the statement. *)
Definition row_text (fields : list Field) : string := "(" +:+ join "," (map (λ _, "?") fields) +:+ ")".
Definition row_args (fields : list Field) (p : ptr) : list (res orm_err gval) :=
  map (λ f, GetFieldValue cr s m (deref h p) (GoName f)) fields.
Definition oks {A} (l : list (res orm_err A)) : list A := omap (λ r, match r with Ok a => Some a | _ => None end) l.

(** A pointer that can be read in full. *)
Definition live (p : ptr) : Prop := is_Some (deref h p) ∧ readable cr s h p.

Lemma live_reads p f i : live p → Fields m !! i = Some f → ∃ x, GetFieldValue cr s m (deref h p) (GoName f) = Ok x.
Proof.
  intros [[v Hv] Hr] Hf. destruct (parseModel_ok s m (ty_names _ _ Hty) Hp) as [Hm E]. destruct p as [a|]; [|done].
  assert (h !! a = Some v) as Ha by exact Hv. destruct (field_value s h m a v i f Hty Hp Ha Hf) as [x Hx]. exists x.
  unfold GetFieldValue. rewrite Hv. destruct cr.
  - rewrite (mo_field m Hm i f Hf). unfold index_or_panic. by rewrite Hx.
  - destruct (FieldByName_index s m i f (ty_names _ _ Hty) E Hf) as (sf & Hsf & ->). destruct Hr as [_ Hex].
    rewrite Forall_lookup in Hex. rewrite (Hex _ _ Hsf). unfold index_or_panic. by rewrite Hx.
Qed.

Lemma oks_ok {A} (f : A → res orm_err gval) (l : list A) : (∀ x, x ∈ l → ∃ y, f x = Ok y) →
  concat (map (λ x, oks [f x]) l) = oks (map f l) ∧ length (oks (map f l)) = length l.
Proof.
  induction l as [|x l IH]; intros Hf; [done|]. destruct (Hf x ltac:(left)) as [y Hy]. cbn. rewrite Hy. cbn.
  destruct IH as [IH1 IH2]; [intros z Hz; apply Hf; by right|]. split; [by f_equal|by f_equal].
Qed.

Definition fields_in (fields : list Field) : Prop := Forall (λ f, ∃ i, Fields m !! i = Some f) fields.

Lemma row_reads fields p : live p → fields_in fields → ∀ f, f ∈ fields → ∃ y, GetFieldValue cr s m (deref h p) (GoName f) = Ok y.
Proof. intros Hl Hf f Hin. eapply Forall_forall in Hf as [i Hi]; [|done]. by eapply live_reads. Qed.

Lemma writes_row fields p : live p → fields_in fields →
  writes (buildRow cr (PtrStruct s) h m fields p) (row_text fields) (oks (row_args fields p)) tt.
Proof.
  intros Hl Hf. unfold buildRow, row_text. pose proof (row_reads fields p Hl Hf) as Hr.
  apply (writes_bind _ _ _ [] tt); [apply writes_str|].
  eapply writes_eq; [eapply (writes_bind _ _ _ _ tt _ []); [|apply writes_str]|reflexivity|rewrite app_nil_r; exact (proj1 (oks_ok _ _ Hr))].
  apply (writes_each "," _ (λ _, "?")). intros f Hin. destruct (Hr f Hin) as [x Hx]. unfold buildCell.
  apply (writes_bind _ _ "?" [] tt ""); [apply writes_str|].
  apply (writes_bind _ _ "" [] x "" (oks [_])); [by apply writes_ok|]. rewrite Hx. apply writes_args.
Qed.

Lemma pick_fields_in cols fields : pick_fields m cols = Ok fields → fields_in fields.
Proof.
  revert fields. induction cols as [|c cols IH]; intros fields; cbn; [intros [= <-]; constructor|].
  unfold field_of, field_at. destruct (FieldMap m !! c) as [i|]; [|done]. cbn. destruct (Fields m !! i) as [f|] eqn:Hi; [|done].
  destruct (pick_fields m cols) as [fs| |]; [|done|done]. intros [= <-]. constructor; [by exists i|by apply IH].
Qed.
Lemma insert_fields_in cols fields : insert_fields m cols = Ok fields → fields_in fields.
Proof.
  unfold insert_fields. destruct cols; [|apply pick_fields_in]. intros [= <-]. apply Forall_forall. intros f Hf.
  by apply list_elem_of_lookup in Hf.
Qed.

Definition insert_text (fields : list Field) (rows : nat) : string :=
  "INSERT INTO " +:+ quoted q (TableName m) +:+ "(" +:+ join "," (map (λ f, quoted q (ColName f)) fields) +:+ ")" +:+
  " VALUES " +:+ join "," (replicate rows (row_text fields)).
Definition insert_args (fields : list Field) (ps : list ptr) : list gval := concat (map (λ p, oks (row_args fields p)) ps).

Lemma map_const_replicate {A B} (x : B) (l : list A) : map (λ _, x) l = replicate (length l) x.
Proof. induction l; cbn; by f_equal. Qed.

Lemma insert_args_length fields ps : Forall live ps → fields_in fields →
  length (insert_args fields ps) = (length ps * length fields)%nat.
Proof.
  intros Hl Hf. unfold insert_args. induction Hl as [|p ps Hp' Hps IH]; [done|]. cbn [map concat length]. rewrite length_app, IH.
  pose proof (proj2 (oks_ok _ _ (row_reads fields p Hp' Hf))) as E. unfold row_args. rewrite E. lia.
Qed.

(** The statement and its arguments; [su] and [vu] are those of the upsert clause. *)
Lemma insert_writes i fields su vu b : i_values i ≠ [] → Forall live (i_values i) → insert_fields m (i_columns i) = Ok fields →
  match i_upsert i with None => su = "" ∧ vu = [] | Some u => writes (buildUpsert d q m u) su vu tt end →
  reg_ok (reg b) →
  let sql := sqlStrBuilder b +:+ insert_text fields (length (i_values i)) +:+ su +:+ ";" in
  let vs := insert_args fields (i_values i) ++ vu in
  ∃ r', reg_ok r' ∧ Inserter_Build d cr (PtrStruct s) h i b = (mkB sql vs r', Ok (mkQuery sql vs)).
Proof.
  intros Hne Hl Hf Hu Hr. pose proof (insert_fields_in _ _ Hf) as Hin. unfold Inserter_Build.
  destruct (i_values i) as [|p ps] eqn:Ev; [done|]. rewrite <- Ev in *. clear Ev p ps Hne.
  destruct (rGet_spec (PtrStruct s) m b Hr Hp) as (r' & Hr' & Hget). exists r'. split; [done|]. unfold bind at 1. rewrite Hget.
  do 3 (unfold bind at 1; rewrite ?(writes_quote q (TableName m)); cbn [WriteString]). unfold bind at 1, lift at 1. rewrite Hf.
  unfold bind at 1. rewrite (writes_each "," _ (λ f, quoted q (ColName f)) (λ _, []) fields) by (intros f _; apply writes_quote).
  do 2 (unfold bind at 1; cbn [WriteString]). unfold bind at 1, reset_args at 1. cbn [sqlStrBuilder args reg].
  unfold bind at 1.
  rewrite (writes_each "," _ (λ _, row_text fields) (λ p, oks (row_args fields p)) (i_values i))
    by (intros p Hin'; apply writes_row; [by eapply Forall_forall in Hl|done]).
  cbn [sqlStrBuilder args reg]. rewrite map_const_replicate. rewrite (List.app_nil_l (concat _)).
  assert (writes (match i_upsert i with None => ret tt | Some u => buildUpsert d (dialect_quoter d) m u end) su vu tt) as Hw.
  { destruct (i_upsert i); [done|]. destruct Hu as [-> ->]. apply writes_ret. }
  unfold bind at 1. rewrite Hw. unfold finish. cbn [sqlStrBuilder args reg]. unfold insert_text, insert_args.
  by rewrite !str_app_assoc.
Qed.
End insert_text.

(** Inserting: with every value readable and every column known the statement is
    built; it names the columns asked for (all columns of the struct, in order, when
    none are) and has one row of placeholders per value, and the arguments are the
    values' fields, row by row in the order of the columns. *)
Theorem insert_exact d cr s h m i fields b : typed s h → parseModel (PtrStruct s) = inr m →
  i_values i ≠ [] → Forall (live cr s h) (i_values i) → insert_fields m (i_columns i) = Ok fields → i_upsert i = None →
  reg_ok (reg b) → sqlStrBuilder b = "" →
  let sql := insert_text d m fields (length (i_values i)) +:+ ";" in
  let vs := insert_args cr s h m fields (i_values i) in
  (Inserter_Build d cr (PtrStruct s) h i b).2 = Ok (mkQuery sql vs) ∧
  length vs = (length (i_values i) * length fields)%nat.
Proof.
  intros Hty Hp Hne Hl Hf Hu Hr Hs. cbn zeta. split.
  - destruct (insert_writes d cr s h m Hty Hp i fields "" [] b Hne Hl Hf) as (r' & _ & E); [by rewrite Hu|done|].
    rewrite E. rewrite Hs, app_nil_l, app_nil_r. done.
  - apply insert_args_length; [done|done|done|]. by eapply insert_fields_in.
Qed.
Lemma insert_exact_witness : ∃ m fields, parseModel (PtrStruct wModel) = inr m ∧
  (Inserter_Build mysqlDialect NewUnsafeValue (PtrStruct wModel) wStore (Values NewInserter [Some 1%nat; Some 1%nat]) fresh).2
  = Ok (mkQuery (insert_text mysqlDialect m fields 2 +:+ ";") (insert_args NewUnsafeValue wModel wStore m fields [Some 1%nat; Some 1%nat])).
Proof.
  destruct (parseModel (PtrStruct wModel)) as [e|m] eqn:E; [vm_compute in E; discriminate|]. exists m, (Fields m). split; [done|].
  destruct (insert_exact mysqlDialect NewUnsafeValue wModel wStore m (Values NewInserter [Some 1%nat; Some 1%nat]) (Fields m) fresh wTyped E)
    as [H _]; [done|repeat constructor; by eexists|done|done|apply reg_ok_new|done|]. exact H.
Defined.

(** ** Chunks *)
Lemma splitChunk_from_spec {A} n : (0 < n)%nat → ∀ fuel (l : list A), (length l <= fuel)%nat →
  concat (splitChunk_from fuel l n) = l ∧
  Forall (λ c, c ≠ [] ∧ (length c <= n)%nat) (splitChunk_from fuel l n) ∧
  (∀ k c, splitChunk_from fuel l n !! k = Some c → is_Some (splitChunk_from fuel l n !! S k) → length c = n).
Proof.
  intros Hn. induction fuel as [|fuel IH]; intros l Hl; [destruct l; [by repeat constructor|cbn in Hl; lia]|].
  destruct l as [|x l]; [by repeat constructor|]. cbn [splitChunk_from]. set (l0 := x :: l) in *.
  destruct (IH (drop n l0)) as (H1 & H2 & H3); [rewrite length_drop; unfold l0 in *; cbn in *; lia|]. split_and!.
  - cbn [concat]. by rewrite H1, take_drop.
  - constructor; [|done]. split; [unfold l0; destruct n; [lia|done]|]. rewrite length_take. lia.
  - intros [|k] c; [|apply H3]. cbn. intros [= <-] [c' Hc']. destruct (drop n l0) as [|y l'] eqn:Ed; [by destruct fuel|].
    assert (length (drop n l0) ≠ 0%nat) as Hlen by (by rewrite Ed). rewrite length_drop in Hlen. rewrite length_take. lia.
Qed.
Lemma splitChunk_spec {A} (l : list A) size : 0 < size → l ≠ [] →
  concat (splitChunk l size) = l ∧
  Forall (λ c, c ≠ [] ∧ Z.of_nat (length c) <= size) (splitChunk l size) ∧
  (∀ k c, splitChunk l size !! k = Some c → is_Some (splitChunk l size !! S k) → Z.of_nat (length c) = size).
Proof.
  intros Hs Hl. unfold splitChunk. rewrite bool_decide_false by done. destruct (Z.leb_spec size 0); [lia|]. cbn [orb].
  destruct (splitChunk_from_spec (A := A) (Z.to_nat size)) with (fuel := length l) (l := l) as (H1 & H2 & H3); [lia|done|].
  split_and!; [done| |].
  - eapply Forall_impl; [exact H2|]. cbn. intros c [? ?]. split; [done|lia].
  - intros k c Hk Hk'. rewrite (H3 k c Hk Hk'). lia.
Qed.

(** ** Conditions as text

    The text and arguments of an expression over the model's own columns. *)
Section conditions.
Context (q : ascii) (m : Model).

Definition own_column_text (name : string) : option string := quoted q ∘ ColName <$> field_of m name.
Definition parens (e : expr) (s : string) : string := match e with EPred _ _ _ => "(" +:+ s +:+ ")" | _ => s end.
Definition op_text (o : string) : string := if bool_decide (o = "") then "" else " " +:+ o +:+ " ".
Fixpoint expr_text (e : expr) : option (string * list gval) :=
  match e with
  | ENil => Some ("", [])
  | EColumn c => match c_table c with None => (λ s, (s, [])) <$> own_column_text (c_name c) | Some _ => None end
  | EValue v => Some ("?", [v])
  | EAgg a => s ← own_column_text (a_arg a);
              Some (a_fn a +:+ "(" +:+ s +:+ ")" +:+ (if bool_decide (a_alias a = "") then "" else " AS " +:+ quoted q (a_alias a)), [])
  | EPred l o r => '(sl, vl) ← expr_text l; '(sr, vr) ← expr_text r;
                   Some (parens l sl +:+ op_text o +:+ parens r sr, vl ++ vr)
  | ERaw raw vs => Some ("(" +:+ raw +:+ ")", vs)
  | EMath _ _ _ => None
  end.
Definition pred_text (p : Predicate) : option (string * list gval) := expr_text (of_pred p).
(** The conjunction of all conditions given. *)
Definition where_text (ps : list Predicate) : option (string * list gval) :=
  match field_at m (DeletedAtField m), ps with
  | None, [] => Some ("", [])
  | Some f, [] => Some (" WHERE " +:+ quoted q (ColName f) +:+ " IS NULL", [])
  | o, p :: ps' =>
      '(s, vs) ← pred_text (foldl And p ps');
      Some (" WHERE " +:+ match o with Some f => quoted q (ColName f) +:+ " IS NULL AND " | None => "" end +:+ s, vs)
  end.

Lemma writes_own_column name s : own_column_text name = Some s → writes (buildColumn q m (Col name)) s [] tt.
Proof.
  unfold own_column_text, buildColumn, Col. cbn [c_table c_name c_alias]. destruct (field_of m name) as [f|]; [|done]. intros [= <-].
  eapply writes_eq; [eapply (writes_bind _ _ _ [] tt "" [] tt); [apply writes_quote|]|apply app_empty_r|done].
  rewrite bool_decide_true by done. apply writes_ret.
Qed.
Lemma writes_aggregate a s : own_column_text (a_arg a) = Some s → writes (buildAggregate q m a)
  (a_fn a +:+ "(" +:+ s +:+ ")" +:+ (if bool_decide (a_alias a = "") then "" else " AS " +:+ quoted q (a_alias a))) [] tt.
Proof.
  intros Hs. unfold buildAggregate. do 2 (apply (writes_bind _ _ _ [] tt _ []); [apply writes_str|]).
  apply (writes_bind _ _ _ [] tt _ []); [by apply writes_own_column|]. apply (writes_bind _ _ _ [] tt _ []); [apply writes_str|].
  case_bool_decide; [apply writes_ret|]. apply (writes_bind _ _ _ [] tt _ []); [apply writes_str|apply writes_quote].
Qed.

Lemma writes_expression e : ∀ s vs, expr_text e = Some (s, vs) →
  writes (buildExpression q m e) s vs tt ∧ writes (buildSubExpr q m e) (parens e s) vs tt.
Proof.
  assert (∀ e s vs, writes (buildExpression q m e) s vs tt → writes (buildSubExpr q m e) (parens e s) vs tt) as Hsub.
  { intros e' s vs H. destruct e'; try exact H. unfold buildSubExpr, sub_expr, parens. apply (writes_bind _ _ _ [] tt); [apply writes_str|].
    eapply writes_eq; [eapply (writes_bind _ _ _ _ tt _ []); [exact H|apply writes_str]|done|apply app_nil_r]. }
  assert (∀ e s vs, writes (buildExpression q m e) s vs tt →
    writes (buildExpression q m e) s vs tt ∧ writes (buildSubExpr q m e) (parens e s) vs tt) as Hboth by (intros; split; auto).
  induction e as [|c|v|a|l IHl o r IHr|raw vs0|]; intros s vs E; cbn [expr_text] in E; [..|done].
  - injection E as <- <-. apply Hboth, writes_ret.
  - destruct (c_table c) eqn:Et; [done|]. apply fmap_Some in E as (s' & Hs & [= -> ->]). apply Hboth. cbn [buildExpression]. rewrite Et.
    by apply writes_own_column.
  - injection E as <- <-. apply Hboth. apply (writes_bind _ _ "?" [] tt "" [v]); [apply writes_str|apply writes_args].
  - apply bind_Some in E as (s' & Hs & [= <- <-]). apply Hboth. by apply writes_aggregate.
  - apply bind_Some in E as ([sl vl] & Hl & E). apply bind_Some in E as ([sr vr] & Hr & [= <- <-]). apply Hboth. cbn [buildExpression].
    apply writes_bind with tt; [by apply IHl|]. apply (writes_bind _ _ _ [] tt).
    { unfold op_text. case_bool_decide; [apply writes_ret|apply writes_str]. }
    pose proof (proj2 (IHr _ _ Hr)) as Hw. destruct r; exact Hw.
  - injection E as <- <-. apply Hboth. cbn [buildExpression]. apply (writes_bind _ _ _ [] tt); [apply writes_str|].
    eapply writes_eq; [eapply (writes_bind _ _ _ [] tt); [apply writes_str|eapply (writes_bind _ _ _ _ tt); [apply writes_args|apply writes_str]]|done|].
    apply app_nil_r.
Qed.
Lemma writes_where ps s vs : where_text ps = Some (s, vs) → writes (buildWhereWithSoftDelete q m ps) s vs tt.
Proof.
  unfold where_text, buildWhereWithSoftDelete. destruct (field_at m (DeletedAtField m)) as [f|], ps as [|p ps]; intros E.
  - injection E as <- <-. do 2 (eapply (writes_bind _ _ _ [] tt _ []); [apply writes_str || apply writes_quote|]). apply writes_str.
  - apply bind_Some in E as ([s' vs'] & Hs & [= <- <-]). apply (writes_bind _ _ _ [] tt); [apply writes_str|].
    rewrite str_app_assoc. apply (writes_bind _ _ _ [] tt); [apply writes_quote|].
    apply (writes_bind _ _ " IS NULL" [] tt (" AND " +:+ s')); [apply writes_str|]. apply (writes_bind _ _ _ [] tt); [apply writes_str|].
    by apply writes_expression.
  - injection E as <- <-. apply writes_ret.
  - apply bind_Some in E as ([s' vs'] & Hs & [= <- <-]). apply (writes_bind _ _ _ [] tt); [apply writes_str|].
    by apply writes_expression.
Qed.
End conditions.

(** ** UPDATE of an instance *)
Section update_text.
Context (d : Dialect) (cr : Creator) (s : structdef) (h : store) (m : Model).
Context (Hty : typed s h) (Hp : parseModel (PtrStruct s) = inr m).
Let q := dialect_quoter d.

(** All fields but the version. *)
Definition is_version (f : Field) : bool :=
  match field_at m (VersionField m) with Some vf => bool_decide (GoName f = GoName vf) | None => false end.
Definition plain_fields (fs : list Field) : list Field := List.filter (λ f, negb (is_version f)) fs.
Definition set_text (f : Field) : string := quoted q (ColName f) +:+ "=?".
Definition bump_text (f : Field) : string := quoted q (ColName f) +:+ "=" +:+ quoted q (ColName f) +:+ "+1".
Definition guard_text (u : Updater) (f : Field) : string :=
  (if bool_decide (is_Some (field_at m (DeletedAtField m))) || bool_decide (u_where u ≠ []) then " AND " else " WHERE ") +:+
  quoted q (ColName f) +:+ "=?".

Lemma writes_bump f : writes (bump d f) (bump_text f) [] tt.
Proof.
  unfold bump, bump_text. do 2 (apply (writes_bind _ _ _ [] tt _ []); [apply writes_quote || apply writes_str|]).
  apply (writes_bind _ _ _ [] tt _ []); [apply writes_quote|apply writes_str].
Qed.

Lemma join_comma_cons x l : (match l with [] => "" | _ => "," end) +:+ join "," l = match l with [] => "" | _ => "," +:+ join "," l end ∧
  join "," (x :: l) = x +:+ match l with [] => "" | _ => "," +:+ join "," l end.
Proof. destruct l; cbn; by rewrite ?app_empty_r. Qed.

Lemma writes_all_fields p fs : live cr s h p → fields_in m fs → ∀ first,
  writes (buildAllFields d cr (PtrStruct s) h m p first fs)
    ((if first then "" else match plain_fields fs with [] => "" | _ => "," end) +:+ join "," (map set_text (plain_fields fs)))
    (oks (row_args cr s h m (plain_fields fs) p))
    (first && bool_decide (plain_fields fs = [])).
Proof.
  intros Hl. destruct (parseModel_ok s m (ty_names _ _ Hty) Hp) as [Hm _]. unfold plain_fields.
  induction fs as [|f fs IH]; intros Hin first.
  { cbn. destruct first; apply writes_ret. }
  apply Forall_cons in Hin as [[i Hi] Hin]. cbn [buildAllFields List.filter]. fold (is_version f).
  destruct (is_version f) eqn:Ef; cbn [negb]; [by apply IH|].
  destruct (live_reads cr s h m Hty Hp p f i Hl Hi) as [x Hx].
  rewrite bool_decide_false, andb_false_r by done. specialize (IH Hin false). cbn [andb] in IH.
  set (rest := List.filter (λ f, negb (is_version f)) fs) in *.
  assert (writes (buildColumn q m (Col (GoName f)) ;; WriteString "=?" ;;
    do v ← lift (GetFieldValue cr (struct_of (PtrStruct s)) m (deref h p) (GoName f)) ;
    add_args [v] ;; buildAllFields d cr (PtrStruct s) h m p false fs)
    (join "," (map set_text (f :: rest))) (oks (row_args cr s h m (f :: rest) p)) false) as Htail.
  { eapply writes_eq; [eapply (writes_bind _ _ _ [] tt); [by eapply writes_column|]; eapply (writes_bind _ _ _ [] tt); [apply writes_str|];
      eapply (writes_bind _ _ "" [] x); [by apply writes_ok|]; eapply (writes_bind _ _ "" [x] tt); [apply writes_args|exact IH]| |].
    - cbn [map]. rewrite (proj2 (join_comma_cons (set_text f) (map set_text rest))). unfold set_text at 2. rewrite str_app_assoc.
      f_equal. f_equal. rewrite !app_nil_l. by destruct rest.
    - unfold row_args. cbn [map oks omap list_omap]. by rewrite Hx. }
  destruct first.
  - apply (writes_bind _ _ "" [] tt); [apply writes_ret|exact Htail].
  - apply (writes_bind _ _ "," [] tt); [apply writes_str|exact Htail].
Qed.

Definition update_text (u : Updater) (vf : Field) (sw : string) : string :=
  "UPDATE " +:+ quoted q (TableName m) +:+ " SET " +:+
  join "," (map set_text (plain_fields (Fields m)) ++ [bump_text vf]) +:+ sw +:+ guard_text u vf +:+ ";".

Lemma join_snoc l x : join "," (l ++ [x]) = join "," l +:+ match l with [] => "" | _ => "," end +:+ x.
Proof.
  induction l as [|y l IH]; [done|]. destruct l as [|z l]; [done|].
  change (join "," ((y :: z :: l) ++ [x])) with (y +:+ "," +:+ join "," ((z :: l) ++ [x])). rewrite IH.
  change (join "," (y :: z :: l)) with (y +:+ "," +:+ join "," (z :: l)). by rewrite !str_app_assoc.
Qed.

Lemma update_writes u a v i vf k z sw vw b :
  u_assigns_ u = [] → u_val u = Some a → h !! a = Some v → readable cr s h (Some a) →
  VersionField m = Some i → Fields m !! i = Some vf → v !! i = Some z →
  (match z with VInt _ n => Some n | VUint _ n => Some (i64 n) | _ => None end) = Some k →
  where_text q m (u_where u) = Some (sw, vw) → reg_ok (reg b) →
  let sql := sqlStrBuilder b +:+ update_text u vf sw in
  let vs := args b ++ oks (row_args cr s h m (plain_fields (Fields m)) (Some a)) ++ vw ++ [VInt 64 k] in
  ∃ r', reg_ok r' ∧ Updater_Build d cr (PtrStruct s) h u b = (mkB sql vs r', Ok (mkQuery sql vs)).
Proof.
  intros Has Hval Hv Hr Hvi Hvf Hz Hk Hw Hb. destruct (parseModel_ok s m (ty_names _ _ Hty) Hp) as [Hm E].
  assert (field_at m (VersionField m) = Some vf) as Hfa by (unfold field_at; by rewrite Hvi).
  assert (live cr s h (Some a)) as Hlive by (split; [by exists v|done]).
  assert (writes (buildSets d cr (PtrStruct s) h m u) (" SET " +:+ join "," (map set_text (plain_fields (Fields m)) ++ [bump_text vf]))
    (oks (row_args cr s h m (plain_fields (Fields m)) (Some a))) tt) as Hsets.
  { unfold buildSets. rewrite Has, Hval, Hfa. apply (writes_bind _ _ _ [] tt); [apply writes_str|]. rewrite join_snoc.
    eapply writes_eq; [eapply writes_bind; [apply (writes_all_fields (Some a) (Fields m) Hlive)|]| |apply app_nil_r].
    - apply Forall_forall. intros f Hf. by apply list_elem_of_lookup in Hf.
    - cbn [andb]. eapply (writes_bind _ _ (match map set_text (plain_fields (Fields m)) with [] => "" | _ => "," end) [] tt _ []); [|apply writes_bump].
      destruct (plain_fields (Fields m)); [rewrite bool_decide_true by done; apply writes_ret|].
      rewrite bool_decide_false by done. apply writes_str.
    - done. }
  assert (writes (buildVersionGuard d (PtrStruct s) h m u) (guard_text u vf) [VInt 64 k] tt) as Hguard.
  { unfold buildVersionGuard, guard_text. rewrite Hval, Hfa. apply (writes_bind _ _ _ [] tt); [apply writes_str|].
    apply (writes_bind _ _ _ [] tt); [apply writes_quote|]. apply (writes_bind _ _ "=?" [] tt ""); [apply writes_str|].
    apply (writes_bind _ _ "" [] (VInt 64 k)); [|apply writes_args]. apply writes_ok.
    unfold readVersionFromVal, deref. cbn [mbind option_bind struct_of]. rewrite Hv.
    destruct (FieldByName_index s m i vf (ty_names _ _ Hty) E Hvf) as (sf & _ & ->). rewrite Hz.
    destruct z; try done; by injection Hk as ->. }
  destruct (rGet_spec (PtrStruct s) m b Hb Hp) as (r' & Hr' & Hget). exists r'. split; [done|].
  unfold Updater_Build. unfold bind at 1. rewrite Hget. unfold bind at 1. cbn [WriteString]. unfold bind at 1. fold q.
  rewrite (writes_quote q (TableName m)). unfold bind at 1. rewrite Hsets. unfold bind at 1.
  rewrite (writes_where q m _ _ _ Hw). unfold bind at 1. rewrite Hguard. unfold finish. cbn [sqlStrBuilder args reg].
  unfold update_text. rewrite !str_app_assoc, <- !app_assoc. done.
Qed.
End update_text.
