(* ===== verification/OrmParseFacts.v ===== *)
(** * Conditions read back

    The text of a condition over the model's own columns can be parsed, and yields
    the condition again: the printed parentheses determine the structure. *)

From S2P Require Import Prelude GoStrings OrmModel OrmModelFacts OrmBuilder OrmQuery OrmQueryFacts OrmTextFacts.
Local Open Scope Z_scope.

(** ** A parser for conditions

    [cond := operand " " op " " operand], [operand := "(" cond ")" | name | "?" |
    nothing]; a placeholder takes the next argument. *)
Section parser.
Context (q : ascii) (m : Model).

(** The rest of a quoted name, after the opening quote. *)
Fixpoint read_quoted (s : string) : option (string * string) :=
  match s with
  | EmptyString => None
  | String c s' =>
      if bool_decide (c = q) then
        match s' with
        | String d s'' =>
            if bool_decide (d = q) then '(n, r) ← read_quoted s''; Some (String q n, r)
            else Some (EmptyString, s')
        | EmptyString => Some (EmptyString, EmptyString)
        end
      else '(n, r) ← read_quoted s'; Some (String c n, r)
  end.

Definition parsed := option (expr * string * list gval).
Definition read_operand (rec : string → list gval → parsed) (s : string) (vs : list gval) : parsed :=
  match s with
  | EmptyString => Some (ENil, s, vs)
  | String c s' =>
      if bool_decide (c = "("%char) then
        '(e, s1, vs1) ← rec s' vs;
        match s1 with String d s2 => if bool_decide (d = ")"%char) then Some (e, s2, vs1) else None | EmptyString => None end
      else if bool_decide (c = q) then
        '(n, s1) ← read_quoted s'; f ← column_of m n; Some (EColumn (Col (GoName f)), s1, vs)
      else if bool_decide (c = "?"%char) then
        match vs with v :: vs' => Some (EValue v, s', vs') | [] => None end
      else Some (ENil, s, vs)
  end.
Fixpoint read_cond (fuel : nat) (s : string) (vs : list gval) : parsed :=
  match fuel with
  | O => None
  | S fuel' =>
      '(l, s1, vs1) ← read_operand (read_cond fuel') s vs;
      match s1 with
      | String d s2 =>
          if bool_decide (d = " "%char) then
            '(o, s3) ← cut1 " " s2;
            '(r, s4, vs4) ← read_operand (read_cond fuel') s3 vs1;
            Some (EPred l o r, s4, vs4)
          else None
      | EmptyString => None
      end
  end.
End parser.

(** ** Conditions that are covered

    Comparisons and connectives over columns of the model and values, without
    qualified columns, aggregates and raw text. *)
Section conditions.
Context (q : ascii) (m : Model).

Fixpoint plain (e : expr) : Prop :=
  match e with
  | ENil | EValue _ => True
  | EColumn c => c_table c = None ∧ is_Some (field_of m (c_name c))
  | EPred l o r => plain l ∧ o ≠ "" ∧ contains1 " " o = false ∧ plain r
  | _ => False
  end.
(** Aliases are not part of a condition. *)
Fixpoint without_aliases (e : expr) : expr :=
  match e with
  | EColumn c => EColumn (Col (c_name c))
  | EPred l o r => EPred (without_aliases l) o (without_aliases r)
  | e => e
  end.
Fixpoint depth (e : expr) : nat := match e with EPred l _ r => S (Nat.max (depth l) (depth r)) | _ => 0 end.

Lemma plain_text e : plain e → is_Some (expr_text q m e).
Proof.
  induction e as [|c|v| |l IHl o r IHr| |]; cbn [plain expr_text]; try done.
  - intros [-> [f Hf]]. unfold own_column_text. rewrite Hf. by eexists.
  - intros (Hl & _ & _ & Hr). destruct (IHl Hl) as [[sl vl] ->]. destruct (IHr Hr) as [[sr vr] ->]. cbn. by eexists.
Qed.

(** What may follow a condition or an operand. *)
Definition stops (s : string) : bool :=
  match s with EmptyString => true | String c _ => bool_decide (c = " "%char) || bool_decide (c = ")"%char) end.

Hypothesis Hq : q ∉ ["("%char; ")"%char; "?"%char; " "%char].

Lemma read_quoted_spec name rest : stops rest = true →
  read_quoted q (replace1 q (str1 q +:+ str1 q) name +:+ str1 q +:+ rest) = Some (name, rest).
Proof.
  intros Hr. rewrite !not_elem_of_cons in Hq. destruct Hq as (_ & Hp & _ & Hsp & _). induction name as [|c name IH].
  - cbn [replace1]. rewrite app_nil_l. change (str1 q +:+ rest) with (String q rest). cbn [read_quoted]. rewrite bool_decide_true by done.
    destruct rest as [|d rest]; [done|]. rewrite bool_decide_false; [done|]. intros ->. cbn in Hr.
    by rewrite !bool_decide_false in Hr.
  - cbn [replace1]. rewrite str_app_assoc. case_bool_decide as Hc.
    + subst c. change ((str1 q +:+ str1 q) +:+ ?x) with (String q (String q x)). cbn [read_quoted]. rewrite !bool_decide_true by done.
      by rewrite IH.
    + change (str1 c +:+ ?x) with (String c x). cbn [read_quoted]. rewrite bool_decide_false by done. by rewrite IH.
Qed.

Context (Hm : model_ok m) (Hcols : NoDup (map ColName (Fields m))).

Lemma column_found name f : field_of m name = Some f → GoName f = name ∧ column_of m (ColName f) = Some f.
Proof.
  unfold field_of, field_at. destruct (FieldMap m !! name) as [i|] eqn:Ei; [|done]. cbn. intros Hf.
  destruct (mo_field' m Hm _ _ Ei) as (g & Hg & <-). rewrite Hf in Hg. injection Hg as <-. split; [done|].
  unfold column_of, field_at. by rewrite (own_column m i f Hm Hcols Hf).
Qed.

Lemma read_cond_spec e : ∀ s vs fuel rest ws, plain e → expr_text q m e = Some (s, vs) → (depth e <= fuel)%nat → stops rest = true →
  read_operand q m (read_cond q m fuel) (parens e s +:+ rest) (vs ++ ws) = Some (without_aliases e, rest, ws) ∧
  match e with EPred _ _ _ => read_cond q m fuel (s +:+ rest) (vs ++ ws) = Some (without_aliases e, rest, ws) | _ => True end.
Proof.
  pose proof Hq as Hq'. rewrite !not_elem_of_cons in Hq'. destruct Hq' as (Ho & Hc & Hm' & Hs & _).
  induction e as [|c|v|a|l IHl o r IHr|raw vs0|]; intros s vs fuel rest ws Hpl E Hd Hr; cbn [plain expr_text] in Hpl, E; try done.
  - injection E as <- <-. split; [|done]. cbn [parens]. rewrite app_nil_l. cbn [app]. destruct rest as [|c rest]; [done|]. cbn [stops] in Hr.
    cbn [read_operand]. apply orb_true_iff in Hr as [Hr|Hr]; apply bool_decide_eq_true in Hr; subst c;
      rewrite !bool_decide_false by done; done.
  - destruct Hpl as [Ht [f Hf]]. rewrite Ht in E. unfold own_column_text in E. rewrite Hf in E. injection E as <- <-. split; [|done].
    destruct (column_found _ _ Hf) as [En Ef]. cbn [parens]. unfold quoted. rewrite !str_app_assoc.
    change (str1 q +:+ ?x) with (String q x) at 1. cbn [read_operand]. rewrite (bool_decide_false (q = "("%char)) by done.
    rewrite bool_decide_true by done. rewrite read_quoted_spec by done. cbn [mbind option_bind]. rewrite Ef. cbn [mbind option_bind app].
    cbn [without_aliases]. by rewrite En.
  - injection E as <- <-. split; [|done]. cbn [parens]. change ("?" +:+ rest) with (String "?" rest). cbn [read_operand].
    rewrite (bool_decide_false ("?"%char = "("%char)) by done. rewrite bool_decide_false by done. by rewrite bool_decide_true.
  - destruct Hpl as (Hl & Hoe & Hos & Hrp). apply bind_Some in E as ([sl vl] & El & E). apply bind_Some in E as ([sr vr] & Er & E).
    injection E as <- <-. cbn [depth] in Hd. destruct fuel as [|fuel]; [lia|].
    assert (op_text o = String " " (o +:+ " ")) as Eo by (unfold op_text; by rewrite bool_decide_false).
    assert (∀ rest ws, stops rest = true →
      read_cond q m (S fuel) ((parens l sl +:+ op_text o +:+ parens r sr) +:+ rest) ((vl ++ vr) ++ ws)
      = Some (without_aliases (EPred l o r), rest, ws)) as Hcond.
    { intros rest' ws' Hr'. rewrite !str_app_assoc, <- app_assoc. cbn [read_cond].
      rewrite (proj1 (IHl sl vl fuel (op_text o +:+ parens r sr +:+ rest') (vr ++ ws') Hl El ltac:(lia) ltac:(rewrite Eo; done))).
      cbn [mbind option_bind]. rewrite Eo, app_cons. rewrite bool_decide_true by done. rewrite str_app_assoc.
      assert (cut1 " " (o +:+ " " +:+ parens r sr +:+ rest') = Some (o, parens r sr +:+ rest')) as ->.
      { clear -Hos. induction o as [|c o IH]; [done|]. cbn [contains1] in Hos. apply orb_false_iff in Hos as [Hc Hos].
        rewrite app_cons. cbn [cut1]. rewrite Hc. by rewrite (IH Hos). }
      cbn [mbind option_bind]. rewrite (proj1 (IHr sr vr fuel rest' ws' Hrp Er ltac:(lia) Hr')). done. }
    split; [|by apply Hcond]. cbn [parens]. rewrite !str_app_assoc. change ("(" +:+ ?x) with (String "(" x). cbn [read_operand].
    rewrite (bool_decide_true ("("%char = "("%char)) by done. rewrite <- !str_app_assoc.
    rewrite !str_app_assoc. pose proof (Hcond (")" +:+ rest) ws eq_refl) as Hx. rewrite !str_app_assoc in Hx. rewrite Hx.
    cbn [mbind option_bind]. change (")" +:+ rest) with (String ")" rest). cbn. by rewrite bool_decide_true.
Qed.
End conditions.

(** C17: Conditions are printed without ambiguity: a condition over columns of the
    model and values is always built, and its text with its arguments parses back to
    exactly that condition (aliases aside), so two different conditions never give the
    same statement; names may contain any characters. *)
Theorem conditions_read_back d s m p : NoDup (map f_Name (s_Fields s)) → parseModel (PtrStruct s) = inr m →
  NoDup (map ColName (Fields m)) → plain m (of_pred p) →
  ∃ text vs, writes (buildPredicates (dialect_quoter d) m [p]) text vs tt ∧
    ∀ fuel, (depth (of_pred p) <= fuel)%nat →
      read_cond (dialect_quoter d) m fuel text vs = Some (without_aliases (of_pred p), "", []).
Proof.
  intros Hnd Hp Hc Hpl. destruct (parseModel_ok s m Hnd Hp) as [Hm _].
  destruct (plain_text (dialect_quoter d) m _ Hpl) as [[text vs] E]. exists text, vs. split; [by apply writes_expression|].
  intros fuel Hf. assert (dialect_quoter d ∉ ["("%char; ")"%char; "?"%char; " "%char]) as Hq by (destruct d; set_solver).
  pose proof (proj2 (read_cond_spec (dialect_quoter d) m Hq Hm Hc (of_pred p) text vs fuel "" [] Hpl E Hf eq_refl)) as H.
  cbn [of_pred] in H. by rewrite app_empty_r, app_nil_r in H.
Qed.
Lemma conditions_read_back_witness : ∃ m text vs, parseModel (PtrStruct wModel) = inr m ∧
  writes (buildPredicates "`" m [Or (Column_EQ (Col "Id") (AVal (VInt 64 1))) (Not (Column_GT (Col "Age") (AVal (VInt 64 2))))]) text vs tt.
Proof.
  destruct (parseModel (PtrStruct wModel)) as [e|m] eqn:E; [vm_compute in E; discriminate|]. exists m.
  destruct (conditions_read_back mysqlDialect wModel m (Or (Column_EQ (Col "Id") (AVal (VInt 64 1))) (Not (Column_GT (Col "Age") (AVal (VInt 64 2))))))
    as (text & vs & H & _).
  - apply (bool_decide_unpack _). by vm_compute.
  - exact E.
  - vm_compute in E. injection E as <-. apply (bool_decide_unpack _). by vm_compute.
  - vm_compute in E. injection E as <-. cbn. split_and!; try done; by eexists.
  - exists text, vs. by split.
Defined.
