(* ===== verification/OrmExec.v ===== *)
(** * Executing the ORM's statements

    Models [src/orm/exechandler.go], [middleware.go], [hook.go], [result.go],
    [transaction.go], [db.go], the [Exec] and [Get] methods of [insert.go],
    [updater.go], [delete.go] and [select.go], [SetColumns] of
    [src/orm/internal/valuer] and the middlewares of [src/orm/middleware].  The
    database is a parameter: a state and the session's operations on it.  Hooks are
    functions on an entity in the store and the database.  A panic is [None] where
    a function cannot fail otherwise. *)

From S2P Require Import Prelude GoStrings OrmModel OrmBuilder OrmQuery.
Local Open Scope Z_scope.

(** ** Results *)

(** A [sql.Result] by what its two methods answer. *)
Record sqlResult := mkSR { RowsAffected : res orm_err Z; LastInsertId : res orm_err Z }.
Record Result := mkResult { r_err : option orm_err; r_res : option sqlResult }.
Definition Result_Err (r : Result) : option orm_err := r_err r.
Definition Result_RowsAffected (r : Result) : res orm_err Z :=
  match r_err r with
  | Some e => Err e
  | None => match r_res r with Some x => RowsAffected x | None => Panic end
  end.
Definition Result_LastInsertId (r : Result) : res orm_err Z :=
  match r_err r with
  | Some e => Err e
  | None => match r_res r with Some x => LastInsertId x | None => Panic end
  end.
(** A [Result] is itself a [sql.Result]. *)
Definition as_sql (r : Result) : sqlResult := mkSR (Result_RowsAffected r) (Result_LastInsertId r).
Definition aggregatedResult (rowsAffected lastInsertID : Z) : sqlResult := mkSR (Ok rowsAffected) (Ok lastInsertID).

(** What a handler puts into [QueryResult.Result]. *)
Inductive anyResult := RNil | RSql (r : sqlResult) | RVal (v : svalue) | ROther.
Record QueryResult := mkQR { Result_ : anyResult; Error : option orm_err }.
Definition QueryResult_Err (q : QueryResult) : option orm_err := Error q.

(** ** Field updates by reflection *)
Definition is_zero (t : ftype) (v : gval) : bool :=
  match t with
  | FAny => bool_decide (v = VNil)
  | _ => match v with
         | VNil => true
         | VInt _ z | VUint _ z => z =? 0
         | VStr s => bool_decide (s = "")
         | VTime t => t =? 0
         | VPtrTime p => bool_decide (p = None)
         | VOther _ n => (n =? 0)%nat
         end
  end.

Definition setTimestampField (s : structdef) (p : sptr) (field : Field) (now : Z) : res orm_err svalue :=
  match p with
  | None => Panic
  | Some v =>
      match FieldByName s (GoName field) with
      | None => Err (ErrUnknownField (GoName field))
      | Some (i, f) =>
          if negb (f_exported f) then Err (ErrNotSettable (GoName field))
          else match f_Type f with
               | FTime => Ok (<[i := VTime now]> v)
               | FPtrTime => Ok (<[i := VPtrTime (Some now)]> v)
               | FAny => Ok (<[i := VTime now]> v)
               | _ => Err (ErrFieldType (GoName field))
               end
      end
  end.
Definition isFieldZero (s : structdef) (p : sptr) (field : Field) : res orm_err bool :=
  match p with
  | None => Panic
  | Some v =>
      match FieldByName s (GoName field) with
      | None => Ok true
      | Some (i, f) => res_map (is_zero (f_Type f)) (index_or_panic v i)
      end
  end.
(** Called with the version field only, whose kind is an integer. *)
Definition setIntFieldIfZero (s : structdef) (p : sptr) (field : Field) (x : Z) : res orm_err svalue :=
  match p with
  | None => Panic
  | Some v =>
      match FieldByName s (GoName field) with
      | None => Err (ErrUnknownField (GoName field))
      | Some (i, f) =>
          if negb (f_exported f) then Err (ErrNotSettable (GoName field))
          else res_bind (index_or_panic v i) (λ old,
            if negb (is_zero (f_Type f) old) then Ok v
            else match f_Type f with
                 | FInt w => Ok (<[i := VInt w (wraps w x)]> v)
                 | FUint w => Ok (<[i := VUint w (wrapu w x)]> v)
                 | _ => Err (ErrFieldType (GoName field))
                 end)
      end
  end.

(** ** Rows *)
Inductive dbval := DBNull | DBInt (z : Z) | DBText (s : string) | DBTime (t : Z).
(** The rest of a result set: the columns, the rows not yet read, and the error that
    ends the iteration early, if any. *)
Record Rows := mkRows { r_columns : orm_err + list string; r_data : list (list dbval); r_iter : option orm_err }.

(** [new(T)] *)
Definition zero_val (t : ftype) : gval :=
  match t with
  | FTime => VTime 0 | FPtrTime => VPtrTime None | FAny => VNil
  | FInt w => VInt w 0 | FUint w => VUint w 0 | FOther n => VOther n 0
  end.
Definition new (s : structdef) : svalue := map (λ f, zero_val (f_Type f)) (s_Fields s).

Section rows.
(** [database/sql]'s conversion of a column value to a destination type *)
Context (convert : ftype → dbval → orm_err + gval).

Fixpoint column_fields (m : Model) (cols : list string) : orm_err + list (nat * Field) :=
  match cols with
  | [] => inr []
  | c :: cols' =>
      match ColumnMap m !! c with
      | None => inl (ErrUnknownColumn c)
      | Some i => match Fields m !! i, column_fields m cols' with
                  | Some f, inr l => inr ((i, f) :: l)
                  | _, inl e => inl e
                  | None, _ => inl (ErrUnknownColumn c)
                  end
      end
  end.

(** [rows.Scan] into the fields' own memory: what was written before a failure stays. *)
Fixpoint scan_into (dests : list (nat * Field)) (row : list dbval) (v : svalue) : svalue * option orm_err :=
  match dests, row with
  | [], [] => (v, None)
  | (i, f) :: dests', x :: row' =>
      match convert (Type_ f) x with
      | inl e => (v, Some e)
      | inr y => scan_into dests' row' (<[i := y]> v)
      end
  | _, _ => (v, Some (ErrOther "sql: expected destination arguments in Scan"))
  end.
(** [rows.Scan] into fresh variables. *)
Fixpoint scan_values (dests : list (nat * Field)) (row : list dbval) : orm_err + list gval :=
  match dests, row with
  | [], [] => inr []
  | (i, f) :: dests', x :: row' =>
      match convert (Type_ f) x with
      | inl e => inl e
      | inr y => match scan_values dests' row' with inl e => inl e | inr ys => inr (y :: ys) end
      end
  | _, _ => inl (ErrOther "sql: expected destination arguments in Scan")
  end.
(** [r.val.FieldByName(fd.GoName).Set(_)] for each column *)
Fixpoint set_fields (s : structdef) (dests : list (nat * Field)) (vals : list gval) (v : svalue) : option svalue :=
  match dests, vals with
  | (_, f) :: dests', y :: vals' =>
      match FieldByName s (GoName f) with
      | Some (i, sf) => if f_exported sf then set_fields s dests' vals' (<[i := y]> v) else None
      | None => None
      end
  | _, _ => Some v
  end.

(** [SetColumns] on the row the cursor is at. *)
Definition SetColumns (c : Creator) (s : structdef) (m : Model) (columns : orm_err + list string) (row : list dbval) (v : svalue)
  : option (svalue * option orm_err) :=
  match columns with
  | inl e => Some (v, Some e)
  | inr cols =>
      match c with
      | NewUnsafeValue =>
          if (size (ColumnMap m) <? length cols)%nat then Some (v, Some ErrTooManyReturnedColumns)
          else match column_fields m cols with
               | inl e => Some (v, Some e)
               | inr dests => Some (scan_into dests row v)
               end
      | NewReflectValue =>
          match column_fields m cols with
          | inl e => Some (v, Some e)
          | inr dests => match scan_values dests row with
                         | inl e => Some (v, Some e)
                         | inr vals => (λ v', (v', None)) <$> set_fields s dests vals v
                         end
          end
      end
  end.
End rows.

(** ** Handlers and middlewares *)
Section exec.
Context {W : Type}.
Context (execContext : W → string → list gval → W * (orm_err + sqlResult)).
Context (queryContext : W → string → list gval → W * (orm_err + Rows)).

(** What a call works on: the database, the statement's builder, the store of
    entities and what middlewares have logged. *)
Record est := mkE { e_w : W; e_b : bst; e_h : store; e_log : list Query }.
Record QueryContext := mkQC { qc_Type : string; qc_QueryBuilder : QueryBuilder; qc_Model : Model }.
Definition Handler := QueryContext → est → est * option QueryResult.
Definition Middleware := Handler → Handler.

(** [core] and the type parameter of the statement *)
Record core := mkCore { dialect : Dialect; valCreator : Creator; middlewares : list Middleware }.
Record hooks := mkHooks {
  BeforeInsert : option (ptr → W * store → (W * store) * option orm_err);
  AfterInsert : option (ptr → W * store → (W * store) * option orm_err);
  BeforeUpdate : option (ptr → W * store → (W * store) * option orm_err);
  AfterUpdate : option (ptr → W * store → (W * store) * option orm_err);
  BeforeQuery : option (svalue → W → (W * svalue) * option orm_err);
  AfterQuery : option (svalue → W → (W * svalue) * option orm_err) }.

Section calls.
Context (c : core) (T : entity) (hk : hooks) (now : Z).

(** [queryCtx.QueryBuilder.Build()] *)
Definition qc_Build (qc : QueryContext) (e : est) : est * res orm_err Query :=
  let '(b, r) := Build (dialect c) (valCreator c) T (e_h e) now (qc_QueryBuilder qc) (e_b e) in
  (mkE (e_w e) b (e_h e) (e_log e), r).

Definition execHandler : Handler := λ qc e,
  let '(e, r) := qc_Build qc e in
  match r with
  | Panic => (e, None)
  | Err err => (e, Some (mkQR (RSql (as_sql (mkResult (Some err) None))) (Some err)))
  | Ok q =>
      let '(w, x) := execContext (e_w e) (SQL q) (Args q) in
      let e := mkE w (e_b e) (e_h e) (e_log e) in
      match x with
      | inl err => (e, Some (mkQR (RSql (as_sql (mkResult (Some err) None))) (Some err)))
      | inr r => (e, Some (mkQR (RSql (as_sql (mkResult None (Some r)))) None))
      end
  end.
Definition exec (qc : QueryContext) (e : est) : est * option QueryResult := chain (middlewares c) execHandler qc e.

(** The registry lookup at the start of every call. *)
Definition lookup_model (e : est) : est * (orm_err + Model) :=
  let '(r, o) := registry_Get (reg (e_b e)) T in
  (mkE (e_w e) (mkB (sqlStrBuilder (e_b e)) (args (e_b e)) r) (e_h e) (e_log e), o).

(** ** Inserter.Exec *)

(** A hook over all values: the first error ends the loop. *)
Fixpoint run_hook (f : option (ptr → W * store → (W * store) * option orm_err)) (ps : list ptr) (e : est) : est * option orm_err :=
  match f, ps with
  | Some f, p :: ps' =>
      let '((w, h), o) := f p (e_w e, e_h e) in
      let e := mkE w (e_b e) h (e_log e) in
      match o with Some err => (e, Some err) | None => run_hook (Some f) ps' e end
  | _, _ => (e, None)
  end.
Definition set_at (h : store) (p : ptr) (v : svalue) : store := match p with Some a => <[a := v]> h | None => h end.
Fixpoint fill_created (f : Field) (ps : list ptr) (h : store) : store * res orm_err unit :=
  match ps with
  | [] => (h, Ok tt)
  | p :: ps' =>
      match isFieldZero (struct_of T) (deref h p) f with
      | Panic => (h, Panic)
      | Err e => (h, Err e)
      | Ok false => fill_created f ps' h
      | Ok true => match setTimestampField (struct_of T) (deref h p) f now with
                   | Panic => (h, Panic)
                   | Err e => (h, Err e)
                   | Ok v => fill_created f ps' (set_at h p v)
                   end
      end
  end.
Fixpoint fill_version (f : Field) (ps : list ptr) (h : store) : store * res orm_err unit :=
  match ps with
  | [] => (h, Ok tt)
  | p :: ps' =>
      match setIntFieldIfZero (struct_of T) (deref h p) f 1 with
      | Panic => (h, Panic)
      | Err e => (h, Err e)
      | Ok v => fill_version f ps' (set_at h p v)
      end
  end.
Definition with_store (e : est) (x : store * res orm_err unit) : est * res orm_err unit :=
  (mkE (e_w e) (e_b e) x.1 (e_log e), x.2).

(** [execChunked]: [upsert] and [columns] stay, the values are those of the chunk. *)
Definition with_values (i : Inserter) (vs : list ptr) : Inserter := mkIns vs (i_columns i) (i_chunkSize i) (i_upsert i).
Definition reset_sql (e : est) : est := mkE (e_w e) (mkB "" (args (e_b e)) (reg (e_b e))) (e_h e) (e_log e).
Fixpoint execChunks (i : Inserter) (m : Model) (chunks : list (list ptr)) (totalRows lastID : Z) (e : est) : est * option QueryResult :=
  match chunks with
  | [] => (e, Some (mkQR (RSql (as_sql (mkResult None (Some (aggregatedResult totalRows lastID))))) None))
  | chunk :: chunks' =>
      let '(e, r) := qc_Build (mkQC "INSERT" (QInsert (with_values i chunk)) m) (reset_sql e) in
      match r with
      | Panic => (e, None)
      | Err err => (e, Some (mkQR (RSql (as_sql (mkResult (Some err) None))) (Some err)))
      | Ok q =>
          match exec (mkQC "INSERT" (QChunk q) m) e with
          | (e, None) => (e, None)
          | (e, Some res) =>
              match Error res with
              | Some _ => (e, Some res)
              | None =>
                  match Result_ res with
                  | RSql x =>
                      match RowsAffected x, LastInsertId x with
                      | Panic, _ | _, Panic => (e, None)
                      | rows, last =>
                          execChunks i m chunks' (match rows with Ok n => i64 (totalRows + n) | _ => totalRows end)
                            (match last with Ok id => id | _ => lastID end) e
                      end
                  | _ => execChunks i m chunks' totalRows lastID e
                  end
              end
          end
      end
  end.
Definition execChunked (i : Inserter) (m : Model) (e : est) : est * option QueryResult :=
  execChunks i m (splitChunk (i_values i) (i_chunkSize i)) 0 0 e.

(** [res.Result.(sql.Result)] when it is not nil; another type panics. *)
Definition sql_of (r : anyResult) : option (option sqlResult) :=
  match r with RNil => Some None | RSql x => Some (Some x) | RVal _ | ROther => None end.

Definition Inserter_Exec (i : Inserter) (e : est) : est * option Result :=
  let '(e, m) := lookup_model e in
  match m with
  | inl err => (e, Some (mkResult (Some err) None))
  | inr m =>
      let '(e, o) := run_hook (BeforeInsert hk) (i_values i) e in
      match o with
      | Some err => (e, Some (mkResult (Some err) None))
      | None =>
          let '(e, o) := with_store e match field_at m (CreatedAtField m) with
                                      | None => (e_h e, Ok tt) | Some f => fill_created f (i_values i) (e_h e) end in
          match o with
          | Panic => (e, None)
          | Err err => (e, Some (mkResult (Some err) None))
          | Ok _ =>
              let '(e, o) := with_store e match field_at m (VersionField m) with
                                          | None => (e_h e, Ok tt) | Some f => fill_version f (i_values i) (e_h e) end in
              match o with
              | Panic => (e, None)
              | Err err => (e, Some (mkResult (Some err) None))
              | Ok _ =>
                  let '(e, x) :=
                    if (0 <? i_chunkSize i) && (i_chunkSize i <? Z.of_nat (length (i_values i)))
                    then execChunked i m e else exec (mkQC "INSERT" (QInsert i) m) e in
                  match x with
                  | None => (e, None)
                  | Some res =>
                      match sql_of (Result_ res) with
                      | None => (e, None)
                      | Some sqlRes =>
                          let '(e, o) := match Error res with None => run_hook (AfterInsert hk) (i_values i) e | Some _ => (e, None) end in
                          match o with
                          | Some err => (e, Some (mkResult (Some err) None))
                          | None => (e, Some (mkResult (Error res) sqlRes))
                          end
                      end
                  end
              end
          end
      end
  end.

(** ** Updater.Exec *)
Definition has_instance (p : ptr) : list ptr := match p with Some _ => [p] | None => [] end.

(** The automatic time of update: on the instance, and in the assignments. *)
Definition touch (m : Model) (u : Updater) (h : store) : store * res orm_err Updater :=
  match field_at m (UpdatedAtField m) with
  | None => (h, Ok u)
  | Some f =>
      match match u_val u with
            | None => Ok h
            | Some _ => res_map (set_at h (u_val u)) (setTimestampField (struct_of T) (deref h (u_val u)) f now)
            end with
      | Panic => (h, Panic)
      | Err e => (h, Err e)
      | Ok h =>
          (h, Ok (if bool_decide (u_assigns_ u ≠ []) && negb (existsb (λ a, assigns_name a (GoName f)) (u_assigns_ u))
                  then Set_ u (u_assigns_ u ++ [Assign (GoName f) (AVal (VTime now))]) else u))
      end
  end.

Definition Updater_Exec (u : Updater) (e : est) : est * option Result :=
  let '(e, m) := lookup_model e in
  match m with
  | inl err => (e, Some (mkResult (Some err) None))
  | inr m =>
      let '(e, o) := run_hook (BeforeUpdate hk) (has_instance (u_val u)) e in
      match o with
      | Some err => (e, Some (mkResult (Some err) None))
      | None =>
          let '(h, o) := touch m u (e_h e) in
          let e := mkE (e_w e) (e_b e) h (e_log e) in
          match o with
          | Panic => (e, None)
          | Err err => (e, Some (mkResult (Some err) None))
          | Ok u =>
              match exec (mkQC "UPDATE" (QUpdate u) m) e with
              | (e, None) => (e, None)
              | (e, Some res) =>
                  match sql_of (Result_ res) with
                  | None => (e, None)
                  | Some sqlRes =>
                      let affected :=
                        match Error res, field_at m (VersionField m), u_val u, sqlRes with
                        | None, Some _, Some _, Some x => RowsAffected x
                        | _, _, _, _ => Ok 1
                        end in
                      match affected with
                      | Panic => (e, None)
                      | Ok 0 => (e, Some (mkResult (Some ErrOptimisticLock) None))
                      | _ =>
                          let '(e, o) := match Error res with
                                         | None => run_hook (AfterUpdate hk) (has_instance (u_val u)) e | Some _ => (e, None) end in
                          match o with
                          | Some err => (e, Some (mkResult (Some err) None))
                          | None => (e, Some (mkResult (Error res) sqlRes))
                          end
                      end
                  end
              end
          end
      end
  end.

(** ** Deleter.Exec *)
Definition Deleter_Exec (x : Deleter) (e : est) : est * option Result :=
  let '(e, m) := lookup_model e in
  match m with
  | inl err => (e, Some (mkResult (Some err) None))
  | inr m =>
      match exec (mkQC "DELETE" (QDelete x) m) e with
      | (e, None) => (e, None)
      | (e, Some res) => match sql_of (Result_ res) with
                         | None => (e, None)
                         | Some sqlRes => (e, Some (mkResult (Error res) sqlRes))
                         end
      end
  end.

(** ** Selector.Get *)
Section get.
Context (convert : ftype → dbval → orm_err + gval).

Definition query_hook (f : option (svalue → W → (W * svalue) * option orm_err)) (v : svalue) (e : est)
  : est * svalue * option orm_err :=
  match f with
  | None => (e, v, None)
  | Some f => let '((w, v), o) := f v (e_w e) in (mkE w (e_b e) (e_h e) (e_log e), v, o)
  end.

(** The handler uses the call's own query context, not the one it is passed. *)
Definition getHandler (m : Model) (qc : QueryContext) (e : est) : est * option QueryResult :=
  let '(e, v, o) := query_hook (BeforeQuery hk) (new (struct_of T)) e in
  match o with
  | Some err => (e, Some (mkQR RNil (Some err)))
  | None =>
      let '(e, r) := qc_Build qc e in
      match r with
      | Panic => (e, None)
      | Err err => (e, Some (mkQR RNil (Some err)))
      | Ok q =>
          let '(w, x) := queryContext (e_w e) (SQL q) (Args q) in
          let e := mkE w (e_b e) (e_h e) (e_log e) in
          match x with
          | inl err => (e, Some (mkQR RNil (Some err)))
          | inr rows =>
              match r_data rows with
              | [] => (e, Some (mkQR RNil (Some ErrNoRows)))
              | row :: more =>
                  match SetColumns convert (valCreator c) (struct_of T) m (r_columns rows) row v with
                  | None => (e, None)
                  | Some (_, Some err) => (e, Some (mkQR RNil (Some err)))
                  | Some (v, None) =>
                      match more with
                      | _ :: _ => (e, Some (mkQR RNil (Some ErrTooManyRows)))
                      | [] =>
                          let '(e, v, o) := query_hook (AfterQuery hk) v e in
                          match o with
                          | Some err => (e, Some (mkQR RNil (Some err)))
                          | None => (e, Some (mkQR (RVal v) None))
                          end
                      end
                  end
              end
          end
      end
  end.
Definition get (m : Model) (qc : QueryContext) (e : est) : est * option QueryResult :=
  chain (middlewares c) (λ _ e, getHandler m qc e) qc e.

(** The value, if any, and the error. *)
Definition Selector_Get (s : Selector) (e : est) : est * option (option svalue * option orm_err) :=
  let '(e, m) := lookup_model e in
  match m with
  | inl err => (e, Some (None, Some err))
  | inr m =>
      match get m (mkQC "SELECT" (QSelect s) m) e with
      | (e, None) => (e, None)
      | (e, Some res) =>
          match Result_ res with
          | RVal v => (e, Some (Some v, Error res))
          | RNil => (e, Some (None, Error res))
          | RSql _ | ROther => (e, None)
          end
      end
  end.
End get.

(** ** Middlewares

    Both build the statement themselves, on the same builder. *)
Definition querylog_Build : Middleware := λ next qc e,
  let '(e, r) := qc_Build qc e in
  match r with
  | Panic => (e, None)
  | Err err => (e, Some (mkQR RNil (Some err)))
  | Ok q => next qc (mkE (e_w e) (e_b e) (e_h e) (e_log e ++ [q]))
  end.
(** [duration]: how long the rest took, given by the state it leaves. *)
Definition slowquery_Build (threshold : Z) (duration : est → Z) : Middleware := λ next qc e,
  let '(e, res) := next qc e in
  if duration e <=? threshold then (e, res)
  else
    let '(e, r) := qc_Build qc e in
    match r with
    | Panic => (e, None)
    | Err _ => (e, res)
    | Ok q => (mkE (e_w e) (e_b e) (e_h e) (e_log e ++ [q]), res)
    end.
(** The span's attributes are what is logged. *)
Definition opentelemetry_Build : Middleware := λ next qc e,
  let '(e, r) := qc_Build qc e in
  match r with
  | Panic => (e, None)
  | Err _ => next qc e
  | Ok q => next qc (mkE (e_w e) (e_b e) (e_h e) (e_log e ++ [q]))
  end.
End calls.
End exec.
Arguments est W : clear implicits.
Arguments QueryContext : clear implicits.
Arguments Handler W : clear implicits.
Arguments Middleware W : clear implicits.
Arguments core W : clear implicits.
Arguments hooks W : clear implicits.

(** ** Opening a database *)
Definition DBOption W := core W → core W.
Definition DBUseReflect {W} : DBOption W := λ c, mkCore (dialect c) NewReflectValue (middlewares c).
Definition DBWithDialect {W} (d : Dialect) : DBOption W := λ c, mkCore d (valCreator c) (middlewares c).
Definition DBWithMiddlewares {W} (ms : list (Middleware W)) : DBOption W := λ c, mkCore (dialect c) (valCreator c) ms.
Definition OpenDB {W} (opts : list (DBOption W)) : core W := foldl (λ c o, o c) (mkCore mysqlDialect NewUnsafeValue []) opts.

(** ** Transactions *)
Section tx.
Context {W Tx : Type}.
Context (begin : W → W * (orm_err + Tx)).
Context (commit rollback : Tx → W → W * option orm_err).

Definition BeginTx (w : W) : W * (orm_err + Tx) := begin w.
Definition Commit (tx : Tx) (w : W) : W * option orm_err := commit tx w.
Definition Rollback (tx : Tx) (w : W) : W * option orm_err := rollback tx w.

(** [DoTx]: the body may return an error or panic; after a panic the deferred
    function runs and the panic goes on. *)
Definition DoTx (fn : Tx → W → W * res orm_err unit) (w : W) : W * res orm_err unit :=
  match BeginTx w with
  | (w, inl e) => (w, Err e)
  | (w, inr tx) =>
      match fn tx w with
      | (w, Panic) => let '(w, _) := Rollback tx w in (w, Panic)
      | (w, Err e) =>
          let '(w, o) := Rollback tx w in
          (w, Err (match o with Some rb => ErrRollback e rb false | None => e end))
      | (w, Ok _) =>
          let '(w, o) := Commit tx w in
          (w, match o with Some e => Err e | None => Ok tt end)
      end
  end.
End tx.

(** ** Raw queries *)
Section raw.
Context {W : Type} (queryContext : W → string → list gval → W * (orm_err + Rows)).
Context (execContext : W → string → list gval → W * (orm_err + sqlResult)).
Context (convert : ftype → dbval → orm_err + gval) (cr : Creator).

(** What [model] points to. *)
Inductive target :=
| ToStruct (s : structdef) (v : svalue)
| ToSlice (s : structdef) (isPtr : bool) (vs : list svalue)
| ToBadSlice | ToOther | NoPointer.

(** The loop over the remaining rows. *)
Fixpoint fill_slice (s : structdef) (m : Model) (cols : orm_err + list string) (data : list (list dbval)) (vs : list svalue)
  : option (list svalue * option orm_err) :=
  match data with
  | [] => Some (vs, None)
  | row :: data' =>
      match SetColumns convert cr s m cols row (new s) with
      | None => None
      | Some (_, Some err) => Some (vs, Some err)
      | Some (v, None) => fill_slice s m cols data' (vs ++ [v])
      end
  end.

Definition RawQuerier_Query (sql : string) (vals : list gval) (t : target) (r : registry) (w : W)
  : registry * W * option (target * Result) :=
  let bad := mkResult (Some (ErrOther "Raw Query")) None in
  match t with
  | NoPointer | ToBadSlice | ToOther => (r, w, Some (t, bad))
  | ToStruct s _ | ToSlice s _ _ =>
      let '(r, o) := registry_Get r (PtrStruct s) in
      match o with
      | inl err => (r, w, Some (t, mkResult (Some err) None))
      | inr m =>
          let '(w, x) := queryContext w sql vals in
          match x with
          | inl err => (r, w, Some (t, mkResult (Some err) None))
          | inr rows =>
              (r, w,
               match t with
               | ToStruct s v =>
                   match r_data rows with
                   | [] => Some (t, mkResult (Some (default ErrNoRows (r_iter rows))) None)
                   | row :: _ =>
                       match SetColumns convert cr s m (r_columns rows) row v with
                       | None => None
                       | Some (v, Some err) => Some (ToStruct s v, mkResult (Some err) None)
                       | Some (v, None) => Some (ToStruct s v, mkResult None None)
                       end
                   end
               | ToSlice s p vs =>
                   match fill_slice s m (r_columns rows) (r_data rows) vs with
                   | None => None
                   | Some (vs, Some err) => Some (ToSlice s p vs, mkResult (Some err) None)
                   | Some (vs, None) => Some (ToSlice s p vs, mkResult (r_iter rows) None)
                   end
               | _ => None
               end)
          end
      end
  end.
Definition RawQuerier_Exec (sql : string) (vals : list gval) (w : W) : W * (orm_err + sqlResult) := execContext w sql vals.
End raw.
