(* ===== verification/OrmExecFacts.v ===== *)
(** * Correctness of executing the ORM's statements *)

From S2P Require Import Prelude GoStrings OrmModel OrmModelFacts OrmBuilder OrmQuery OrmQueryFacts OrmTextFacts OrmExec.
Local Open Scope Z_scope.

(** ** Inserting in chunks *)
Section chunked.
Context {W : Type} (execContext : W → string → list gval → W * (orm_err + sqlResult)).
(** A driver's results answer without panicking. *)
Definition driver_ok : Prop := ∀ w s vs w' r, execContext w s vs = (w', inr r) → RowsAffected r ≠ Panic ∧ LastInsertId r ≠ Panic.

Context (d : Dialect) (cr : Creator) (s : structdef) (m : Model) (h : store) (now : Z).

(** The statements one after the other, up to the first that fails. *)
Fixpoint insert_all (fields : list Field) (chunks : list (list ptr)) (rows last : Z) (w : W) : W * (orm_err + Z * Z) :=
  match chunks with
  | [] => (w, inr (rows, last))
  | chunk :: chunks' =>
      match execContext w (insert_text d m fields (length chunk) +:+ ";") (insert_args cr s h m fields chunk) with
      | (w, inl e) => (w, inl e)
      | (w, inr r) =>
          insert_all fields chunks' (match RowsAffected r with Ok n => i64 (rows + n) | _ => rows end)
            (match LastInsertId r with Ok n => n | _ => last end) w
      end
  end.

Definition chunk_result (o : orm_err + Z * Z) : QueryResult :=
  match o with
  | inl e => mkQR (RSql (as_sql (mkResult (Some e) None))) (Some e)
  | inr (rows, last) => mkQR (RSql (mkSR (Ok rows) (Ok last))) None
  end.

Lemma execChunks_spec i fields : driver_ok → typed s h → parseModel (PtrStruct s) = inr m →
  insert_fields m (i_columns i) = Ok fields → i_upsert i = None →
  ∀ chunks rows last e, e_h e = h → reg_ok (reg (e_b e)) → Forall (λ c, c ≠ [] ∧ Forall (live cr s h) c) chunks →
  ∃ e', execChunks execContext (mkCore d cr []) (PtrStruct s) now i m chunks rows last e
        = (e', Some (chunk_result (insert_all fields chunks rows last (e_w e)).2)) ∧
        e_w e' = (insert_all fields chunks rows last (e_w e)).1 ∧ e_h e' = h ∧ reg_ok (reg (e_b e')).
Proof.
  intros Hdr Hty Hp Hf Hu. induction chunks as [|chunk chunks IH]; intros rows last e He Hr Hl; [by exists e|].
  apply Forall_cons in Hl as [[Hne Hlc] Hl]. cbn [execChunks insert_all]. unfold qc_Build at 1.
  cbn [qc_QueryBuilder dialect valCreator Build reset_sql e_h e_b e_w e_log]. rewrite He.
  destruct (insert_writes d cr s h m Hty Hp (with_values i chunk) fields "" [] (mkB "" (args (e_b e)) (reg (e_b e)))) as (r' & Hr' & ->);
    [done|done|done|by cbn; rewrite Hu|done|].
  cbn [sqlStrBuilder with_values i_values]. rewrite app_nil_l, (app_nil_l ";"), app_nil_r.
  unfold exec, chain, execHandler, qc_Build. cbn [middlewares chain_from length qc_QueryBuilder Build ret e_b e_w e_h e_log SQL Args].
  destruct (execContext (e_w e) _ _) as [w [err|r]] eqn:Ex; cbn [e_b e_h e_w e_log Error Result_].
  - eexists. split; [reflexivity|]. done.
  - destruct (Hdr _ _ _ _ _ Ex) as [H1 H2]. cbn [as_sql RowsAffected LastInsertId Result_RowsAffected Result_LastInsertId r_err r_res].
    destruct (RowsAffected r) as [n|er|], (LastInsertId r) as [id|el|]; try done; by apply IH.
Qed.
End chunked.

(** ** Defaults filled in before inserting *)
Section fill.
Context (g : svalue → svalue).
Definition fill1 (h : store) (p : ptr) : store := match deref h p with Some v => set_at h p (g v) | None => h end.
Definition fill (ps : list ptr) (h : store) : store := foldl fill1 h ps.

Lemma fill1_lookup h p a : fill1 h p !! a = if bool_decide (p = Some a) then g <$> h !! a else h !! a.
Proof.
  unfold fill1, deref. destruct p as [b|]; cbn [mbind option_bind]; [|by rewrite bool_decide_false].
  case_bool_decide as Hb.
  - injection Hb as ->. destruct (h !! a) as [v|] eqn:E; cbn [set_at]; [by rewrite lookup_insert_eq|by rewrite E].
  - destruct (h !! b) as [v|]; cbn [set_at]; [|done]. rewrite lookup_insert_ne; [done|congruence].
Qed.
(** Pointers given twice are filled once. *)
Lemma fill_lookup : (∀ v, g (g v) = g v) → ∀ ps h a, fill ps h !! a = if bool_decide (Some a ∈ ps) then g <$> h !! a else h !! a.
Proof.
  intros Hg. induction ps as [|p ps IH]; intros h a; [done|]. cbn [fill foldl]. fold (fill ps (fill1 h p)). rewrite IH, fill1_lookup.
  destruct (decide (p = Some a)) as [->|Hp].
  - rewrite !(bool_decide_true (_ = _)), (bool_decide_true (Some a ∈ Some a :: ps)) by (done || left).
    case_bool_decide; [|done]. destruct (h !! a); cbn; [by rewrite Hg|done].
  - rewrite !(bool_decide_false (p = Some a)) by done. rewrite (bool_decide_ext (Some a ∈ p :: ps) (Some a ∈ ps)); [done|].
    rewrite elem_of_cons. split; [intros [?|?]; [congruence|done]|by right].
Qed.
Lemma fill_typed s ps h : (∀ v, length (g v) = length v) → typed s h → typed s (fill ps h).
Proof.
  intros Hg. revert h. induction ps as [|p ps IH]; intros h Hty; [done|]. apply IH. destruct Hty as [Hn Hl]. split; [done|].
  intros a v. rewrite fill1_lookup. case_bool_decide; [|apply Hl]. intros (v0 & Hv & ->)%fmap_Some. rewrite Hg. by eapply Hl.
Qed.
Lemma fill_live cr s ps h p : live cr s h p → live cr s (fill ps h) p.
Proof.
  assert (∀ h p0, live cr s h p → live cr s (fill1 h p0) p) as H1.
  { intros h0 p0 [Hd Hr]. assert (is_Some (deref (fill1 h0 p0) p)) as Hs.
    { unfold deref in *. destruct p as [a|]; [|done]. cbn [mbind option_bind] in *. rewrite fill1_lookup.
      case_bool_decide; [by apply fmap_is_Some|done]. }
    split; [done|]. unfold readable in *. destruct cr; [done|]. by destruct Hr. }
  revert h. induction ps as [|q ps IH]; intros h Hl; [done|]. apply IH. by apply H1.
Qed.
End fill.

Section defaults.
Context (s : structdef) (m : Model) (now : Z).
Context (Hnd : NoDup (map f_Name (s_Fields s))) (Hp : parseModel (PtrStruct s) = inr m).

(** What the two loops do to one value. *)
Definition stamp (t : ftype) : gval := match t with FPtrTime => VPtrTime (Some now) | _ => VTime now end.
Definition one (t : ftype) : gval := match t with FUint w => VUint w 1 | FInt w => VInt w 1 | _ => VNil end.
Definition default_at (i : nat) (t : ftype) (x : gval) (v : svalue) : svalue :=
  match v !! i with Some y => if is_zero t y then <[i := x]> v else v | None => v end.

Lemma default_at_length i t x v : length (default_at i t x v) = length v.
Proof. unfold default_at. destruct (v !! i) as [y|]; [|done]. destruct (is_zero t y); [by rewrite length_insert|done]. Qed.
Lemma default_at_idem i t x v : is_zero t x = false → default_at i t x (default_at i t x v) = default_at i t x v.
Proof.
  intros Hx. unfold default_at. destruct (v !! i) as [y|] eqn:Ey; [|by rewrite Ey]. destruct (is_zero t y) eqn:Ez; [|by rewrite Ey, Ez].
  rewrite list_lookup_insert_eq by (by eapply lookup_lt_Some). by rewrite Hx.
Qed.

(** A field of the model as a field of the struct. *)
Definition settable (i : nat) (f : Field) (t : ftype) : Prop :=
  Fields m !! i = Some f ∧ ∃ sf, s_Fields s !! i = Some sf ∧ f_Type sf = t ∧ f_exported sf = true.

Lemma fill_version_spec i f t h ps : settable i f t → (∃ w, 2 <= w ∧ (t = FInt w ∨ t = FUint w)) → typed s h →
  Forall (λ p, is_Some (deref h p)) ps →
  fill_version (PtrStruct s) f ps h = (fill (default_at i t (one t)) ps h, Ok tt).
Proof.
  intros [Hf (sf & Hsf & Ht & Hex)] (w & Hw & Hkind). destruct (parseModel_ok s m Hnd Hp) as [Hm E].
  revert h. induction ps as [|p ps IH]; intros h Hty Hps; [done|]. apply Forall_cons in Hps as [[v Hv] Hps]. cbn [fill_version fill foldl].
  destruct (FieldByName_index s m i f Hnd E Hf) as (sf' & Hsf' & Hfn). rewrite Hsf in Hsf'. injection Hsf' as <-.
  assert (setIntFieldIfZero s (Some v) f 1 = Ok (default_at i t (one t) v)) as Hset.
  { unfold setIntFieldIfZero, default_at, index_or_panic. rewrite Hfn, Hex. cbn [negb].
    destruct p as [a|]; [|done]. destruct (lookup_lt_is_Some_2 v i) as [y Hy].
    { rewrite (ty_store s h Hty a v Hv). by eapply lookup_lt_Some. }
    rewrite Hy. cbn [res_bind]. rewrite Ht. destruct (is_zero t y); [|done]. cbn [negb].
    assert (2 <= 2 ^ (w - 1)) by (rewrite <- (Z.pow_1_r 2) at 1; apply Z.pow_le_mono_r; lia).
    assert (2 ^ (w - 1) <= 2 ^ w) by (apply Z.pow_le_mono_r; lia).
    destruct Hkind as [-> | ->]; cbn [one]; [rewrite wraps_small by lia|rewrite wrapu_small by lia]; done. }
  cbn [struct_of]. rewrite Hv, Hset. unfold fill1. rewrite Hv. apply IH.
  - pose proof (fill_typed (default_at i t (one t)) s [p] h (λ v, default_at_length i t (one t) v) Hty) as H. cbn [fill foldl] in H.
    unfold fill1 in H. by rewrite Hv in H.
  - eapply Forall_impl; [exact Hps|]. intros p' Hd.
    pose proof (fill_live (default_at i t (one t)) NewUnsafeValue s [p] h p' (conj Hd I)) as [H _]. cbn [fill foldl] in H.
    unfold fill1 in H. by rewrite Hv in H.
Qed.
Lemma fill_created_spec i f t h ps : settable i f t → t ∈ [FTime; FPtrTime; FAny] → typed s h →
  Forall (λ p, is_Some (deref h p)) ps →
  fill_created (PtrStruct s) now f ps h = (fill (default_at i t (stamp t)) ps h, Ok tt).
Proof.
  intros [Hf (sf & Hsf & Ht & Hex)] Hkind. destruct (parseModel_ok s m Hnd Hp) as [Hm E].
  revert h. induction ps as [|p ps IH]; intros h Hty Hps; [done|]. apply Forall_cons in Hps as [[v Hv] Hps]. cbn [fill_created fill foldl].
  destruct (FieldByName_index s m i f Hnd E Hf) as (sf' & Hsf' & Hfn). rewrite Hsf in Hsf'. injection Hsf' as <-.
  destruct p as [a|]; [|done]. destruct (lookup_lt_is_Some_2 v i) as [y Hy].
  { rewrite (ty_store s h Hty a v Hv). by eapply lookup_lt_Some. }
  assert (isFieldZero s (Some v) f = Ok (is_zero t y)) as Hz
    by (unfold isFieldZero, index_or_panic; rewrite Hfn, Hy; cbn; by rewrite Ht).
  assert (setTimestampField s (Some v) f now = Ok (<[i := stamp t]> v)) as Hset.
  { unfold setTimestampField. rewrite Hfn, Hex, Ht. cbn [negb]. rewrite !elem_of_cons, elem_of_nil in Hkind.
    destruct Hkind as [-> |[-> |[-> |[]]]]; done. }
  pose proof (fill_typed (default_at i t (stamp t)) s [Some a] h (λ v, default_at_length i t (stamp t) v) Hty) as Hty'.
  assert (Forall (λ p, is_Some (deref (fill (default_at i t (stamp t)) [Some a] h) p)) ps) as Hps'.
  { eapply Forall_impl; [exact Hps|]. intros p' Hd. by apply (fill_live _ NewUnsafeValue s [Some a] h p' (conj Hd I)). }
  cbn [fill foldl] in Hty', Hps'. cbn [struct_of]. rewrite Hv, Hz. specialize (IH _ Hty' Hps').
  assert (fill1 (default_at i t (stamp t)) h (Some a) = if is_zero t y then set_at h (Some a) (<[i := stamp t]> v) else h) as E1.
  { unfold fill1. rewrite Hv. unfold default_at. rewrite Hy. destruct (is_zero t y); [done|]. cbn [set_at]. by apply insert_id. }
  rewrite E1 in *. destruct (is_zero t y); [rewrite Hset|]; exact IH.
Qed.
End defaults.

(** ** Inserter.Exec *)
Definition no_hooks {W} : hooks W := mkHooks None None None None None None.

Lemma run_hook_none {W} ps (e : est W) : run_hook None ps e = (e, None).
Proof. by destruct ps. Qed.

(** How the special fields are declared, if they are. *)
Record fillable (s : structdef) (m : Model) : Prop := {
  fl_created : match CreatedAtField m with
               | None => True
               | Some i => ∃ f t, settable s m i f t ∧ t ∈ [FTime; FPtrTime; FAny]
               end;
  fl_version : match VersionField m with
               | None => True
               | Some i => ∃ f t, settable s m i f t ∧ ∃ w, 2 <= w ∧ (t = FInt w ∨ t = FUint w)
               end }.
(** The value as it is inserted. *)
Definition type_at (s : structdef) (i : nat) : ftype := match s_Fields s !! i with Some sf => f_Type sf | None => FAny end.
Definition with_defaults (s : structdef) (m : Model) (now : Z) (v : svalue) : svalue :=
  let v := match CreatedAtField m with Some i => default_at i (type_at s i) (stamp now (type_at s i)) v | None => v end in
  match VersionField m with Some i => default_at i (type_at s i) (one (type_at s i)) v | None => v end.
Definition filled (s : structdef) (m : Model) (now : Z) (ps : list ptr) (h : store) : store :=
  let h := match CreatedAtField m with Some i => fill (default_at i (type_at s i) (stamp now (type_at s i))) ps h | None => h end in
  match VersionField m with Some i => fill (default_at i (type_at s i) (one (type_at s i))) ps h | None => h end.

Lemma filled_lookup s m now ps h a : now ≠ 0 → fillable s m →
  filled s m now ps h !! a = if bool_decide (Some a ∈ ps) then with_defaults s m now <$> h !! a else h !! a.
Proof.
  intros Hnow [Hc Hv]. unfold filled, with_defaults.
  assert (∀ t, is_zero t (stamp now t) = false) as Hst by (intros []; cbn [is_zero stamp]; first [by apply Z.eqb_neq|by rewrite bool_decide_false]).
  destruct (VersionField m) as [j|].
  - assert (is_zero (type_at s j) (one (type_at s j)) = false) as Hone.
    { destruct Hv as (f & t & [_ (sf & Hsf & Ht & _)] & w & _ & Hw). unfold type_at. rewrite Hsf, Ht. by destruct Hw as [-> | ->]. }
    rewrite fill_lookup by (intros; by apply default_at_idem). destruct (CreatedAtField m) as [i|]; [|done].
    rewrite fill_lookup by (intros; by apply default_at_idem). case_bool_decide; [|done]. by destruct (h !! a).
  - destruct (CreatedAtField m) as [i|].
    + rewrite fill_lookup by (intros; by apply default_at_idem). case_bool_decide; [|done]. by destruct (h !! a).
    + case_bool_decide; [|done]. by destruct (h !! a).
Qed.
Lemma filled_typed s m now ps h : typed s h → typed s (filled s m now ps h).
Proof.
  intros Hty. unfold filled. destruct (CreatedAtField m), (VersionField m); repeat apply fill_typed; try done; intros; apply default_at_length.
Qed.
Lemma filled_live cr s m now ps h p : live cr s h p → live cr s (filled s m now ps h) p.
Proof. intros Hl. unfold filled. destruct (CreatedAtField m), (VersionField m); by repeat apply fill_live. Qed.

Section insert_exec.
Context {W : Type} (execContext : W → string → list gval → W * (orm_err + sqlResult)).
Context (d : Dialect) (cr : Creator) (s : structdef) (m : Model) (now : Z).
Let c : core W := mkCore d cr [].

(** The batches a call sends. *)
Definition batches (i : Inserter) : list (list ptr) :=
  if (0 <? i_chunkSize i) && (i_chunkSize i <? Z.of_nat (length (i_values i)))
  then splitChunk (i_values i) (i_chunkSize i) else [i_values i].

Lemma batches_spec i : i_values i ≠ [] → concat (batches i) = i_values i ∧
  Forall (λ b, b ≠ [] ∧ (0 < i_chunkSize i → Z.of_nat (length b) <= i_chunkSize i)) (batches i).
Proof.
  intros Hne. unfold batches. destruct (Z.ltb_spec 0 (i_chunkSize i)) as [Hs|Hs], (Z.ltb_spec (i_chunkSize i) (Z.of_nat (length (i_values i))));
    cbn [andb]; [|split; [apply app_nil_r|]; repeat constructor; [done|lia]..].
  destruct (splitChunk_spec (i_values i) (i_chunkSize i) Hs Hne) as (H1 & H2 & _). split; [done|].
  eapply Forall_impl; [exact H2|]. cbn. intros b [? ?]. by split.
Qed.

Lemma fills_spec ps h : fillable s m → parseModel (PtrStruct s) = inr m → typed s h → Forall (live cr s h) ps →
  let h1 := match CreatedAtField m with Some i => fill (default_at i (type_at s i) (stamp now (type_at s i))) ps h | None => h end in
  match field_at m (CreatedAtField m) with None => (h, Ok tt) | Some f => fill_created (PtrStruct s) now f ps h end = (h1, Ok tt) ∧
  match field_at m (VersionField m) with None => (h1, Ok tt) | Some f => fill_version (PtrStruct s) f ps h1 end
  = (filled s m now ps h, Ok tt).
Proof.
  intros [Hc Hv] Hp Hty Hl. cbn zeta. unfold filled. set (h1 := match CreatedAtField m with Some _ => _ | None => h end).
  assert (typed s h1 ∧ Forall (live cr s h1) ps) as [Hty1 Hl1].
  { unfold h1. destruct (CreatedAtField m); [|done]. split; [apply fill_typed; [intros; apply default_at_length|done]|].
    eapply Forall_impl; [exact Hl|]. intros. by apply fill_live. }
  assert (∀ h, Forall (live cr s h) ps → Forall (λ p, is_Some (deref h p)) ps) as Hd
    by (intros h' H'; eapply Forall_impl; [exact H'|]; by intros p [? _]).
  split.
  - unfold h1. destruct (CreatedAtField m) as [i|]; [|done]. destruct Hc as (f & t & [Hf Hsf] & Hk). unfold field_at. cbn [mbind option_bind].
    rewrite Hf. assert (type_at s i = t) as -> by (destruct Hsf as (sf & H1 & <- & _); unfold type_at; by rewrite H1).
    apply (fill_created_spec s m now (ty_names _ _ Hty) Hp); [by split|done|done|by apply Hd].
  - destruct (VersionField m) as [i|]; [|done]. destruct Hv as (f & t & [Hf Hsf] & Hk). unfold field_at. cbn [mbind option_bind].
    rewrite Hf. assert (type_at s i = t) as -> by (destruct Hsf as (sf & H1 & <- & _); unfold type_at; by rewrite H1).
    apply (fill_version_spec s m (ty_names _ _ Hty) Hp); [by split|done|done|by apply Hd].
Qed.
End insert_exec.

(** Executing an insert: missing creation times and versions are filled in, once
    per entity, and values set before are kept; then the statements are sent, all
    values in one or, when there are more than the chunk size, in batches of at most
    that size whose rows together are exactly the values in order; the first failing
    batch ends the call with its error and nothing after it is sent. *)
Theorem insert_exec {W} (execContext : W → string → list gval → W * (orm_err + sqlResult)) d cr s m now i fields e :
  driver_ok execContext → parseModel (PtrStruct s) = inr m → typed s (e_h e) → fillable s m → now ≠ 0 →
  i_values i ≠ [] → Forall (live cr s (e_h e)) (i_values i) → insert_fields m (i_columns i) = Ok fields → i_upsert i = None →
  reg_ok (reg (e_b e)) → sqlStrBuilder (e_b e) = "" →
  ∃ e' r, Inserter_Exec execContext (mkCore d cr []) (PtrStruct s) no_hooks now i e = (e', Some r) ∧
    (∀ a, e_h e' !! a = if bool_decide (Some a ∈ i_values i) then with_defaults s m now <$> e_h e !! a else e_h e !! a) ∧
    let sent := insert_all execContext d cr s m (e_h e') fields (batches i) 0 0 (e_w e) in
    e_w e' = sent.1 ∧ r_err r = match sent.2 with inl err => Some err | inr _ => None end ∧
    concat (batches i) = i_values i ∧
    Forall (λ b, b ≠ [] ∧ (0 < i_chunkSize i → Z.of_nat (length b) <= i_chunkSize i)) (batches i) ∧ reg_ok (reg (e_b e')) ∧
    if (0 <? i_chunkSize i) && (i_chunkSize i <? Z.of_nat (length (i_values i)))
    then ∀ n last, sent.2 = inr (n, last) → Result_RowsAffected r = Ok n
    else ∀ w x, execContext (e_w e) (insert_text d m fields (length (i_values i)) +:+ ";") (insert_args cr s (e_h e') m fields (i_values i)) = (w, inr x) →
         Result_RowsAffected r = RowsAffected x.
Proof.
  intros Hdr Hp Hty Hfl Hnow Hne Hl Hf Hu Hr Hs. destruct (batches_spec i Hne) as [Hb1 Hb2].
  unfold Inserter_Exec, lookup_model. destruct (registry_Get_spec (reg (e_b e)) (PtrStruct s) Hr) as [Hr' Hg].
  destruct (registry_Get (reg (e_b e)) (PtrStruct s)) as [r' o]. cbn [fst snd] in Hr', Hg. subst o. rewrite Hp.
  cbn [BeforeInsert no_hooks]. rewrite run_hook_none. cbn [e_h e_b e_w e_log].
  destruct (fills_spec cr s m now (i_values i) (e_h e) Hfl Hp Hty Hl) as [E1 E2]. rewrite E1. unfold with_store.
  cbn [fst snd e_h e_b e_w e_log]. rewrite E2. cbn [fst snd e_h e_b e_w e_log].
  set (h2 := filled s m now (i_values i) (e_h e)) in *.
  assert (typed s h2) as Hty2 by (by apply filled_typed).
  assert (Forall (live cr s h2) (i_values i)) as Hl2 by (eapply Forall_impl; [exact Hl|]; intros; by apply filled_live).
  assert (∀ a, h2 !! a = if bool_decide (Some a ∈ i_values i) then with_defaults s m now <$> e_h e !! a else e_h e !! a) as Hh
    by (intros a; by apply filled_lookup).
  unfold batches in *. destruct ((0 <? i_chunkSize i) && _).
  - unfold execChunked.
    destruct (execChunks_spec execContext d cr s m h2 now i fields Hdr Hty2 Hp Hf Hu (splitChunk (i_values i) (i_chunkSize i)) 0 0
      (mkE (e_w e) (mkB (sqlStrBuilder (e_b e)) (args (e_b e)) r') h2 (e_log e))) as (e' & -> & Hw & Hh' & Hr2); [done|done| |].
    { apply Forall_forall. intros b Hb. eapply Forall_forall in Hb2 as [? _]; [|done]. split; [done|].
      rewrite <- Hb1, Forall_concat in Hl2. by eapply Forall_forall in Hl2. }
    cbn [e_w] in *. destruct (insert_all _ _ _ _ _ _ _ _ _ _ _) as [w [err|[rows last]]] eqn:Ei;
      cbn [chunk_result Result_ sql_of Error AfterInsert no_hooks]; rewrite ?run_hook_none;
      (do 2 eexists; split; [reflexivity|]); rewrite Hh', Ei; cbn [fst snd r_err]; split_and!; try done; by intros ? ? [= <- <-].
  - unfold exec, chain. cbn [middlewares length chain_from]. unfold execHandler, qc_Build.
    cbn [qc_QueryBuilder dialect valCreator Build e_h e_b e_w e_log].
    destruct (insert_writes d cr s h2 m Hty2 Hp i fields "" [] (mkB (sqlStrBuilder (e_b e)) (args (e_b e)) r')) as (r2 & Hr2 & ->);
      [done|done|done|by rewrite Hu|done|].
    cbn [sqlStrBuilder SQL Args e_h e_b e_w e_log]. rewrite Hs, app_nil_l, (app_nil_l ";"), app_nil_r.
    cbn [insert_all e_h]. destruct (execContext (e_w e) _ _) as [w [err|x]] eqn:Ex;
      cbn [Result_ sql_of Error AfterInsert no_hooks e_w e_h e_b e_log]; rewrite ?run_hook_none;
      (do 2 eexists; split; [reflexivity|]); cbn [e_h e_w r_err]; rewrite Ex; split_and!; try done; by intros ? ? [= <- <-].
Qed.
(** A table with all automatic fields, two rows, and a database that logs. *)
Definition wBook : structdef := mkStruct 4 "Book"
  [mkSF "Id" None (FInt 64) true; mkSF "Title" None (FOther "string") true; mkSF "CreatedAt" None FTime true;
   mkSF "Version" None (FInt 64) true] None.
Definition wBookModel : Model := match parseModel (PtrStruct wBook) with inr m => m | inl _ => emptyModel end.
Definition wBooks : store := {[ 1%nat := [VInt 64 7; VStr "A"; VTime 0; VInt 64 0]; 2%nat := [VInt 64 8; VStr "B"; VTime 3; VInt 64 5] ]}.
Definition wDB := list (string * list gval).
Definition wExec (rows : Z) (w : wDB) (s : string) (vs : list gval) : wDB * (orm_err + sqlResult) :=
  (w ++ [(s, vs)], inr (mkSR (Ok rows) (Ok 1))).
Definition wStart : est wDB := mkE [] fresh wBooks [].
Definition wIns : Inserter := ChunkSize (Values NewInserter [Some 1%nat; Some 2%nat]) 1.

Lemma wBook_model : parseModel (PtrStruct wBook) = inr wBookModel.
Proof. by vm_compute. Qed.
Lemma wBook_typed : typed wBook wBooks.
Proof.
  split; [apply (bool_decide_unpack _); by vm_compute|]. intros a v. unfold wBooks.
  intros [[<- <-]|[_ [<- <-]%lookup_singleton_Some]]%lookup_insert_Some; done.
Qed.
Lemma wBook_fillable : fillable wBook wBookModel.
Proof.
  split.
  - change (CreatedAtField wBookModel) with (Some 2%nat). exists (mkField "created_at" "CreatedAt" FTime), FTime. split; [|left].
    split; [by vm_compute|]. exists (mkSF "CreatedAt" None FTime true). done.
  - change (VersionField wBookModel) with (Some 3%nat). exists (mkField "version" "Version" (FInt 64)), (FInt 64).
    split; [|exists 64; split; [lia|by left]]. split; [by vm_compute|]. exists (mkSF "Version" None (FInt 64) true). done.
Qed.
Lemma wBook_live p : p ∈ [Some 1%nat; Some 2%nat] → live NewUnsafeValue wBook wBooks p.
Proof. rewrite !elem_of_cons, elem_of_nil. intros [-> |[-> |[]]]; split; try done; by eexists. Qed.

Lemma insert_exec_witness : ∃ e' r,
  Inserter_Exec (wExec 1) (mkCore mysqlDialect NewUnsafeValue []) (PtrStruct wBook) no_hooks 9 wIns wStart = (e', Some r) ∧
  e_h e' !! 1%nat = Some [VInt 64 7; VStr "A"; VTime 9; VInt 64 1] ∧ e_h e' !! 2%nat = Some [VInt 64 8; VStr "B"; VTime 3; VInt 64 5].
Proof.
  destruct (insert_exec (wExec 1) mysqlDialect NewUnsafeValue wBook wBookModel 9 wIns (Fields wBookModel) wStart) as (e' & r & H1 & H2 & _).
  - intros w s vs w' x [= _ <-]. done.
  - apply wBook_model.
  - apply wBook_typed.
  - apply wBook_fillable.
  - done.
  - done.
  - apply Forall_forall. intros p. apply wBook_live.
  - done.
  - done.
  - apply reg_ok_new.
  - done.
  - exists e', r. split; [exact H1|]. rewrite !H2. split; by vm_compute.
Defined.

(** ** Updater.Exec and the optimistic lock *)

(** Saving an instance of a versioned entity: one statement is sent.  It assigns
    every field but the version from the instance (after the time of update was
    set), counts the version up in the database, and is guarded by the version that
    the instance holds, which is its last argument.  If it affects no row the call
    fails with the lock conflict; its own errors are passed on; otherwise the
    driver's row count is the result. *)
Theorem update_exec {W} (execContext : W → string → list gval → W * (orm_err + sqlResult)) d cr s m now u a v i vf z k sw vw h e :
  driver_ok execContext → parseModel (PtrStruct s) = inr m → u_assigns_ u = [] → u_val u = Some a →
  touch (PtrStruct s) now m u (e_h e) = (h, Ok u) → typed s h → h !! a = Some v → readable cr s h (Some a) →
  VersionField m = Some i → Fields m !! i = Some vf → v !! i = Some z →
  (match z with VInt _ n => Some n | VUint _ n => Some (i64 n) | _ => None end) = Some k →
  where_text (dialect_quoter d) m (u_where u) = Some (sw, vw) → reg_ok (reg (e_b e)) → sqlStrBuilder (e_b e) = "" → args (e_b e) = [] →
  let sent := execContext (e_w e) (update_text d m u vf sw)
    (oks (row_args cr s h m (plain_fields m (Fields m)) (Some a)) ++ vw ++ [VInt 64 k]) in
  ∃ e' r, Updater_Exec execContext (mkCore d cr []) (PtrStruct s) no_hooks now u e = (e', Some r) ∧
    e_w e' = sent.1 ∧ e_h e' = h ∧ reg_ok (reg (e_b e')) ∧
    match sent.2 with
    | inl err => r_err r = Some err
    | inr x => match RowsAffected x with
               | Ok 0 => r_err r = Some ErrOptimisticLock
               | n => r_err r = None ∧ Result_RowsAffected r = n
               end
    end.
Proof.
  intros Hdr Hp Has Hval Ht Hty Hv Hrd Hvi Hvf Hz Hk Hw Hr Hs Ha. cbn zeta. unfold Updater_Exec, lookup_model.
  destruct (registry_Get_spec (reg (e_b e)) (PtrStruct s) Hr) as [Hr' Hg].
  destruct (registry_Get (reg (e_b e)) (PtrStruct s)) as [r' o]. cbn [fst snd] in Hr', Hg. subst o. rewrite Hp.
  cbn [BeforeUpdate no_hooks]. rewrite run_hook_none. cbn [e_h e_b e_w e_log]. rewrite Ht. cbn [e_h e_b e_w e_log].
  unfold exec, chain. cbn [middlewares length chain_from]. unfold execHandler, qc_Build.
  cbn [qc_QueryBuilder dialect valCreator Build e_h e_b e_w e_log].
  destruct (update_writes d cr s h m Hty Hp u a v i vf k z sw vw (mkB (sqlStrBuilder (e_b e)) (args (e_b e)) r')
    Has Hval Hv Hrd Hvi Hvf Hz Hk Hw Hr') as (r2 & Hr2 & ->).
  cbn [sqlStrBuilder args SQL Args e_h e_b e_w e_log]. rewrite Hs, Ha, app_nil_l, List.app_nil_l.
  destruct (execContext (e_w e) _ _) as [w [err|x]] eqn:Ex; cbn [Result_ sql_of Error e_w e_h e_b e_log fst snd].
  - by do 2 eexists.
  - assert (field_at m (VersionField m) = Some vf) as -> by (unfold field_at; by rewrite Hvi). rewrite Hval.
    cbn [as_sql RowsAffected Result_RowsAffected r_err r_res]. destruct (Hdr _ _ _ _ _ Ex) as [Hpan _].
    destruct (RowsAffected x) as [n|er|] eqn:En; [|by do 2 eexists|done].
    destruct (decide (n = 0)) as [->|Hn]; [by do 2 eexists|].
    cbn [AfterUpdate no_hooks]. rewrite run_hook_none. destruct n; [done|by do 2 eexists..].
Qed.
Definition wUpd : Updater := Updater_Where (Update NewUpdater (Some 2%nat)) [Column_EQ (Col "Id") (AVal (VInt 64 8))].
Lemma update_exec_witness : ∃ e' r,
  Updater_Exec (wExec 0) (mkCore mysqlDialect NewUnsafeValue []) (PtrStruct wBook) no_hooks 9 wUpd wStart = (e', Some r) ∧
  r_err r = Some ErrOptimisticLock ∧
  e_w e' = [("UPDATE `book` SET `id`=?,`title`=?,`created_at`=?,`version`=`version`+1 WHERE `id` = ? AND `version`=?;",
             [VInt 64 8; VStr "B"; VTime 3; VInt 64 8; VInt 64 5])].
Proof.
  destruct (update_exec (wExec 0) mysqlDialect NewUnsafeValue wBook wBookModel 9 wUpd 2 [VInt 64 8; VStr "B"; VTime 3; VInt 64 5] 3
    (mkField "version" "Version" (FInt 64)) (VInt 64 5) 5 " WHERE `id` = ?" [VInt 64 8] wBooks wStart) as (e' & r & H1 & H2 & _ & _ & H3).
  - intros w s vs w' x [= _ <-]. done.
  - apply wBook_model.
  - done.
  - done.
  - by vm_compute.
  - apply wBook_typed.
  - by vm_compute.
  - done.
  - by vm_compute.
  - by vm_compute.
  - done.
  - done.
  - by vm_compute.
  - apply reg_ok_new.
  - done.
  - done.
  - exists e', r. split; [exact H1|]. split; [exact H3|]. rewrite H2. by vm_compute.
Defined.

(** ** Transactions

    What the code relies on: a transaction starts from the durable state, its work
    stays private to it until it is committed, what was not committed never becomes
    durable.  After a failed commit it is not known whether it took effect; it did as
    a whole or not at all. *)
Class Transactional {W Tx D} (durable : W → D) (private_ : Tx → W → D)
  (begin : W → W * (orm_err + Tx)) (commit rollback : Tx → W → W * option orm_err) := {
  begin_ok : ∀ w w' tx, begin w = (w', inr tx) → durable w' = durable w ∧ private_ tx w' = durable w;
  begin_fail : ∀ w w' e, begin w = (w', inl e) → durable w' = durable w;
  commit_ok : ∀ tx w w', commit tx w = (w', None) → durable w' = private_ tx w;
  commit_fail : ∀ tx w w' e, commit tx w = (w', Some e) → durable w' = durable w ∨ durable w' = private_ tx w;
  rollback_any : ∀ tx w w' o, rollback tx w = (w', o) → durable w' = durable w }.

(** C22: [DoTx] with a body that works only inside its transaction.  The call succeeds
    exactly when the transaction began, the body returned without error and the commit
    was confirmed, and then the durable state is what the body made of the one at the
    start.  It panics exactly when the body panics.  When the transaction could not
    begin, or the body failed or panicked, the durable state is the one at the start.
    When only the commit failed, it is that or the whole of the body's work; the error
    does not tell which. *)
Theorem DoTx_atomic {W Tx D} (durable : W → D) (private_ : Tx → W → D) begin commit rollback
  `{!Transactional durable private_ begin commit rollback} (fn : Tx → W → W * res orm_err unit) (work : D → D) w :
  (∀ tx w, durable (fn tx w).1 = durable w ∧ ((fn tx w).2 = Ok tt → private_ tx (fn tx w).1 = work (private_ tx w))) →
  let r := DoTx begin commit rollback fn w in
  let body x := ∃ w1 tx, begin w = (w1, inr tx) ∧ (fn tx w1).2 = x in
  (r.2 = Ok tt ↔ ∃ w1 tx, begin w = (w1, inr tx) ∧ (fn tx w1).2 = Ok tt ∧ (commit tx (fn tx w1).1).2 = None) ∧
  (r.2 = Panic ↔ body Panic) ∧
  (r.2 = Ok tt → durable r.1 = work (durable w)) ∧
  (¬ body (Ok tt) → durable r.1 = durable w) ∧
  (durable r.1 = durable w ∨ durable r.1 = work (durable w)).
Proof.
  intros Hfn. cbn zeta. unfold DoTx, BeginTx, Commit, Rollback. destruct (begin w) as [w1 [e|tx]] eqn:Eb.
  { pose proof (begin_fail _ _ _ Eb). cbn [fst snd]. split_and!; [naive_solver..|by left]. }
  destruct (begin_ok w w1 tx Eb) as [H1 H2]. destruct (Hfn tx w1) as [H3 H4]. destruct (fn tx w1) as [w2 x] eqn:Ef. cbn [fst snd] in H3, H4.
  assert (∀ P : W → Tx → Prop, (∃ w' tx', (w1, inr (A := orm_err) tx) = (w', inr tx') ∧ P w' tx') ↔ P w1 tx) as Hbody by naive_solver.
  rewrite !Hbody, !Ef. cbn [fst snd]. destruct x as [[]|e|].
  - specialize (H4 eq_refl). rewrite H2 in H4. clear Hfn Hbody. destruct (commit tx w2) as [w3 [e|]] eqn:Ec; cbn [fst snd].
    + pose proof (commit_fail _ _ _ _ Ec) as Hc. split_and!; intuition congruence.
    + pose proof (commit_ok _ _ _ Ec) as Hc. split_and!; intuition congruence.
  - clear Hfn Hbody H4. destruct (rollback tx w2) as [w3 o] eqn:Er. pose proof (rollback_any _ _ _ _ Er) as Hc. cbn [fst snd].
    split_and!; intuition congruence.
  - clear Hfn Hbody H4. destruct (rollback tx w2) as [w3 o] eqn:Er. pose proof (rollback_any _ _ _ _ Er) as Hc. cbn [fst snd].
    split_and!; intuition congruence.
Qed.
(** A database with one counter and one open transaction; a commit of a negative
    number is refused, one of zero loses its answer. *)
Definition pair_commit (_ : unit) (w : Z * Z) : (Z * Z) * option orm_err :=
  if w.2 <? 0 then (w, Some (ErrOther "refused")) else ((w.2, w.2), if w.2 =? 0 then Some (ErrOther "lost") else None).
#[export] Instance pair_transactional : Transactional (W := Z * Z) (Tx := unit) fst (λ _ w, w.2)
  (λ w, ((w.1, w.1), inr tt)) pair_commit (λ _ w, (w, None)).
Proof.
  split; try done; unfold pair_commit; [intros; by simplify_eq/=|intros tx w w'; repeat case_match; intros; by simplify_eq/=
    |intros tx w w' e; repeat case_match; intros; simplify_eq/=; auto|intros; by simplify_eq/=].
Qed.
Definition pair_run (d : Z) : (Z * Z) → (Z * Z) * res orm_err unit :=
  DoTx (W := Z * Z) (λ w, ((w.1, w.1), inr tt)) pair_commit (λ _ w, (w, None)) (λ (_ : unit) w, ((w.1, w.2 + d), Ok tt)).
Lemma DoTx_atomic_witness :
  fst (pair_run 1 (4, 0)).1 = 4 + 1 ∧ (fst (pair_run (-4) (4, 0)).1 = 4 ∨ fst (pair_run (-4) (4, 0)).1 = 4 + -4).
Proof.
  split.
  - apply (DoTx_atomic (D := Z) fst (λ _ w, w.2) (λ w, ((w.1, w.1), inr tt)) pair_commit (λ _ w, (w, None))
      (λ (_ : unit) w, ((w.1, w.2 + 1), Ok tt)) (λ x, x + 1) (4, 0)); [|done]. intros tx w. by split.
  - apply (DoTx_atomic (D := Z) fst (λ _ w, w.2) (λ w, ((w.1, w.1), inr tt)) pair_commit (λ _ w, (w, None))
      (λ (_ : unit) w, ((w.1, w.2 + -4), Ok tt)) (λ x, x + -4) (4, 0)). intros tx w. by split.
Defined.
