(* ===== verification/OrmRowsFacts.v ===== *)
(** * Correctness of mapping rows to entities, and of SELECT *)

From S2P Require Import Prelude GoStrings OrmModel OrmModelFacts OrmBuilder OrmQuery OrmQueryFacts OrmTextFacts OrmExec OrmExecFacts.
Local Open Scope Z_scope.

Section rows.
Context (convert : ftype → dbval → orm_err + gval).

Lemma column_fields_spec m cols dests : column_fields m cols = inr dests →
  Forall2 (λ c p, ColumnMap m !! c = Some p.1 ∧ Fields m !! p.1 = Some p.2) cols dests.
Proof.
  revert dests. induction cols as [|c cols IH]; intros dests; cbn [column_fields]; [intros [= <-]; constructor|].
  destruct (ColumnMap m !! c) as [i|] eqn:Ei; [|done]. destruct (Fields m !! i) as [f|] eqn:Ef; [|by destruct (column_fields m cols)].
  destruct (column_fields m cols) as [e|l]; [done|]. intros [= <-]. constructor; [done|by apply IH].
Qed.

(** What a successful scan leaves. *)
Lemma scan_into_spec dests : ∀ row v v', scan_into convert dests row v = (v', None) → NoDup (map fst dests) →
  Forall (λ p, (p.1 < length v)%nat) dests →
  length row = length dests ∧ length v' = length v ∧
  (∀ j i f x, dests !! j = Some (i, f) → row !! j = Some x → ∃ y, convert (Type_ f) x = inr y ∧ v' !! i = Some y) ∧
  (∀ i, i ∉ map fst dests → v' !! i = v !! i).
Proof.
  induction dests as [|[i f] dests IH]; intros [|x row] v v' E Hnd Hlt; cbn [scan_into] in E; [by injection E as <-|done|done|].
  destruct (convert (Type_ f) x) as [e|y] eqn:Ec; [done|]. apply NoDup_cons in Hnd as [Hni Hnd]. apply Forall_cons in Hlt as [Hi Hlt].
  destruct (IH row (<[i := y]> v) v' E Hnd) as (H1 & H2 & H3 & H4).
  { eapply Forall_impl; [exact Hlt|]. intros p. by rewrite length_insert. }
  rewrite length_insert in H2. split_and!; [cbn; lia|done| |].
  - intros [|j] i' f' x'; [|apply H3]. cbn. intros [= <- <-] [= <-]. exists y. split; [done|].
    rewrite H4 by done. by rewrite list_lookup_insert_eq.
  - intros i' Hn. cbn in Hn. rewrite not_elem_of_cons in Hn. destruct Hn as [Hne Hn]. rewrite (H4 i' Hn). by rewrite list_lookup_insert_ne.
Qed.

(** The two ways to scan. *)
Lemma scan_agree s dests : (∀ i f, (i, f) ∈ dests → ∃ sf, FieldByName s (GoName f) = Some (i, sf) ∧ f_exported sf = true) →
  ∀ row v, match scan_values convert dests row with
           | inl e => ∃ v', scan_into convert dests row v = (v', Some e)
           | inr vals => ∃ v', scan_into convert dests row v = (v', None) ∧ set_fields s dests vals v = Some v'
           end.
Proof.
  induction dests as [|[i f] dests IH]; intros Hd [|x row] v; cbn [scan_values scan_into]; [by exists v|by exists v|by exists v|].
  destruct (convert (Type_ f) x) as [e|y]; [by exists v|]. specialize (IH ltac:(intros i' f' Hin; apply Hd; by right) row (<[i := y]> v)).
  destruct (scan_values convert dests row) as [e|vals]; [done|]. destruct IH as (v' & H1 & H2). exists v'. split; [done|].
  cbn [set_fields]. destruct (Hd i f) as (sf & -> & ->); [left|done].
Qed.

(** A failed scan into the fields' memory: a field is as it was or has its column. *)
Lemma scan_into_partial dests : ∀ row v v' o, scan_into convert dests row v = (v', o) →
  ∀ i, v' !! i = v !! i ∨ ∃ j f x y, dests !! j = Some (i, f) ∧ row !! j = Some x ∧ convert (Type_ f) x = inr y ∧ v' !! i = Some y.
Proof.
  induction dests as [|[i f] dests IH]; intros [|x row] v v' o E k; cbn [scan_into] in E; try (injection E as <- _; by left).
  destruct (convert (Type_ f) x) as [e|y] eqn:Ec; [injection E as <- _; by left|].
  destruct (IH _ _ _ _ E k) as [H|(j & f' & x' & y' & H)]; [|right; by exists (S j), f', x', y'].
  destruct (decide (i = k)) as [->|Hne]; [|left; rewrite H; by rewrite list_lookup_insert_ne].
  destruct (decide (k < length v)%nat) as [Hlt|Hge].
  - right. exists 0%nat, f, x, y. rewrite H. by rewrite list_lookup_insert_eq.
  - left. rewrite H. by rewrite list_insert_ge by lia.
Qed.
(** The reflective scan, on fields of which some may be unexported. *)
Lemma set_fields_exported s dests : (∀ i f, (i, f) ∈ dests → ∃ sf, s_Fields s !! i = Some sf ∧ FieldByName s (GoName f) = Some (i, sf)) →
  ∀ row vals v v', scan_values convert dests row = inr vals → scan_into convert dests row v = (v', None) →
  set_fields s dests vals v = (if forallb (λ p, match s_Fields s !! p.1 with Some sf => f_exported sf | None => false end) dests then Some v' else None).
Proof.
  induction dests as [|[i f] dests IH]; intros Hd [|x row] vals v v'; cbn [scan_values scan_into forallb set_fields]; try done.
  { by intros [= <-] [= <-]. }
  destruct (convert (Type_ f) x) as [e|y]; [done|]. destruct (scan_values convert dests row) as [e|ys] eqn:Ev; [done|]. intros [= <-] Es.
  destruct (Hd i f) as (sf & Hsf & Hfn); [left|]. rewrite Hfn. cbn [fst]. rewrite Hsf. destruct (f_exported sf); [|done]. cbn [andb].
  apply (IH ltac:(intros i' f' Hin; apply Hd; by right) row); done.
Qed.
(** Both scans fail together. *)
Lemma scan_same_error dests : ∀ row v,
  match scan_values convert dests row with
  | inl e => ∃ v', scan_into convert dests row v = (v', Some e)
  | inr vals => ∃ v', scan_into convert dests row v = (v', None)
  end.
Proof.
  induction dests as [|[i f] dests IH]; intros [|x row] v; cbn [scan_values scan_into]; [by exists v|by exists v|by exists v|].
  destruct (convert (Type_ f) x) as [e|y]; [by exists v|]. specialize (IH row (<[i := y]> v)). by destruct (scan_values convert dests row).
Qed.

Context (s : structdef) (m : Model).
Context (Hnd : NoDup (map f_Name (s_Fields s))) (Hp : parseModel (PtrStruct s) = inr m).

Lemma dests_fields cols dests i f : column_fields m cols = inr dests → (i, f) ∈ dests →
  ∃ sf, s_Fields s !! i = Some sf ∧ FieldByName s (GoName f) = Some (i, sf).
Proof.
  intros E Hin. destruct (parseModel_ok s m Hnd Hp) as [Hm En]. apply column_fields_spec in E.
  apply list_elem_of_lookup in Hin as [j Hj]. destruct (Forall2_lookup_r _ _ _ _ _ E Hj) as (c & _ & _ & Hf). cbn in Hf.
  by destruct (FieldByName_index s m i f Hnd En Hf) as (sf & Hsf & ?); exists sf.
Qed.
Lemma dests_found cols dests i f : Forall (λ f, f_exported f = true) (s_Fields s) → column_fields m cols = inr dests → (i, f) ∈ dests →
  ∃ sf, FieldByName s (GoName f) = Some (i, sf) ∧ f_exported sf = true.
Proof.
  intros Hex E Hin. destruct (dests_fields cols dests i f E Hin) as (sf & Hsf & ?). exists sf. split; [done|].
  rewrite Forall_lookup in Hex. by eapply Hex.
Qed.
Lemma dests_distinct cols dests : NoDup cols → column_fields m cols = inr dests → NoDup (map fst dests).
Proof.
  intros Hc E. destruct (parseModel_ok s m Hnd Hp) as [Hm _]. apply column_fields_spec in E. apply NoDup_alt. intros a b i Ha Hb.
  rewrite lookup_map_eq in Ha, Hb. apply fmap_Some in Ha as ([i1 f1] & Ha & E1). apply fmap_Some in Hb as ([i2 f2] & Hb & E2). cbn in E1, E2. subst i1 i2.
  destruct (Forall2_lookup_r _ _ _ _ _ E Ha) as (c1 & Hc1 & H1 & F1). destruct (Forall2_lookup_r _ _ _ _ _ E Hb) as (c2 & Hc2 & H2 & F2).
  cbn in *. destruct (mo_col' m Hm _ _ H1) as (g1 & G1 & <-). destruct (mo_col' m Hm _ _ H2) as (g2 & G2 & <-).
  rewrite G1 in G2. injection G2 as ->. by eapply NoDup_lookup.
Qed.
Lemma dests_bounded cols dests (v : svalue) : length v = length (s_Fields s) → column_fields m cols = inr dests → Forall (λ p, (p.1 < length v)%nat) dests.
Proof.
  intros Hl E. destruct (parseModel_ok s m Hnd Hp) as [_ En]. apply column_fields_spec in E. apply Forall_forall. intros p Hin.
  apply list_elem_of_lookup in Hin as [j Hj]. destruct (Forall2_lookup_r _ _ _ _ _ E Hj) as (c & _ & _ & Hf).
  rewrite Hl, <- (length_map f_Name), <- En, length_map. by eapply lookup_lt_Some.
Qed.

(** The value [v'] is [v] with the row's columns stored in their fields. *)
Definition stored (cols : list string) (row : list dbval) (v v' : svalue) : Prop :=
  length row = length cols ∧ length v' = length v ∧
  (∀ j c x, cols !! j = Some c → row !! j = Some x →
     ∃ i f y, ColumnMap m !! c = Some i ∧ Fields m !! i = Some f ∧ convert (Type_ f) x = inr y ∧ v' !! i = Some y) ∧
  (∀ i f, Fields m !! i = Some f → ColName f ∉ cols → v' !! i = v !! i).

Lemma scan_stored cols dests row v v' : length v = length (s_Fields s) → NoDup cols → column_fields m cols = inr dests →
  scan_into convert dests row v = (v', None) → stored cols row v v'.
Proof.
  intros Hl Hc E Hs. pose proof (column_fields_spec _ _ _ E) as HF. destruct (parseModel_ok s m Hnd Hp) as [Hm _].
  destruct (scan_into_spec dests row v v' Hs) as (H1 & H2 & H3 & H4); [by eapply dests_distinct|by eapply dests_bounded|].
  split_and!; [by rewrite H1, (Forall2_length _ _ _ HF)|done| |].
  - intros j c x Hj Hx. destruct (Forall2_lookup_l _ _ _ _ _ HF Hj) as ([i f] & Hd & Hi & Hf).
    destruct (H3 j i f x Hd Hx) as (y & ? & ?). by exists i, f, y.
  - intros i f Hf Hn. apply H4. intros Hin. apply list_elem_of_In, in_map_iff in Hin as ([i' f'] & Ei & Hin). cbn in Ei. subst i'.
    apply list_elem_of_In, list_elem_of_lookup in Hin as [j Hj]. destruct (Forall2_lookup_r _ _ _ _ _ HF Hj) as (c & Hcj & Hci & _).
    destruct (mo_col' m Hm _ _ Hci) as (g & Hg & <-). cbn in Hg. rewrite Hf in Hg. injection Hg as <-. apply Hn. by eapply list_elem_of_lookup_2.
Qed.

(** Fields can be set: the unsafe access sets any, reflection only exported ones. *)
Definition scannable (cr : Creator) : Prop := cr = NewUnsafeValue ∨ Forall (λ f, f_exported f = true) (s_Fields s).
Lemma SetColumns_spec cr cols row v : scannable cr → length v = length (s_Fields s) →
  ∃ v' o, SetColumns convert cr s m cols row v = Some (v', o) ∧
    (o = None → ∃ cs, cols = inr cs ∧ (NoDup cs → stored cs row v v')).
Proof.
  intros Hset Hl. unfold SetColumns. destruct cols as [e|cs]; [by exists v, (Some e)|]. destruct cr.
  - destruct (_ <? _)%nat; [by do 2 eexists|]. destruct (column_fields m cs) as [e|dests] eqn:E; [by do 2 eexists|].
    destruct (scan_into convert dests row v) as [v' o] eqn:Es. exists v', o. split; [done|]. intros ->. exists cs. split; [done|].
    intros Hc. by eapply scan_stored.
  - destruct Hset as [|Hex]; [done|]. destruct (column_fields m cs) as [e|dests] eqn:E; [by do 2 eexists|].
    pose proof (scan_agree s dests (λ i f, dests_found cs dests i f Hex E) row v) as H.
    destruct (scan_values convert dests row) as [e|vals]; [by do 2 eexists|]. destruct H as (v' & H1 & ->). exists v', None. split; [done|].
    intros _. exists cs. split; [done|]. intros Hc. by eapply scan_stored.
Qed.

(** More columns than the model has, all different: one is unknown. *)
Lemma too_many_unknown cols : NoDup cols → (size (ColumnMap m) < length cols)%nat →
  ∃ c, c ∈ cols ∧ ColumnMap m !! c = None ∧ column_fields m cols = inl (ErrUnknownColumn c).
Proof.
  intros Hc Hlt. destruct (parseModel_ok s m Hnd Hp) as [Hm _]. destruct (column_fields m cols) as [e|dests] eqn:E.
  - clear Hc Hlt. revert e E. induction cols as [|c cols IH]; intros e; cbn [column_fields]; [done|].
    destruct (ColumnMap m !! c) as [i|] eqn:Ei; [|intros [= <-]; exists c; by split_and!; [left| |]].
    destruct (mo_col' m Hm _ _ Ei) as (f & -> & _). destruct (column_fields m cols) as [e'|]; [|done]. intros [= <-].
    destruct (IH e' eq_refl) as (c' & Hin & Hn & [= ->]). exists c'. by split_and!; [right| |].
  - exfalso. apply column_fields_spec in E. enough (length cols <= size (ColumnMap m))%nat by lia.
    rewrite <- (size_dom (D := gset string)), <- (size_list_to_set (C := gset string) cols) by done.
    apply subseteq_size. intros c. rewrite elem_of_list_to_set, elem_of_dom. intros [j Hj]%list_elem_of_lookup.
    destruct (Forall2_lookup_l _ _ _ _ _ E Hj) as (p & _ & -> & _). by eexists.
Qed.
(** Every column's field is exported. *)
Definition exported_columns (cols : list string) : bool :=
  forallb (λ c, match ColumnMap m !! c ≫= λ i, s_Fields s !! i with Some sf => f_exported sf | None => false end) cols.
Lemma exported_dests cols dests : column_fields m cols = inr dests →
  forallb (λ p, match s_Fields s !! p.1 with Some sf => f_exported sf | None => false end) dests = exported_columns cols.
Proof.
  intros E%column_fields_spec. unfold exported_columns. induction E as [|c [i f] cols dests [Hc _] _ IH]; [done|].
  cbn [forallb fst] in *. rewrite IH. cbn in Hc. by rewrite Hc.
Qed.
End rows.

(** C35: The unsafe and the reflective way to fill an entity from a row, compared on
    every row of distinct columns.  With more columns than the model has, the unsafe
    one reports that and the reflective one an unknown column; both leave the entity.
    Otherwise they report the same error or none.  On an error the reflective one
    leaves the entity as it was, while after the unsafe one a field may already hold
    its converted column.  Without an error the unsafe one has stored every column in
    its field and nothing else, and the reflective one has the same value if the
    columns' fields are exported, and panics if one is not. *)
Theorem rows_agree convert s m cols row v : NoDup (map f_Name (s_Fields s)) → parseModel (PtrStruct s) = inr m →
  length v = length (s_Fields s) → NoDup cols →
  let us := SetColumns convert NewUnsafeValue s m (inr cols) row v in
  let rf := SetColumns convert NewReflectValue s m (inr cols) row v in
  ((size (ColumnMap m) < length cols)%nat →
     us = Some (v, Some ErrTooManyReturnedColumns) ∧ ∃ c, c ∈ cols ∧ ColumnMap m !! c = None ∧ rf = Some (v, Some (ErrUnknownColumn c))) ∧
  ((length cols <= size (ColumnMap m))%nat → ∃ vu o, us = Some (vu, o) ∧
     match o with
     | Some e => rf = Some (v, Some e) ∧
         ∀ i, vu !! i = v !! i ∨ ∃ j c f x y, cols !! j = Some c ∧ ColumnMap m !! c = Some i ∧ Fields m !! i = Some f ∧
                                  row !! j = Some x ∧ convert (Type_ f) x = inr y ∧ vu !! i = Some y
     | None => stored convert m cols row v vu ∧ rf = (if exported_columns s m cols then Some (vu, None) else None)
     end).
Proof.
  intros Hnd Hp Hl Hc. cbn zeta. unfold SetColumns. destruct (Nat.ltb_spec (size (ColumnMap m)) (length cols)) as [Hlt|Hge]; (split; [intros|]); try lia.
  - split; [done|]. destruct (too_many_unknown s m Hnd Hp cols Hc Hlt) as (c & ? & ? & ->). by exists c.
  - intros _. destruct (column_fields m cols) as [e|dests] eqn:E.
    { exists v, (Some e). split_and!; [done|done|by left]. }
    pose proof (scan_same_error convert dests row v) as Hs. pose proof (column_fields_spec _ _ _ E) as HF.
    destruct (scan_values convert dests row) as [e|vals] eqn:Ev; destruct Hs as [vu Hs]; rewrite Hs; (do 2 eexists; split; [reflexivity|]).
    + split; [done|]. intros i. destruct (scan_into_partial convert dests row v vu _ Hs i) as [?|(j & f & x & y & Hj & Hx & Hy & Hv)]; [by left|right].
      destruct (Forall2_lookup_r _ _ _ _ _ HF Hj) as (c & Hcj & Hi & Hf). by exists j, c, f, x, y.
    + split; [by eapply scan_stored|]. rewrite (set_fields_exported convert s dests (λ i f, dests_fields s m Hnd Hp cols dests i f E) row vals v vu Ev Hs).
      rewrite (exported_dests s m cols dests E). by destruct (exported_columns s m cols).
Qed.
(** Conversions between integers and text only. *)
Definition wConvert (t : ftype) (x : dbval) : orm_err + gval :=
  match t, x with
  | FInt w, DBInt z => inr (VInt w z)
  | FOther "string", DBText s => inr (VStr s)
  | FTime, DBTime t => inr (VTime t)
  | _, _ => inl (ErrOther "convert")
  end.
Lemma rows_agree_witness :
  SetColumns wConvert NewUnsafeValue wBook wBookModel (inr ["version"; "title"]) [DBInt 4; DBText "C"] (new wBook)
  = SetColumns wConvert NewReflectValue wBook wBookModel (inr ["version"; "title"]) [DBInt 4; DBText "C"] (new wBook) ∧
  ∃ vu e, SetColumns wConvert NewUnsafeValue wBook wBookModel (inr ["version"; "title"]) [DBInt 4; DBNull] (new wBook) = Some (vu, Some e).
Proof.
  assert (NoDup ["version"; "title"]) as Hc by (apply (bool_decide_unpack _); by vm_compute).
  assert (length ["version"; "title"] <= size (ColumnMap wBookModel))%nat as Hle by (apply (bool_decide_unpack _); by vm_compute).
  split.
  - destruct (rows_agree wConvert wBook wBookModel ["version"; "title"] [DBInt 4; DBText "C"] (new wBook) (ty_names _ _ wBook_typed) wBook_model eq_refl Hc) as [_ H].
    destruct (H Hle) as (vu & o & E & Ho). rewrite E. destruct o as [e|]; [by vm_compute in E|]. destruct Ho as [_ ->]. by vm_compute.
  - destruct (rows_agree wConvert wBook wBookModel ["version"; "title"] [DBInt 4; DBNull] (new wBook) (ty_names _ _ wBook_typed) wBook_model eq_refl Hc) as [_ H].
    destruct (H Hle) as (vu & o & E & Ho). destruct o as [e|]; [by exists vu, e|]. by vm_compute in E.
Defined.
(** Unexported fields and superfluous columns tell the two apart. *)
Definition wHidden : structdef := mkStruct 9 "Hidden" [mkSF "Id" None (FInt 64) true; mkSF "age" None (FInt 64) false] None.
Example unexported_field_panics m : parseModel (PtrStruct wHidden) = inr m →
  SetColumns wConvert NewUnsafeValue wHidden m (inr ["age"]) [DBInt 4] (new wHidden) = Some ([VInt 64 0; VInt 64 4], None) ∧
  SetColumns wConvert NewReflectValue wHidden m (inr ["age"]) [DBInt 4] (new wHidden) = None.
Proof. intros E. vm_compute in E. injection E as <-. by vm_compute. Qed.

(** ** Selector.Get *)
Lemma new_length s : length (new s) = length (s_Fields s).
Proof. apply length_map. Qed.

(** C29: Reading one entity, without hooks and middlewares, with the unsafe access or a
    struct without unexported fields, and a selector whose raw fragments are balanced:
    the call does not panic and yields a value exactly when it reports no error.  Then
    the statement was built and sent, the answer has exactly one row that could be
    read, and the value is a new entity with that row stored in it.  No row is the
    no-rows error, and more rows are an error.  Whether the iteration ended because
    the rows were over or because it broke off makes no difference. *)
Theorem get_single_row {W} (queryContext : W → string → list gval → W * (orm_err + Rows)) convert d cr s m now sel e :
  NoDup (map f_Name (s_Fields s)) → parseModel (PtrStruct s) = inr m → scannable s cr →
  wf_selector (dialect_quoter d) sel → reg_ok (reg (e_b e)) → sqlStrBuilder (e_b e) = "" → args (e_b e) = [] →
  let built := Selector_Build (dialect_quoter d) (PtrStruct s) sel (mkB "" [] (registry_Get (reg (e_b e)) (PtrStruct s)).1) in
  ∃ e' o err, Selector_Get queryContext (mkCore d cr []) (PtrStruct s) no_hooks now convert sel e = (e', Some (o, err)) ∧
    (is_Some o ↔ err = None) ∧
    match built.2 with
    | Ok q =>
        match queryContext (e_w e) (SQL q) (Args q) with
        | (w, inl er) => e_w e' = w ∧ err = Some er
        | (w, inr rows) =>
            e_w e' = w ∧
            match r_data rows with                          (* whatever [r_iter rows] *)
            | [] => err = Some ErrNoRows
            | [row] => ∀ v, o = Some v → ∃ cols, r_columns rows = inr cols ∧ (NoDup cols → stored convert m cols row (new s) v)
            | _ => o = None
            end
        end
    | Err er => e_w e' = e_w e ∧ err = Some er
    | Panic => False
    end.
Proof.
  intros Hnd Hp Hex Hwf Hr Hs Ha. cbn zeta. unfold Selector_Get, lookup_model.
  destruct (registry_Get_spec (reg (e_b e)) (PtrStruct s) Hr) as [Hr' Hg].
  destruct (registry_Get (reg (e_b e)) (PtrStruct s)) as [r' x]. cbn [fst snd] in Hr', Hg. subst x. rewrite Hp.
  cbn [fst e_b e_w e_h e_log]. rewrite Hs, Ha. unfold get, chain. cbn [middlewares length chain_from]. unfold getHandler.
  cbn [BeforeQuery no_hooks query_hook]. unfold qc_Build. cbn [qc_QueryBuilder dialect valCreator Build e_b e_w e_h e_log].
  pose proof (select_builds d sel (PtrStruct s) Hwf (mkB "" [] r') Hr' (frag_nil _)) as Hb. cbn [struct_of].
  destruct (Selector_Build _ _ _ _) as [b [q|er|]]; [|by do 3 eexists|done]. cbn [e_w e_b e_h e_log snd].
  destruct (queryContext (e_w e) (SQL q) (Args q)) as [w [er|rows]]; cbn [Result_ Error e_w e_b e_h e_log]; [by do 3 eexists|].
  destruct (r_data rows) as [|row more]; cbn [Result_ Error e_w]; [by do 3 eexists|].
  destruct (SetColumns_spec convert s m Hnd Hp cr (r_columns rows) row (new s) Hex (new_length s)) as (v & o & -> & Hst).
  destruct o as [er|]; cbn [Result_ Error].
  { do 3 eexists. split; [reflexivity|]. split; [by split; [intros []|]|]. split; [done|]. by destruct more. }
  destruct more; cbn [AfterQuery no_hooks query_hook Result_ Error]; [|by do 3 eexists].
  do 3 eexists. split; [reflexivity|]. split; [by split|]. split; [done|]. intros v' [= <-]. destruct (Hst eq_refl) as (cs & -> & H).
  by exists cs.
Qed.
Definition wQuery (w : wDB) (s : string) (vs : list gval) : wDB * (orm_err + Rows) :=
  (w ++ [(s, vs)], inr (mkRows (inr ["id"; "title"]) [[DBInt 1; DBText "A"]] None)).
Lemma get_single_row_witness :
  ∃ e' v, Selector_Get wQuery (mkCore mysqlDialect NewUnsafeValue []) (PtrStruct wBook) no_hooks 9 wConvert (Limit NewSelector 1) wStart
    = (e', Some (Some v, None)).
Proof.
  destruct (get_single_row wQuery wConvert mysqlDialect NewUnsafeValue wBook wBookModel 9 (Limit NewSelector 1) wStart)
    as (e' & o & err & H1 & H2 & _).
  - apply (ty_names _ _ wBook_typed).
  - apply wBook_model.
  - by left.
  - split; repeat constructor.
  - apply reg_ok_new.
  - done.
  - done.
  - assert (Some (o, err) = Some (Some [VInt 64 1; VStr "A"; VTime 0; VInt 64 0], None)) as E
      by (refine (eq_trans (eq_sym (f_equal snd H1)) _); by vm_compute).
    injection E as -> ->. by exists e', [VInt 64 1; VStr "A"; VTime 0; VInt 64 0].
Defined.

(** ** Limits of the builders, on concrete statements *)
Definition wDoc : entity := PtrStruct (mkStruct 5 "Doc"
  [mkSF "Id" None (FInt 64) true; mkSF "Age" None (FInt 64) true; mkSF "DeletedAt" None FPtrTime true; mkSF "Version" None (FInt 64) true] None).
Definition id_is (n : Z) : Predicate := Column_EQ (Col "Id") (AVal (VInt 64 n)).

(** The soft-delete filter is not separated from a condition that is an [OR]: [AND]
    binds tighter, so deleted rows that satisfy the second part are selected. *)
Example soft_delete_or :
  SQL <$> (match run (Selector_Build "`" wDoc (Selector_Where NewSelector [Or (id_is 1) (id_is 2)])) with Ok q => Some q | _ => None end)
  = Some "SELECT * FROM `doc` WHERE `deleted_at` IS NULL AND (`id` = ?) OR (`id` = ?);".
Proof. by vm_compute. Qed.
(** Likewise the version guard of an update guards only the last part. *)
Example version_guard_or :
  SQL <$> (match run (Updater_Build mysqlDialect NewUnsafeValue (PtrStruct wBook) wBooks
             (Updater_Where (Update NewUpdater (Some 2%nat)) [Or (id_is 1) (id_is 2)])) with Ok q => Some q | _ => None end)
  = Some "UPDATE `book` SET `id`=?,`title`=?,`created_at`=?,`version`=`version`+1 WHERE (`id` = ?) OR (`id` = ?) AND `version`=?;".
Proof. by vm_compute. Qed.
(** An assignment in an upsert ends the loop: the ones after it are lost. *)
Example upsert_assignments_lost :
  run (Inserter_Build mysqlDialect NewUnsafeValue wT wStore (Upsert_Update (OnDuplicateKey (Columns (Values NewInserter [Some 1%nat]) ["Age"]))
    [Assign "Age" (AVal (VInt 64 1)); Assign "FirstName" (AVal (VStr "x")); ACol (Col "Id")]))
  = Ok (mkQuery "INSERT INTO `test_model`(`age`) VALUES (?) ON DUPLICATE KEY UPDATE `age`=?;" [VInt 8 18; VInt 64 1]).
Proof. by vm_compute. Qed.
(** A logging middleware builds the statement first; the statement that is then sent
    is the text twice, for a select with the arguments twice, for an insert not. *)
Example querylog_doubles :
  let c := mkCore mysqlDialect NewUnsafeValue [] in
  let c' T := mkCore mysqlDialect NewUnsafeValue [querylog_Build c T 9] in
  e_w (Selector_Get wQuery (c' (PtrStruct wBook)) (PtrStruct wBook) no_hooks 9 wConvert (Limit NewSelector 1) wStart).1
  = [("SELECT * FROM `book` LIMIT ?;SELECT * FROM `book` LIMIT ?;", [VInt 64 1; VInt 64 1])] ∧
  e_w (Inserter_Exec (wExec 1) (c' (PtrStruct wBook)) (PtrStruct wBook) no_hooks 9 (Columns (Values NewInserter [Some 1%nat]) ["Id"]) wStart).1
  = [("INSERT INTO `book`(`id`) VALUES (?);INSERT INTO `book`(`id`) VALUES (?);", [VInt 64 7])].
Proof. by vm_compute. Qed.
(** Arithmetic expressions are exported but no statement accepts them. *)
Example math_unsupported e a op : (buildExpression "`" emptyModel (math op e a) fresh).2 = Err ErrUnsupportedExpr.
Proof. done. Qed.
(** The offset of a page wraps around; negative, it is left out. *)
Example paginate_wraps :
  run (Selector_Build "`" wT (Paginate NewSelector (2 ^ 62) 4)) = Ok (mkQuery "SELECT * FROM `test_model` LIMIT ?;" [VInt 64 4]).
Proof. by vm_compute. Qed.
(** An error of the iteration before the first row is reported as no rows. *)
Example get_iteration_error :
  (Selector_Get (λ (w : wDB) _ _, (w, inr (mkRows (inr ["id"]) [] (Some (ErrOther "connection lost")))))
     (mkCore mysqlDialect NewUnsafeValue []) (PtrStruct wBook) no_hooks 9 wConvert NewSelector wStart).2 = Some (None, Some ErrNoRows).
Proof. by vm_compute. Qed.
(** One after the first row is not reported at all. *)
Example get_broken_iteration :
  (Selector_Get (λ (w : wDB) _ _, (w, inr (mkRows (inr ["id"]) [[DBInt 1]] (Some (ErrOther "connection lost")))))
     (mkCore mysqlDialect NewUnsafeValue []) (PtrStruct wBook) no_hooks 9 wConvert NewSelector wStart).2
  = Some (Some [VInt 64 1; VOther "string" 0; VTime 0; VInt 64 0], None).
Proof. by vm_compute. Qed.
(** Aliases are dropped from columns in conditions but not from aggregates there and
    not from columns in [GROUP BY]; on a table's column they are lost where wanted. *)
Example alias_misplaced :
  run (Selector_Build "`" wT (Having (GroupBy (Select NewSelector [SCol (Column_As (Table_Col (TableOf wT) "Id") "x")]) [Column_As (Col "Age") "y"])
    [Aggregate_GT (Aggregate_As (Avg "Age") "z") (AVal (VInt 64 18))]))
  = Ok (mkQuery "SELECT `test_model`.`id` FROM `test_model` GROUP BY `age` AS `y` HAVING AVG(`age`) AS `z` > ?;" [VInt 64 18]).
Proof. by vm_compute. Qed.
(** By reflection, reading a column of an update without an instance panics; by
    offset it is an error. *)
Example nil_instance :
  run (Updater_Build mysqlDialect NewReflectValue wT wStore (Set_ NewUpdater [ACol (Col "Age")])) = Panic ∧
  run (Updater_Build mysqlDialect NewUnsafeValue wT wStore (Set_ NewUpdater [ACol (Col "Age")])) = Err (ErrNilValue "Age").
Proof. by vm_compute. Qed.

(** ** Pages *)

(** Pages of a selector: with no overflow, page [p >= 1] of size [n] asks for the
    rows from [(p-1)*n] on, [n] of them, so consecutive pages neither overlap nor
    leave a gap, and the statement asks for them with exactly these two arguments (no
    offset on the first page); a page below 1 is the first and a size below 1 is 10. *)
Theorem paginate_windows s p n : 1 <= p → 1 <= n → p * n < 2 ^ 63 →
  s_limit (Paginate s p n) = n ∧ s_offset (Paginate s p n) = (p - 1) * n ∧
  s_offset (Paginate s (p + 1) n) = s_offset (Paginate s p n) + s_limit (Paginate s p n) ∧
  (∀ b, ∃ t, buildLimit (s_limit (Paginate s p n)) (s_offset (Paginate s p n)) b
     = (mkB (sqlStrBuilder b +:+ t) (args b ++ VInt 64 n :: if p =? 1 then [] else [VInt 64 ((p - 1) * n)]) (reg b), Ok tt)) ∧
  (∀ p', p' < 1 → Paginate s p' n = Paginate s 1 n) ∧ (∀ n', n' <= 0 → Paginate s p n' = Paginate s p 10).
Proof.
  intros Hp Hn Hb.
  assert (∀ k, 1 <= k → (k - 1) * n < 2 ^ 63 → k < 2 ^ 63 →
    s_limit (Paginate s k n) = n ∧ s_offset (Paginate s k n) = (k - 1) * n) as H.
  { intros k Hk Hkb Hk2. unfold Paginate. destruct (Z.ltb_spec k 1); [lia|]. destruct (Z.leb_spec n 0); [lia|].
    cbn [Offset Limit s_limit s_offset]. split; [done|]. unfold i64. rewrite (wraps_small 64 (k - 1)) by lia.
    apply wraps_small; [lia|]. nia. }
  assert (p < 2 ^ 63) as Hp63 by nia. destruct (H p Hp) as [H1 H2]; [nia|done|]. rewrite H1, H2.
  split_and!; [done|done| | | |].
  - destruct (decide (p + 1 < 2 ^ 63)) as [Hlt|Hge]; [destruct (H (p + 1)) as [_ ->]; lia|].
    assert (n = 1) as -> by nia. unfold Paginate. destruct (Z.ltb_spec (p + 1) 1); [lia|]. cbn [Z.leb Z.compare Offset s_offset].
    replace (p + 1 - 1) with p by lia. unfold i64. rewrite (wraps_small 64 p) by lia. rewrite wraps_small by lia. lia.
  - intros b. unfold buildLimit. destruct (Z.ltb_spec 0 n); [|lia]. destruct (Z.eqb_spec p 1) as [->|Hne].
    + replace ((1 - 1) * n) with 0 by lia. cbn [Z.ltb Z.compare]. unfold bind, WriteString, add_args, ret. cbn [sqlStrBuilder args reg].
      eexists. f_equal.
    + destruct (Z.ltb_spec 0 ((p - 1) * n)); [|nia]. unfold bind, WriteString, add_args. cbn [sqlStrBuilder args reg].
      exists (" LIMIT ?" +:+ " OFFSET ?"). by rewrite str_app_assoc, <- app_assoc.
  - intros p' Hp'. unfold Paginate. destruct (Z.ltb_spec p' 1); [|lia]. done.
  - intros n' Hn'. unfold Paginate. destruct (Z.leb_spec n' 0); [|lia]. done.
Qed.
Lemma paginate_windows_witness : s_offset (Paginate NewSelector 3 20) = (3 - 1) * 20.
Proof. apply (paginate_windows NewSelector 3 20); lia. Defined.
