(* ===== verification/OrmSql.v ===== *)
(** * What the ORM relies on of a SQL database

    The database is not part of the sources.  This file says what the ORM's
    statements mean to it: the words of a statement, its structure ([NOT] binds
    tighter than [AND], [AND] tighter than [OR]), and its effect on tables without
    keys and constraints.  A driver is given by how it converts arguments, how the
    server compares values and whether an update counts matched or changed rows.
    [SqlDatabase] is what [src/orm/exechandler.go] and [src/orm/select.go] rely on: a
    statement of this fragment that is answered has the effect given here; after an
    error it may or may not have had it. *)

From S2P Require Import Prelude GoStrings OrmModel OrmBuilder OrmQuery OrmExec OrmExecFacts.
Local Open Scope Z_scope.

#[export] Instance dbval_eq_dec : EqDecision dbval.
Proof. solve_decision. Defined.

(** ** Words *)
Inductive token := TName (s : string) | TWord (s : string) | TSym (c : ascii) | TParam.
#[export] Instance token_eq_dec : EqDecision token.
Proof. solve_decision. Defined.

Definition is_digit (c : ascii) : bool := ((48 <=? nat_of_ascii c) && (nat_of_ascii c <=? 57))%nat.
Definition is_word (c : ascii) : bool := is_upper c || is_lower c || is_digit c || bool_decide (c = "_"%char).

Section lexer.
Context (q : ascii).

(** Between words, in a word, in a quoted name, after a quote that may end it. *)
Inductive lexst := LIdle | LWord (acc : string) | LName (acc : string) | LQuote (acc : string).
Definition start (c : ascii) : list token * lexst :=
  if bool_decide (c = " "%char) then ([], LIdle)
  else if bool_decide (c = q) then ([], LName "")
  else if is_word c then ([], LWord (str1 c))
  else if bool_decide (c = "?"%char) then ([TParam], LIdle)
  else ([TSym c], LIdle).
Definition lex_step (st : lexst) (c : ascii) : list token * lexst :=
  match st with
  | LIdle => start c
  | LWord a => if is_word c then ([], LWord (a +:+ str1 c)) else (TWord a :: (start c).1, (start c).2)
  | LName a => if bool_decide (c = q) then ([], LQuote a) else ([], LName (a +:+ str1 c))
  | LQuote a => if bool_decide (c = q) then ([], LName (a +:+ str1 q)) else (TName a :: (start c).1, (start c).2)
  end.
Definition lex_end (st : lexst) : option (list token) :=
  match st with LIdle => Some [] | LWord a => Some [TWord a] | LQuote a => Some [TName a] | LName _ => None end.
Fixpoint lex_go (st : lexst) (s : string) : option (list token) :=
  match s with
  | EmptyString => lex_end st
  | String c s' => app (lex_step st c).1 <$> lex_go (lex_step st c).2 s'
  end.
Definition lex (s : string) : option (list token) := lex_go LIdle s.
End lexer.

(** ** Structure *)
Inductive sexp :=
| XCmp (o : string) (l r : string + dbval)      (** a column or a value on each side *)
| XNull (c : string)
| XNot (e : sexp) | XAnd (l r : sexp) | XOr (l r : sexp).
Inductive setexp := SetVal (c : string) (v : dbval) | SetBump (c : string).
Inductive stmt :=
| SInsert (t : string) (cols : list string) (rows : list (list dbval))
| SUpdate (t : string) (sets : list setexp) (w : option sexp)
| SDelete (t : string) (w : option sexp)
| SSelect (t : string) (w : option sexp).

(** A parser takes words and arguments and leaves the rest of both. *)
Definition parser (A : Type) : Type := list token → list dbval → option (A * list token * list dbval).

Definition expect (t : token) (ts : list token) : option (list token) :=
  match ts with t' :: ts' => if bool_decide (t' = t) then Some ts' else None | [] => None end.
Definition next_is (t : token) (ts : list token) : bool := bool_decide (head ts = Some t).

Definition p_operand : parser (string + dbval) := λ ts vs,
  match ts, vs with
  | TName n :: ts', _ => Some (inl n, ts', vs)
  | TParam :: ts', v :: vs' => Some (inr v, ts', vs')
  | _, _ => None
  end.
Definition p_cmp : parser sexp := λ ts vs,
  '(l, ts, vs) ← p_operand ts vs;
  match ts with
  | TSym c :: ts' =>
      if bool_decide (c ∈ ["="%char; "<"%char; ">"%char])
      then '(r, ts, vs) ← p_operand ts' vs; Some (XCmp (str1 c) l r, ts, vs) else None
  | TWord w1 :: TWord w2 :: ts' =>
      match l with
      | inl n => if bool_decide (w1 = "IS" ∧ w2 = "NULL") then Some (XNull n, ts', vs) else None
      | inr _ => None
      end
  | _ => None
  end.

Section precedence.
Context (p : parser sexp).

Definition p_prim : parser sexp := λ ts vs,
  match expect (TSym "(") ts with
  | Some ts' => '(e, ts, vs) ← p ts' vs; ts ← expect (TSym ")") ts; Some (e, ts, vs)
  | None => p_cmp ts vs
  end.
Fixpoint p_not (ts : list token) (vs : list dbval) : option (sexp * list token * list dbval) :=
  match ts with
  | t :: ts' => if bool_decide (t = TWord "NOT") then '(e, ts, vs) ← p_not ts' vs; Some (XNot e, ts, vs) else p_prim ts vs
  | [] => None
  end.
End precedence.

(** What follows a first operand of a connective that associates to the left; each
    round takes at least one word. *)
Fixpoint p_more (kw : string) (mk : sexp → sexp → sexp) (p : parser sexp) (fuel : nat) (acc : sexp) : parser sexp := λ ts vs,
  if next_is (TWord kw) ts then
    match fuel with
    | O => None
    | S fuel' => '(e, ts, vs) ← p (tail ts) vs; p_more kw mk p fuel' (mk acc e) ts vs
    end
  else Some (acc, ts, vs).
Definition p_chain (kw : string) (mk : sexp → sexp → sexp) (p : parser sexp) : parser sexp := λ ts vs,
  '(e, ts, vs) ← p ts vs; p_more kw mk p (length ts) e ts vs.
(** The fuel bounds the nesting of parentheses. *)
Fixpoint p_or (fuel : nat) : parser sexp :=
  match fuel with
  | O => λ _ _, None
  | S fuel' => p_chain "OR" XOr (p_chain "AND" XAnd (p_not (p_or fuel')))
  end.

(** Items separated by commas. *)
Fixpoint p_sep {A} (p : parser A) (fuel : nat) : parser (list A) := λ ts vs,
  match fuel with
  | O => None
  | S fuel' =>
      '(x, ts, vs) ← p ts vs;
      match expect (TSym ",") ts with
      | Some ts' => '(xs, ts, vs) ← p_sep p fuel' ts' vs; Some (x :: xs, ts, vs)
      | None => Some ([x], ts, vs)
      end
  end.
Definition p_list {A} (p : parser A) : parser (list A) := λ ts vs, p_sep p (length ts) ts vs.
Definition p_name : parser string := λ ts vs, match ts with TName n :: ts' => Some (n, ts', vs) | _ => None end.
Definition p_value : parser dbval := λ ts vs, match ts, vs with TParam :: ts', v :: vs' => Some (v, ts', vs') | _, _ => None end.
Definition p_parens {A} (p : parser A) : parser A := λ ts vs,
  ts ← expect (TSym "(") ts; '(x, ts, vs) ← p ts vs; ts ← expect (TSym ")") ts; Some (x, ts, vs).
Definition p_set : parser setexp := λ ts vs,
  match ts, vs with
  | TName c :: TSym _ :: TParam :: ts', v :: vs' => ts ← expect (TSym "=") (tail ts); Some (SetVal c v, ts', vs')
  | TName c :: TSym e :: TName c' :: TSym p :: TWord one :: ts', _ =>
      if bool_decide (e = "="%char ∧ c' = c ∧ p = "+"%char ∧ one = "1") then Some (SetBump c, ts', vs) else None
  | _, _ => None
  end.

Fixpoint expects (l : list token) (ts : list token) : option (list token) :=
  match l with [] => Some ts | t :: l' => ts ← expect t ts; expects l' ts end.
(** An optional condition and the end of the statement. *)
Definition p_end (ts : list token) (vs : list dbval) : option unit :=
  if bool_decide (ts = [TSym ";"] ∧ vs = []) then Some () else None.
Definition p_where (ts : list token) (vs : list dbval) : option (option sexp) :=
  match expect (TWord "WHERE") ts with
  | Some ts' => '(e, ts, vs) ← p_or (length ts) ts' vs; p_end ts vs ;; Some (Some e)
  | None => p_end ts vs ;; Some None
  end.
Definition p_insert (ts : list token) (vs : list dbval) : option stmt :=
  ts ← expects [TWord "INSERT"; TWord "INTO"] ts;
  '(t, ts, vs) ← p_name ts vs; '(cols, ts, vs) ← p_parens (p_list p_name) ts vs;
  ts ← expect (TWord "VALUES") ts; '(rows, ts, vs) ← p_list (p_parens (p_list p_value)) ts vs;
  p_end ts vs ;; Some (SInsert t cols rows).
Definition p_update (ts : list token) (vs : list dbval) : option stmt :=
  ts ← expects [TWord "UPDATE"] ts; '(t, ts, vs) ← p_name ts vs;
  ts ← expect (TWord "SET") ts; '(sets, ts, vs) ← p_list p_set ts vs; w ← p_where ts vs; Some (SUpdate t sets w).
Definition p_delete (ts : list token) (vs : list dbval) : option stmt :=
  ts ← expects [TWord "DELETE"; TWord "FROM"] ts; '(t, ts, vs) ← p_name ts vs; w ← p_where ts vs; Some (SDelete t w).
Definition p_select (ts : list token) (vs : list dbval) : option stmt :=
  ts ← expects [TWord "SELECT"; TSym "*"; TWord "FROM"] ts; '(t, ts, vs) ← p_name ts vs; w ← p_where ts vs; Some (SSelect t w).
Definition p_stmt (ts : list token) (vs : list dbval) : option stmt :=
  match head ts with
  | Some (TWord w) =>
      if bool_decide (w = "INSERT") then p_insert ts vs
      else if bool_decide (w = "UPDATE") then p_update ts vs
      else if bool_decide (w = "DELETE") then p_delete ts vs
      else if bool_decide (w = "SELECT") then p_select ts vs else None
  | _ => None
  end.
Definition parse (q : ascii) (text : string) (vs : list dbval) : option stmt := ts ← lex q text; p_stmt ts vs.

(** ** Meaning *)

(** [to_db] converts an argument, [compare_] compares two values of which none is
    [NULL]; [foundRows]: an update counts the rows it matched, not those it changed. *)
Record Driver := mkDriver { to_db : gval → option dbval; compare_ : dbval → dbval → comparison; foundRows : bool }.

(** The conversions of [database/sql/driver], and the order of integers. *)
Class GoDriver (dr : Driver) : Prop := {
  drv_int : ∀ w z, to_db dr (VInt w z) = Some (DBInt z);
  drv_uint : ∀ w z, z < 2 ^ 63 → to_db dr (VUint w z) = Some (DBInt z);
  drv_time : ∀ t, to_db dr (VTime t) = Some (DBTime t);
  drv_ptr_time : ∀ p, to_db dr (VPtrTime p) = Some (match p with Some t => DBTime t | None => DBNull end);
  drv_compare : ∀ a b, compare_ dr (DBInt a) (DBInt b) = (a ?= b) }.

(** A row by column; a column that is missing is [NULL]. *)
Abbreviation row := (gmap string dbval).
Record table := mkT { t_cols : list string; t_rows : list row }.
Abbreviation Database := (gmap string table).

(** Three-valued logic: [None] is unknown. *)
Definition not3 (a : option bool) : option bool := negb <$> a.
Definition and3 (a b : option bool) : option bool :=
  match a, b with Some false, _ | _, Some false => Some false | Some true, Some true => Some true | _, _ => None end.
Definition or3 (a b : option bool) : option bool := not3 (and3 (not3 a) (not3 b)).

Definition cell (r : row) (c : string) : dbval := default DBNull (r !! c).

Section meaning.
Context (dr : Driver).

Definition cmp3 (o : string) (a b : dbval) : option bool :=
  match a, b with
  | DBNull, _ | _, DBNull => None
  | _, _ => Some (bool_decide (compare_ dr a b =
              if bool_decide (o = "<") then Lt else if bool_decide (o = ">") then Gt else Eq))
  end.
Definition operand_val (r : row) (x : string + dbval) : dbval := match x with inl c => cell r c | inr v => v end.
Fixpoint eval (r : row) (e : sexp) : option bool :=
  match e with
  | XCmp o a b => cmp3 o (operand_val r a) (operand_val r b)
  | XNull c => Some (bool_decide (cell r c = DBNull))
  | XNot e => not3 (eval r e)
  | XAnd a b => and3 (eval r a) (eval r b)
  | XOr a b => or3 (eval r a) (eval r b)
  end.
(** Only rows for which the condition is true are selected. *)
Definition selects (w : option sexp) (r : row) : bool :=
  match w with None => true | Some e => bool_decide (eval r e = Some true) end.

Definition operand_cols (x : string + dbval) : list string := match x with inl c => [c] | inr _ => [] end.
Fixpoint sexp_cols (e : sexp) : list string :=
  match e with
  | XCmp _ a b => operand_cols a ++ operand_cols b
  | XNull c => [c]
  | XNot e => sexp_cols e
  | XAnd a b | XOr a b => sexp_cols a ++ sexp_cols b
  end.
Definition where_cols (w : option sexp) : list string := match w with None => [] | Some e => sexp_cols e end.

Definition set_col (x : setexp) : string := match x with SetVal c _ | SetBump c => c end.
(** Assignments are to different columns and read only their own, so their order
    does not matter.  Counting up is defined for integers below the greatest. *)
Definition apply_set (o : option row) (x : setexp) : option row :=
  r ← o;
  match x with
  | SetVal c v => Some (<[c := v]> r)
  | SetBump c =>
      match cell r c with
      | DBNull => Some r
      | DBInt z => if z + 1 <? 2 ^ 63 then Some (<[c := DBInt (z + 1)]> r) else None
      | _ => None
      end
  end.
Definition apply_sets (sets : list setexp) (r : row) : option row := foldl apply_set (Some r) sets.

Definition known (t : table) (cols : list string) : bool := bool_decide (Forall (λ c, c ∈ t_cols t) cols).
Definition distinct (cols : list string) : bool := bool_decide (NoDup cols).

(** The tables afterwards and the number of rows affected; [None] is an error. *)
Definition run_stmt (st : stmt) (db : Database) : option (Database * Z) :=
  match st with
  | SInsert t cols rows =>
      tb ← db !! t;
      if known tb cols && distinct cols && forallb (λ vs, (length vs =? length cols)%nat) rows
      then Some (<[t := mkT (t_cols tb) (t_rows tb ++ map (λ vs, list_to_map (zip cols vs)) rows)]> db, Z.of_nat (length rows))
      else None
  | SUpdate t sets w =>
      tb ← db !! t;
      if known tb (map set_col sets) && distinct (map set_col sets) && known tb (where_cols w) then
        rows ← mapM (λ r, if selects w r then apply_sets sets r else Some r) (t_rows tb);
        let matched := List.filter (selects w) (t_rows tb) in
        let changed := List.filter (λ p, bool_decide (p.1 ≠ p.2)) (zip (t_rows tb) rows) in
        Some (<[t := mkT (t_cols tb) rows]> db, Z.of_nat (if foundRows dr then length matched else length changed))
      else None
  | SDelete t w =>
      tb ← db !! t;
      if known tb (where_cols w) then
        Some (<[t := mkT (t_cols tb) (List.filter (λ r, negb (selects w r)) (t_rows tb))]> db,
              Z.of_nat (length (List.filter (selects w) (t_rows tb))))
      else None
  | SSelect _ _ => None
  end.
Definition run_query (st : stmt) (db : Database) : option (list string * list (list dbval)) :=
  match st with
  | SSelect t w =>
      tb ← db !! t;
      if known tb (where_cols w) then Some (t_cols tb, map (λ r, map (cell r) (t_cols tb)) (List.filter (selects w) (t_rows tb)))
      else None
  | _ => None
  end.

(** The arguments as the server gets them. *)
Definition bound (args : list gval) : option (list dbval) := mapM (to_db dr) args.

(** ** The interface

    [tables w] are the tables in state [w] of the connection.  [up w] is any condition
    under which the database answers such a statement with a result; a statement that
    ends in an error may have had its effect or not (a connection that is lost after
    the statement was sent tells nothing), but no part of it.  Queries have none. *)
Class SqlDatabase {W : Type} (q : ascii) (tables : W → Database) (up : W → Prop)
  (execContext : W → string → list gval → W * (orm_err + sqlResult))
  (queryContext : W → string → list gval → W * (orm_err + Rows)) : Prop := {
  sql_driver : driver_ok execContext;
  sql_exec : ∀ w text args vs st db n, bound args = Some vs → parse q text vs = Some st → run_stmt st (tables w) = Some (db, n) →
    match execContext w text args with
    | (w', inr r) => tables w' = db ∧ RowsAffected r = Ok n
    | (w', inl _) => (tables w' = tables w ∨ tables w' = db) ∧ ¬ up w
    end;
  sql_query : ∀ w text args vs st cols rows, bound args = Some vs → parse q text vs = Some st →
    run_query st (tables w) = Some (cols, rows) →
    match queryContext w text args with
    | (w', inr r) => tables w' = tables w ∧ r = mkRows (inr cols) rows None
    | (w', inl _) => tables w' = tables w ∧ ¬ up w
    end }.
End meaning.
Arguments sql_driver {dr W q tables up execContext queryContext _}.
Arguments sql_exec {dr W q tables up execContext queryContext _}.
Arguments sql_query {dr W q tables up execContext queryContext _}.
