(* ===== verification/OrmSqlFacts.v ===== *)
(** * How a database reads the ORM's statements

    The texts that the builders are proved to write, as words and as structure. *)

From S2P Require Import Prelude GoStrings OrmModel OrmModelFacts OrmBuilder OrmQuery OrmQueryFacts OrmTextFacts OrmExec OrmExecFacts OrmSql.
Local Open Scope Z_scope.

(** ** Words *)
Section lexing.
Context (d : Dialect).
Local Notation q := (dialect_quoter d).

Definition delim (s : string) : bool :=
  match s with EmptyString => true | String c _ => negb (is_word c) && negb (bool_decide (c = q)) end.
(** [s] gives the words [ts] before whatever may follow; [any]: also before a letter
    or a quote. *)
Definition lexes (any : bool) (s : string) (ts : list token) : Prop := ∀ rest,
  any || delim rest = true → lex_go q LIdle (s +:+ rest) = app ts <$> lex_go q LIdle rest.

Lemma lexes_run any s ts : lexes any s ts → lex q s = Some ts.
Proof.
  intros H. specialize (H "" (orb_true_r _)). rewrite app_empty_r in H. unfold lex. rewrite H. cbn. by rewrite app_nil_r.
Qed.
(** May [s2] follow? *)
Definition joins (a b : bool) (s2 : string) : bool := a || match s2 with EmptyString => negb b | _ => delim s2 end.
Lemma lexes_app a b s1 s2 t1 t2 : lexes a s1 t1 → lexes b s2 t2 → joins a b s2 = true →
  lexes b (s1 +:+ s2) (t1 ++ t2).
Proof.
  intros H1 H2 Hs rest Hr. rewrite str_app_assoc, H1, H2; [by rewrite <- option_fmap_compose; apply option_fmap_ext; intros; cbn; rewrite app_assoc|done|].
  destruct a; [done|]. destruct s2 as [|c s2]; [by destruct b|exact Hs].
Qed.
(** The words complete at the end of [s], and the state there. *)
Fixpoint feed (st : lexst) (s : string) : list token * lexst :=
  match s with
  | EmptyString => ([], st)
  | String c s' => let '(ts, st') := feed (lex_step q st c).2 s' in ((lex_step q st c).1 ++ ts, st')
  end.
Lemma feed_spec s : ∀ st rest, lex_go q st (s +:+ rest) = app (feed st s).1 <$> lex_go q (feed st s).2 rest.
Proof.
  induction s as [|c s IH]; intros st rest; [rewrite app_nil_l; cbn; by destruct (lex_go q st rest)|].
  rewrite app_cons. cbn [lex_go feed]. rewrite IH. destruct (feed (lex_step q st c).2 s) as [ts st']. cbn [fst snd].
  rewrite <- option_fmap_compose. apply option_fmap_ext. intros l. cbn. by rewrite app_assoc.
Qed.
Lemma lexes_lit b s ts : feed LIdle s = (ts, LIdle) → lexes b s ts.
Proof. intros E rest _. by rewrite feed_spec, E. Qed.
Lemma lexes_nil : lexes false "" [].
Proof. intros rest _. rewrite app_nil_l. by destruct (lex_go q LIdle rest). Qed.

Lemma delim_next rest ts st t : delim rest = true →
  (∀ c, is_word c = false → c ≠ q → lex_step q st c = (t :: (start q c).1, (start q c).2)) → lex_end st = Some [t] →
  app ts <$> lex_go q st rest = app (ts ++ [t]) <$> lex_go q LIdle rest.
Proof.
  intros Hr Hst He. destruct rest as [|c rest]; cbn [lex_go]; [rewrite He; cbn; by rewrite app_nil_r|].
  cbn in Hr. apply andb_true_iff in Hr as [Hw Hc]. apply negb_true_iff in Hw, Hc. apply bool_decide_eq_false in Hc.
  rewrite (Hst c Hw Hc). cbn [fst snd lex_step]. rewrite <- !option_fmap_compose. apply option_fmap_ext. intros l. cbn.
  by rewrite <- app_assoc.
Qed.
Lemma lexes_name n : lexes false (quoted q n) [TName n].
Proof.
  intros rest Hr. cbn [orb] in Hr. unfold quoted. rewrite !str_app_assoc. change (str1 q +:+ ?x) with (String q x) at 1. cbn [lex_go lex_step].
  assert (start q q = ([], LName "")) as -> by (by destruct d). cbn [fst snd].
  assert (∀ a, lex_go q (LName a) (replace1 q (str1 q +:+ str1 q) n +:+ str1 q +:+ rest) = app [TName (a +:+ n)] <$> lex_go q LIdle rest) as H.
  { induction n as [|c n IH]; intros a.
    - cbn [replace1]. rewrite app_nil_l, app_empty_r. change (str1 q +:+ rest) with (String q rest). cbn [lex_go lex_step].
      rewrite bool_decide_true by done. cbn [fst snd]. rewrite (delim_next rest [] (LQuote a) (TName a)); [done|done| |done].
      intros c Hw Hc. cbn [lex_step]. by rewrite bool_decide_false.
    - cbn [replace1]. rewrite str_app_assoc. case_bool_decide as Hc.
      + subst c. change ((str1 q +:+ str1 q) +:+ ?x) with (String q (String q x)). cbn [lex_go lex_step].
        rewrite !bool_decide_true by done. cbn [fst snd lex_step]. rewrite bool_decide_true by done.
        cbn [fst snd]. rewrite IH, str_app_assoc.
        by destruct (lex_go q LIdle rest).
      + change (str1 c +:+ ?x) with (String c x). cbn [lex_go lex_step]. rewrite bool_decide_false by done. cbn [fst snd].
        rewrite IH, str_app_assoc. by destruct (lex_go q LIdle rest). }
  rewrite H. by destruct (lex_go q LIdle rest).
Qed.
End lexing.
(** A literal text: by evaluation. *)
Ltac lex_lit := apply lexes_lit; match goal with d : Dialect |- _ => destruct d; reflexivity end.
(** A text put together from literals, names and parts given by lemmas. *)
Tactic Notation "lex_next" uconstr(H) := eapply lexes_app; [eapply H| |first [done|match goal with d : Dialect |- _ => destruct d; done end]].

(** Items between commas. *)
Fixpoint sep_toks (l : list (list token)) : list token :=
  match l with [] => [] | [x] => x | x :: l' => x ++ TSym "," :: sep_toks l' end.
Lemma lexes_join {A} d (g : A → string) (tk : A → list token) l : (∀ x, x ∈ l → lexes d false (g x) (tk x)) →
  lexes d false (join "," (map g l)) (sep_toks (map tk l)).
Proof.
  induction l as [|x l IH]; intros Hl; [apply (lexes_nil d)|]. destruct l as [|y l]; [apply Hl; left|].
  change (join "," (map g (x :: y :: l))) with (g x +:+ "," +:+ join "," (map g (y :: l))).
  change (sep_toks (map tk (x :: y :: l))) with (tk x ++ TSym "," :: sep_toks (map tk (y :: l))).
  apply (lexes_app d false); [apply Hl; left| |by destruct d].
  apply (lexes_app d true false "," _ [TSym ","]); [|apply IH; intros z Hz; apply Hl; by right|done].
  lex_lit.
Qed.

(** ** Conditions as a program asks for them

    Comparisons of a column with a value or another column, and connectives, as the
    methods of the package build them. *)
Inductive cmpop := CEq | CLt | CGt.
Inductive operand := OCol (name : string) | OVal (v : gval).
Inductive cond := CCmp (o : cmpop) (col : string) (x : operand) | CNot (c : cond) | CAnd (a b : cond) | COr (a b : cond).

Definition arg_of (x : operand) : arg := match x with OCol n => AExpr (EColumn (Col n)) | OVal v => AVal v end.
Fixpoint pred_of (c : cond) : Predicate :=
  match c with
  | CCmp CEq n x => Column_EQ (Col n) (arg_of x)
  | CCmp CLt n x => Column_LT (Col n) (arg_of x)
  | CCmp CGt n x => Column_GT (Col n) (arg_of x)
  | CNot c => Not (pred_of c)
  | CAnd a b => And (pred_of a) (pred_of b)
  | COr a b => Or (pred_of a) (pred_of b)
  end.
(** Several conditions are one. *)
Definition conj_of (cs : list cond) : option cond := match cs with [] => None | c :: cs' => Some (foldl CAnd c cs') end.
Lemma pred_of_conj c cs : foldl And (pred_of c) (map pred_of cs) = pred_of (foldl CAnd c cs).
Proof. revert c. induction cs as [|c' cs IH]; intros c; [done|]. cbn [map foldl]. by rewrite <- IH. Qed.

Section conditions.
Context (dr : Driver) (m : Model).

(** The column of a field, and a value as the server gets it. *)
Definition col_of (name : string) : string := match field_of m name with Some f => ColName f | None => "" end.
Definition db (v : gval) : dbval := default DBNull (to_db dr v).

(** Known fields and values the driver accepts. *)
Definition operand_ok (x : operand) : Prop := match x with OCol n => is_Some (field_of m n) | OVal v => is_Some (to_db dr v) end.
Fixpoint cond_ok (c : cond) : Prop :=
  match c with
  | CCmp _ n x => is_Some (field_of m n) ∧ operand_ok x
  | CNot c => cond_ok c
  | CAnd a b | COr a b => cond_ok a ∧ cond_ok b
  end.

(** Is the condition true of a row?  [None]: unknown. *)
Definition operand_at (r : row) (x : operand) : dbval := match x with OCol n => cell r (col_of n) | OVal v => db v end.
Definition op_str (o : cmpop) : string := match o with CEq => "=" | CLt => "<" | CGt => ">" end.
Fixpoint holds (r : row) (c : cond) : option bool :=
  match c with
  | CCmp o n x => cmp3 dr (op_str o) (cell r (col_of n)) (operand_at r x)
  | CNot c => not3 (holds r c)
  | CAnd a b => and3 (holds r a) (holds r b)
  | COr a b => or3 (holds r a) (holds r b)
  end.

(** Words, arguments and structure of a condition. *)
Definition op_char (o : cmpop) : ascii := match o with CEq => "=" | CLt => "<" | CGt => ">" end.
Definition par (ts : list token) : list token := TSym "(" :: ts ++ [TSym ")"].
Definition operand_tok (x : operand) : token := match x with OCol n => TName (col_of n) | OVal _ => TParam end.
Fixpoint toks (c : cond) : list token :=
  match c with
  | CCmp o n x => [TName (col_of n); TSym (op_char o); operand_tok x]
  | CNot c => TWord "NOT" :: par (toks c)
  | CAnd a b => par (toks a) ++ TWord "AND" :: par (toks b)
  | COr a b => par (toks a) ++ TWord "OR" :: par (toks b)
  end.
Fixpoint vals (c : cond) : list gval :=
  match c with
  | CCmp _ _ (OVal v) => [v]
  | CCmp _ _ (OCol _) => []
  | CNot c => vals c
  | CAnd a b | COr a b => vals a ++ vals b
  end.
Definition operand_sx (x : operand) : string + dbval := match x with OCol n => inl (col_of n) | OVal v => inr (db v) end.
Fixpoint sx (c : cond) : sexp :=
  match c with
  | CCmp o n x => XCmp (op_str o) (inl (col_of n)) (operand_sx x)
  | CNot c => XNot (sx c)
  | CAnd a b => XAnd (sx a) (sx b)
  | COr a b => XOr (sx a) (sx b)
  end.
Lemma eval_sx r c : eval dr r (sx c) = holds r c.
Proof. induction c as [o n x| | |]; cbn [sx eval holds]; [|congruence..]. by destruct x. Qed.

(** Values the driver accepts. *)
Definition sendable (l : list gval) : Prop := Forall (λ v, is_Some (to_db dr v)) l.
Lemma bound_all l : sendable l → bound dr l = Some (map db l).
Proof. intros Hl. apply mapM_Some. induction Hl as [|v l [x Hx] _ IH]; constructor; [|done]. unfold db. by rewrite Hx. Qed.
Lemma vals_sendable c : cond_ok c → sendable (vals c).
Proof.
  unfold sendable. induction c as [o n [x|v]|c IH|a IHa b IHb|a IHa b IHb]; cbn [vals cond_ok operand_ok];
    [done|intros [_ H]; by constructor|done|intros [Ha Hb]; apply Forall_app; auto..].
Qed.
End conditions.

(** ** The text of a condition *)
Lemma lexes_parens d s ts : lexes d false s ts → lexes d false ("(" +:+ s +:+ ")") (par ts).
Proof.
  intros Hs. unfold par. apply (lexes_app d true false "(" _ [TSym "("]); [lex_lit| |done].
  apply (lexes_app d false false s ")" ts [TSym ")"]); [done|lex_lit|by destruct d].
Qed.

Section texts.
Context (d : Dialect) (dr : Driver) (m : Model).
Local Notation q := (dialect_quoter d).

Lemma own_text n : is_Some (field_of m n) → own_column_text q m n = Some (quoted q (col_of m n)).
Proof. intros [f Hf]. unfold own_column_text, col_of. by rewrite Hf. Qed.

Lemma lexes_binary s1 s2 o t1 t2 ts : lexes d false s1 t1 → lexes d false s2 t2 → lexes d true (op_text o) ts → joins d false true (op_text o) = true →
  lexes d false (s1 +:+ op_text o +:+ s2) (t1 ++ ts ++ t2).
Proof.
  intros H1 H2 Ho Hj. rewrite <- str_app_assoc, app_assoc. apply (lexes_app d true); [|done|done]. by apply (lexes_app d false).
Qed.
Lemma operand_text x : operand_ok dr m x → ∃ s, expr_text q m (exprOf (arg_of x)) = Some (s, match x with OVal v => [v] | OCol _ => [] end) ∧
  parens (exprOf (arg_of x)) s = s ∧ lexes d false s [operand_tok m x].
Proof.
  destruct x as [n|v]; cbn [operand_ok arg_of exprOf expr_text Col c_table c_name parens operand_tok]; intros Hx.
  - rewrite own_text by done. eexists. split; [done|]. split; [done|]. apply lexes_name.
  - eexists. split; [done|]. split; [done|]. lex_lit.
Qed.

Lemma cond_text c : cond_ok dr m c → ∃ s, pred_text q m (pred_of c) = Some (s, vals c) ∧ lexes d false s (toks m c).
Proof.
  unfold pred_text. induction c as [o n x|c IH|a IHa b IHb|a IHa b IHb]; cbn [cond_ok]; intros Hok.
  - destruct Hok as [Hn Hx]. destruct (operand_text x Hx) as (s & Es & Ep & Hs).
    exists (quoted q (col_of m n) +:+ op_text (op_str o) +:+ s). split.
    + destruct o; cbn [pred_of Column_EQ Column_LT Column_GT of_pred p_left p_op p_right expr_text Col c_table c_name mbind option_bind];
        rewrite own_text by done; cbn [fmap option_fmap option_map mbind option_bind]; rewrite Es; cbn [mbind option_bind parens];
        rewrite Ep, List.app_nil_l; by destruct x.
    + apply (lexes_binary _ _ _ [TName _] [_] [TSym (op_char o)]); [apply lexes_name|done|destruct o; lex_lit|by destruct o, d].
  - destruct (IH Hok) as (s & Es & Hs). exists ("" +:+ op_text "NOT" +:+ "(" +:+ s +:+ ")"). split.
    + cbn [pred_of Not of_pred p_left p_op p_right expr_text mbind option_bind] in *. by rewrite Es.
    + apply (lexes_binary _ _ _ [] _ [TWord "NOT"]); [apply lexes_nil|by apply lexes_parens|lex_lit|by destruct d].
  - destruct Hok as [Ha Hb]. destruct (IHa Ha) as (sa & Ea & Hsa). destruct (IHb Hb) as (sb & Eb & Hsb).
    exists (("(" +:+ sa +:+ ")") +:+ op_text "AND" +:+ "(" +:+ sb +:+ ")"). split.
    + cbn [pred_of And of_pred p_left p_op p_right expr_text mbind option_bind] in *. by rewrite Ea, Eb.
    + apply (lexes_binary _ _ _ _ _ [TWord "AND"]); [by apply lexes_parens..|lex_lit|by destruct d].
  - destruct Hok as [Ha Hb]. destruct (IHa Ha) as (sa & Ea & Hsa). destruct (IHb Hb) as (sb & Eb & Hsb).
    exists (("(" +:+ sa +:+ ")") +:+ op_text "OR" +:+ "(" +:+ sb +:+ ")"). split.
    + cbn [pred_of Or of_pred p_left p_op p_right expr_text mbind option_bind] in *. by rewrite Ea, Eb.
    + apply (lexes_binary _ _ _ _ _ [TWord "OR"]); [by apply lexes_parens..|lex_lit|by destruct d].
Qed.
End texts.

(** ** The structure of a condition *)

(** An operand of [AND]: its words, arguments and structure.  [tight n]: it is read
    as one whatever follows, with [n] levels of parentheses. *)
Record conjunct := mkItem { i_toks : list token; i_vals : list dbval; i_sx : sexp }.
Definition tight (n : nat) (i : conjunct) : Prop := ∀ rest ws,
  p_not (p_or n) (i_toks i ++ rest) (i_vals i ++ ws) = Some (i_sx i, rest, ws).
Definition ends (ts : list token) : Prop := next_is (TWord "AND") ts = false ∧ next_is (TWord "OR") ts = false.

Definition and_toks (l : list conjunct) : list token :=
  match l with [] => [] | i :: l' => i_toks i ++ concat (map (λ i, TWord "AND" :: i_toks i) l') end.
Definition and_sx (l : list conjunct) : option sexp := match l with [] => None | i :: l' => Some (foldl XAnd (i_sx i) (map i_sx l')) end.

Lemma next_is_kw kw ts : next_is (TWord kw) (TWord kw :: ts) = true.
Proof. by apply bool_decide_eq_true. Qed.
Lemma p_more_items n l : Forall (tight n) l → ∀ fuel acc rest ws, (length l <= fuel)%nat → next_is (TWord "AND") rest = false →
  p_more "AND" XAnd (p_not (p_or n)) fuel acc (concat (map (λ i, TWord "AND" :: i_toks i) l) ++ rest) (concat (map i_vals l) ++ ws)
  = Some (foldl XAnd acc (map i_sx l), rest, ws).
Proof.
  induction 1 as [|i l Hi _ IH]; intros fuel acc rest ws Hf Hr; [cbn; destruct fuel; cbn; by rewrite Hr|].
  destruct fuel as [|fuel]; [cbn in Hf; lia|]. cbn [map concat]. rewrite <- !app_assoc, <- app_comm_cons.
  cbn [p_more]. rewrite next_is_kw. cbn [tail]. rewrite (Hi _ _). cbn [mbind option_bind map foldl]. apply IH; [cbn in Hf; lia|done].
Qed.
Lemma concat_length_le {A} (f : conjunct → A) (g : conjunct → list A) l : (length l <= length (concat (map (λ i, f i :: g i) l)))%nat.
Proof. induction l as [|i l IH]; [done|]. cbn. rewrite length_app. lia. Qed.

(** A conjunction read from the top. *)
Lemma and_items n l e rest ws : and_sx l = Some e → Forall (tight n) l → next_is (TWord "AND") rest = false →
  p_chain "AND" XAnd (p_not (p_or n)) (and_toks l ++ rest) (concat (map i_vals l) ++ ws) = Some (e, rest, ws).
Proof.
  destruct l as [|i l]; [done|]. cbn [and_sx and_toks map concat]. intros [= <-] Hl Hr. apply Forall_cons in Hl as [Hi Hl].
  unfold p_chain. rewrite <- !app_assoc, (Hi _ _). cbn [mbind option_bind]. apply p_more_items; [done| |done].
  rewrite length_app. pose proof (concat_length_le (λ _, TWord "AND") i_toks l). lia.
Qed.
Lemma or_single n l e rest ws : and_sx l = Some e → Forall (tight n) l → ends rest →
  p_or (S n) (and_toks l ++ rest) (concat (map i_vals l) ++ ws) = Some (e, rest, ws).
Proof.
  intros He Hl [H1 H2]. cbn [p_or]. unfold p_chain at 1. rewrite (and_items n l e) by done. cbn [mbind option_bind].
  destruct (length rest); cbn [p_more]; by rewrite H2.
Qed.

Section parsing.
Context (dr : Driver) (m : Model).
Local Notation cvals c := (map (db dr) (vals c)).

Fixpoint nesting (c : cond) : nat :=
  match c with CCmp _ _ _ => 1 | CNot c => S (nesting c) | CAnd a b | COr a b => S (Nat.max (nesting a) (nesting b)) end.
Lemma nesting_le c : (nesting c <= length (toks m c))%nat.
Proof. induction c; cbn [nesting toks]; unfold par; repeat (rewrite length_app || cbn [length]); lia. Qed.

Definition cond_item (c : cond) : conjunct := mkItem (toks m c) (cvals c) (sx dr m c).
Definition par_item (c : cond) : conjunct := mkItem (par (toks m c)) (cvals c) (sx dr m c).
Definition null_item (c : string) : conjunct := mkItem [TName c; TWord "IS"; TWord "NULL"] [] (XNull c).
Definition eq_item (c : string) (v : dbval) : conjunct := mkItem [TName c; TSym "="; TParam] [v] (XCmp "=" (inl c) (inr v)).
(** The operands of the outermost [AND]. *)
Definition items_of (c : cond) : list conjunct := match c with CAnd a b => [par_item a; par_item b] | _ => [cond_item c] end.
Definition is_or (c : cond) : bool := match c with COr _ _ => true | _ => false end.

Lemma tight_null n c : tight n (null_item c).
Proof. done. Qed.
Lemma tight_eq n c v : tight n (eq_item c v).
Proof. done. Qed.
Lemma tight_cmp n o c x : tight n (cond_item (CCmp o c x)).
Proof. intros rest ws. by destruct o, x. Qed.

Definition reads (n : nat) (c : cond) : Prop := ∀ rest ws, ends rest →
  p_or n (toks m c ++ rest) (cvals c ++ ws) = Some (sx dr m c, rest, ws).
Lemma tight_par n c : reads n c → tight n (par_item c).
Proof.
  intros Hc rest ws. cbn [par_item i_toks i_vals i_sx]. unfold par. rewrite <- app_comm_cons, <- app_assoc. cbn [p_not].
  rewrite bool_decide_false by done. unfold p_prim. cbn [expect]. rewrite bool_decide_true by done.
  rewrite (Hc ([TSym ")"] ++ rest) ws) by done. cbn [mbind option_bind app expect]. by rewrite bool_decide_true.
Qed.
Lemma tight_not n c : reads n c → tight n (cond_item (CNot c)).
Proof.
  intros Hc rest ws. cbn [cond_item i_toks i_vals i_sx toks vals]. rewrite <- app_comm_cons. cbn [p_not].
  rewrite bool_decide_true by done. pose proof (tight_par n c Hc rest ws) as H. cbn [par_item i_toks i_vals i_sx] in H. by rewrite H.
Qed.
Lemma items_tight n c : is_or c = false → (∀ c', nesting c' < nesting c → reads n c')%nat → Forall (tight n) (items_of c).
Proof.
  intros Ho Hn. destruct c as [o f x|c|a b|a b]; [..|done]; cbn [items_of nesting] in *; repeat constructor.
  - apply tight_cmp.
  - apply tight_not, Hn. lia.
  - apply tight_par, Hn. lia.
  - apply tight_par, Hn. lia.
Qed.
Lemma items_spec c : and_toks (items_of c) = toks m c ∧ concat (map i_vals (items_of c)) = cvals c ∧ and_sx (items_of c) = Some (sx dr m c).
Proof.
  destruct c; cbn [items_of and_toks map concat and_sx foldl]; rewrite ?app_nil_r; split_and!; try done.
  cbn [vals]. by rewrite map_app.
Qed.
Lemma cond_reads n : ∀ c, (nesting c <= n)%nat → reads n c.
Proof.
  induction n as [|n IH]; intros c Hn; [destruct c; cbn in Hn; lia|].
  destruct (is_or c) eqn:Ho.
  - destruct c as [| | |a b]; try done. cbn [nesting] in Hn. intros rest ws [H1 H2]. cbn [toks vals p_or].
    rewrite map_app, <- !app_assoc, <- app_comm_cons. unfold p_chain at 1.
    pose proof (and_items n [par_item a] (sx dr m a) (TWord "OR" :: par (toks m b) ++ rest) (cvals b ++ ws)) as Ha.
    cbn [and_toks map concat par_item i_toks i_vals] in Ha. rewrite !app_nil_r in Ha. rewrite Ha; [|done|by repeat constructor; apply tight_par, IH; lia|done].
    cbn [mbind option_bind length p_more]. rewrite next_is_kw. cbn [tail].
    pose proof (and_items n [par_item b] (sx dr m b) rest ws) as Hb.
    cbn [and_toks map concat par_item i_toks i_vals] in Hb. rewrite !app_nil_r in Hb. rewrite Hb; [|done|by repeat constructor; apply tight_par, IH; lia|done].
    cbn [mbind option_bind sx]. destruct (length (par (toks m b) ++ rest)); cbn [p_more]; by rewrite H2.
  - intros rest ws Hr. destruct (items_spec c) as (<- & <- & He). apply or_single; [done| |done].
    apply items_tight; [done|]. intros c' Hc'. apply IH. lia.
Qed.
End parsing.

(** ** The [WHERE] clause *)
Section where_clause.
Context (d : Dialect) (dr : Driver) (m : Model).
Local Notation q := (dialect_quoter d).

Definition null_items : list conjunct := match field_at m (DeletedAtField m) with Some f => [null_item (ColName f)] | None => [] end.
Definition cond_items (cs : list cond) : list conjunct := match conj_of cs with Some c => items_of dr m c | None => [] end.
Definition cond_vals (cs : list cond) : list gval := match conj_of cs with Some c => vals c | None => [] end.
Definition wtoks (l : list conjunct) : list token := match l with [] => [] | _ => TWord "WHERE" :: and_toks l end.

(** Deleted rows are hidden; all conditions hold. *)
Definition visible (r : row) : bool :=
  match field_at m (DeletedAtField m) with Some f => bool_decide (cell r (ColName f) = DBNull) | None => true end.
Definition wanted (cs : list cond) (r : row) : bool := forallb (λ c, bool_decide (holds dr m r c = Some true)) cs.

Lemma and3_true a b : and3 a b = Some true ↔ a = Some true ∧ b = Some true.
Proof. destruct a as [[]|], b as [[]|]; naive_solver. Qed.
Lemma selects_items l r : selects dr (and_sx l) r = forallb (λ i, bool_decide (eval dr r (i_sx i) = Some true)) l.
Proof.
  destruct l as [|i l]; [done|]. cbn [and_sx selects forallb]. generalize (i_sx i). clear i.
  induction l as [|j l IH]; intros e; [cbn; by rewrite andb_true_r|]. cbn [map foldl forallb]. rewrite IH. cbn [eval].
  rewrite andb_assoc. f_equal. rewrite <- bool_decide_and. apply bool_decide_ext, and3_true.
Qed.
Lemma selects_cond cs r : forallb (λ i, bool_decide (eval dr r (i_sx i) = Some true)) (cond_items cs) = wanted cs r.
Proof.
  rewrite <- selects_items. unfold cond_items, wanted. destruct cs as [|c cs]; [done|]. cbn [conj_of].
  destruct (items_spec dr m (foldl CAnd c cs)) as (_ & _ & ->). cbn [selects]. rewrite eval_sx. cbn [forallb].
  revert c. induction cs as [|c' cs IH]; intros c; [cbn; by rewrite andb_true_r|]. cbn [foldl forallb]. rewrite IH.
  rewrite andb_assoc. f_equal. rewrite <- bool_decide_and. apply bool_decide_ext. cbn [holds]. apply and3_true.
Qed.
Lemma selects_where cs guard r :
  selects dr (and_sx (null_items ++ cond_items cs ++ guard)) r
  = visible r && wanted cs r && forallb (λ i, bool_decide (eval dr r (i_sx i) = Some true)) guard.
Proof.
  rewrite selects_items, !forallb_app, selects_cond, andb_assoc. f_equal. f_equal. unfold null_items, visible.
  destruct (field_at m (DeletedAtField m)); [|done]. cbn. rewrite andb_true_r. apply bool_decide_ext. split; [|intros; by rewrite bool_decide_true].
  intros [= H]. by apply bool_decide_eq_true in H.
Qed.

(** Nothing else is joined to a condition that is a disjunction: the ORM adds its own
    conditions without parentheses. *)
Definition separable (cs : list cond) (guard : list conjunct) : Prop :=
  match conj_of cs with Some c => is_or c = true → null_items = [] ∧ guard = [] | None => True end.

Lemma and_toks_prefix l1 l : (length (and_toks l) <= length (and_toks (l1 ++ l)))%nat.
Proof.
  destruct l1 as [|i l1]; [done|]. destruct l as [|j l]; [cbn; lia|]. cbn [app and_toks]. rewrite map_app, concat_app, !length_app.
  cbn [map concat length]. rewrite length_app. cbn [length]. lia.
Qed.
Lemma and_toks_suffix l l2 : (length (and_toks l) <= length (and_toks (l ++ l2)))%nat.
Proof. destruct l as [|i l]; [cbn; lia|]. cbn [app and_toks]. rewrite map_app, concat_app, !length_app. lia. Qed.

Lemma null_tight n : Forall (tight n) null_items.
Proof. unfold null_items. destruct (field_at m (DeletedAtField m)); [|done]. apply Forall_singleton, tight_null. Qed.
Lemma where_reads cs guard : separable cs guard → (∀ n, Forall (tight n) guard) →
  let l := null_items ++ cond_items cs ++ guard in
  p_where (wtoks l ++ [TSym ";"]) (concat (map i_vals l)) = Some (and_sx l).
Proof.
  intros Hsep Hg. cbn zeta. remember (null_items ++ cond_items cs ++ guard) as l eqn:El.
  destruct (decide (l = [])) as [->|Hne]; [done|].
  assert (wtoks l = TWord "WHERE" :: and_toks l) as -> by (by destruct l).
  assert (is_Some (and_sx l)) as [e He] by (destruct l; [done|by eexists]).
  unfold p_where. rewrite <- app_comm_cons. cbn [expect length]. rewrite bool_decide_true by done. rewrite He.
  set (n := length (and_toks l ++ [TSym ";"])).
  enough (p_or (S n) (and_toks l ++ [TSym ";"]) (concat (map i_vals l) ++ []) = Some (e, [TSym ";"], [])) as H
    by (rewrite app_nil_r in H; by rewrite H).
  assert (∀ c, conj_of cs = Some c → nesting c <= n)%nat as Hn.
  { intros c Hc. pose proof (nesting_le m c). destruct (items_spec dr m c) as (E & _ & _). unfold n. rewrite length_app, El. unfold cond_items. rewrite Hc.
    pose proof (and_toks_prefix null_items (items_of dr m c ++ guard)). pose proof (and_toks_suffix (items_of dr m c) guard). rewrite E in *. lia. }
  destruct (conj_of cs) as [c|] eqn:Ec; [destruct (is_or c) eqn:Eo|].
  - unfold separable in Hsep. rewrite Ec in Hsep. destruct (Hsep Eo) as [H1 H2]. unfold cond_items in El. rewrite H1, H2, Ec, app_nil_r, List.app_nil_l in El.
    rewrite El in *. destruct (items_spec dr m c) as (E1 & E2 & E3). rewrite E1, E2. rewrite E3 in He. injection He as <-.
    apply cond_reads; [|done]. specialize (Hn c eq_refl). lia.
  - apply or_single; [done| |done]. rewrite El. unfold cond_items. rewrite Ec. apply Forall_app. split.
    { apply null_tight. }
    apply Forall_app. split; [|apply Hg]. apply items_tight; [done|]. intros c' Hc'. apply cond_reads. specialize (Hn c eq_refl). lia.
  - apply or_single; [done| |done]. rewrite El. unfold cond_items. rewrite Ec. apply Forall_app. split; [apply null_tight|apply Hg].
Qed.

Lemma cond_ok_conj cs c : Forall (cond_ok dr m) cs → conj_of cs = Some c → cond_ok dr m c.
Proof.
  intros Hok. destruct cs as [|c0 cs]; [done|]. intros [= <-]. apply Forall_cons in Hok as [H0 Hok]. revert c0 H0.
  induction Hok as [|c' cs Hc' _ IH]; intros c0 H0; [done|]. cbn [foldl]. by apply IH.
Qed.
Lemma cond_vals_sendable cs : Forall (cond_ok dr m) cs → sendable dr (cond_vals cs).
Proof.
  intros Hok. unfold cond_vals. destruct (conj_of cs) as [c|] eqn:Ec; [|by constructor]. apply (vals_sendable dr m). by eapply cond_ok_conj.
Qed.
Lemma where_vals cs guard : concat (map i_vals (null_items ++ cond_items cs ++ guard)) = map (db dr) (cond_vals cs) ++ concat (map i_vals guard).
Proof.
  rewrite !map_app, !concat_app.
  assert (concat (map i_vals null_items) = []) as -> by (unfold null_items; by destruct (field_at m (DeletedAtField m))).
  assert (concat (map i_vals (cond_items cs)) = map (db dr) (cond_vals cs)) as ->; [|done].
  unfold cond_items, cond_vals. destruct (conj_of cs) as [c|]; [|done]. by destruct (items_spec dr m c) as (_ & -> & _).
Qed.

Lemma joins_delim a s : delim d s = true → joins d a false s = true.
Proof. destruct a, s; done. Qed.
Lemma lexes_where l s : lexes d false s (and_toks l) → l ≠ [] → lexes d false (" WHERE " +:+ s) (wtoks l).
Proof. intros Hs Hl. assert (wtoks l = [TWord "WHERE"] ++ and_toks l) as -> by (by destruct l). apply (lexes_app d true); [lex_lit|done|done]. Qed.
Lemma lexes_null f : lexes d false (quoted q (ColName f) +:+ " IS NULL") (i_toks (null_item (ColName f))).
Proof.
  apply (lexes_app d false false _ " IS NULL" [TName _] [TWord "IS"; TWord "NULL"]); [apply lexes_name| |by destruct d].
  intros rest Hr. rewrite feed_spec. assert (feed d LIdle " IS NULL" = ([TWord "IS"], LWord "NULL")) as -> by (by destruct d). cbn [fst snd].
  apply (delim_next d rest [TWord "IS"] (LWord "NULL") (TWord "NULL")); [done| |done]. intros c Hw _. cbn [lex_step]. by rewrite Hw.
Qed.

Lemma where_lexes cs : Forall (cond_ok dr m) cs → ∃ sw, where_text q m (map pred_of cs) = Some (sw, cond_vals cs) ∧
  lexes d false sw (wtoks (null_items ++ cond_items cs)) ∧ delim d sw = true.
Proof.
  intros Hok. unfold where_text, null_items, cond_items, cond_vals.
  destruct cs as [|c cs]; cbn [conj_of map].
  - destruct (field_at m (DeletedAtField m)) as [f|]; eexists; (split; [reflexivity|]).
    + split; [|by destruct d]. apply lexes_where; [|done]. cbn [and_toks app map concat]. rewrite app_nil_r. apply lexes_null.
    + split; [apply lexes_nil|done].
  - destruct (cond_text d dr m (foldl CAnd c cs)) as (s & Es & Hs); [by eapply cond_ok_conj|]. rewrite pred_of_conj, Es. cbn [mbind option_bind].
    destruct (items_spec dr m (foldl CAnd c cs)) as (E & _ & _).
    destruct (field_at m (DeletedAtField m)) as [f|]; eexists; (split; [reflexivity|]); (split; [|by destruct d]).
    + rewrite str_app_assoc. change (" IS NULL AND " +:+ s) with (" IS NULL" +:+ " AND " +:+ s). rewrite <- (str_app_assoc (quoted q _)).
      apply lexes_where; [|by destruct (foldl CAnd c cs)].
      set (its := items_of dr m (foldl CAnd c cs)) in *.
      assert (and_toks ([null_item (ColName f)] ++ its) = i_toks (null_item (ColName f)) ++ [TWord "AND"] ++ and_toks its) as ->.
      { unfold its. by destruct (foldl CAnd c cs). }
      apply (lexes_app d false); [apply lexes_null| |by destruct d]. apply (lexes_app d true); [lex_lit| |done]. by rewrite E.
    + rewrite app_nil_l. apply lexes_where; [|by destruct (foldl CAnd c cs)]. by rewrite List.app_nil_l, E.
Qed.
End where_clause.
