(* ===== verification/OrmStmtFacts.v ===== *)
(** * The ORM's statements as a database reads them

    Each exact text of [OrmTextFacts] parses to one statement of [OrmSql]: names,
    columns, rows, assignments and the condition are the ones asked for. *)

From S2P Require Import Prelude GoStrings OrmModel OrmModelFacts OrmBuilder OrmQuery OrmQueryFacts OrmTextFacts OrmExec OrmExecFacts OrmSql OrmSqlFacts.
Local Open Scope Z_scope.

(** ** Lists *)
Lemma sep_cons x y l : sep_toks (x :: y :: l) = x ++ TSym "," :: sep_toks (y :: l).
Proof. done. Qed.
Lemma p_sep_spec {A B} (p : parser B) (tk : A → list token) (av : A → list dbval) (g : A → B) l : l ≠ [] →
  (∀ x rest ws, x ∈ l → p (tk x ++ rest) (av x ++ ws) = Some (g x, rest, ws)) →
  ∀ fuel rest ws, (length l <= fuel)%nat → next_is (TSym ",") rest = false →
  p_sep p fuel (sep_toks (map tk l) ++ rest) (concat (map av l) ++ ws) = Some (map g l, rest, ws).
Proof.
  induction l as [|x l IH]; [done|]. intros _ Hp fuel rest ws Hf Hr. destruct fuel as [|fuel]; [cbn in Hf; lia|]. cbn [p_sep].
  destruct l as [|y l].
  - cbn [map sep_toks concat]. rewrite app_nil_r, Hp by left. cbn [mbind option_bind].
    assert (expect (TSym ",") rest = None) as ->; [|done]. destruct rest as [|t rest]; [done|]. cbn. case_bool_decide as E; [|done].
    subst t. by apply bool_decide_eq_false in Hr.
  - change (map tk (x :: y :: l)) with (tk x :: tk y :: map tk l). rewrite sep_cons, <- app_assoc, <- app_comm_cons.
    cbn [map concat]. rewrite <- app_assoc, Hp by left. cbn [mbind option_bind expect]. rewrite bool_decide_true by done.
    pose proof (IH ltac:(done) (λ z r w Hz, Hp z r w ltac:(by right)) fuel rest ws ltac:(cbn in *; lia) Hr) as H.
    cbn [map concat] in H. by rewrite H.
Qed.
Lemma sep_length l : Forall (λ ts, ts ≠ []) l → (length l <= length (sep_toks l))%nat.
Proof.
  induction 1 as [|x l Hx Hl IH]; [done|]. destruct l as [|y l]; [destruct x; cbn; [done|lia]|].
  rewrite sep_cons, length_app. destruct x; [done|]. cbn [length] in *. lia.
Qed.
(** Items, each with at least one word. *)
Lemma p_list_spec {A B} (p : parser B) (tk : A → list token) (av : A → list dbval) (g : A → B) l rest ws : l ≠ [] →
  (∀ x rest ws, x ∈ l → p (tk x ++ rest) (av x ++ ws) = Some (g x, rest, ws)) → (∀ x, tk x ≠ []) → next_is (TSym ",") rest = false →
  p_list p (sep_toks (map tk l) ++ rest) (concat (map av l) ++ ws) = Some (map g l, rest, ws).
Proof.
  intros Hl Hp Ht Hr. apply p_sep_spec; [done|done| |done]. rewrite length_app.
  pose proof (sep_length (map tk l)) as H. rewrite length_map in H. enough (Forall (λ ts, ts ≠ []) (map tk l)) as H' by (specialize (H H'); lia).
  apply Forall_forall. intros ts (x & -> & _)%list_elem_of_fmap. apply Ht.
Qed.
Lemma p_parens_spec {A} (p : parser A) ts x rest ws ws' : p (ts ++ TSym ")" :: rest) ws = Some (x, TSym ")" :: rest, ws') →
  p_parens p (par ts ++ rest) ws = Some (x, rest, ws').
Proof.
  intros H. unfold p_parens, par. rewrite <- app_comm_cons, <- app_assoc. cbn [expect]. rewrite bool_decide_true by done.
  cbn [mbind option_bind app]. rewrite H. cbn [mbind option_bind expect]. by rewrite bool_decide_true.
Qed.
Lemma concat_nils {A B} (l : list A) : concat (map (λ _, @nil B) l) = [].
Proof. induction l; done. Qed.
Lemma concat_singletons {A} (l : list A) : concat (map (λ x, [x]) l) = l.
Proof. induction l as [|x l IH]; [done|]. cbn. by rewrite IH. Qed.

Lemma p_names_spec l rest ws : l ≠ [] → next_is (TSym ",") rest = false →
  p_list p_name (sep_toks (map (λ n, [TName n]) l) ++ rest) ws = Some (l, rest, ws).
Proof.
  intros Hl Hr. pose proof (p_list_spec p_name (λ n, [TName n]) (λ _, []) id l rest ws Hl) as H. rewrite map_id, concat_nils in H. by apply H.
Qed.
Lemma p_values_spec l rest ws : l ≠ [] → next_is (TSym ",") rest = false →
  p_list p_value (sep_toks (map (λ _, [TParam]) l) ++ rest) (l ++ ws) = Some (l, rest, ws).
Proof.
  intros Hl Hr. pose proof (p_list_spec p_value (λ _, [TParam]) (λ v, [v]) id l rest ws Hl) as H. rewrite map_id, concat_singletons in H. by apply H.
Qed.

Definition row_toks {A} (l : list A) : list token := par (sep_toks (map (λ _, [TParam]) l)).
Lemma p_rows_spec rows rest ws : rows ≠ [] → Forall (λ r, r ≠ []) rows → next_is (TSym ",") rest = false →
  p_list (p_parens (p_list p_value)) (sep_toks (map row_toks rows) ++ rest) (concat rows ++ ws) = Some (rows, rest, ws).
Proof.
  intros Hl Hne Hr. pose proof (p_list_spec (p_parens (p_list p_value)) row_toks id id rows rest ws Hl) as H. rewrite !map_id in H. apply H; [|done|done].
  intros x rest' ws' Hx. apply p_parens_spec, p_values_spec; [|done]. by eapply Forall_forall in Hne.
Qed.

(** Assignments. *)
Definition set_toks (x : setexp) : list token :=
  match x with
  | SetVal c _ => [TName c; TSym "="; TParam]
  | SetBump c => [TName c; TSym "="; TName c; TSym "+"; TWord "1"]
  end.
Definition set_vals (x : setexp) : list dbval := match x with SetVal _ v => [v] | SetBump _ => [] end.
Lemma p_sets_spec l rest ws : l ≠ [] → next_is (TSym ",") rest = false →
  p_list p_set (sep_toks (map set_toks l) ++ rest) (concat (map set_vals l) ++ ws) = Some (l, rest, ws).
Proof.
  intros Hl Hr. pose proof (p_list_spec p_set set_toks set_vals id l rest ws Hl) as H. rewrite map_id in H. apply H; [|by intros []|done].
  intros [c v|c] rest' ws' _; [done|]. cbn [set_toks set_vals app p_set]. destruct ws'; by rewrite bool_decide_true.
Qed.

(** ** Statements *)
Section statements.
Context (d : Dialect) (dr : Driver) (m : Model).
Local Notation q := (dialect_quoter d).

Lemma parse_lexed b text ts vs st : lexes d b text ts → p_stmt ts vs = Some st → parse q text vs = Some st.
Proof. intros Hl Hp. unfold parse. by rewrite (lexes_run d b text ts Hl). Qed.

(** The words before the first list or condition. *)
Lemma p_insert_head t ts vs : p_stmt (TWord "INSERT" :: TWord "INTO" :: TName t :: ts) vs =
  '(cols, ts, vs) ← p_parens (p_list p_name) ts vs; ts ← expect (TWord "VALUES") ts;
  '(rows, ts, vs) ← p_list (p_parens (p_list p_value)) ts vs; p_end ts vs ;; Some (SInsert t cols rows).
Proof. reflexivity. Qed.
Lemma p_update_head t ts vs : p_stmt (TWord "UPDATE" :: TName t :: TWord "SET" :: ts) vs =
  '(sets, ts, vs) ← p_list p_set ts vs; w ← p_where ts vs; Some (SUpdate t sets w).
Proof. reflexivity. Qed.
Lemma p_delete_head t ts vs : p_stmt (TWord "DELETE" :: TWord "FROM" :: TName t :: ts) vs = w ← p_where ts vs; Some (SDelete t w).
Proof. reflexivity. Qed.
Lemma p_select_head t ts vs : p_stmt (TWord "SELECT" :: TSym "*" :: TWord "FROM" :: TName t :: ts) vs = w ← p_where ts vs; Some (SSelect t w).
Proof. reflexivity. Qed.

Lemma lexes_row {A} (fields : list A) : lexes d false ("(" +:+ join "," (map (λ _, "?") fields) +:+ ")") (row_toks fields).
Proof. apply lexes_parens, lexes_join. intros x _. lex_lit. Qed.

Lemma lexes_names names : lexes d false ("(" +:+ join "," (map (quoted q) names) +:+ ")") (par (sep_toks (map (λ n, [TName n]) names))).
Proof. apply lexes_parens, lexes_join. intros n _. apply lexes_name. Qed.

Lemma parse_insert fields rows : fields ≠ [] → rows ≠ [] → Forall (λ r, length r = length fields) rows →
  parse q (insert_text d m fields (length rows) +:+ ";") (concat rows) = Some (SInsert (TableName m) (map ColName fields) rows).
Proof.
  intros Hf Hr Hl. apply (parse_lexed true _ ([TWord "INSERT"; TWord "INTO"] ++ [TName (TableName m)] ++
    par (sep_toks (map (λ n, [TName n]) (map ColName fields))) ++ [TWord "VALUES"] ++ sep_toks (map row_toks rows) ++ [TSym ";"])).
  - unfold insert_text. rewrite !str_app_assoc. lex_next (lexes_lit _ true _ [_; _]); [by destruct d|].
    apply (lexes_app d false); [apply lexes_name| |by destruct d].
    rewrite <- (str_app_assoc "("), <- (map_map ColName (quoted q)).
    pose proof (lexes_names (map ColName fields)) as Hn. rewrite <- str_app_assoc in Hn.
    rewrite <- (str_app_assoc _ ")"). apply (lexes_app d false); [exact Hn| |by destruct d].
    apply (lexes_app d true); [lex_lit| |done].
    apply (lexes_app d false); [|lex_lit|by destruct d]. rewrite <- (map_const_replicate (row_text fields) rows).
    apply lexes_join. intros r Hin. unfold row_text. eapply Forall_forall in Hl; [|done].
    assert (row_toks r = row_toks fields) as -> by (unfold row_toks; by rewrite !map_const_replicate, Hl). apply lexes_row.
  - cbn [app]. rewrite p_insert_head. erewrite (p_parens_spec (p_list p_name)); [|apply p_names_spec; [by destruct fields|done]].
    cbn [mbind option_bind app expect]. rewrite bool_decide_true by done. cbn [mbind option_bind].
    rewrite <- (app_nil_r (concat rows)), (p_rows_spec rows [TSym ";"] []); [done|done| |done].
    eapply Forall_impl; [exact Hl|]. intros [|] E; [by destruct fields|done].
Qed.

Lemma p_where_items ts cs guard sw : separable m cs guard → (∀ n, Forall (tight n) guard) → Forall (cond_ok dr m) cs →
  let l := null_items m ++ cond_items dr m cs ++ guard in
  ts = wtoks l → sw = map (db dr) (cond_vals cs) ++ concat (map i_vals guard) →
  p_where (ts ++ [TSym ";"]) sw = Some (and_sx l).
Proof. intros Hs Hg Hc l -> ->. rewrite <- (where_vals dr m). by apply where_reads. Qed.

(** The end of a statement with a condition. *)
Lemma lexes_tail sw cs : lexes d false sw (wtoks (null_items m ++ cond_items dr m cs)) →
  lexes d true (sw +:+ ";") (wtoks (null_items m ++ cond_items dr m cs ++ []) ++ [TSym ";"]).
Proof. intros Hs. rewrite app_nil_r. apply (lexes_app d false); [done|lex_lit|by destruct d]. Qed.
Lemma joins_tail a sw : delim d sw = true → joins d a true (sw +:+ ";") = true.
Proof. destruct a; [done|]. destruct sw; [by destruct d|done]. Qed.

Lemma parse_select cs sw : Forall (cond_ok dr m) cs → separable m cs [] →
  lexes d false sw (wtoks (null_items m ++ cond_items dr m cs)) → delim d sw = true →
  parse q ("SELECT * FROM " +:+ quoted q (TableName m) +:+ sw +:+ ";") (map (db dr) (cond_vals cs))
  = Some (SSelect (TableName m) (and_sx (null_items m ++ cond_items dr m cs ++ []))).
Proof.
  intros Hc Hsep Hs Hd. eapply (parse_lexed true).
  - lex_next (lexes_lit _ true _ [TWord "SELECT"; TSym "*"; TWord "FROM"]); [by destruct d|].
    eapply (lexes_app d false); [apply lexes_name|by apply lexes_tail|by apply joins_tail].
  - cbn [app]. rewrite p_select_head, (p_where_items _ cs []); [done|done|done|done|done|by rewrite app_nil_r].
Qed.
Lemma parse_delete cs sw : Forall (cond_ok dr m) cs → separable m cs [] →
  lexes d false sw (wtoks (null_items m ++ cond_items dr m cs)) → delim d sw = true →
  parse q ("DELETE FROM " +:+ quoted q (TableName m) +:+ sw +:+ ";") (map (db dr) (cond_vals cs))
  = Some (SDelete (TableName m) (and_sx (null_items m ++ cond_items dr m cs ++ []))).
Proof.
  intros Hc Hsep Hs Hd. eapply (parse_lexed true).
  - lex_next (lexes_lit _ true _ [TWord "DELETE"; TWord "FROM"]); [by destruct d|].
    eapply (lexes_app d false); [apply lexes_name|by apply lexes_tail|by apply joins_tail].
  - cbn [app]. rewrite p_delete_head, (p_where_items _ cs []); [done|done|done|done|done|by rewrite app_nil_r].
Qed.

(** Assignments as text. *)
Definition setexp_text (x : setexp) : string :=
  match x with
  | SetVal c _ => quoted q c +:+ "=?"
  | SetBump c => quoted q c +:+ "=" +:+ quoted q c +:+ "+1"
  end.
Lemma lexes_set x : lexes d false (setexp_text x) (set_toks x).
Proof.
  destruct x as [c v|c]; cbn [setexp_text set_toks].
  - apply (lexes_app d false false _ _ [TName c] [_; _]); [apply lexes_name|lex_lit|by destruct d].
  - apply (lexes_app d false false _ _ [TName c] [_; _; _; _]); [apply lexes_name| |by destruct d].
    apply (lexes_app d true false "=" _ [TSym "="] [_; _; _]); [lex_lit| |done].
    apply (lexes_app d false false _ "+1" [TName c] [_; _]); [apply lexes_name| |by destruct d].
    intros rest Hr. rewrite feed_spec. assert (feed d LIdle "+1" = ([TSym "+"], LWord "1")) as -> by (by destruct d). cbn [fst snd].
    apply (delim_next d rest [TSym "+"] (LWord "1") (TWord "1")); [done| |done]. intros c' Hw _. cbn [lex_step]. by rewrite Hw.
Qed.

Lemma parse_update sets cs guard sw : sets ≠ [] → Forall (cond_ok dr m) cs → separable m cs guard → (∀ n, Forall (tight n) guard) →
  lexes d false sw (wtoks (null_items m ++ cond_items dr m cs ++ guard)) → delim d sw = true →
  parse q ("UPDATE " +:+ quoted q (TableName m) +:+ " SET " +:+ join "," (map setexp_text sets) +:+ sw +:+ ";")
    (concat (map set_vals sets) ++ map (db dr) (cond_vals cs) ++ concat (map i_vals guard))
  = Some (SUpdate (TableName m) sets (and_sx (null_items m ++ cond_items dr m cs ++ guard))).
Proof.
  intros Hne Hc Hsep Hg Hs Hd. eapply (parse_lexed true).
  - lex_next (lexes_lit _ true _ [TWord "UPDATE"]); [by destruct d|].
    apply (lexes_app d false true _ _ [TName (TableName m)]); [apply lexes_name| |by destruct d].
    apply (lexes_app d true true " SET " _ [TWord "SET"]); [lex_lit| |done].
    eapply (lexes_app d false); [apply (lexes_join d _ set_toks); intros x _; apply lexes_set| |by apply joins_tail].
    eapply (lexes_app d false); [exact Hs|apply (lexes_lit d true ";" [TSym ";"]); by destruct d|by destruct d].
  - cbn [app]. rewrite p_update_head, p_sets_spec; [|done|by destruct (null_items m ++ cond_items dr m cs ++ guard)].
    cbn [mbind option_bind]. by rewrite (p_where_items _ cs guard).
Qed.
End statements.
