(* ===== verification/OrmStoreFacts.v ===== *)
(** * The ORM on a database: what its calls do to a table

    The calls of [OrmExec], whose texts [OrmStmtFacts] reads back, over any database
    that keeps the interface of [OrmSql]. *)

From S2P Require Import Prelude GoStrings OrmModel OrmModelFacts OrmBuilder OrmQuery OrmQueryFacts OrmTextFacts OrmExec OrmExecFacts OrmRowsFacts OrmSql OrmSqlFacts OrmStmtFacts.
Local Open Scope Z_scope.
Local Open Scope orm_scope.

(** ** The exact texts of SELECT and DELETE *)
Section texts.
Context (d : Dialect) (cr : Creator) (s : structdef) (m : Model) (Hp : parseModel (PtrStruct s) = inr m).
Local Notation q := (dialect_quoter d).

Definition select_text (sw : string) : string := "SELECT * FROM " +:+ quoted q (TableName m) +:+ sw +:+ ";".
Lemma select_writes ps sw vw b : where_text q m ps = Some (sw, vw) → reg_ok (reg b) → sqlStrBuilder b = "" → args b = [] →
  ∃ r', reg_ok r' ∧ Selector_Build q (PtrStruct s) (Selector_Where NewSelector ps) b
    = (mkB (select_text sw) vw r', Ok (mkQuery (select_text sw) vw)).
Proof.
  intros Hw Hr Hs Ha. destruct (rGet_spec (PtrStruct s) m b Hr Hp) as (r' & Hr' & Hget). exists r'. split; [done|].
  unfold Selector_Build. cbn [Selector_Where NewSelector s_columns s_table s_where s_groupBy s_having s_orderBy s_limit s_offset].
  unfold bind at 1. rewrite Hget. do 4 (unfold bind at 1; cbn [buildColumns buildTable WriteString]; rewrite ?(writes_quote q (TableName m))).
  unfold bind at 1. rewrite (writes_where q m _ _ _ Hw). unfold buildLimit, bind, ret, finish. cbn [sqlStrBuilder args reg Z.ltb Z.compare].
  rewrite Hs, Ha. unfold select_text. by rewrite !str_app_assoc.
Qed.

Definition delete_text (now : Z) (sw : string) : string :=
  match field_at m (DeletedAtField m) with
  | Some f => "UPDATE " +:+ quoted q (TableName m) +:+ " SET " +:+ (quoted q (ColName f) +:+ "=?") +:+ sw +:+ ";"
  | None => "DELETE FROM " +:+ quoted q (TableName m) +:+ sw +:+ ";"
  end.
Definition delete_args (now : Z) (vw : list gval) : list gval :=
  match field_at m (DeletedAtField m) with Some _ => VTime now :: vw | None => vw end.
Lemma delete_writes now ps sw vw b : where_text q m ps = Some (sw, vw) → reg_ok (reg b) → sqlStrBuilder b = "" → args b = [] →
  ∃ r', reg_ok r' ∧ Deleter_Build q now (PtrStruct s) (Deleter_Where NewDeleter ps) b
    = (mkB (delete_text now sw) (delete_args now vw) r', Ok (mkQuery (delete_text now sw) (delete_args now vw))).
Proof.
  intros Hw Hr Hs Ha. destruct (rGet_spec (PtrStruct s) m b Hr Hp) as (r' & Hr' & Hget). exists r'. split; [done|].
  unfold Deleter_Build. unfold bind at 1. rewrite Hget. unfold delete_text, delete_args. pose proof (writes_where q m _ _ _ Hw) as Hww.
  destruct (field_at m (DeletedAtField m)) as [f|] eqn:Ef.
  - unfold buildSoftDelete, buildTarget. cbn [Deleter_Where NewDeleter d_tableName d_where]. rewrite bool_decide_true by done.
    do 6 (unfold bind at 1; cbn [WriteString add_args]; rewrite ?(writes_quote q _)).
    unfold bind at 1. rewrite Hww. unfold finish. cbn [sqlStrBuilder args reg]. rewrite Hs, Ha. by rewrite !str_app_assoc.
  - unfold buildTarget. cbn [Deleter_Where NewDeleter d_tableName d_where]. rewrite bool_decide_true by done.
    do 2 (unfold bind at 1; cbn [WriteString]; rewrite ?(writes_quote q _)).
    unfold buildWhereWithSoftDelete in Hww. rewrite Ef in Hww.
    destruct ps; unfold bind at 1; rewrite Hww; unfold finish; cbn [sqlStrBuilder args reg]; rewrite Hs, Ha; by rewrite !str_app_assoc.
Qed.
End texts.

(** ** One table of the database *)
Section store.
Context {W : Type} (d : Dialect) (cr : Creator) (dr : Driver) (s : structdef) (m : Model).
Context (tables : W → Database) (up : W → Prop).
Context (execContext : W → string → list gval → W * (orm_err + sqlResult)) (queryContext : W → string → list gval → W * (orm_err + Rows)).
Context `{!GoDriver dr} `{!SqlDatabase dr (dialect_quoter d) tables up execContext queryContext}.
Context (Hp : parseModel (PtrStruct s) = inr m) (Hnd : NoDup (map f_Name (s_Fields s))).
Context (Hcols : NoDup (map ColName (Fields m))) (Hne : Fields m ≠ []).
(** The table has the model's columns, in any order; the other tables are [rest]. *)
Context (cols : list string) (Hperm : cols ≡ₚ map ColName (Fields m)) (rest : Database).
Local Notation q := (dialect_quoter d).
Local Notation tname := (TableName m).

Definition table_is (w : W) (rows : list row) : Prop := tables w = <[tname := mkT cols rows]> rest.

(** A call starts with a new builder. *)
Definition ready (e : est W) : Prop := reg_ok (reg (e_b e)) ∧ sqlStrBuilder (e_b e) = "" ∧ args (e_b e) = [].

(** The effect of a statement that the database reads as [st]. *)
Lemma run_exec w rows text args st rows' n : table_is w rows → sendable dr args → parse q text (map (db dr) args) = Some st →
  run_stmt dr st (<[tname := mkT cols rows]> rest) = Some (<[tname := mkT cols rows']> rest, n) →
  match execContext w text args with
  | (w', inr r) => table_is w' rows' ∧ RowsAffected r = Ok n
  | (w', inl _) => (table_is w' rows ∨ table_is w' rows') ∧ ¬ up w
  end.
Proof.
  intros Hw Hs Hparse Hrun. unfold table_is in *. rewrite <- Hw in Hrun.
  pose proof (sql_exec w _ _ _ _ _ _ (bound_all dr _ Hs) Hparse Hrun) as H. by rewrite Hw in H.
Qed.

Lemma known_cols rows l : l ⊆ map ColName (Fields m) → known (mkT cols rows) l = true.
Proof.
  intros Hl. apply bool_decide_eq_true, Forall_forall. intros c Hc. cbn [t_cols]. rewrite Hperm. by apply Hl.
Qed.
Lemma field_col i f : Fields m !! i = Some f → ColName f ∈ map ColName (Fields m).
Proof. intros Hf. apply list_elem_of_fmap. exists f. split; [done|]. by eapply list_elem_of_lookup_2. Qed.
Lemma col_of_known n : is_Some (field_of m n) → col_of m n ∈ map ColName (Fields m).
Proof.
  intros [f Hf]. unfold col_of. rewrite Hf. unfold field_of, field_at in Hf. apply bind_Some in Hf as (i & _ & Hi). by eapply field_col.
Qed.

(** An entity as a row. *)
Definition row_of (v : svalue) : row := list_to_map (zip (map ColName (Fields m)) (map (db dr) v)).
Lemma row_of_cell v i f x : length v = length (Fields m) → Fields m !! i = Some f → v !! i = Some x → cell (row_of v) (ColName f) = db dr x.
Proof.
  intros Hl Hf Hx. unfold cell, row_of. rewrite (elem_of_list_to_map_1 _ _ (db dr x)); [done| |].
  - rewrite fst_zip; [done|]. rewrite !length_map. lia.
  - apply (list_elem_of_lookup_2 _ i). apply lookup_zip_Some. by rewrite !lookup_map_eq, Hf, Hx.
Qed.
Definition entity_at (h : store) (p : ptr) : svalue := default [] (deref h p).

(** A field of an entity. *)
Definition field_val (v : svalue) (f : Field) : gval := default VNil (FieldMap m !! GoName f ≫= λ i, v !! i).
Lemma field_val_at v i f : Fields m !! i = Some f → length v = length (Fields m) → v !! i = Some (field_val v f).
Proof.
  intros Hf Hl. destruct (parseModel_ok s m Hnd Hp) as [Hm _]. unfold field_val. rewrite (mo_field m Hm i f Hf). cbn [mbind option_bind].
  destruct (v !! i) eqn:E; [done|]. apply lookup_ge_None in E. apply lookup_lt_Some in Hf. lia.
Qed.
Lemma field_vals v : length v = length (Fields m) → map (field_val v) (Fields m) = v.
Proof.
  intros Hl. apply list_eq. intros i. rewrite lookup_map_eq. destruct (Fields m !! i) as [f|] eqn:Hf; cbn [fmap option_fmap option_map].
  - symmetry. by apply field_val_at.
  - apply lookup_ge_None in Hf. symmetry. apply lookup_ge_None. lia.
Qed.
Lemma entity_length h a v : typed s h → h !! a = Some v → length v = length (Fields m).
Proof.
  intros Hty Hv. destruct (parseModel_ok s m Hnd Hp) as [_ E]. rewrite (ty_store s h Hty a v Hv), <- (length_map f_Name), <- E. apply length_map.
Qed.
Lemma field_args h a v fields : typed s h → live cr s h (Some a) → h !! a = Some v → fields_in m fields →
  oks (row_args cr s h m fields (Some a)) = map (field_val v) fields.
Proof.
  intros Hty Hl Hv Hin. destruct (parseModel_ok s m Hnd Hp) as [Hm E]. pose proof (entity_length h a v Hty Hv) as Hlen.
  unfold row_args, oks. induction Hin as [|f fields [i Hf] _ IH]; [done|]. cbn [map omap list_omap].
  enough (GetFieldValue cr s m (deref h (Some a)) (GoName f) = Ok (field_val v f)) as -> by (by rewrite IH).
  pose proof (field_val_at v i f Hf Hlen) as Hx. unfold GetFieldValue. assert (deref h (Some a) = Some v) as -> by exact Hv. destruct cr.
  - rewrite (mo_field m Hm i f Hf). unfold index_or_panic. by rewrite Hx.
  - destruct (FieldByName_index s m i f Hnd E Hf) as (sf & Hsf & ->). destruct Hl as [_ [_ Hex]]. rewrite Forall_lookup in Hex.
    rewrite (Hex _ _ Hsf). unfold index_or_panic. by rewrite Hx.
Qed.
Lemma all_fields_in : fields_in m (Fields m).
Proof. apply Forall_forall. intros f Hf. by apply list_elem_of_lookup in Hf. Qed.
Lemma entity_args h p : typed s h → live cr s h p →
  oks (row_args cr s h m (Fields m) p) = entity_at h p ∧ length (entity_at h p) = length (Fields m).
Proof.
  intros Hty Hl. pose proof Hl as [[v Hv] _]. unfold entity_at. rewrite Hv. cbn [default]. destruct p as [a|]; [|done].
  pose proof (entity_length h a v Hty Hv) as Hlen. split; [|done]. rewrite (field_args h a v) by (done || apply all_fields_in). by apply field_vals.
Qed.

(** ** INSERT *)
Lemma exec_insert w rows (vs : list svalue) : table_is w rows → vs ≠ [] →
  Forall (λ v, length v = length (Fields m) ∧ sendable dr v) vs →
  match execContext w (insert_text d m (Fields m) (length vs) +:+ ";") (concat vs) with
  | (w', inr r) => table_is w' (rows ++ map row_of vs) ∧ RowsAffected r = Ok (Z.of_nat (length vs))
  | (w', inl _) => (table_is w' rows ∨ table_is w' (rows ++ map row_of vs)) ∧ ¬ up w
  end.
Proof.
  intros Hw Hvs Hall.
  assert (sendable dr (concat vs)) as Hsend by (apply Forall_concat; eapply Forall_impl; [exact Hall|]; by intros v [_ ?]).
  pose proof (parse_insert d m (Fields m) (map (map (db dr)) vs)) as Hparse. rewrite length_map, <- concat_map in Hparse.
  eapply (run_exec w rows); [done|done|apply Hparse; [done|by destruct vs|]|].
  { apply Forall_map. eapply Forall_impl; [exact Hall|]. intros v [? _]. cbn. by rewrite length_map. }
  cbn [run_stmt]. rewrite lookup_insert_eq. cbn [mbind option_bind].
  rewrite known_cols by done. unfold distinct. rewrite bool_decide_true by done.
  assert (forallb (λ vs0, (length vs0 =? length (map ColName (Fields m)))%nat) (map (map (db dr)) vs) = true) as ->.
  { apply forallb_forall. intros r (v & <- & Hin)%in_map_iff. eapply Forall_forall in Hall as [Hl _]; [|by apply list_elem_of_In].
    apply Nat.eqb_eq. by rewrite !length_map. }
  cbn [andb t_cols t_rows]. rewrite insert_insert_eq, map_map, length_map. done.
Qed.

(** All entities can be sent. *)
Definition sendable_store (h : store) : Prop := ∀ a v, h !! a = Some v → sendable dr v.
Lemma entity_ok h p : typed s h → sendable_store h → live cr s h p →
  length (entity_at h p) = length (Fields m) ∧ sendable dr (entity_at h p).
Proof.
  intros Hty Hs Hl. split; [by apply entity_args|]. destruct Hl as [[v Hv] _]. unfold entity_at. rewrite Hv. destruct p as [a|]; [|done]. by apply (Hs a).
Qed.
Definition rows_at (h : store) (ps : list ptr) : list row := map (λ p, row_of (entity_at h p)) ps.

Lemma exec_insert_values h w rows c : typed s h → sendable_store h → table_is w rows → c ≠ [] → Forall (live cr s h) c →
  match execContext w (insert_text d m (Fields m) (length c) +:+ ";") (insert_args cr s h m (Fields m) c) with
  | (w', inr r) => table_is w' (rows ++ rows_at h c) ∧ RowsAffected r = Ok (Z.of_nat (length c))
  | (w', inl _) => (table_is w' rows ∨ table_is w' (rows ++ rows_at h c)) ∧ ¬ up w
  end.
Proof.
  intros Hty Hs Hw Hc Hl. pose proof (exec_insert w rows (map (entity_at h) c) Hw) as Hx. rewrite length_map, map_map in Hx.
  assert (insert_args cr s h m (Fields m) c = concat (map (entity_at h) c)) as ->.
  { unfold insert_args. f_equal. apply map_ext_in. intros p Hin. apply entity_args; [done|]. rewrite Forall_forall in Hl.
    by apply Hl, list_elem_of_In. }
  apply Hx; [by destruct c|]. apply Forall_map. eapply Forall_impl; [exact Hl|]. intros p. by apply entity_ok.
Qed.
Lemma insert_all_rows h : typed s h → sendable_store h → ∀ chunks, Forall (λ c, c ≠ [] ∧ Forall (live cr s h) c) chunks →
  ∀ n last w rows, table_is w rows →
  let sent := insert_all execContext d cr s m h (Fields m) chunks n last w in
  ∃ k, (k <= length chunks)%nat ∧ table_is sent.1 (rows ++ rows_at h (concat (take k chunks))) ∧
    match sent.2 with
    | inl _ => ∃ w, ¬ up w
    | inr (n', _) => k = length chunks ∧
        (0 <= n → n + Z.of_nat (length (concat chunks)) < 2 ^ 63 → n' = n + Z.of_nat (length (concat chunks)))
    end.
Proof.
  intros Hty Hs. induction 1 as [|c chunks [Hc Hl] _ IH]; intros n last w rows Hw; cbn zeta.
  { exists 0%nat. cbn. rewrite app_nil_r. split_and!; [done|done|done|lia]. }
  cbn [insert_all]. pose proof (exec_insert_values h w rows c Hty Hs Hw Hc Hl) as Hx.
  destruct (execContext w _ _) as [w' [e|r]]; destruct Hx as [Hx Hn].
  - destruct Hx as [Hx|Hx]; [exists 0%nat|exists 1%nat]; cbn; rewrite ?app_nil_r; (split_and!; [lia|done|by exists w]).
  - destruct (IH (match RowsAffected r with Ok x => i64 (n + x) | _ => n end) (match LastInsertId r with Ok x => x | _ => last end) w' _ Hx)
      as (k & Hk & Ht & Hres).
    exists (S k). cbn [take concat length]. split_and!; [lia| |].
    + unfold rows_at in *. rewrite map_app, app_assoc. exact Ht.
    + destruct (insert_all _ _ _ _ _ _ _ _ _ _ _) as [? [|[n' l']]]; cbn [snd] in *; [exact Hres|]. destruct Hres as [-> Hsum].
      split; [done|]. rewrite Hn in Hsum. rewrite length_app, Nat2Z.inj_add. intros H0 H1.
      unfold i64 in Hsum. rewrite (wraps_small 64) in Hsum by lia. rewrite Hsum by lia. lia.
Qed.

(** ** SELECT *)
Definition selected (cs : list cond) (rows : list row) : list row := List.filter (λ r, visible m r && wanted dr m cs r) rows.

Lemma sexp_cols_known c : cond_ok dr m c → sexp_cols (sx dr m c) ⊆ map ColName (Fields m).
Proof.
  induction c as [o n x|c IH|a IHa b IHb|a IHa b IHb]; cbn [cond_ok sx sexp_cols]; [|done|intros [??]; set_solver..].
  intros [Hn Hx]. cbn [operand_cols]. pose proof (col_of_known n Hn). destruct x as [n'|v]; cbn [operand_sx operand_cols];
    [pose proof (col_of_known n' Hx)|]; set_solver.
Qed.
Definition item_known (i : conjunct) : Prop := sexp_cols (i_sx i) ⊆ map ColName (Fields m).
Lemma where_known rows cs guard : Forall (cond_ok dr m) cs → Forall item_known guard →
  known (mkT cols rows) (where_cols (and_sx (null_items m ++ cond_items dr m cs ++ guard))) = true.
Proof.
  intros Hc Hg. apply known_cols.
  assert (Forall item_known (null_items m ++ cond_items dr m cs ++ guard)) as Hall.
  { repeat (apply Forall_app; split); [| |done].
    - unfold null_items. destruct (field_at m (DeletedAtField m)) as [f|] eqn:Ef; [|done]. apply Forall_singleton. unfold item_known. cbn.
      unfold field_at in Ef. apply bind_Some in Ef as (i & _ & Hi). pose proof (field_col i f Hi). set_solver.
    - unfold cond_items. destruct (conj_of cs) as [c|] eqn:Ec; [|done]. pose proof (sexp_cols_known c (cond_ok_conj dr m cs c Hc Ec)) as Hk.
      destruct c; cbn [items_of sx sexp_cols] in *; repeat constructor; unfold item_known; cbn [i_sx cond_item par_item sx sexp_cols]; set_solver. }
  destruct (null_items m ++ cond_items dr m cs ++ guard) as [|i l]; [set_solver|]. cbn [and_sx where_cols].
  apply Forall_cons in Hall as [Hi Hl]. unfold item_known in Hi. revert Hi. generalize (i_sx i). induction Hl as [|j l Hj _ IH]; intros e He; [done|].
  cbn [map foldl]. apply IH. cbn [sexp_cols]. unfold item_known in Hj. set_solver.
Qed.
Lemma filter_ext_eq {A} (f g : A → bool) l : (∀ x, f x = g x) → List.filter f l = List.filter g l.
Proof. intros E. induction l as [|x l IH]; [done|]. cbn. by rewrite E, IH. Qed.

Lemma exec_select w rows cs sw vw : table_is w rows → Forall (cond_ok dr m) cs → separable m cs [] →
  where_text q m (map pred_of cs) = Some (sw, vw) →
  match queryContext w (select_text d m sw) vw with
  | (w', inr r) => table_is w' rows ∧ r = mkRows (inr cols) (map (λ r, map (cell r) cols) (selected cs rows)) None
  | (w', inl _) => table_is w' rows ∧ ¬ up w
  end.
Proof.
  intros Hw Hc Hsep Ht. destruct (where_lexes d dr m cs Hc) as (sw' & Ht' & Hlex & Hd). rewrite Ht in Ht'. injection Ht' as -> ->.
  pose proof (sql_query w _ _ _ _ cols (map (λ r, map (cell r) cols) (selected cs rows)) (bound_all dr _ (cond_vals_sendable dr m cs Hc))
    (parse_select d dr m cs sw' Hc Hsep Hlex Hd)) as H.
  unfold table_is in *. rewrite Hw in H. apply H. cbn [run_query]. rewrite lookup_insert_eq. cbn [mbind option_bind].
  rewrite where_known by done. cbn [t_cols t_rows]. do 3 f_equal. apply filter_ext_eq. intros r. rewrite selects_where. cbn [forallb].
  by rewrite andb_true_r.
Qed.

(** The entity [v] read from row [r]. *)
Section load.
Context (convert : ftype → dbval → orm_err + gval) (Hex : Forall (λ f, f_exported f = true) (s_Fields s)).

Definition loads (r : row) (v : svalue) : Prop :=
  length v = length (Fields m) ∧
  ∀ i f, Fields m !! i = Some f → ∃ y, convert (Type_ f) (cell r (ColName f)) = inr y ∧ v !! i = Some y.
Lemma loads_det r v v' : loads r v → loads r v' → v = v'.
Proof.
  intros [Hl H] [Hl' H']. apply list_eq_same_length with (length v); [lia|done|]. intros i x y Hi Hx Hy.
  destruct (lookup_lt_is_Some_2 (Fields m) i) as [f Hf]; [lia|]. destruct (H i f Hf) as (z & Hz & E). destruct (H' i f Hf) as (z' & Hz' & E').
  congruence.
Qed.

Lemma fields_length : length (new s) = length (Fields m).
Proof. rewrite new_length, <- (length_map f_Name). destruct (parseModel_ok s m Hnd Hp) as [_ <-]. apply length_map. Qed.
Lemma cols_nodup : NoDup cols.
Proof. by rewrite Hperm. Qed.

Lemma load_sound r v : SetColumns convert cr s m (inr cols) (map (cell r) cols) (new s) = Some (v, None) → loads r v.
Proof.
  intros E. destruct (SetColumns_spec convert s m Hnd Hp cr (inr cols) (map (cell r) cols) (new s) (or_intror Hex) (new_length s)) as (v' & o & E' & H).
  rewrite E in E'. injection E' as <- <-. destruct (H eq_refl) as (cs & [= <-] & Hst). destruct (Hst cols_nodup) as (_ & Hl & Hj & _).
  destruct (parseModel_ok s m Hnd Hp) as [Hm _]. split; [by rewrite Hl, fields_length|]. intros i f Hf.
  assert (ColName f ∈ cols) as Hin by (rewrite Hperm; by eapply field_col). apply list_elem_of_lookup in Hin as [j Hcj].
  destruct (Hj j (ColName f) (cell r (ColName f)) Hcj) as (i' & f' & y & Hi' & Hf' & Hy & Hv); [by rewrite lookup_map_eq, Hcj|].
  rewrite (own_column m i f Hm Hcols Hf) in Hi'. injection Hi' as <-. rewrite Hf in Hf'. injection Hf' as <-. by exists y.
Qed.

Lemma column_fields_total l : l ⊆ map ColName (Fields m) → ∃ dests, column_fields m l = inr dests.
Proof.
  destruct (parseModel_ok s m Hnd Hp) as [Hm _]. induction l as [|c l IH]; intros Hl; [by exists []|]. cbn [column_fields].
  assert (c ∈ map ColName (Fields m)) as Hc by (apply Hl; left). apply list_elem_of_fmap in Hc as (f & -> & [i Hi]%list_elem_of_lookup).
  rewrite (own_column m i f Hm Hcols Hi), Hi. destruct IH as [dests ->]; [set_solver|]. by eexists.
Qed.
Lemma scan_total dests : ∀ xs v, Forall2 (λ p x, is_Some (match convert (Type_ p.2) x with inr y => Some y | inl _ => None end)) dests xs →
  (scan_into convert dests xs v).2 = None.
Proof.
  induction dests as [|[i f] dests IH]; intros xs v H; inversion H as [|? x ? xs' [y Hx] H']; subst; [done|]. cbn [scan_into].
  cbn [snd] in Hx. destruct (convert (Type_ f) x); [done|]. by apply IH.
Qed.
Lemma column_count : (length cols <= size (ColumnMap m))%nat.
Proof.
  destruct (parseModel_ok s m Hnd Hp) as [Hm _]. rewrite <- (size_dom (D := gset string)). rewrite <- (size_list_to_set (C := gset string) cols) by apply cols_nodup.
  apply subseteq_size. intros c. rewrite elem_of_list_to_set, elem_of_dom, Hperm. intros (f & -> & [i Hi]%list_elem_of_lookup)%list_elem_of_fmap.
  by eapply (mo_col m Hm).
Qed.
Lemma load_complete r v : loads r v → SetColumns convert cr s m (inr cols) (map (cell r) cols) (new s) = Some (v, None).
Proof.
  intros Hv. destruct (SetColumns_spec convert s m Hnd Hp cr (inr cols) (map (cell r) cols) (new s) (or_intror Hex) (new_length s)) as (v' & o & E & _).
  enough (o = None) as -> by (rewrite E; do 2 f_equal; eapply loads_det; [by apply load_sound|done]).
  destruct (column_fields_total cols) as [dests Hd]; [by rewrite Hperm|].
  assert ((scan_into convert dests (map (cell r) cols) (new s)).2 = None) as Hscan.
  { apply scan_total, Forall2_same_length_lookup. pose proof (column_fields_spec m cols dests Hd) as HF.
    split; [by rewrite length_map, (Forall2_length _ _ _ HF)|]. intros j p x Hj Hx.
    destruct (Forall2_lookup_r _ _ _ _ _ HF Hj) as (c & Hc & Hi & Hf). rewrite lookup_map_eq, Hc in Hx. injection Hx as <-.
    destruct (parseModel_ok s m Hnd Hp) as [Hm _]. destruct (mo_col' m Hm _ _ Hi) as (g & Hg & <-). rewrite Hf in Hg. injection Hg as <-.
    destruct (proj2 Hv _ _ Hf) as (y & -> & _). by eexists. }
  unfold SetColumns in E. rewrite Hd in E. destruct cr.
  - destruct (Nat.ltb_spec (size (ColumnMap m)) (length cols)); [pose proof column_count; lia|]. injection E as E. rewrite E in Hscan. exact Hscan.
  - pose proof (scan_agree convert s dests (λ i f, dests_found s m Hnd Hp cols dests i f Hex Hd) (map (cell r) cols) (new s)) as H.
    destruct (scan_values convert dests (map (cell r) cols)) as [e|ys].
    + destruct H as [v0 H]. by rewrite H in Hscan.
    + destruct H as (v0 & _ & H). rewrite H in E. cbn in E. by injection E as <- <-.
Qed.

(** What [Selector.Get] does. *)
Lemma store_get now rows cs e : ready e → table_is (e_w e) rows → Forall (cond_ok dr m) cs → separable m cs [] →
  ∃ e' o err, Selector_Get queryContext (mkCore d cr []) (PtrStruct s) no_hooks now convert (Selector_Where NewSelector (map pred_of cs)) e
      = (e', Some (o, err)) ∧
    table_is (e_w e') rows ∧ e_h e' = e_h e ∧ reg_ok (reg (e_b e')) ∧ (is_Some o ↔ err = None) ∧
    (∀ v, o = Some v → ∃ r, selected cs rows = [r] ∧ loads r v) ∧
    (¬ up (e_w e) ∨ match selected cs rows with [] => err = Some ErrNoRows | [r] => ∀ v, loads r v → o = Some v | _ => o = None end).
Proof.
  intros (Hr & Hs & Ha) Hw Hc Hsep. destruct (where_lexes d dr m cs Hc) as (sw & Ht & _).
  unfold Selector_Get, lookup_model. destruct (registry_Get_spec (reg (e_b e)) (PtrStruct s) Hr) as [Hr' Hg].
  destruct (registry_Get (reg (e_b e)) (PtrStruct s)) as [r' x]. cbn [fst snd] in Hr', Hg. subst x. rewrite Hp.
  unfold get, chain. cbn [middlewares length chain_from]. unfold getHandler. cbn [BeforeQuery no_hooks query_hook]. unfold qc_Build.
  cbn [qc_QueryBuilder dialect valCreator Build e_b e_w e_h e_log].
  destruct (select_writes d s m Hp _ _ _ (mkB (sqlStrBuilder (e_b e)) (args (e_b e)) r') Ht Hr' Hs Ha) as (r2 & Hr2 & ->).
  cbn [SQL Args e_w e_b e_h e_log struct_of]. pose proof (exec_select (e_w e) rows cs sw _ Hw Hc Hsep Ht) as Hx.
  destruct (queryContext (e_w e) _ _) as [w' [er|rs]]; cbn [Result_ Error e_w e_b e_h e_log].
  { destruct Hx as [Hw' Hup]. do 3 eexists. split_and!; [reflexivity|done|done|done|by split; [intros []|]|done|by left]. }
  destruct Hx as [Hw' ->]. cbn [r_data r_columns].
  destruct (selected cs rows) as [|r more]; cbn [map Result_ Error e_w].
  { do 3 eexists. split_and!; [reflexivity|done|done|done|by split; [intros []|]|done|by right]. }
  destruct (SetColumns_spec convert s m Hnd Hp cr (inr cols) (map (cell r) cols) (new s) (or_intror Hex) (new_length s)) as (v & o & E & _). rewrite E.
  destruct o as [er|]; cbn [Result_ Error e_w].
  { do 3 eexists. split_and!; [reflexivity|done|done|done|by split; [intros []|]|done|]. right. destruct more; [|done].
    intros v' Hv'. rewrite (load_complete r v' Hv') in E. done. }
  pose proof (load_sound r v E) as Hv.
  destruct more; cbn [map AfterQuery no_hooks query_hook Result_ Error e_w].
  - do 3 eexists. split_and!; [reflexivity|done|done|done|by split| |].
    + intros v' [= <-]. by exists r.
    + right. intros v' Hv'. f_equal. by eapply loads_det.
  - do 3 eexists. split_and!; [reflexivity|done|done|done|by split; [intros []|]|done|by right].
Qed.
End load.

(** ** DELETE *)
Lemma mapM_total {A B} (f : A → option B) (g : A → B) l : (∀ x, x ∈ l → f x = Some (g x)) → mapM f l = Some (map g l).
Proof. intros H. apply mapM_Some. induction l as [|x l IH]; constructor; [apply H; left|]. apply IH. intros y Hy. apply H. by right. Qed.
(** Rows that change are those selected. *)
Lemma changed_count (sel : row → bool) g rows : (∀ r, r ∈ rows → sel r = true → g r ≠ r) →
  length (List.filter (λ p, bool_decide (p.1 ≠ p.2)) (zip rows (map (λ r, if sel r then g r else r) rows))) = length (List.filter sel rows).
Proof.
  induction rows as [|r rows IH]; intros H; [done|]. cbn [map zip zip_with List.filter fst snd].
  specialize (IH ltac:(intros r' Hr'; apply H; by right)). destruct (sel r) eqn:E.
  - rewrite bool_decide_true; [cbn; by f_equal|]. intros Hr. symmetry in Hr. revert Hr. apply H; [left|done].
  - rewrite bool_decide_false; [done|]. by intros [].
Qed.

Lemma exec_update w rows text args sets cs guard g : table_is w rows → sendable dr args →
  parse q text (map (db dr) args) = Some (SUpdate tname sets (and_sx (null_items m ++ cond_items dr m cs ++ guard))) →
  Forall (cond_ok dr m) cs → Forall item_known guard → map set_col sets ⊆ map ColName (Fields m) → NoDup (map set_col sets) →
  let sel r := visible m r && wanted dr m cs r && forallb (λ i, bool_decide (eval dr r (i_sx i) = Some true)) guard in
  (∀ r, r ∈ rows → sel r = true → apply_sets sets r = Some (g r) ∧ g r ≠ r) →
  match execContext w text args with
  | (w', inr r) => table_is w' (map (λ r, if sel r then g r else r) rows) ∧ RowsAffected r = Ok (Z.of_nat (length (List.filter sel rows)))
  | (w', inl _) => (table_is w' rows ∨ table_is w' (map (λ r, if sel r then g r else r) rows)) ∧ ¬ up w
  end.
Proof.
  intros Hw Hs Hparse Hc Hg Hk Hnd' sel Hset. eapply (run_exec w rows); [done|done|exact Hparse|].
  cbn [run_stmt]. rewrite lookup_insert_eq. cbn [mbind option_bind]. rewrite (known_cols _ _ Hk), where_known by done.
  unfold distinct. rewrite bool_decide_true by done. cbn [andb t_cols t_rows].
  assert (∀ r, selects dr (and_sx (null_items m ++ cond_items dr m cs ++ guard)) r = sel r) as Hsel by (intros r; apply selects_where).
  rewrite (mapM_total _ (λ r, if sel r then g r else r)).
  2:{ intros r Hr. rewrite Hsel. destruct (sel r) eqn:E; [|done]. by apply Hset. }
  cbn [mbind option_bind]. rewrite insert_insert_eq, (filter_ext_eq _ sel) by done.
  assert (length (List.filter (λ p, bool_decide (p.1 ≠ p.2)) (zip rows (map (λ r, if sel r then g r else r) rows))) = length (List.filter sel rows)) as E
    by (apply changed_count; intros r Hr Es; by apply Hset).
  do 3 f_equal. by destruct (foundRows dr).
Qed.

(** The rows after deleting: marked, or gone. *)
Definition deleted (now : Z) (cs : list cond) (rows : list row) : list row :=
  match field_at m (DeletedAtField m) with
  | Some f => map (λ r, if visible m r && wanted dr m cs r then <[ColName f := DBTime now]> r else r) rows
  | None => List.filter (λ r, negb (visible m r && wanted dr m cs r)) rows
  end.
Lemma exec_delete now w rows cs sw : table_is w rows → Forall (cond_ok dr m) cs → separable m cs [] →
  where_text q m (map pred_of cs) = Some (sw, cond_vals cs) →
  match execContext w (delete_text d m now sw) (delete_args m now (cond_vals cs)) with
  | (w', inr r) => table_is w' (deleted now cs rows) ∧ RowsAffected r = Ok (Z.of_nat (length (selected cs rows)))
  | (w', inl _) => (table_is w' rows ∨ table_is w' (deleted now cs rows)) ∧ ¬ up w
  end.
Proof.
  intros Hw Hc Hsep Ht. destruct (where_lexes d dr m cs Hc) as (sw' & Ht' & Hlex & Hd). rewrite Ht in Ht'. injection Ht' as <-.
  unfold delete_text, delete_args, deleted, selected. destruct (field_at m (DeletedAtField m)) as [f|] eqn:Ef.
  - assert (∀ l, List.filter (λ r, visible m r && wanted dr m cs r) l = List.filter (λ r, visible m r && wanted dr m cs r && true) l) as ->
      by (intros l; apply filter_ext_eq; intros; by rewrite andb_true_r).
    assert (∀ r, visible m r && wanted dr m cs r = visible m r && wanted dr m cs r && true) as Hb by (intros; by rewrite andb_true_r).
    rewrite (map_ext _ (λ r, if visible m r && wanted dr m cs r && true then <[ColName f := DBTime now]> r else r)) by (intros; by rewrite <- Hb).
    apply (exec_update w rows _ _ [SetVal (ColName f) (DBTime now)] cs []); [done| | |done|done| |by apply NoDup_singleton|].
    + constructor; [rewrite drv_time; by eexists|by apply (cond_vals_sendable dr m)].
    + cbn [map]. unfold db at 1. rewrite drv_time. rewrite (app_nil_r (cond_items dr m cs)).
      pose proof (parse_update d dr m [SetVal (ColName f) (DBTime now)] cs [] sw) as H. cbn [map set_vals concat join setexp_text] in H.
      rewrite !app_nil_r in H. by apply H.
    + unfold field_at in Ef. apply bind_Some in Ef as (i & _ & Hi). cbn. pose proof (field_col i f Hi). set_solver.
    + cbn [forallb]. intros r _ Hsel. split; [done|]. rewrite <- Hb in Hsel. apply andb_true_iff in Hsel as [Hv _].
      unfold visible in Hv. rewrite Ef in Hv. apply bool_decide_eq_true in Hv. intros E.
      assert (cell r (ColName f) = DBTime now) as E'; [|congruence]. unfold cell. rewrite <- E. by rewrite lookup_insert_eq.
  - eapply (run_exec w rows); [done|by apply (cond_vals_sendable dr m)|by apply parse_delete|]. cbn [run_stmt]. rewrite lookup_insert_eq.
    cbn [mbind option_bind]. rewrite where_known by done. cbn [t_cols t_rows].
    assert (∀ r, selects dr (and_sx (null_items m ++ cond_items dr m cs ++ [])) r = visible m r && wanted dr m cs r) as Hsel
      by (intros r; rewrite selects_where; apply andb_true_r).
    rewrite insert_insert_eq. do 2 f_equal; [do 2 f_equal|do 2 f_equal]; apply filter_ext_eq; intros; by rewrite Hsel.
Qed.
(** Exactly the rows asked for are no longer visible. *)
Lemma deleted_visible now cs rows :
  List.filter (visible m) (deleted now cs rows) = List.filter (λ r, visible m r && negb (wanted dr m cs r)) rows.
Proof.
  unfold deleted. destruct (field_at m (DeletedAtField m)) as [f|] eqn:Ef.
  - induction rows as [|r rows IH]; [done|]. cbn [map List.filter]. rewrite IH.
    destruct (visible m r) eqn:Ev, (wanted dr m cs r); cbn [andb negb]; rewrite ?Ev; try done.
    unfold visible at 1. rewrite Ef. unfold cell. rewrite lookup_insert_eq. by rewrite bool_decide_false.
  - induction rows as [|r rows IH]; [done|]. cbn [List.filter]. destruct (visible m r) eqn:Ev, (wanted dr m cs r); cbn [andb negb List.filter];
      rewrite ?Ev, IH; done.
Qed.

Lemma store_delete now rows cs e : ready e → table_is (e_w e) rows → Forall (cond_ok dr m) cs → separable m cs [] →
  ∃ e' r, Deleter_Exec execContext (mkCore d cr []) (PtrStruct s) now (Deleter_Where NewDeleter (map pred_of cs)) e = (e', Some r) ∧
    e_h e' = e_h e ∧ reg_ok (reg (e_b e')) ∧
    match r_err r with
    | Some _ => (table_is (e_w e') rows ∨ table_is (e_w e') (deleted now cs rows)) ∧ ¬ up (e_w e)
    | None => table_is (e_w e') (deleted now cs rows) ∧ Result_RowsAffected r = Ok (Z.of_nat (length (selected cs rows)))
    end.
Proof.
  intros (Hr & Hs & Ha) Hw Hc Hsep. destruct (where_lexes d dr m cs Hc) as (sw & Ht & _).
  unfold Deleter_Exec, lookup_model. destruct (registry_Get_spec (reg (e_b e)) (PtrStruct s) Hr) as [Hr' Hg].
  destruct (registry_Get (reg (e_b e)) (PtrStruct s)) as [r' x]. cbn [fst snd] in Hr', Hg. subst x. rewrite Hp.
  unfold exec, chain. cbn [middlewares length chain_from]. unfold execHandler, qc_Build.
  cbn [qc_QueryBuilder dialect valCreator Build e_b e_w e_h e_log].
  destruct (delete_writes d s m Hp now _ _ _ (mkB (sqlStrBuilder (e_b e)) (args (e_b e)) r') Ht Hr' Hs Ha) as (r2 & Hr2 & ->).
  cbn [SQL Args e_w e_b e_h e_log]. pose proof (exec_delete now (e_w e) rows cs sw Hw Hc Hsep Ht) as Hx.
  destruct (execContext (e_w e) _ _) as [w' [er|x]]; cbn [Result_ sql_of Error e_w e_b e_h e_log]; by do 2 eexists.
Qed.

(** ** UPDATE of an instance *)
Section update.
Context (now : Z) (i : nat) (vf : Field) (Hvi : VersionField m = Some i) (Hvf : Fields m !! i = Some vf).
Local Notation vcol := (ColName vf).
Local Notation plain := (plain_fields m (Fields m)).

(** A row with the instance's fields and the next version. *)
Definition assigned (v : svalue) (fs : list Field) (r : row) : row := foldl (λ r f, <[ColName f := db dr (field_val v f)]> r) r fs.
Definition bumped (r : row) : row := match cell r vcol with DBInt z => <[vcol := DBInt (z + 1)]> r | _ => r end.
Definition updated (v : svalue) (r : row) : row := bumped (assigned v plain r).
(** Its version is [k]. *)
Definition current (k : Z) (r : row) : bool := bool_decide (cell r vcol = DBInt k).
Definition counts (r : row) : Prop := ∃ z, cell r vcol = DBInt z ∧ z + 1 < 2 ^ 63.

Lemma version_field : field_at m (VersionField m) = Some vf.
Proof. unfold field_at. by rewrite Hvi. Qed.
Lemma plain_in : plain ⊆ Fields m.
Proof. intros f Hf. unfold plain_fields in Hf. by apply list_elem_of_In, filter_In, proj1, list_elem_of_In in Hf. Qed.
Lemma version_not_plain : vcol ∉ map ColName plain.
Proof.
  intros (f & E & Hf)%list_elem_of_fmap. pose proof (plain_in f Hf) as [j Hj]%list_elem_of_lookup.
  assert (j = i) as -> by (eapply (NoDup_lookup (map ColName (Fields m))); [done| |]; rewrite lookup_map_eq; [by rewrite Hj|by rewrite Hvf; cbn; rewrite E]).
  rewrite Hvf in Hj. injection Hj as <-. unfold plain_fields in Hf. apply list_elem_of_In, filter_In, proj2 in Hf.
  unfold is_version in Hf. rewrite version_field, bool_decide_true in Hf; done.
Qed.
Lemma plain_nodup fs : NoDup (map ColName fs) → NoDup (map ColName (plain_fields m fs)).
Proof.
  unfold plain_fields. induction fs as [|f fs IH]; [done|]. cbn [map List.filter]. intros [Hn Hc]%NoDup_cons.
  destruct (negb (is_version m f)); [|by apply IH]. cbn [map]. constructor; [|by apply IH].
  intros (g & E & Hg)%list_elem_of_fmap. apply Hn, list_elem_of_fmap. exists g. split; [done|].
  by apply list_elem_of_In, filter_In, proj1, list_elem_of_In in Hg.
Qed.
Lemma assigned_cell v fs r c : c ∉ map ColName fs → cell (assigned v fs r) c = cell r c.
Proof.
  revert r. induction fs as [|f fs IH]; intros r Hc; [done|]. cbn [map] in Hc. rewrite not_elem_of_cons in Hc. destruct Hc as [Hf Hc].
  cbn [assigned foldl]. fold (assigned v fs (<[ColName f := db dr (field_val v f)]> r)). rewrite IH by done.
  unfold cell. by rewrite lookup_insert_ne.
Qed.

Definition sets_of (v : svalue) : list setexp := map (λ f, SetVal (ColName f) (db dr (field_val v f))) plain ++ [SetBump vcol].
Lemma sets_apply v r : counts r → apply_sets (sets_of v) r = Some (updated v r) ∧ updated v r ≠ r.
Proof.
  intros (z & Hz & Hlt). unfold apply_sets, sets_of. rewrite foldl_app.
  assert (∀ fs r, foldl apply_set (Some r) (map (λ f, SetVal (ColName f) (db dr (field_val v f))) fs) = Some (assigned v fs r)) as ->
    by (induction fs as [|f fs IH]; intros r'; [done|]; apply IH).
  unfold updated, bumped. cbn [foldl apply_set mbind option_bind]. rewrite assigned_cell, Hz by apply version_not_plain.
  destruct (Z.ltb_spec (z + 1) (2 ^ 63)); [|lia]. split; [done|]. intros E. assert (cell r vcol = DBInt (z + 1)) as E'; [|rewrite Hz in E'; injection E'; lia].
  rewrite <- E. unfold cell. by rewrite lookup_insert_eq.
Qed.
Lemma updated_cell v r : counts r → cell (updated v r) vcol = match cell r vcol with DBInt z => DBInt (z + 1) | x => x end.
Proof.
  intros (z & Hz & _). unfold updated, bumped. rewrite assigned_cell, Hz by apply version_not_plain. unfold cell. by rewrite lookup_insert_eq.
Qed.

(** The guard's text joined to the condition's. *)
Lemma wtoks_snoc l it : wtoks (l ++ [it]) = match l with [] => TWord "WHERE" :: i_toks it | _ => wtoks l ++ TWord "AND" :: i_toks it end.
Proof.
  destruct l as [|j l]; cbn [app wtoks and_toks map concat]; [by rewrite app_nil_r|].
  rewrite map_app, concat_app. cbn [map concat]. rewrite app_nil_r. cbn [app]. by rewrite app_assoc.
Qed.
Lemma lexes_guard u cs sw k : u_where u = map pred_of cs → where_text q m (map pred_of cs) = Some (sw, cond_vals cs) →
  lexes d false sw (wtoks (null_items m ++ cond_items dr m cs)) → delim d sw = true →
  lexes d false (sw +:+ guard_text d m u vf) (wtoks (null_items m ++ cond_items dr m cs ++ [eq_item vcol (DBInt k)])) ∧
  delim d (sw +:+ guard_text d m u vf) = true.
Proof.
  intros Hu Ht Hs Hd. rewrite app_assoc, wtoks_snoc. unfold guard_text. rewrite Hu.
  assert (lexes d false (quoted q vcol +:+ "=?") (i_toks (eq_item vcol (DBInt k)))) as Hq.
  { apply (lexes_app d false false _ _ [TName _] [_; _]); [apply lexes_name|lex_lit|by destruct d]. }
  destruct (bool_decide (is_Some (field_at m (DeletedAtField m))) || bool_decide (map pred_of cs ≠ [])) eqn:Eb.
  - split; [|destruct sw; [by destruct d|exact Hd]].
    assert (null_items m ++ cond_items dr m cs ≠ []) as Hn.
    { apply orb_true_iff in Eb as [Eb|Eb]; apply bool_decide_eq_true in Eb.
      - unfold null_items. by destruct Eb as [f ->].
      - destruct cs as [|c cs]; [done|]. unfold cond_items. cbn [conj_of]. destruct (null_items m); [|done]. by destruct (foldl CAnd c cs). }
    destruct (null_items m ++ cond_items dr m cs) as [|j l]; [done|].
    apply (lexes_app d false); [exact Hs| |by destruct d]. apply (lexes_app d true false " AND " _ [TWord "AND"]); [lex_lit|exact Hq|done].
  - apply orb_false_iff in Eb as [E1 E2]. apply bool_decide_eq_false in E1, E2. destruct cs as [|c cs]; [|by destruct E2].
    unfold null_items, where_text in *. destruct (field_at m (DeletedAtField m)) as [f|]; [by destruct E1|]. injection Ht as <-.
    split; [|by destruct d]. rewrite app_nil_l. apply (lexes_app d true false " WHERE " _ [TWord "WHERE"]); [lex_lit|exact Hq|done].
Qed.

(** The time of update on the instance. *)
Definition touchable : Prop :=
  match UpdatedAtField m with None => True | Some j => ∃ f t, settable s m j f t ∧ t ∈ [FTime; FPtrTime; FAny] end.
Definition touched_val (v : svalue) : svalue :=
  match UpdatedAtField m with Some j => <[j := stamp now (type_at s j)]> v | None => v end.
Lemma touch_spec u a v h : touchable → u_assigns_ u = [] → u_val u = Some a → h !! a = Some v →
  touch (PtrStruct s) now m u h = (<[a := touched_val v]> h, Ok u).
Proof.
  intros Ht Has Hu Hv. unfold touch, touched_val, touchable in *. destruct (UpdatedAtField m) as [j|]; cbn [field_at mbind option_bind].
  2:{ by rewrite insert_id. }
  destruct Ht as (f & t & [Hf (sf & Hsf & Hty & Hex)] & Hk). rewrite Hf, Hu, Has.
  assert (deref h (Some a) = Some v) as -> by exact Hv. destruct (parseModel_ok s m Hnd Hp) as [_ E].
  destruct (FieldByName_index s m j f Hnd E Hf) as (sf' & Hsf' & Hfn). rewrite Hsf in Hsf'. injection Hsf' as <-.
  unfold setTimestampField. cbn [struct_of]. rewrite Hfn, Hex. unfold type_at. rewrite Hsf, Hty. cbn [negb].
  rewrite !elem_of_cons, elem_of_nil in Hk. destruct Hk as [-> |[-> |[-> |[]]]]; done.
Qed.
Lemma touched_length v : length (touched_val v) = length v.
Proof. unfold touched_val. destruct (UpdatedAtField m); [apply length_insert|done]. Qed.
Lemma stamp_sendable t : is_Some (to_db dr (stamp now t)).
Proof. destruct t; cbn [stamp]; rewrite ?drv_time, ?drv_ptr_time; by eexists. Qed.
Lemma touched_sendable v : sendable dr v → sendable dr (touched_val v).
Proof. intros Hv. unfold touched_val. destruct (UpdatedAtField m); [|done]. apply Forall_insert; [done|apply stamp_sendable]. Qed.

(** The version the instance holds, as it is sent. *)
Definition version_of (v : svalue) : option Z :=
  match v !! i with Some (VInt _ n) => Some n | Some (VUint _ n) => Some (i64 n) | _ => None end.
Definition hits (cs : list cond) (k : Z) (r : row) : bool := visible m r && wanted dr m cs r && current k r.

Lemma guard_current k r : counts r → forallb (λ it, bool_decide (eval dr r (i_sx it) = Some true)) [eq_item vcol (DBInt k)] = current k r.
Proof.
  intros (z & Hz & _). cbn [forallb eq_item i_sx eval operand_val]. unfold current. rewrite andb_true_r, Hz. cbn [cmp3].
  rewrite drv_compare. apply bool_decide_ext. split.
  - intros [= E]. apply bool_decide_eq_true in E. cbn in E. apply Z.compare_eq in E. by subst.
  - intros [= ->]. rewrite Z.compare_refl. by rewrite bool_decide_true.
Qed.
Lemma exec_save w rows u cs sw v k : table_is w rows → Forall (cond_ok dr m) cs → separable m cs [eq_item vcol (DBInt k)] →
  u_where u = map pred_of cs → where_text q m (map pred_of cs) = Some (sw, cond_vals cs) →
  length v = length (Fields m) → sendable dr v → Forall counts rows →
  match execContext w (update_text d m u vf sw) (map (field_val v) plain ++ cond_vals cs ++ [VInt 64 k]) with
  | (w', inr r) => table_is w' (map (λ r, if hits cs k r then updated v r else r) rows) ∧
                   RowsAffected r = Ok (Z.of_nat (length (List.filter (hits cs k) rows)))
  | (w', inl _) => (table_is w' rows ∨ table_is w' (map (λ r, if hits cs k r then updated v r else r) rows)) ∧ ¬ up w
  end.
Proof.
  intros Hw Hc Hsep Hu Ht Hl Hv Hcnt. destruct (where_lexes d dr m cs Hc) as (sw' & Ht' & Hlex & Hd). rewrite Ht in Ht'. injection Ht' as <-.
  destruct (lexes_guard u cs sw k Hu Ht Hlex Hd) as [Hlex' Hd']. set (guard := [eq_item vcol (DBInt k)]) in *.
  set (sel r := visible m r && wanted dr m cs r && forallb (λ it, bool_decide (eval dr r (i_sx it) = Some true)) guard).
  assert (∀ r, r ∈ rows → sel r = hits cs k r) as Hsel.
  { intros r Hr. unfold sel, guard, hits. rewrite guard_current; [done|]. by eapply Forall_forall in Hcnt. }
  assert (map (λ r, if hits cs k r then updated v r else r) rows = map (λ r, if sel r then updated v r else r) rows) as ->
    by (apply map_ext_in; intros r Hr%list_elem_of_In; by rewrite Hsel).
  assert (List.filter (hits cs k) rows = List.filter sel rows) as ->.
  { clear -Hsel. induction rows as [|r rows IH]; [done|]. cbn. rewrite Hsel by left. by rewrite IH by (intros; apply Hsel; by right). }
  apply (exec_update w rows _ _ (sets_of v) cs guard); [done| | |done| | | |].
  - apply Forall_app. split; [|apply Forall_app; split; [by apply (cond_vals_sendable dr m)|by apply Forall_singleton; rewrite drv_int]].
    apply Forall_map, Forall_forall. intros f Hf. apply plain_in in Hf as [j Hj]%list_elem_of_lookup.
    by eapply Forall_lookup_1 in Hv; [|by apply (field_val_at v j f)].
  - assert (update_text d m u vf sw = "UPDATE " +:+ quoted q tname +:+ " SET " +:+ join "," (map (setexp_text d) (sets_of v)) +:+ (sw +:+ guard_text d m u vf) +:+ ";") as ->.
    { unfold update_text, sets_of. rewrite map_app, map_map, str_app_assoc. done. }
    assert (map (db dr) (map (field_val v) plain ++ cond_vals cs ++ [VInt 64 k])
            = concat (map set_vals (sets_of v)) ++ map (db dr) (cond_vals cs) ++ concat (map i_vals guard)) as ->.
    { rewrite !map_app. f_equal; [|f_equal; cbn; unfold db; by rewrite drv_int]. unfold sets_of. rewrite map_app, map_map, concat_app. cbn.
      rewrite app_nil_r. clear. induction plain as [|f l IH]; [done|]. cbn. by rewrite IH. }
    apply parse_update; [unfold sets_of; by destruct plain|done|done|intros n; apply Forall_singleton, tight_eq|done|done].
  - apply Forall_singleton. unfold item_known. cbn. pose proof (field_col i vf Hvf). set_solver.
  - unfold sets_of. rewrite map_app, map_map. cbn [map set_col]. intros c [Hc'|Hc']%elem_of_app.
    + apply list_elem_of_fmap in Hc' as (f & -> & Hf%plain_in). apply list_elem_of_fmap. by exists f.
    + apply list_elem_of_singleton in Hc' as ->. by eapply field_col.
  - unfold sets_of. rewrite map_app, map_map. cbn [map set_col]. apply NoDup_app. split_and!; [by apply plain_nodup| |apply NoDup_singleton].
    intros c Hc' ->%list_elem_of_singleton. by apply version_not_plain.
  - intros r Hr _. apply sets_apply. by eapply Forall_forall in Hcnt.
Qed.

Lemma store_update rows cs a v k e : ready e → table_is (e_w e) rows → Forall (cond_ok dr m) cs → separable m cs [eq_item vcol (DBInt k)] →
  typed s (e_h e) → live cr s (e_h e) (Some a) → e_h e !! a = Some v → sendable dr v → touchable → version_of (touched_val v) = Some k → Forall counts rows →
  ∃ e' r, Updater_Exec execContext (mkCore d cr []) (PtrStruct s) no_hooks now (Updater_Where (Update NewUpdater (Some a)) (map pred_of cs)) e
      = (e', Some r) ∧ e_h e' = <[a := touched_val v]> (e_h e) ∧ reg_ok (reg (e_b e')) ∧
    match r_err r with
    | Some er => (er = ErrOptimisticLock ∧ List.filter (hits cs k) rows = [] ∧ table_is (e_w e') rows) ∨
                 (¬ up (e_w e) ∧ (table_is (e_w e') rows ∨ table_is (e_w e') (map (λ r, if hits cs k r then updated (touched_val v) r else r) rows)))
    | None => table_is (e_w e') (map (λ r, if hits cs k r then updated (touched_val v) r else r) rows) ∧
              List.filter (hits cs k) rows ≠ [] ∧ Result_RowsAffected r = Ok (Z.of_nat (length (List.filter (hits cs k) rows)))
    end.
Proof.
  intros (Hr & Hs & Ha) Hw Hc Hsep Hty Hl Hv Hsv Htc Hk Hcnt. destruct (where_lexes d dr m cs Hc) as (sw & Ht & _).
  set (u := Updater_Where (Update NewUpdater (Some a)) (map pred_of cs)).
  pose proof (entity_length (e_h e) a v Hty Hv) as Hlen. set (v' := touched_val v) in *. set (h := <[a := v']> (e_h e)).
  assert (length v' = length (Fields m)) as Hlen' by (unfold v'; by rewrite touched_length).
  assert (typed s h) as Hty'.
  { split; [done|]. intros b x. unfold h. destruct (decide (a = b)) as [->|Hab]; [|rewrite lookup_insert_ne by done; apply Hty].
    rewrite lookup_insert_eq. intros [= <-]. unfold v'. rewrite touched_length. by apply (ty_store s (e_h e) Hty b). }
  assert (h !! a = Some v') as Hv' by apply lookup_insert_eq.
  assert (live cr s h (Some a)) as Hl'.
  { split; [by exists v'|]. destruct Hl as [_ Hl]. unfold readable in *. destruct cr; [done|]. split; [by exists v'|by apply Hl]. }
  destruct (lookup_lt_is_Some_2 v' i) as [z Hz]; [rewrite Hlen'; by eapply lookup_lt_Some|].
  unfold version_of in Hk. rewrite Hz in Hk.
  destruct (update_exec execContext d cr s m now u a v' i vf z k sw (cond_vals cs) h e) as (e' & r & E & Ew & Eh & Hr' & Hres);
    try done; [apply sql_driver|by apply touch_spec|by destruct Hl'|..].
  exists e', r. split; [exact E|]. split; [exact Eh|]. split; [exact Hr'|].
  assert (fields_in m plain) as Hplain by (apply Forall_forall; intros f Hf; by apply plain_in, list_elem_of_lookup in Hf).
  rewrite (field_args h a v' plain Hty' Hl' Hv' Hplain) in Ew, Hres.
  pose proof (exec_save (e_w e) rows u cs sw v' k Hw Hc Hsep eq_refl Ht Hlen' (touched_sendable v Hsv) Hcnt) as Hx.
  destruct (execContext (e_w e) _ _) as [w' [er|x]]; cbn [fst snd] in *; rewrite Ew.
  - rewrite Hres. right. by destruct Hx.
  - destruct Hx as [Hx Hn]. rewrite Hn in Hres. destruct (List.filter (hits cs k) rows) as [|r0 l] eqn:Ef.
    + cbn in Hres. rewrite Hres. left. split_and!; [done|done|].
      enough (map (λ r, if hits cs k r then updated v' r else r) rows = rows) as E'; [by rewrite E' in Hx|].
      clear -Ef. induction rows as [|r rows IH]; [done|]. cbn in *. destruct (hits cs k r); [done|]. by rewrite IH.
    + change (Z.of_nat (length (r0 :: l))) with (Z.pos (Pos.of_succ_nat (length l))) in Hres. destruct Hres as [-> Hres].
      split; [exact Hx|]. split; [done|]. exact Hres.
Qed.
End update.

(** ** Inserter.Exec *)
Lemma stamp_ok now t : is_Some (to_db dr (stamp now t)).
Proof. destruct t; cbn [stamp]; rewrite ?drv_time, ?drv_ptr_time; by eexists. Qed.
Lemma defaults_sendable now v : fillable s m → sendable dr v → sendable dr (with_defaults s m now v).
Proof.
  intros Hf Hv. assert (∀ j t x v, sendable dr v → is_Some (to_db dr x) → sendable dr (default_at j t x v)) as Hd.
  { intros j t x v' Hv' Hx. unfold default_at. destruct (v' !! j); [|done]. destruct (is_zero t g); [|done]. by apply Forall_insert. }
  unfold with_defaults. destruct Hf as [_ Hver].
  assert (∀ v, sendable dr v → sendable dr (match VersionField m with Some j => default_at j (type_at s j) (one (type_at s j)) v | None => v end)) as H2.
  { intros v' Hv'. destruct (VersionField m) as [j|]; [|done]. apply Hd; [done|]. destruct Hver as (f & t & [_ (sf & Hsf & Ht & _)] & w & _ & Hw).
    unfold type_at. rewrite Hsf, Ht. destruct Hw as [-> | ->]; cbn [one]; rewrite ?drv_int, ?drv_uint by lia; by eexists. }
  apply H2. destruct (CreatedAtField m); [|done]. apply Hd; [done|apply stamp_ok].
Qed.
Lemma defaults_length now v : length (with_defaults s m now v) = length v.
Proof. unfold with_defaults. destruct (CreatedAtField m), (VersionField m); by rewrite ?default_at_length. Qed.

Lemma store_insert now rows i e : ready e → table_is (e_w e) rows → typed s (e_h e) → sendable_store (e_h e) → fillable s m → now ≠ 0 →
  i_values i ≠ [] → Forall (live cr s (e_h e)) (i_values i) → i_columns i = [] → i_upsert i = None →
  ∃ e' r k, Inserter_Exec execContext (mkCore d cr []) (PtrStruct s) no_hooks now i e = (e', Some r) ∧ reg_ok (reg (e_b e')) ∧
    (∀ a, e_h e' !! a = if bool_decide (Some a ∈ i_values i) then with_defaults s m now <$> e_h e !! a else e_h e !! a) ∧
    typed s (e_h e') ∧ sendable_store (e_h e') ∧
    table_is (e_w e') (rows ++ rows_at (e_h e') (concat (take k (batches i)))) ∧ concat (batches i) = i_values i ∧
    match r_err r with
    | None => k = length (batches i) ∧
        (Z.of_nat (length (i_values i)) < 2 ^ 63 → Result_RowsAffected r = Ok (Z.of_nat (length (i_values i))))
    | Some _ => ∃ w, ¬ up w
    end.
Proof.
  intros (Hr & Hs & Ha) Hw Hty Hst Hfl Hnow Hv Hl Hic Hu.
  destruct (insert_exec execContext d cr s m now i (Fields m) e) as (e' & r & E & Hh & Ew & Er & Hcat & Hb & Hr' & Hcnt);
    try done; [apply sql_driver|by rewrite Hic|].
  assert (typed s (e_h e')) as Hty'.
  { split; [done|]. intros a v. rewrite Hh. case_bool_decide; [|apply Hty]. intros (v0 & Hv0 & ->)%fmap_Some. rewrite defaults_length. by eapply Hty. }
  assert (sendable_store (e_h e')) as Hst'.
  { intros a v. rewrite Hh. case_bool_decide; [|apply Hst]. intros (v0 & Hv0 & ->)%fmap_Some. apply defaults_sendable; [done|]. by eapply Hst. }
  assert (∀ p, live cr s (e_h e) p → live cr s (e_h e') p) as Hlive.
  { intros p [Hd Hrd]. destruct p as [a|]; [|by destruct Hd]. assert (is_Some (deref (e_h e') (Some a))) as Hd'.
    { destruct Hd as [v0 Hv0]. assert (e_h e !! a = Some v0) as Ha0 by exact Hv0. cbn. rewrite Hh, Ha0. case_bool_decide; by eexists. }
    split; [done|]. unfold readable in *. destruct cr; [done|]. split; [done|by apply Hrd]. }
  assert (Forall (λ c, c ≠ [] ∧ Forall (live cr s (e_h e')) c) (batches i)) as Hch.
  { rewrite <- Hcat, Forall_concat in Hl. apply Forall_forall. intros c Hc. rewrite Forall_forall in Hl, Hb. split; [by apply Hb|].
    eapply Forall_impl; [by apply Hl|]. done. }
  destruct (insert_all_rows (e_h e') Hty' Hst' (batches i) Hch 0 0 (e_w e) rows Hw) as (k & Hk & Ht & Hres).
  exists e', r, k. rewrite Ew. split_and!; try done. rewrite Er. rewrite Hcat in Hres.
  destruct (insert_all _ _ _ _ _ _ _ _ _ _ _) as [w [er|[n l]]] eqn:Esent; cbn [fst snd] in *; [done|]. destruct Hres as [-> Hn].
  split; [done|]. intros Hlt. unfold batches in Esent. destruct ((0 <? i_chunkSize i) && _).
  { rewrite (Hcnt _ _ eq_refl). f_equal. rewrite Hn by lia. lia. }
  cbn [insert_all] in Esent. pose proof (exec_insert_values (e_h e') (e_w e) rows (i_values i) Hty' Hst' Hw Hv) as Hx.
  destruct (execContext (e_w e) _ _) as [w1 [er|x]]; [done|]. rewrite (Hcnt _ _ eq_refl). apply Hx.
  eapply Forall_impl; [exact Hl|]. done.
Qed.
End store.
