(* ===== verification/OrmSessionFacts.v ===== *)
(** * Programs on the ORM

    A program makes one call after the other, each with a new builder on the shared
    registry.  Over any database that keeps the interface, its calls act on the table
    as on a list of rows: inserting appends, deleting hides or removes, saving
    replaces what is current, reading finds the one visible row.  The database in
    memory at the end interprets the texts themselves. *)

From S2P Require Import Prelude GoStrings OrmModel OrmModelFacts OrmBuilder OrmQuery OrmQueryFacts OrmTextFacts OrmExec OrmExecFacts OrmRowsFacts OrmSql OrmSqlFacts OrmStmtFacts OrmStoreFacts.
Local Open Scope Z_scope.

(** ** Calls *)
Inductive op :=
| OpInsert (now : Z) (ps : list ptr) (chunk : Z)
| OpSave (now : Z) (a : nat) (cs : list cond)
| OpDelete (now : Z) (cs : list cond)
| OpGet (now : Z) (cs : list cond).
(** The number of rows affected, an entity or an error. *)
Inductive outcome := Done (n : res orm_err Z) | Got (v : svalue) | Failed (e : orm_err).

Section calls.
Context {W : Type} (d : Dialect) (cr : Creator) (s : structdef).
Context (execContext : W → string → list gval → W * (orm_err + sqlResult)) (queryContext : W → string → list gval → W * (orm_err + Rows)).
Context (convert : ftype → dbval → orm_err + gval).
Let c : core W := mkCore d cr [].

Definition new_builder (e : est W) : est W := mkE (e_w e) (mkB "" [] (reg (e_b e))) (e_h e) (e_log e).
Definition outcome_of (r : Result) : outcome := match r_err r with Some er => Failed er | None => Done (Result_RowsAffected r) end.
Definition got (x : option svalue * option orm_err) : outcome :=
  match x with (_, Some er) => Failed er | (Some v, None) => Got v | (None, None) => Failed ErrNoRows end.
(** [None] is a panic. *)
Definition call (o : op) (e : est W) : est W * option outcome :=
  let e := new_builder e in
  match o with
  | OpInsert now ps chunk =>
      let '(e, r) := Inserter_Exec execContext c (PtrStruct s) no_hooks now (ChunkSize (Values NewInserter ps) chunk) e in (e, outcome_of <$> r)
  | OpSave now a cs =>
      let '(e, r) := Updater_Exec execContext c (PtrStruct s) no_hooks now (Updater_Where (Update NewUpdater (Some a)) (map pred_of cs)) e in
      (e, outcome_of <$> r)
  | OpDelete now cs =>
      let '(e, r) := Deleter_Exec execContext c (PtrStruct s) now (Deleter_Where NewDeleter (map pred_of cs)) e in (e, outcome_of <$> r)
  | OpGet now cs =>
      let '(e, r) := Selector_Get queryContext c (PtrStruct s) no_hooks now convert (Selector_Where NewSelector (map pred_of cs)) e in (e, got <$> r)
  end.
(** A program stops at a panic. *)
Fixpoint run_calls (ops : list op) (e : est W) : est W * option (list outcome) :=
  match ops with
  | [] => (e, Some [])
  | o :: ops' =>
      match call o e with
      | (e, None) => (e, None)
      | (e, Some x) => let '(e, xs) := run_calls ops' e in (e, cons x <$> xs)
      end
  end.
End calls.

(** ** The table as a list of rows

    [reliable]: every statement is answered.  When it is not, a call fails with its
    statement done or not done. *)
Section spec.
Context (cr : Creator) (dr : Driver) (s : structdef) (m : Model) (convert : ftype → dbval → orm_err + gval) (reliable : Prop).

(** The rows and the program's entities. *)
Abbreviation state := (list row * store)%type.
Definition fill_store (now : Z) (ps : list ptr) (h : store) : store :=
  map_imap (λ a v, Some (if bool_decide (Some a ∈ ps) then with_defaults s m now v else v)) h.
Definition save_rows (now : Z) (i : nat) (vf : Field) (v : svalue) (cs : list cond) (k : Z) (rows : list row) : list row :=
  map (λ r, if hits dr m vf cs k r then updated dr m vf (touched_val s m now v) r else r) rows.

Inductive step : op → state → outcome → state → Prop :=
| step_insert now ps chunk rows h : let h' := fill_store now ps h in
    step (OpInsert now ps chunk) (rows, h) (Done (Ok (Z.of_nat (length ps)))) (rows ++ rows_at dr m h' ps, h')
| step_insert_part now ps qs chunk rows h er : let h' := fill_store now ps h in
    ¬ reliable → qs `prefix_of` ps → step (OpInsert now ps chunk) (rows, h) (Failed er) (rows ++ rows_at dr m h' qs, h')
| step_save now a cs rows h v i vf k : let v' := touched_val s m now v in
    h !! a = Some v → VersionField m = Some i → Fields m !! i = Some vf → version_of i v' = Some k →
    List.filter (hits dr m vf cs k) rows ≠ [] →
    step (OpSave now a cs) (rows, h) (Done (Ok (Z.of_nat (length (List.filter (hits dr m vf cs k) rows)))))
      (save_rows now i vf v cs k rows, <[a := v']> h)
| step_stale now a cs rows h v i vf k : let v' := touched_val s m now v in
    h !! a = Some v → VersionField m = Some i → Fields m !! i = Some vf → version_of i v' = Some k →
    List.filter (hits dr m vf cs k) rows = [] → step (OpSave now a cs) (rows, h) (Failed ErrOptimisticLock) (rows, <[a := v']> h)
| step_save_fail now a cs rows h v er :
    ¬ reliable → h !! a = Some v → step (OpSave now a cs) (rows, h) (Failed er) (rows, <[a := touched_val s m now v]> h)
| step_save_unknown now a cs rows h v i vf k er : let v' := touched_val s m now v in
    ¬ reliable → h !! a = Some v → VersionField m = Some i → Fields m !! i = Some vf → version_of i v' = Some k →
    step (OpSave now a cs) (rows, h) (Failed er) (save_rows now i vf v cs k rows, <[a := v']> h)
| step_delete now cs rows h :
    step (OpDelete now cs) (rows, h) (Done (Ok (Z.of_nat (length (selected dr m cs rows))))) (deleted dr m now cs rows, h)
| step_get now cs rows h r v : selected dr m cs rows = [r] → loads m convert r v → step (OpGet now cs) (rows, h) (Got v) (rows, h)
| step_none now cs rows h : selected dr m cs rows = [] → step (OpGet now cs) (rows, h) (Failed ErrNoRows) (rows, h)
| step_not_one now cs rows h er : selected dr m cs rows ≠ [] → (∀ r v, selected dr m cs rows = [r] → ¬ loads m convert r v) → step (OpGet now cs) (rows, h) (Failed er) (rows, h)
| step_delete_unknown now cs rows h er : ¬ reliable → step (OpDelete now cs) (rows, h) (Failed er) (deleted dr m now cs rows, h)
| step_fail now cs rows h o er : ¬ reliable → o = OpDelete now cs ∨ o = OpGet now cs → step o (rows, h) (Failed er) (rows, h).

Inductive steps : list op → state → list outcome → state → Prop :=
| steps_nil σ : steps [] σ [] σ
| steps_cons o ops σ x σ' xs σ'' : step o σ x σ' → steps ops σ' xs σ'' → steps (o :: ops) σ (x :: xs) σ''.

(** What a call assumes: values to insert that are there, an instance with a version,
    stored versions that can be counted up, conditions over known fields; not a
    disjunction where the ORM adds a condition of its own. *)
Definition op_ok (o : op) (σ : state) : Prop :=
  match o with
  | OpInsert now ps _ => now ≠ 0 ∧ ps ≠ [] ∧ Z.of_nat (length ps) < 2 ^ 63 ∧ Forall (live cr s σ.2) ps
  | OpSave now a cs =>
      Forall (cond_ok dr m) cs ∧ live cr s σ.2 (Some a) ∧
      ∃ v i vf k, σ.2 !! a = Some v ∧ VersionField m = Some i ∧ Fields m !! i = Some vf ∧ version_of i (touched_val s m now v) = Some k ∧
        separable m cs [eq_item (ColName vf) (DBInt k)] ∧ Forall (counts vf) σ.1
  | OpDelete _ cs | OpGet _ cs => Forall (cond_ok dr m) cs ∧ separable m cs []
  end.
(** Whatever happens, every call finds what it assumes. *)
Fixpoint allowed (ops : list op) (σ : state) : Prop :=
  match ops with [] => True | o :: ops' => op_ok o σ ∧ ∀ x σ', step o σ x σ' → allowed ops' σ' end.
End spec.

(** The struct and its table: distinct exported fields and columns, special fields of
    the types they need, and a table with these columns in some order. *)
Record schema_ok (s : structdef) (m : Model) (cols : list string) : Prop := {
  sc_model : parseModel (PtrStruct s) = inr m;
  sc_names : NoDup (map f_Name (s_Fields s));
  sc_exported : Forall (λ f, f_exported f = true) (s_Fields s);
  sc_cols : NoDup (map ColName (Fields m));
  sc_some : Fields m ≠ [];
  sc_fill : fillable s m;
  sc_touch : touchable s m;
  sc_table : cols ≡ₚ map ColName (Fields m) }.

Section simulation.
Context {W : Type} (d : Dialect) (cr : Creator) (dr : Driver) (s : structdef) (m : Model).
Context (tables : W → Database) (up : W → Prop).
Context (execContext : W → string → list gval → W * (orm_err + sqlResult)) (queryContext : W → string → list gval → W * (orm_err + Rows)).
Context `{!GoDriver dr} `{!SqlDatabase dr (dialect_quoter d) tables up execContext queryContext}.
Context (convert : ftype → dbval → orm_err + gval).
Context (cols : list string) (rest : Database) (Hsc : schema_ok s m cols).
Local Notation reliable := (∀ w, up w).
Local Notation call := (call d cr s execContext queryContext convert).
Local Notation run_calls := (run_calls d cr s execContext queryContext convert).
Local Notation step := (step dr s m convert reliable).
Local Notation steps := (steps dr s m convert reliable).

(** The table holds [rows], and the program's entities can be sent. *)
Definition Inv (e : est W) (rows : list row) : Prop :=
  reg_ok (reg (e_b e)) ∧ table_is m tables cols rest (e_w e) rows ∧ typed s (e_h e) ∧ sendable_store dr (e_h e).
Definition refines (o : op) (e : est W) (rows : list row) : Prop :=
  ∃ e' x rows', call o e = (e', Some x) ∧ step o (rows, e_h e) x (rows', e_h e') ∧ Inv e' rows'.

Lemma not_reliable w : ¬ up w → ¬ reliable.
Proof. intros Hw Hr. by apply Hw. Qed.

Lemma prefix_concat {A} (l : list (list A)) k : concat (take k l) `prefix_of` concat l.
Proof. exists (concat (drop k l)). by rewrite <- concat_app, take_drop. Qed.

Lemma refines_insert now ps chunk e rows : Inv e rows → op_ok cr dr s m (OpInsert now ps chunk) (rows, e_h e) →
  refines (OpInsert now ps chunk) e rows.
Proof.
  intros (Hr & Hw & Hty & Hs) (Hnow & Hps & Hlen & Hl). set (i := ChunkSize (Values NewInserter ps) chunk).
  destruct (store_insert d cr dr s m tables up execContext queryContext (sc_model _ _ _ Hsc) (sc_names _ _ _ Hsc) (sc_cols _ _ _ Hsc) (sc_some _ _ _ Hsc)
    cols (sc_table _ _ _ Hsc) rest now rows i (new_builder e)) as (e' & r & k & E & Hr' & Hh & Hty' & Hs' & Ht & Hcat & Hres); try done; [apply Hsc|].
  assert (e_h e' = fill_store s m now ps (e_h e)) as Eh.
  { apply map_eq. intros a. rewrite Hh. unfold fill_store. rewrite map_lookup_imap. cbn [i i_values Values ChunkSize NewInserter app new_builder e_h].
    destruct (e_h e !! a) as [v|]; cbn; by case_bool_decide. }
  unfold refines, OrmSessionFacts.call. cbv zeta. fold i. rewrite E. cbn [fmap option_fmap option_map]. unfold outcome_of.
  destruct (r_err r) as [er|].
  - destruct Hres as [w Hup]. do 3 eexists. split; [reflexivity|]. split; [|split_and!; [done|exact Ht|done|done]].
    rewrite Eh. apply step_insert_part; [by eapply not_reliable|]. pose proof (prefix_concat (batches i) k) as Hpre. by rewrite Hcat in Hpre.
  - destruct Hres as [-> Hn]. rewrite firstn_all, Hcat in Ht. do 3 eexists. split; [reflexivity|]. split; [|split_and!; [done|exact Ht|done|done]].
    rewrite Eh, (Hn Hlen). apply step_insert.
Qed.

Lemma refines_delete now cs e rows : Inv e rows → op_ok cr dr s m (OpDelete now cs) (rows, e_h e) → refines (OpDelete now cs) e rows.
Proof.
  intros (Hr & Hw & Hty & Hs) (Hc & Hsep).
  destruct (store_delete d cr dr s m tables up execContext queryContext (sc_model _ _ _ Hsc) (sc_names _ _ _ Hsc) (sc_cols _ _ _ Hsc) (sc_some _ _ _ Hsc)
    cols (sc_table _ _ _ Hsc) rest now rows cs (new_builder e)) as (e' & r & E & Hh & Hr' & Hres); try done.
  unfold refines, OrmSessionFacts.call. cbv zeta. rewrite E. cbn [fmap option_fmap option_map]. unfold outcome_of. cbn [new_builder e_h] in Hh.
  destruct (r_err r) as [er|]; destruct Hres as [Ht Hx].
  - destruct Ht as [Ht|Ht]; (do 3 eexists; split; [reflexivity|]); rewrite Hh; (split; [|split_and!; [done|exact Ht|by rewrite Hh|by rewrite Hh]]).
    + eapply step_fail; [by eapply not_reliable|by left].
    + apply step_delete_unknown. by eapply not_reliable.
  - do 3 eexists. split; [reflexivity|]. rewrite Hh. split; [|split_and!; [done|exact Ht|by rewrite Hh|by rewrite Hh]]. rewrite Hx. apply step_delete.
Qed.
Lemma refines_get now cs e rows : Inv e rows → op_ok cr dr s m (OpGet now cs) (rows, e_h e) → refines (OpGet now cs) e rows.
Proof.
  intros (Hr & Hw & Hty & Hs) (Hc & Hsep).
  destruct (store_get d cr dr s m tables up execContext queryContext (sc_model _ _ _ Hsc) (sc_names _ _ _ Hsc) (sc_cols _ _ _ Hsc) (sc_some _ _ _ Hsc)
    cols (sc_table _ _ _ Hsc) rest convert (sc_exported _ _ _ Hsc) now rows cs (new_builder e)) as (e' & o & err & E & Ht & Hh & Hr' & Ho & Hsnd & Hcpl); try done.
  unfold refines, OrmSessionFacts.call. cbv zeta. rewrite E. cbn [fmap option_fmap option_map got]. cbn [new_builder e_h e_w] in *.
  exists e', (got (o, err)), rows. split; [reflexivity|]. rewrite Hh. split; [|split_and!; [done|done|by rewrite Hh|by rewrite Hh]].
  destruct err as [er|]; cbn [got].
  - assert (o = None) as -> by (destruct o; [destruct Ho as [Ho _]; by discriminate Ho|done]).
    destruct Hcpl as [Hup|Hcpl]; [eapply step_fail; [by eapply not_reliable|by right]|].
    destruct (selected dr m cs rows) as [|r l] eqn:Esel; [injection Hcpl as ->; by apply step_none|].
    apply step_not_one; rewrite Esel; [done|]. intros r' v [= <- ->] Hv. by specialize (Hcpl v Hv).
  - destruct o as [v|]; [|destruct Ho as [_ Ho]; by destruct (Ho eq_refl)]. destruct (Hsnd v eq_refl) as (r & Hsel & Hv). by eapply step_get.
Qed.

(** One save, by the version that the instance holds. *)
Lemma call_save now a cs v i vf k e rows : Inv e rows → op_ok cr dr s m (OpSave now a cs) (rows, e_h e) →
  e_h e !! a = Some v → VersionField m = Some i → Fields m !! i = Some vf → version_of i (touched_val s m now v) = Some k →
  let h' := <[a := touched_val s m now v]> (e_h e) in
  ∃ e' x, call (OpSave now a cs) e = (e', Some x) ∧ e_h e' = h' ∧
    match x with
    | Done n => Inv e' (save_rows dr s m now i vf v cs k rows) ∧ List.filter (hits dr m vf cs k) rows ≠ [] ∧
                n = Ok (Z.of_nat (length (List.filter (hits dr m vf cs k) rows)))
    | Failed er => (er = ErrOptimisticLock ∧ List.filter (hits dr m vf cs k) rows = [] ∧ Inv e' rows) ∨
                   (¬ up (e_w e) ∧ (Inv e' rows ∨ Inv e' (save_rows dr s m now i vf v cs k rows)))
    | Got _ => False
    end.
Proof.
  intros (Hr & Hw & Hty & Hs) (Hc & Hl & v0 & i0 & vf0 & k0 & Hv0 & Hi0 & Hf0 & Hk0 & Hsep & Hcnt) Hv Hi Hf Hk. cbn [fst snd] in *.
  rewrite Hv in Hv0. injection Hv0 as <-. rewrite Hi in Hi0. injection Hi0 as <-. rewrite Hf in Hf0. injection Hf0 as <-.
  rewrite Hk in Hk0. injection Hk0 as <-.
  destruct (store_update d cr dr s m tables up execContext queryContext (sc_model _ _ _ Hsc) (sc_names _ _ _ Hsc) (sc_cols _ _ _ Hsc) (sc_some _ _ _ Hsc)
    cols (sc_table _ _ _ Hsc) rest now i vf Hi Hf rows cs a v k (new_builder e)) as (e' & r & E & Hh & Hr' & Hres);
    try done; [by apply (Hs a)|apply Hsc|].
  cbn [new_builder e_h e_w] in *. set (h' := <[a := touched_val s m now v]> (e_h e)) in *. cbn zeta.
  assert (typed s (e_h e') ∧ sendable_store dr (e_h e')) as [Hty' Hs'].
  { rewrite Hh. split.
    - split; [apply Hty|]. intros b x [[<- <-]|[_ Hx]]%lookup_insert_Some; [|by eapply Hty]. rewrite touched_length. by eapply Hty.
    - intros b x [[<- <-]|[_ Hx]]%lookup_insert_Some; [|by eapply Hs]. apply touched_sendable; [apply _|]. by eapply Hs. }
  unfold OrmSessionFacts.call. cbv zeta. rewrite E. cbn [fmap option_fmap option_map]. unfold outcome_of.
  exists e'. eexists. split; [reflexivity|]. split; [exact Hh|].
  assert (∀ l, table_is m tables cols rest (e_w e') l → Inv e' l) as HI by (intros l Hl'; by split_and!).
  destruct (r_err r); [|destruct Hres as [Ht Hres]; split; [by apply HI|exact Hres]].
  destruct Hres as [(-> & ? & ?)|[? [?|?]]]; [left; auto|right; auto..].
Qed.
Lemma refines_save now a cs e rows : Inv e rows → op_ok cr dr s m (OpSave now a cs) (rows, e_h e) → refines (OpSave now a cs) e rows.
Proof.
  intros HI Hok. pose proof Hok as (_ & _ & v & i & vf & k & Hv & Hi & Hf & Hk & _).
  destruct (call_save now a cs v i vf k e rows HI Hok Hv Hi Hf Hk) as (e' & x & E & Hh & Hx). unfold refines. rewrite E.
  destruct x as [n| |er]; [|done|].
  - destruct Hx as (HI' & Hne & ->). do 3 eexists. split; [reflexivity|]. rewrite Hh. split; [by eapply step_save|exact HI'].
  - destruct Hx as [(-> & Hnil & HI')|[Hup [HI'|HI']]]; (do 3 eexists; split; [reflexivity|]); rewrite Hh; (split; [|exact HI']).
    + by eapply step_stale.
    + apply step_save_fail; [by eapply not_reliable|done].
    + eapply step_save_unknown; [by eapply not_reliable|done..].
Qed.

Lemma call_refines o e rows : Inv e rows → op_ok cr dr s m o (rows, e_h e) → refines o e rows.
Proof.
  destruct o; intros HI Hok; [by apply refines_insert|by apply refines_save|by apply refines_delete|by apply refines_get].
Qed.


(** Stored values come back. *)
Definition reads_back (v : svalue) : Prop := ∀ i f x, Fields m !! i = Some f → v !! i = Some x → convert (Type_ f) (db dr x) = inr x.
Lemma loads_row_of v : length v = length (Fields m) → reads_back v → loads m convert (row_of dr m v) v.
Proof.
  intros Hl Hb. split; [done|]. intros i f Hf. destruct (lookup_lt_is_Some_2 v i) as [x Hx]; [rewrite Hl; by eapply lookup_lt_Some|].
  exists x. rewrite (row_of_cell dr m (sc_cols _ _ _ Hsc) v i f x Hl Hf Hx). split; [by eapply Hb|done].
Qed.
Lemma selected_snoc cs rows r : selected dr m cs rows = [] → visible m r = true → wanted dr m cs r = true → selected dr m cs (rows ++ [r]) = [r].
Proof. intros H1 H2 H3. unfold selected in *. rewrite List.filter_app, H1. cbn. by rewrite H2, H3. Qed.

Lemma rows_at_filled now a v h : h !! a = Some v → rows_at dr m (fill_store s m now [Some a] h) [Some a] = [row_of dr m (with_defaults s m now v)].
Proof.
  intros Hv. unfold rows_at, entity_at, fill_store, deref. cbn [map mbind option_bind]. rewrite map_lookup_imap, Hv. cbn [mbind option_bind default].
  by rewrite bool_decide_true by left.
Qed.

(** C9: What is inserted can be read: an entity that was inserted is returned by a read
    whose condition is true of it and of no other visible row, field for field, with
    the creation time and version that the insert filled in, whatever the order of the
    table's columns, the dialect and the way fields are accessed. *)
Theorem insert_then_get now now' a v cs e rows : let v' := with_defaults s m now v in
  Inv e rows → reliable → now ≠ 0 → live cr s (e_h e) (Some a) → e_h e !! a = Some v →
  Forall (cond_ok dr m) cs → separable m cs [] →
  selected dr m cs rows = [] → visible m (row_of dr m v') = true → wanted dr m cs (row_of dr m v') = true → reads_back v' →
  ∃ e', run_calls [OpInsert now [Some a] 0; OpGet now' cs] e = (e', Some [Done (Ok 1); Got v']) ∧ Inv e' (rows ++ [row_of dr m v']).
Proof.
  intros v' HI Hrel Hnow Hl Hv Hc Hsep Hsel Hvis Hwant Hback.
  destruct (call_refines (OpInsert now [Some a] 0) e rows HI) as (e1 & x1 & rows1 & E1 & Hst1 & HI1).
  { split_and!; [done|done|done|by apply Forall_singleton]. }
  assert (length v' = length (Fields m)) as Hlen.
  { unfold v'. rewrite defaults_length. destruct HI as (_ & _ & Hty & _). by eapply (entity_length s m (sc_model _ _ _ Hsc) (sc_names _ _ _ Hsc)). }
  assert (x1 = Done (Ok 1) ∧ rows1 = rows ++ [row_of dr m v']) as [-> ->].
  { inversion Hst1; subst; [|done|naive_solver]. split; [done|]. f_equal. by apply rows_at_filled. }
  destruct (call_refines (OpGet now' cs) e1 _ HI1) as (e2 & x2 & rows2 & E2 & Hst2 & HI2); [done|].
  pose proof (selected_snoc cs rows _ Hsel Hvis Hwant) as Hsel2. pose proof (loads_row_of v' Hlen Hback) as Hld.
  assert (x2 = Got v' ∧ rows2 = rows ++ [row_of dr m v']) as [-> ->].
  { inversion Hst2 as [| | | | | | |? ? ? ? r w Hs1 Hw1| ? ? ? ? Hs1|? ? ? ? ? Hs1 Hs2| |]; subst; [| | |done].
    - rewrite Hsel2 in Hs1. injection Hs1 as <-. split; [|done]. f_equal. by eapply loads_det.
    - by rewrite Hsel2 in Hs1.
    - by destruct (Hs2 _ _ Hsel2 Hld). }
  exists e2. cbn [OrmSessionFacts.run_calls]. rewrite E1, E2. done.
Qed.

(** No row that a save has written is current for the version it was based on. *)
Lemma saved_not_current now i vf v cs cs' k rows : VersionField m = Some i → Fields m !! i = Some vf → Forall (counts vf) rows →
  (∀ r, r ∈ rows → hits dr m vf cs' k r = true → hits dr m vf cs k r = true) →
  List.filter (hits dr m vf cs' k) (save_rows dr s m now i vf v cs k rows) = [].
Proof.
  intros Hi Hf Hcnt Hsub. unfold save_rows. induction rows as [|r rows IH]; [done|]. apply Forall_cons in Hcnt as [Hr Hcnt].
  cbn [map List.filter]. rewrite IH; [|done|intros r' Hr'; apply Hsub; by right].
  destruct (hits dr m vf cs k r) eqn:Et.
  - enough (current vf k (updated dr m vf (touched_val s m now v) r) = false) as E by (unfold hits; by rewrite E, andb_false_r).
    unfold current. rewrite (updated_cell dr m (sc_cols _ _ _ Hsc) i vf Hi Hf) by done.
    unfold hits, current in Et. apply andb_true_iff, proj2, bool_decide_eq_true in Et. rewrite Et. apply bool_decide_eq_false. intros [=]. lia.
  - destruct (hits dr m vf cs' k r) eqn:Et'; [|done]. rewrite (Hsub r) in Et; [done|left|done].
Qed.

(** C8: No update is lost.  On a database that answers every statement, without hooks
    and middlewares, and with conditions that are not bare disjunctions: once a save of
    an instance went through, a save of an instance that holds the version the first
    one held, with a condition that selects no rows of that version that the first did
    not select, is refused with the lock conflict and changes nothing: what the first
    wrote stays.  The second instance may also be the same one: its version in memory
    is not counted up by the save. *)
Theorem no_lost_update now now' a b v w cs cs' i vf k n e e1 rows :
  Inv e rows → reliable → op_ok cr dr s m (OpSave now a cs) (rows, e_h e) →
  VersionField m = Some i → Fields m !! i = Some vf →
  e_h e !! a = Some v → version_of i (touched_val s m now v) = Some k →
  call (OpSave now a cs) e = (e1, Some (Done n)) →
  let rows1 := save_rows dr s m now i vf v cs k rows in
  op_ok cr dr s m (OpSave now' b cs') (rows1, e_h e1) →
  e_h e1 !! b = Some w → version_of i (touched_val s m now' w) = Some k →
  (∀ r, r ∈ rows → hits dr m vf cs' k r = true → hits dr m vf cs k r = true) →
  Inv e1 rows1 ∧ ∃ e2, call (OpSave now' b cs') e1 = (e2, Some (Failed ErrOptimisticLock)) ∧ Inv e2 rows1.
Proof.
  intros HI Hrel Hok Hi Hf Hv Hk Hcall rows1 Hok' Hw Hk' Hsub.
  destruct (call_save now a cs v i vf k e rows HI Hok Hv Hi Hf Hk) as (e1' & x & E1 & _ & Hx). rewrite Hcall in E1. injection E1 as <- <-.
  destruct Hx as (HI1 & _ & _). split; [exact HI1|].
  pose proof Hok as (_ & _ & v0 & i0 & vf0 & k0 & _ & Hi0 & Hf0 & _ & _ & Hcnt). rewrite Hi in Hi0. injection Hi0 as <-. rewrite Hf in Hf0. injection Hf0 as <-.
  destruct (call_save now' b cs' w i vf k e1 rows1 HI1 Hok' Hw Hi Hf Hk') as (e2 & x & E2 & _ & Hx). exists e2. rewrite E2.
  pose proof (saved_not_current now i vf v cs cs' k rows Hi Hf Hcnt Hsub) as Hnone. fold rows1 in Hnone.
  destruct x as [n'| |er]; [by destruct Hx as (_ & ? & _)|done|]. destruct Hx as [(-> & _ & HI2)|[Hup _]]; [done|]. by destruct Hup.
Qed.
End simulation.

(** ** A database in memory

    It reads the text of a statement and does what it says. *)
Definition mem_to_db (v : gval) : option dbval :=
  match v with
  | VNil => Some DBNull
  | VInt _ z => Some (DBInt z)
  | VUint _ z => if z <? 2 ^ 63 then Some (DBInt z) else None
  | VStr s => Some (DBText s)
  | VTime t => Some (DBTime t)
  | VPtrTime p => Some (match p with Some t => DBTime t | None => DBNull end)
  | VOther _ _ => None
  end.
Definition mem_compare (a b : dbval) : comparison :=
  match a, b with
  | DBInt x, DBInt y | DBTime x, DBTime y => x ?= y
  | DBText x, DBText y => String.compare x y
  | _, _ => Lt
  end.
Definition mem_driver : Driver := mkDriver mem_to_db mem_compare false.
Definition mem_exec (q : ascii) (w : Database) (text : string) (args : list gval) : Database * (orm_err + sqlResult) :=
  match vs ← bound mem_driver args; st ← parse q text vs; run_stmt mem_driver st w with
  | Some (db, n) => (db, inr (mkSR (Ok n) (Ok 0)))
  | None => (w, inl (ErrOther "sql"))
  end.
Definition mem_query (q : ascii) (w : Database) (text : string) (args : list gval) : Database * (orm_err + Rows) :=
  match vs ← bound mem_driver args; st ← parse q text vs; run_query mem_driver st w with
  | Some (cols, rows) => (w, inr (mkRows (inr cols) rows None))
  | None => (w, inl (ErrOther "sql"))
  end.
#[export] Instance mem_go : GoDriver mem_driver.
Proof. split; try done. intros w z Hz. cbn. by destruct (Z.ltb_spec z (2 ^ 63)); [|lia]. Qed.
#[export] Instance mem_sql q : SqlDatabase mem_driver q id (λ _, True) (mem_exec q) (mem_query q).
Proof.
  split.
  - intros w text args w' r. unfold mem_exec. destruct (_ ≫= _) as [[db n]|]; [|done]. by intros [= <- <-].
  - intros w text args vs st db n Hb Hp Hr. unfold mem_exec. cbn [id] in Hr. rewrite Hb. cbn [mbind option_bind]. rewrite Hp. cbn [mbind option_bind].
    by rewrite Hr.
  - intros w text args vs st cols rows Hb Hp Hr. unfold mem_query. cbn [id] in Hr. rewrite Hb. cbn [mbind option_bind]. rewrite Hp.
    cbn [mbind option_bind]. by rewrite Hr.
Qed.

(** ** Examples on it *)
Definition wCols : list string := ["title"; "id"; "version"; "created_at"].
Definition wTable (rows : list row) : Database := <["book" := mkT wCols rows]> ∅.
Definition wSession (rows : list row) : est Database := mkE (wTable rows) fresh wBooks [].
Definition id_eq (n : Z) : cond := CCmp CEq "Id" (OVal (VInt 64 n)).
Abbreviation wRun := (run_calls mysqlDialect NewUnsafeValue wBook (mem_exec "`") (mem_query "`") wConvert).
Abbreviation wCall := (call mysqlDialect NewUnsafeValue wBook (mem_exec "`") (mem_query "`") wConvert).

Lemma wBook_schema : schema_ok wBook wBookModel wCols.
Proof.
  split.
  - apply wBook_model.
  - apply (bool_decide_unpack _). by vm_compute.
  - repeat constructor.
  - apply (bool_decide_unpack _). by vm_compute.
  - by vm_compute.
  - apply wBook_fillable.
  - done.
  - assert (map ColName (Fields wBookModel) = ["id"; "title"; "created_at"; "version"]) as -> by (by vm_compute).
    unfold wCols. solve_Permutation.
Qed.
Lemma wBook_sendable : sendable_store mem_driver wBooks.
Proof.
  intros a v. unfold wBooks. intros [[<- <-]|[_ [<- <-]%lookup_singleton_Some]]%lookup_insert_Some; repeat constructor; by eexists.
Qed.
Lemma wSession_inv rows : Inv mem_driver wBook wBookModel id wCols ∅ (wSession rows) rows.
Proof. split_and!; [apply reg_ok_new|done|apply wBook_typed|apply wBook_sendable]. Qed.
Lemma id_eq_ok n : Forall (cond_ok mem_driver wBookModel) [id_eq n].
Proof. repeat constructor; by eexists. Qed.
Definition wBook_row : row := row_of mem_driver wBookModel [VInt 64 8; VStr "B"; VTime 3; VInt 64 5].

Lemma wBook_reads_back n t c k : reads_back mem_driver wBookModel wConvert [VInt 64 n; VStr t; VTime c; VInt 64 k].
Proof.
  intros i f x. assert (Fields wBookModel = [mkField "id" "Id" (FInt 64); mkField "title" "Title" (FOther "string");
    mkField "created_at" "CreatedAt" FTime; mkField "version" "Version" (FInt 64)]) as -> by (by vm_compute).
  do 4 (destruct i as [|i]; [by intros [= <-] [= <-]|]). by destruct i.
Qed.


Lemma insert_then_get_witness : ∃ e',
  wRun [OpInsert 9 [Some 1%nat] 0; OpGet 9 [id_eq 7]] (wSession [wBook_row])
  = (e', Some [Done (Ok 1); Got [VInt 64 7; VStr "A"; VTime 9; VInt 64 1]]).
Proof.
  destruct (insert_then_get mysqlDialect NewUnsafeValue mem_driver wBook wBookModel id (λ _, True) (mem_exec "`") (mem_query "`") wConvert wCols ∅ wBook_schema
    9 9 1%nat [VInt 64 7; VStr "A"; VTime 0; VInt 64 0] [id_eq 7] (wSession [wBook_row]) [wBook_row] (wSession_inv _)) as (e' & E & _).
  - done.
  - done.
  - apply wBook_live. left.
  - done.
  - apply id_eq_ok.
  - done.
  - by vm_compute.
  - by vm_compute.
  - by vm_compute.
  - assert (with_defaults wBook wBookModel 9 [VInt 64 7; VStr "A"; VTime 0; VInt 64 0] = [VInt 64 7; VStr "A"; VTime 9; VInt 64 1]) as -> by (by vm_compute).
    apply wBook_reads_back.
  - exists e'. exact E.
Defined.

(** Saving an instance twice. *)
Definition wSaved : est Database := (wCall (OpSave 9 2 [id_eq 8]) (wSession [wBook_row])).1.
Lemma wSave_ok rows : Forall (counts (mkField "version" "Version" (FInt 64))) rows →
  op_ok NewUnsafeValue mem_driver wBook wBookModel (OpSave 9 2 [id_eq 8]) (rows, wBooks).
Proof.
  intros Hc. split_and!; [apply id_eq_ok|apply wBook_live; right; left|].
  exists [VInt 64 8; VStr "B"; VTime 3; VInt 64 5], 3%nat, (mkField "version" "Version" (FInt 64)), 5. by split_and!.
Qed.
Lemma wSaved_store : e_h wSaved = wBooks.
Proof. vm_compute. reflexivity. Qed.
Lemma wSaved_done : wCall (OpSave 9 2 [id_eq 8]) (wSession [wBook_row]) = (wSaved, Some (Done (Ok 1))).
Proof. unfold wSaved. rewrite (surjective_pairing (wCall _ _)) at 1. by f_equal. Qed.
Lemma no_lost_update_witness : ∃ e2, wCall (OpSave 9 2 [id_eq 8]) wSaved = (e2, Some (Failed ErrOptimisticLock)).
Proof.
  destruct (no_lost_update mysqlDialect NewUnsafeValue mem_driver wBook wBookModel id (λ _, True) (mem_exec "`") (mem_query "`") wConvert wCols ∅ wBook_schema
    9 9 2 2 [VInt 64 8; VStr "B"; VTime 3; VInt 64 5] [VInt 64 8; VStr "B"; VTime 3; VInt 64 5] [id_eq 8] [id_eq 8] 3
    (mkField "version" "Version" (FInt 64)) 5 (Ok 1) (wSession [wBook_row]) wSaved [wBook_row] (wSession_inv _)) as (_ & e2 & E & _).
  - done.
  - apply wSave_ok, Forall_singleton. exists 5. by vm_compute.
  - done.
  - by vm_compute.
  - done.
  - done.
  - apply wSaved_done.
  - rewrite wSaved_store. apply wSave_ok. unfold save_rows. cbn [map]. apply Forall_singleton. exists 6. by vm_compute.
  - rewrite wSaved_store. by vm_compute.
  - done.
  - done.
  - by exists e2.
Defined.

(** What goes wrong with a disjunction: a deleted row is read, and a save writes a row
    whose version is not the instance's. *)
Definition wDocStruct : structdef := struct_of wDoc.
Definition wDocConvert (t : ftype) (x : dbval) : orm_err + gval :=
  match t, x with
  | FPtrTime, DBNull => inr (VPtrTime None)
  | FPtrTime, DBTime t => inr (VPtrTime (Some t))
  | _, _ => wConvert t x
  end.
Definition wDocs : est Database :=
  mkE {[ "doc" := mkT ["id"; "age"; "deleted_at"; "version"] [] ]} fresh
    {[ 1%nat := [VInt 64 2; VInt 64 30; VPtrTime None; VInt 64 0] ]} [].
Abbreviation wRunDocs := (run_calls mysqlDialect NewUnsafeValue wDocStruct (mem_exec "`") (mem_query "`") wDocConvert).
Example deleted_row_read :
  (wRunDocs [OpInsert 9 [Some 1%nat] 0; OpDelete 10 [id_eq 2]; OpGet 11 [id_eq 2]; OpGet 11 [COr (id_eq 1) (id_eq 2)]] wDocs).2
  = Some [Done (Ok 1); Done (Ok 1); Failed ErrNoRows; Got [VInt 64 2; VInt 64 30; VPtrTime (Some 10); VInt 64 1]].
Proof. by vm_compute. Qed.
Example stale_row_saved :
  (wRun [OpSave 9 2 [id_eq 8]; OpSave 9 2 [id_eq 8]; OpSave 9 2 [COr (id_eq 8) (id_eq 1)]] (wSession [wBook_row])).2
  = Some [Done (Ok 1); Failed ErrOptimisticLock; Done (Ok 1)].
Proof. by vm_compute. Qed.
