(* ===== verification/OrmGen.v ===== *)
(** * The ORM code generator

    Models [src/orm/gen/orm-gen]: the visitors of [parse_file.go] over the walk of
    [go/ast], and [gen] of [main.go] with its template.  A syntax tree keeps of each
    node what the visitors look at.  Visitors are shared objects: the entry visitor
    holds the visitor of the file, which holds those of the types; a visitor is a
    place among them.  Parsing Go is a parameter. *)

From S2P Require Import Prelude GoStrings.

(** ** Syntax trees *)
Inductive label :=
| LFile (name : string)
| LImportSpec (name : option string) (path : string)
| LTypeSpec (name : string)
| LField (names : list string)
| LOther.
Inductive ast := Node (l : label) (children : list ast).

(** ** Visitors *)
Record FileInfo := mkInfo { Package : string; Imports : list string; Variables : option (gmap string (list string)) }.
Record typeVisitor := mkTV { tv_Name : string; tv_Variables : list string }.
Record fileVisitor := mkFV { fv_Package : string; fv_Imports : list string; typeVisitors : list typeVisitor }.
(** [SingleFileEntryVisitor] *)
Abbreviation entry := (option fileVisitor).
Inductive visitor := VEntry | VFile | VType (i : nat).

Definition entry_Visit (n : option label) (s : entry) : visitor * entry :=
  match n with
  | Some (LFile name) => (VFile, Some (mkFV name [] []))
  | _ => (VEntry, s)
  end.
Definition import_path (name : option string) (path : string) : string :=
  match name with
  | Some nm => if bool_decide (nm = "") then path else nm +:+ " " +:+ path
  | None => path
  end.
Definition file_Visit (n : option label) (f : fileVisitor) : visitor * fileVisitor :=
  match n with
  | Some (LImportSpec name path) => (VFile, mkFV (fv_Package f) (fv_Imports f ++ [import_path name path]) (typeVisitors f))
  | Some (LTypeSpec name) => (VType (length (typeVisitors f)), mkFV (fv_Package f) (fv_Imports f) (typeVisitors f ++ [mkTV name []]))
  | _ => (VFile, f)
  end.
Definition type_Visit (n : option label) (t : typeVisitor) : typeVisitor :=
  match n with
  | Some (LField names) => mkTV (tv_Name t) (tv_Variables t ++ names)
  | _ => t
  end.
(** A call through the interface; [None] is the call with a nil node. *)
Definition Visit (v : visitor) (n : option label) (s : entry) : visitor * entry :=
  match v, s with
  | VEntry, _ => entry_Visit n s
  | VFile, Some f => let '(v, f) := file_Visit n f in (v, Some f)
  | VType i, Some f => (VType i, Some (mkFV (fv_Package f) (fv_Imports f) (alter (type_Visit n) i (typeVisitors f))))
  | _, None => (v, s)
  end.
(** [ast.Walk]: visit the node, walk the children with the visitor returned, and visit
    nil. *)
Fixpoint Walk (v : visitor) (t : ast) (s : entry) {struct t} : entry :=
  match t with
  | Node l children =>
      let '(w, s) := Visit v (Some l) s in
      let s := foldl (λ s c, Walk w c s) s children in
      (Visit w None s).2
  end.

Definition fileVisitor_Get (f : fileVisitor) : FileInfo := mkInfo (fv_Package f) (fv_Imports f) None.
Definition entry_Get (s : entry) : option FileInfo := fileVisitor_Get <$> s.

(** ** Generation *)
Definition nl : string := String (ascii_of_N 10) "".
Definition dquote : string := String (ascii_of_N 34) "".
(** The template. *)
Definition render (i : FileInfo) : string :=
  "package " +:+ Package i +:+ nl +:+ nl +:+ "import (" +:+ nl +:+ "    " +:+ dquote +:+ "Soil/orm" +:+ dquote
  +:+ foldr (λ imp rest, nl +:+ "    " +:+ imp +:+ rest) ")" (Imports i).
(** [gen]; without a file node the template is executed on nil and fails. *)
Definition gen (parsed : string + ast) : string + string :=
  match parsed with
  | inl err => inl err
  | inr f =>
      match entry_Get (Walk VEntry f None) with
      | None => inl "template: gen-orm: nil data"
      | Some info => inr (render info)
      end
  end.
