(* ===== verification/OrmGenFacts.v ===== *)
(** * What the code generator collects and writes *)

From S2P Require Import Prelude GoStrings OrmGen.

(** ** Trees *)
Lemma ast_ind' (P : ast → Prop) : (∀ l cs, Forall P cs → P (Node l cs)) → ∀ t, P t.
Proof.
  intros HP. fix IH 1. intros [l cs]. apply HP. induction cs as [|c cs IHcs]; constructor; [apply IH|exact IHcs].
Qed.

(** What there is to find: the names of all fields in a tree, in source order; the
    imports and, with its fields, every type that is not inside another. *)
Fixpoint fields_in (t : ast) : list string :=
  match t with
  | Node l cs => (match l with LField names => names | _ => [] end) ++ concat (map fields_in cs)
  end.
Fixpoint specs_in (t : ast) : list (option string * string) :=
  match t with
  | Node (LTypeSpec _) _ => []
  | Node l cs => (match l with LImportSpec name path => [(name, path)] | _ => [] end) ++ concat (map specs_in cs)
  end.
(** What the visitor keeps of them. *)
Definition imports_in (t : ast) : list string := map (λ x, import_path x.1 x.2) (specs_in t).
Lemma concat_imports cs : concat (map imports_in cs) = map (λ x, import_path x.1 x.2) (concat (map specs_in cs)).
Proof. induction cs as [|c cs IH]; [done|]. simpl. by rewrite IH, map_app. Qed.
Fixpoint types_in (t : ast) : list typeVisitor :=
  match t with
  | Node (LTypeSpec name) cs => [mkTV name (concat (map fields_in cs))]
  | Node _ cs => concat (map types_in cs)
  end.

(** ** The walk *)
(** With the visitor of a type it adds the fields of the tree to that type. *)
Definition add_fields (i : nat) (names : list string) (f : fileVisitor) : fileVisitor :=
  mkFV (fv_Package f) (fv_Imports f) (alter (λ t, mkTV (tv_Name t) (tv_Variables t ++ names)) i (typeVisitors f)).
Lemma add_fields_nil i f : add_fields i [] f = f.
Proof.
  destruct f as [p im ts]. unfold add_fields. simpl. f_equal. apply list_alter_id. intros [n vs]. simpl. by rewrite app_nil_r.
Qed.
Lemma add_fields_app i a b f : add_fields i b (add_fields i a f) = add_fields i (a ++ b) f.
Proof.
  unfold add_fields. simpl. f_equal. rewrite list_alter_alter_eq. apply list_alter_ext; [|done]. intros [n vs] _. simpl. by rewrite app_assoc.
Qed.
Lemma type_Visit_add l i f :
  mkFV (fv_Package f) (fv_Imports f) (alter (type_Visit l) i (typeVisitors f))
  = add_fields i (match l with Some (LField names) => names | _ => [] end) f.
Proof.
  unfold add_fields. f_equal. apply list_alter_ext; [|done]. intros [n vs] _.
  destruct l as [[]|]; simpl; by rewrite ?app_nil_r.
Qed.
Lemma walk_type t : ∀ i f, Walk (VType i) t (Some f) = Some (add_fields i (fields_in t) f).
Proof.
  induction t as [l cs IH] using ast_ind'. intros i f. cbn [Walk Visit]. rewrite type_Visit_add.
  assert (Hf : ∀ g, foldl (λ s c, Walk (VType i) c s) (Some g) cs = Some (add_fields i (concat (map fields_in cs)) g)).
  { induction IH as [|c cs Hc _ IHcs]; intros g; simpl; [by rewrite add_fields_nil|]. rewrite Hc, IHcs, add_fields_app. done. }
  rewrite Hf. cbn [Visit snd]. rewrite type_Visit_add, add_fields_nil, add_fields_app. cbn [fields_in]. done.
Qed.
(** With the visitor of the file it adds the imports and types. *)
Definition add_file (t : list string) (ts : list typeVisitor) (f : fileVisitor) : fileVisitor :=
  mkFV (fv_Package f) (fv_Imports f ++ t) (typeVisitors f ++ ts).
Lemma add_file_nil f : add_file [] [] f = f.
Proof. destruct f. unfold add_file. simpl. by rewrite !app_nil_r. Qed.
Lemma add_file_app a b ta tb f : add_file b tb (add_file a ta f) = add_file (a ++ b) (ta ++ tb) f.
Proof. unfold add_file. simpl. by rewrite !app_assoc. Qed.
Lemma walk_new_type cs name : ∀ f,
  foldl (λ s c, Walk (VType (length (typeVisitors f))) c s) (Some (add_file [] [mkTV name []] f)) cs
  = Some (add_file [] [mkTV name (concat (map fields_in cs))] f).
Proof.
  intros f. assert (H : ∀ vs, foldl (λ s c, Walk (VType (length (typeVisitors f))) c s) (Some (add_file [] [mkTV name vs] f)) cs
    = Some (add_file [] [mkTV name (vs ++ concat (map fields_in cs))] f)); [|apply H].
  induction cs as [|c cs IH]; intros vs; simpl; [by rewrite app_nil_r|]. rewrite walk_type.
  assert (Ha : add_fields (length (typeVisitors f)) (fields_in c) (add_file [] [mkTV name vs] f)
    = add_file [] [mkTV name (vs ++ fields_in c)] f).
  { unfold add_fields, add_file. simpl. f_equal. rewrite alter_app_r_alt by done. by rewrite Nat.sub_diag. }
  rewrite Ha, IH. by rewrite app_assoc.
Qed.
Lemma walk_file t : ∀ f, Walk VFile t (Some f) = Some (add_file (imports_in t) (types_in t) f).
Proof.
  induction t as [l cs IH] using ast_ind'. intros f.
  assert (Hf : ∀ g, foldl (λ s c, Walk VFile c s) (Some g) cs = Some (add_file (concat (map imports_in cs)) (concat (map types_in cs)) g)).
  { clear -IH. induction IH as [|c cs Hc _ IHcs]; intros g; simpl; [by rewrite add_file_nil|]. by rewrite Hc, IHcs, add_file_app. }
  rewrite concat_imports in Hf. unfold imports_in.
  destruct l as [name|name path|name|names|]; cbn [Walk Visit file_Visit specs_in types_in map app].
  - rewrite Hf. done.
  - rewrite Hf. cbn [Visit file_Visit snd]. f_equal. unfold add_file. simpl. by rewrite <- app_assoc.
  - pose proof (walk_new_type cs name f) as Hw. unfold add_file in Hw at 1. simpl in Hw. rewrite app_nil_r in Hw. rewrite Hw.
    cbn [Visit snd]. by rewrite type_Visit_add, add_fields_nil.
  - rewrite Hf. done.
  - rewrite Hf. done.
Qed.

(** ** The generated text *)
(** Read a generated file back: the package and the imports after the ORM's own. *)
Fixpoint drop_str (n : nat) (s : string) : string :=
  match n, s with
  | S n', String _ s' => drop_str n' s'
  | _, _ => s
  end.
Definition is_quote (s : string) : bool := has_prefix1 (ascii_of_N 34) s || has_prefix1 "`" s.
Definition read_import (s : string) : option string * string :=
  if is_quote s then (None, s)
  else match cut1 " " s with Some (alias, path) => (Some alias, path) | None => (None, s) end.
Definition read_gen (s : string) : option (string * list (option string * string)) :=
  match split1 (ascii_of_N 10) (drop_last s) with
  | pkg :: _ :: _ :: _ :: imps => Some (drop_str 8 pkg, map (λ l, read_import (drop_str 4 l)) imps)
  | _ => None
  end.
Definition one_line (s : string) : Prop := contains1 (ascii_of_N 10) s = false.

Definition gen_lines (i : FileInfo) : list string :=
  ("package " +:+ Package i) :: "" :: "import (" :: ("    " +:+ dquote +:+ "Soil/orm" +:+ dquote) :: map (λ imp, "    " +:+ imp) (Imports i).
Lemma join_imports s imps : join nl (s :: map (λ imp, "    " +:+ imp) imps) +:+ ")" = s +:+ foldr (λ imp rest, nl +:+ "    " +:+ imp +:+ rest) ")" imps.
Proof.
  revert s. induction imps as [|imp imps IH]; intros s; [done|]. cbn [map foldr].
  rewrite join_cons by done. rewrite !str_app_assoc, IH. by rewrite !str_app_assoc.
Qed.
Lemma render_lines i : render i = join (str1 (ascii_of_N 10)) (gen_lines i) +:+ str1 ")".
Proof.
  unfold gen_lines, render. change (str1 (ascii_of_N 10)) with nl. change (str1 ")") with ")".
  rewrite !(join_cons nl) by done. rewrite !str_app_assoc, join_imports. by rewrite !str_app_assoc, app_nil_l.
Qed.
Lemma render_reads_back i : one_line (Package i) → Forall one_line (Imports i) →
  read_gen (render i) = Some (Package i, map read_import (Imports i)).
Proof.
  intros Hp Hi. unfold read_gen. rewrite render_lines, drop_last_snoc, split1_join; [|done|].
  - unfold gen_lines. by rewrite map_map.
  - unfold gen_lines. constructor; [rewrite contains1_app; by rewrite Hp|]. repeat (constructor; [done|]).
    apply Forall_fmap. eapply Forall_impl; [exact Hi|]. intros imp Himp. simpl. exact Himp.
Qed.

(** An import as Go has it: a quoted path on one line, and a name without blanks. *)
Definition spec_ok (x : option string * string) : Prop :=
  is_quote x.2 = true ∧ one_line x.2 ∧
  match x.1 with Some nm => nm ≠ "" ∧ is_quote nm = false ∧ contains1 " " nm = false ∧ one_line nm | None => True end.
Lemma cut1_app c s t : contains1 c s = false → cut1 c (s +:+ String c t) = Some (s, t).
Proof.
  induction s as [|d s IH]; cbn [contains1].
  - intros _. rewrite app_nil_l. cbn [cut1]. by rewrite bool_decide_true.
  - intros [Hd Hs]%orb_false_iff. rewrite app_cons. cbn [cut1]. by rewrite Hd, (IH Hs).
Qed.
Lemma read_import_path x : spec_ok x → read_import (import_path x.1 x.2) = x ∧ one_line (import_path x.1 x.2).
Proof.
  destruct x as [[nm|] path]; intros (Hq & Hl & Hn); simpl in *; unfold read_import; [|by rewrite Hq].
  destruct Hn as (Hne & Hnq & Hsp & Hnl). rewrite bool_decide_false by done. split.
  - replace (is_quote (nm +:+ " " +:+ path)) with false; [|by destruct nm].
    change (nm +:+ " " +:+ path) with (nm +:+ String " " path). by rewrite cut1_app.
  - unfold one_line. rewrite contains1_app, Hnl. exact Hl.
Qed.

(** C38: the generator writes what the source says.  For every syntax tree of a file,
    [gen] succeeds, and the text it writes reads back as the file's package and its
    imports, each with its alias and path, once and in source order; on the way the
    visitors have collected every type outside others with all its field names. *)
Theorem gen_reads_back name decls :
  one_line name → Forall spec_ok (specs_in (Node (LFile name) decls)) →
  Walk VEntry (Node (LFile name) decls) None
    = Some (mkFV name (imports_in (Node (LFile name) decls)) (types_in (Node (LFile name) decls))) ∧
  ∃ text, gen (inr (Node (LFile name) decls)) = inr text ∧
    read_gen text = Some (name, specs_in (Node (LFile name) decls)).
Proof.
  intros Hn Hi.
  assert (Hw : Walk VEntry (Node (LFile name) decls) None
    = Some (mkFV name (imports_in (Node (LFile name) decls)) (types_in (Node (LFile name) decls)))).
  { pose proof (walk_file (Node LOther decls) (mkFV name [] [])) as H. cbn [Walk Visit file_Visit entry_Visit] in *. by rewrite H. }
  split; [exact Hw|]. unfold gen. rewrite Hw. eexists. split; [done|]. rewrite render_reads_back; simpl; [|done|].
  - unfold imports_in. rewrite map_map. do 2 f_equal. etrans; [|apply map_id].
    apply map_ext_Forall. eapply Forall_impl; [exact Hi|]. intros x Hx. by apply read_import_path.
  - unfold imports_in. apply Forall_fmap. eapply Forall_impl; [exact Hi|]. intros x Hx. by apply read_import_path.
Qed.
(** The file [testdata/user.go]. *)
Definition user_go : ast :=
  Node (LFile "testdata") [Node LOther [Node (LImportSpec (Some "sqlx") (dquote +:+ "database/sql" +:+ dquote)) []];
    Node LOther [Node (LTypeSpec "User") [Node LOther [Node LOther
      [Node (LField ["Name"]) []; Node (LField ["Age"]) []; Node (LField ["NickName"]) []; Node (LField ["Picture"]) []]]]];
    Node LOther [Node (LTypeSpec "UserDetail") [Node LOther [Node LOther [Node (LField ["Address"]) []]]]]].
Lemma gen_reads_back_witness : ∃ text, gen (inr user_go) = inr text ∧
  read_gen text = Some ("testdata", [(Some "sqlx", dquote +:+ "database/sql" +:+ dquote)]).
Proof.
  destruct (gen_reads_back "testdata" (let '(Node _ ds) := user_go in ds)) as [_ H].
  - reflexivity.
  - constructor; [|constructor]. vm_compute. split_and!; try done.
  - exact H.
Defined.
(** The types are collected but [Get] does not hand them on. *)
Lemma types_never_reported t : ∀ i, entry_Get (Walk VEntry t None) = Some i → Variables i = None.
Proof. intros i. unfold entry_Get. destruct (Walk VEntry t None); [|done]. by intros [= <-]. Qed.
(** A source that imports the ORM itself yields a file that imports it twice. *)
Example orm_imported_twice : ∃ text, gen (inr (Node (LFile "p") [Node (LImportSpec None (dquote +:+ "Soil/orm" +:+ dquote)) []])) = inr text ∧
  text = "package p" +:+ nl +:+ nl +:+ "import (" +:+ nl +:+ "    " +:+ dquote +:+ "Soil/orm" +:+ dquote
         +:+ nl +:+ "    " +:+ dquote +:+ "Soil/orm" +:+ dquote +:+ ")".
Proof. eexists. split; vm_compute; reflexivity. Qed.
