(* ===== verification/GrpcPickers.v ===== *)
(** * The gRPC pickers

    Models [src/micro/loadBalance] (random, round robin, weighted random, smooth
    weighted round robin, least active) and [src/micro/route] (round robin over
    filtered connections).  A sub-connection is a number; the map of ready ones is a
    list in the order the loop meets them; random numbers are arguments.  A nil error
    picker is [None].  A mutex that is never released blocks the next caller for
    ever. *)

From S2P Require Import Prelude GoStrings.
Local Open Scope Z_scope.

Inductive pick_err := ErrNoSubConnAvailable.
(** An address by its attributes. *)
Record address := mkAddr { attr_weight : option Z; attr_group : option string }.
Abbreviation ready := (list (nat * address)).

Definition maxUint32 : Z := 2 ^ 32 - 1.

(** ** random *)
Record rnd_Balancer := rnd_mkBal { rnd_connections : list nat; rnd_length : Z }.
Definition rnd_Build (scs : ready) : option rnd_Balancer :=
  match scs with [] => None | _ => Some (rnd_mkBal (map fst scs) (Z.of_nat (length scs))) end.
(** [rand.IntN(n)] panics for [n <= 0]; [r] is the number drawn. *)
Definition rnd_Pick (b : rnd_Balancer) (r : Z) : res pick_err nat :=
  if rnd_length b <=? 0 then Panic else index_or_panic (rnd_connections b) (Z.to_nat (r mod rnd_length b)).

(** ** round_robin *)
Record rr_Balancer := rr_mkBal { rr_connections : list nat; rr_next : Z }.
Definition rr_Build (scs : ready) (r : Z) : option rr_Balancer :=
  match scs with [] => None | _ => Some (rr_mkBal (map fst scs) (r mod Z.of_nat (length scs))) end.
Definition rr_Pick (b : rr_Balancer) : rr_Balancer * res pick_err nat :=
  match rr_connections b with
  | [] => (b, Panic)
  | cs => (rr_mkBal cs (u64 (rr_next b + 1)), index_or_panic cs (Z.to_nat (rr_next b mod Z.of_nat (length cs))))
  end.

(** ** weight_random *)
Record wr_weightConn := wr_mkConn { wr_conn : nat; wr_weight : Z }.
Record wr_Balancer := wr_mkBal { wr_connections : list wr_weightConn; wr_totalWeight : Z }.
(** The total is computed but not stored; a missing weight panics. *)
Fixpoint wr_collect (scs : ready) (total : Z) : option (list wr_weightConn * Z) :=
  match scs with
  | [] => Some ([], total)
  | (sc, a) :: scs' =>
      match attr_weight a with
      | None => None
      | Some w => (λ p, (wr_mkConn sc w :: p.1, p.2)) <$> wr_collect scs' (u32 (total + w))
      end
  end.
Definition wr_Build (scs : ready) : res pick_err (option wr_Balancer) :=
  match scs with
  | [] => Ok None
  | _ => match wr_collect scs 0 with Some (cs, _) => Ok (Some (wr_mkBal cs 0)) | None => Panic end
  end.
Fixpoint wr_search (cs : list wr_weightConn) (randWeight : Z) : res pick_err nat :=
  match cs with
  | [] => Err ErrNoSubConnAvailable
  | sc :: cs' =>
      let randWeight := u32 (randWeight - wr_weight sc) in
      if randWeight <? 0 then Ok (wr_conn sc) else wr_search cs' randWeight
  end.
(** [rand.Uint32N(0)] panics; [r] is the number drawn. *)
Definition wr_Pick (b : wr_Balancer) (r : Z) : res pick_err nat :=
  if wr_totalWeight b =? 0 then Panic else wr_search (wr_connections b) (r mod wr_totalWeight b).

(** ** smoothWeightedRR *)
Record swrr_weightConn := swrr_mkConn { swrr_sc : nat; swrr_efficientWeight : Z; swrr_currentWeight : Z; swrr_locked : bool }.
Abbreviation swrr_Balancer := (list swrr_weightConn).
Fixpoint swrr_collect (scs : ready) : option swrr_Balancer :=
  match scs with
  | [] => Some []
  | (c, a) :: scs' =>
      match attr_weight a with
      | None => None
      | Some w => cons (swrr_mkConn c w w false) <$> swrr_collect scs'
      end
  end.
Definition swrr_Build (scs : ready) : res pick_err (option swrr_Balancer) :=
  match scs with
  | [] => Ok None
  | _ => match swrr_collect scs with Some cs => Ok (Some cs) | None => Panic end
  end.

(** The loop: the position chosen so far and its current weight.  [None]: blocked on a
    mutex that is never released. *)
Fixpoint swrr_Pick_loop (cs : list swrr_weightConn) (i : nat) (totalWeight : Z) (res : option (nat * Z))
  : option (list swrr_weightConn * Z * option (nat * Z)) :=
  match cs with
  | [] => Some ([], totalWeight, res)
  | c :: cs' =>
      if swrr_locked c then None
      else
        let cur := u32 (swrr_currentWeight c + swrr_efficientWeight c) in
        let res := match res with
                   | Some (j, rc) => if rc <? cur then Some (i, cur) else Some (j, rc)
                   | None => Some (i, cur)
                   end in
        '(cs', total, res) ← swrr_Pick_loop cs' (S i) (u32 (totalWeight + swrr_efficientWeight c)) res;
        Some (swrr_mkConn (swrr_sc c) (swrr_efficientWeight c) cur (swrr_locked c) :: cs', total, res)
  end.
Definition swrr_sub_current (total : Z) (c : swrr_weightConn) : swrr_weightConn :=
  swrr_mkConn (swrr_sc c) (swrr_efficientWeight c) (u32 (swrr_currentWeight c - total)) (swrr_locked c).
(** The connection's position stands for the pointer kept for [Done]. *)
Definition swrr_Pick (b : swrr_Balancer) : option (swrr_Balancer * (pick_err + nat)) :=
  '(cs, total, res) ← swrr_Pick_loop b 0 0 None;
  Some (match res with
        | None => (cs, inl ErrNoSubConnAvailable)
        | Some (i, _) => (alter (swrr_sub_current total) i cs, inr i)
        end).
Definition swrr_done_conn (failed : bool) (c : swrr_weightConn) : swrr_weightConn :=
  if failed && (swrr_efficientWeight c =? 0) then swrr_mkConn (swrr_sc c) (swrr_efficientWeight c) (swrr_currentWeight c) true
  else if negb failed && (swrr_efficientWeight c =? maxUint32) then swrr_mkConn (swrr_sc c) (swrr_efficientWeight c) (swrr_currentWeight c) true
  else swrr_mkConn (swrr_sc c) (if failed then u32 (swrr_efficientWeight c - 1) else u32 (swrr_efficientWeight c + 1)) (swrr_currentWeight c) false.
(** [Done] takes the lock first. *)
Definition swrr_Done (b : swrr_Balancer) (i : nat) (failed : bool) : option swrr_Balancer :=
  match b !! i with
  | Some c => if swrr_locked c then None else Some (alter (swrr_done_conn failed) i b)
  | None => Some b
  end.

(** ** least_active *)
Record la_activeConn := la_mkConn { la_conn : nat; la_cnt : Z }.
Abbreviation la_Balancer := (list la_activeConn).
(** The error picker for no connections is built and dropped. *)
Definition la_Build (scs : ready) : la_Balancer := map (λ p, la_mkConn p.1 0) scs.
Definition la_add_cnt (d : Z) (c : la_activeConn) : la_activeConn := la_mkConn (la_conn c) (u32 (la_cnt c + d)).
(** [Pick] loads counters one by one and adds to one at the end, without a lock.  Where
    a call is: before the [k]-th connection with the choice so far ([None] is the
    placeholder without a connection); with the choice's counter loaded; at its end. *)
Inductive la_pick := LScan (k : nat) (res : option nat) | LLoaded (k : nat) (res : option nat) (x : Z) | LPicked (res : option nat).
(** [atomic.LoadUint32(&res.cnt)] *)
Definition la_load (b : la_Balancer) (res : option nat) : Z :=
  match res with None => maxUint32 | Some i => match b !! i with Some c => la_cnt c | None => maxUint32 end end.
(** The comparison with [sc.cnt]. *)
Definition la_compare (c : la_activeConn) (k : nat) (res : option nat) (x : Z) : la_pick :=
  LScan (S k) (if la_cnt c <? x then Some k else res).
(** [atomic.AddUint32(&res.cnt, 1)] *)
Definition la_count (b : la_Balancer) (res : option nat) : la_Balancer :=
  match res with None => b | Some i => alter (la_add_cnt 1) i b end.
(** [Done] of a call's result. *)
Definition la_Done (b : la_Balancer) (i : nat) : la_Balancer := alter (la_add_cnt maxUint32) i b.
(** A picker, the calls of [Pick] on it, and the positions of the connections that
    were given out and whose [Done] has not been called. *)
Record la_sys := mkLa { la_b : la_Balancer; la_picks : list la_pick; la_out : list nat }.
Definition la_set (t : nat) (p : la_pick) (y : la_sys) : la_sys := mkLa (la_b y) (<[t := p]> (la_picks y)) (la_out y).
Inductive la_Pick (t : nat) : la_sys → la_sys → Prop :=
| la_p_load y k res : la_picks y !! t = Some (LScan k res) → (k < length (la_b y))%nat →
    la_Pick t y (la_set t (LLoaded k res (la_load (la_b y) res)) y)
| la_p_compare y k res x c : la_picks y !! t = Some (LLoaded k res x) → la_b y !! k = Some c →
    la_Pick t y (la_set t (la_compare c k res x) y)
| la_p_add y k res : la_picks y !! t = Some (LScan k res) → k = length (la_b y) →
    la_Pick t y (mkLa (la_count (la_b y) res) (<[t := LPicked res]> (la_picks y)) (match res with Some i => i :: la_out y | None => la_out y end)).
Inductive la_step : la_sys → la_sys → Prop :=
| la_call y : la_step y (mkLa (la_b y) (la_picks y ++ [LScan 0 None]) (la_out y))
| la_run t y y' : la_Pick t y y' → la_step y y'
| la_end b ps i out1 out2 : la_step (mkLa b ps (out1 ++ i :: out2)) (mkLa (la_Done b i) ps (out1 ++ out2)).

(** ** route *)
(** The call's context carries a group; a missing one panics. *)
Abbreviation Filter := (option string → address → res pick_err bool).
Definition GroupFilter : Filter := λ clientTag a,
  match clientTag, attr_group a with
  | Some c, Some s => Ok (bool_decide (s = c))
  | _, _ => Panic
  end.
Record route_Balancer := route_mkBal { route_connections : ready; route_next : Z; route_filter : option Filter }.
Definition route_Build (f : option Filter) (scs : ready) (r : Z) : option route_Balancer :=
  match scs with [] => None | _ => Some (route_mkBal scs (r mod Z.of_nat (length scs)) f) end.
(** Connections for which the filter says yes are skipped. *)
Fixpoint route_candidates (f : option Filter) (tag : option string) (cs : ready) : res pick_err ready :=
  match cs with
  | [] => Ok []
  | (c, a) :: cs' =>
      res_bind (match f with Some f => f tag a | None => Ok false end) (λ skip,
      res_bind (route_candidates f tag cs') (λ l, Ok (if skip then l else (c, a) :: l)))
  end.
Definition route_Pick (b : route_Balancer) (tag : option string) : route_Balancer * res pick_err nat :=
  match route_candidates (route_filter b) tag (route_connections b) with
  | Panic => (b, Panic)
  | Err e => (b, Err e)
  | Ok [] => (b, Panic)
  | Ok l => (route_mkBal (route_connections b) (u64 (route_next b + 1)) (route_filter b),
             res_map fst (index_or_panic l (Z.to_nat (route_next b mod Z.of_nat (length l)))))
  end.
