(* ===== verification/GrpcPickersFacts.v ===== *)
(** * What the gRPC pickers do *)

From S2P Require Import Prelude GoStrings GrpcPickers.
Local Open Scope Z_scope.

(** ** Least active *)
Definition occ (i : nat) (out : list nat) : Z := Z.of_nat (count_occ Nat.eq_dec out i).
Lemma occ_cons i j out : occ i (j :: out) = occ i out + (if decide (i = j) then 1 else 0).
Proof. unfold occ. cbn. destruct (Nat.eq_dec j i), (decide (i = j)); subst; try done; lia. Qed.
Lemma occ_app i l1 l2 : occ i (l1 ++ l2) = occ i l1 + occ i l2.
Proof. unfold occ. rewrite count_occ_app. lia. Qed.
Lemma occ_bound i out : 0 <= occ i out <= Z.of_nat (length out).
Proof. unfold occ. pose proof (count_occ_bound Nat.eq_dec i out). lia. Qed.

(** Counters are the calls under way. *)
Definition la_counts (y : la_sys) : Prop := ∀ i c, la_b y !! i = Some c → la_cnt c = u32 (occ i (la_out y)).
Lemma u32_step x d : u32 (u32 x + d) = u32 (x + d).
Proof. unfold u32, wrapu. by rewrite Zplus_mod_idemp_l. Qed.
Lemma la_step_counts y y' : la_counts y → la_step y y' → la_counts y'.
Proof.
  intros Hc Hs. destruct Hs as [y|t y y' Hp|b ps i out1 out2]; [done| |].
  - destruct Hp as [y k res|y k res x c|y k res Hk Hl]; [done|done|]. intros i c. cbn [la_b la_out]. destruct res as [j|]; [|apply Hc].
    cbn [la_count]. rewrite occ_cons. destruct (decide (i = j)) as [->|Hne].
    + rewrite list_lookup_alter_eq. intros (c0 & H0 & ->)%fmap_Some. cbn [la_add_cnt la_cnt]. by rewrite (Hc j c0 H0), u32_step.
    + rewrite list_lookup_alter_ne by done. intros Hi. by rewrite (Hc i c Hi), Z.add_0_r.
  - intros j c. cbn [la_b la_out] in *. unfold la_Done. destruct (decide (j = i)) as [->|Hne].
    + rewrite list_lookup_alter_eq. intros (c0 & H0 & ->)%fmap_Some. cbn [la_add_cnt la_cnt]. rewrite (Hc i c0 H0), u32_step. cbn [la_out].
      rewrite !occ_app, occ_cons, decide_True by done. unfold u32, wrapu, maxUint32.
      replace (occ i out1 + (occ i out2 + 1) + (2 ^ 32 - 1)) with (occ i out1 + occ i out2 + 1 * 2 ^ 32) by lia. by rewrite Z.mod_add.
    + rewrite list_lookup_alter_ne by done. intros Hj. rewrite (Hc j c Hj). cbn [la_out]. rewrite !occ_app, occ_cons, decide_False by done. f_equal. lia.
Qed.
Lemma la_Build_counts scs : la_counts (mkLa (la_Build scs) [] []).
Proof.
  intros i c Hc. cbn [la_b la_out] in *. unfold la_Build in Hc. revert i Hc.
  induction scs as [|p scs IH]; intros [|i] Hc; cbn in Hc; [done|done|by injection Hc as <-|by apply (IH i)].
Qed.

(** A scan that nobody disturbs. *)
Definition least_from (b : la_Balancer) (k : nat) (res o : option nat) : Prop :=
  (∀ i, o = Some i → (i < length b)%nat ∨ res = Some i) ∧ la_load b o <= la_load b res ∧
  ∀ j c, (k <= j)%nat → b !! j = Some c → la_load b o <= la_cnt c.
Lemma scan_alone t b out : ∀ n k res ps, (n = length b - k)%nat → (k <= length b)%nat → ps !! t = Some (LScan k res) →
  ∃ o, least_from b k res o ∧ rtc (la_Pick t) (mkLa b ps out) (mkLa b (<[t := LScan (length b) o]> ps) out).
Proof.
  induction n as [|n IH]; intros k res ps Hn Hk Ht.
  - assert (k = length b) as -> by lia. exists res. split; [|by rewrite list_insert_id].
    split_and!; [by right|done|]. intros j c Hj Hc. apply lookup_lt_Some in Hc. lia.
  - destruct (lookup_lt_is_Some_2 b k) as [c Hc]; [lia|]. pose proof (lookup_lt_Some _ _ _ Ht) as Hlt.
    set (res' := if la_cnt c <? la_load b res then Some k else res).
    destruct (IH (S k) res' (<[t := LScan (S k) res']> (<[t := LLoaded k res (la_load b res)]> ps))) as (o & (H1 & H2 & H3) & Hr); [lia|lia| |].
    { rewrite list_insert_insert_eq. by apply list_lookup_insert_eq. }
    assert (la_load b res' <= la_load b res ∧ la_load b res' <= la_cnt c) as [Hle Hlc].
    { unfold res'. destruct (Z.ltb_spec (la_cnt c) (la_load b res)); cbn [la_load]; rewrite ?Hc; lia. }
    exists o. split.
    + split_and!; [|lia|].
      * intros i Hi. destruct (H1 i Hi) as [?|Hr']; [by left|]. unfold res' in Hr'. destruct (_ <? _); [|by right]. injection Hr' as <-. left. lia.
      * intros j c' Hj Hc'. destruct (decide (j = k)) as [->|Hne]; [|apply (H3 j); [lia|done]]. rewrite Hc in Hc'. injection Hc' as <-. lia.
    + eapply rtc_l; [apply (la_p_load t (mkLa b ps out) k res); [done|cbn; lia]|].
      eapply rtc_l; [eapply (la_p_compare t _ k res (la_load b res) c); [by apply list_lookup_insert_eq|done]|].
      rewrite !list_insert_insert_eq in Hr. unfold la_set, la_compare. cbn [la_b la_picks la_out]. fold res'. rewrite list_insert_insert_eq. exact Hr.
Qed.

(** A pick alone has one way to go, and a finished one none. *)
Lemma la_Pick_det t y y1 y2 : la_Pick t y y1 → la_Pick t y y2 → y1 = y2.
Proof.
  intros H1 H2. destruct H1 as [y k res Hk Hl|y k res x c Hk Hc|y k res Hk Hl]; inversion H2; simplify_eq; try done; lia.
Qed.
Lemma la_Pick_ends t y o : la_picks y !! t = Some (LPicked o) → ¬ ∃ y', la_Pick t y y'.
Proof. intros Ho [y' H]. destruct H; simplify_eq. Qed.
Lemma det_run {A} (R : A → A → Prop) x y z : (∀ a b c, R a b → R a c → b = c) → ¬ (∃ w, R y w) → rtc R x y → rtc R x z → rtc R z y.
Proof.
  intros Hd Hn Hy. revert z. induction Hy as [x|x w y Hw Hy IH]; intros z Hz.
  - destruct Hz as [|x w z Hw _]; [done|]. destruct Hn. by exists w.
  - destruct Hz as [x|x w' z Hw' Hz]; [by eapply rtc_l|]. rewrite (Hd x w w' Hw Hw') in *. by apply IH.
Qed.

(** C37: The least-active picker, whose calls load the counters one by one and add to one
    at the end, all without a lock.  However picks and ends of calls interleave, each
    counter is the number of the connection's calls under way, modulo 2^32.  While
    these are fewer than 2^32-1, a pick during which no other one adds or ends picks a
    connection with the least calls under way, if there is any connection, and counts
    it: it ends there, however far it got.  Picks that overlap may take the same one. *)
Theorem least_active_exact scs y : rtc la_step (mkLa (la_Build scs) [] []) y →
  (∀ i c, la_b y !! i = Some c → la_cnt c = u32 (occ i (la_out y))) ∧
  (Z.of_nat (length (la_out y)) < maxUint32 → ∀ t, la_picks y !! t = Some (LScan 0 None) → ∃ y' o, (∀ y1, rtc (la_Pick t) y y1 → rtc (la_Pick t) y1 y') ∧
     la_picks y' !! t = Some (LPicked o) ∧
     match o with
     | Some i => (i < length (la_b y))%nat ∧ la_out y' = i :: la_out y ∧ ∀ j, (j < length (la_b y))%nat → occ i (la_out y) <= occ j (la_out y)
     | None => la_b y = [] ∧ la_out y' = la_out y
     end).
Proof.
  intros H. pose proof (rtc_invariant la_step la_counts la_step_counts _ _ H (la_Build_counts scs)) as Hc. split; [done|].
  intros Hlen t Ht. destruct y as [b ps out]. cbn [la_b la_picks la_out] in *.
  assert (∀ i c, b !! i = Some c → la_cnt c = occ i out ∧ la_cnt c < maxUint32) as Hex.
  { intros i c Hi. pose proof (occ_bound i out). rewrite (Hc i c Hi). cbn [la_out]. unfold u32. unfold maxUint32 in *. rewrite wrapu_small by lia. lia. }
  destruct (scan_alone t b out (length b - 0) 0 None ps) as (o & (H1 & H2 & H3) & Hr); [done|lia|done|].
  assert (Hadd : ∃ y', rtc (la_Pick t) (mkLa b ps out) y' ∧ la_picks y' !! t = Some (LPicked o) ∧ la_out y' = match o with Some i => i :: out | None => out end).
  { eexists. split_and!; [eapply rtc_r; [exact Hr|]; eapply la_p_add; [by eapply list_lookup_insert_eq, lookup_lt_Some|done]| |done].
    cbn [la_picks]. apply list_lookup_insert_eq. rewrite length_insert. by eapply lookup_lt_Some. }
  destruct Hadd as (y' & Hy1 & Hy2 & Hy3). exists y', o. split_and!; [|done|].
  { intros y1. apply det_run; [intros; by eapply la_Pick_det|by eapply la_Pick_ends|done]. }
  destruct o as [i|].
  - destruct (H1 i eq_refl) as [Hi|]; [|done]. split_and!; [done|done|]. intros j Hj. destruct (lookup_lt_is_Some_2 b i Hi) as [ci Hci].
    destruct (lookup_lt_is_Some_2 b j Hj) as [cj Hcj]. specialize (H3 j cj ltac:(lia) Hcj). cbn [la_load] in H3. rewrite Hci in H3.
    destruct (Hex i ci Hci) as [<- _]. destruct (Hex j cj Hcj) as [<- _]. done.
  - split; [|done]. destruct b as [|c b]; [done|]. specialize (H3 0%nat c ltac:(lia) eq_refl). cbn [la_load] in H3. destruct (Hex 0%nat c eq_refl). lia.
Qed.
Definition wReady : ready := [(7%nat, mkAddr (Some 5) (Some "a")); (8%nat, mkAddr (Some 1) (Some "b")); (9%nat, mkAddr (Some 1) (Some "a"))].
Definition la_called (n : nat) : la_sys := mkLa (la_Build wReady) (replicate n (LScan 0 None)) [].
Lemma la_called_reached : rtc la_step (mkLa (la_Build wReady) [] []) (la_called 2).
Proof. eapply rtc_l; [apply la_call|]. eapply rtc_l; [apply la_call|]. apply rtc_refl. Qed.
Lemma least_active_exact_witness : ∃ y' i, rtc (la_Pick 0) (la_called 2) y' ∧ la_out y' = [i].
Proof.
  destruct (least_active_exact wReady (la_called 2) la_called_reached) as [_ H].
  destruct (H eq_refl 0%nat eq_refl) as (y' & [i|] & Hr & _ & Ho); [|by destruct Ho]. destruct Ho as (_ & Ho & _). exists y', i. split; [apply Hr, rtc_refl|exact Ho].
Defined.
Ltac la_by t rule := eapply rtc_l; [eapply (la_run t), rule; [reflexivity|first [reflexivity|cbn; lia]]|]; vm_compute.
(** Two picks that overlap take the same connection although others have no call. *)
Example overlapping_picks : ∃ y, rtc la_step (la_called 2) y ∧ la_picks y = [LPicked (Some 0%nat); LPicked (Some 0%nat)] ∧ la_out y = [0; 0]%nat.
Proof.
  eexists. split; [|split].
  { do 3 (la_by 0%nat la_p_load; la_by 0%nat la_p_compare).
    do 3 (la_by 1%nat la_p_load; la_by 1%nat la_p_compare).
    la_by 0%nat la_p_add. la_by 1%nat la_p_add. apply rtc_refl. }
  all: reflexivity.
Qed.

(** ** Round robin *)
Lemma rr_Pick_spec b n : rr_connections b ≠ [] → n = Z.of_nat (length (rr_connections b)) → 0 <= rr_next b →
  ∃ c, rr_connections b !! Z.to_nat (rr_next b mod n) = Some c ∧ (rr_Pick b).2 = Ok c ∧
    rr_connections (rr_Pick b).1 = rr_connections b ∧ rr_next (rr_Pick b).1 = u64 (rr_next b + 1).
Proof.
  intros Hne -> Hn. unfold rr_Pick. destruct (rr_connections b) as [|x l] eqn:E; [done|]. rewrite <- E in *. cbn [fst snd].
  assert (0 < Z.of_nat (length (rr_connections b))) as Hpos by (rewrite E; cbn; lia).
  pose proof (Z.mod_pos_bound (rr_next b) _ Hpos). destruct (index_or_panic_ok (E := pick_err) (rr_connections b) (Z.to_nat (rr_next b mod Z.of_nat (length (rr_connections b)))))
    as (c & Hc & Hi); [lia|]. by exists c.
Qed.

(** ** Where the pickers fail *)

(** The total weight is never stored, and drawing below zero panics. *)
Lemma wr_Pick_panics scs b r : wr_Build scs = Ok (Some b) → wr_Pick b r = Panic.
Proof. unfold wr_Build. destruct scs; [done|]. destruct (wr_collect _ _) as [[cs t]|]; [|done]. by intros [= <-]. Qed.
(** And an unsigned remainder is never below zero. *)
Lemma wr_search_fails cs r : wr_search cs r = Err ErrNoSubConnAvailable.
Proof.
  revert r. induction cs as [|c cs IH]; intros r; [done|]. cbn [wr_search].
  destruct (Z.ltb_spec (u32 (r - wr_weight c)) 0) as [Hlt|]; [|apply IH].
  pose proof (wrapu_range 32 (r - wr_weight c) ltac:(lia)). unfold u32 in Hlt. lia.
Qed.

(** A failed call on a connection of weight zero leaves its mutex locked; from then on
    every pick blocks. *)
Lemma swrr_blocked b : (∃ i c, b !! i = Some c ∧ swrr_locked c = true) → swrr_Pick b = None.
Proof.
  intros (i & c & Hi & Hl). unfold swrr_Pick.
  assert (∀ cs k t r i, cs !! i = Some c → swrr_Pick_loop cs k t r = None) as Hb; [|by rewrite (Hb b 0%nat 0 None i Hi)].
  clear -Hl. induction cs as [|x cs IH]; intros k t r i Hi; [done|]. cbn [swrr_Pick_loop].
  destruct i as [|i]; [injection Hi as ->; by rewrite Hl|]. destruct (swrr_locked x); [done|]. by rewrite (IH _ _ _ i Hi).
Qed.
Lemma swrr_Done_deadlocks b i c : b !! i = Some c → swrr_locked c = false → swrr_efficientWeight c = 0 →
  ∃ b', swrr_Done b i true = Some b' ∧ swrr_Pick b' = None.
Proof.
  intros Hi Hl Hw. unfold swrr_Done. rewrite Hi, Hl. eexists. split; [done|]. apply swrr_blocked. exists i, (swrr_done_conn true c).
  rewrite list_lookup_alter_eq, Hi. split; [done|]. unfold swrr_done_conn. by rewrite Hw.
Qed.
(** Current weights fall below zero and wrap around: the lighter connections are
    chosen over the one with five times their weight. *)
Fixpoint swrr_picks (n : nat) (b : swrr_Balancer) : list nat :=
  match n with
  | O => []
  | S n' => match swrr_Pick b with Some (b', inr i) => i :: swrr_picks n' b' | _ => [] end
  end.
Example swrr_unfair : swrr_picks 7 (default [] (swrr_collect wReady)) = [0; 0; 0; 1; 1; 1; 1]%nat.
Proof. by vm_compute. Qed.

(** With no connection the least-active picker hands out none, without an error. *)
Example la_empty : ∃ y', rtc (la_Pick 0) (mkLa (la_Build []) [LScan 0 None] []) y' ∧ la_picks y' = [LPicked None] ∧ la_out y' = [].
Proof. eexists. split; [by eapply rtc_once, la_p_add|done]. Qed.

(** The group filter is applied the wrong way round: a connection of the caller's own
    group is never chosen, and when all are of that group the pick panics. *)
Lemma route_avoids_group cs tag l : route_candidates (Some GroupFilter) (Some tag) cs = Ok l → Forall (λ p, attr_group p.2 ≠ Some tag) l.
Proof.
  revert l. induction cs as [|[c a] cs IH]; intros l; cbn [route_candidates GroupFilter]; [intros [= <-]; constructor|].
  destruct (attr_group a) as [g|] eqn:Eg; cbn [res_bind]; [|done]. destruct (route_candidates _ _ cs) as [l'| |]; cbn [res_bind]; [|done|done].
  intros [= <-]. case_bool_decide as Hg; [by apply IH|]. constructor; [cbn; rewrite Eg; congruence|by apply IH].
Qed.
Example route_all_own_group : (route_Pick (route_mkBal [(7%nat, mkAddr None (Some "a"))] 0 (Some GroupFilter)) (Some "a")).2 = Panic.
Proof. reflexivity. Qed.
