(* ===== verification/CachePatterns.v ===== *)
(** * Cache patterns and the Redis adapter

    Models [src/cache/read_through.go], [src/cache/write_through.go],
    [src/cache/redis.go] and the interface of [src/cache/type.go] they wrap.  The
    wrapped cache, the database functions and the Redis client are parameters over an
    arbitrary state.  A goroutine is a task that is handed over with the result; a
    task may end the process ([log.Fatalln]). *)

From S2P Require Import Prelude.
Local Open Scope Z_scope.

(** ** Errors

    Errors are compared by identity; every call of a constructor makes a new one. *)
Record cerr := mkErr { ce_id : nat; ce_msg : string; ce_cause : option nat }.
Definition errors_Is (e : option cerr) (target : cerr) : bool :=
  match e with
  | None => false
  | Some e => bool_decide (ce_id e = ce_id target) || bool_decide (ce_cause e = Some (ce_id target))
  end.
(** [n]: the identities used so far. *)
Definition NewErrKeyNotFound (n : nat) (key : string) : nat * cerr := (S n, mkErr n ("key not found: " +:+ key) None).
Definition NewErrRedisSetFailed (n : nat) (msg : string) : nat * cerr := (S n, mkErr n ("redis set failed: " +:+ msg) None).
(** [fmt.Errorf("%w, ...", errs.ErrFailedToRefreshCache, _)] *)
Definition ErrFailedToRefreshCache : nat := 0.
Definition wrap_refresh (n : nat) (e : cerr) : nat * cerr := (S n, mkErr n (ce_msg e) (Some ErrFailedToRefreshCache)).

Section patterns.
Context {S_ V : Type}.
Record world := mkW { w_state : S_; w_errs : nat }.

(** [Cache] *)
Context (Cache_Set : string → V → Z → world → world * option cerr).
Context (Cache_Get : string → world → world * (V * option cerr)).

(** What a goroutine does, and whether it ends the process. *)
Definition task := world → world * bool.

(** ** ReadThroughCache

    [r.Get] inside [Get] is the method itself, not that of the wrapped cache; calls
    are bounded by fuel. *)
Context (LoadFunc : string → world → world * (V * option cerr)) (expiration : Z).

Definition after_load (key : string) (w : world) (value : V) : world * (V * option cerr) :=
  match Cache_Set key value expiration w with
  | (w, None) => (w, (value, None))
  | (w, Some e) => let '(n, e) := wrap_refresh (w_errs w) e in (mkW (w_state w) n, (value, Some e))
  end.
(** The test for a missing key. *)
Definition missing (key : string) (err : option cerr) (w : world) : world * bool :=
  let '(n, target) := NewErrKeyNotFound (w_errs w) key in (mkW (w_state w) n, errors_Is err target).

Fixpoint ReadThrough_Get (fuel : nat) (key : string) (w : world) : option (world * (V * option cerr)) :=
  match fuel with
  | O => None
  | S fuel' =>
      '(w, (value, err)) ← ReadThrough_Get fuel' key w;
      let '(w, m) := missing key err w in
      if m then
        match LoadFunc key w with
        | (w, (value, None)) => Some (after_load key w value)
        | (w, (value, Some e)) => Some (w, (value, Some e))
        end
      else Some (w, (value, err))
  end.
Definition fatal_set (key : string) (v : V) : task := λ w,
  let '(w, o) := Cache_Set key v expiration w in (w, bool_decide (is_Some o)).
Definition AsyncGet (fuel : nat) (key : string) (w : world) : option (world * (V * option cerr) * list task) :=
  '(w, (value, err)) ← ReadThrough_Get fuel key w;
  let '(w, m) := missing key err w in
  Some (w, (value, err),
        if m then [λ w, match LoadFunc key w with
                        | (w, (v, None)) => fatal_set key v w
                        | (w, (_, Some _)) => (w, false)
                        end]
        else []).
Definition SemiAsyncGet (fuel : nat) (key : string) (w : world) : option (world * (V * option cerr) * list task) :=
  '(w, (value, err)) ← ReadThrough_Get fuel key w;
  let '(w, m) := missing key err w in
  Some (if m then
          match LoadFunc key w with
          | (w, (v, None)) => (w, (v, None), [fatal_set key v])
          | (w, (v, Some e)) => (w, (v, Some e), [])
          end
        else (w, (value, err), [])).

(** ** WriteThroughCache *)
Context (storeFunc : string → V → Z → world → world * option cerr).

Definition WriteThrough_Set (key : string) (v : V) (exp : Z) (w : world) : world * option cerr :=
  match storeFunc key v exp w with
  | (w, Some e) => (w, Some e)
  | (w, None) => Cache_Set key v exp w
  end.
Definition SemiAsyncSet (key : string) (v : V) (exp : Z) (w : world) : world * option cerr * list task :=
  let '(w, o) := storeFunc key v exp w in
  (w, o, [λ w, let '(w, o) := Cache_Set key v exp w in (w, bool_decide (is_Some o))]).
Definition AsyncSet (key : string) (v : V) (exp : Z) (w : world) : world * option cerr * list task :=
  (w, None, [λ w, match storeFunc key v exp w with
                  | (w, Some _) => (w, true)
                  | (w, None) => let '(w, o) := Cache_Set key v exp w in (w, bool_decide (is_Some o))
                  end]).

(** ** RedisCache *)
Context (client_Set : string → V → Z → world → world * (string * option cerr)).
Context (client_Get : string → world → world * (V * option cerr)).
Context (client_Del : string → world → world * (Z * option cerr)).

Definition RedisCache_Set (key : string) (v : V) (exp : Z) (w : world) : world * option cerr :=
  let '(w, (res, err)) := client_Set key v exp w in
  match err with
  | Some e => (w, Some e)
  | None =>
      if bool_decide (res = "OK") then (w, None)
      else let '(n, e) := NewErrRedisSetFailed (w_errs w) res in (mkW (w_state w) n, Some e)
  end.
Definition RedisCache_Get (key : string) (w : world) : world * (V * option cerr) := client_Get key w.
Definition RedisCache_Delete (key : string) (w : world) : world * option cerr :=
  let '(w, (_, err)) := client_Del key w in (w, err).

(** ** What the patterns do *)

(** [Get] calls itself before anything else, so it never returns, and neither do the
    two that start with it. *)
Lemma ReadThrough_diverges key w : ∀ fuel,
  ReadThrough_Get fuel key w = None ∧ AsyncGet fuel key w = None ∧ SemiAsyncGet fuel key w = None.
Proof.
  intros fuel. assert (ReadThrough_Get fuel key w = None) as E by (induction fuel as [|f IH]; [done|]; cbn; by rewrite IH).
  unfold AsyncGet, SemiAsyncGet. by rewrite E.
Qed.
(** And a missing key would not be recognised: the error compared with is new. *)
Lemma missing_never key e w : (ce_id e < w_errs w)%nat → (∀ c, ce_cause e = Some c → (c < w_errs w)%nat) → (missing key (Some e) w).2 = false.
Proof.
  intros H1 H2. unfold missing, NewErrKeyNotFound, errors_Is. cbn. rewrite (bool_decide_false (ce_id e = w_errs w)) by lia. cbn.
  apply bool_decide_false. intros E. specialize (H2 _ E). lia.
Qed.

(** Write-through keeps cache and database in step: the cache is written only after
    the database took the value. *)
Lemma WriteThrough_Set_spec key v exp w : ∀ w1 o1, storeFunc key v exp w = (w1, o1) →
  match o1 with
  | Some e => WriteThrough_Set key v exp w = (w1, Some e)
  | None => WriteThrough_Set key v exp w = Cache_Set key v exp w1
  end.
Proof. intros w1 o1 E. unfold WriteThrough_Set. rewrite E. by destruct o1. Qed.
(** The half-asynchronous one writes the cache also when storing failed. *)
Lemma SemiAsyncSet_dirty key v exp w e w1 w2 : storeFunc key v exp w = (w1, Some e) → Cache_Set key v exp w1 = (w2, None) →
  ∃ t, SemiAsyncSet key v exp w = (w1, Some e, [t]) ∧ t w1 = (w2, false).
Proof. intros E1 E2. unfold SemiAsyncSet. rewrite E1. eexists. split; [reflexivity|]. cbn. by rewrite E2. Qed.
End patterns.
