(* ===== verification/Float64Facts.v ===== *)
(** * Rounding of [float64]

    How far the operations of binary64 are from those on rationals: on non-negative
    finite numbers each result is within one unit in the last place, twice that from
    below.  Nothing is assumed about which way a result is rounded. *)

From Stdlib Require Import QArith Qpower Lqa SpecFloat.
From S2P Require Import Prelude.
Local Open Scope Z_scope.

(** ** Powers of two *)
Definition p2 (e : Z) : Q := Qpower 2 e.
Lemma p2_pos e : (0 < p2 e)%Q.
Proof. by apply Qpower_0_lt. Qed.
Lemma p2_add a b : (p2 (a + b) == p2 a * p2 b)%Q.
Proof. apply Qpower_plus. intros H. discriminate. Qed.
Lemma p2_int n : 0 <= n → (p2 n == inject_Z (2 ^ n))%Q.
Proof.
  revert n. apply (natlike_ind (λ n, (p2 n == inject_Z (2 ^ n))%Q)); [reflexivity|].
  intros k Hk IH. rewrite <- Z.add_1_r, p2_add, IH, Z.pow_add_r, inject_Z_mult by lia. reflexivity.
Qed.
Lemma p2_le a b : a <= b → (p2 a <= p2 b)%Q.
Proof.
  intros H. replace b with (a + (b - a)) by lia. rewrite p2_add, (p2_int (b - a)) by lia.
  assert (1 <= inject_Z (2 ^ (b - a)))%Q. { change 1%Q with (inject_Z 1). rewrite <- Zle_Qle. pose proof (Z.pow_pos_nonneg 2 (b - a)). lia. }
  pose proof (p2_pos a). nra.
Qed.

(** ** Digits and shifts *)
Lemma digits_log2 p : Z.pos (digits2_pos p) = Z.log2 (Z.pos p) + 1.
Proof.
  induction p as [p IH|p IH|]; cbn [digits2_pos]; [| |done].
  - rewrite Pos2Z.inj_succ, IH. change (Z.pos p~1) with (2 * Z.pos p + 1). by rewrite Z.log2_succ_double.
  - rewrite Pos2Z.inj_succ, IH. change (Z.pos p~0) with (2 * Z.pos p). by rewrite Z.log2_double.
Qed.
Lemma shr_1_half r : 0 <= shr_m r → shr_m (shr_1 r) = shr_m r / 2.
Proof.
  destruct r as [[|p|p] r s]; cbn; [done| |lia]. intros _. destruct p as [p|p|]; cbn; [| |done].
  - change (Z.pos p~1) with (2 * Z.pos p + 1). rewrite Z.add_comm, Z.mul_comm, Z.div_add by done. done.
  - change (Z.pos p~0) with (2 * Z.pos p). by rewrite Z.mul_comm, Z.div_mul.
Qed.
Lemma shr_iter p : ∀ r, 0 <= shr_m r → shr_m (SpecFloat.iter_pos shr_1 p r) = shr_m r / 2 ^ Z.pos p.
Proof.
  assert (Hnn : ∀ z q, 0 <= z → 0 <= z / 2 ^ Z.pos q) by (intros; apply Z.div_pos; [done|by apply Z.pow_pos_nonneg]).
  induction p as [p IH|p IH|]; intros r Hr; cbn [SpecFloat.iter_pos]; [| |by apply shr_1_half].
  - pose proof (shr_1_half r Hr) as H1. assert (0 <= shr_m (shr_1 r)) as Hr1 by (rewrite H1; by apply Z.div_pos).
    assert (0 <= shr_m (SpecFloat.iter_pos shr_1 p (shr_1 r))) by (rewrite IH by done; by apply Hnn).
    rewrite !IH, H1 by done. pose proof (Z.pow_pos_nonneg 2 (Z.pos p) ltac:(lia) ltac:(lia)). rewrite !Z.div_div by lia. f_equal.
    rewrite <- Z.pow_add_r, <- Z.pow_succ_r by lia. f_equal. lia.
  - assert (0 <= shr_m (SpecFloat.iter_pos shr_1 p r)) by (rewrite IH by done; by apply Hnn).
    rewrite !IH by done. pose proof (Z.pow_pos_nonneg 2 (Z.pos p) ltac:(lia) ltac:(lia)). rewrite !Z.div_div by lia. f_equal.
    rewrite <- Z.pow_add_r by lia. f_equal. lia.
Qed.
Lemma shr_of_loc m l : shr_m (shr_record_of_loc m l) = m.
Proof. by destruct l as [|[]]. Qed.
Lemma shl_align_value mx ex ez : ez <= ex → Z.pos (fst (shl_align mx ex ez)) = Z.pos mx * 2 ^ (ex - ez).
Proof.
  intros H. unfold shl_align. destruct (ez - ex) as [|p|p] eqn:E; [|lia|]; cbn [fst].
  - replace (ex - ez) with 0 by lia. lia.
  - replace (ex - ez) with (Z.pos p) by lia. clear. revert mx. induction p as [|p IH] using Pos.peano_ind; intros mx; [cbn; lia|].
    rewrite Pos.iter_succ. change (Z.pos (Pos.iter xO mx p)~0) with (2 * Z.pos (Pos.iter xO mx p)). rewrite IH, Pos2Z.inj_succ, Z.pow_succ_r by done. ring.
Qed.

(** A mantissa with all its digits, or an exponent that leaves no room for more. *)
Definition full (m e : Z) : Prop := 2 ^ 52 <= m ∨ e <= -1074.
(** Mantissas of [float64]. *)
Definition fits (m e : Z) : Prop := 0 <= m < 2 ^ 53 ∧ -1074 <= e ∧ (2 ^ 52 <= m ∨ e = -1074).

Lemma shr_fexp_spec m e l : 0 <= m → full m e →
  let '(r, e') := shr_fexp 53 1024 m e l in
  ∃ n, 0 <= n ∧ e' = e + n ∧ shr_m r = m / 2 ^ n ∧ fits (shr_m r) e'.
Proof.
  intros Hm Hf. unfold shr_fexp, shr, fexp. change (emin 53 1024) with (-1074).
  assert (HD : m = 0 ∧ Zdigits2 m = 0 ∨ 0 < m ∧ Zdigits2 m = Z.log2 m + 1).
  { destruct m as [|p|p]; [by left|right; split; [done|apply digits_log2]|lia]. }
  set (D := Zdigits2 m) in *. clearbody D. unfold full in Hf. set (n := Z.max (D + e - 53) (-1074) - e).
  assert (Hcase : n <= 0 → m < 2 ^ 53 ∧ -1074 <= e ∧ (2 ^ 52 <= m ∨ e = -1074)).
  { intros Hn. unfold n in Hn. destruct HD as [[-> ->]|[Hpos ->]]; [lia|]. split; [|lia]. apply Z.log2_lt_pow2; lia. }
  destruct n as [|p|p] eqn:En.
  1,3: exists 0; rewrite Z.pow_0_r, Z.div_1_r, shr_of_loc, Z.add_0_r; unfold fits; destruct Hcase as (? & ? & ?); [lia|]; split_and!; try done; lia.
  exists (Z.pos p). rewrite shr_iter by (by rewrite shr_of_loc). rewrite shr_of_loc. split_and!; try done.
  assert (0 < 2 ^ Z.pos p) as Hp by (by apply Z.pow_pos_nonneg). unfold n in En. split; [|split; [lia|]].
  - split; [by apply Z.div_pos|]. destruct HD as [[-> ->]|[Hpos ->]]; [by rewrite Z.div_0_l by lia|].
    apply Z.div_lt_upper_bound; [done|]. rewrite <- Z.pow_add_r by lia. apply Z.log2_lt_pow2; lia.
  - destruct (Z.max_spec (D + e - 53) (-1074)) as [[Hlt Hmax]|[Hle Hmax]]; [right; lia|].
    destruct HD as [[-> ->]|[Hpos ->]]; [lia|]. left.
    apply Z.div_le_lower_bound; [done|]. rewrite <- Z.pow_add_r by lia.
    etransitivity; [|apply (Z.log2_spec m); lia]. apply Z.pow_le_mono_r; lia.
Qed.

(** ** Rounding *)
Definition eps : Q := p2 (-52).
Definition eta : Q := p2 (-1074).
(** Rounded up by at most one unit in the last place, down by at most two. *)
Definition near (a x : Q) : Prop := (x * (1 - 2 * eps) - 2 * eta <= a ∧ a <= x * (1 + eps) + eta)%Q.

(** The value of a number, and the non-negative finite ones. *)
Definition val (x : spec_float) : Q :=
  match x with S754_finite s m e => ((if s then -1 else 1) * inject_Z (Z.pos m) * p2 e)%Q | _ => 0%Q end.
Definition fin (x : spec_float) : Prop :=
  match x with S754_zero _ => True | S754_finite false m e => bounded 53 1024 m e = true | _ => False end.

Definition at_exp (m e : Z) : Q := (inject_Z m * p2 e)%Q.
Lemma at_exp_shift m e n : 0 <= n → (at_exp (m * 2 ^ n) e == at_exp m (e + n))%Q.
Proof. intros Hn. unfold at_exp. rewrite inject_Z_mult, p2_add, (p2_int n) by done. ring. Qed.
Lemma at_exp_le m m' e : m <= m' → (at_exp m e <= at_exp m' e)%Q.
Proof. intros H. unfold at_exp. apply Qmult_le_compat_r; [by rewrite <- Zle_Qle|apply Qlt_le_weak, p2_pos]. Qed.
Lemma at_exp_succ m e : (at_exp (m + 1) e == at_exp m e + p2 e)%Q.
Proof. unfold at_exp. rewrite inject_Z_plus. ring. Qed.
Lemma at_exp_nonneg m e : 0 <= m → (0 <= at_exp m e)%Q.
Proof. intros H. unfold at_exp. apply Qmult_le_0_compat; [by rewrite (Zle_Qle 0) in H|apply Qlt_le_weak, p2_pos]. Qed.
(** One unit in the last place. *)
Lemma ulp_small m e : fits m e → (p2 e <= eps * at_exp m e + eta)%Q.
Proof.
  intros ([Hm _] & _ & [H| ->]).
  - assert (p2 e == eps * at_exp (2 ^ 52) e)%Q as -> by (unfold at_exp, eps; rewrite <- (p2_int 52) by lia; rewrite <- !p2_add;
      replace (-52 + (52 + e)) with e by lia; reflexivity).
    pose proof (at_exp_le _ _ e H). pose proof (p2_pos (-52)). pose proof (p2_pos (-1074)). unfold eps, eta. nra.
  - pose proof (at_exp_nonneg m (-1074) Hm). pose proof (p2_pos (-52)). unfold eps, eta. nra.
Qed.
(** Truncation. *)
Lemma truncate m e n x : 0 <= n → (at_exp m e <= x → x <= at_exp (m + 1) e →
  at_exp (m / 2 ^ n) (e + n) <= x ∧ x <= at_exp (m / 2 ^ n + 1) (e + n))%Q.
Proof.
  intros Hn H1 H2. assert (0 < 2 ^ n) as Hp by (by apply Z.pow_pos_nonneg). rewrite <- !at_exp_shift by done.
  pose proof (Z.mul_div_le m _ Hp). pose proof (Z.mul_succ_div_gt m _ Hp). split.
  - eapply Qle_trans; [|exact H1]. apply at_exp_le. lia.
  - eapply Qle_trans; [exact H2|]. apply at_exp_le. lia.
Qed.
Lemma round_up m l : m <= round_nearest_even m l <= m + 1.
Proof. destruct l as [|[]]; cbn [round_nearest_even]; try lia. destruct (Z.even m); lia. Qed.

Lemma fits_bounded m e : fits (Z.pos m) e → e <= 971 → bounded 53 1024 m e = true.
Proof.
  intros ([_ H1] & H2 & H3) He. unfold bounded, canonical_mantissa, fexp. change (emin 53 1024) with (-1074).
  apply andb_true_iff. split; [|by apply Z.leb_le]. rewrite digits_log2. apply Z.eqb_eq.
  assert (Z.log2 (Z.pos m) < 53) by (by apply Z.log2_lt_pow2). destruct H3 as [H3| ->]; [|lia].
  assert (52 <= Z.log2 (Z.pos m)) by (by apply Z.log2_le_pow2). lia.
Qed.

(** Rounding a number between two neighbours at some exponent. *)
Lemma round_aux_near m e l x : 0 <= m → full m e → (at_exp m e <= x → x <= at_exp (m + 1) e → x <= p2 1000 →
  let r := binary_round_aux 53 1024 false m e l in fin r ∧ near (val r) x)%Q.
Proof.
  intros Hm Hf Hx1 Hx2 Hbig. cbn zeta. unfold binary_round_aux.
  pose proof (shr_fexp_spec m e l Hm Hf) as H. destruct (shr_fexp 53 1024 m e l) as [r1 e1]. destruct H as (n1 & Hn1 & He1 & Hr1 & Hfit1).
  destruct (truncate m e n1 x Hn1 Hx1 Hx2) as [Hlo1 Hup1]. rewrite <- Hr1, <- He1 in Hlo1, Hup1.
  set (mr := round_nearest_even _ _). pose proof (round_up (shr_m r1) (loc_of_shr_record r1)) as Hmr. fold mr in Hmr. clearbody mr.
  pose proof (ulp_small _ _ Hfit1) as Hu1. rewrite at_exp_succ in Hup1.
  set (y := at_exp mr e1). assert (at_exp (shr_m r1) e1 <= y)%Q as Hy1 by (apply at_exp_le; lia).
  assert (y <= at_exp (shr_m r1) e1 + p2 e1)%Q as Hy2 by (rewrite <- at_exp_succ; apply at_exp_le; lia).
  pose proof (shr_fexp_spec mr e1 loc_Exact) as H. destruct (shr_fexp 53 1024 mr e1 loc_Exact) as [r2 e2].
  destruct H as (n2 & Hn2 & He2 & Hr2 & Hfit2); [destruct Hfit1; lia|destruct Hfit1 as (_ & _ & [?|?]); [left|right]; lia|].
  destruct (truncate mr e1 n2 y Hn2) as [Hlo2 Hup2]; [apply Qle_refl|apply at_exp_le; lia|]. rewrite <- Hr2, <- He2 in Hlo2, Hup2.
  rewrite at_exp_succ in Hup2. pose proof (ulp_small _ _ Hfit2) as Hu2.
  assert (0 < eps < 1 # 1000)%Q as [Heps1 Heps2] by (split; reflexivity). assert (0 < eta < 1 # 1000)%Q as [Heta1 Heta2] by (split; reflexivity).
  pose proof (at_exp_nonneg m e Hm) as Hx0.
  assert (near (at_exp (shr_m r2) e2) x) as Hnear.
  { split; [|nra]. assert (x * (1 - eps) - eta <= y)%Q by nra. nra. }
  assert (e2 <= 971) as Hbnd.
  { destruct (Z.le_gt_cases e2 971) as [|Hgt]; [done|]. exfalso. destruct Hfit2 as (_ & _ & [H2|H2]); [|lia].
    pose proof (at_exp_le _ _ e2 H2) as Hl. assert (p2 1024 <= at_exp (2 ^ 52) e2)%Q.
    { unfold at_exp. rewrite <- (p2_int 52), <- p2_add by lia. apply p2_le. lia. }
    destruct Hnear as [_ Hn]. assert (p2 1000 * 2 <= p2 1024)%Q by (change 2%Q with (p2 1); rewrite <- p2_add; apply p2_le; lia).
    assert (1 <= p2 1000)%Q by (change 1%Q with (p2 0); apply p2_le; lia). nra. }
  destruct Hfit2 as [Hp Hfit2]. destruct (shr_m r2) as [|p|p] eqn:E; [|destruct (Z.leb_spec e2 (1024 - 53)); [|lia]|lia].
  - split; [done|]. unfold near in *. cbn [val]. unfold at_exp in Hnear. change (inject_Z 0) with 0%Q in Hnear. by rewrite Qmult_0_l in Hnear.
  - split; [by apply fits_bounded|]. unfold near in *. cbn [val]. unfold at_exp in Hnear. by rewrite Qmult_1_l.
Qed.

(** ** Operations *)
Lemma val_zero b : val (S754_zero b) = 0%Q.
Proof. done. Qed.
Lemma val_finite m e : (val (S754_finite false m e) == at_exp (Z.pos m) e)%Q.
Proof. unfold at_exp. cbn [val]. by rewrite Qmult_1_l. Qed.
Lemma fin_cases x : fin x → (∃ b, x = S754_zero b) ∨ ∃ m e, x = S754_finite false m e ∧ fits (Z.pos m) e.
Proof.
  destruct x as [b| | |[] m e]; cbn [fin]; try done; [by left; exists b|]. intros H. right. exists m, e. split; [done|].
  unfold bounded, canonical_mantissa, fexp in H. change (emin 53 1024) with (-1074) in H. apply andb_true_iff in H as [H _].
  apply Z.eqb_eq in H. rewrite digits_log2 in H. split; [|lia || (split; [lia|])].
  - split; [done|]. apply Z.log2_lt_pow2; lia.
  - destruct (Z.eq_dec e (-1074)) as [|He]; [by right|left]. apply Z.log2_le_pow2; lia.
Qed.
Lemma fin_nonneg x : fin x → (0 <= val x)%Q.
Proof. intros [[b ->]|(m & e & -> & _)]%fin_cases; [done|]. rewrite val_finite. by apply at_exp_nonneg. Qed.
Lemma near_same a x : (0 <= x → a == x → near a x)%Q.
Proof. intros H E. assert (0 < eps)%Q by reflexivity. assert (0 < eta)%Q by reflexivity. split; nra. Qed.
#[export] Instance near_proper : Proper (Qeq ==> Qeq ==> iff) near.
Proof. intros a b H x y H'. unfold near. by rewrite H, H'. Qed.

Lemma normalize_near z e b x : 0 <= z → (x == at_exp z e → x <= p2 1000 →
  fin (binary_normalize 53 1024 z e b) ∧ near (val (binary_normalize 53 1024 z e b)) x)%Q.
Proof.
  intros Hz Ex Hbig. destruct z as [|m|m]; [|cbn [binary_normalize]|lia].
  { split; [done|]. rewrite Ex. unfold at_exp. change (inject_Z 0) with 0%Q. rewrite Qmult_0_l. by apply near_same. }
  unfold binary_round. set (f := fexp 53 1024 (Z.pos (digits2_pos m) + e)).
  assert (f = Z.max (Z.log2 (Z.pos m) + 1 + e - 53) (-1074)) as Hf by (unfold f, fexp; by rewrite digits_log2).
  pose proof (Z.log2_spec (Z.pos m) eq_refl) as [Hl _]. pose proof (Z.log2_nonneg (Z.pos m)).
  destruct (Z.le_gt_cases e f) as [Hle|Hgt].
  - unfold shl_align. assert (match f - e with Z.neg d => (Pos.iter xO m d, f) | _ => (m, e) end = (m, e)) as -> by (destruct (f - e) eqn:E; [done|done|lia]).
    apply round_aux_near; [done| |by rewrite Ex; apply Qle_refl|rewrite Ex; apply at_exp_le; lia|done].
    destruct (Z.max_spec (Z.log2 (Z.pos m) + 1 + e - 53) (-1074)) as [[? ?]|[? ?]]; [right; lia|left].
    eapply Z.le_trans; [|exact Hl]. apply Z.pow_le_mono_r; lia.
  - pose proof (shl_align_value m e f ltac:(lia)) as Hv. assert (shl_align m e f = (fst (shl_align m e f), f)) as ->.
    { unfold shl_align. destruct (f - e) eqn:E; [lia|lia|done]. }
    assert (x == at_exp (Z.pos (fst (shl_align m e f))) f)%Q as Ex'.
    { rewrite Hv, at_exp_shift, Ex by lia. replace (f + (e - f)) with e by lia. reflexivity. }
    apply round_aux_near; [done| |by rewrite Ex'; apply Qle_refl|rewrite Ex'; apply at_exp_le; lia|done].
    rewrite Hv. destruct (Z.max_spec (Z.log2 (Z.pos m) + 1 + e - 53) (-1074)) as [[? ?]|[? ?]]; [right; lia|left].
    etransitivity; [|apply Z.mul_le_mono_nonneg_r; [by apply Z.pow_nonneg|exact Hl]]. rewrite <- Z.pow_add_r by lia. apply Z.pow_le_mono_r; lia.
Qed.

Lemma aligned m e ez : ez <= e → (at_exp (Z.pos (fst (shl_align m e ez))) ez == at_exp (Z.pos m) e)%Q.
Proof. intros H. rewrite shl_align_value, at_exp_shift by lia. replace (ez + (e - ez)) with e by lia. reflexivity. Qed.
Lemma at_exp_plus a b e : (at_exp (a + b) e == at_exp a e + at_exp b e)%Q.
Proof. unfold at_exp. rewrite inject_Z_plus. ring. Qed.
Lemma at_exp_minus a b e : (at_exp (a - b) e == at_exp a e - at_exp b e)%Q.
Proof. unfold at_exp. unfold Z.sub. rewrite inject_Z_plus, inject_Z_opp. ring. Qed.
Lemma at_exp_le_inv a b e : (at_exp a e <= at_exp b e)%Q → a <= b.
Proof. unfold at_exp. intros H. rewrite Zle_Qle. by apply Qmult_lt_0_le_reg_r in H; [|apply p2_pos]. Qed.

Lemma add_near x y : fin x → fin y → (val x + val y <= p2 1000 →
  fin (SFadd 53 1024 x y) ∧ near (val (SFadd 53 1024 x y)) (val x + val y))%Q.
Proof.
  intros Hx Hy Hb. pose proof (fin_nonneg x Hx) as Hx0. pose proof (fin_nonneg y Hy) as Hy0.
  pose proof Hx as Hx'. pose proof Hy as Hy'. apply fin_cases in Hx' as [[bx ->]|(mx & ex & -> & _)], Hy' as [[by_ ->]|(my & ey & -> & _)].
  - destruct bx, by_; (split; [done|by apply near_same]).
  - cbn [SFadd]. split; [exact Hy|]. apply near_same; rewrite val_zero; lra.
  - cbn [SFadd]. split; [exact Hx|]. apply near_same; rewrite val_zero; lra.
  - cbn [SFadd cond_Zopp]. apply normalize_near; [lia| |done]. rewrite at_exp_plus, !aligned, !val_finite by lia. reflexivity.
Qed.
Lemma sub_near x y : fin x → fin y → (val y <= val x → val x <= p2 1000 →
  fin (SFsub 53 1024 x y) ∧ near (val (SFsub 53 1024 x y)) (val x - val y))%Q.
Proof.
  intros Hx Hy Hxy Hb. pose proof (fin_nonneg x Hx) as Hx0. pose proof (fin_nonneg y Hy) as Hy0.
  pose proof Hx as Hx'. pose proof Hy as Hy'. apply fin_cases in Hx' as [[bx ->]|(mx & ex & -> & _)], Hy' as [[by_ ->]|(my & ey & -> & _)].
  - destruct bx, by_; (split; [done|by apply near_same]).
  - exfalso. rewrite val_finite in Hxy. rewrite val_zero in Hxy. unfold at_exp in Hxy. pose proof (p2_pos ey).
    assert (1 <= inject_Z (Z.pos my))%Q by (change 1%Q with (inject_Z 1); rewrite <- Zle_Qle; lia). nra.
  - cbn [SFsub]. split; [exact Hx|]. apply near_same; rewrite val_zero; lra.
  - cbn [SFsub cond_Zopp]. assert (val (S754_finite false mx ex) - val (S754_finite false my ey) == at_exp (Z.pos (fst (shl_align mx ex (Z.min ex ey))) -
      Z.pos (fst (shl_align my ey (Z.min ex ey)))) (Z.min ex ey))%Q as E by (rewrite at_exp_minus, !aligned, !val_finite by lia; reflexivity).
    apply normalize_near; [|done|lra]. rewrite !val_finite in Hxy.
    rewrite <- (aligned mx ex (Z.min ex ey)), <- (aligned my ey (Z.min ex ey)) in Hxy by lia. apply at_exp_le_inv in Hxy. lia.
Qed.
Lemma mul_near x y : fin x → fin y → (val x * val y <= p2 1000 →
  fin (SFmul 53 1024 x y) ∧ near (val (SFmul 53 1024 x y)) (val x * val y))%Q.
Proof.
  intros [[bx ->]|(mx & ex & -> & Hfx)]%fin_cases [[by_ ->]|(my & ey & -> & Hfy)]%fin_cases Hb; cbn [SFmul].
  1-3: split; [done|]; apply near_same; rewrite !val_zero; rewrite ?Qmult_0_l, ?Qmult_0_r; done.
  assert (val (S754_finite false mx ex) * val (S754_finite false my ey) == at_exp (Z.pos (mx * my)) (ex + ey))%Q as E.
  { rewrite !val_finite. unfold at_exp. rewrite Pos2Z.inj_mul, inject_Z_mult, p2_add. ring. }
  apply round_aux_near; [done| |by rewrite E; apply Qle_refl|rewrite E; apply at_exp_le; lia|done].
  destruct Hfx as ([_ _] & _ & Hx), Hfy as ([_ _] & _ & Hy). unfold full. rewrite Pos2Z.inj_mul. destruct Hx as [Hx| ->]; [left; nia|]. destruct Hy as [Hy| ->]; [left; nia|right; lia].
Qed.
Lemma div_near x y : fin x → fin y → (0 < val y → val x / val y <= p2 1000 →
  fin (SFdiv 53 1024 x y) ∧ near (val (SFdiv 53 1024 x y)) (val x / val y))%Q.
Proof.
  intros [[bx ->]|(mx & ex & -> & Hfx)]%fin_cases [[by_ ->]|(my & ey & -> & Hfy)]%fin_cases Hy Hb; try (by apply Qlt_irrefl in Hy); cbn [SFdiv].
  { split; [done|]. apply near_same; rewrite val_zero; unfold Qdiv; rewrite Qmult_0_l; done. }
  clear Hy. unfold SFdiv_core_binary. cbn [Zdigits2]. rewrite !digits_log2.
  set (f := fexp 53 1024 _). assert (f = Z.max (Z.log2 (Z.pos mx) - Z.log2 (Z.pos my) + ex - ey - 53) (-1074)) as Hf
    by (unfold f, fexp; change (emin 53 1024) with (-1074); lia). clearbody f.
  set (e' := Z.min f (ex - ey)). set (s := ex - ey - e'). assert (0 <= s) as Hs by lia.
  assert (match s with 0 => Z.pos mx | Z.pos _ => Z.shiftl (Z.pos mx) s | Z.neg _ => 0 end = Z.pos mx * 2 ^ s) as ->
    by (destruct s; [by rewrite Z.mul_1_r|by rewrite Z.shiftl_mul_pow2|lia]).
  destruct (Z.div_eucl (Z.pos mx * 2 ^ s) (Z.pos my)) as [q r] eqn:E.
  assert (q = Z.pos mx * 2 ^ s / Z.pos my) as Hq by (unfold Z.div; by rewrite E). clear E.
  pose proof (Z.mul_div_le (Z.pos mx * 2 ^ s) (Z.pos my) eq_refl) as Hq1. pose proof (Z.mul_succ_div_gt (Z.pos mx * 2 ^ s) (Z.pos my) eq_refl) as Hq2.
  rewrite <- Hq in Hq1, Hq2. assert (0 < inject_Z (Z.pos my))%Q as Hmy by reflexivity.
  assert (val (S754_finite false mx ex) / val (S754_finite false my ey) == at_exp (Z.pos mx * 2 ^ s) e' / inject_Z (Z.pos my))%Q as Ex.
  { rewrite !val_finite, at_exp_shift by done. unfold at_exp. replace ex with ((e' + s) + ey) at 1 by lia. rewrite (p2_add (e' + s) ey).
    pose proof (p2_pos ey). field. split; intros H'; [rewrite H' in Hmy; discriminate|lra]. }
  assert (∀ k, (at_exp k e' * inject_Z (Z.pos my) == at_exp (Z.pos my * k) e')%Q) as Hk by (intros k; unfold at_exp; rewrite inject_Z_mult; ring).
  apply round_aux_near; [rewrite Hq; apply Z.div_pos; [apply Z.mul_nonneg_nonneg; [done|by apply Z.pow_nonneg]|done]| | | |done].
  - destruct (Z.max_spec (Z.log2 (Z.pos mx) - Z.log2 (Z.pos my) + ex - ey - 53) (-1074)) as [[? ?]|[? ?]]; [right; lia|left].
    rewrite Hq. apply Z.div_le_lower_bound; [done|]. pose proof (Z.log2_spec (Z.pos mx) eq_refl) as [Hl _]. pose proof (Z.log2_spec (Z.pos my) eq_refl) as [_ Hu].
    pose proof (Z.log2_nonneg (Z.pos mx)). pose proof (Z.log2_nonneg (Z.pos my)).
    transitivity (2 ^ Z.succ (Z.log2 (Z.pos my)) * 2 ^ 52); [apply Z.mul_le_mono_nonneg_r; lia|].
    transitivity (2 ^ Z.log2 (Z.pos mx) * 2 ^ s); [|apply Z.mul_le_mono_nonneg_r; [by apply Z.pow_nonneg|done]].
    rewrite <- !Z.pow_add_r by lia. apply Z.pow_le_mono_r; lia.
  - rewrite Ex. apply Qle_shift_div_l; [done|]. rewrite Hk. apply at_exp_le. lia.
  - rewrite Ex. apply Qle_shift_div_r; [done|]. rewrite Hk. apply at_exp_le. lia.
Qed.

(** Comparisons are exact. *)
Lemma exp_order m1 e1 m2 e2 : fits m1 e1 → fits m2 e2 → e1 < e2 → (at_exp m1 e1 < at_exp m2 e2)%Q.
Proof.
  intros ([_ H1] & H2 & _) (_ & _ & [H3|H3]) He; [|lia].
  apply Qlt_le_trans with (at_exp (2 ^ 53) e1).
  - unfold at_exp. apply Qmult_lt_compat_r; [apply p2_pos|]. by rewrite <- Zlt_Qlt.
  - eapply Qle_trans; [|by apply at_exp_le]. unfold at_exp. rewrite <- !p2_int, <- !p2_add by lia. apply p2_le. lia.
Qed.
Lemma compare_val x y : fin x → fin y → SFcompare x y = Some (val x ?= val y)%Q.
Proof.
  intros [[bx ->]|(mx & ex & -> & Hfx)]%fin_cases [[by_ ->]|(my & ey & -> & Hfy)]%fin_cases; cbn [SFcompare]; [done|..]; f_equal; symmetry.
  - rewrite <- Qlt_alt, val_finite, val_zero. unfold at_exp. pose proof (p2_pos ey). assert (0 < inject_Z (Z.pos my))%Q by reflexivity. nra.
  - rewrite <- Qgt_alt, val_finite, val_zero. unfold at_exp. pose proof (p2_pos ex). assert (0 < inject_Z (Z.pos mx))%Q by reflexivity. nra.
  - rewrite (Qcompare_comp _ _ (val_finite mx ex) _ _ (val_finite my ey)). destruct (Z.compare_spec ex ey) as [->|H|H].
    + unfold at_exp. assert (∀ a b, (inject_Z a * p2 ey ?= inject_Z b * p2 ey)%Q = (a ?= b)) as Hc.
      { intros a b. pose proof (p2_pos ey). destruct (Z.compare_spec a b) as [->|H0|H0].
        - by rewrite <- Qeq_alt.
        - rewrite <- Qlt_alt. apply Qmult_lt_compat_r; [done|]. by rewrite <- Zlt_Qlt.
        - rewrite <- Qgt_alt. apply Qmult_lt_compat_r; [done|]. by rewrite <- Zlt_Qlt. }
      rewrite Hc. done.
    + rewrite <- Qlt_alt. by apply exp_order.
    + rewrite <- Qgt_alt. by apply exp_order.
Qed.
Lemma ltb_val x y : fin x → fin y → (SFltb x y = true ↔ (val x < val y)%Q).
Proof. intros Hx Hy. unfold SFltb. rewrite compare_val by done. rewrite Qlt_alt. by destruct (_ ?= _)%Q. Qed.
Lemma leb_val x y : fin x → fin y → (SFleb x y = true ↔ (val x <= val y)%Q).
Proof. intros Hx Hy. unfold SFleb. rewrite compare_val by done. rewrite Qle_alt. by destruct (_ ?= _)%Q. Qed.

(** Integers *)
Lemma int_near z : 0 <= z < 2 ^ 64 → fin (binary_normalize 53 1024 z 0 false) ∧ near (val (binary_normalize 53 1024 z 0 false)) (inject_Z z).
Proof.
  intros Hz. apply normalize_near; [lia|unfold at_exp; change (p2 0) with 1%Q; ring|].
  apply Qle_trans with (p2 64); [rewrite p2_int by lia; rewrite <- Zle_Qle; lia|apply p2_le; lia].
Qed.
