(* ===== verification/RateLimit.v ===== *)
(** * The rate-limiting middleware

    Models [src/web/middleware/ratelimit/ratelimit.go].  The arithmetic of tokens is
    an interface; [f64] is that of Go's [float64].  Times are nanoseconds of the
    monotonic clock, read once per critical section.  Buckets are shared by pointer,
    so they live in a heap. *)

From Stdlib Require Import SpecFloat.
From stdpp Require Import pretty.
From S2P Require Import Prelude GoStrings WebContext WebServer.
Local Open Scope Z_scope.

(** ** Arithmetic *)
Class Arith (F : Type) := {
  fadd : F → F → F; fsub : F → F → F; fmul : F → F → F;
  fltb : F → F → bool; fleb : F → F → bool;
  of_int : Z → F;
  seconds : Z → F;                              (** [time.Duration.Seconds] *)
  to_int : F → Z }.                             (** [int(x)] *)

Definition nanos : Z := 10 ^ 9.
Definition f64_of_Z (z : Z) : spec_float := binary_normalize 53 1024 z 0 false.
Definition f64_trunc (x : spec_float) : Z :=
  match x with
  | S754_finite s m e => (if s then Z.opp else id) (Z.shiftl (Z.pos m) e)
  | _ => 0
  end.
#[export] Instance f64 : Arith spec_float := {
  fadd := SFadd 53 1024; fsub := SFsub 53 1024; fmul := SFmul 53 1024;
  fltb := SFltb; fleb := SFleb;
  of_int := f64_of_Z;
  seconds d := SFadd 53 1024 (f64_of_Z (Z.quot d nanos)) (SFdiv 53 1024 (f64_of_Z (Z.rem d nanos)) (f64_of_Z nanos));
  to_int := f64_trunc }.

Section ratelimit.
Context {F : Type} `{!Arith F}.

(** ** tokenBucket *)
Record tokenBucket := mkBucket { b_capacity : F; b_rate : F; b_tokens : F; b_lastTime : Z }.
Definition newTokenBucket (rate : F) (capacity : Z) (now : Z) : tokenBucket :=
  mkBucket (of_int capacity) rate (of_int capacity) now.

Definition refill (b : tokenBucket) (now : Z) : tokenBucket :=
  let elapsed := seconds (now - b_lastTime b) in
  if fltb (of_int 0) elapsed then
    let t := fadd (b_tokens b) (fmul elapsed (b_rate b)) in
    mkBucket (b_capacity b) (b_rate b) (if fltb (b_capacity b) t then b_capacity b else t) now
  else b.
Definition take (b : tokenBucket) (now : Z) : tokenBucket * (bool * F) :=
  let b := refill b now in
  if fleb (of_int 1) (b_tokens b) then
    let t := fsub (b_tokens b) (of_int 1) in
    (mkBucket (b_capacity b) (b_rate b) t (b_lastTime b), (true, t))
  else (b, (false, b_tokens b)).
Definition allow (b : tokenBucket) (now : Z) : tokenBucket * bool := let '(b, (ok, _)) := take b now in (b, ok).

(** ** MiddlewareBuilder *)
Record MiddlewareBuilder := mkMB {
  mb_rate : F; mb_capacity : Z; mb_byIP : bool; mb_ttl : Z;
  mb_bucket : option nat; mb_buckets : gmap string nat; mb_heap : list tokenBucket }.
Definition Create (rate : F) (capacity : Z) : MiddlewareBuilder := mkMB rate capacity false (10 * nanos) None ∅ [].
Definition WithByIP (mb : MiddlewareBuilder) (b : bool) : MiddlewareBuilder :=
  mkMB (mb_rate mb) (mb_capacity mb) b (mb_ttl mb) (mb_bucket mb) (mb_buckets mb) (mb_heap mb).
Definition WithTTL (mb : MiddlewareBuilder) (ttl : Z) : MiddlewareBuilder :=
  mkMB (mb_rate mb) (mb_capacity mb) (mb_byIP mb) ttl (mb_bucket mb) (mb_buckets mb) (mb_heap mb).
Definition set_buckets (mb : MiddlewareBuilder) (m : gmap string nat) : MiddlewareBuilder :=
  mkMB (mb_rate mb) (mb_capacity mb) (mb_byIP mb) (mb_ttl mb) (mb_bucket mb) m (mb_heap mb).
Definition set_heap (mb : MiddlewareBuilder) (h : list tokenBucket) : MiddlewareBuilder :=
  mkMB (mb_rate mb) (mb_capacity mb) (mb_byIP mb) (mb_ttl mb) (mb_bucket mb) (mb_buckets mb) h.

(** [newTokenBucket] as an allocation *)
Definition alloc (mb : MiddlewareBuilder) (now : Z) : MiddlewareBuilder * nat :=
  (set_heap mb (mb_heap mb ++ [newTokenBucket (mb_rate mb) (mb_capacity mb) now]), length (mb_heap mb)).

Definition isBucketExpired (mb : MiddlewareBuilder) (id : nat) (now : Z) : bool :=
  if mb_ttl mb <=? 0 then false
  else match mb_heap mb !! id with Some b => mb_ttl mb <? now - b_lastTime b | None => false end.

(** The critical sections of [getOrCreateBucket]: reading, removing an expired bucket
    if it is still there, and inserting a new one unless there is one. *)
Definition bucket_read (mb : MiddlewareBuilder) (ip : string) : option nat := mb_buckets mb !! ip.
Definition bucket_evict (mb : MiddlewareBuilder) (ip : string) (id : nat) : MiddlewareBuilder * option nat :=
  if bool_decide (mb_buckets mb !! ip = Some id) then (set_buckets mb (delete ip (mb_buckets mb)), None) else (mb, Some id).
Definition bucket_insert (mb : MiddlewareBuilder) (ip : string) (id : nat) : MiddlewareBuilder * nat :=
  match mb_buckets mb !! ip with
  | Some existing => (mb, existing)
  | None => (set_buckets mb (<[ip := id]> (mb_buckets mb)), id)
  end.
Definition getOrCreateBucket (mb : MiddlewareBuilder) (ip : string) (now : Z) : MiddlewareBuilder * nat :=
  let '(mb, found) :=
    match bucket_read mb ip with
    | Some id => if isBucketExpired mb id now then bucket_evict mb ip id else (mb, Some id)
    | None => (mb, None)
    end in
  match found with
  | Some id => (mb, id)
  | None => let '(mb, id) := alloc mb now in bucket_insert mb ip id
  end.

(** ** The client's address *)

(** [net.SplitHostPort], the host *)
Definition SplitHostPort (s : string) : option string :=
  match rcut1 ":" s with
  | None => None
  | Some (host, _) =>
      match s with
      | String "[" s' =>
          match cut1 "]" s' with
          | Some (h, String ":" port) =>
              if contains1 ":" port || contains1 "[" s' || contains1 "]" port then None else Some h
          | _ => None
          end
      | _ => if contains1 ":" host || contains1 "[" s || contains1 "]" s then None else Some host
      end
  end.
Definition clientIP (req : Request) : string :=
  let xff := hdr_get (ReqHeader req) "X-Forwarded-For" in
  if bool_decide (xff = "") then
    let xri := hdr_get (ReqHeader req) "X-Real-IP" in
    if bool_decide (xri = "") then
      match SplitHostPort (RemoteAddr req) with Some h => h | None => trim_space (RemoteAddr req) end
    else trim_space xri
  else match cut1 "," xff with Some (first, _) => trim_space first | None => trim_space xff end.

(** ** Build *)
Definition ratelimit_init (mb : MiddlewareBuilder) (now : Z) : MiddlewareBuilder :=
  if mb_byIP mb then set_buckets mb ∅
  else let '(mb, id) := alloc mb now in
       mkMB (mb_rate mb) (mb_capacity mb) (mb_byIP mb) (mb_ttl mb) (Some id) (mb_buckets mb) (mb_heap mb).

Definition take_at (mb : MiddlewareBuilder) (id : nat) (now : Z) : MiddlewareBuilder * option (bool * F) :=
  match mb_heap mb !! id with
  | None => (mb, None)
  | Some b => let '(b, r) := take b now in (set_heap mb (<[id := b]> (mb_heap mb)), Some r)
  end.

(** The handler; a nil bucket is a panic. *)
Definition ratelimit_handle (now : Z) (next : HandleFunc) (mb : MiddlewareBuilder) (ctx : Context)
  : MiddlewareBuilder * (Context * outcome) :=
  let '(mb, id) :=
    if mb_byIP mb then let '(mb, id) := getOrCreateBucket mb (clientIP (Req ctx)) now in (mb, Some id)
    else (mb, mb_bucket mb) in
  match id with
  | None => (mb, (ctx, Panicked))
  | Some id =>
      match take_at mb id now with
      | (mb, None) => (mb, (ctx, Panicked))
      | (mb, Some (true, remaining)) => (mb, next (SetHeader ctx "X-RateLimit-Remaining" (pretty (to_int remaining))))
      | (mb, Some (false, _)) =>
          let ctx := set_Resp ctx (rw_set_hdr (Resp ctx) (λ h, hdr_set h "X-RateLimit-Remaining" "0")) in
          (mb, then_ (ctx_WriteHeader ctx 429) (λ ctx,
                 ret (Abort (ctx_Write ctx (bytes_of "Too Many Requests")) 429 "Too Many Requests")))
      end
  end.
End ratelimit.
Arguments tokenBucket : clear implicits.
Arguments MiddlewareBuilder : clear implicits.
