(* ===== verification/RateLimitFacts.v ===== *)
(** * Correctness of the rate limiter *)

From Stdlib Require Import QArith Lqa SpecFloat.
From S2P Require Import Prelude GoStrings WebContext WebServer Float64Facts RateLimit.
Local Open Scope Z_scope.

(** ** Seconds in [float64] *)
Local Open Scope Q_scope.
Definition secs (d : Z) : Q := inject_Z d / inject_Z nanos.
Lemma secs_nonneg d : (0 <= d)%Z → 0 <= secs d.
Proof. intros H. unfold secs. apply Qle_shift_div_l; [reflexivity|]. rewrite Qmult_0_l. by rewrite (Zle_Qle 0) in H. Qed.
Lemma secs_add a b : secs (a + b) == secs a + secs b.
Proof. unfold secs. rewrite inject_Z_plus. field. intros H. discriminate. Qed.
Lemma secs_le a b : (a <= b)%Z → secs a <= secs b.
Proof. intros H. unfold secs. apply Qmult_le_compat_r; [by rewrite <- Zle_Qle|done]. Qed.

(** Relative errors. *)
Definition rel (k : Q) (a x : Q) : Prop := x * (1 - k * eps) <= a ∧ a <= x * (1 + k * eps).
#[local] Instance rel_proper : Proper (Qeq ==> Qeq ==> Qeq ==> iff) rel.
Proof. intros k k' Hk a b H x y H'. unfold rel. by rewrite H, H', Hk. Qed.
Lemma eps_small : 0 < eps ∧ eps * 1000 < 1.
Proof. split; reflexivity. Qed.
Lemma eta_small : 0 < eta ∧ eta * 1000000000000 < eps.
Proof. split; reflexivity. Qed.
Lemma near_rel a x : near a x → eta <= eps * x → rel 4 a x.
Proof. intros [H1 H2] H. pose proof eps_small. unfold rel. split; lra. Qed.
Lemma rel_trans j k a x y : rel j a x → rel k x y → 0 <= y → 0 <= j <= 30 → 0 <= k <= 30 → rel (j + k + 1) a y.
Proof.
  intros [H1 H2] [H3 H4] Hy Hj Hk. destruct eps_small as [He1 He2]. unfold rel.
  assert (0 <= j * eps /\ j * eps <= 30 * eps) as [Hj1 Hj2] by (split; nra). assert (0 <= k * eps /\ k * eps <= 30 * eps) as [Hk1 Hk2] by (split; nra).
  assert (0 <= (j * eps) * (k * eps) /\ (j * eps) * (k * eps) <= eps) as [Hp1 Hp2] by (split; nra). split.
  - apply Qle_trans with (x * (1 - j * eps)); [|done].
    apply Qle_trans with (y * (1 - k * eps) * (1 - j * eps)); [|apply Qmult_le_compat_r; [done|lra]].
    apply Qle_trans with (y * (1 - j * eps - k * eps + (j * eps) * (k * eps))); [|apply Qle_lteq; right; ring].
    assert (0 <= y * (eps + (j * eps) * (k * eps))) by (apply Qmult_le_0_compat; lra). lra.
  - apply Qle_trans with (x * (1 + j * eps)); [done|].
    apply Qle_trans with (y * (1 + k * eps) * (1 + j * eps)); [apply Qmult_le_compat_r; [done|lra]|].
    assert (0 <= y * (eps - (j * eps) * (k * eps))) by (apply Qmult_le_0_compat; lra). lra.
Qed.
Lemma rel_more j k a x : rel j a x → 0 <= x → j <= k → rel k a x.
Proof.
  intros [H1 H2] Hx Hjk. destruct eps_small as [He _]. assert (0 <= x * ((k - j) * eps)) by (apply Qmult_le_0_compat; [done|nra]).
  unfold rel. split; lra.
Qed.
Lemma rel_add k a x b y : rel k a x → rel k b y → rel k (a + b) (x + y).
Proof. intros [H1 H2] [H3 H4]. unfold rel. split; lra. Qed.
Lemma rel_zero k a x : a == 0 → x == 0 → rel k a x.
Proof. intros Ha Hx. unfold rel. rewrite Ha, Hx, !Qmult_0_l. split; apply Qle_refl. Qed.

Lemma val_nanos : fin (f64_of_Z nanos) ∧ val (f64_of_Z nanos) == inject_Z nanos.
Proof. by split. Qed.
Lemma int_rel z : (0 <= z < 2 ^ 64)%Z → fin (f64_of_Z z) ∧ rel 4 (val (f64_of_Z z)) (inject_Z z).
Proof.
  intros Hz. destruct (int_near z Hz) as [H1 H2]. split; [exact H1|]. destruct (decide (z = 0%Z)) as [->|Hne]; [by apply rel_zero|].
  apply near_rel; [exact H2|]. assert (1 <= inject_Z z) by (change 1 with (inject_Z 1%Z); rewrite <- Zle_Qle; lia). pose proof eta_small. pose proof eps_small. nra.
Qed.
(** The fraction of a second. *)
Lemma fraction_rel r : (0 <= r < nanos)%Z →
  fin (SFdiv 53 1024 (f64_of_Z r) (f64_of_Z nanos)) ∧ rel 9 (val (SFdiv 53 1024 (f64_of_Z r) (f64_of_Z nanos))) (secs r).
Proof.
  intros Hr. destruct (decide (r = 0%Z)) as [->|Hne]; [by split; [|apply rel_zero]|].
  destruct (int_rel r) as [Hf [Hr1 Hr2]]; [unfold nanos in *; lia|]. destruct val_nanos as [Hn1 Hn2]. destruct eps_small as [He1 He2]. pose proof eta_small.
  assert (1 <= inject_Z r) as H1 by (change 1 with (inject_Z 1%Z); rewrite <- Zle_Qle; lia).
  assert (inject_Z r <= inject_Z nanos) as H2 by (rewrite <- Zle_Qle; lia).
  assert (0 < / inject_Z nanos) as Hi by reflexivity. assert (inject_Z nanos * / inject_Z nanos == 1) as Hii by reflexivity.
  assert (/ inject_Z nanos * 1000000000 == 1) as Hi2 by reflexivity.
  assert (val (f64_of_Z r) / val (f64_of_Z nanos) == val (f64_of_Z r) * / inject_Z nanos) as Eq by (unfold Qdiv; by rewrite Hn2).
  assert (inject_Z r * (1 # 2) <= val (f64_of_Z r) <= 2 * inject_Z nanos) as [Hv1 Hv2] by (split; nra).
  destruct (div_near (f64_of_Z r) (f64_of_Z nanos) Hf Hn1) as [Hd1 Hd2]; [by rewrite Hn2| |].
  { rewrite Eq. apply Qle_trans with 2; [nra|]. change 2 with (p2 1). by apply p2_le. }
  split; [exact Hd1|]. rewrite Eq in Hd2. apply near_rel in Hd2; [|nra].
  change 9 with (4 + 4 + 1). eapply rel_trans; [exact Hd2| |apply secs_nonneg; lia|split; discriminate|split; discriminate].
  unfold secs, Qdiv. split; nra.
Qed.
Lemma seconds_rel d : (0 <= d < 2 ^ 63)%Z → fin (seconds d) ∧ rel 14 (val (seconds d)) (secs d).
Proof.
  intros Hd. cbn [seconds f64]. rewrite Z.quot_div_nonneg, Z.rem_mod_nonneg by (unfold nanos; lia).
  pose proof (Z.div_mod d nanos ltac:(done)) as Hdm. pose proof (Z.mod_pos_bound d nanos ltac:(done)) as Hr.
  assert (0 <= d / nanos < 2 ^ 34)%Z as Hq by (split; [by apply Z.div_pos; [lia|]|apply Z.div_lt_upper_bound; [done|unfold nanos; lia]]).
  set (q := (d / nanos)%Z) in *. set (r := (d mod nanos)%Z) in *. clearbody q r.
  destruct (int_rel q ltac:(lia)) as [Hq1 Hq2]. destruct (fraction_rel r Hr) as [Hr1 Hr2].
  assert (0 <= inject_Z q) as Hq0 by (change 0 with (inject_Z 0%Z); rewrite <- Zle_Qle; lia).
  assert (inject_Z q <= p2 34) as Hq3 by (rewrite p2_int by lia; rewrite <- Zle_Qle; lia).
  assert (secs d == inject_Z q + secs r) as Es by (rewrite Hdm; unfold secs; rewrite inject_Z_plus, inject_Z_mult; field; discriminate).
  pose proof (secs_nonneg r ltac:(lia)) as Hr0. assert (secs r <= 1) as Hr3 by (apply Qle_trans with (secs nanos); [apply secs_le; lia|by apply Qle_bool_iff]).
  apply (rel_more 4 9) in Hq2; [|done|discriminate]. pose proof (rel_add 9 _ _ _ _ Hq2 Hr2) as Hs. destruct eps_small as [He1 He2]. pose proof eta_small as [Ht1 Ht2].
  destruct (add_near _ _ Hq1 Hr1) as [Ha1 Ha2].
  { destruct Hs as [_ Hs]. apply Qle_trans with ((p2 34 + 1) * 2); [nra|]. by apply Qle_bool_iff. }
  split; [exact Ha1|]. rewrite Es. destruct (decide (d = 0%Z)) as [->|Hne].
  { assert (q = 0 ∧ r = 0)%Z as [-> ->] by (unfold nanos in *; lia). by apply rel_zero. }
  change 14 with (4 + 9 + 1). eapply rel_trans; [apply near_rel; [exact Ha2|]|exact Hs|lra|split; discriminate|split; discriminate].
  assert (secs 1%Z <= secs d) as Hone by (apply secs_le; lia). assert (secs 1%Z * 1000000000 == 1) by reflexivity. rewrite Es in Hone. destruct Hs as [Hs _].
  assert ((inject_Z q + secs r) * (1 # 2) <= val (f64_of_Z q) + val (SFdiv 53 1024 (f64_of_Z r) (f64_of_Z nanos))) by nra. nra.
Qed.
Local Close Scope Q_scope.

(** ** The bucket *)
Local Open Scope Q_scope.

(** Buckets of a limiter with a rate up to 2^64 per second and a capacity up to 2^50. *)
Record sane (b : tokenBucket spec_float) : Prop := {
  sn_rate : fin (b_rate b); sn_tokens : fin (b_tokens b); sn_capacity : fin (b_capacity b);
  sn_rate_max : val (b_rate b) <= p2 64; sn_capacity_max : val (b_capacity b) <= p2 50;
  sn_le : val (b_tokens b) <= val (b_capacity b) }.

Lemma secs_max d : (0 <= d < 2 ^ 63)%Z → 0 <= secs d ∧ secs d <= p2 34.
Proof.
  intros Hd. split; [apply secs_nonneg; lia|]. apply Qle_trans with (secs (2 ^ 63)); [apply secs_le; lia|]. by apply Qle_bool_iff.
Qed.
(** What is refilled, before the bucket is full. *)
Lemma refill_amount b d : sane b → (0 <= d < 2 ^ 63)%Z →
  let r := val (b_rate b) * secs d in
  let t := fadd (b_tokens b) (fmul (seconds d) (b_rate b)) in
  fin t ∧ 0 <= r ∧ ∃ x, near (val t) (val (b_tokens b) + x) ∧ 0 <= x ∧ r * (1 - 18 * eps) - 2 * eta <= x ∧ x <= r * (1 + 18 * eps) + eta.
Proof.
  intros Hb Hd. cbn zeta. destruct (seconds_rel d Hd) as [He [Hlo Hup]]. destruct (secs_max d Hd) as [Hs0 Hs1].
  pose proof (fin_nonneg _ (sn_rate _ Hb)) as Hr0. pose proof (fin_nonneg _ (sn_tokens _ Hb)) as Ht0. pose proof (fin_nonneg _ He) as He0.
  destruct eps_small as [E1 E2]. destruct eta_small as [E3 E4]. pose proof (sn_rate_max _ Hb) as Hrm. pose proof (sn_capacity_max _ Hb) as Hcm. pose proof (sn_le _ Hb).
  set (rate := val (b_rate b)) in *. set (r := rate * secs d). set (w := val (seconds d) * rate).
  assert (0 <= r) as Hr by (by apply Qmult_le_0_compat). assert (0 <= w) as Hw by (by apply Qmult_le_0_compat).
  assert (r * (1 - 14 * eps) <= w) as Hw1 by (unfold r, w; apply (Qmult_le_compat_r _ _ rate) in Hlo; [lra|done]).
  assert (w <= r * (1 + 14 * eps)) as Hw2 by (unfold r, w; apply (Qmult_le_compat_r _ _ rate) in Hup; [lra|done]).
  assert (w <= p2 99) as Hw3.
  { apply Qle_trans with (p2 64 * (p2 34 * 2)); [|by apply Qle_bool_iff]. apply Qle_trans with (rate * (secs d * 2)).
    - assert (r * (14 * eps) <= r) by (rewrite <- (Qmult_1_r r) at 2; apply Qmult_le_compat_nonneg; split; lra). unfold r in *. lra.
    - apply Qmult_le_compat_nonneg; split; lra. }
  destruct (mul_near _ _ He (sn_rate _ Hb)) as [Hm1 [Hm2 Hm3]]; [apply Qle_trans with (p2 99); [exact Hw3|by apply p2_le]|]. fold rate w in Hm2, Hm3.
  change (SFmul 53 1024 (seconds d) (b_rate b)) with (fmul (seconds d) (b_rate b)) in *. set (x := fmul (seconds d) (b_rate b)) in *.
  assert (w * eps <= 2 * (r * eps)) as Hwe. { assert (w <= 2 * r) by nra. nra. }
  assert (val x <= p2 100) as Hx3. { assert (p2 99 * 2 <= p2 100) by (by apply Qle_bool_iff). assert (1 <= p2 99) by (by apply Qle_bool_iff). nra. }
  destruct (add_near _ _ (sn_tokens _ Hb) Hm1) as [Ha1 Ha2].
  { apply Qle_trans with (p2 50 + p2 100); [lra|]. by apply Qle_bool_iff. }
  split; [exact Ha1|]. split; [done|]. exists (val x). split_and!; [exact Ha2|by apply fin_nonneg|lra|lra].
Qed.

Lemma refill_spec b now (d := (now - b_lastTime b)%Z) : sane b → (0 <= d < 2 ^ 63)%Z →
  let b' := refill b now in
  sane b' ∧ b_capacity b' = b_capacity b ∧ b_rate b' = b_rate b ∧ b_lastTime b' = now ∧
  val (b_tokens b') <= val (b_tokens b) + val (b_rate b) * secs d * (1 + 18 * eps) + eps * val (b_capacity b) + 2 * eta ∧
  (1 <= val (b_capacity b) → 1 + p2 (-40) <= val (b_rate b) * secs d → 1 <= val (b_tokens b')).
Proof.
  intros Hb Hd. cbn zeta. destruct (refill_amount b d Hb Hd) as (Ht & Hr & x & [Hn1 Hn2] & Hx0 & Hx1 & Hx2).
  destruct (seconds_rel d Hd) as [He [Hlo _]]. destruct eps_small as [E1 E2]. destruct eta_small as [E3 E4]. pose proof (fin_nonneg _ (sn_tokens _ Hb)) as Ht0.
  pose proof (fin_nonneg _ (sn_capacity _ Hb)) as Hc0. pose proof (sn_le _ Hb) as Hle. unfold refill. fold d.
  assert (0 <= eps * val (b_capacity b)) as Hec by (apply Qmult_le_0_compat; lra).
  destruct (fltb (of_int 0) (seconds d)) eqn:El; cbn [b_capacity b_rate b_tokens b_lastTime].
  - set (t := fadd _ _) in *. set (y := val (b_tokens b) + x) in *.
    assert (val t <= val (b_capacity b) → val t <= y + eps * val (b_capacity b) + eta) as Hup.
    { intros Hc. destruct (Qlt_le_dec (val (b_capacity b)) y) as [Hy|Hy]; [lra|]. assert (y * eps <= eps * val (b_capacity b)) by nra. lra. }
    assert (1 + p2 (-40) <= val (b_rate b) * secs d → 1 <= val t) as Hlive.
    { intros H. assert (1 + p2 (-41) <= x) as Hx. { assert ((1 + p2 (-40)) * (1 - 18 * eps) <= val (b_rate b) * secs d * (1 - 18 * eps)) by (apply Qmult_le_compat_r; lra).
        assert (1 + p2 (-41) + 2 * eps <= (1 + p2 (-40)) * (1 - 18 * eps)) by (by apply Qle_bool_iff). lra. }
      assert ((1 + p2 (-41)) * (1 - 2 * eps) <= y * (1 - 2 * eps)) by (apply Qmult_le_compat_r; unfold y; lra).
      assert (1 + 2 * eps <= (1 + p2 (-41)) * (1 - 2 * eps)) by (by apply Qle_bool_iff). lra. }
    destruct (fltb (b_capacity b) t) eqn:Ec; cbn [b_capacity b_rate b_tokens b_lastTime].
    + apply ltb_val in Ec; [|apply Hb|done]. split_and!; try done; [destruct Hb; by split; try done; apply Qle_refl|].
      destruct (Qlt_le_dec (val (b_capacity b)) y) as [Hy|Hy]; [unfold y in *; lra|]. assert (y * eps <= eps * val (b_capacity b)) by nra. unfold y in *. lra.
    + assert (val t <= val (b_capacity b)) as Hc by (apply Qnot_lt_le; intros H; apply ltb_val in H; [|apply Hb|done]; change SFltb with (fltb (F := spec_float)) in H; congruence).
      split_and!; try done; [destruct Hb; by split|specialize (Hup Hc); unfold y in *; lra].
  - assert (val (seconds d) <= 0) as Hz.
    { apply Qnot_lt_le. intros H. assert (fltb (of_int 0) (seconds d) = true); [|congruence]. by apply ltb_val. }
    assert (d = 0)%Z as Hd0.
    { destruct (decide (d = 0%Z)); [done|]. assert (secs 1%Z <= secs d) as H1 by (apply secs_le; lia). assert (0 < secs 1%Z) as H2 by reflexivity.
      assert (0 < secs d * (1 - 14 * eps)); [apply Qmult_lt_0_compat; lra|lra]. }
    split_and!; try done; [lia| |].
    + assert (0 <= val (b_rate b) * secs d * (1 + 18 * eps)) by (apply Qmult_le_0_compat; lra). lra.
    + intros _ H. exfalso. rewrite Hd0 in H. assert (secs 0 == 0) as H0 by reflexivity. rewrite H0, Qmult_0_r in H. assert (0 < p2 (-40)) by reflexivity. lra.
Qed.

Lemma take_spec b now (d := (now - b_lastTime b)%Z) : sane b → (0 <= d < 2 ^ 63)%Z →
  let '(b', (ok, t)) := take b now in
  sane b' ∧ b_capacity b' = b_capacity b ∧ b_rate b' = b_rate b ∧ b_lastTime b' = now ∧ t = b_tokens b' ∧
  val (b_tokens b') + (if ok then 1 else 0) <= val (b_tokens b) + val (b_rate b) * secs d * (1 + 18 * eps) + eps * (2 * val (b_capacity b) + 1) ∧
  (1 <= val (b_capacity b) → 1 + p2 (-40) <= val (b_rate b) * secs d → ok = true).
Proof.
  intros Hb Hd. destruct (refill_spec b now Hb Hd) as (Hb1 & H1 & H2 & H3 & H4 & H5). fold d in H4, H5. unfold take. set (b1 := refill b now) in *.
  destruct eps_small as [E1 E2]. destruct eta_small as [E3 E4]. pose proof (fin_nonneg _ (sn_tokens _ Hb1)) as Ht0. pose proof (sn_le _ Hb1) as Hle. rewrite H1 in Hle.
  pose proof (fin_nonneg _ (sn_capacity _ Hb)) as Hc0. assert (0 <= eps * val (b_capacity b)) as Hec by (apply Qmult_le_0_compat; lra).
  assert (fin (of_int 1%Z) ∧ val (of_int 1%Z) == 1) as [Ho1 Ho2] by (by split).
  destruct (fleb (of_int 1%Z) (b_tokens b1)) eqn:El.
  - apply leb_val in El; [|done|apply Hb1]. rewrite Ho2 in El. cbn [b_capacity b_rate b_tokens b_lastTime].
    destruct (sub_near _ _ (sn_tokens _ Hb1) Ho1) as [Hs1 [_ Hs2]].
    { by rewrite Ho2. }
    { apply Qle_trans with (p2 50); [|by apply p2_le]. pose proof (sn_capacity_max _ Hb). lra. }
    rewrite Ho2 in Hs2. change (SFsub 53 1024) with (fsub (F := spec_float)) in *. set (t := fsub _ _) in *.
    assert ((val (b_tokens b1) - 1) * eps <= eps * val (b_capacity b)) as Hte by nra.
    assert (eps * val (b_capacity b) <= 1 # 2) as Hhalf.
    { apply Qle_trans with (eps * p2 50); [|by apply Qle_bool_iff]. pose proof (sn_capacity_max _ Hb). nra. }
    split_and!; try done; [|lra]. destruct Hb1. split; cbn [b_capacity b_rate b_tokens]; try done. rewrite H1. lra.
  - split_and!; try done; [lra|]. intros Hc Hr. exfalso. specialize (H5 Hc Hr).
    assert (fleb (of_int 1%Z) (b_tokens b1) = true); [|congruence]. apply leb_val; [done|apply Hb1|]. by rewrite Ho2.
Qed.

(** The requests let through at the given times. *)
Fixpoint takes {F} `{!Arith F} (b : tokenBucket F) (ts : list Z) : tokenBucket F * Z :=
  match ts with
  | [] => (b, 0%Z)
  | t :: ts' => let '(b, (ok, _)) := take b t in
                let '(b, n) := takes b ts' in
                (b, ((if (ok : bool) then 1 else 0) + n)%Z)
  end.
Fixpoint ascending (t0 : Z) (ts : list Z) : Prop :=
  match ts with [] => True | t :: ts' => (t0 <= t)%Z ∧ ascending t ts' end.

(** What rounding can add per request. *)
Definition slack (b : tokenBucket spec_float) : Q := eps * (2 * val (b_capacity b) + 1).
Lemma takes_bound ts : ∀ b T, sane b → ascending (b_lastTime b) ts → Forall (λ t, (t <= T)%Z) ts → (b_lastTime b <= T < b_lastTime b + 2 ^ 63)%Z →
  inject_Z (takes b ts).2 <= val (b_tokens b) + val (b_rate b) * secs (T - b_lastTime b) * (1 + 18 * eps) + inject_Z (Z.of_nat (length ts)) * slack b.
Proof.
  destruct eps_small as [E1 _]. induction ts as [|t ts IH]; intros b T Hb Ha HT Hl; cbn [takes].
  - cbn [snd length]. change (inject_Z 0) with 0. change (inject_Z (Z.of_nat 0)) with 0. pose proof (fin_nonneg _ (sn_tokens _ Hb)).
    assert (0 <= val (b_rate b) * secs (T - b_lastTime b) * (1 + 18 * eps)); [|lra].
    apply Qmult_le_0_compat; [|lra]. apply Qmult_le_0_compat; [apply fin_nonneg, Hb|apply secs_nonneg; lia].
  - destruct Ha as [Ht Ha]. apply Forall_cons in HT as [HtT HT]. pose proof (take_spec b t Hb ltac:(lia)) as H.
    destruct (take b t) as [b' [ok x]]. destruct H as (Hb' & H1 & H2 & H3 & _ & H4 & _).
    specialize (IH b' T Hb'). destruct (takes b' ts) as [b'' n]. cbn [snd] in *. unfold slack in *. rewrite H1, H2, H3 in IH.
    specialize (IH Ha HT ltac:(lia)). rewrite inject_Z_plus. cbn [length]. rewrite Nat2Z.inj_succ, <- Z.add_1_r, inject_Z_plus.
    replace (T - b_lastTime b)%Z with ((t - b_lastTime b) + (T - t))%Z by lia. rewrite secs_add.
    destruct ok; [change (inject_Z 1) with 1 in *|change (inject_Z 0) with 0; change (inject_Z 1) with 1]; lra.
Qed.

(** C32: The rate limit, in [float64] as the code computes it.  Take a bucket whose rate
    and token count are non-negative finite numbers, with a rate up to 2^64 per second and
    a capacity up to 2^50, and requests at any ascending times within 2^63 nanoseconds.
    The requests let through up to [T] are at most the capacity, plus the rate times the
    seconds passed up to a relative error of 2^-47, plus for every request what rounding
    can add, 2^-52 of twice the capacity plus one.  And a bucket of capacity at least one
    lets a request through whenever the time since its last refill is worth a token and
    2^-40 more. *)
Theorem rate_bound (b : tokenBucket spec_float) ts T : sane b → ascending (b_lastTime b) ts → Forall (λ t, (t <= T)%Z) ts →
  (b_lastTime b <= T < b_lastTime b + 2 ^ 63)%Z →
  inject_Z (takes b ts).2 <= val (b_capacity b) + val (b_rate b) * secs (T - b_lastTime b) * (1 + p2 (-47))
                             + inject_Z (Z.of_nat (length ts)) * (p2 (-52) * (2 * val (b_capacity b) + 1)) ∧
  (1 <= val (b_capacity b) → 1 + p2 (-40) <= val (b_rate b) * secs (T - b_lastTime b) → (take b T).2.1 = true).
Proof.
  intros Hb Ha HT Hl. split.
  - pose proof (takes_bound ts b T Hb Ha HT Hl) as H. pose proof (sn_le _ Hb). unfold slack in H. fold eps.
    assert (0 <= val (b_rate b) * secs (T - b_lastTime b)) as Hr by (apply Qmult_le_0_compat; [apply fin_nonneg, Hb|apply secs_nonneg; lia]).
    assert (val (b_rate b) * secs (T - b_lastTime b) * (1 + 18 * eps) <= val (b_rate b) * secs (T - b_lastTime b) * (1 + p2 (-47))); [|lra].
    assert (1 + 18 * eps <= 1 + p2 (-47)) by (by apply Qle_bool_iff). apply Qmult_le_compat_nonneg; split; first [done|apply Qle_refl|lra].
  - pose proof (take_spec b T Hb ltac:(lia)) as H. destruct (take b T) as [b' [ok x]]. apply H.
Qed.
(** One request per three seconds, written as a third in [float64]: requests at 0, 1, 2
    and 3 seconds. *)
Definition third : tokenBucket spec_float := newTokenBucket (SFdiv 53 1024 (f64_of_Z 1) (f64_of_Z 3)) 1 0.
Lemma third_sane : sane third.
Proof. split; try (by vm_compute); by apply Qle_bool_iff. Qed.
Lemma rate_bound_witness :
  inject_Z (takes third [0; nanos; 2 * nanos; 3 * nanos]%Z).2 <= 1 + val (b_rate third) * secs (3 * nanos) * (1 + p2 (-47)) + 4 * (p2 (-52) * 3) ∧
  (take third (4 * nanos)).2.1 = true.
Proof.
  destruct (rate_bound third [0; nanos; 2 * nanos; 3 * nanos]%Z (3 * nanos)) as [H1 _];
    [apply third_sane|by repeat split|by repeat constructor|by split|].
  destruct (rate_bound third [] (4 * nanos)) as [_ H2]; [apply third_sane|done|done|by split|].
  split; [exact H1|]. apply H2; by apply Qle_bool_iff.
Defined.
(** Rounding matters: the third as a [float64] is less than a third, and yet the second
    token is there after three seconds. *)
Example rounding_grants_a_token :
  (takes third [0; nanos; 2 * nanos; 3 * nanos]%Z).2 = 2%Z ∧ 1 + val (b_rate third) * secs (3 * nanos) < 2.
Proof. split; [by vm_compute|reflexivity]. Qed.
Local Close Scope Q_scope.

(** Five at once, then two per second. *)
Example float_bucket : (takes (newTokenBucket (f64_of_Z 2) 5 0) [0; 0; 0; 0; 0; 0; nanos; nanos; nanos]).2 = 7.
Proof. by vm_compute. Qed.

(** ** Buckets per client *)
Section clients.
Context {F : Type} `{!Arith F}.

(** Critical sections of requests, in any order; buckets that were made and are not
    yet in the map belong to the request that made them. *)
Inductive rl_step : MiddlewareBuilder F * list nat → MiddlewareBuilder F * list nat → Prop :=
| rl_alloc mb mine now : rl_step (mb, mine) ((alloc mb now).1, (alloc mb now).2 :: mine)
| rl_evict mb mine ip id : rl_step (mb, mine) ((bucket_evict mb ip id).1, mine)
| rl_insert mb m1 id m2 ip : rl_step (mb, m1 ++ id :: m2) ((bucket_insert mb ip id).1, m1 ++ m2)
| rl_take mb mine id now : rl_step (mb, mine) ((take_at mb id now).1, mine).

(** No two clients share a bucket. *)
Record separate (s : MiddlewareBuilder F * list nat) : Prop := {
  sp_inj : ∀ ip1 ip2 id, mb_buckets s.1 !! ip1 = Some id → mb_buckets s.1 !! ip2 = Some id → ip1 = ip2;
  sp_map : ∀ ip id, mb_buckets s.1 !! ip = Some id → (id < length (mb_heap s.1))%nat ∧ id ∉ s.2;
  sp_mine : NoDup s.2 ∧ Forall (λ id, (id < length (mb_heap s.1))%nat) s.2 }.

Lemma rl_step_separate s s' : separate s → rl_step s s' → separate s'.
Proof.
  intros [H1 H2 [H3 H4]] Hs. destruct Hs as [mb mine now|mb mine ip id|mb m1 id m2 ip|mb mine id now]; cbn [fst snd] in *.
  - cbn [alloc fst snd set_heap mb_buckets mb_heap]. split; cbn [fst snd alloc set_heap mb_buckets mb_heap]; [done| |].
    + intros ip id Hi. destruct (H2 _ _ Hi). rewrite length_app. split; [lia|]. rewrite not_elem_of_cons. split; [lia|done].
    + rewrite length_app. split; [constructor; [|done]|constructor; [cbn; lia|]].
      * intros Hin. eapply Forall_forall in H4; [|done]. lia.
      * eapply Forall_impl; [exact H4|]. cbn. lia.
  - unfold bucket_evict. case_bool_decide; [|by split]. cbn [fst]. split; cbn [fst snd set_buckets mb_buckets mb_heap]; [| |done].
    + intros ip1 ip2 x [_ ?]%lookup_delete_Some [_ ?]%lookup_delete_Some. by eapply H1.
    + intros ip1 x [_ ?]%lookup_delete_Some. by eapply H2.
  - apply NoDup_app in H3 as (N1 & N2 & [N3 N4]%NoDup_cons). apply Forall_app in H4 as [F1 [Fi F2]%Forall_cons].
    assert (NoDup (m1 ++ m2) ∧ Forall (λ x, (x < length (mb_heap mb))%nat) (m1 ++ m2)) as Hm.
    { split; [|by apply Forall_app]. apply NoDup_app. split_and!; [done| |done]. intros x Hx Hx2. apply (N2 x Hx). by right. }
    assert (id ∉ m1 ++ m2) as Hid.
    { rewrite elem_of_app. intros [Hx|Hx]; [|done]. apply (N2 id Hx). left. }
    unfold bucket_insert. destruct (mb_buckets mb !! ip) as [x|] eqn:E; split; cbn [fst snd set_buckets mb_buckets mb_heap]; try done.
    + intros ip1 y Hy. destruct (H2 _ _ Hy) as [? Hn]. split; [done|]. intros Hin. apply Hn. rewrite elem_of_app in Hin |- *.
      destruct Hin; [by left|right; by right].
    + intros ip1 ip2 y. rewrite !lookup_insert_Some. intros [[<- <-]|[? Ha]] [[<- Hb]|[? Hb]]; [done| | |by eapply H1].
      * destruct (H2 _ _ Hb) as [_ Hn]. destruct Hn. rewrite elem_of_app. right. left.
      * subst. destruct (H2 _ _ Ha) as [_ Hn]. destruct Hn. rewrite elem_of_app. right. left.
    + intros ip1 y. rewrite lookup_insert_Some. intros [[<- <-]|[? Hy]]; [done|]. destruct (H2 _ _ Hy) as [? Hn]. split; [done|].
      intros Hin. apply Hn. rewrite elem_of_app in Hin |- *. destruct Hin; [by left|right; by right].
  - unfold take_at. destruct (mb_heap mb !! id) as [b|]; [|by split]. destruct (take b now) as [b' r].
    split; cbn [fst snd set_heap mb_buckets mb_heap]; rewrite ?length_insert; done.
Qed.
(** In every interleaving of requests. *)
Lemma buckets_separate mb s : mb_buckets mb = ∅ → rtc rl_step (mb, []) s → separate s.
Proof.
  intros E H. apply (rtc_invariant rl_step separate rl_step_separate _ _ H). split; cbn; try rewrite E; try done.
  split; constructor.
Qed.

(** The map of clients only grows: an expired bucket is replaced when its own client
    comes back, and never otherwise. *)
Lemma clients_never_forgotten mb ip ip' now : is_Some (mb_buckets mb !! ip') → is_Some (mb_buckets (getOrCreateBucket mb ip now).1 !! ip').
Proof.
  intros H. unfold getOrCreateBucket, bucket_read. destruct (mb_buckets mb !! ip) as [id|] eqn:E.
  - destruct (isBucketExpired mb id now); [|done]. unfold bucket_evict. rewrite bool_decide_true by done.
    cbn [alloc fst snd]. unfold bucket_insert. cbn [set_heap set_buckets mb_buckets mb_heap]. rewrite lookup_delete_eq.
    cbn [fst set_buckets mb_buckets]. destruct (decide (ip = ip')) as [<-|Hne]; [rewrite lookup_insert_eq; by eexists|].
    by rewrite lookup_insert_ne, lookup_delete_ne.
  - cbn [alloc fst snd]. unfold bucket_insert. cbn [set_heap mb_buckets]. rewrite E. cbn [fst set_buckets mb_buckets].
    destruct (decide (ip = ip')) as [<-|Hne]; [rewrite lookup_insert_eq; by eexists|]. by rewrite lookup_insert_ne.
Qed.

(** A refused request is answered with 429 at once and ends the chain. *)
Lemma refused now next mb id ctx mb' t : mb_byIP mb = false → mb_bucket mb = Some id → take_at mb id now = (mb', Some (false, t)) →
  rw_sent (Resp ctx) = None →
  ∃ ctx' h, ratelimit_handle now next mb ctx = (mb', (ctx', Returned)) ∧ IsDone ctx' = true ∧
    rw_sent (Resp ctx') = Some (429, h) ∧ hdr_get h "X-RateLimit-Remaining" = "0" ∧
    rw_body (Resp ctx') = rw_body (Resp ctx) ++ bytes_of "Too Many Requests".
Proof.
  intros H1 H2 H3 H4. unfold ratelimit_handle. rewrite H1, H2, H3. destruct ctx as [rw]. cbn in H4. destruct rw as [h sent body].
  cbn in H4. subst sent. do 2 eexists. split; [reflexivity|]. cbn. split_and!; [done|done| |done].
  unfold hdr_get, hdr_values, hdr_set. by rewrite lookup_insert_eq.
Qed.
End clients.

Example client_address :
  clientIP (mkReq "GET" "/" ∅ ∅ "10.0.0.1:80" "" 0 true) = "10.0.0.1" ∧
  clientIP (mkReq "GET" "/" ∅ ∅ "[::1]:80" "" 0 true) = "::1" ∧
  clientIP (mkReq "GET" "/" ∅ (hdr_set ∅ "X-Forwarded-For" "1.2.3.4, 5.6.7.8") "10.0.0.1:80" "" 0 true) = "1.2.3.4".
Proof. by vm_compute. Qed.
