(* ===== verification/GrpcRegistry.v ===== *)
(** * Service registration and discovery

    Models [src/micro/registry/types.go], [src/micro/registry/etcd/registry.go],
    [src/micro/server.go], [src/micro/client.go] and [src/micro/grpc_resolver.go].
    The etcd server, [encoding/json], the listener and the gRPC library are
    parameters.  The [Registry] interface is a class over the state of the world, so
    that servers and resolvers are defined against it; the etcd implementation is an
    instance.  A pointer to a registry is a number; a call through a pointer that
    leads nowhere panics. *)

From stdpp Require Import gmap strings.
From S2P Require Import Prelude GoStrings GrpcPickers.
Local Open Scope Z_scope.

(** Errors are opaque: the code only passes them on. *)
Definition gerr := string.

(** ** Types of the registry package *)
Record ServiceInstance := mkSI { Name : string; Address : string; Weight : Z; Group : string }.
#[global] Instance ServiceInstance_eq_dec : EqDecision ServiceInstance.
Proof. solve_decision. Defined.
Definition PUT : Z := 0.
Definition DELETE : Z := 1.
Record Event := mkEvent { ev_Type : Z }.
Inductive OpOption := WithPrefix.

(** The interface, for pointers [R] and the state [W] they lead into.  [Subscribe]
    returns the number of the subscription whose goroutine feeds the channel. *)
Class Registry (R W : Type) := {
  reg_Registry : R → ServiceInstance → W → W * res gerr unit;
  reg_UnRegistry : R → ServiceInstance → W → W * res gerr unit;
  reg_ListServices : R → string → list OpOption → W → W * res gerr (list ServiceInstance);
  reg_Subscribe : R → string → W → W * res gerr nat;
  reg_Close : R → W → W * res gerr unit }.

(** ** What the etcd registry calls *)
Class Etcd (E : Type) := {
  etcd_Put : string → string → nat → E → E * option gerr;      (** with a lease *)
  etcd_Delete : string → E → E * option gerr;
  etcd_Get : string → list OpOption → E → gerr + list (string * string);
  etcd_NewSession : E → E * (gerr + nat);
  etcd_CloseSession : nat → E → E * option gerr;
  (** What etcd does by itself when the keep-alives of a session do not arrive. *)
  etcd_Expire : nat → E → E }.
(** The keys a server holds, with their values and leases. *)
Abbreviation keys := (gmap string (string * nat)).
Definition under (p : string) (m : keys) : keys := filter (λ kv, String.prefix p kv.1 = true) m.
Definition revoke (l : nat) (m : keys) : keys := filter (λ kv, kv.2.2 ≠ l) m.

(** Documented behaviour: an acknowledged write has happened, a failed one may have;
    a read of a prefix returns the keys with it; a session has a lease of its own and
    closing it revokes the keys under the lease, and so does the end of the lease. *)
Class EtcdLaws (E : Type) `{Etcd E} (view : E → keys) (granted : E → gset nat) : Prop := {
  put_ok k v l e : (etcd_Put k v l e).2 = None → view (etcd_Put k v l e).1 = <[k := (v, l)]> (view e);
  put_err k v l e : view (etcd_Put k v l e).1 = view e ∨ view (etcd_Put k v l e).1 = <[k := (v, l)]> (view e);
  put_granted k v l e : granted (etcd_Put k v l e).1 = granted e;
  delete_ok k e : (etcd_Delete k e).2 = None → view (etcd_Delete k e).1 = delete k (view e);
  delete_err k e : view (etcd_Delete k e).1 = view e ∨ view (etcd_Delete k e).1 = delete k (view e);
  delete_granted k e : granted (etcd_Delete k e).1 = granted e;
  get_prefix p e kvs : etcd_Get p [WithPrefix] e = inr kvs → kvs ≡ₚ map_to_list (fst <$> under p (view e));
  session_view e : view (etcd_NewSession e).1 = view e;
  session_granted e : granted e ⊆ granted (etcd_NewSession e).1;
  session_fresh e l : (etcd_NewSession e).2 = inr l → l ∉ granted e ∧ l ∈ granted (etcd_NewSession e).1;
  close_ok l e : (etcd_CloseSession l e).2 = None → view (etcd_CloseSession l e).1 = revoke l (view e);
  close_err l e : view (etcd_CloseSession l e).1 = view e ∨ view (etcd_CloseSession l e).1 = revoke l (view e);
  close_granted l e : granted (etcd_CloseSession l e).1 = granted e;
  expire_view l e : view (etcd_Expire l e) = revoke l (view e);
  expire_granted l e : granted (etcd_Expire l e) = granted e }.

(** [json.Marshal] and [json.Unmarshal] on instances.  Text survives when it is valid
    UTF-8: [json_ok]. *)
Class Json := {
  json_Marshal : ServiceInstance → gerr + string;
  json_Unmarshal : string → gerr + ServiceInstance }.
Class JsonLaws `{Json} (json_ok : ServiceInstance → Prop) : Prop := {
  json_roundtrip si s : json_ok si → json_Marshal si = inr s → json_Unmarshal s = inr si }.

(** ** The etcd registry *)
Definition instanceKey (si : ServiceInstance) : string := "/micro/" +:+ Name si +:+ "/" +:+ Address si.
Definition serviceKey (sn : string) : string := "/micro/" +:+ sn.

Section etcd.
Context {E : Type} `{Etcd E} `{Json}.

Record etcdRegistry := mkReg { sess : nat; cancels : list nat }.
(** The context a subscription runs under and what it watches. *)
Record subscription := mkSub { sub_ctx : nat; sub_key : string; sub_opts : list OpOption }.
(** [w_ctxs]: the cancellable contexts made so far, and whether they are cancelled. *)
Record world := mkWorld {
  w_etcd : E; w_regs : list etcdRegistry; w_ctxs : list bool; w_subs : list subscription }.
Definition set_etcd (e : E) (w : world) : world := mkWorld e (w_regs w) (w_ctxs w) (w_subs w).
Definition set_regs (rs : list etcdRegistry) (w : world) : world := mkWorld (w_etcd w) rs (w_ctxs w) (w_subs w).

Definition err_res (o : option gerr) : res gerr unit := match o with None => Ok () | Some e => Err e end.
(** A call through a pointer. *)
Definition deref {A} (r : nat) (w : world) (k : etcdRegistry → world * res gerr A) : world * res gerr A :=
  match w_regs w !! r with Some reg => k reg | None => (w, Panic) end.

Definition NewRegistry (w : world) : world * res gerr nat :=
  let '(e, o) := etcd_NewSession (w_etcd w) in
  match o with
  | inl err => (set_etcd e w, Err err)
  | inr l => (mkWorld e (w_regs w ++ [mkReg l []]) (w_ctxs w) (w_subs w), Ok (length (w_regs w)))
  end.

Definition Registry_Registry (r : nat) (si : ServiceInstance) (w : world) : world * res gerr unit :=
  match json_Marshal si with
  | inl err => (w, Err err)
  | inr data =>
      deref r w (λ reg,
        let '(e, o) := etcd_Put (instanceKey si) data (sess reg) (w_etcd w) in (set_etcd e w, err_res o))
  end.

Definition Registry_UnRegistry (r : nat) (si : ServiceInstance) (w : world) : world * res gerr unit :=
  deref r w (λ _, let '(e, o) := etcd_Delete (instanceKey si) (w_etcd w) in (set_etcd e w, err_res o)).

(** The loop over the answer; the first value that does not decode ends it. *)
Fixpoint decode_all (kvs : list (string * string)) : res gerr (list ServiceInstance) :=
  match kvs with
  | [] => Ok []
  | (_, v) :: kvs' =>
      match json_Unmarshal v with
      | inl err => Err err
      | inr si => res_map (cons si) (decode_all kvs')
      end
  end.
Definition Registry_ListServices (r : nat) (serviceName : string) (opts : list OpOption) (w : world)
  : world * res gerr (list ServiceInstance) :=
  deref r w (λ _,
    (w, match etcd_Get (serviceKey serviceName) opts (w_etcd w) with
        | inl err => Err err
        | inr kvs => decode_all kvs
        end)).

Definition Registry_Subscribe (r : nat) (serviceName : string) (w : world) : world * res gerr nat :=
  deref r w (λ reg,
    let ctx := length (w_ctxs w) in
    (mkWorld (w_etcd w) (<[r := mkReg (sess reg) (cancels reg ++ [ctx])]> (w_regs w))
             (w_ctxs w ++ [false]) (w_subs w ++ [mkSub ctx (serviceKey serviceName) [WithPrefix]]),
     Ok (length (w_subs w)))).

Definition cancel (ctx : nat) (ctxs : list bool) : list bool := <[ctx := true]> ctxs.
Definition Registry_Close (r : nat) (w : world) : world * res gerr unit :=
  deref r w (λ reg,
    let '(e, o) := etcd_CloseSession (sess reg) (w_etcd w) in
    (mkWorld e (<[r := mkReg (sess reg) []]> (w_regs w)) (foldl (λ cs c, cancel c cs) (w_ctxs w) (cancels reg)) (w_subs w),
     err_res o)).

#[global] Instance etcd_Registry : Registry nat world := {
  reg_Registry := Registry_Registry;
  reg_UnRegistry := Registry_UnRegistry;
  reg_ListServices := Registry_ListServices;
  reg_Subscribe := Registry_Subscribe;
  reg_Close := Registry_Close }.
End etcd.
Arguments world : clear implicits.

(** ** Server *)
Section server.
Context {R W : Type} `{Registry R W}.
(** [s_listener]: the address the listener is bound to; [s_stopped]: [GracefulStop]
    was called. *)
Record Server := mkServer {
  s_name : string; s_registry : option R; s_registerTimeout : Z; s_listener : option string;
  s_weight : Z; s_group : string; s_stopped : bool }.
Abbreviation ServerOption := (Server → Server).
Definition ServerWithRegistry (reg : R) : ServerOption := λ s,
  mkServer (s_name s) (Some reg) (s_registerTimeout s) (s_listener s) (s_weight s) (s_group s) (s_stopped s).
Definition ServerWithWeight (weight : Z) : ServerOption := λ s,
  mkServer (s_name s) (s_registry s) (s_registerTimeout s) (s_listener s) weight (s_group s) (s_stopped s).
Definition ServerWithGroup (group : string) : ServerOption := λ s,
  mkServer (s_name s) (s_registry s) (s_registerTimeout s) (s_listener s) (s_weight s) group (s_stopped s).
Definition set_listener (l : option string) : ServerOption := λ s,
  mkServer (s_name s) (s_registry s) (s_registerTimeout s) l (s_weight s) (s_group s) (s_stopped s).
Definition GracefulStop : ServerOption := λ s,
  mkServer (s_name s) (s_registry s) (s_registerTimeout s) (s_listener s) (s_weight s) (s_group s) true.
Definition NewServer (serviceName : string) (registerTimeout : Z) (opts : list ServerOption) : Server :=
  foldl (λ s opt, opt s) (mkServer serviceName None registerTimeout None 0 "" false) opts.

(** [net.Listen]: the address bound. *)
Context (Listen : string → gerr + string).
(** What the world does until [Serve] returns. *)
Context (Serve : string → W → W * option gerr).

Definition self_instance (s : Server) (bound : string) : ServiceInstance :=
  mkSI (s_name s) bound (s_weight s) (s_group s).
(** [Start] up to the call of [Serve]. *)
Definition Start_register (s : Server) (addr : string) (w : W) : Server * W * res gerr string :=
  match Listen addr with
  | inl err => (set_listener None s, w, Err err)
  | inr bound =>
      let s := set_listener (Some bound) s in
      match s_registry s with
      | None => (s, w, Ok bound)
      | Some r =>
          let '(w, o) := reg_Registry r (self_instance s bound) w in
          (s, w, res_map (λ _, bound) o)
      end
  end.
Definition Start (s : Server) (addr : string) (w : W) : Server * W * res gerr unit :=
  match Start_register s addr w with
  | (s, w, Ok bound) => let '(w, o) := Serve bound w in (s, w, err_res o)
  | (s, w, Err err) => (s, w, Err err)
  | (s, w, Panic) => (s, w, Panic)
  end.
Definition Close (s : Server) (w : W) : Server * W * res gerr unit :=
  match s_registry s with
  | None => (GracefulStop s, w, Ok ())
  | Some r =>
      match reg_Close r w with
      | (w, Ok _) => (GracefulStop s, w, Ok ())
      | (w, Err err) => (s, w, Err err)
      | (w, Panic) => (s, w, Panic)
      end
  end.
End server.
Arguments Server R : clear implicits.

(** ** Resolver *)
(** A [resolver.Address]: its text and its attributes. *)
Record resAddress := mkResAddr { ra_Addr : string; ra_attrs : GrpcPickers.address }.
Definition to_address (si : ServiceInstance) : resAddress :=
  mkResAddr (Address si) (mkAddr (Some (Weight si)) (Some (Group si))).

(** The connection of the gRPC library that a resolver reports to. *)
Class ClientConn (C : Type) := {
  UpdateState : list resAddress → C → C * option gerr;
  ReportError : gerr → C → C }.

Section resolver.
Context {R W C : Type} `{Registry R W} `{ClientConn C}.
Record grpcResolverBuilder := mkBuilder { b_r : R; b_timeout : Z }.
Definition NewResolverBuilder (r : R) (timeout : Z) : res gerr grpcResolverBuilder := Ok (mkBuilder r timeout).
Definition Scheme : string := "registry".

(** [g_close]: the channel is closed. *)
Record grpcResolver := mkResolver { g_target : string; g_r : R; g_timeout : Z; g_close : bool }.

(** [None]: the call panicked. *)
Definition resolve (g : grpcResolver) (w : W) (cc : C) : option (W * C) :=
  match reg_ListServices (g_r g) (g_target g) [WithPrefix] w with
  | (w, Panic) => None
  | (w, Err err) => Some (w, ReportError err cc)
  | (w, Ok serviceInstances) =>
      let '(cc, o) := UpdateState (map to_address serviceInstances) cc in
      Some (w, match o with Some err => ReportError err cc | None => cc end)
  end.
Definition ResolveNow : grpcResolver → W → C → option (W * C) := resolve.

(** [Build] resolves, then starts [watch] as a goroutine. *)
Definition Build (b : grpcResolverBuilder) (target : string) (w : W) (cc : C) : option (grpcResolver * W * C) :=
  let g := mkResolver target (b_r b) (b_timeout b) false in
  '(w, cc) ← resolve g w cc; Some (g, w, cc).
(** Closing a closed channel panics. *)
Definition resolver_Close (g : grpcResolver) : option grpcResolver :=
  if g_close g then None else Some (mkResolver (g_target g) (g_r g) (g_timeout g) true).
End resolver.
Arguments grpcResolverBuilder R : clear implicits.
Arguments grpcResolver R : clear implicits.

(** ** Client *)
Section client.
Context {R Conn : Type}.
Inductive DialOption :=
| WithResolvers (b : grpcResolverBuilder R)
| WithTransportCredentials_insecure
| CallerOption (n : nat).
Record Client := mkClient { c_r : option R; c_timeout : Z }.
Definition ClientWithRegistry (r : R) (timeout : Z) : Client → Client := λ _, mkClient (Some r) timeout.
Definition NewClient (opts : list (Client → Client)) : Client := foldl (λ c opt, opt c) (mkClient None 0) opts.

(** [grpc.NewClient] *)
Context (grpc_NewClient : string → list DialOption → res gerr Conn).
Definition Dial (c : Client) (serviceName : string) (dialOpts : list DialOption) : res gerr Conn :=
  res_bind (match c_r c with
            | Some r => res_map (λ b, [WithResolvers b]) (NewResolverBuilder r (c_timeout c))
            | None => Ok []
            end) (λ opts,
  let opts := opts ++ [WithTransportCredentials_insecure] in
  let opts := if bool_decide (0 < Z.of_nat (length dialOpts)) then opts ++ dialOpts else opts in
  grpc_NewClient ("registry:///" +:+ serviceName) opts).
End client.

(** ** Watching

    The goroutine of [Subscribe] that forwards events over an unbuffered channel, and
    the goroutine of [watch] that receives from it. *)
Record WatchResponse := mkWR { wr_Err : bool; wr_Canceled : bool; wr_Events : list Z }.
Inductive fwd_pc := FSelect | FSend (evs : list Event) | FDone.
(** The next stop of the loop over the events. *)
Definition fwd_next (evs : list Event) : fwd_pc := match evs with [] => FSelect | _ => FSend evs end.
Definition fwd_receive (resp : WatchResponse) : fwd_pc :=
  if wr_Err resp then FSelect
  else if wr_Canceled resp then FDone
  else fwd_next (map mkEvent (wr_Events resp)).
Inductive watch_pc := WSubscribe | WSelect | WResolve | WDone.

Section watching.
Context {E : Type} `{Etcd E} `{Json} {C : Type} `{ClientConn C}.

(** A resolver with the two goroutines; [y_sub]: the subscription, once made;
    [y_responses]: what etcd has sent to the watch and was not read yet. *)
Record system := mkSys {
  y_w : world E; y_cc : C; y_g : grpcResolver nat; y_watch : watch_pc; y_sub : option nat;
  y_fwd : fwd_pc; y_responses : list WatchResponse }.
Definition sub_cancelled (w : world E) (i : nat) : Prop :=
  ∃ s, w_subs w !! i = Some s ∧ w_ctxs w !! sub_ctx s = Some true.

(** Steps of the two goroutines. *)
Inductive go_step : system → system → Prop :=
| go_subscribe w cc g o f q w' i : reg_Subscribe (g_r g) (g_target g) w = (w', Ok i) →
    go_step (mkSys w cc g WSubscribe o f q) (mkSys w' cc g WSelect (Some i) FSelect [])
| go_subscribe_err w cc g o f q w' err : reg_Subscribe (g_r g) (g_target g) w = (w', Err err) →
    go_step (mkSys w cc g WSubscribe o f q) (mkSys w' (ReportError err cc) g WDone None FDone [])
| go_read w cc g p i r q :
    go_step (mkSys w cc g p (Some i) FSelect (r :: q)) (mkSys w cc g p (Some i) (fwd_receive r) q)
| go_ctx_done w cc g p i q : sub_cancelled w i →
    go_step (mkSys w cc g p (Some i) FSelect q) (mkSys w cc g p (Some i) FDone q)
| go_handover w cc g o ev evs q :
    go_step (mkSys w cc g WSelect o (FSend (ev :: evs)) q) (mkSys w cc g WResolve o (fwd_next evs) q)
| go_watch_closed w cc g o f q : g_close g = true →
    go_step (mkSys w cc g WSelect o f q) (mkSys w cc g WDone o f q)
| go_resolve w cc g o f q w' cc' : resolve g w cc = Some (w', cc') →
    go_step (mkSys w cc g WResolve o f q) (mkSys w' cc' g WDone o f q).

(** What others do: any call on any registry, with the responses etcd sends to the
    watch; gRPC closing the resolver. *)
Inductive env_step : system → system → Prop :=
| env_world w cc g p o f q w' rs : env_step (mkSys w cc g p o f q) (mkSys w' cc g p o f (q ++ rs))
| env_close w cc g p o f q g' : resolver_Close g = Some g' → env_step (mkSys w cc g p o f q) (mkSys w cc g' p o f q).
(** gRPC asks for a new resolution. *)
Inductive now_step : system → system → Prop :=
| now_resolve w cc g p o f q w' cc' : ResolveNow g w cc = Some (w', cc') →
    now_step (mkSys w cc g p o f q) (mkSys w' cc' g p o f q).
Definition quiet_step (y y' : system) : Prop := go_step y y' ∨ env_step y y'.
(** The state [Build] leaves behind. *)
Definition built (g : grpcResolver nat) (w : world E) (cc : C) : system := mkSys w cc g WSubscribe None FDone [].
End watching.
Arguments system E C : clear implicits.
