(* ===== verification/GrpcRegistryFacts.v ===== *)
(** * Facts about service registration and discovery

    The etcd registry implements a directory of instances by key and owner; what a
    server registers is what resolvers report; what the watching goroutines do after
    an event. *)

From stdpp Require Import gmap strings pretty.
From S2P Require Import Prelude GoStrings Decimal GrpcPickers GrpcRegistry.
Local Open Scope Z_scope.

(** ** Strings *)
Lemma prefix_app p s t : String.prefix (p +:+ s) (p +:+ t) = String.prefix s t.
Proof.
  induction p as [|c p IH]; [done|]. rewrite !app_cons. simpl.
  destruct (ascii_dec c c) as [_|Hc]; [exact IH|done].
Qed.
(** A prefix without the separator is a prefix of the first part. *)
Lemma prefix_first_part c p s t : contains1 c p = false →
  String.prefix p (s +:+ String c t) = String.prefix p s.
Proof.
  revert s. induction p as [|d p IH]; intros s Hp; [by destruct s|]. simpl in Hp.
  apply orb_false_iff in Hp as [Hd Hp]. destruct s as [|e s]; simpl.
  - destruct (ascii_dec d c) as [->|]; [|done]. by rewrite bool_decide_eq_true_2 in Hd.
  - destruct (ascii_dec d e); [by apply IH|done].
Qed.
Lemma prefix_refl s : String.prefix s s = true.
Proof. induction s as [|c s IH]; simpl; [done|]. by destruct (ascii_dec c c). Qed.

Lemma service_of_instance n si : contains1 "/" n = false →
  String.prefix (serviceKey n) (instanceKey si) = String.prefix n (Name si).
Proof.
  intros Hn. unfold serviceKey, instanceKey. rewrite prefix_app, app_cons, app_nil_l. by apply prefix_first_part.
Qed.

(** ** The directory *)
(** Instances by key, each with the registry that holds it. *)
Abbreviation directory := (gmap string (ServiceInstance * nat)).

Inductive op :=
| ONew
| ORegister (r : nat) (si : ServiceInstance)
| OUnRegister (r : nat) (si : ServiceInstance)
| OList (r : nat) (n : string)
| OSubscribe (r : nat) (n : string)
| OClose (r : nat)
| OExpire (r : nat).      (** no call: the lease of the registry's session ends *)

Definition effect (o : op) (d : directory) : directory :=
  match o with
  | ORegister r si => <[instanceKey si := (si, r)]> d
  | OUnRegister _ si => delete (instanceKey si) d
  | OClose r | OExpire r => filter (λ kv, kv.2.2 ≠ r) d
  | _ => d
  end.
(** A call that succeeded had its effect; a failed one may have had it. *)
Definition spec_step (o : op) (ok : bool) (d d' : directory) : Prop :=
  d' = effect o d ∨ ok = false ∧ d' = d.
Inductive spec_run : list (op * bool) → directory → directory → Prop :=
| run_nil d : spec_run [] d d
| run_cons o ok l d d' d'' : spec_step o ok d d' → spec_run l d' d'' → spec_run ((o, ok) :: l) d d''.

(** The instances a directory lists for a service. *)
Definition listed (n : string) (d : directory) : list ServiceInstance :=
  filter (λ si, String.prefix n (Name si) = true) (map (λ kv, kv.2.1) (map_to_list d)).
Definition named (n : string) (d : directory) : list ServiceInstance :=
  filter (λ si, Name si = n) (map (λ kv, kv.2.1) (map_to_list d)).

Definition is_ok {E A} (o : res E A) : bool := match o with Ok _ => true | _ => false end.

Section registry.
Context {E : Type} `{Etcd E} `{Json} {view : E → keys} {granted : E → gset nat} {json_ok : ServiceInstance → Prop}.
Context {EL : EtcdLaws E view granted} {JL : JsonLaws json_ok}.

Definition exec (o : op) (w : world E) : world E * bool :=
  match o with
  | ONew => let '(w, x) := NewRegistry w in (w, is_ok x)
  | ORegister r si => let '(w, x) := reg_Registry r si w in (w, is_ok x)
  | OUnRegister r si => let '(w, x) := reg_UnRegistry r si w in (w, is_ok x)
  | OList r n => let '(w, x) := reg_ListServices r n [WithPrefix] w in (w, is_ok x)
  | OSubscribe r n => let '(w, x) := reg_Subscribe r n w in (w, is_ok x)
  | OClose r => let '(w, x) := reg_Close r w in (w, is_ok x)
  | OExpire r => match w_regs w !! r with
                 | Some reg => (set_etcd (etcd_Expire (sess reg) (w_etcd w)) w, true)
                 | None => (w, false)
                 end
  end.
Fixpoint exec_all (ops : list op) (w : world E) : world E * list (op * bool) :=
  match ops with
  | [] => (w, [])
  | o :: ops => let '(w, ok) := exec o w in let '(w, l) := exec_all ops w in (w, (o, ok) :: l)
  end.
Definition op_ok (o : op) : Prop := match o with ORegister _ si => json_ok si | _ => True end.

(** A stored value and lease stand for an instance and its owner. *)
Definition stands_for (rs : list etcdRegistry) (x : string * nat) (y : ServiceInstance * nat) : Prop :=
  json_Unmarshal x.1 = inr y.1 ∧ sess <$> rs !! y.2 = Some x.2.
Definition keys_sim (rs : list etcdRegistry) (m : keys) (d : directory) : Prop :=
  ∀ k, option_Forall2 (stands_for rs) (m !! k) (d !! k).
Record sim (w : world E) (d : directory) : Prop := {
  sim_keys : keys_sim (w_regs w) (view (w_etcd w)) d;
  sim_keyed : map_Forall (λ k y, k = instanceKey y.1) d;
  sim_leases : NoDup (map sess (w_regs w));
  sim_granted : Forall (λ reg, sess reg ∈ granted (w_etcd w)) (w_regs w) }.

(** *** Effects on keys *)
Lemma keys_sim_insert rs m d k x y : keys_sim rs m d → stands_for rs x y → keys_sim rs (<[k := x]> m) (<[k := y]> d).
Proof. intros Hm Hx j. destruct (decide (k = j)) as [->|]; simplify_map_eq; [by constructor|apply Hm]. Qed.
Lemma keys_sim_delete rs m d k : keys_sim rs m d → keys_sim rs (delete k m) (delete k d).
Proof. intros Hm j. destruct (decide (k = j)) as [->|]; simplify_map_eq; [constructor|apply Hm]. Qed.
(** Leases tell registries apart. *)
Lemma lease_owner rs x y r reg : NoDup (map sess rs) → stands_for rs x y → rs !! r = Some reg →
  x.2 = sess reg ↔ y.2 = r.
Proof.
  intros Hnd [_ Hy] Hr. split.
  - intros Hx. apply (NoDup_lookup (map sess rs) _ _ (sess reg) Hnd); rewrite list_lookup_fmap; [by rewrite Hy, Hx|by rewrite Hr].
  - intros Hyr. rewrite Hyr, Hr in Hy. by simplify_eq/=.
Qed.
Lemma keys_sim_revoke rs m d r reg : keys_sim rs m d → NoDup (map sess rs) → rs !! r = Some reg →
  keys_sim rs (revoke (sess reg) m) (filter (λ kv, kv.2.2 ≠ r) d).
Proof.
  intros Hm Hnd Hr j. unfold revoke. specialize (Hm j). rewrite !map_lookup_filter.
  inversion Hm as [x y Hxy Hx Hy|]; simpl; [|constructor].
  pose proof (lease_owner rs x y r reg Hnd Hxy Hr) as Hl.
  destruct (decide (x.2 = sess reg)) as [Hd|Hd]; case_guard; case_guard; simpl; try (by constructor); tauto.
Qed.
(** Fields other than the lease do not matter. *)
Lemma stands_for_sess rs rs' x y : (∀ i, rs !! i = None ∨ sess <$> rs' !! i = sess <$> rs !! i) →
  stands_for rs x y → stands_for rs' x y.
Proof. intros Hs [Hj Hy]. split; [done|]. destruct (Hs y.2) as [Hn|Hn]; [by rewrite Hn in Hy|by rewrite Hn]. Qed.
Lemma keys_sim_sess rs rs' m d : (∀ i, rs !! i = None ∨ sess <$> rs' !! i = sess <$> rs !! i) →
  keys_sim rs m d → keys_sim rs' m d.
Proof. intros Hs Hm k. destruct (Hm k); constructor. by apply (stands_for_sess rs). Qed.
Lemma update_sess (rs : list etcdRegistry) r reg cs : rs !! r = Some reg → map sess (<[r := mkReg (sess reg) cs]> rs) = map sess rs.
Proof.
  intros Hr. apply list_eq. intros i. rewrite !list_lookup_fmap. destruct (decide (i = r)) as [->|].
  - rewrite list_lookup_insert_eq by (by apply lookup_lt_Some in Hr). by rewrite Hr.
  - by rewrite list_lookup_insert_ne.
Qed.
Lemma map_sess_lookup (rs rs' : list etcdRegistry) : map sess rs' = map sess rs → ∀ i, sess <$> rs' !! i = sess <$> rs !! i.
Proof. intros Hs i. rewrite <- !list_lookup_fmap. change (map sess rs' !! i = map sess rs !! i). by rewrite Hs. Qed.

(** *** Simulation *)
Lemma keyed_effect o d : map_Forall (λ k y, k = instanceKey y.1) d → map_Forall (λ k y, k = instanceKey y.1) (effect o d).
Proof.
  intros Hd. destruct o; simpl; try done.
  - by apply map_Forall_insert_2.
  - by apply map_Forall_delete.
  - intros k y [Hy _]%map_lookup_filter_Some. by apply Hd.
  - intros k y [Hy _]%map_lookup_filter_Some. by apply Hd.
Qed.
(** A change of the server that keeps the leases and the granted set. *)
Lemma sim_change w w' d d' : sim w d → map sess (w_regs w') = map sess (w_regs w) →
  granted (w_etcd w') = granted (w_etcd w) → keys_sim (w_regs w) (view (w_etcd w')) d' →
  map_Forall (λ k y, k = instanceKey y.1) d' → sim w' d'.
Proof.
  intros [_ _ Hnd Hg] Hs Hgr Hk Hd. split; [|done|by rewrite Hs|].
  - eapply keys_sim_sess, Hk. intros i. right. by apply map_sess_lookup.
  - rewrite Hgr. apply Forall_map with (f := sess) (P := λ l, l ∈ granted (w_etcd w)). rewrite Hs. by apply Forall_map.
Qed.
Lemma sim_new w d : sim w d → sim (NewRegistry w).1 d.
Proof.
  intros [Hk Hd Hnd Hg]. unfold NewRegistry. pose proof (session_view (w_etcd w)) as Hv.
  pose proof (session_granted (w_etcd w)) as Hgr. pose proof (session_fresh (w_etcd w)) as Hf.
  destruct (etcd_NewSession (w_etcd w)) as [e [err|l]]; simpl in *.
  - split; simpl; [by rewrite Hv|done..|]. eapply Forall_impl; [done|]. set_solver.
  - destruct (Hf l eq_refl) as [Hl Hl']. split; simpl; [|done| |].
    + rewrite Hv. eapply keys_sim_sess, Hk. intros i. destruct (w_regs w !! i) as [reg|] eqn:Hi; [right|by left].
      by rewrite (lookup_app_l_Some _ _ _ _ Hi).
    + rewrite map_app. apply NoDup_app. split; [done|]. split; [|apply NoDup_singleton].
      intros l' Hin. simpl. rewrite list_elem_of_singleton. intros ->. apply list_elem_of_fmap in Hin as (reg & -> & Hin).
      rewrite Forall_forall in Hg. by apply Hl, Hg.
    + apply Forall_app. split; [|by constructor]. eapply Forall_impl; [done|]. set_solver.
Qed.
(** What one call does to a directory. *)
Definition simulates (o : op) (ok : bool) (d : directory) (w' : world E) : Prop :=
  ∃ d', spec_step o ok d d' ∧ sim w' d'.
Lemma simulates_stay o d w' : sim w' d → effect o d = d → ∀ ok, simulates o ok d w'.
Proof. intros Hw He ok. exists d. split; [left; by rewrite He|done]. Qed.
Lemma simulates_failed o d w' : sim w' d → simulates o false d w'.
Proof. intros Hw. exists d. split; [by right|done]. Qed.
(** A write with an error that leaves the effect open. *)
Lemma simulates_write o (err : option gerr) d w w' :
  sim w d → map sess (w_regs w') = map sess (w_regs w) → granted (w_etcd w') = granted (w_etcd w) →
  (err = None → keys_sim (w_regs w) (view (w_etcd w')) (effect o d)) →
  (view (w_etcd w') = view (w_etcd w) ∨ keys_sim (w_regs w) (view (w_etcd w')) (effect o d)) →
  simulates o (is_ok (err_res err)) d w'.
Proof.
  intros Hw Hs Hg Hok [Hv|Herr]; [destruct err as [err|]|].
  - apply simulates_failed. apply (sim_change w _ d); try done; [rewrite Hv|]; apply Hw.
  - exists (effect o d). split; [by left|]. apply (sim_change w _ d); try done; [by apply Hok|apply keyed_effect, Hw].
  - exists (effect o d). split; [by left|]. apply (sim_change w _ d); try done. apply keyed_effect, Hw.
Qed.

Lemma register_simulates r si w d : sim w d → json_ok si →
  simulates (ORegister r si) (exec (ORegister r si) w).2 d (exec (ORegister r si) w).1.
Proof.
  intros Hw Hj. simpl. unfold Registry_Registry, deref. destruct (json_Marshal si) as [err|s] eqn:Hs; [by apply simulates_failed|].
  destruct (w_regs w !! r) as [reg|] eqn:Hr; [|by apply simulates_failed].
  assert (Hst : stands_for (w_regs w) (s, sess reg) (si, r)) by (split; simpl; [by eapply json_roundtrip|by rewrite Hr]).
  pose proof (put_ok (instanceKey si) s (sess reg) (w_etcd w)) as Hok.
  pose proof (put_err (instanceKey si) s (sess reg) (w_etcd w)) as Herr.
  pose proof (put_granted (instanceKey si) s (sess reg) (w_etcd w)) as Hg.
  destruct (etcd_Put _ _ _ _) as [e o]; simpl in *. apply (simulates_write _ _ _ w); try done; simpl.
  - intros Ho. rewrite Hok by done. by apply keys_sim_insert; [apply Hw|].
  - destruct Herr as [->| ->]; [by left|right]. by apply keys_sim_insert; [apply Hw|].
Qed.
Lemma unregister_simulates r si w d : sim w d →
  simulates (OUnRegister r si) (exec (OUnRegister r si) w).2 d (exec (OUnRegister r si) w).1.
Proof.
  intros Hw. simpl. unfold Registry_UnRegistry, deref.
  destruct (w_regs w !! r) as [reg|] eqn:Hr; [|by apply simulates_failed].
  pose proof (delete_ok (instanceKey si) (w_etcd w)) as Hok. pose proof (delete_err (instanceKey si) (w_etcd w)) as Herr.
  pose proof (delete_granted (instanceKey si) (w_etcd w)) as Hg.
  destruct (etcd_Delete _ _) as [e o]; simpl in *. apply (simulates_write _ _ _ w); try done; simpl.
  - intros Ho. rewrite Hok by done. apply keys_sim_delete, Hw.
  - destruct Herr as [->| ->]; [by left|right]. apply keys_sim_delete, Hw.
Qed.
Lemma close_simulates r w d : sim w d → simulates (OClose r) (exec (OClose r) w).2 d (exec (OClose r) w).1.
Proof.
  intros Hw. simpl. unfold Registry_Close, deref.
  destruct (w_regs w !! r) as [reg|] eqn:Hr; [|by apply simulates_failed].
  pose proof (close_ok (sess reg) (w_etcd w)) as Hok. pose proof (close_err (sess reg) (w_etcd w)) as Herr.
  pose proof (close_granted (sess reg) (w_etcd w)) as Hg.
  destruct (etcd_CloseSession _ _) as [e o]; simpl in *.
  apply (simulates_write _ _ _ w); try done; simpl; [by apply update_sess|..].
  - intros Ho. rewrite Hok by done. apply keys_sim_revoke; [apply Hw..|done].
  - destruct Herr as [->| ->]; [by left|right]. apply keys_sim_revoke; [apply Hw..|done].
Qed.
Lemma expire_simulates r w d : sim w d → simulates (OExpire r) (exec (OExpire r) w).2 d (exec (OExpire r) w).1.
Proof.
  intros Hw. simpl. destruct (w_regs w !! r) as [reg|] eqn:Hr; [|by apply simulates_failed].
  apply (simulates_write _ None _ w); try done; simpl; rewrite ?expire_granted, ?expire_view; try done.
  - intros _. apply keys_sim_revoke; [apply Hw..|done].
  - right. apply keys_sim_revoke; [apply Hw..|done].
Qed.
Lemma subscribe_simulates r n w d ok : sim w d → simulates (OSubscribe r n) ok d (exec (OSubscribe r n) w).1.
Proof.
  intros Hw. apply simulates_stay; [|done]. simpl. unfold Registry_Subscribe, deref.
  destruct (w_regs w !! r) as [reg|] eqn:Hr; [|done]. simpl.
  apply (sim_change w _ d); try done; simpl; [by apply update_sess|apply Hw..].
Qed.
Lemma exec_simulates o w d : sim w d → op_ok o → simulates o (exec o w).2 d (exec o w).1.
Proof.
  intros Hw Ho. destruct o as [|r si|r si|r n|r n|r|r].
  - simpl. pose proof (sim_new w d Hw) as Hn. destruct (NewRegistry w). by apply simulates_stay.
  - by apply register_simulates.
  - by apply unregister_simulates.
  - simpl. unfold Registry_ListServices, deref. destruct (w_regs w !! r); by apply simulates_stay.
  - by apply subscribe_simulates.
  - by apply close_simulates.
  - by apply expire_simulates.
Qed.
Lemma exec_all_simulates ops w d : sim w d → Forall op_ok ops →
  ∃ d', spec_run (exec_all ops w).2 d d' ∧ sim (exec_all ops w).1 d'.
Proof.
  revert w d. induction ops as [|o ops IH]; intros w d Hw Ho; simpl; [eexists; split; [constructor|done]|].
  inversion Ho as [|? ? Ho1 Ho2]; subst. destruct (exec_simulates o w d Hw Ho1) as (d1 & Hs & Hw1).
  destruct (exec o w) as [w1 ok]; simpl in *. destruct (IH w1 d1 Hw1 Ho2) as (d' & Hr & Hw').
  destruct (exec_all ops w1) as [w2 l]; simpl in *. exists d'. split; [by econstructor|done].
Qed.
Lemma sim_empty w : view (w_etcd w) = ∅ → w_regs w = [] → sim w ∅.
Proof.
  intros Hv Hr. split; rewrite ?Hv, ?Hr; simpl; [|apply map_Forall_empty|constructor|constructor].
  intros k. rewrite !lookup_empty. constructor.
Qed.

(** *** Listing *)
Lemma decode_all_ok kvs sis : Forall2 (λ kv si, json_Unmarshal kv.2 = inr si) kvs sis → decode_all kvs = Ok sis.
Proof. induction 1 as [|[k v] si kvs sis Hv _ IH]; simpl in *; [done|]. by rewrite Hv, IH. Qed.
Definition instance_at (d : directory) (k : string) : ServiceInstance :=
  default (mkSI "" "" 0 "") (fst <$> d !! k).
Lemma filter_map_comm {A B} (g : A → B) (P : A → Prop) (Q : B → Prop) `{∀ x, Decision (P x), ∀ x, Decision (Q x)} l :
  Forall (λ x, P x ↔ Q (g x)) l → map g (filter P l) = filter Q (map g l).
Proof.
  induction 1 as [|x l Hx _ IH]; [done|]. simpl. rewrite !filter_cons.
  destruct (decide (P x)), (decide (Q (g x))); simpl; try tauto; by rewrite IH.
Qed.
Lemma filtered_instances p (d : directory) (Q : ServiceInstance → Prop) `{∀ x, Decision (Q x)} :
  map_Forall (λ k y, String.prefix p k = true ↔ Q y.1) d →
  map (λ kv, kv.2.1) (map_to_list (filter (λ kv, String.prefix p kv.1 = true) d))
    ≡ₚ filter Q (map (λ kv, kv.2.1) (map_to_list d)).
Proof.
  intros HQ. rewrite map_filter_alt, map_to_list_to_map.
  - erewrite filter_map_comm; [done|]. apply Forall_forall. intros [k y] Hin%elem_of_map_to_list. by apply (HQ k y).
  - eapply sublist_NoDup; [apply (NoDup_fst_map_to_list d)|apply fmap_sublist, sublist_filter].
Qed.
Lemma list_decodes rs m d p kvs : keys_sim rs m d → kvs ≡ₚ map_to_list (fst <$> under p m) →
  ∃ l, decode_all kvs = Ok l ∧ l ≡ₚ map (λ kv, kv.2.1) (map_to_list (filter (λ kv, String.prefix p kv.1 = true) d)).
Proof.
  intros Hm Hk. exists (map (instance_at d) (map fst kvs)).
  assert (Hin : ∀ k v, (k, v) ∈ kvs → ∃ x, v = x.1 ∧ m !! k = Some x ∧ String.prefix p k = true).
  { intros k v. rewrite Hk, elem_of_map_to_list, lookup_fmap_Some. intros (x & <- & Hx).
    apply map_lookup_filter_Some in Hx as [Hx Hp]. by exists x. }
  split.
  - apply decode_all_ok. rewrite map_map. apply Forall2_fmap_r, Forall_Forall2_diag, Forall_forall.
    intros [k v] Hkv. destruct (Hin k v Hkv) as (x & -> & Hx & _). specialize (Hm k). rewrite Hx in Hm.
    inversion Hm as [? y [Hy _] Hy1 Hy2|]; subst. simpl. unfold instance_at. by rewrite <- Hy2.
  - transitivity (map (instance_at d) (map fst (map_to_list (filter (λ kv, String.prefix p kv.1 = true) d)))).
    + apply fmap_Permutation. rewrite Hk. apply NoDup_Permutation; [apply NoDup_fst_map_to_list..|]. intros k.
      rewrite !list_elem_of_fmap. split.
      * intros ([k' v] & -> & Hx%elem_of_map_to_list). apply lookup_fmap_Some in Hx as (x & <- & Hx).
        apply map_lookup_filter_Some in Hx as [Hx Hp]. specialize (Hm k'). rewrite Hx in Hm.
        inversion Hm as [? y Hxy Hx' Hy|]; subst. exists (k', y). split; [done|]. by apply elem_of_map_to_list, map_lookup_filter_Some.
      * intros ([k' y] & -> & Hy%elem_of_map_to_list). apply map_lookup_filter_Some in Hy as [Hy Hp].
        specialize (Hm k'). rewrite Hy in Hm. inversion Hm as [x ? Hxy Hx Hy'|]; subst. exists (k', x.1). split; [done|].
        apply elem_of_map_to_list. rewrite lookup_fmap. unfold under. by rewrite (map_lookup_filter_Some_2 _ _ _ x).
    + rewrite map_map. erewrite map_ext_in; [done|]. intros [k y] Hky. apply list_elem_of_In, elem_of_map_to_list in Hky.
      apply map_lookup_filter_Some in Hky as [Hky _]. unfold instance_at. simpl. by rewrite Hky.
Qed.
Lemma ListServices_lists w d r n : sim w d → is_Some (w_regs w !! r) → contains1 "/" n = false →
  match etcd_Get (serviceKey n) [WithPrefix] (w_etcd w) with
  | inl err => reg_ListServices r n [WithPrefix] w = (w, Err err)
  | inr _ => ∃ l, reg_ListServices r n [WithPrefix] w = (w, Ok l) ∧ l ≡ₚ listed n d
  end.
Proof.
  intros Hw [reg Hr] Hn. simpl. unfold Registry_ListServices, deref. rewrite Hr.
  destruct (etcd_Get _ _ _) as [err|kvs] eqn:Hg; [done|]. apply get_prefix in Hg.
  destruct (list_decodes _ _ d _ kvs (sim_keys _ _ Hw) Hg) as (l & -> & Hl). exists l. split; [done|]. rewrite Hl.
  apply filtered_instances. intros k y Hy. rewrite (sim_keyed _ _ Hw k y Hy), service_of_instance by done. done.
Qed.
Lemma listed_named n d : (∀ k y, d !! k = Some y → String.prefix n (Name y.1) = true → Name y.1 = n) →
  listed n d = named n d.
Proof.
  intros Hd. unfold listed, named.
  rewrite <- (map_id (filter _ _)), (filter_map_comm id _ (λ si, Name si = n)), map_id; [done|]. apply Forall_fmap, Forall_forall.
  intros [k y] Hy%elem_of_map_to_list. simpl. split; [by apply (Hd k y)|intros <-; apply prefix_refl].
Qed.

(** C26: the etcd registry implements a directory of instances by key and owner.  Run
    any sequence of calls on any number of registries over an empty etcd, with leases
    that expire in between; where a call returned no error its effect took place, where
    it failed the effect may have taken place or not, and closing a registry, or the end
    of its lease, takes exactly the instances it registered.
    After that, listing a service through any registry either returns the error of
    the read or exactly the instances whose name starts with the name asked for; these
    are the instances of that name when no other name extends it. *)
Theorem registry_refines ops w r n :
  view (w_etcd w) = ∅ → w_regs w = [] → Forall op_ok ops → contains1 "/" n = false →
  is_Some (w_regs (exec_all ops w).1 !! r) →
  ∃ d, spec_run (exec_all ops w).2 ∅ d ∧
    match etcd_Get (serviceKey n) [WithPrefix] (w_etcd (exec_all ops w).1) with
    | inl err => reg_ListServices r n [WithPrefix] (exec_all ops w).1 = ((exec_all ops w).1, Err err)
    | inr _ => ∃ l, reg_ListServices r n [WithPrefix] (exec_all ops w).1 = ((exec_all ops w).1, Ok l) ∧
        l ≡ₚ listed n d ∧
        ((∀ k y, d !! k = Some y → String.prefix n (Name y.1) = true → Name y.1 = n) → l ≡ₚ named n d)
    end.
Proof.
  intros Hv Hr Ho Hn Hr'. destruct (exec_all_simulates ops w ∅ (sim_empty w Hv Hr) Ho) as (d & Hd & Hw).
  exists d. split; [done|]. pose proof (ListServices_lists _ d r n Hw Hr' Hn) as Hl.
  destruct (etcd_Get _ _ _) as [err|kvs]; [done|]. destruct Hl as (l & Hl & Hp). exists l. split_and!; [done..|].
  intros Hd'. by rewrite Hp, listed_named.
Qed.

(** *** Discovery *)
(** A call that leaves the instance under a key alone. *)
Definition spares (k : string) (r : nat) (o : op) : Prop :=
  match o with
  | ORegister _ si | OUnRegister _ si => instanceKey si ≠ k
  | OClose r' | OExpire r' => r' ≠ r
  | _ => True
  end.
Lemma effect_spares k r si o d : spares k r o → d !! k = Some (si, r) → effect o d !! k = Some (si, r).
Proof.
  intros Ho Hd. destruct o; simpl in *; try done; [by rewrite lookup_insert_ne|by rewrite lookup_delete_ne|..];
    apply map_lookup_filter_Some; by split; [|simpl; congruence].
Qed.
Lemma spec_run_spares k r si l d d' : Forall (λ x, spares k r x.1) l → spec_run l d d' →
  d !! k = Some (si, r) → d' !! k = Some (si, r).
Proof.
  intros Hl. induction 1 as [|o ok l d d1 d' Hs _ IH]; intros Hd; [done|]. inversion Hl as [|? ? Ho Hl']; subst. apply IH; [done|].
  destruct Hs as [->|[_ ->]]; [by apply effect_spares|done].
Qed.
Lemma exec_all_ops ops w : map fst (exec_all ops w).2 = ops.
Proof.
  revert w. induction ops as [|o ops IH]; intros w; simpl; [done|]. destruct (exec o w) as [w1 ok].
  specialize (IH w1). destruct (exec_all ops w1) as [w2 l]. simpl in *. by rewrite IH.
Qed.
Lemma Start_register_ok Listen (s : Server nat) addr r w s1 w1 bound d :
  sim w d → s_registry s = Some r → json_ok (self_instance s bound) →
  Start_register Listen s addr w = (s1, w1, Ok bound) →
  sim w1 (<[instanceKey (self_instance s bound) := (self_instance s bound, r)]> d).
Proof.
  intros Hw Hr Hj. unfold Start_register. destruct (Listen addr) as [err|b]; [done|]. simpl. rewrite Hr.
  change (self_instance (set_listener (Some b) s) b) with (self_instance s b).
  pose proof (λ si, register_simulates r si w d Hw) as Hs. simpl in Hs. specialize (Hs (self_instance s b)).
  destruct (Registry_Registry r (self_instance s b) w) as [w' [[]|err|]] eqn:Hreg; intros Ho; simplify_eq/=.
  destruct (Hs Hj) as (d' & [->|[? _]] & Hd'); [done..|congruence].
Qed.

Lemma wr_collect_some scs total : Forall (λ p : nat * address, is_Some (attr_weight p.2)) scs → is_Some (wr_collect scs total).
Proof.
  intros Hs. revert total. induction Hs as [|[c a] scs [x Hx] _ IH]; intros total; simpl in *; [done|]. rewrite Hx.
  destruct (IH (u32 (total + x))) as [y ->]. done.
Qed.
Lemma swrr_collect_some scs : Forall (λ p : nat * address, is_Some (attr_weight p.2)) scs → is_Some (swrr_collect scs).
Proof. induction 1 as [|[c a] scs [x Hx] _ [y IH]]; simpl in *; [done|]. by rewrite Hx, IH. Qed.
(** Connections made for resolved addresses carry what the pickers and the filter read. *)
Lemma resolved_addresses_pick l scs tag : Forall (λ p, p.2 ∈ map ra_attrs (map to_address l)) scs →
  wr_Build scs ≠ Panic ∧ swrr_Build scs ≠ Panic ∧ Forall (λ p, GroupFilter (Some tag) p.2 ≠ Panic) scs.
Proof.
  intros Hs. assert (Ha : Forall (λ p : nat * address, is_Some (attr_weight p.2) ∧ is_Some (attr_group p.2)) scs).
  { eapply Forall_impl; [exact Hs|]. intros p. rewrite map_map. intros (si & -> & _)%list_elem_of_fmap. by split; eexists. }
  assert (Hw : Forall (λ p : nat * address, is_Some (attr_weight p.2)) scs) by (eapply Forall_impl; [exact Ha|]; by intros p [? _]).
  destruct (wr_collect_some scs 0 Hw) as [[cs t] Hc], (swrr_collect_some scs Hw) as [cs' Hc'].
  split_and!; [unfold wr_Build; rewrite Hc; by destruct scs|unfold swrr_Build; rewrite Hc'; by destruct scs|].
  eapply Forall_impl; [exact Ha|]. intros p [_ [x Hx]]. unfold GroupFilter. by rewrite Hx.
Qed.

Context {C : Type} `{ClientConn C}.
Lemma resolve_lists w d (g : grpcResolver nat) (cc : C) :
  sim w d → is_Some (w_regs w !! g_r g) → contains1 "/" (g_target g) = false →
  match etcd_Get (serviceKey (g_target g)) [WithPrefix] (w_etcd w) with
  | inl err => resolve g w cc = Some (w, ReportError err cc)
  | inr _ => ∃ l, l ≡ₚ listed (g_target g) d ∧
      resolve g w cc = Some (w, match UpdateState (map to_address l) cc with
                                | (cc, Some err) => ReportError err cc
                                | (cc, None) => cc
                                end)
  end.
Proof.
  intros Hw Hr Hn. pose proof (ListServices_lists w d (g_r g) (g_target g) Hw Hr Hn) as Hl.
  unfold resolve. destruct (etcd_Get _ _ _) as [err|kvs]; [by rewrite Hl|]. destruct Hl as (l & -> & Hp). exists l.
  split; [done|]. by destruct (UpdateState _ _) as [cc' [err|]].
Qed.

(** C18: what a server registers is what clients connect to.  A server that [Start]
    has registered and is about to serve is found by every resolver of its service,
    whatever calls are made on whatever registries and whatever leases expire in
    between, as long as its own registry is not closed, the lease of that registry is
    kept alive, and its key is neither removed nor registered again: unless the read
    fails, which is reported, the resolver hands gRPC a list with the address the
    server listens on, its weight and its group.  The name has no slash and the
    instance survives JSON.  On connections made for that list, building the weighted
    pickers and running the group filter does not panic; whether a pick does is
    another matter ([GrpcPickersFacts.wr_Pick_panics]). *)
Theorem discovery Listen (s s1 : Server nat) addr bound r ops0 ops w0 w1 (g : grpcResolver nat) (cc : C) :
  view (w_etcd w0) = ∅ → w_regs w0 = [] → Forall op_ok ops0 →
  s_registry s = Some r → contains1 "/" (s_name s) = false → json_ok (self_instance s bound) →
  Start_register Listen s addr (exec_all ops0 w0).1 = (s1, w1, Ok bound) →
  Forall op_ok ops → Forall (spares (instanceKey (self_instance s bound)) r) ops →
  g_target g = s_name s → is_Some (w_regs (exec_all ops w1).1 !! g_r g) →
  match etcd_Get (serviceKey (s_name s)) [WithPrefix] (w_etcd (exec_all ops w1).1) with
  | inl err => resolve g (exec_all ops w1).1 cc = Some ((exec_all ops w1).1, ReportError err cc)
  | inr _ => ∃ addrs,
      mkResAddr bound (mkAddr (Some (s_weight s)) (Some (s_group s))) ∈ addrs ∧
      resolve g (exec_all ops w1).1 cc
        = Some ((exec_all ops w1).1, match UpdateState addrs cc with
                                     | (cc, Some err) => ReportError err cc
                                     | (cc, None) => cc
                                     end) ∧
      ∀ scs tag, Forall (λ p, p.2 ∈ map ra_attrs addrs) scs →
        wr_Build scs ≠ Panic ∧ swrr_Build scs ≠ Panic ∧ Forall (λ p, GroupFilter (Some tag) p.2 ≠ Panic) scs
  end.
Proof.
  intros Hv Hr0 Ho0 Hr Hn Hj Hst Ho Hsp Ht Hg.
  destruct (exec_all_simulates ops0 w0 ∅ (sim_empty w0 Hv Hr0) Ho0) as (d0 & _ & Hw0).
  pose proof (Start_register_ok Listen s addr r _ s1 w1 bound d0 Hw0 Hr Hj Hst) as Hw1.
  destruct (exec_all_simulates ops w1 _ Hw1 Ho) as (d & Hd & Hw).
  assert (Hk : d !! instanceKey (self_instance s bound) = Some (self_instance s bound, r)).
  { eapply spec_run_spares; [|exact Hd|apply lookup_insert_eq]. rewrite <- Forall_map with (P := spares _ r). by rewrite exec_all_ops. }
  rewrite <- Ht in Hn |- *. pose proof (resolve_lists _ d g cc Hw Hg Hn) as Hl.
  destruct (etcd_Get _ _ _) as [err|kvs]; [done|]. destruct Hl as (l & Hl & Hres). exists (map to_address l). split_and!; [|done|].
  - apply list_elem_of_fmap. exists (self_instance s bound). split; [done|]. rewrite Hl. apply list_elem_of_filter.
    split; [simpl; rewrite Ht; apply prefix_refl|]. apply list_elem_of_fmap. eexists (_, (self_instance s bound, r)).
    split; [done|]. by apply elem_of_map_to_list.
  - intros scs tag. apply resolved_addresses_pick.
Qed.
End registry.

(** ** Watching *)
Section watching.
Context {E : Type} `{Etcd E} `{Json} {C : Type} `{ClientConn C}.
Implicit Types y : system E C.

(** Responses that pass without an event. *)
Definition silent (r : WatchResponse) : Prop := fwd_receive r = FSelect.
Definition eventful (r : WatchResponse) : Prop := ∃ ev evs, fwd_receive r = FSend (ev :: evs).

(** On the way from an event to the refresh. *)
Inductive refreshing (w : world E) (cc : C) (g : grpcResolver nat) (i : nat) : system E C → Prop :=
| rf_wait pre r post : Forall silent pre → eventful r →
    refreshing w cc g i (mkSys w cc g WSelect (Some i) FSelect (pre ++ r :: post))
| rf_send ev evs q : refreshing w cc g i (mkSys w cc g WSelect (Some i) (FSend (ev :: evs)) q)
| rf_resolve f q : refreshing w cc g i (mkSys w cc g WResolve (Some i) f q).
Definition refreshed (cc : C) y : Prop := y_watch y = WDone ∧ y_cc y = cc.

Lemma refreshing_ends w cc g i w' cc' y : resolve g w cc = Some (w', cc') → refreshing w cc g i y →
  ∃ y', rtc go_step y y' ∧ refreshed cc' y'.
Proof.
  intros Hres.
  assert (Hrs : ∀ f q, ∃ y', rtc go_step (mkSys w cc g WResolve (Some i) f q) y' ∧ refreshed cc' y').
  { intros f q. eexists. split; [eapply rtc_once, go_resolve, Hres|done]. }
  assert (Hsd : ∀ ev evs q, ∃ y', rtc go_step (mkSys w cc g WSelect (Some i) (FSend (ev :: evs)) q) y' ∧ refreshed cc' y').
  { intros ev evs q. destruct (Hrs (fwd_next evs) q) as (y' & Hy & Hf). exists y'. split; [|done].
    eapply rtc_l, Hy. apply go_handover. }
  intros [pre r post Hpre (ev & evs & Hr)|ev evs q|f q]; [|by apply Hsd|by apply Hrs].
  induction Hpre as [|r0 pre Hr0 _ (y' & Hy & Hf)]; simpl.
  - destruct (Hsd ev evs post) as (y' & Hy & Hf). exists y'. split; [|done]. eapply rtc_l, Hy. rewrite <- Hr. apply go_read.
  - exists y'. split; [|done]. eapply rtc_l; [apply go_read|]. unfold silent in Hr0. by rewrite Hr0.
Qed.
Lemma refreshing_step w cc g i w' cc' y y' : g_close g = false → ¬ sub_cancelled w i → resolve g w cc = Some (w', cc') →
  go_step y y' → refreshing w cc g i y → refreshing w cc g i y' ∨ refreshed cc' y'.
Proof.
  intros Hg Hc Hres Hs Hy. destruct Hy as [pre r post Hpre Hr|ev evs q|f q]; inversion Hs; simplify_eq; try congruence; try done.
  - left. destruct Hpre as [|r1 pre Hr1 Hpre]; simplify_eq/=.
    + destruct Hr as (ev & evs & ->). constructor.
    + rewrite Hr1. by constructor.
  - left. constructor.
  - left. constructor.
  - right. by split.
Qed.
Lemma refreshed_step cc y y' : quiet_step y y' → refreshed cc y → refreshed cc y'.
Proof. intros [Hs|Hs] [Hw Hc]; destruct Hs; simplify_eq/=; done. Qed.

(** An event reported by etcd makes the resolver refresh, in every run of the two
    goroutines.  Nothing that etcd reports afterwards reaches gRPC: the goroutine of
    [watch] ends with the first event, so without [ResolveNow] the list stays as it
    was then. *)
Lemma watch_refreshes_once w cc g i pre r post w' cc' y :
  g_close g = false → ¬ sub_cancelled w i → resolve g w cc = Some (w', cc') →
  Forall silent pre → eventful r →
  rtc go_step (mkSys w cc g WSelect (Some i) FSelect (pre ++ r :: post)) y →
  ∃ y', rtc go_step y y' ∧ refreshed cc' y' ∧ ∀ y'', rtc quiet_step y' y'' → refreshed cc' y''.
Proof.
  intros Hg Hc Hres Hpre Hr Hrun.
  assert (Hy : refreshing w cc g i y ∨ refreshed cc' y).
  { eapply (rtc_invariant _ (λ y, refreshing w cc g i y ∨ refreshed cc' y)); [|exact Hrun|left; by constructor].
    intros y1 y2 [Hy|Hy] Hs; [by eapply refreshing_step|right; eapply refreshed_step; [by left|done]]. }
  assert (Hstay : ∀ y1 y2, refreshed cc' y1 → rtc quiet_step y1 y2 → refreshed cc' y2).
  { intros y1 y2 Hy1 Hrun'. eapply (rtc_invariant _ (refreshed cc')); [|exact Hrun'|done]. intros ? ? ? Hs. by eapply refreshed_step. }
  destruct Hy as [Hy|Hy].
  - destruct (refreshing_ends w cc g i w' cc' y Hres Hy) as (y' & Hrun' & Hf). exists y'. eauto.
  - exists y. split; [done|]. eauto.
Qed.
(** The forwarding goroutine that still has events when [watch] has ended stays
    blocked on the channel, also after its context is cancelled. *)
Lemma forwarder_leaks y y' : y_watch y = WDone → (∃ ev evs, y_fwd y = FSend (ev :: evs)) → rtc quiet_step y y' →
  y_fwd y' = y_fwd y.
Proof.
  intros Hw (ev & evs & Hf) Hrun. rewrite Hf.
  enough (y_watch y' = WDone ∧ y_fwd y' = FSend (ev :: evs)) by tauto.
  eapply (rtc_invariant _ (λ y, y_watch y = WDone ∧ y_fwd y = FSend (ev :: evs))); [|exact Hrun|done].
  intros y1 y2 [? ?] [Hs|Hs]; destruct Hs; simplify_eq/=; done.
Qed.
End watching.

(** ** An etcd in memory, a text codec and a recording connection *)
Record mem := mkMem { m_keys : keys; m_next : nat }.
#[local] Instance mem_etcd : Etcd mem := {
  etcd_Put k v l e := if decide (l < m_next e)%nat then (mkMem (<[k := (v, l)]> (m_keys e)) (m_next e), None)
                      else (e, Some "requested lease not found");
  etcd_Delete k e := (mkMem (delete k (m_keys e)) (m_next e), None);
  etcd_Get k opts e :=
    inr (map_to_list (fst <$> match opts with
                              | [] => filter (λ kv, kv.1 = k) (m_keys e)
                              | _ => under k (m_keys e)
                              end));
  etcd_NewSession e := (mkMem (m_keys e) (S (m_next e)), inr (m_next e));
  etcd_CloseSession l e := (mkMem (revoke l (m_keys e)) (m_next e), None);
  etcd_Expire l e := mkMem (revoke l (m_keys e)) (m_next e) }.
Definition mem_granted (e : mem) : gset nat := list_to_set (seq 0 (m_next e)).
#[local] Instance mem_laws : EtcdLaws mem m_keys mem_granted.
Proof.
  split; unfold mem_granted; simpl; intros; try done; try (by right); try (by case_decide; auto).
  - by simplify_eq/=.
  - intros l. rewrite elem_of_union, elem_of_singleton, !elem_of_list_to_set, !elem_of_seq. lia.
  - simplify_eq. rewrite elem_of_union, elem_of_singleton, !elem_of_list_to_set, !elem_of_seq. lia.
Qed.

Definition sep : ascii := "|".
#[local] Instance text_json : Json := {
  json_Marshal si := inr (join (str1 sep) [Name si; Address si; pretty (Weight si + 1); Group si]);
  json_Unmarshal s :=
    match split1 sep s with
    | [n; a; x; g] => match atoi x with Some x => inr (mkSI n a (x - 1) g) | None => inl "bad weight" end
    | _ => inl "bad instance"
    end }.
Definition text_ok (si : ServiceInstance) : Prop :=
  0 <= Weight si < 2 ^ 32 ∧ Forall (λ s, contains1 sep s = false) [Name si; Address si; Group si].
Lemma number_clean w : 0 < w → contains1 sep (pretty w) = false.
Proof.
  intros Hw. pose proof (pretty_pos_all (λ c, negb (bool_decide (c = sep))) w Hw) as Ha.
  induction (pretty w) as [|c s IH]; [done|]. simpl in *.
  assert (Hd : ∀ d, is_digit d = true → negb (bool_decide (d = sep)) = true) by
    (intros d; destruct (decide (d = sep)) as [->|]; [vm_compute; done|by rewrite bool_decide_eq_false_2]).
  specialize (Ha Hd). apply andb_true_iff in Ha as [Hc Hs]. apply negb_true_iff in Hc. rewrite Hc. simpl. by apply IH.
Qed.
#[local] Instance text_json_laws : JsonLaws text_ok.
Proof.
  split. intros [n a x g] s [Hx Hs] Hm. assert (s = join (str1 sep) [n; a; pretty (x + 1); g]) as -> by (by injection Hm).
  cbn [Name Address Weight Group] in *. inversion Hs as [|? ? Hn Hs1]; subst.
  inversion Hs1 as [|? ? Ha Hs2]; subst. inversion Hs2 as [|? ? Hg _]; subst.
  cbn [json_Unmarshal text_json]. rewrite split1_join; [|done|repeat constructor; try done; apply number_clean; lia].
  rewrite atoi_pretty by lia. by rewrite Z.add_simpl_r.
Qed.

(** The last list of addresses, or the last error. *)
#[local] Instance recording : ClientConn (gerr + list resAddress) := {
  UpdateState l _ := (inr l, None);
  ReportError e _ := inl e }.

Definition user_a := mkSI "user" "10.0.0.1:80" 10 "A".
Definition user_b := mkSI "user" "10.0.0.2:80" 20 "B".
Definition user2_c := mkSI "user2" "10.0.0.3:80" 5 "A".
Definition empty_world : world mem := mkWorld (mkMem ∅ 0) [] [] [].
Lemma text_ok_dec si : bool_decide (0 <= Weight si < 2 ^ 32) && forallb (λ s, negb (contains1 sep s)) [Name si; Address si; Group si] = true → text_ok si.
Proof.
  intros [Hw Hs]%andb_true_iff. split; [by apply bool_decide_eq_true in Hw|]. apply Forall_forall. intros s Hin.
  rewrite forallb_forall in Hs. apply negb_true_iff, Hs. by apply list_elem_of_In.
Qed.

Lemma registry_refines_witness :
  ∃ d : directory, ∃ l,
    spec_run [(ONew, true); (ONew, true); (ORegister 0 user_a, true); (ORegister 1 user_b, true); (ORegister 1 user2_c, true);
              (OUnRegister 1 user_b, true); (OClose 0, true); (OExpire 0, true); (ORegister 7 user_a, false)] ∅ d ∧
    (reg_ListServices 1%nat "user" [WithPrefix]
       (exec_all [ONew; ONew; ORegister 0 user_a; ORegister 1 user_b; ORegister 1 user2_c;
                  OUnRegister 1 user_b; OClose 0; OExpire 0; ORegister 7 user_a] empty_world).1).2 = Ok l ∧
    l ≡ₚ listed "user" d.
Proof.
  destruct (registry_refines (view := m_keys) (granted := mem_granted) (json_ok := text_ok)
    [ONew; ONew; ORegister 0 user_a; ORegister 1 user_b; ORegister 1 user2_c; OUnRegister 1 user_b; OClose 0; OExpire 0; ORegister 7 user_a]
    empty_world 1 "user") as (d & Hd & l & Hl & Hp & _).
  - reflexivity.
  - reflexivity.
  - repeat constructor; apply text_ok_dec; reflexivity.
  - reflexivity.
  - by eexists.
  - exists d, l. split; [exact Hd|]. split; [by rewrite Hl|exact Hp].
Defined.

Definition listen_a (addr : string) : gerr + string := inr "10.0.0.1:80".
Definition user_server : Server nat := NewServer "user" 60 [ServerWithRegistry 0%nat; ServerWithWeight 10; ServerWithGroup "A"].
Definition two_registries : world mem := (exec_all [ONew; ONew; ORegister 1 user_b] empty_world).1.
Definition user_started : Server nat * world mem * res gerr string := Start_register listen_a user_server ":80" two_registries.
Definition later : world mem := (exec_all [ORegister 1 user2_c; OUnRegister 1 user_b; OExpire 1] user_started.1.2).1.
Lemma discovery_witness : ∃ addrs,
  resolve (mkResolver "user" 1%nat 60 false) later (inr []) = Some (later, inr addrs) ∧
  mkResAddr "10.0.0.1:80" (mkAddr (Some 10) (Some "A")) ∈ addrs.
Proof.
  destruct (discovery (view := m_keys) (granted := mem_granted) (json_ok := text_ok) listen_a user_server user_started.1.1 ":80" "10.0.0.1:80" 0
    [ONew; ONew; ORegister 1 user_b] [ORegister 1 user2_c; OUnRegister 1 user_b; OExpire 1] empty_world user_started.1.2
    (mkResolver "user" 1%nat 60 false) (inr [])) as (addrs & Ha & Hr & _).
  - reflexivity.
  - reflexivity.
  - repeat constructor; apply text_ok_dec; reflexivity.
  - reflexivity.
  - reflexivity.
  - apply text_ok_dec; reflexivity.
  - vm_compute; reflexivity.
  - repeat constructor; apply text_ok_dec; reflexivity.
  - repeat constructor; discriminate.
  - reflexivity.
  - vm_compute; by eexists.
  - exists addrs. split; [exact Hr|exact Ha].
Defined.

(** Listing [user] also lists the instances of [user2]. *)
Example user_lists_user2 :
  (reg_ListServices 0%nat "user" [WithPrefix] (exec_all [ONew; ORegister 0 user2_c] empty_world).1).2 = Ok [user2_c].
Proof. vm_compute. reflexivity. Qed.
(** A registration that fails leaves the listener open and the server not serving. *)
Example failed_start_keeps_listener :
  let '(s, _, o) := Start (W := world mem) listen_a (λ _ w, (w, None)) (NewServer "user" 60 [ServerWithRegistry 0%nat]) ":80"
                      (mkWorld (mkMem ∅ 0) [mkReg 3 []] [] []) in
  (s_listener s, o) = (Some "10.0.0.1:80", Err "requested lease not found").
Proof. vm_compute. reflexivity. Qed.
